(* ===== verification/_CoqProject ===== *)
-Q . S2P
Prelude.v
Zero.v
Digest.v
DigestList.v
Ring.v
State.v
Event.v
EventPipe.v
Completion.v
Submission.v
Config.v
HashPool.v
Blkhash.v
PoolInv.v
PoolStep.v
Progress.v
Spec.v
PoolCaller.v
PoolAio.v
BlkhashInv.v
BlkhashOps.v
BlkhashUpdate.v
Api.v
ApiAio.v
Init.v
Session.v
Reach.v
Free.v
Account.v
Poll.v
AccountApi.v
Client.v
Demo.v
ClientTheorems.v
AsyncCalls.v
Reuse.v
Leaves.v
PoolTheorems.v
Theorems.v
Types.v
Findings.v
Src.v
Cli.v
CliTheorems.v
Process.v
Server.v
ServerTheorems.v
Double.v
ProgressBar.v
Thread.v
Hasher.v
AioHash.v
AioChecksum.v
AioInv.v
AioLoop.v
Blksum.v
Checksum.v
ChecksumTheorems.v
ExampleSync.v
ExampleAio.v
ExampleTheorems.v
Image.v
ImageTheorems.v
Main.v
