(* ===== verification/Prelude.v ===== *)
(** * A verification of blkhash

    blkhash computes a digest of a disk image by hashing fixed size blocks in
    parallel: H( H(block 1) || ... || H(block N) || length ).  Blocks of zeros are
    detected and never hashed.  The repository has a C library (lib/, include/),
    the command blksum that runs the library on images (bin/, common/), and a
    reference implementation in Python (test/blkhash.py).

    ** Parts of the program and their models

    The library is a caller thread that cuts the data into blocks and a pool of
    worker threads that hash blocks.  Both share submissions (a block with its
    digest), completions (an async update) and a completion queue.

    - Zero: lib/zero.c, detection of zero blocks.
    - Digest: lib/digest.h and lib/digest.c.  [DigestOps] is the table of operations,
      [DigestLaws] what the rest of the library relies on, [Digest.Impl] the null,
      BLAKE3 and EVP digests over the crypto libraries, which are parameters with
      their documented laws; [Digest.Toy] is a concrete instance.  DigestList: the list
      of digests, and how blksum prints it.
    - Ring: the ring buffers of lib/submission.c and lib/hash-pool.c, with counters at
      their width, and what list a ring stands for.
    - State: the structures of all headers, the state [shared] that caller and workers
      share, the state [blkhash] of the caller, and the environment [Env].
    - Event, Completion, Submission, Config: lib/event.c (the eventfd variant; EventPipe has
      the pipe variant, from opening to closing, on its own), lib/completion.c with the callback of lib/blkhash.c, lib/submission.[ch],
      lib/config.c with the option functions of lib/blkhash.c.
    - HashPool: lib/hash-pool.c with lib/threads.h.  A worker is a state machine
      ([wstate]) whose steps are its critical sections and atomic operations.
    - Blkhash: lib/blkhash.c, the whole public API.
    - Src: extents and reads of bin/src.h, bin/nbd-src.c and bin/file-src.c.
      Cli: options, sizes, probing and environment of bin/blksum.c, bin/probe.c,
      bin/nbd-server.c, bin/src.c and common/util.c.
    - Process: the flags, signals, failures and the end of [main] of bin/blksum.c, the
      memory and the files of the program, and bin/pipe-src.c.
    - Hasher: the interface between the worker of blksum and its hash, a class of calls
      and a class of laws.  Thread: code that can end its thread and leave the state to
      the others.  AioChecksum: the loop of bin/aio-checksum.c over any hash.
      AioHash: the library as an instance, with its laws.
    - Image: the rest of bin/aio-checksum.c (creating and destroying the worker, its
      thread), bin/probe.c, opening sources, and [main] with a file name: the worker, the
      library, the flags of the program and the machine of Server together.
    - Checksum: bin/checksum.c and [main] for the standard input, on top of Process and
      of the library.
    - Main: the whole [main] of bin/blksum.c, from its command line.
    - Server: the life of the qemu-nbd process of bin/nbd-server.c, over a machine with
      files, descriptors, children and signals.
    - ProgressBar: bin/progress.c, over the double precision arithmetic of Double.
    - ExampleAio, ExampleSync: man/example-aio.c and man/example.c on top of the library.
    - Spec: the definition of the hash and the reference implementation ([Py]).

    Code runs in the state and error monad [M] of this file.  A crash is a value:
    [CAssert], [CMemory] (any access to an object that is not live, a double free, a
    read past a buffer), [CDivZero], [CNoFuel] and [CExit].

    ** Concurrency, failures and fuel

    The environment [Env] resolves everything the code does not decide: the errno of
    every fallible call ([fault]), which waiter a condition signal wakes ([wake]),
    which worker steps and spurious wakeups happen at every scheduling point ([sched];
    the caller passes one before every access to shared state), and how many
    iterations a waiting loop may take ([spins]).  Theorems quantify over it.
    [live_env] is a fair environment without failures: every worker is scheduled at
    least once in any window of some length, and [spins] covers as many windows as
    the workers may need to drain the work queue; under it no loop runs out of fuel,
    which the total theorems prove.  Other loops take as fuel a bound computed from
    their arguments (the queue length, the number of bytes or blocks), and the proofs
    show that it is enough.  The loop of blksum gets [enough] iterations: a command takes
    four steps (read, hash, two completions) for at least one byte, between two steps
    the hash announces completions at most [S spins] times, because the pool drains at
    every wait, and between two announcements the source has at most [G] events that
    complete no read.  The example waits at most [spins] times for a request: every wait is a
    scheduling point, and fairness completes all submissions within that many.

    ** Proofs

    - PoolInv, PoolStep: the invariant of the pool and that every worker step keeps
      it.  Progress: a potential that every fair window decreases, so waiting ends.
      PoolCaller, PoolAio: the operations the caller performs on shared state.
    - BlkhashInv, BlkhashOps, BlkhashUpdate, Api, ApiAio: the invariant of the caller
      (which bytes of the message are hashed, submitted, pending) and every operation
      of lib/blkhash.c up to the public calls.  Init: creating a hash establishes it.
      Session, Reach: sequences of calls and reachable states.
    - Free: freeing a hash.  Account, AccountApi: where every submission and every async
      update is, kept by every operation that does not fail; Client: the same for a
      client in any interleaving.  Poll: waiting for completions ends, and a client
      that keeps asking has them all after a bounded number of scheduling points.
      AsyncCalls: the rules for programs that use the async interface; [Account] also
      tracks which buffers the submissions may still read (the classes [Ownership] and
      [Claims]), so that a client may use the others again.
    - AioInv, AioLoop: the invariant of the worker of blksum and its loop, against the
      laws of Hasher.

    ** Theorems

    - Theorems: the digest of sync and async sessions is the specified one, in every
      environment, whatever the threads, the schedule and the split into calls, and
      sessions end under a fair scheduler; no crash; equality with the reference
      implementation; bounds of all queues; errors and accounting.  Types: the counters,
      lengths and indices of the hash, its configuration, queues and submissions are in
      the range of their C types.
    - ClientTheorems: as long as the hash has no error, async updates are reported exactly
      once, notifications are not lost and waiting ends; freeing releases everything, and
      the submissions too if there was no error.  Reuse: a buffer can be used
      again as soon as its update was reported.
    - PoolTheorems: the worker state machine, no lost wakeup, termination of waiting,
      ownership of submissions and completions, the state of a new hash.
    - Leaves: queue, zero test, length encoding, completions, events, options, sizes.
      DigestList and Digest: digests.
    - ChecksumTheorems: blksum of the standard input prints the block hash of its input,
      and nothing else.  ExampleTheorems and ExampleSync: so do the examples of the
      manual for their data.  All are proved of whole programs together with the library.
    - Src, Blksum: the worker of blksum passes exactly the image to its hash, and ends.
      ImageTheorems: blksum of an image, the whole program with the library and the
      server, prints the block hash of the image and nothing else, and stops the server
      also after its thread failed.  Main: so does the program for every command line, with
      the digest and block size it asks for.  What is given back at the end is counted: the
      blocks and the files of the program ([p_blocks], [p_files]), the memory of the server
      ([Server.heap]) and the hash ([released]).  The theorems name what the code leaks: the
      NBD handle or descriptor of a source that was not opened completely ([leaked]), the
      source of a thread that failed, and the strings that [free_env] does not reach
      ([env_leak]).
    - ServerTheorems: what starting and stopping qemu-nbd leaves on the machine, and
      what the child inherits.
    - CliTheorems: options, sizes, printing, environment, probing.  ProgressBar: the bar
      stays inside its buffer and ends at 100.  EventPipe: no signal is lost.
    - Demo is a concrete environment for the witnesses; Findings has executions that
      deviate from the documentation.

    ** Not modelled

    The crypto libraries, libnbd, qemu-nbd and the kernel are parameters.  Memory
    orders are sequentially consistent: the code uses acquire and release atomics for
    the only data it shares without a mutex.  The error of a hash, which the caller
    reads without synchronization, is read at a scheduling point.  A mutex or a condition
    variable that fails to lock or to wait aborts the program and is not modelled.
    Messages, the help text, timers, the blocking read of the NBD source, which nothing
    calls, tests and benchmarks are left out.  Freeing a digest has no effect. *)

From stdpp Require Import prelude list.
From Stdlib Require Import ZArith Lia.
From Stdlib Require Strings.Byte.

(** ** Bytes

    [unsigned char] buffers are lists of Stdlib bytes: every value of the type
    is in range, so no theorem needs a side condition on the contents. *)

Abbreviation byte := Byte.byte.

#[export] Instance byte_eq_dec : EqDecision byte := Byte.byte_eq_dec.

Definition zero_byte : byte := Byte.x00.

Definition byte_val (b : byte) : Z := Z.of_N (Byte.to_N b).

(** The byte with value [z mod 256]: what a store of [z] through an
    [unsigned char *] leaves in memory. *)
Definition byte_of_Z (z : Z) : byte :=
  default zero_byte (Byte.of_N (Z.to_N (z mod 256))).

(** ** Machine integers *)

Local Open Scope Z_scope.

Definition u8 (z : Z) : Z := z mod 2 ^ 8.
Definition u32 (z : Z) : Z := z mod 2 ^ 32.
Definition u64 (z : Z) : Z := z mod 2 ^ 64.
Definition s32 (z : Z) : Z := (z + 2 ^ 31) mod 2 ^ 32 - 2 ^ 31.
Definition s64 (z : Z) : Z := (z + 2 ^ 63) mod 2 ^ 64 - 2 ^ 63.

Lemma u8_small n : 0 <= n < 2 ^ 8 → u8 n = n.
Proof. intros. unfold u8. by apply Z.mod_small. Qed.

Lemma u32_small n : 0 <= n < 2 ^ 32 → u32 n = n.
Proof. intros. unfold u32. by apply Z.mod_small. Qed.

(** Lengths of byte buffers as C sizes. *)
Definition zlen {A} (l : list A) : Z := Z.of_nat (length l).

(** The first [n] bytes at a pointer, and the pointer advanced by [n]. *)
Definition ztake {A} (n : Z) (l : list A) : list A := take (Z.to_nat n) l.
Definition zdrop {A} (n : Z) (l : list A) : list A := drop (Z.to_nat n) l.

(** [calloc] and [memset(.., 0, ..)] buffers. *)
Definition zeros (n : Z) : list byte := replicate (Z.to_nat n) zero_byte.

(** ** Facts on buffers *)

Lemma zlen_app {A} (l k : list A) : zlen (l ++ k) = zlen l + zlen k.
Proof. unfold zlen. rewrite length_app. lia. Qed.

Lemma zlen_nonneg {A} (l : list A) : 0 <= zlen l.
Proof. unfold zlen. lia. Qed.

Lemma zlen_nil {A} : zlen (@nil A) = 0.
Proof. done. Qed.

Lemma zlen_cons {A} (x : A) l : zlen (x :: l) = 1 + zlen l.
Proof. unfold zlen. simpl length. lia. Qed.

Lemma zlen_zeros n : 0 <= n → zlen (zeros n) = n.
Proof. intros. unfold zlen, zeros. rewrite length_replicate. lia. Qed.

Lemma zlen_ztake {A} n (l : list A) : 0 <= n <= zlen l → zlen (ztake n l) = n.
Proof. unfold zlen, ztake. rewrite length_take. lia. Qed.

Lemma zlen_zdrop {A} n (l : list A) : 0 <= n <= zlen l → zlen (zdrop n l) = zlen l - n.
Proof. unfold zlen, zdrop. rewrite length_drop. lia. Qed.

Lemma ztake_zdrop {A} n (l : list A) : ztake n l ++ zdrop n l = l.
Proof. apply take_drop. Qed.

Lemma ztake_all {A} n (l : list A) : zlen l <= n → ztake n l = l.
Proof. intros. unfold ztake, zlen in *. apply take_ge. lia. Qed.

Lemma ztake_app_le {A} n (l k : list A) : n <= zlen l → ztake n (l ++ k) = ztake n l.
Proof. intros. unfold ztake, zlen in *. apply take_app_le. lia. Qed.

Lemma zdrop_ge {A} n (l : list A) : zlen l <= n → zdrop n l = [].
Proof. unfold zdrop, zlen. intros Hl. apply drop_ge. lia. Qed.

Lemma ztake_ztake {A} n m (l : list A) : n <= m → ztake n (ztake m l) = ztake n l.
Proof. intros. unfold ztake. rewrite take_take. f_equal. lia. Qed.

Lemma zdrop_zdrop {A} n m (l : list A) :
  0 <= n → 0 <= m → zdrop n (zdrop m l) = zdrop (m + n) l.
Proof. intros. unfold zdrop. rewrite drop_drop. f_equal. lia. Qed.

Lemma zeros_add n m : 0 <= n → 0 <= m → zeros (n + m) = zeros n ++ zeros m.
Proof.
  intros. unfold zeros. rewrite Z2Nat.inj_add by lia. apply replicate_add.
Qed.

(** ** errno values (Linux) *)

Definition EPERM := 1.
Definition ENOENT := 2.
Definition EINTR := 4.
Definition EIO := 5.
Definition EAGAIN := 11.
Definition ENOMEM := 12.
Definition EINVAL := 22.
Definition ENOTSUP := 95.
Definition ENOBUFS := 105.

(** ** Outcomes of running C code

    [Ret a s]: the function returned [a] in state [s].  [Crash c]: it did not
    return normally.  [CAssert] is a failed [assert] or [abort], [CMemory] an
    access to freed, NULL or uninitialized memory, [CDivZero] a division by
    zero, [CNoFuel] a loop that waits for another thread and was not satisfied
    within the bound the environment gives, and [CExit] that the program printed an
    error and exited ([fail()] of blksum). *)

Inductive crash := CAssert | CMemory | CDivZero | CNoFuel | CExit.

Inductive outcome (St A : Type) :=
| Ret (a : A) (s : St)
| Crash (c : crash).
Arguments Ret {St A} _ _.
Arguments Crash {St A} _.

#[export] Instance crash_eq_dec : EqDecision crash.
Proof. solve_decision. Defined.

Definition M (St A : Type) : Type := St → outcome St A.

#[export] Instance M_ret St : MRet (M St) := λ A a s, Ret a s.
#[export] Instance M_bind St : MBind (M St) := λ A B k m s,
  match m s with
  | Ret a s' => k a s'
  | Crash c => Crash c
  end.

Section primitives.
Context {St : Type}.

Definition get : M St St := λ s, Ret s s.
Definition gets {A} (f : St → A) : M St A := λ s, Ret (f s) s.
Definition modify (f : St → St) : M St unit := λ s, Ret tt (f s).
Definition crashM {A} (c : crash) : M St A := λ _, Crash c.

(** [assert(b)] *)
Definition assertM (b : bool) : M St unit :=
  if b then mret tt else crashM CAssert.

(** Dereference a pointer that may be invalid. *)
Definition derefM {A} (o : option A) : M St A :=
  match o with Some a => mret a | None => crashM CMemory end.

(** Run a computation on a component of the state. *)
Definition zoom {T A} (prj : St → T) (upd : T → St → St) (m : M T A) : M St A :=
  λ s, match m (prj s) with
       | Ret a t => Ret a (upd t s)
       | Crash c => Crash c
       end.
End primitives.

(** [if (rc) return ret; k] for an integer status. *)
Definition fails (rc : Z) : bool := negb (rc =? 0).

(** ** Weakest preconditions

    [wp nf m Q s]: running [m] from [s] does not fail an assertion, touch
    invalid memory or divide by zero; if it returns, [Q] holds of the result
    and the final state; and it runs out of fuel only if [nf] holds.  With
    [nf := False] this is total correctness. *)

Definition wp (nf : Prop) {St A} (m : M St A) (Q : A → St → Prop) (s : St) : Prop :=
  match m s with
  | Ret a s' => Q a s'
  | Crash CNoFuel => nf
  | Crash _ => False
  end.

Section wp.
Context (nf : Prop) {St : Type}.
Implicit Types s : St.

Lemma wp_ret {A} (a : A) (Q : A → St → Prop) s : Q a s → wp nf (mret a) Q s.
Proof. done. Qed.

Lemma wp_bind {A B} (m : M St A) (k : A → M St B) (Q : B → St → Prop) s :
  wp nf m (λ a s', wp nf (k a) Q s') s → wp nf (m ≫= k) Q s.
Proof. unfold wp, mbind, M_bind. destruct (m s) as [a s'|[]]; done. Qed.

Lemma wp_mono {A} (m : M St A) (P Q : A → St → Prop) s :
  wp nf m P s → (∀ a s', P a s' → Q a s') → wp nf m Q s.
Proof. unfold wp. destruct (m s) as [a s'|[]]; auto. Qed.

Lemma wp_get (Q : St → St → Prop) s : Q s s → wp nf get Q s.
Proof. done. Qed.

Lemma wp_gets {A} (f : St → A) (Q : A → St → Prop) s :
  Q (f s) s → wp nf (gets f) Q s.
Proof. done. Qed.

Lemma wp_modify (f : St → St) (Q : unit → St → Prop) s :
  Q tt (f s) → wp nf (modify f) Q s.
Proof. done. Qed.

Lemma wp_assertM b (Q : unit → St → Prop) s :
  b = true → Q tt s → wp nf (assertM b) Q s.
Proof. by intros ->. Qed.

Lemma wp_derefM {A} (o : option A) a (Q : A → St → Prop) s :
  o = Some a → Q a s → wp nf (derefM o) Q s.
Proof. by intros ->. Qed.

Lemma wp_nofuel {A} (Q : A → St → Prop) s : nf → wp nf (crashM CNoFuel) Q s.
Proof. done. Qed.

Lemma wp_zoom {T A} (prj : St → T) (upd : T → St → St) (m : M T A) Q s :
  wp nf m (λ a t, Q a (upd t s)) (prj s) → wp nf (zoom prj upd m) Q s.
Proof. unfold wp, zoom. destruct (m (prj s)) as [a t|[]]; done. Qed.

Lemma wp_run {A} (m : M St A) Q s a s' : wp nf m Q s → m s = Ret a s' → Q a s'.
Proof. unfold wp. intros H Hm. by rewrite Hm in H. Qed.

Lemma wp_total {A} (m : M St A) Q s :
  wp False m Q s → ∃ a s', m s = Ret a s' ∧ Q a s'.
Proof. unfold wp. destruct (m s) as [a s'|[]]; naive_solver. Qed.
End wp.

(** What needs no fuel may be given any. *)
Lemma wp_nf (nf : Prop) {St A} (m : M St A) (P Q : A → St → Prop) s :
  wp False m P s → (∀ a s', P a s' → Q a s') → wp nf m Q s.
Proof. unfold wp. destruct (m s) as [a s'|[]]; naive_solver. Qed.

(** Steps over the primitive at the head of a computation. *)
Ltac wp_step :=
  lazymatch goal with
  | |- wp _ (mbind _ _) _ _ => apply wp_bind
  | |- wp _ (mret _) _ _ => apply wp_ret
  | |- wp _ get _ _ => apply wp_get
  | |- wp _ (gets _) _ _ => apply wp_gets
  | |- wp _ (modify _) _ _ => apply wp_modify
  | |- wp _ (zoom _ _ _) _ _ => apply wp_zoom
  | |- wp _ (let _ := _ in _) _ _ => cbv zeta
  | |- wp _ (derefM (Some _)) _ _ => eapply wp_derefM; [reflexivity|]
  | |- wp _ (if fails 0 then _ else _) _ _ => change (fails 0) with false; cbv iota
  | |- wp _ (if negb (0 =? 0) then _ else _) _ _ => change (negb (0 =? 0)) with false; cbv iota
  | |- wp _ (if ?b then _ else _) _ _ => destruct b eqn:?
  end.

Ltac wp_steps := repeat (wp_step; cbv beta).

(** ** Weakest preconditions with a set of tolerated crashes

    [wpc E m Q s]: [m] returns in a state that satisfies [Q], or crashes in one of
    the ways [E]. *)

Definition wpc (E : crash → Prop) {St A} (m : M St A) (Q : A → St → Prop) (s : St) : Prop :=
  match m s with Ret a s' => Q a s' | Crash k => E k end.

Section wpc.
Context (E : crash → Prop) {St : Type}.
Implicit Types s : St.

Lemma wpc_bind {A B} (m : M St A) (k : A → M St B) (Q : B → St → Prop) s :
  wpc E m (λ a s', wpc E (k a) Q s') s → wpc E (m ≫= k) Q s.
Proof. unfold wpc, mbind, M_bind. by destruct (m s). Qed.

Lemma wpc_mono {A} (m : M St A) (P Q : A → St → Prop) s :
  wpc E m P s → (∀ a s', P a s' → Q a s') → wpc E m Q s.
Proof. unfold wpc. destruct (m s); auto. Qed.

Lemma wpc_assertM b (Q : unit → St → Prop) s : b = true → Q tt s → wpc E (assertM b) Q s.
Proof. by intros ->. Qed.

Lemma wpc_derefM {A} (o : option A) a (Q : A → St → Prop) s :
  o = Some a → Q a s → wpc E (derefM o) Q s.
Proof. by intros ->. Qed.

Lemma wpc_ret {A} (a : A) (Q : A → St → Prop) s : Q a s → wpc E (mret a) Q s.
Proof. done. Qed.

Lemma wpc_get (Q : St → St → Prop) s : Q s s → wpc E get Q s.
Proof. done. Qed.

Lemma wpc_modify (f : St → St) (Q : unit → St → Prop) s : Q tt (f s) → wpc E (modify f) Q s.
Proof. done. Qed.

Lemma wpc_crash {A} k (Q : A → St → Prop) s : E k → wpc E (crashM k) Q s.
Proof. done. Qed.

Lemma wpc_gets {A} (f : St → A) (Q : A → St → Prop) s : Q (f s) s → wpc E (gets f) Q s.
Proof. done. Qed.

Lemma wpc_zoom {T A} (prj : St → T) (upd : T → St → St) (m : M T A) Q s :
  wpc E m (λ a t, Q a (upd t s)) (prj s) → wpc E (zoom prj upd m) Q s.
Proof. unfold wpc, zoom. by destruct (m (prj s)). Qed.

Lemma wpc_wp {A} (m : M St A) (Q : A → St → Prop) s : wp (E CNoFuel) m Q s → wpc E m Q s.
Proof. unfold wp, wpc. by destruct (m s) as [a s'|[]]. Qed.

(** When every crash is tolerated, only the results matter. *)
Lemma wpc_any {A} (m : M St A) (Q : A → St → Prop) s :
  (∀ k, E k) → (∀ a s', Q a s') → wpc E m Q s.
Proof. unfold wpc. intros. by destruct (m s). Qed.
End wpc.

Ltac wpc_step :=
  lazymatch goal with
  | |- wpc _ (mbind _ _) _ _ => apply wpc_bind
  | |- wpc ?E (mret ?a) ?Q ?s => apply (wpc_ret E a Q s)
  | |- wpc ?E get ?Q ?s => apply (wpc_get E Q s)
  | |- wpc ?E (gets ?f) ?Q ?s => apply (wpc_gets E f Q s)
  | |- wpc _ (zoom _ _ _) _ _ => apply wpc_zoom
  | |- wpc ?E (modify ?f) ?Q ?s => apply (wpc_modify E f Q s)
  | |- wpc _ (let _ := _ in _) _ _ => cbv zeta
  | |- wpc _ (if ?b then _ else _) _ _ => destruct b eqn:?
  end; cbv beta.

(** ** Bits *)

(** [Z.lor] of a shifted number and one below the shift is their sum. *)
Lemma lor_shiftl a b n : 0 <= n → 0 <= b < 2 ^ n → Z.lor (Z.shiftl a n) b = a * 2 ^ n + b.
Proof.
  intros Hn Hb. assert (Z.land (Z.shiftl a n) b = 0) as Hl.
  { apply Z.bits_inj'. intros i Hi. rewrite Z.land_spec, Z.bits_0.
    destruct (Z.lt_ge_cases i n).
    - by rewrite Z.shiftl_spec_low by lia.
    - rewrite <-(Z.mod_small b (2 ^ n)), Z.mod_pow2_bits_high, andb_false_r by lia. done. }
  rewrite <-(Z.lxor_lor _ _ Hl), <-(Z.add_nocarry_lxor _ _ Hl), Z.shiftl_mul_pow2 by lia. done.
Qed.
