(* ===== verification/Zero.v ===== *)
(** * Zero detection (lib/zero.c)

    [is_zero] decides whether a buffer holds only zero bytes by testing its
    first 16 bytes and then comparing the buffer with itself shifted by 16
    bytes.  The theorem at the end shows that this is exact. *)

From stdpp Require Import prelude list.
From Stdlib Require Import ZArith Lia.
From S2P Require Import Prelude.

Local Open Scope Z_scope.

(** ** What zero.c uses of the C library *)

(** [memcmp]: the sign of the first difference. *)
Fixpoint memcmp (a b : list byte) (n : nat) : Z :=
  match n, a, b with
  | S n', x :: a', y :: b' =>
      if byte_val x <? byte_val y then -1
      else if byte_val y <? byte_val x then 1
      else memcmp a' b' n'
  | _, _, _ => 0
  end.

(** The value of the little-endian word held in a list of bytes, which is what
    [memcpy] into a [uint64_t] gives. *)
Fixpoint load_le (l : list byte) : Z :=
  match l with
  | [] => 0
  | b :: l' => Z.lor (byte_val b) (Z.shiftl (load_le l') 8)
  end.

(** ** is_zero() *)

Definition is_zero {St} (buf : list byte) (len : Z) : M St bool :=
  assertM (16 <=? len);;
  (if zlen buf <? len then crashM CMemory else mret tt);;
  let n0 := load_le (ztake 8 buf) in
  let n1 := load_le (ztake 8 (zdrop 8 buf)) in
  if fails (Z.lor n0 n1) then mret false
  else mret (memcmp buf (zdrop 16 buf) (Z.to_nat (len - 16)) =? 0).

(** ** Lemmas *)

Lemma byte_val_range b : 0 <= byte_val b < 256.
Proof.
  unfold byte_val. pose proof (Byte.to_N_bounded b). lia.
Qed.

Lemma byte_val_inj a b : byte_val a = byte_val b → a = b.
Proof.
  unfold byte_val. intros H%N2Z.inj.
  pose proof (Byte.of_to_N a) as Ha. pose proof (Byte.of_to_N b) as Hb.
  congruence.
Qed.

Lemma byte_val_zero b : byte_val b = 0 ↔ b = zero_byte.
Proof. split; [apply (byte_val_inj b zero_byte) | by intros ->]. Qed.

Lemma memcmp_eq_0 (a b : list byte) n :
  (n ≤ length a)%nat → (n ≤ length b)%nat →
  memcmp a b n = 0 ↔ take n a = take n b.
Proof.
  revert a b. induction n as [|n IH]; intros [|x a] [|y b]; simpl; try (done || lia).
  intros Ha Hb. destruct (byte_val x <? byte_val y) eqn:E1, (byte_val y <? byte_val x) eqn:E2;
    try (split; [done|intros [= -> _]; lia]).
  assert (x = y) as -> by (apply byte_val_inj; lia).
  rewrite IH by lia. split; [by intros ->|by intros [=]].
Qed.

Lemma load_le_nonneg l : 0 <= load_le l.
Proof.
  induction l as [|b l IH]; simpl; [lia|].
  apply Z.lor_nonneg. split; [apply byte_val_range|by apply Z.shiftl_nonneg].
Qed.

Lemma load_le_0 l : load_le l = 0 ↔ l = replicate (length l) zero_byte.
Proof.
  induction l as [|b l IH]; simpl; [done|].
  rewrite Z.lor_eq_0_iff, byte_val_zero, Z.shiftl_eq_0_iff, IH by lia.
  split; [by intros [-> ->]; rewrite length_replicate|by intros [= -> ->]; rewrite length_replicate].
Qed.

(** A buffer that starts with [k] zeros and equals itself shifted by [k] is
    all zeros. *)
Lemma shifted_zeros (l : list byte) k n :
  (0 < k)%nat → (k + n ≤ length l)%nat →
  take k l = replicate k zero_byte →
  take n l = take n (drop k l) ↔ take (k + n) l = replicate (k + n) zero_byte.
Proof.
  intros Hk Hl Hz. split; intros H.
  - assert (∀ i, (i < k + n)%nat → l !! i = Some zero_byte) as Hall.
    { intros i. induction i as [i IH] using lt_wf_ind. intros Hi.
      destruct (decide (i < k)%nat).
      - rewrite <-(lookup_take_lt _ k), Hz by done. by apply lookup_replicate.
      - assert (take n l !! (i - k)%nat = take n (drop k l) !! (i - k)%nat) as Hs by congruence.
        rewrite !lookup_take_lt, lookup_drop in Hs by lia.
        replace (k + (i - k))%nat with i in Hs by lia.
        rewrite <-Hs. apply IH; lia. }
    apply list_eq. intros i. destruct (decide (i < k + n)%nat).
    + rewrite lookup_take_lt, Hall by lia. symmetry. by apply lookup_replicate.
    + rewrite !lookup_ge_None_2; [done|rewrite length_replicate; lia|rewrite length_take; lia].
  - apply list_eq. intros i. destruct (decide (i < n)%nat).
    + rewrite !lookup_take_lt, lookup_drop by lia.
      rewrite <-(lookup_take_lt l (k + n)), <-(lookup_take_lt l (k + n) (k + i)), H by lia.
      by rewrite !lookup_replicate_2 by lia.
    + rewrite !lookup_take_ge by lia. done.
Qed.

Lemma is_zero_spec nf {St} (buf : list byte) len (Q : bool → St → Prop) s :
  16 <= len <= zlen buf →
  Q (bool_decide (ztake len buf = zeros len)) s →
  wp nf (is_zero buf len) Q s.
Proof.
  unfold is_zero, zlen. intros Hlen HQ.
  wp_step. apply wp_assertM; [lia|].
  wp_step. destruct (_ <? _) eqn:?; [lia|]. wp_step.
  assert (Hh : take 16 buf = ztake 8 buf ++ ztake 8 (zdrop 8 buf)).
  { unfold ztake, zdrop. change (Z.to_nat 8) with 8%nat.
    rewrite <-(take_drop 8 buf) at 1. rewrite take_app_ge by (rewrite length_take; lia).
    f_equal. rewrite length_take. f_equal. lia. }
  assert (Hl1 : length (ztake 8 buf) = 8%nat) by (unfold ztake; rewrite length_take; lia).
  assert (Hl2 : length (ztake 8 (zdrop 8 buf)) = 8%nat)
    by (unfold ztake, zdrop; rewrite length_take, length_drop; lia).
  assert (Hz : Z.lor (load_le (ztake 8 buf)) (load_le (ztake 8 (zdrop 8 buf))) = 0 ↔
    take 16 buf = replicate 16 zero_byte).
  { rewrite Hh, Z.lor_eq_0_iff, !load_le_0, Hl1, Hl2.
    change 16%nat with (8 + 8)%nat. rewrite replicate_add. split; [by intros [-> ->]|].
    intros H. by apply app_inj_1 in H; [|rewrite Hl1, length_replicate]. }
  cbv zeta. unfold fails. destruct (Z.lor _ _ =? 0) eqn:E; simpl.
  - apply Z.eqb_eq, Hz in E. wp_step.
    pose proof (shifted_zeros buf 16 (Z.to_nat (len - 16)) ltac:(lia) ltac:(lia) E) as Hs.
    unfold ztake, zeros in HQ. replace (Z.to_nat len) with (16 + Z.to_nat (len - 16))%nat in HQ by lia.
    replace (memcmp _ _ _ =? 0) with
      (bool_decide (take (16 + Z.to_nat (len - 16)) buf
                    = replicate (16 + Z.to_nat (len - 16)) zero_byte)); [done|].
    apply eq_bool_prop_intro. rewrite bool_decide_spec, <-Hs.
    rewrite <-memcmp_eq_0; [by rewrite Is_true_true, Z.eqb_eq|lia|].
    rewrite length_drop. lia.
  - wp_step. rewrite bool_decide_eq_false_2 in HQ; [done|]. intros Hall.
    apply Z.eqb_neq in E. apply E, Hz. unfold ztake, zeros in Hall.
    replace (take 16 buf) with (take 16 (take (Z.to_nat len) buf)) by (rewrite take_take; f_equal; lia).
    rewrite Hall, take_replicate. f_equal. lia.
Qed.
