(* ===== verification/Digest.v ===== *)
(** * Message digests (lib/digest.c, lib/digest.h)

    The library reaches every digest algorithm through [struct digest] and its
    table of operations.  The class [DigestOps] is that interface, [DigestLaws]
    what its clients (config.c, hash-pool.c, blkhash.c) rely on.  The module
    [Impl] models digest.c itself over OpenSSL and BLAKE3, which are parameters,
    and discharges the interface from the documented behaviour of the two. *)

From stdpp Require Import prelude list strings.
From Stdlib Require Import ZArith Lia.
From S2P Require Import Prelude.

Local Open Scope Z_scope.

(** ** The interface

    Every operation takes the environment's choice for the call as its first
    argument: the value that decides whether an allocation or a call into the
    crypto library fails.  Status codes follow digest.h: 0 on success and a
    negative errno value on failure. *)

Class DigestOps (D : Type) := {
  d_create : Z → Z → string → Z * option D;
  d_init : Z → D → Z * D;
  d_update : Z → D → list byte → Z * D;
  d_final : Z → D → Z * D * list byte;
}.

(** What the clients rely on: [absorbed d name m] says that [d] is a digest of
    algorithm [name] that was initialized and fed the message [m], in any number
    of updates.  [hash name m] is the digest of [m]. *)
Class DigestLaws (D : Type) `{!DigestOps D} := {
  hash : string → list byte → list byte;
  md_size : string → Z;
  made_by : D → string → Prop;
  absorbed : D → string → list byte → Prop;

  hash_size name m : zlen (hash name m) = md_size name;
  md_size_max name : md_size name <= 64;
  d_create_made o1 o2 name d :
    d_create o1 o2 name = (0, Some d) → made_by d name;
  d_create_ok o1 o2 name o : d_create o1 o2 name = (0, o) → is_Some o;
  d_init_ok o d name d' :
    made_by d name → d_init o d = (0, d') → absorbed d' name [];
  d_update_ok o d name m data d' :
    absorbed d name m → d_update o d data = (0, d') → absorbed d' name (m ++ data);
  d_final_ok o d name m d' md :
    absorbed d name m → d_final o d = (0, d', md) → md = hash name m;
  d_init_made o d name rc d' : made_by d name → d_init o d = (rc, d') → made_by d' name;
  d_update_made o d name data rc d' :
    made_by d name → d_update o d data = (rc, d') → made_by d' name;
  d_final_made o d name rc d' md :
    made_by d name → d_final o d = (rc, d', md) → made_by d' name;
  d_final_max o d name d' md :
    made_by d name → d_final o d = (0, d', md) → zlen md <= 64;
  absorbed_made d name m : absorbed d name m → made_by d name;
}.

(** A digest whose operations succeed whenever the environment injects no
    failure and the algorithm exists. *)
Class DigestTotal (D : Type) `{!DigestOps D} (name : string) := {
  d_create_total : ∃ d, d_create 0 0 name = (0, Some d);
  d_init_total d : (d_init 0 d).1 = 0;
  d_update_total d data : (d_update 0 d data).1 = 0;
  d_final_total d : (d_final 0 d).1.1 = 0;
}.

(** ** digest.c *)

Module Impl.
Section impl.
(** BLAKE3's C API and the EVP interface of OpenSSL. *)
Context {blake3_hasher EVP_MD EVP_MD_CTX : Type}.
Context (have_blake3 : bool).
Context (blake3_hasher_zeroed : blake3_hasher).
Context (blake3_hasher_init : blake3_hasher).
Context (blake3_hasher_update : blake3_hasher → list byte → blake3_hasher).
Context (blake3_hasher_finalize : blake3_hasher → Z → list byte).
Context (EVP_MD_fetch : string → option EVP_MD).
Context (EVP_MD_CTX_new : Z → option EVP_MD_CTX).
Context (EVP_DigestInit_ex : Z → EVP_MD_CTX → EVP_MD → option EVP_MD_CTX).
Context (EVP_DigestUpdate : Z → EVP_MD_CTX → list byte → option EVP_MD_CTX).
Context (EVP_DigestFinal_ex : Z → EVP_MD_CTX → option (EVP_MD_CTX * list byte)).

Definition BLAKE3_OUT_LEN := 32.

(** [struct blake3_digest], the static [null_digest] and [struct evp_digest]:
    the value of the [ops] pointer is the constructor. *)
Inductive digest :=
| blake3_digest (hasher : blake3_hasher)
| null_digest
| evp_digest (md : EVP_MD) (ctx : EVP_MD_CTX).

Definition blake3_ops_init (h : blake3_hasher) : Z * digest :=
  (0, blake3_digest blake3_hasher_init).
Definition blake3_ops_update (h : blake3_hasher) (data : list byte) : Z * digest :=
  (0, blake3_digest (blake3_hasher_update h data)).
Definition blake3_ops_final (h : blake3_hasher) : Z * digest * list byte :=
  (0, blake3_digest h, blake3_hasher_finalize h BLAKE3_OUT_LEN).
Definition create_blake3 (calloc_err : Z) : Z * option digest :=
  if fails calloc_err then (- calloc_err, None)
  else (0, Some (blake3_digest blake3_hasher_zeroed)).

Definition null_init : Z * digest := (0, null_digest).
Definition null_update (data : list byte) : Z * digest := (0, null_digest).
Definition null_final : Z * digest * list byte := (0, null_digest, []).
Definition create_null : Z * option digest := (0, Some null_digest).

Definition evp_init (o : Z) (md : EVP_MD) (ctx : EVP_MD_CTX) : Z * digest :=
  match EVP_DigestInit_ex o ctx md with
  | None => (- ENOMEM, evp_digest md ctx)
  | Some ctx' => (0, evp_digest md ctx')
  end.
Definition evp_update (o : Z) (md : EVP_MD) (ctx : EVP_MD_CTX) (data : list byte) : Z * digest :=
  match EVP_DigestUpdate o ctx data with
  | None => (- ENOMEM, evp_digest md ctx)
  | Some ctx' => (0, evp_digest md ctx')
  end.
Definition evp_final (o : Z) (md : EVP_MD) (ctx : EVP_MD_CTX) : Z * digest * list byte :=
  match EVP_DigestFinal_ex o ctx with
  | None => (- ENOMEM, evp_digest md ctx, [])
  | Some (ctx', out) => (0, evp_digest md ctx', out)
  end.
Definition create_evp (calloc_err ctx_o : Z) (name : string) : Z * option digest :=
  if fails calloc_err then (- calloc_err, None)
  else match EVP_MD_fetch name with
       | None => (- EINVAL, None)
       | Some md =>
           match EVP_MD_CTX_new ctx_o with
           | None => (- ENOMEM, None)
           | Some ctx => (0, Some (evp_digest md ctx))
           end
       end.

Definition digest_create (calloc_err ctx_o : Z) (name : string) : Z * option digest :=
  if String.eqb name "null" then create_null
  else if have_blake3 && String.eqb name "blake3" then create_blake3 calloc_err
  else create_evp calloc_err ctx_o name.

(** The dispatchers of digest.h. *)
Definition digest_init (o : Z) (d : digest) : Z * digest :=
  match d with
  | blake3_digest h => blake3_ops_init h
  | null_digest => null_init
  | evp_digest md ctx => evp_init o md ctx
  end.
Definition digest_update (o : Z) (d : digest) (data : list byte) : Z * digest :=
  match d with
  | blake3_digest h => blake3_ops_update h data
  | null_digest => null_update data
  | evp_digest md ctx => evp_update o md ctx data
  end.
Definition digest_final (o : Z) (d : digest) : Z * digest * list byte :=
  match d with
  | blake3_digest h => blake3_ops_final h
  | null_digest => null_final
  | evp_digest md ctx => evp_final o md ctx
  end.

#[global] Instance digest_ops : DigestOps digest := {|
  d_create := digest_create;
  d_init := digest_init;
  d_update := digest_update;
  d_final := digest_final;
|}.

(** *** Documented behaviour of the two libraries *)

(** A context reached by one initialization and updates that sum to [m]. *)
Inductive evp_fed (md : EVP_MD) : EVP_MD_CTX → list byte → Prop :=
| evp_fed_init o ctx ctx' :
    EVP_DigestInit_ex o ctx md = Some ctx' → evp_fed md ctx' []
| evp_fed_update o ctx m data ctx' :
    evp_fed md ctx m → EVP_DigestUpdate o ctx data = Some ctx' →
    evp_fed md ctx' (m ++ data).

Inductive blake3_fed : blake3_hasher → list byte → Prop :=
| blake3_fed_init : blake3_fed blake3_hasher_init []
| blake3_fed_update h m data :
    blake3_fed h m → blake3_fed (blake3_hasher_update h data) (m ++ data).

Context (EVP_hash : EVP_MD → list byte → list byte) (EVP_MD_size : EVP_MD → Z).
Context (BLAKE3_hash : list byte → list byte).
Context (EVP_final_streaming : ∀ o md ctx m ctx' out,
  evp_fed md ctx m → EVP_DigestFinal_ex o ctx = Some (ctx', out) → out = EVP_hash md m).
Context (EVP_hash_size : ∀ md m, zlen (EVP_hash md m) = EVP_MD_size md).
Context (EVP_MAX_MD_SIZE : ∀ md, EVP_MD_size md <= 64).
Context (EVP_final_fits : ∀ o ctx ctx' out,
  EVP_DigestFinal_ex o ctx = Some (ctx', out) → zlen out <= 64).
Context (BLAKE3_final_size : ∀ h,
  zlen (blake3_hasher_finalize h BLAKE3_OUT_LEN) = BLAKE3_OUT_LEN).
Context (BLAKE3_final_streaming : ∀ h m,
  blake3_fed h m → blake3_hasher_finalize h BLAKE3_OUT_LEN = BLAKE3_hash m).
Context (BLAKE3_hash_size : ∀ m, zlen (BLAKE3_hash m) = BLAKE3_OUT_LEN).

Inductive alg := ANull | ABlake3 | AEvp (md : EVP_MD) | ANone.

(** Which algorithm a name selects, as [digest_create] resolves it. *)
Definition lookup_alg (name : string) : alg :=
  if String.eqb name "null" then ANull
  else if have_blake3 && String.eqb name "blake3" then ABlake3
  else match EVP_MD_fetch name with Some md => AEvp md | None => ANone end.

Definition digest_hash (name : string) (m : list byte) : list byte :=
  match lookup_alg name with
  | ANull | ANone => []
  | ABlake3 => BLAKE3_hash m
  | AEvp md => EVP_hash md m
  end.

Definition digest_size (name : string) : Z :=
  match lookup_alg name with
  | ANull | ANone => 0
  | ABlake3 => BLAKE3_OUT_LEN
  | AEvp md => EVP_MD_size md
  end.

Definition digest_made_by (d : digest) (name : string) : Prop :=
  match d, lookup_alg name with
  | null_digest, ANull => True
  | blake3_digest _, ABlake3 => True
  | evp_digest md _, AEvp md' => md = md'
  | _, _ => False
  end.

Definition digest_absorbed (d : digest) (name : string) (m : list byte) : Prop :=
  digest_made_by d name ∧
  match d with
  | null_digest => True
  | blake3_digest h => blake3_fed h m
  | evp_digest md ctx => evp_fed md ctx m
  end.

Lemma digest_create_spec o1 o2 name d :
  digest_create o1 o2 name = (0, Some d) → digest_made_by d name.
Proof using Type.
  unfold digest_create, digest_made_by, lookup_alg, create_null, create_blake3, create_evp.
  intros H. repeat case_match; simplify_eq; done.
Qed.

Lemma digest_create_rc o1 o2 name o :
  digest_create o1 o2 name = (0, o) → is_Some o.
Proof using Type.
  unfold digest_create, create_null, create_blake3, create_evp, fails.
  intros H. repeat case_match; simplify_eq; try done; lia.
Qed.

#[global] Program Instance digest_laws : DigestLaws digest := {|
  hash := digest_hash;
  md_size := digest_size;
  made_by := digest_made_by;
  absorbed := digest_absorbed;
  d_create_made := digest_create_spec;
  d_create_ok := digest_create_rc;
|}.
Next Obligation.
  intros name m. unfold digest_hash, digest_size. destruct (lookup_alg name); auto.
Qed.
Next Obligation.
  intros name. unfold digest_size, BLAKE3_OUT_LEN. destruct (lookup_alg name); auto; lia.
Qed.
Next Obligation.
  intros o d name d' Hm Hd. unfold digest_absorbed, digest_made_by in *.
  destruct d; simpl in *; unfold evp_init, blake3_ops_init, null_init in *;
    repeat case_match; simplify_eq; split; eauto using blake3_fed, evp_fed.
Qed.
Next Obligation.
  intros o d name m data d' [Hm Hf] Hd. unfold digest_absorbed, digest_made_by in *.
  destruct d; simpl in *; unfold evp_update, blake3_ops_update, null_update in *;
    repeat case_match; simplify_eq; split; eauto using blake3_fed, evp_fed.
Qed.
Next Obligation.
  intros o d name m d' md [Hm Hf] Hd. unfold digest_absorbed, digest_made_by, digest_hash in *.
  destruct d; simpl in *; unfold evp_final, blake3_ops_final, null_final in *;
    repeat case_match; simplify_eq; try done; eauto.
Qed.
Next Obligation.
  intros o d name rc d' Hm Hd. unfold digest_made_by in *.
  destruct d; simpl in *; unfold evp_init, blake3_ops_init, null_init in *;
    repeat case_match; simplify_eq; done.
Qed.
Next Obligation.
  intros o d name data rc d' Hm Hd. unfold digest_made_by in *.
  destruct d; simpl in *; unfold evp_update, blake3_ops_update, null_update in *;
    repeat case_match; simplify_eq; done.
Qed.
Next Obligation.
  intros o d name rc d' md Hm Hd. unfold digest_made_by in *.
  destruct d; simpl in *; unfold evp_final, blake3_ops_final, null_final in *;
    repeat case_match; simplify_eq; done.
Qed.
Next Obligation.
  intros o d name d' md Hm Hd.
  destruct d; simpl in *; unfold evp_final, blake3_ops_final, null_final in *;
    repeat case_match; simplify_eq; first [by rewrite BLAKE3_final_size|by eauto|done].
Qed.
Next Obligation. intros d name m Hm. apply Hm. Qed.

(** *** Streams of updates *)

(** Operations on a digest, with the environment's choice for each call. *)
Inductive dop := DInit (o : Z) | DUpdate (o : Z) (data : list byte) | DFinal (o : Z).

Definition run_dop (d : digest) (x : dop) : digest :=
  match x with
  | DInit o => (digest_init o d).2
  | DUpdate o data => (digest_update o d data).2
  | DFinal o => (digest_final o d).1.2
  end.

(** Updates until the first one that fails. *)
Fixpoint digest_updates (d : digest) (l : list (Z * list byte)) : Z * digest :=
  match l with
  | [] => (0, d)
  | (o, data) :: l' =>
      let '(rc, d') := digest_update o d data in
      if fails rc then (rc, d') else digest_updates d' l'
  end.

Lemma run_dops_made l d name : made_by d name → made_by (foldl run_dop d l) name.
Proof using All.
  revert d. induction l as [|x l IH]; intros d Hd; [done|]. apply IH. destruct x as [o|o data|o].
  - apply (d_init_made o d name (digest_init o d).1); [done|]. apply surjective_pairing.
  - apply (d_update_made o d name data (digest_update o d data).1); [done|]. apply surjective_pairing.
  - destruct (digest_final o d) as [[rc d'] md] eqn:Hf. unfold run_dop. rewrite Hf.
    exact (d_final_made o d name rc d' md Hd Hf).
Qed.

Lemma digest_updates_absorb l d name m d' :
  absorbed d name m → digest_updates d l = (0, d') → absorbed d' name (m ++ mjoin l.*2).
Proof using All.
  revert d m. induction l as [|[o data] l IH]; intros d m Ha Hu; simpl in *.
  { simplify_eq. by rewrite app_nil_r. }
  destruct (digest_update o d data) as [rc d1] eqn:Hd. unfold fails in Hu.
  destruct (rc =? 0) eqn:E; simpl in Hu; [|simplify_eq; lia]. apply Z.eqb_eq in E as ->.
  rewrite app_assoc. eapply IH; [|done]. exact (d_update_ok o d name m data d1 Ha Hd).
Qed.

(** C35: digests are streaming and reusable.  For every algorithm name (the
    builtin "null" and "blake3", or any that the crypto library knows), a digest
    that [digest_create] made and that was used in any way before, computes after
    [digest_init], any number of [digest_update] calls and [digest_final], all
    successful, the digest of the concatenation of the data, of the size of the
    algorithm. *)
Theorem digest_streaming o1 o2 o3 o4 name d (before : list dop) d0 (l : list (Z * list byte)) d1 d2 md :
  digest_create o1 o2 name = (0, Some d) →
  digest_init o3 (foldl run_dop d before) = (0, d0) →
  digest_updates d0 l = (0, d1) →
  digest_final o4 d1 = (0, d2, md) →
  md = digest_hash name (mjoin l.*2) ∧ zlen md = digest_size name.
Proof using All.
  intros Hc Hi Hu Hf. pose proof (run_dops_made before d name (digest_create_spec _ _ _ _ Hc)) as Hm.
  pose proof (digest_updates_absorb l d0 name [] d1 (d_init_ok o3 _ name d0 Hm Hi) Hu) as Ha.
  pose proof (d_final_ok o4 d1 name _ d2 md Ha Hf) as ->. split; [done|]. exact (hash_size name _).
Qed.
End impl.
End Impl.

(** ** A concrete crypto library

    A small instance of the parameters, used to evaluate the model: the context
    is the message fed so far, the digest a 4 byte polynomial checksum.  A
    non-zero choice of the environment makes a call fail. *)

Module Toy.

Definition ctx := list byte.

(** The algorithms: "sha256" and "sha1". *)
Definition fetch (name : string) : option nat :=
  if String.eqb name "sha256" then Some 31%nat
  else if String.eqb name "sha1" then Some 37%nat else None.

Definition ctx_new (o : Z) : option ctx := if fails o then None else Some [].
Definition init (o : Z) (c : ctx) (md : nat) : option ctx :=
  if fails o then None else Some [].
Definition update (o : Z) (c : ctx) (data : list byte) : option ctx :=
  if fails o then None else Some (c ++ data).

Definition checksum (k : Z) (m : list byte) : Z :=
  foldl (λ acc b, u32 (acc * k + Z.of_N (Byte.to_N b) + 1)) 7 m.
Definition bytes4 (v : Z) : list byte :=
  [byte_of_Z v; byte_of_Z (Z.shiftr v 8); byte_of_Z (Z.shiftr v 16); byte_of_Z (Z.shiftr v 24)].

(** The context does not know its algorithm: one checksum serves both. *)
Definition evp_hash (md : nat) (m : list byte) : list byte := bytes4 (checksum 31 m).
Definition final (o : Z) (c : ctx) : option (ctx * list byte) :=
  if fails o then None else Some (c, bytes4 (checksum 31 c)).

Definition b3_update (h : list byte) (data : list byte) : list byte := h ++ data.
Definition b3_hash (m : list byte) : list byte :=
  concat (replicate 8 (bytes4 (checksum 33 m))).
Definition b3_final (h : list byte) (n : Z) : list byte := b3_hash h.

Abbreviation digest := (Impl.digest (blake3_hasher := list byte) (EVP_MD := nat) (EVP_MD_CTX := ctx)).

#[global] Instance ops : DigestOps digest :=
  Impl.digest_ops true [] [] b3_update b3_final fetch ctx_new init update final.

Lemma evp_fed_ctx md c m : Impl.evp_fed init update md c m → c = m.
Proof.
  induction 1 as [o c c' H|o c m data c' _ IH H]; unfold init, update in *;
    case_match; simplify_eq; congruence.
Qed.

Lemma b3_fed_ctx h m : Impl.blake3_fed [] b3_update h m → h = m.
Proof. induction 1; unfold b3_update; congruence. Qed.

#[global] Instance laws : DigestLaws digest.
Proof.
  refine (Impl.digest_laws true [] [] b3_update b3_final fetch ctx_new init update final
    evp_hash (λ _, 4) b3_hash _ _ _ _ _ _ _).
  - intros o md c m c' out ->%evp_fed_ctx. unfold final, evp_hash. intros H. case_match; by simplify_eq.
  - done.
  - lia.
  - intros o c c' out. unfold final. intros H. case_match; simplify_eq. done.
  - done.
  - by intros h m ->%b3_fed_ctx.
  - done.
Defined.

Lemma digest_streaming_witness :
  bytes4 (checksum 31 (replicate 5 Byte.x07)) = evp_hash 31 (replicate 5 Byte.x07) ∧
  zlen (evp_hash 31 (replicate 5 Byte.x07)) = 4.
Proof.
  unshelve eapply (Impl.digest_streaming true [] [] b3_update b3_final fetch ctx_new init update final
    evp_hash (λ _, 4) b3_hash _ _ _ _ _ _ _ 0 0 0 0 "sha256" (Impl.evp_digest 31%nat []) [Impl.DUpdate 0 [Byte.x01]; Impl.DFinal 0]
    (Impl.evp_digest 31%nat []) [(0, replicate 2 Byte.x07); (0, replicate 3 Byte.x07)]
    (Impl.evp_digest 31%nat (replicate 5 Byte.x07)) (Impl.evp_digest 31%nat (replicate 5 Byte.x07))).
  - intros o md c m c' out ->%evp_fed_ctx. unfold final, evp_hash. intros H. case_match; by simplify_eq.
  - done.
  - lia.
  - intros o c c' out. unfold final. intros H. case_match; simplify_eq. done.
  - done.
  - by intros h m ->%b3_fed_ctx.
  - done.
  - reflexivity.
  - reflexivity.
  - reflexivity.
  - reflexivity.
Defined.

#[global] Instance total : DigestTotal digest "sha256".
Proof.
  split; [by eexists|..]; intros []; try intros ?; reflexivity.
Qed.
End Toy.
