(* ===== verification/DigestList.v ===== *)
(** * Listing the available digests (lib/digest.c)

    [blkhash_digests] fills an array of the caller with the names of the builtin
    digests and of those that OpenSSL provides, or only counts them.  The digests
    of OpenSSL are a parameter: the list that its iterator passes to
    [append_evp], with the values its accessors return for each. *)

From stdpp Require Import prelude list strings sorting.
From Stdlib Require Import ZArith Lia.
From S2P Require Import Prelude.

Local Open Scope Z_scope.

(** [struct digest_list]; [None] for a NULL array, otherwise its slots. *)
Record digest_list := DigestList {
  dl_names : option (list (option string));
  dl_len : Z;
  dl_cap : Z;
}.

Definition NID_undef := 0.

(** What OpenSSL says of a digest: EVP_MD_nid, OBJ_nid2ln and OBJ_nid2sn. *)
Record evp_info := EvpInfo {
  ei_nid : Z;
  ei_ln : option string;
  ei_sn : option string;
}.

Abbreviation ML := (M digest_list).

(** [names[len] = name]: writing outside of the array is a crash. *)
Definition append (name : option string) : ML unit :=
  d ← get;
  if fails (dl_cap d) && (dl_len d =? dl_cap d) then mret tt
  else
    (match dl_names d with
     | None => mret tt
     | Some a =>
         if zlen a <=? dl_len d then crashM CMemory
         else modify (λ d, DigestList (Some (<[Z.to_nat (dl_len d) := name]> a)) (dl_len d) (dl_cap d))
     end);;
    modify (λ d, DigestList (dl_names d) (u64 (dl_len d + 1)) (dl_cap d)).

Definition append_evp (md : option evp_info) : ML unit :=
  match md with
  | None => mret tt
  | Some i =>
      if ei_nid i =? NID_undef then mret tt
      else append (match ei_ln i with Some n => Some n | None => ei_sn i end)
  end.

Section digests.
Context (have_blake3 : bool) (provided : list (option evp_info)).

(** [EVP_MD_do_all_provided(NULL, append_evp, d)] *)
Fixpoint do_all (l : list (option evp_info)) : ML unit :=
  match l with [] => mret tt | md :: l' => append_evp md;; do_all l' end.

Definition add_evp : ML unit := do_all provided.

Definition add_builtin : ML unit :=
  append (Some "null"%string);;
  if have_blake3 then append (Some "blake3"%string) else mret tt.

(** The returned length and the array of the caller. *)
Definition blkhash_digests (names : option (list (option string))) (len : Z)
    : outcome digest_list (Z * option (list (option string))) :=
  (add_builtin;; add_evp;; d ← get; mret (dl_len d, dl_names d)) (DigestList names 0 len).

(** ** What it returns *)

(** The names of the digests, in order. *)
Definition evp_names (l : list (option evp_info)) : list (option string) :=
  omap (λ md, i ← md; if ei_nid i =? NID_undef then None
    else Some (match ei_ln i with Some n => Some n | None => ei_sn i end)) l.

Definition digest_names : list (option string) :=
  Some "null"%string :: (if have_blake3 then [Some "blake3"%string] else []) ++ evp_names provided.

(** The list after the names [l] were appended: it counts, or fills the slots of
    an array. *)
Definition appended (a : option (list (option string))) (l : list (option string)) : digest_list :=
  match a with
  | None => DigestList None (zlen l) 0
  | Some a => DigestList (Some (ztake (zlen a) l ++ zdrop (zlen l) a)) (Z.min (zlen l) (zlen a)) (zlen a)
  end.

(** A NULL array, or an array of a sensible size. *)
Definition usable (a : option (list (option string))) : Prop :=
  match a with None => True | Some a => 0 < zlen a < 2 ^ 63 end.

Lemma append_appended a l name :
  usable a → zlen l < 2 ^ 63 → append name (appended a l) = Ret tt (appended a (l ++ [name])).
Proof using Type.
  intros Ha Hl. unfold append, mbind, M_bind, get, modify, fails.
  destruct a as [a|]; simpl in *; rewrite (zlen_app l [name]).
  2: { unfold u64. by rewrite Z.mod_small by (pose proof (zlen_nonneg l); lia). }
  destruct (zlen a =? 0) eqn:?; [lia|]. simpl.
  destruct (Z.min (zlen l) (zlen a) =? zlen a) eqn:E.
  - unfold mret, M_ret. rewrite ztake_app_le by lia. rewrite !zdrop_ge by (unfold zlen in *; simpl; lia).
    rewrite !Z.min_r by (unfold zlen in *; simpl; lia). done.
  - assert (zlen l < zlen a) as Hlt by lia. rewrite (ztake_all (zlen a) l) by lia.
    rewrite zlen_app, zlen_zdrop by (pose proof (zlen_nonneg l); lia).
    destruct (_ <=? _) eqn:?; [lia|]. simpl. rewrite Z.min_l by lia.
    unfold u64. rewrite Z.mod_small by (pose proof (zlen_nonneg l); lia).
    rewrite (ztake_all (zlen a)) by (rewrite zlen_app; unfold zlen in *; simpl; lia).
    rewrite (Z.min_l (zlen l + _)) by (unfold zlen in *; simpl; lia). do 3 f_equal.
    unfold zlen, zdrop in *. simpl. rewrite !Nat2Z.id.
    destruct (lookup_lt_is_Some_2 a (length l) ltac:(lia)) as [x Hx].
    rewrite (drop_S _ _ _ Hx), insert_app_r_alt, Nat.sub_diag by lia. simpl.
    rewrite <-app_assoc. simpl. do 3 f_equal. lia.
Qed.

Lemma do_all_appended a l ps :
  usable a → zlen l + zlen ps < 2 ^ 63 →
  do_all ps (appended a l) = Ret tt (appended a (l ++ evp_names ps)).
Proof using Type.
  intros Ha. revert l. induction ps as [|md ps IH]; intros l Hl; simpl; [by rewrite app_nil_r|].
  rewrite zlen_cons in Hl. pose proof (zlen_nonneg ps). unfold mbind at 1, M_bind.
  destruct md as [i|]; simpl; [|rewrite IH; [done|lia]].
  destruct (ei_nid i =? NID_undef); simpl; [rewrite IH; [done|lia]|].
  rewrite append_appended by (done || lia). rewrite IH, <-app_assoc; [done|].
  rewrite zlen_app. unfold zlen in *. simpl. lia.
Qed.

Lemma digests_appended a :
  usable a → zlen provided < 2 ^ 62 →
  blkhash_digests a (match a with Some a => zlen a | None => 0 end) =
    Ret (dl_len (appended a digest_names), dl_names (appended a digest_names)) (appended a digest_names).
Proof using Type.
  intros Ha Hp. unfold blkhash_digests, add_builtin, add_evp, digest_names, mbind, M_bind.
  assert (DigestList a 0 (match a with Some a => zlen a | None => 0 end) = appended a []) as ->.
  { destruct a as [a|]; [|done]. simpl in *. rewrite ztake_all, Z.min_l by (rewrite zlen_nil; lia). done. }
  rewrite append_appended by done. simpl. destruct have_blake3; simpl.
  - rewrite append_appended by done. rewrite do_all_appended; [done..|].
    rewrite zlen_app. unfold zlen in *. simpl. lia.
  - rewrite do_all_appended; [done..|]. unfold zlen in *. simpl. lia.
Qed.
End digests.


(** A crypto library with two named digests and one without an id. *)
Definition sample_provided : list (option evp_info) :=
  [Some (EvpInfo 64 (Some "sha1"%string) (Some "SHA1"%string)); None;
   Some (EvpInfo 0 None None); Some (EvpInfo 672 None (Some "SHA256"%string))].


(** An array with a zero count is not a request to store nothing: the names are
    written with no bound. *)
Example digests_zero_count_overflows :
  blkhash_digests true sample_provided (Some [None]) 0 = Crash CMemory.
Proof. reflexivity. Qed.

(** ** blksum --list-digests (bin/blksum.c) *)

(** [strcmp(a, b) <= 0] *)
Definition compare (a b : string) : Prop := String.leb a b = true.

#[export] Instance compare_dec : RelDecision compare.
Proof. intros a b. unfold compare. apply _. Defined.

#[export] Instance compare_total : Total compare.
Proof. intros a b. apply String.leb_total. Qed.

(** [ARRAY_SIZE(names)] *)
Definition NAMES_SIZE := 40.

(** The lines it prints; the array is not initialized, and a name may be NULL. *)
Definition list_digests (have_blake3 : bool) (provided : list (option evp_info)) : outcome digest_list (list string) :=
  match blkhash_digests have_blake3 provided (Some (replicate (Z.to_nat NAMES_SIZE) None)) NAMES_SIZE with
  | Ret (count, names) d =>
      match mapM id (ztake count (default [] names)) with
      | Some names => Ret (merge_sort compare names) d
      | None => Crash CMemory
      end
  | Crash k => Crash k
  end.

(** Listing the digests in the terminal.  If every digest has a name and there are at
    most 40 of them, the names are printed in the order of [strcmp], each as often as
    the library reports it. *)
Theorem digests_listed (have_blake3 : bool) (provided : list (option evp_info)) (names : list string) :
  digest_names have_blake3 provided = Some <$> names → zlen names <= NAMES_SIZE → zlen provided < 2 ^ 62 →
  ∃ lines d, list_digests have_blake3 provided = Ret lines d ∧ Sorted compare lines ∧ lines ≡ₚ names.
Proof.
  intros Hn Hlen Hp. set (slots := replicate (Z.to_nat NAMES_SIZE) (@None string)).
  assert (zlen slots = NAMES_SIZE) as Hs by (unfold slots, zlen; by rewrite length_replicate).
  pose proof (digests_appended have_blake3 provided (Some slots)) as Hd. cbv iota in Hd. rewrite Hs in Hd.
  unfold list_digests. fold slots. rewrite Hd; [|unfold usable; rewrite Hs; unfold NAMES_SIZE; lia|done].
  rewrite Hn. simpl. rewrite Hs. assert (zlen (Some <$> names) = zlen names) as Hl by (unfold zlen; by rewrite length_fmap).
  rewrite Hl, Z.min_l by done. rewrite (ztake_all NAMES_SIZE) by lia. rewrite ztake_app_le by lia. rewrite ztake_all by lia.
  assert (∀ l : list string, mapM id (Some <$> l) = Some l) as ->.
  { intros l. apply mapM_Some, Forall2_fmap_l, Forall_Forall2_diag, Forall_true. done. }
  eexists _, _. split; [done|]. split; [apply Sorted_merge_sort, _|apply merge_sort_Permutation].
Qed.

Lemma digests_listed_witness :
  ∃ lines d, list_digests true sample_provided = Ret lines d ∧ Sorted compare lines ∧
    lines ≡ₚ ["null"; "blake3"; "sha1"; "SHA256"]%string.
Proof. apply (digests_listed true sample_provided); vm_compute; congruence. Defined.

Example digests_sorted : ∃ d, list_digests true sample_provided = Ret ["SHA256"; "blake3"; "null"; "sha1"]%string d.
Proof. eexists. vm_compute. reflexivity. Qed.
