(* ===== verification/Ring.v ===== *)
(** * Ring buffers

    Both queues of the library, [struct submission_queue] (lib/submission.h)
    and the work queue inside [struct hash_pool] (lib/hash-pool.h), are an array
    with [size], [len], [head] and [tail] counters of type [unsigned].  The
    record [ring] holds these fields; [ring_put] and [ring_take] are the array
    and counter updates the two components share, without the guards, which
    belong to the callers.  [ring_repr r l] says that [r] is a well formed ring
    that holds the elements [l] in FIFO order. *)

From stdpp Require Import prelude list.
From Stdlib Require Import ZArith Lia.
From S2P Require Import Prelude.

Local Open Scope Z_scope.

Record ring (A : Type) := Ring {
  r_array : list (option A);  (** [None]: a slot never written *)
  r_size : Z;
  r_len : Z;
  r_head : Z;
  r_tail : Z;
}.
Arguments Ring {A}.
Arguments r_array {A}.
Arguments r_size {A}.
Arguments r_len {A}.
Arguments r_head {A}.
Arguments r_tail {A}.

(** A freshly initialized ring of [size] slots. *)
Definition ring_new {A} (size : Z) : ring A :=
  Ring (replicate (Z.to_nat size) None) size 0 0 0.

(** [array[tail] = x; tail = (tail + 1) % size; len++] *)
Definition ring_put {A} (r : ring A) (x : A) : ring A :=
  Ring (<[Z.to_nat (r_tail r) := Some x]> (r_array r)) (r_size r)
    (u32 (r_len r + 1)) (r_head r) (u32 (r_tail r + 1) mod r_size r).

(** [array[head]], NULL or indeterminate if never written *)
Definition ring_peek {A} (r : ring A) : option A :=
  mjoin (r_array r !! Z.to_nat (r_head r)).

(** [head = (head + 1) % size; len--] *)
Definition ring_drop {A} (r : ring A) : ring A :=
  Ring (r_array r) (r_size r) (u32 (r_len r - 1)) (u32 (r_head r + 1) mod r_size r) (r_tail r).

(** ** Representation *)

Section ring.
Context {A : Type}.
Implicit Types (r : ring A) (l : list A).

Record ring_repr r l : Prop := {
  rr_size : 0 < r_size r < 2 ^ 32;
  rr_array : zlen (r_array r) = r_size r;
  rr_len : r_len r = zlen l;
  rr_fits : zlen l <= r_size r;
  rr_head : 0 <= r_head r < r_size r;
  rr_tail : r_tail r = (r_head r + zlen l) mod r_size r;
  rr_elem : ∀ i x, l !! i = Some x →
    r_array r !! Z.to_nat ((r_head r + Z.of_nat i) mod r_size r) = Some (Some x);
}.

(** The counter arithmetic of C agrees with arithmetic modulo the size. *)
Lemma succ_mod_size i n : 0 <= i < n → n < 2 ^ 32 → u32 (i + 1) mod n = (i + 1) mod n.
Proof. intros Hi Hn. unfold u32. rewrite (Z.mod_small (i + 1)) by lia. done. Qed.

Lemma mod_apart a b n : a < b → b - a < n → a mod n ≠ b mod n.
Proof.
  intros Hab Hn Heq.
  pose proof (Z.div_mod a n ltac:(lia)). pose proof (Z.div_mod b n ltac:(lia)).
  assert (b - a = n * (b / n - a / n)) as Hd by (rewrite Z.mul_sub_distr_l; lia).
  set (k := b / n - a / n) in Hd. clearbody k.
  destruct (Z.le_gt_cases k 0); nia.
Qed.

Lemma ring_new_repr size : 0 < size < 2 ^ 32 → ring_repr (ring_new size) [].
Proof.
  intros Hs. split; simpl; unfold zlen; rewrite ?length_replicate; try (done || lia).
  simpl. lia.
Qed.

Lemma ring_repr_len r l : ring_repr r l → r_len r = zlen l.
Proof. apply rr_len. Qed.

Lemma ring_repr_inj r l l' : ring_repr r l → ring_repr r l' → l = l'.
Proof.
  intros [_ _ Hl _ _ _ He] [_ _ Hl' _ _ _ He']. apply list_eq_same_length with (length l'); [done| |].
  { unfold zlen in *. lia. }
  intros i x y _ Hx Hy. specialize (He i x Hx). specialize (He' i y Hy). congruence.
Qed.

Lemma ring_put_repr r l x :
  ring_repr r l → r_len r < r_size r → ring_repr (ring_put r x) (l ++ [x]).
Proof.
  intros [Hsz Harr Hlen Hfit Hh Ht Hel] Hroom.
  assert (Htl : 0 <= r_tail r < r_size r) by (rewrite Ht; apply Z.mod_pos_bound; lia).
  split; simpl; unfold zlen in *; rewrite ?length_insert, ?length_app; simpl; try (done || lia).
  - unfold u32. rewrite Z.mod_small; lia.
  - rewrite succ_mod_size by lia. rewrite Ht, Zplus_mod_idemp_l. f_equal. lia.
  - intros i y Hy.
    assert (Hi : (i < length l + 1)%nat).
    { apply lookup_lt_Some in Hy. rewrite length_app in Hy. simpl in Hy. lia. }
    destruct (decide (i < length l)%nat).
    + rewrite lookup_app_l in Hy by done. rewrite list_lookup_insert_ne; [by apply Hel|].
      rewrite Ht. intros Heq.
      apply Z2Nat.inj in Heq; [|apply Z.mod_pos_bound; lia..].
      eapply (mod_apart (r_head r + Z.of_nat i) (r_head r + Z.of_nat (length l)) (r_size r));
        [lia|lia|done].
    + rewrite lookup_app_r in Hy by lia.
      assert (i - length l = 0)%nat as Hz by lia. rewrite Hz in Hy. simpl in Hy. simplify_eq.
      rewrite Ht. replace i with (length l) by lia.
      apply list_lookup_insert_eq. pose proof (Z.mod_pos_bound (r_head r + Z.of_nat (length l)) (r_size r)).
      lia.
Qed.

Lemma ring_peek_repr r x l : ring_repr r (x :: l) → ring_peek r = Some x.
Proof.
  intros [Hsz Harr Hlen Hfit Hh Ht Hel]. unfold ring_peek.
  specialize (Hel 0%nat x eq_refl). rewrite Z.add_0_r, Z.mod_small in Hel by lia.
  by rewrite Hel.
Qed.

Lemma ring_drop_repr r x l : ring_repr r (x :: l) → ring_repr (ring_drop r) l.
Proof.
  intros [Hsz Harr Hlen Hfit Hh Ht Hel]. unfold zlen in *. simpl in *.
  rewrite Nat2Z.inj_succ in *.
  split; simpl; unfold zlen; try (done || lia).
  - unfold u32. rewrite Z.mod_small; lia.
  - rewrite succ_mod_size by lia. apply Z.mod_pos_bound; lia.
  - rewrite succ_mod_size, Zplus_mod_idemp_l by lia. rewrite Ht. f_equal. lia.
  - intros i y Hy. rewrite succ_mod_size, Zplus_mod_idemp_l by lia.
    specialize (Hel (S i) y Hy). rewrite <-Hel. do 3 f_equal. lia.
Qed.

Lemma ring_repr_nil r l : ring_repr r l → r_len r = 0 → l = [].
Proof. intros Hr. rewrite (rr_len _ _ Hr). destruct l; [done|unfold zlen; simpl; lia]. Qed.

Lemma ring_repr_cons r l : ring_repr r l → r_len r ≠ 0 → ∃ x l', l = x :: l'.
Proof. intros Hr. rewrite (rr_len _ _ Hr). destruct l; [done|eauto]. Qed.
End ring.
