(* ===== verification/State.v ===== *)
(** * The objects of the library (lib/blkhash-internal.h, lib/submission.h,
      lib/hash-pool.h, lib/blkhash.c)

    One record per C structure, and the two halves of a running hash:
    [shared], what worker threads and the caller thread both reach, and
    [blkhash], the fields of [struct blkhash] that only the caller touches.

    Submissions and completions are heap objects reached from several places
    (the submission queue, the work queue, a worker's local variable), so they
    live in stores keyed by address; freeing one removes it from the store, and
    using an address that is not in the store is a crash.

    The environment ([Env]) resolves everything the code does not control: which
    allocations and system calls fail, how threads are scheduled, which waiter a
    condition variable wakes, and how long a spinning thread is observed. *)

From stdpp Require Import prelude list strings gmap.
From Stdlib Require Import ZArith Lia.
From S2P Require Import Prelude Ring.

Local Open Scope Z_scope.

(** ** blkhash-internal.h *)

Definition BLKHASH_MAX_MD_SIZE := 64.

Record blkhash_opts := Opts {
  o_digest_name : string;
  o_block_size : Z;
  o_queue_depth : Z;
  o_threads : Z;
}.

Record config := Config {
  zero_md : list byte;
  digest_name : string;
  block_size : Z;
  md_len : Z;
  workers : Z;
  queue_depth : Z;
  max_submissions : Z;
}.

(** [struct completion]; the callback is always [update_completed] of
    blkhash.c and the hash pointer always the one hash. *)
Record completion := Completion {
  c_user_data : Z;
  c_error : Z;
  c_refs : Z;
}.

(** [struct blkhash_completion] of the public header. *)
Record blkhash_completion := BlkCompletion {
  user_data : Z;
  bc_error : Z;
}.

(** ** submission.h *)

Definition SUBMIT_COPY_DATA := 1.

(** What [sub->data] points to: nothing, an offset in a buffer of the user, or
    a private copy. *)
Inductive data_ptr :=
| DNull
| DUser (buf : nat) (off : Z)
| DCopy (bytes : list byte).

Record submission := Submission {
  sub_md : list byte;
  sub_completion : option nat;
  sub_data : data_ptr;
  sub_index : Z;
  sub_len : Z;
  sub_error : Z;
  sub_zero : bool;
  sub_completed : bool;
  sub_flags : Z;
}.

(** ** hash-pool.h *)

(** An entry of the work queue: a submission or the [STOP] marker. *)
Inductive slot := STOP | Sub (id : nat).

(** The life of a heap block: not allocated (NULL), allocated, freed. *)
Inductive cell := CNull | CLive | CFreed.

Record hash_pool := HashPool {
  p_queue : ring slot;  (** queue, queue_size, queue_len, queue_head, queue_tail *)
  p_queue_mem : cell;  (** the block behind the queue pointer *)
  p_workers_mem : cell;  (** the block behind the workers pointer *)
  workers_count : Z;
  workers_idle : Z;
  p_error : Z;
  stopped : bool;
}.

(** ** blkhash.c *)

Record completion_queue := CQueue {
  cq_array : list blkhash_completion;
  cq_event : option Z;  (** NULL, or an event with its counter *)
  cq_count : Z;
}.

Record buffer := Buffer {
  b_data : list byte;
  b_len : Z;
  b_zero : bool;
}.

(** ** Worker threads

    Where a worker is in [worker_thread] of hash-pool.c.  The steps between two
    of these points are atomic for the other threads: each is a critical section
    of a mutex, an atomic operation, or private to the thread. *)

Inductive wstate (D : Type) :=
| WStart                       (** created, before [digest_create] *)
| WLock (d : D)                (** before [mutex_lock] in [wait_for_work] *)
| WCondWait (d : D)            (** blocked in [cond_wait] *)
| WWake (d : D)                (** woken, before it has the mutex again *)
| WWork (d : D) (id : nat)     (** holds a submission to process *)
| WComplete (d : D) (id : nat) (** processed, before [submission_complete] *)
| WNotify (d : D) (id : nat)   (** in [update_completed], before [event_signal] *)
| WStore (d : D) (id : nat)    (** before the store to [sub->completed] *)
| WExit.                       (** the thread returned *)
Arguments WStart {D}.
Arguments WLock {D}.
Arguments WCondWait {D}.
Arguments WWake {D}.
Arguments WWork {D}.
Arguments WComplete {D}.
Arguments WNotify {D}.
Arguments WStore {D}.
Arguments WExit {D}.

(** ** The state of a hash *)

Record shared (D : Type) := Shared {
  cfg : config;
  subs : gmap nat submission;
  next_sub : nat;
  comps : gmap nat completion;
  next_comp : nat;
  pool : hash_pool;
  threads : list (wstate D);
  cq : completion_queue;
  h_error : Z;  (** error of struct blkhash *)
  mem : gmap nat (list byte);  (** the buffers of the user *)
  n_fault : nat;  (** fallible calls made so far *)
  n_wake : nat;  (** condition signals sent so far *)
  n_tick : nat;  (** scheduling points passed so far *)
}.
Arguments Shared {D}.
Arguments cfg {D}.
Arguments subs {D}.
Arguments next_sub {D}.
Arguments comps {D}.
Arguments next_comp {D}.
Arguments pool {D}.
Arguments threads {D}.
Arguments cq {D}.
Arguments h_error {D}.
Arguments mem {D}.
Arguments n_fault {D}.
Arguments n_wake {D}.
Arguments n_tick {D}.

Record blkhash (D : Type) := Hash {
  sq : ring nat;
  pending : buffer;
  outer_digest : option D;
  block_index : Z;
  submitted_index : Z;
  hashed_index : Z;
  message_length : Z;
  inflight : Z;
  finalized : bool;
}.
Arguments Hash {D}.
Arguments sq {D}.
Arguments pending {D}.
Arguments outer_digest {D}.
Arguments block_index {D}.
Arguments submitted_index {D}.
Arguments hashed_index {D}.
Arguments message_length {D}.
Arguments inflight {D}.
Arguments finalized {D}.

Record world (D : Type) := World {
  sh : shared D;
  hs : blkhash D;
}.
Arguments World {D}.
Arguments sh {D}.
Arguments hs {D}.

(** ** The environment *)

Inductive action :=
| ARun (w : nat)       (** worker [w] takes its next step *)
| ASpurious (w : nat). (** worker [w] wakes up without a signal *)

Class Env := {
  fault : nat → Z;          (** errno of the n-th fallible call, 0: it succeeds *)
  wake : nat → nat;         (** which waiter the n-th [cond_signal] wakes *)
  sched : nat → list action; (** worker steps at the n-th scheduling point *)
  spins : nat;              (** iterations granted to a waiting loop *)
}.

(** ** Updates of single fields *)

Definition with_c_user_data (v : Z) (r : completion) : completion :=
  Completion v (c_error r) (c_refs r).
Definition with_c_error (v : Z) (r : completion) : completion :=
  Completion (c_user_data r) v (c_refs r).
Definition with_c_refs (v : Z) (r : completion) : completion :=
  Completion (c_user_data r) (c_error r) v.
Definition with_sub_md (v : list byte) (r : submission) : submission :=
  Submission v (sub_completion r) (sub_data r) (sub_index r) (sub_len r) (sub_error r) (sub_zero r) (sub_completed r) (sub_flags r).
Definition with_sub_completion (v : option nat) (r : submission) : submission :=
  Submission (sub_md r) v (sub_data r) (sub_index r) (sub_len r) (sub_error r) (sub_zero r) (sub_completed r) (sub_flags r).
Definition with_sub_data (v : data_ptr) (r : submission) : submission :=
  Submission (sub_md r) (sub_completion r) v (sub_index r) (sub_len r) (sub_error r) (sub_zero r) (sub_completed r) (sub_flags r).
Definition with_sub_index (v : Z) (r : submission) : submission :=
  Submission (sub_md r) (sub_completion r) (sub_data r) v (sub_len r) (sub_error r) (sub_zero r) (sub_completed r) (sub_flags r).
Definition with_sub_len (v : Z) (r : submission) : submission :=
  Submission (sub_md r) (sub_completion r) (sub_data r) (sub_index r) v (sub_error r) (sub_zero r) (sub_completed r) (sub_flags r).
Definition with_sub_error (v : Z) (r : submission) : submission :=
  Submission (sub_md r) (sub_completion r) (sub_data r) (sub_index r) (sub_len r) v (sub_zero r) (sub_completed r) (sub_flags r).
Definition with_sub_zero (v : bool) (r : submission) : submission :=
  Submission (sub_md r) (sub_completion r) (sub_data r) (sub_index r) (sub_len r) (sub_error r) v (sub_completed r) (sub_flags r).
Definition with_sub_completed (v : bool) (r : submission) : submission :=
  Submission (sub_md r) (sub_completion r) (sub_data r) (sub_index r) (sub_len r) (sub_error r) (sub_zero r) v (sub_flags r).
Definition with_sub_flags (v : Z) (r : submission) : submission :=
  Submission (sub_md r) (sub_completion r) (sub_data r) (sub_index r) (sub_len r) (sub_error r) (sub_zero r) (sub_completed r) v.
Definition with_p_queue (v : ring slot) (r : hash_pool) : hash_pool :=
  HashPool v (p_queue_mem r) (p_workers_mem r) (workers_count r) (workers_idle r) (p_error r) (stopped r).
Definition with_p_queue_mem (v : cell) (r : hash_pool) : hash_pool :=
  HashPool (p_queue r) v (p_workers_mem r) (workers_count r) (workers_idle r) (p_error r) (stopped r).
Definition with_p_workers_mem (v : cell) (r : hash_pool) : hash_pool :=
  HashPool (p_queue r) (p_queue_mem r) v (workers_count r) (workers_idle r) (p_error r) (stopped r).
Definition with_workers_count (v : Z) (r : hash_pool) : hash_pool :=
  HashPool (p_queue r) (p_queue_mem r) (p_workers_mem r) v (workers_idle r) (p_error r) (stopped r).
Definition with_workers_idle (v : Z) (r : hash_pool) : hash_pool :=
  HashPool (p_queue r) (p_queue_mem r) (p_workers_mem r) (workers_count r) v (p_error r) (stopped r).
Definition with_p_error (v : Z) (r : hash_pool) : hash_pool :=
  HashPool (p_queue r) (p_queue_mem r) (p_workers_mem r) (workers_count r) (workers_idle r) v (stopped r).
Definition with_stopped (v : bool) (r : hash_pool) : hash_pool :=
  HashPool (p_queue r) (p_queue_mem r) (p_workers_mem r) (workers_count r) (workers_idle r) (p_error r) v.
Definition with_cq_array (v : list blkhash_completion) (r : completion_queue) : completion_queue :=
  CQueue v (cq_event r) (cq_count r).
Definition with_cq_event (v : option Z) (r : completion_queue) : completion_queue :=
  CQueue (cq_array r) v (cq_count r).
Definition with_cq_count (v : Z) (r : completion_queue) : completion_queue :=
  CQueue (cq_array r) (cq_event r) v.
Definition with_cfg {D} (v : config) (r : shared D) : shared D :=
  Shared v (subs r) (next_sub r) (comps r) (next_comp r) (pool r) (threads r) (cq r) (h_error r) (mem r) (n_fault r) (n_wake r) (n_tick r).
Definition with_subs {D} (v : gmap nat submission) (r : shared D) : shared D :=
  Shared (cfg r) v (next_sub r) (comps r) (next_comp r) (pool r) (threads r) (cq r) (h_error r) (mem r) (n_fault r) (n_wake r) (n_tick r).
Definition with_next_sub {D} (v : nat) (r : shared D) : shared D :=
  Shared (cfg r) (subs r) v (comps r) (next_comp r) (pool r) (threads r) (cq r) (h_error r) (mem r) (n_fault r) (n_wake r) (n_tick r).
Definition with_comps {D} (v : gmap nat completion) (r : shared D) : shared D :=
  Shared (cfg r) (subs r) (next_sub r) v (next_comp r) (pool r) (threads r) (cq r) (h_error r) (mem r) (n_fault r) (n_wake r) (n_tick r).
Definition with_next_comp {D} (v : nat) (r : shared D) : shared D :=
  Shared (cfg r) (subs r) (next_sub r) (comps r) v (pool r) (threads r) (cq r) (h_error r) (mem r) (n_fault r) (n_wake r) (n_tick r).
Definition with_pool {D} (v : hash_pool) (r : shared D) : shared D :=
  Shared (cfg r) (subs r) (next_sub r) (comps r) (next_comp r) v (threads r) (cq r) (h_error r) (mem r) (n_fault r) (n_wake r) (n_tick r).
Definition with_threads {D} (v : list (wstate D)) (r : shared D) : shared D :=
  Shared (cfg r) (subs r) (next_sub r) (comps r) (next_comp r) (pool r) v (cq r) (h_error r) (mem r) (n_fault r) (n_wake r) (n_tick r).
Definition with_cq {D} (v : completion_queue) (r : shared D) : shared D :=
  Shared (cfg r) (subs r) (next_sub r) (comps r) (next_comp r) (pool r) (threads r) v (h_error r) (mem r) (n_fault r) (n_wake r) (n_tick r).
Definition with_h_error {D} (v : Z) (r : shared D) : shared D :=
  Shared (cfg r) (subs r) (next_sub r) (comps r) (next_comp r) (pool r) (threads r) (cq r) v (mem r) (n_fault r) (n_wake r) (n_tick r).
Definition with_mem {D} (v : gmap nat (list byte)) (r : shared D) : shared D :=
  Shared (cfg r) (subs r) (next_sub r) (comps r) (next_comp r) (pool r) (threads r) (cq r) (h_error r) v (n_fault r) (n_wake r) (n_tick r).
Definition with_n_fault {D} (v : nat) (r : shared D) : shared D :=
  Shared (cfg r) (subs r) (next_sub r) (comps r) (next_comp r) (pool r) (threads r) (cq r) (h_error r) (mem r) v (n_wake r) (n_tick r).
Definition with_n_wake {D} (v : nat) (r : shared D) : shared D :=
  Shared (cfg r) (subs r) (next_sub r) (comps r) (next_comp r) (pool r) (threads r) (cq r) (h_error r) (mem r) (n_fault r) v (n_tick r).
Definition with_n_tick {D} (v : nat) (r : shared D) : shared D :=
  Shared (cfg r) (subs r) (next_sub r) (comps r) (next_comp r) (pool r) (threads r) (cq r) (h_error r) (mem r) (n_fault r) (n_wake r) v.
Definition with_sq {D} (v : ring nat) (r : blkhash D) : blkhash D :=
  Hash v (pending r) (outer_digest r) (block_index r) (submitted_index r) (hashed_index r) (message_length r) (inflight r) (finalized r).
Definition with_pending {D} (v : buffer) (r : blkhash D) : blkhash D :=
  Hash (sq r) v (outer_digest r) (block_index r) (submitted_index r) (hashed_index r) (message_length r) (inflight r) (finalized r).
Definition with_outer_digest {D} (v : option D) (r : blkhash D) : blkhash D :=
  Hash (sq r) (pending r) v (block_index r) (submitted_index r) (hashed_index r) (message_length r) (inflight r) (finalized r).
Definition with_block_index {D} (v : Z) (r : blkhash D) : blkhash D :=
  Hash (sq r) (pending r) (outer_digest r) v (submitted_index r) (hashed_index r) (message_length r) (inflight r) (finalized r).
Definition with_submitted_index {D} (v : Z) (r : blkhash D) : blkhash D :=
  Hash (sq r) (pending r) (outer_digest r) (block_index r) v (hashed_index r) (message_length r) (inflight r) (finalized r).
Definition with_hashed_index {D} (v : Z) (r : blkhash D) : blkhash D :=
  Hash (sq r) (pending r) (outer_digest r) (block_index r) (submitted_index r) v (message_length r) (inflight r) (finalized r).
Definition with_message_length {D} (v : Z) (r : blkhash D) : blkhash D :=
  Hash (sq r) (pending r) (outer_digest r) (block_index r) (submitted_index r) (hashed_index r) v (inflight r) (finalized r).
Definition with_inflight {D} (v : Z) (r : blkhash D) : blkhash D :=
  Hash (sq r) (pending r) (outer_digest r) (block_index r) (submitted_index r) (hashed_index r) (message_length r) v (finalized r).
Definition with_finalized {D} (v : bool) (r : blkhash D) : blkhash D :=
  Hash (sq r) (pending r) (outer_digest r) (block_index r) (submitted_index r) (hashed_index r) (message_length r) (inflight r) v.
Definition with_sh {D} (v : shared D) (r : world D) : world D :=
  World v (hs r).
Definition with_hs {D} (v : blkhash D) (r : world D) : world D :=
  World (sh r) v.

#[export] Instance slot_eq_dec : EqDecision slot.
Proof. solve_decision. Defined.

#[export] Instance action_eq_dec : EqDecision action.
Proof. solve_decision. Defined.

(** ** Primitive effects *)

Section effects.
Context {D : Type} `{EV : !Env}.

Abbreviation MS := (M (shared D)).

(** The environment's choice for the next fallible call. *)
Definition next_fault : MS Z :=
  s ← get; modify (with_n_fault (S (n_fault s)));; mret (fault (n_fault s)).

(** Access to [struct submission] through a pointer. *)
Definition sub_load (id : nat) : MS submission :=
  s ← get; derefM (subs s !! id).
Definition sub_update (id : nat) (f : submission → submission) : MS unit :=
  sub ← sub_load id; modify (λ s, with_subs (<[id := f sub]> (subs s)) s).
Definition comp_load (id : nat) : MS completion :=
  s ← get; derefM (comps s !! id).
Definition comp_update (id : nat) (f : completion → completion) : MS unit :=
  c ← comp_load id; modify (λ s, with_comps (<[id := f c]> (comps s)) s).

Definition on_pool (f : hash_pool → hash_pool) : MS unit :=
  modify (λ s, with_pool (f (pool s)) s).
Definition on_cq (f : completion_queue → completion_queue) : MS unit :=
  modify (λ s, with_cq (f (cq s)) s).

(** Read [len] bytes at a data pointer. *)
Definition read_data (p : data_ptr) (len : Z) : MS (list byte) :=
  s ← get;
  match p with
  | DNull => crashM CMemory
  | DCopy b => if zlen b <? len then crashM CMemory else mret (ztake len b)
  | DUser buf off =>
      b ← derefM (mem s !! buf);
      if (off <? 0) || (zlen b <? off + len) then crashM CMemory
      else mret (ztake len (zdrop off b))
  end.

(** [free(p)] for a tracked block: freeing it twice is a crash. *)
Definition free_cell (c : cell) : MS cell :=
  match c with
  | CNull => mret CNull
  | CLive => mret CFreed
  | CFreed => crashM CMemory
  end.

(** A computation of the shared half, run by the caller thread. *)
Definition shared_op {A} (m : MS A) : M (world D) A := zoom sh with_sh m.
End effects.

(** ** Rules for the primitive effects *)

Section effect_rules.
Context (nf : Prop) {D : Type} `{EV : !Env}.
Implicit Types s : shared D.

Lemma wp_next_fault (Q : Z → shared D → Prop) s :
  Q (fault (n_fault s)) (with_n_fault (S (n_fault s)) s) → wp nf next_fault Q s.
Proof. done. Qed.

Lemma wp_sub_load id sub (Q : submission → shared D → Prop) s :
  subs s !! id = Some sub → Q sub s → wp nf (sub_load id) Q s.
Proof. intros Hs HQ. unfold sub_load. wp_steps. by eapply wp_derefM. Qed.

Lemma wp_sub_update id f sub (Q : unit → shared D → Prop) s :
  subs s !! id = Some sub →
  Q tt (with_subs (<[id := f sub]> (subs s)) s) → wp nf (sub_update id f) Q s.
Proof.
  intros Hs HQ. unfold sub_update. wp_step. eapply wp_sub_load; [done|]. by wp_step.
Qed.

Lemma wp_comp_load id c (Q : completion → shared D → Prop) s :
  comps s !! id = Some c → Q c s → wp nf (comp_load id) Q s.
Proof. intros Hs HQ. unfold comp_load. wp_steps. by eapply wp_derefM. Qed.

Lemma wp_comp_update id f c (Q : unit → shared D → Prop) s :
  comps s !! id = Some c →
  Q tt (with_comps (<[id := f c]> (comps s)) s) → wp nf (comp_update id f) Q s.
Proof.
  intros Hs HQ. unfold comp_update. wp_step. eapply wp_comp_load; [done|]. by wp_step.
Qed.

Lemma wp_on_pool f (Q : unit → shared D → Prop) s :
  Q tt (with_pool (f (pool s)) s) → wp nf (on_pool f) Q s.
Proof. done. Qed.

Lemma wp_on_cq f (Q : unit → shared D → Prop) s :
  Q tt (with_cq (f (cq s)) s) → wp nf (on_cq f) Q s.
Proof. done. Qed.

(** The bytes a data pointer denotes in a memory. *)
Definition data_at (m : gmap nat (list byte)) (p : data_ptr) (len : Z) : option (list byte) :=
  match p with
  | DNull => None
  | DCopy b => if zlen b <? len then None else Some (ztake len b)
  | DUser buf off =>
      b ← m !! buf;
      if (off <? 0) || (zlen b <? off + len) then None else Some (ztake len (zdrop off b))
  end.

Lemma wp_read_data p len bytes (Q : list byte → shared D → Prop) s :
  data_at (mem s) p len = Some bytes → Q bytes s → wp nf (read_data p len) Q s.
Proof.
  unfold data_at, read_data. intros Hd HQ. wp_step. wp_step. destruct p as [|buf off|b]; [done| |].
  - destruct (mem s !! buf) as [b|] eqn:Hm; simpl in Hd; [|done].
    wp_step. eapply wp_derefM; [done|]. destruct (_ || _); simplify_eq. by wp_step.
  - destruct (_ <? _); simplify_eq. by wp_step.
Qed.

Lemma wp_shared_op {A} (m : M (shared D) A) (Q : A → world D → Prop) (w : world D) :
  wp nf m (λ a s, Q a (World s (hs w))) (sh w) → wp nf (shared_op m) Q w.
Proof. intros Hm. unfold shared_op. by apply wp_zoom. Qed.
End effect_rules.

(** Steps over primitives and effects. *)
Ltac wp_go :=
  first
    [ wp_step
    | lazymatch goal with
      | |- wp _ next_fault _ _ => apply wp_next_fault
      | |- wp _ (on_pool _) _ _ => apply wp_on_pool
      | |- wp _ (on_cq _) _ _ => apply wp_on_cq
      | |- wp _ (shared_op _) _ _ => apply wp_shared_op
      end ]; cbv beta.
