(* ===== verification/Event.v ===== *)
(** * Event notification (lib/event.c)

    The eventfd variant of event.c, used on Linux and FreeBSD: an event is a
    counter in the kernel; [event_signal] adds one to it and [event_wait] reads
    and clears it.  The environment decides the errno of each [write] and
    [read]. *)

From stdpp Require Import prelude list strings gmap.
From Stdlib Require Import ZArith Lia.
From S2P Require Import Prelude Ring State.

Local Open Scope Z_scope.

Section event.
Context {D : Type} `{EV : !Env}.
Abbreviation MS := (M (shared D)).

(** [write(e->write_fd, &event, 8)] until it is not interrupted: 0 or the errno
    of the last attempt.  A successful write adds one to the counter. *)
Fixpoint event_write (fuel : nat) : MS Z :=
  c ← gets cq; v ← derefM (cq_event c);
  err ← next_fault;
  if err =? 0 then on_cq (with_cq_event (Some (v + 1)));; mret 0
  else if err =? EINTR then
    match fuel with
    | O => crashM CNoFuel
    | S fuel' => event_write fuel'
    end
  else mret err.

Definition event_signal : MS Z :=
  err ← event_write spins;
  if fails err then
    if negb (err =? EAGAIN) then mret (- err)
    else mret 0
  else mret 0.

(** [read(e->read_fd, &event, 8)] of a non blocking eventfd: EAGAIN if the
    counter is zero, otherwise the counter is cleared. *)
Fixpoint event_read (fuel : nat) : MS Z :=
  c ← gets cq; v ← derefM (cq_event c);
  err ← next_fault;
  if err =? 0 then
    if v =? 0 then mret EAGAIN
    else on_cq (with_cq_event (Some 0));; mret 0
  else if err =? EINTR then
    match fuel with
    | O => crashM CNoFuel
    | S fuel' => event_read fuel'
    end
  else mret err.

Definition event_wait : MS Z :=
  err ← event_read spins;
  if fails err then
    if negb (err =? EAGAIN) then mret (- err)
    else mret 0
  else mret 1.

(** Open the event: [malloc], then [eventfd]. *)
Definition event_open : MS Z :=
  err ← next_fault;
  if fails err then mret (- err)
  else err ← next_fault;
       if fails err then mret (- err)
       else on_cq (with_cq_event (Some 0));; mret 0.

Definition event_close : MS unit := on_cq (with_cq_event None).
End event.
