(* ===== verification/EventPipe.v ===== *)
(** * Events over a pipe (lib/event.c)

    The variant of event.c for systems without eventfd: an event is a pipe,
    [event_signal] writes a byte and [event_wait] reads up to 128 of them.  The
    environment decides the errno of each system call and the capacity of the pipe.
    Both variants are refined from the same promise: no signal is lost. *)

From stdpp Require Import prelude list.
From Stdlib Require Import ZArith Lia.
From S2P Require Import Prelude State.

Local Open Scope Z_scope.

(** ** Data *)

Definition O_NONBLOCK := 0x4.
Definition O_APPEND := 0x8.
Definition O_ASYNC := 0x40.
Definition O_CLOEXEC := 0x1000000.

(** The flags that [fcntl(fd, F_SETFL)] can set; it ignores the others. *)
Definition SETTABLE := Z.lor O_NONBLOCK (Z.lor O_APPEND O_ASYNC).

Inductive pipe_end := ReadEnd | WriteEnd.

(** The bytes in the pipe, and the status flags of its ends. *)
Record pipe := Pipe { p_bytes : Z; p_read : Z; p_write : Z }.

(** The event, the open descriptors, the allocations, and the number of system calls. *)
Record pipe_state := PipeState { ps_event : option pipe; ps_fds : Z; ps_heap : Z; ps_calls : nat }.

(** errno of the n-th system call, what the pipe holds, and how often an interrupted
    call is repeated. *)
Class PipeEnv := {
  sys_error : nat → Z;
  capacity : Z;
  restarts : nat;
}.

Section pipe.
Context `{PE : !PipeEnv}.
Abbreviation MP := (M pipe_state).

Definition call : MP Z :=
  s ← get;
  modify (λ s, PipeState (ps_event s) (ps_fds s) (ps_heap s) (S (ps_calls s)));;
  mret (sys_error (ps_calls s)).

Definition set_pipe (e : option pipe) (fds heap : Z) : MP unit :=
  modify (λ s, PipeState e (ps_fds s + fds) (ps_heap s + heap) (ps_calls s)).

Definition load_pipe : MP pipe := s ← get; derefM (ps_event s).

Definition end_flags (fd : pipe_end) (e : pipe) : Z := match fd with ReadEnd => p_read e | WriteEnd => p_write e end.

Definition with_flags (fd : pipe_end) (flags : Z) (e : pipe) : pipe :=
  match fd with ReadEnd => Pipe (p_bytes e) flags (p_write e) | WriteEnd => Pipe (p_bytes e) (p_read e) flags end.

(** ** Operations *)

Definition set_flags (fd : pipe_end) (flags : Z) : MP Z :=
  err ← call; (* F_GETFL *)
  if fails err then mret (- err)
  else
    e ← load_pipe;
    err ← call; (* F_SETFL *)
    if fails err then mret (- err)
    else set_pipe (Some (with_flags fd (Z.land (Z.lor (end_flags fd e) flags) SETTABLE) e)) 0 0;; mret 0.

Definition init_event (flags : Z) : MP Z :=
  err ← call; (* pipe *)
  if fails err then mret (- err)
  else
    set_pipe (Some (Pipe 0 0 0)) 2 0;;
    rc ← set_flags ReadEnd flags;
    rc ← (if fails rc then mret rc else set_flags WriteEnd flags);
    if fails rc then set_pipe None (-2) 0;; mret rc else mret 0.

Definition event_open (flags : Z) : MP Z :=
  err ← call; (* malloc *)
  if fails err then mret (- err)
  else
    s ← get; set_pipe (ps_event s) 0 1;;
    rc ← init_event flags;
    s ← get;
    (if fails rc then set_pipe (ps_event s) 0 (-1) else mret tt);;
    mret rc.

(** A system call until it is not interrupted: errno and its result. *)
Fixpoint retry (fuel : nat) (io : MP (Z * Z)) : MP (Z * Z) :=
  '(err, n) ← io;
  if err =? EINTR then match fuel with O => crashM CNoFuel | S fuel' => retry fuel' io end
  else mret (err, n).

(** [write(e->write_fd, &event, 1)]: a pipe that is full makes the caller wait unless the
    descriptor is non blocking. *)
Definition write_pipe : MP (Z * Z) :=
  e ← load_pipe;
  err ← call;
  if fails err then mret (err, -1)
  else if p_bytes e <? capacity then set_pipe (Some (Pipe (p_bytes e + 1) (p_read e) (p_write e))) 0 0;; mret (0, 1)
  else if Z.land (p_write e) O_NONBLOCK =? 0 then crashM CNoFuel
  else mret (EAGAIN, -1).

Definition event_signal : MP Z :=
  '(err, n) ← retry restarts write_pipe;
  if n <? 0 then if negb (err =? EAGAIN) then mret (- err) else mret 0
  else mret 0.

(** [sizeof(event)] *)
Definition EVENT_SIZE := 128.

(** [read(e->read_fd, &event, sizeof(event))] *)
Definition read_pipe : MP (Z * Z) :=
  e ← load_pipe;
  err ← call;
  if fails err then mret (err, -1)
  else if 0 <? p_bytes e then
    let n := Z.min EVENT_SIZE (p_bytes e) in
    set_pipe (Some (Pipe (p_bytes e - n) (p_read e) (p_write e))) 0 0;; mret (0, n)
  else if Z.land (p_read e) O_NONBLOCK =? 0 then crashM CNoFuel
  else mret (EAGAIN, -1).

Definition event_wait : MP Z :=
  '(err, n) ← retry restarts read_pipe;
  if n <? 0 then if negb (err =? EAGAIN) then mret (- err) else mret 0
  else mret (if 0 <? n then 1 else 0).

(** NULL is ignored. *)
Definition event_close : MP unit :=
  s ← get; match ps_event s with None => mret tt | Some _ => set_pipe None (-2) (-1) end.
End pipe.

(** ** What an event promises *)

Inductive event_call := CallSignal | CallWait.

#[global] Instance event_call_eq_dec : EqDecision event_call.
Proof. solve_decision. Defined.

(** Calls with their results, from a state with or without a signal that was not
    received: a signal is kept until some wait returns 1, a wait returns 0 only if there
    is none, and a call that fails changes nothing. *)
Inductive delivers : bool → list (event_call * Z) → Prop :=
| delivers_nil b : delivers b []
| delivers_signal b l : delivers true l → delivers b ((CallSignal, 0) :: l)
| delivers_none l : delivers false l → delivers false ((CallWait, 0) :: l)
| delivers_some b l : delivers b l → delivers true ((CallWait, 1) :: l)
| delivers_error b c rc l : rc < 0 → delivers b l → delivers b ((c, rc) :: l).

(** Signals sent, and signals received. *)
Definition sent (l : list (event_call * Z)) : Z := zlen (filter (λ x, x = (CallSignal, 0)) l).
Definition received (l : list (event_call * Z)) : Z := zlen (filter (λ x, x = (CallWait, 1)) l).

(** ** The pipe keeps it *)

Section rules.
Context `{PE : !PipeEnv}.
Implicit Types (s : pipe_state) (e : pipe).

(** Calls are interrupted a bounded number of times, and fail with EAGAIN only if they
    would have to wait. *)
Record sys_ok : Prop := {
  so_errno n : 0 <= sys_error n;
  so_restart n : ∃ j, (j ≤ restarts)%nat ∧ sys_error (n + j)%nat ≠ EINTR;
  so_again n : sys_error n ≠ EAGAIN;
  so_capacity : 0 < capacity;
}.

Context (Hsys : sys_ok).

Definition after (e : option pipe) n s : pipe_state := PipeState e (ps_fds s) (ps_heap s) n.

Record usable e : Prop := {
  us_bytes : 0 <= p_bytes e <= capacity;
  us_read : Z.land (p_read e) O_NONBLOCK ≠ 0;
  us_write : Z.land (p_write e) O_NONBLOCK ≠ 0;
}.

Definition interrupted_at_most (fuel n : nat) : Prop := ∃ j, (j ≤ fuel)%nat ∧ sys_error (n + j)%nat ≠ EINTR.

Lemma interrupted_next fuel n :
  interrupted_at_most fuel n → sys_error n = EINTR → ∃ fuel', fuel = S fuel' ∧ interrupted_at_most fuel' (S n).
Proof using Type.
  intros (j & Hj & Hne) Hn. destruct j as [|j]; [by rewrite Nat.add_0_r in Hne|]. destruct fuel as [|fuel]; [lia|].
  exists fuel. split; [done|]. exists j. split; [lia|]. by rewrite Nat.add_succ_comm.
Qed.

(** A call that either was interrupted or left an event with [R]. *)
Lemma retry_ok io e (R : Z * Z → pipe → Prop) fuel s :
  (∀ s1, ps_event s1 = Some e → wp False io (λ r s', ∃ e', s' = after (Some e') (S (ps_calls s1)) s1 ∧
    ((r.1 = EINTR ∧ sys_error (ps_calls s1) = EINTR ∧ e' = e) ∨ (r.1 ≠ EINTR ∧ R r e'))) s1) →
  ps_event s = Some e → interrupted_at_most fuel (ps_calls s) →
  wp False (retry fuel io) (λ r s', ∃ n e', s' = after (Some e') n s ∧ R r e') s.
Proof using Type.
  intros Hio. revert s. induction fuel as [|fuel IH]; intros s He Hi; simpl; wp_step;
    (eapply wp_mono; [by apply Hio|]); intros [err n] s' (e' & -> & [(Hr & Hn & ->)|[Hr HR]]); simpl in Hr;
    [|rewrite (proj2 (Z.eqb_neq _ _)) by done; wp_step; by eexists _, _|
     |rewrite (proj2 (Z.eqb_neq _ _)) by done; wp_step; by eexists _, _];
    destruct (interrupted_next _ _ Hi Hn) as (f & Hf & Hi'); [done|].
  injection Hf as <-. subst err. simpl. eapply wp_mono; [by apply IH|].
  intros r s' (n' & e' & -> & HR). by exists n', e'.
Qed.

Lemma after_same s e : ps_event s = Some e → after (Some e) (ps_calls s) s = s.
Proof using Type. destruct s. simpl. by intros ->. Qed.

(** What the calls of the kernel did. *)
Definition written e (r : Z * Z) e' : Prop :=
  usable e' ∧ ((r.2 = 1 ∧ p_bytes e' = p_bytes e + 1) ∨
    (r.2 = -1 ∧ e' = e ∧ 0 < r.1 ∧ (r.1 = EAGAIN → 0 < p_bytes e))).

Definition taken e (r : Z * Z) e' : Prop :=
  usable e' ∧ ((0 < r.2 ∧ p_bytes e' = p_bytes e - r.2) ∨
    (r.2 = -1 ∧ e' = e ∧ 0 < r.1 ∧ (r.1 = EAGAIN → p_bytes e = 0))).

Ltac io_start Hu :=
  unfold load_pipe, call, set_pipe; do 3 wp_step; (eapply wp_derefM; [done|]); do 6 wp_step; simpl; unfold fails.

(** The call failed. *)
Lemma io_failed (R : Z * Z → pipe → Prop) e s :
  ps_event s = Some e → (sys_error (ps_calls s) =? 0) = false →
  (0 < sys_error (ps_calls s) → sys_error (ps_calls s) ≠ EAGAIN → R (sys_error (ps_calls s), -1) e) →
  ∃ e', PipeState (ps_event s) (ps_fds s) (ps_heap s) (S (ps_calls s)) = after (Some e') (S (ps_calls s)) s ∧
    ((sys_error (ps_calls s) = EINTR ∧ sys_error (ps_calls s) = EINTR ∧ e' = e) ∨
     (sys_error (ps_calls s) ≠ EINTR ∧ R (sys_error (ps_calls s), -1) e')).
Proof using Hsys.
  intros He E HR. exists e. rewrite He. split; [done|].
  pose proof (so_errno Hsys (ps_calls s)). pose proof (so_again Hsys (ps_calls s)).
  destruct (decide (sys_error (ps_calls s) = EINTR)); [by left|right]. split; [done|]. apply HR; [lia|done].
Qed.

Lemma write_pipe_ok e s :
  usable e → ps_event s = Some e → wp False write_pipe (λ r s', ∃ e', s' = after (Some e') (S (ps_calls s)) s ∧
    ((r.1 = EINTR ∧ sys_error (ps_calls s) = EINTR ∧ e' = e) ∨ (r.1 ≠ EINTR ∧ written e r e'))) s.
Proof using Hsys.
  intros Hu He. unfold write_pipe. io_start Hu. destruct (sys_error (ps_calls s) =? 0) eqn:E0; simpl.
  2: { wp_step. apply (io_failed (written e)); [done..|]. intros H1 H2. split; [done|right]. by split_and!. }
  destruct (p_bytes e <? capacity) eqn:Eb.
  - do 2 wp_step. eexists. split; [unfold after; simpl; f_equal; lia|right]. split; [done|].
    destruct Hu. split; [split; simpl; try done; lia|by left].
  - rewrite (proj2 (Z.eqb_neq _ _)) by apply Hu. wp_step. exists e. rewrite He. split; [done|right]. split; [done|].
    split; [done|right]. split_and!; try done. intros _. pose proof (so_capacity Hsys). lia.
Qed.

Lemma read_pipe_ok e s :
  usable e → ps_event s = Some e → wp False read_pipe (λ r s', ∃ e', s' = after (Some e') (S (ps_calls s)) s ∧
    ((r.1 = EINTR ∧ sys_error (ps_calls s) = EINTR ∧ e' = e) ∨ (r.1 ≠ EINTR ∧ taken e r e'))) s.
Proof using Hsys.
  intros Hu He. unfold read_pipe. io_start Hu. destruct (sys_error (ps_calls s) =? 0) eqn:E0; simpl.
  2: { wp_step. apply (io_failed (taken e)); [done..|]. intros H1 H2. split; [done|right]. by split_and!. }
  destruct (0 <? p_bytes e) eqn:Eb.
  - do 2 wp_step. eexists. split; [unfold after; simpl; f_equal; lia|right]. split; [done|].
    destruct Hu. unfold EVENT_SIZE. split; [split; simpl; try done; lia|left; simpl; lia].
  - rewrite (proj2 (Z.eqb_neq _ _)) by apply Hu. wp_step. exists e. rewrite He. split; [done|right]. split; [done|].
    split; [done|right]. destruct Hu. split_and!; try done. intros _. lia.
Qed.

Lemma event_signal_ok e s :
  usable e → ps_event s = Some e → wp False event_signal (λ rc s', ∃ n e', s' = after (Some e') n s ∧ usable e' ∧
    ((rc = 0 ∧ 0 < p_bytes e' <= p_bytes e + 1) ∨ (rc < 0 ∧ e' = e))) s.
Proof using Hsys.
  intros Hu He. unfold event_signal. wp_step. eapply wp_mono.
  { apply (retry_ok _ e (written e)); [intros s1 He1; by apply write_pipe_ok|done|apply (so_restart Hsys)]. }
  intros [err k] s' (n & e' & -> & Hu' & Hw). simpl in Hw. pose proof (us_bytes e Hu).
  destruct Hw as [[-> Hb]|(-> & -> & Hpos & Ha)]; simpl.
  - wp_step. exists n, e'. split_and!; [done..|]. left. lia.
  - destruct (err =? EAGAIN) eqn:E; simpl; wp_step; exists n, e; split_and!; try done; [left|right; split; [lia|done]].
    specialize (Ha ltac:(lia)). lia.
Qed.

Lemma event_wait_ok e s :
  usable e → ps_event s = Some e → wp False event_wait (λ rc s', ∃ n e', s' = after (Some e') n s ∧ usable e' ∧
    ((rc = 1 ∧ p_bytes e' < p_bytes e) ∨ (rc = 0 ∧ p_bytes e = 0 ∧ e' = e) ∨ (rc < 0 ∧ e' = e))) s.
Proof using Hsys.
  intros Hu He. unfold event_wait. wp_step. eapply wp_mono.
  { apply (retry_ok _ e (taken e)); [intros s1 He1; by apply read_pipe_ok|done|apply (so_restart Hsys)]. }
  intros [err k] s' (n & e' & -> & Hu' & Hw). simpl in Hw.
  destruct Hw as [[Hk Hb]|(-> & -> & Hpos & Ha)]; simpl.
  - rewrite (proj2 (Z.ltb_ge _ _)), (proj2 (Z.ltb_lt _ _)) by lia. wp_step. exists n, e'. split_and!; [done..|]. left. lia.
  - destruct (err =? EAGAIN) eqn:E; simpl; wp_step; exists n, e; split_and!; try done; right; [left|right; split; [lia|done]].
    split_and!; try done. apply Ha. lia.
Qed.

(** ** Sequences of calls *)

Definition one_call (c : event_call) : M pipe_state Z := match c with CallSignal => event_signal | CallWait => event_wait end.

Fixpoint run_calls (l : list event_call) : M pipe_state (list (event_call * Z)) :=
  match l with
  | [] => mret []
  | c :: l' => rc ← one_call c; out ← run_calls l'; mret ((c, rc) :: out)
  end.

Lemma sent_cons x l : sent (x :: l) = (if decide (x = (CallSignal, 0)) then 1 else 0) + sent l.
Proof using Type. unfold sent. rewrite filter_cons. destruct (decide _); [apply zlen_cons|done]. Qed.

Lemma received_cons x l : received (x :: l) = (if decide (x = (CallWait, 1)) then 1 else 0) + received l.
Proof using Type. unfold received. rewrite filter_cons. destruct (decide _); [apply zlen_cons|done]. Qed.

Lemma run_calls_ok l e s :
  usable e → ps_event s = Some e → wp False (run_calls l) (λ out s', out.*1 = l ∧
    (∃ n e', s' = after (Some e') n s ∧ usable e') ∧
    delivers (bool_decide (0 < p_bytes e)) out ∧ received out <= p_bytes e + sent out) s.
Proof using Hsys.
  revert e s. induction l as [|c l IH]; intros e s Hu He; simpl.
  { wp_step. split_and!; [done| |constructor|pose proof (us_bytes e Hu); assert (received [] = 0 ∧ sent [] = 0) by done; lia].
    exists (ps_calls s), e. by rewrite after_same. }
  assert (∀ rc n e', usable e' → (∀ out, delivers (bool_decide (0 < p_bytes e')) out → delivers (bool_decide (0 < p_bytes e)) ((c, rc) :: out)) →
    p_bytes e' + received [(c, rc)] <= p_bytes e + sent [(c, rc)] →
    wp False (out ← run_calls l; mret ((c, rc) :: out)) (λ out s', out.*1 = c :: l ∧
      (∃ n e', s' = after (Some e') n s ∧ usable e') ∧
      delivers (bool_decide (0 < p_bytes e)) out ∧ received out <= p_bytes e + sent out) (after (Some e') n s)) as Hgo.
  { intros rc n e' Hu' Hd Hc. wp_step. eapply wp_mono; [by apply (IH e')|].
    intros out s' (Hl & (n' & e2 & -> & Hu2) & Hdel & Hcnt). wp_step. rewrite received_cons, sent_cons in Hc |- *.
    split_and!; [by rewrite fmap_cons, Hl|by exists n', e2|by apply Hd|]. assert (received [] = 0 ∧ sent [] = 0) as [E1 E2] by done. lia. }
  wp_step. destruct c; simpl.
  - eapply wp_mono; [by apply event_signal_ok|]. intros rc s' (n & e' & -> & Hu' & [[-> Hb]|[Hrc ->]]); apply Hgo; try done.
    + intros out. rewrite (bool_decide_eq_true_2 (0 < p_bytes e')) by lia. by constructor.
    + rewrite received_cons, sent_cons. simpl. assert (received [] = 0 ∧ sent [] = 0) by done. lia.
    + intros out Hd. by constructor.
    + rewrite received_cons, sent_cons, !decide_False by (intros [=]; lia). assert (received [] = 0 ∧ sent [] = 0) by done. lia.
  - eapply wp_mono; [by apply event_wait_ok|].
    intros rc s' (n & e' & -> & Hu' & [[-> Hb]|[(-> & Hz & ->)|[Hrc ->]]]); apply Hgo; try done.
    + intros out Hd. rewrite (bool_decide_eq_true_2 (0 < p_bytes e)) by (destruct Hu'; lia). by econstructor.
    + rewrite received_cons, sent_cons. simpl. assert (received [] = 0 ∧ sent [] = 0) by done. lia.
    + intros out Hd. rewrite Hz in *. rewrite bool_decide_eq_false_2 in * by lia. by constructor.
    + intros out Hd. by constructor.
    + rewrite received_cons, sent_cons, !decide_False by (intros [=]; lia). assert (received [] = 0 ∧ sent [] = 0) by done. lia.
Qed.

(** ** Opening *)

Lemma set_flags_ok fd flags e s :
  ps_event s = Some e → wp False (set_flags fd flags) (λ rc s', ∃ n,
    (rc = 0 ∧ s' = after (Some (with_flags fd (Z.land (Z.lor (end_flags fd e) flags) SETTABLE) e)) n s) ∨
    (rc < 0 ∧ s' = after (Some e) n s)) s.
Proof using Hsys.
  intros He. pose proof (so_errno Hsys) as Hn. unfold set_flags, call, load_pipe, set_pipe. do 6 wp_step. simpl. unfold fails at 1.
  destruct (sys_error (ps_calls s) =? 0) eqn:E1; simpl.
  2: { wp_step. exists (S (ps_calls s)). right. specialize (Hn (ps_calls s)). split; [lia|]. unfold after. by rewrite <-He. }
  do 3 wp_step. eapply wp_derefM; [done|]. do 6 wp_step. simpl. unfold fails.
  destruct (sys_error (S (ps_calls s)) =? 0) eqn:E2; simpl.
  - do 2 wp_step. eexists. left. split; [done|]. unfold after. simpl. f_equal; lia.
  - wp_step. exists (S (S (ps_calls s))). right. specialize (Hn (S (ps_calls s))). split; [lia|]. unfold after. by rewrite <-He.
Qed.

(** Both ends are non blocking, or everything was closed. *)
Lemma init_event_ok flags s :
  Z.testbit flags 2 = true → ps_event s = None →
  wp False (init_event flags) (λ rc s', ∃ n,
    (rc = 0 ∧ ∃ e, s' = PipeState (Some e) (ps_fds s + 2) (ps_heap s) n ∧ usable e ∧ p_bytes e = 0) ∨
    (rc < 0 ∧ s' = after None n s)) s.
Proof using Hsys.
  intros Hf He. pose proof (so_errno Hsys) as Hn. unfold init_event, call, set_pipe. do 6 wp_step. simpl. unfold fails at 1.
  destruct (sys_error (ps_calls s) =? 0) eqn:E1; simpl.
  2: { wp_step. exists (S (ps_calls s)). right. specialize (Hn (ps_calls s)). split; [lia|]. unfold after. by rewrite <-He. }
  do 3 wp_step. eapply wp_mono; [by apply set_flags_ok|]. intros rc s1 (n1 & [[-> ->]|[Hrc ->]]); wp_step.
  - unfold fails at 1. simpl. eapply wp_mono; [by apply set_flags_ok|].
    assert (Z.land (Z.land flags SETTABLE) O_NONBLOCK ≠ 0) as Hnb.
    { intros H0. assert (Z.testbit (Z.land (Z.land flags SETTABLE) O_NONBLOCK) 2 = false) as Ht by (by rewrite H0).
      rewrite !Z.land_spec, Hf in Ht. done. }
    intros rc s2 (n2 & [[-> ->]|[Hrc ->]]).
    + unfold fails. simpl. wp_step. exists n2. left. split; [done|]. eexists. split; [unfold after; simpl; f_equal; lia|].
      pose proof (so_capacity Hsys). split; [|done]. split; simpl; [lia|done|done].
    + unfold fails. rewrite (proj2 (Z.eqb_neq _ _)) by lia. simpl. do 2 wp_step. exists n2. right. split; [lia|].
      unfold after. simpl. f_equal; lia.
  - unfold fails at 1. rewrite (proj2 (Z.eqb_neq _ _)) by lia. simpl. wp_step. unfold fails.
    rewrite (proj2 (Z.eqb_neq _ _)) by lia. simpl. do 2 wp_step. exists n1. right. split; [lia|].
    unfold after. simpl. f_equal; lia.
Qed.

Lemma event_open_ok flags s :
  Z.testbit flags 2 = true → ps_event s = None →
  wp False (event_open flags) (λ rc s', ∃ n,
    (rc = 0 ∧ ∃ e, s' = PipeState (Some e) (ps_fds s + 2) (ps_heap s + 1) n ∧ usable e ∧ p_bytes e = 0) ∨
    (rc < 0 ∧ s' = after None n s)) s.
Proof using Hsys.
  intros Hf He. pose proof (so_errno Hsys) as Hn. unfold event_open, call, set_pipe. do 6 wp_step. simpl. unfold fails at 1.
  destruct (sys_error (ps_calls s) =? 0) eqn:E1; simpl.
  2: { wp_step. exists (S (ps_calls s)). right. specialize (Hn (ps_calls s)). split; [lia|]. unfold after. by rewrite <-He. }
  do 5 wp_step. simpl. rewrite He. eapply wp_mono; [by apply init_event_ok|]. simpl.
  intros rc s1 (n & [(-> & e & -> & Hu & Hb)|[Hrc ->]]).
  - do 3 wp_step. unfold fails. simpl. do 2 wp_step. exists n. left. split; [done|]. exists e. split_and!; [|done..]. f_equal; lia.
  - do 3 wp_step. unfold fails. rewrite (proj2 (Z.eqb_neq _ _)) by lia. simpl. do 2 wp_step. exists n. right. split; [lia|].
    unfold after. simpl. f_equal; lia.
Qed.
End rules.

(** C34: events over a pipe, from [event_open] to [event_close].  In every
    environment that interrupts calls a bounded number of times: if opening fails,
    nothing is left open or allocated.  Otherwise any sequence of [event_signal] and
    [event_wait], however many signals the pipe has room for, ends and loses no signal:
    a wait returns 0 only if every signal before was followed by a wait that returned 1;
    there are at most as many of these as signals; calls that fail change nothing; and
    closing releases everything. *)
Theorem pipe_event_delivers `{PE : !PipeEnv} (calls : list event_call) (fds heap : Z) (n : nat) :
  sys_ok →
  ∃ rc s, event_open (Z.lor O_CLOEXEC O_NONBLOCK) (PipeState None fds heap n) = Ret rc s ∧
    if decide (rc = 0) then
      ∃ out s1 s2, run_calls calls s = Ret out s1 ∧ out.*1 = calls ∧ delivers false out ∧ received out <= sent out ∧
        event_close s1 = Ret tt s2 ∧ ps_event s2 = None ∧ ps_fds s2 = fds ∧ ps_heap s2 = heap
    else rc < 0 ∧ ps_event s = None ∧ ps_fds s = fds ∧ ps_heap s = heap.
Proof.
  intros Hs. destruct (wp_total _ _ _ (event_open_ok Hs (Z.lor O_CLOEXEC O_NONBLOCK) (PipeState None fds heap n) eq_refl eq_refl))
    as (rc & s & Ho & n1 & Hr). exists rc, s. split; [done|]. simpl in Hr.
  destruct Hr as [(-> & e & -> & Hu & Hb)|[Hrc ->]]; [|rewrite decide_False by lia; by split_and!].
  rewrite decide_True by done.
  destruct (wp_total _ _ _ (run_calls_ok Hs calls e (PipeState (Some e) (fds + 2) (heap + 1) n1) Hu eq_refl)) as (out & s1 & Hrun & Hl & (n2 & e2 & -> & _) & Hd & Hc).
  eexists out, _, _. split_and!; [done..| |lia|done|done|simpl; lia|simpl; lia].
  rewrite bool_decide_eq_false_2 in Hd by lia. done.
Qed.

(** A small pipe, with a write that is interrupted and a read that fails. *)
#[local] Instance small_pipe : PipeEnv := {|
  sys_error n := match n with 6%nat => EINTR | 10%nat => 5 | _ => 0 end;
  capacity := 2;
  restarts := 1;
|}.

Definition some_calls : list event_call := [CallSignal; CallSignal; CallSignal; CallWait; CallWait; CallWait; CallSignal; CallWait].

Lemma small_pipe_ok : sys_ok.
Proof.
  split; simpl; [| | |lia].
  - intros n. do 11 (destruct n as [|n]; [simpl; unfold EINTR; lia|]). simpl. lia.
  - intros n. destruct (decide (n = 6%nat)) as [->|Hn]; [exists 1%nat; split; [lia|done]|].
    exists 0%nat. split; [lia|]. rewrite Nat.add_0_r. do 11 (destruct n as [|n]; [try done|]). done.
  - intros n. do 11 (destruct n as [|n]; [done|]). done.
Qed.

Lemma pipe_event_delivers_witness :
  ∃ rc s, event_open (Z.lor O_CLOEXEC O_NONBLOCK) (PipeState None 3 1 0) = Ret rc s ∧
    if decide (rc = 0) then
      ∃ out s1 s2, run_calls some_calls s = Ret out s1 ∧ out.*1 = some_calls ∧ delivers false out ∧ received out <= sent out ∧
        event_close s1 = Ret tt s2 ∧ ps_event s2 = None ∧ ps_fds s2 = 3 ∧ ps_heap s2 = 1
    else rc < 0 ∧ ps_event s = None ∧ ps_fds s = 3 ∧ ps_heap s = 1.
Proof. apply (pipe_event_delivers (PE := small_pipe) some_calls 3 1 0). apply small_pipe_ok. Defined.

(** [F_SETFL] does not set the close-on-exec flag: the library asks for it and does not
    get it. *)
Example pipe_not_cloexec :
  match event_open (Z.lor O_CLOEXEC O_NONBLOCK) (PipeState None 0 0 20) with
  | Ret 0 s => (λ e, (Z.land (p_read e) O_CLOEXEC, Z.land (p_read e) O_NONBLOCK)) <$> ps_event s = Some (0, O_NONBLOCK)
  | _ => False
  end.
Proof. vm_compute. done. Qed.
