(* ===== verification/Completion.v ===== *)
(** * Completions of async updates (lib/completion.c and the completion queue
      of lib/blkhash.c)

    A completion is shared by the caller and by all the submissions of one
    async update; the last one to drop its reference runs the callback
    [update_completed], which appends to the completion queue of the hash and
    signals the event when the queue was empty. *)

From stdpp Require Import prelude list strings gmap.
From Stdlib Require Import ZArith Lia.
From S2P Require Import Prelude Ring State Event.

Local Open Scope Z_scope.

Section completion.
Context {D : Type} `{EV : !Env}.
Abbreviation MS := (M (shared D)).

(** ** completion.c *)

(** NULL, with errno, or a new completion with one reference. *)
Definition completion_new (ud : Z) : MS (Z * option nat) :=
  err ← next_fault;
  if fails err then mret (err, None)
  else
    s ← get;
    let id := next_comp s in
    modify (with_comps (<[id := Completion ud 0 1]> (comps s)));;
    modify (with_next_comp (S id));;
    mret (0, Some id).

(** The first error is kept. *)
Definition completion_set_error (id : nat) (error : Z) : MS unit :=
  comp_update id (λ c, if c_error c =? 0 then with_c_error error c else c).

Definition completion_ref (id : nat) : MS unit :=
  comp_update id (λ c, with_c_refs (u32 (c_refs c + 1)) c).

(** Drop a reference; dropping the last one runs [callback] and frees. *)
Definition completion_unref {A} (callback : Z → Z → MS A) (id : nat) : MS (option A) :=
  comp_update id (λ c, with_c_refs (u32 (c_refs c - 1)) c);;
  c ← comp_load id;
  if c_refs c =? 0 then
    r ← callback (c_user_data c) (c_error c);
    modify (λ s, with_comps (delete id (comps s)) s);;
    mret (Some r)
  else mret None.

(** ** The error of the hash (set_error in blkhash.c) *)

Definition set_error (error : Z) : MS Z :=
  s ← get;
  (if h_error s =? 0 then modify (with_h_error error) else mret tt);;
  mret (-1).

(** ** update_completed (blkhash.c) *)

(** The critical section: append, and tell whether the queue was empty. *)
Definition update_completed_push (ud error : Z) : MS bool :=
  s ← get;
  let q := cq s in
  assertM (cq_count q <? queue_depth (cfg s));;
  (if zlen (cq_array q) <=? cq_count q then crashM CMemory else mret tt);;
  modify (with_cq (with_cq_count (u32 (cq_count q + 1))
    (with_cq_array (<[Z.to_nat (cq_count q) := BlkCompletion ud error]> (cq_array q)) q)));;
  mret (cq_count q =? 0).

(** After the critical section, if the queue was empty. *)
Definition update_completed_notify : MS unit :=
  err ← event_signal;
  if fails err then set_error (- err);; mret tt else mret tt.

Definition update_completed (ud error : Z) : MS unit :=
  was_empty ← update_completed_push ud error;
  if was_empty : bool then update_completed_notify else mret tt.
End completion.
