(* ===== verification/Submission.v ===== *)
(** * Submissions and the submission queue (lib/submission.c, lib/submission.h)

    A submission carries one block, or a run of zero blocks, from the caller
    thread to the outer hash.  The queue keeps them in the order of their
    blocks. *)

From stdpp Require Import prelude list strings gmap.
From Stdlib Require Import ZArith Lia.
From S2P Require Import Prelude Ring State Event Completion.

Local Open Scope Z_scope.

(** ** The submission queue *)

Definition submission_queue_init (size : Z) : ring nat := ring_new size.

Definition submission_queue_full (sq : ring nat) : bool := r_len sq =? r_size sq.

(** NULL if the queue is empty. *)
Definition submission_queue_first {St} (sq : ring nat) : M St (option nat) :=
  if 0 <? r_len sq then x ← derefM (ring_peek sq); mret (Some x) else mret None.

(** The status, what is stored through [out], and the queue. *)
Definition submission_queue_pop {St} (sq : ring nat) : M St (Z * option nat * ring nat) :=
  if r_len sq =? 0 then mret (ENOENT, None, sq)
  else if r_size sq =? 0 then crashM CDivZero
  else mret (0, ring_peek sq, ring_drop sq).

Definition submission_queue_push {St} (sq : ring nat) (id : nat) : M St (Z * ring nat) :=
  if r_len sq =? r_size sq then mret (ENOBUFS, sq)
  else if r_size sq =? 0 then crashM CDivZero
  else mret (0, ring_put sq id).

(** ** Submissions *)

Section submission.
Context {D : Type} `{EV : !Env}.
Abbreviation MS := (M (shared D)).

(** [malloc] and [memcpy]: errno, and the private copy. *)
Definition copy_data (p : data_ptr) (len : Z) : MS (Z * data_ptr) :=
  err ← next_fault;
  if fails err then mret (err, p)
  else bytes ← read_data p len; mret (0, DCopy bytes).

(** Store a new submission at a fresh address. *)
Definition sub_alloc (sub : submission) : MS nat :=
  s ← get;
  modify (with_subs (<[next_sub s := sub]> (subs s)));;
  modify (with_next_sub (S (next_sub s)));;
  mret (next_sub s).

Definition submission_create_data (index len : Z) (data : data_ptr)
    (completion : option nat) (flags : Z) : MS (Z * option nat) :=
  err ← next_fault;
  if fails err then mret (err, None)
  else
    '(err, data') ← (if Z.testbit flags 0 then copy_data data (u32 len) else mret (0, data));
    if fails err then mret (err, None)
    else
      (if completion is Some c then completion_ref c else mret tt);;
      id ← sub_alloc (Submission [] completion data' index (u32 len) 0 false false flags);
      mret (0, Some id).

Definition submission_create_zero (index : Z) : MS (Z * option nat) :=
  err ← next_fault;
  if fails err then mret (err, None)
  else
    id ← sub_alloc (Submission [] None DNull index 0 0 true true 0);
    mret (0, Some id).

Definition submission_destroy (id : nat) : MS unit :=
  sub_load id;; modify (λ s, with_subs (delete id (subs s)) s).

Definition submission_set_zero (id : nat) : MS unit :=
  sub_update id (with_sub_zero true).

Definition submission_set_error (id : nat) (error : Z) : MS unit :=
  sub_update id (with_sub_error error);;
  sub ← sub_load id;
  if sub_completion sub is Some c then completion_set_error c error else mret tt.

(** [submission_complete] run to its end by one thread. *)
Definition submission_complete (id : nat) : MS unit :=
  sub ← sub_load id;
  (if sub_completion sub is Some c then
     completion_unref update_completed c;; sub_update id (with_sub_completion None)
   else mret tt);;
  sub_update id (with_sub_completed true).

(** The load in [submission_is_completed], after the other threads ran. *)
Definition submission_is_completed (yield : MS unit) (id : nat) : MS bool :=
  yield;; sub ← sub_load id; mret (sub_completed sub).

(** The busy loop of [submission_wait]. *)
Fixpoint submission_wait_loop (yield : MS unit) (fuel : nat) (id : nat) : MS unit :=
  completed ← submission_is_completed yield id;
  if completed : bool then mret tt
  else match fuel with
       | O => crashM CNoFuel
       | S fuel' => submission_wait_loop yield fuel' id
       end.

Definition submission_wait (yield : MS unit) (id : nat) : MS unit :=
  submission_wait_loop yield spins id.

(** Destroy the queued submissions, free the ring and clear the structure. *)
Fixpoint submission_queue_drain (fuel : nat) (sq : ring nat) : MS unit :=
  if 0 <? r_len sq then
    match fuel with
    | O => crashM CNoFuel
    | S fuel' =>
        '(_, out, sq') ← submission_queue_pop sq;
        id ← derefM out;
        submission_destroy id;;
        submission_queue_drain fuel' sq'
    end
  else mret tt.

Definition submission_queue_destroy (sq : ring nat) : MS (ring nat) :=
  submission_queue_drain (Z.to_nat (r_len sq)) sq;;
  mret (Ring [] 0 0 0 0).
End submission.
