(* ===== verification/Config.v ===== *)
(** * Configuration (lib/config.c and the options of lib/blkhash.c)

    The options object with its setters, and [config_init], which derives the
    configuration of a hash from it and computes the digest of a zero block. *)

From stdpp Require Import prelude list strings gmap.
From Stdlib Require Import ZArith Lia.
From S2P Require Import Prelude Ring State Digest.

Local Open Scope Z_scope.

(** ** Options (blkhash.c) *)

Definition MAX_THREADS := 128.
Definition KiB := Z.shiftl 1 10.

Definition default_opts : blkhash_opts := Opts "sha256"%string (64 * KiB) 0 4.

(** NULL for a NULL name (EINVAL) or if [malloc] fails. *)
Definition blkhash_opts_new (malloc_err : Z) (name : option string) : Z * option blkhash_opts :=
  match name with
  | None => (EINVAL, None)
  | Some n =>
      if fails malloc_err then (malloc_err, None)
      else (0, Some (Opts n (o_block_size default_opts) (o_queue_depth default_opts)
                       (o_threads default_opts)))
  end.

Definition blkhash_opts_set_block_size (o : blkhash_opts) (block_size : Z) : Z * blkhash_opts :=
  if fails (block_size mod 2) then (EINVAL, o)
  else (0, Opts (o_digest_name o) block_size (o_queue_depth o) (o_threads o)).

Definition blkhash_opts_set_threads (o : blkhash_opts) (threads : Z) : Z * blkhash_opts :=
  if (threads <? 1) || (MAX_THREADS <? threads) then (EINVAL, o)
  else (0, Opts (o_digest_name o) (o_block_size o) (o_queue_depth o) threads).

Definition blkhash_opts_set_queue_depth (o : blkhash_opts) (queue_depth : Z) : Z * blkhash_opts :=
  (0, Opts (o_digest_name o) (o_block_size o) queue_depth (o_threads o)).

Definition blkhash_opts_get_digest_name (o : blkhash_opts) : string := o_digest_name o.
Definition blkhash_opts_get_block_size (o : blkhash_opts) : Z := o_block_size o.
Definition blkhash_opts_get_threads (o : blkhash_opts) : Z := o_threads o.
Definition blkhash_opts_get_queue_depth (o : blkhash_opts) : Z := o_queue_depth o.

(** ** config.c *)

Definition MAX (a b : Z) : Z := if b <? a then a else b.
Definition MIN (a b : Z) : Z := if a <? b then a else b.

(** [MAX(MAX(queue_depth, workers) * 4, 32)] in [unsigned] arithmetic. *)
Definition max_submissions_for (queue_depth workers : Z) : Z :=
  MAX (u32 (MAX queue_depth workers * 4)) 32.

(** The arithmetic does not wrap for sane arguments. *)
Lemma max_submissions_bounds depth threads :
  0 <= depth < 2 ^ 29 → 1 <= threads <= MAX_THREADS →
  32 <= max_submissions_for depth threads < 2 ^ 31 ∧
  4 * depth <= max_submissions_for depth threads ∧ 4 * threads <= max_submissions_for depth threads.
Proof.
  unfold max_submissions_for, MAX, MAX_THREADS, u32. intros Hd Ht.
  destruct (threads <? depth) eqn:?; rewrite Z.mod_small by lia;
    match goal with |- context [32 <? ?x] => destruct (32 <? x) eqn:? end; lia.
Qed.

Section config.
Context {D : Type} `{DO : !DigestOps D, EV : !Env}.
Abbreviation MS := (M (shared D)).

(** A digest is stored in a buffer of BLKHASH_MAX_MD_SIZE bytes. *)
Definition store_md (md : list byte) : MS (list byte) :=
  if BLKHASH_MAX_MD_SIZE <? zlen md then crashM CMemory else mret md.

Definition compute_zero_md (c : config) : MS (Z * config) :=
  err ← next_fault;
  if fails err then mret (err, c)
  else
    o1 ← next_fault; o2 ← next_fault;
    let '(rc, od) := d_create o1 o2 (digest_name c) in
    if fails rc then mret (- rc, c)
    else
      d ← derefM od;
      o ← next_fault;
      let '(rc, d) := d_init o d in
      if fails rc then mret (- rc, c)
      else
        o ← next_fault;
        let '(rc, d) := d_update o d (zeros (block_size c)) in
        if fails rc then mret (- rc, c)
        else
          o ← next_fault;
          let '(rc, d, md) := d_final o d in
          if fails rc then mret (- rc, c)
          else
            md ← store_md md;
            mret (0, Config md (digest_name c) (block_size c) (zlen md) (workers c)
                       (queue_depth c) (max_submissions c)).

Definition config_init (opts : blkhash_opts) : MS Z :=
  let c := Config [] (o_digest_name opts) (o_block_size opts) 0 (o_threads opts)
             (o_queue_depth opts)
             (max_submissions_for (o_queue_depth opts) (o_threads opts)) in
  modify (with_cfg c);;
  '(err, c') ← compute_zero_md c;
  modify (with_cfg c');;
  mret err.
End config.
