(* ===== verification/HashPool.v ===== *)
(** * The hash pool (lib/hash-pool.c)

    A bounded queue of submissions served by worker threads.  The caller pushes
    with [hash_pool_submit]; a worker pops a submission, detects a zero block or
    computes its digest, and completes it.  Workers are step functions: the
    relation between two of their states is [worker_step], and [yield] runs the
    worker steps that the environment schedules at a point of the caller. *)

From stdpp Require Import prelude list strings gmap.
From Stdlib Require Import ZArith Lia.
From S2P Require Import Prelude Ring State Digest Zero Event Completion Submission Config.

Local Open Scope Z_scope.

Section hash_pool.
Context {D : Type} `{DO : !DigestOps D, EV : !Env}.
Abbreviation MS := (M (shared D)).

(** ** The work queue *)

Definition pool_set_error (error : Z) : MS unit :=
  on_pool (λ p, if p_error p =? 0 then with_p_error error p else p).

(** Access to the array behind [p->queue]. *)
Definition queue_access : MS (ring slot) :=
  p ← gets pool;
  match p_queue_mem p with
  | CLive => if r_size (p_queue p) =? 0 then crashM CDivZero else mret (p_queue p)
  | _ => crashM CMemory
  end.

Definition push_unlocked (x : slot) : MS unit :=
  q ← queue_access; on_pool (with_p_queue (ring_put q x)).

Definition pop_unlocked : MS slot :=
  q ← queue_access;
  x ← derefM (ring_peek q);
  on_pool (with_p_queue (ring_drop q));;
  mret x.

(** ** The condition variable [not_empty] *)

Definition wake_thread (w : wstate D) : wstate D :=
  match w with WCondWait d => WWake d | _ => w end.

Definition is_waiting (w : wstate D) : bool :=
  match w with WCondWait _ => true | _ => false end.

(** The threads blocked on the condition, by index. *)
Definition waiters (ts : list (wstate D)) : list nat :=
  filter (λ i, is_waiting <$> ts !! i = Some true) (seq 0 (length ts)).

(** Wake one waiter, if there is any; the environment chooses which. *)
Definition cond_signal : MS unit :=
  s ← get;
  modify (with_n_wake (S (n_wake s)));;
  let ws := waiters (threads s) in
  match ws !! (wake (n_wake s) `mod` length ws)%nat with
  | None => mret tt
  | Some i => modify (λ s, with_threads (alter wake_thread i (threads s)) s)
  end.

Definition cond_broadcast : MS unit :=
  modify (λ s, with_threads (wake_thread <$> threads s) s).

(** ** Workers *)

(** The critical section of [wait_for_work], from taking the mutex to either
    popping an entry or blocking on the condition. *)
Definition wait_for_work (d : D) : MS (wstate D) :=
  p ← gets pool;
  if r_len (p_queue p) =? 0 then
    on_pool (λ p, with_workers_idle (u32 (workers_idle p + 1)) p);;
    mret (WCondWait d)
  else
    x ← pop_unlocked;
    mret match x with STOP => WExit | Sub id => WWork d id end.

Definition pool_is_zero_block (sub : submission) : MS bool :=
  s ← get;
  if negb (Z.testbit (sub_flags sub) 0) && (sub_len sub =? block_size (cfg s)) then
    data ← read_data (sub_data sub) (sub_len sub);
    is_zero data (sub_len sub)
  else mret false.

Definition compute_block_digest (id : nat) (d : D) : MS D :=
  sub ← sub_load id;
  o ← next_fault;
  let '(rc, d) := d_init o d in
  if fails rc then submission_set_error id (- rc);; mret d
  else
    data ← read_data (sub_data sub) (sub_len sub);
    o ← next_fault;
    let '(rc, d) := d_update o d data in
    if fails rc then submission_set_error id (- rc);; mret d
    else
      o ← next_fault;
      let '(rc, d, md) := d_final o d in
      if fails rc then submission_set_error id (- rc);; mret d
      else md ← store_md md; sub_update id (with_sub_md md);; mret d.

(** One step of [worker_thread] (with [submission_complete] and
    [update_completed] cut at the points where other threads can run). *)
Definition worker_run (w : wstate D) : MS (wstate D) :=
  match w with
  | WStart =>
      s ← get;
      o1 ← next_fault; o2 ← next_fault;
      let '(rc, od) := d_create o1 o2 (digest_name (cfg s)) in
      if fails rc then pool_set_error rc;; mret WExit
      else d ← derefM od; mret (WLock d)
  | WLock d => wait_for_work d
  | WCondWait d => mret (WCondWait d)
  | WWake d =>
      on_pool (λ p, with_workers_idle (u32 (workers_idle p - 1)) p);;
      wait_for_work d
  | WWork d id =>
      sub ← sub_load id;
      z ← pool_is_zero_block sub;
      if z : bool then submission_set_zero id;; mret (WComplete d id)
      else d' ← compute_block_digest id d; mret (WComplete d' id)
  | WComplete d id =>
      sub ← sub_load id;
      match sub_completion sub with
      | Some c =>
          was_empty ← completion_unref update_completed_push c;
          sub_update id (with_sub_completion None);;
          mret (if default false was_empty : bool then WNotify d id else WStore d id)
      | None => mret (WStore d id)
      end
  | WNotify d id => update_completed_notify;; mret (WStore d id)
  | WStore d id => sub_update id (with_sub_completed true);; mret (WLock d)
  | WExit => mret WExit
  end.

(** A scheduled action of worker [i]; a thread that does not exist does
    nothing. *)
Definition worker_step (a : action) : MS unit :=
  s ← get;
  match a with
  | ARun i =>
      match threads s !! i with
      | None => mret tt
      | Some w =>
          w' ← worker_run w;
          modify (λ s, with_threads (<[i := w']> (threads s)) s)
      end
  | ASpurious i => modify (with_threads (alter wake_thread i (threads s)))
  end.

Fixpoint run_actions (l : list action) : MS unit :=
  match l with
  | [] => mret tt
  | a :: l' => worker_step a;; run_actions l'
  end.

(** A point where other threads may run before the caller goes on. *)
Definition yield : MS unit :=
  s ← get;
  modify (with_n_tick (S (n_tick s)));;
  run_actions (sched (n_tick s)).

(** ** The interface of the pool *)

Definition active_workers (p : hash_pool) : Z := u32 (workers_count p - workers_idle p).

Definition need_wakeup (p : hash_pool) : bool :=
  (0 <? workers_idle p) && (active_workers p <? r_len (p_queue p)).

Definition hash_pool_submit (id : nat) : MS Z :=
  yield;;
  p ← gets pool;
  err ←
    (if stopped p then mret EPERM
     else if fails (p_error p) then mret (p_error p)
     else if r_len (p_queue p) =? r_size (p_queue p) then mret ENOBUFS
     else
       push_unlocked (Sub id);;
       p' ← gets pool;
       (if need_wakeup p' then cond_signal else mret tt);;
       mret 0);
  (if fails err then submission_set_error id err;; submission_complete id else mret tt);;
  mret err.

(** The loop of [stop_workers] that fails the queued submissions. *)
Fixpoint clear_queue (fuel : nat) : MS unit :=
  p ← gets pool;
  if 0 <? r_len (p_queue p) then
    match fuel with
    | O => crashM CNoFuel
    | S fuel' =>
        x ← pop_unlocked;
        match x with
        | STOP => crashM CMemory
        | Sub id =>
            submission_set_error id EIO;;
            submission_complete id;;
            clear_queue fuel'
        end
    end
  else mret tt.

Fixpoint push_stops (n : nat) : MS unit :=
  match n with
  | O => mret tt
  | S n' => push_unlocked STOP;; push_stops n'
  end.

(** [pthread_join]: wait until thread [i] returned. *)
Fixpoint join_loop (fuel : nat) (i : nat) : MS unit :=
  yield;;
  s ← get;
  match threads s !! i with
  | Some WExit => mret tt
  | Some _ =>
      match fuel with
      | O => crashM CNoFuel
      | S fuel' => join_loop fuel' i
      end
  | None => crashM CMemory
  end.

Definition pthread_join (i : nat) : MS unit :=
  p ← gets pool;
  match p_workers_mem p with
  | CLive => join_loop spins i
  | _ => crashM CMemory
  end.

Fixpoint join_workers (n : nat) (i : nat) : MS unit :=
  match n with
  | O => mret tt
  | S n' => pthread_join i;; join_workers n' (S i)
  end.

Definition stop_workers : MS unit :=
  yield;;
  on_pool (with_stopped true);;
  p ← gets pool;
  clear_queue (Z.to_nat (r_len (p_queue p)));;
  push_stops (Z.to_nat (workers_count p));;
  cond_broadcast;;
  join_workers (Z.to_nat (workers_count p)) 0.

Definition free_queue : MS unit :=
  p ← gets pool; c ← free_cell (p_queue_mem p); on_pool (with_p_queue_mem c).
Definition free_workers : MS unit :=
  p ← gets pool; c ← free_cell (p_workers_mem p); on_pool (with_p_workers_mem c).

(** The loop of [hash_pool_init] that starts the threads: the errno of the
    first [pthread_create] that fails. *)
Fixpoint create_workers (n : nat) : MS Z :=
  match n with
  | O => mret 0
  | S n' =>
      err ← next_fault;
      if fails err then mret err
      else
        modify (λ s, with_threads (threads s ++ [WStart]) s);;
        yield;;
        on_pool (λ p, with_workers_count (u32 (workers_count p + 1)) p);;
        create_workers n'
  end.

Definition hash_pool_init : MS Z :=
  s ← get;
  let size := max_submissions (cfg s) in
  on_pool (λ p, HashPool (Ring [] size 0 0 0) (p_queue_mem p) (p_workers_mem p) 0 0 0 false);;
  err ← next_fault;
  if fails err then mret err
  else
    on_pool (with_p_queue_mem CLive);; on_pool (with_p_queue (ring_new size));;
    err ← next_fault;
    if fails err then free_queue;; mret err
    else
      on_pool (with_p_workers_mem CLive);;
      err ← next_fault; (* pthread_mutex_init *)
      if fails err then free_workers;; free_queue;; mret err
      else
        err ← next_fault; (* pthread_cond_init *)
        if fails err then free_workers;; free_queue;; mret err
        else
          err ← create_workers (Z.to_nat (workers (cfg s)));
          if fails err then stop_workers;; free_workers;; free_queue;; mret err
          else mret 0.

Definition hash_pool_destroy : MS Z :=
  stop_workers;; free_workers;; free_queue;; mret 0.
End hash_pool.
