(* ===== verification/Blkhash.v ===== *)
(** * The hash (lib/blkhash.c)

    The public API and the caller side of the computation: blocks are cut from
    the message, zero blocks are counted, data blocks are sent to the hash pool,
    and the digests of completed submissions are fed to the outer digest in
    order.  Every function of blkhash.c that changes the state of a hash is a
    computation over [world] here, under its own name. *)

From stdpp Require Import prelude list strings gmap.
From Stdlib Require Import ZArith Lia.
From S2P Require Import Prelude Ring State Digest Zero Event Completion Submission Config HashPool.

Local Open Scope Z_scope.

(** Number of consecutive zero blocks to batch. *)
Definition ZERO_BATCH_SIZE := 1024.

(** Overwrite the bytes at offset [off] of a buffer. *)
Definition write_at (off : Z) (bytes data : list byte) : list byte :=
  ztake off data ++ bytes ++ zdrop (off + zlen bytes) data.

(** The bytes [hash_message_length] feeds to the digest: [v] as a little endian
    64 bit word. *)
Definition le64 (v : Z) : list byte :=
  (λ i, byte_of_Z (Z.shiftr v (8 * Z.of_nat i))) <$> seq 0 8.

Section blkhash.
Context {D : Type} `{DO : !DigestOps D, EV : !Env}.
Abbreviation MS := (M (shared D)).
Abbreviation MW := (M (world D)).

Definition on_hash (f : blkhash D → blkhash D) : MW unit :=
  modify (λ w, with_hs (f (hs w)) w).

Definition config_of : MW config := gets (λ w, cfg (sh w)).

(** [h->error] *)
Definition get_error : MW Z := gets (λ w, h_error (sh w)).

Definition fail_with (error : Z) : MW Z := shared_op (set_error error).

(** ** The outer hash *)

(** [-digest_update(h->outer_digest, data, zlen data)] *)
Definition outer_update (data : list byte) : MW Z :=
  o ← shared_op next_fault;
  h ← gets hs;
  d ← derefM (outer_digest h);
  let '(rc, d') := d_update o d data in
  on_hash (with_outer_digest (Some d'));;
  mret (- rc).

(** The first [md_len] bytes of a digest buffer. *)
Definition md_bytes (md : list byte) : MW (list byte) :=
  c ← config_of;
  if zlen md <? md_len c then crashM CMemory else mret (ztake (md_len c) md).

(** The loop of [hash_submission] that adds the zero blocks before block
    [index]. *)
Fixpoint hash_zero_blocks (fuel : nat) (index : Z) : MW Z :=
  h ← gets hs;
  if hashed_index h <? index then
    match fuel with
    | O => crashM CNoFuel
    | S fuel' =>
        c ← config_of;
        md ← md_bytes (zero_md c);
        err ← outer_update md;
        if fails err then fail_with err
        else
          on_hash (λ h, with_hashed_index (s64 (hashed_index h + 1)) h);;
          hash_zero_blocks fuel' index
    end
  else mret 0.

Definition hash_submission (id : nat) : MW Z :=
  sub ← shared_op (sub_load id);
  if fails (sub_error sub) then fail_with (sub_error sub)
  else
    h ← gets hs;
    rc ← hash_zero_blocks (Z.to_nat (sub_index sub - hashed_index h)) (sub_index sub);
    if fails rc then mret rc
    else if negb (sub_zero sub) then
      md ← md_bytes (sub_md sub);
      err ← outer_update md;
      if fails err then fail_with err
      else
        on_hash (λ h, with_hashed_index (s64 (hashed_index h + 1)) h);;
        mret 0
    else mret 0.

Definition hash_message_length : MW Z :=
  h ← gets hs;
  err ← outer_update (le64 (message_length h));
  if fails err then fail_with err else mret 0.

(** ** Draining the submission queue *)

Definition maybe_hash_first_submission : MW Z :=
  h ← gets hs;
  if negb (submission_queue_full (sq h)) then mret 0
  else
    '(err, out, q) ← submission_queue_pop (sq h);
    on_hash (with_sq q);;
    if fails err then fail_with err
    else
      id ← derefM out;
      shared_op (submission_wait yield id);;
      rc ← hash_submission id;
      if fails rc then get_error
      else shared_op (submission_destroy id);; mret 0.

Fixpoint hash_completed_loop (fuel : nat) : MW Z :=
  h ← gets hs;
  first ← submission_queue_first (sq h);
  match first with
  | None => mret 0
  | Some id =>
      completed ← shared_op (submission_is_completed yield id);
      if negb completed then mret 0
      else
        '(_, _, q) ← submission_queue_pop (sq h);
        on_hash (with_sq q);;
        rc ← hash_submission id;
        if fails rc then get_error
        else
          shared_op (submission_destroy id);;
          match fuel with
          | O => crashM CNoFuel
          | S fuel' => hash_completed_loop fuel'
          end
  end.

Definition hash_completed_submissions : MW Z :=
  h ← gets hs; hash_completed_loop (Z.to_nat (r_len (sq h))).

Fixpoint hash_inflight_loop (fuel : nat) : MW Z :=
  h ← gets hs;
  first ← submission_queue_first (sq h);
  match first with
  | None => mret 0
  | Some id =>
      shared_op (submission_wait yield id);;
      '(_, _, q) ← submission_queue_pop (sq h);
      on_hash (with_sq q);;
      rc ← hash_submission id;
      if fails rc then get_error
      else
        shared_op (submission_destroy id);;
        match fuel with
        | O => crashM CNoFuel
        | S fuel' => hash_inflight_loop fuel'
        end
  end.

Definition hash_inflight_submissions : MW Z :=
  h ← gets hs; hash_inflight_loop (Z.to_nat (r_len (sq h))).

(** ** Submitting blocks *)

(** [submission_queue_push(&h->sq, sub)] with the error path shared by the two
    callers: destroy the submission and set the error. *)
Definition queue_submission (id : nat) : MW Z :=
  h ← gets hs;
  '(err, q) ← submission_queue_push (sq h) id;
  on_hash (with_sq q);;
  if fails err then shared_op (submission_destroy id);; fail_with err else mret 0.

Definition submit_zero_block : MW Z :=
  rc ← maybe_hash_first_submission;
  if fails rc then get_error
  else
    h ← gets hs;
    '(err, out) ← shared_op (submission_create_zero (block_index h));
    if fails err then fail_with err
    else
      id ← derefM out;
      rc ← queue_submission id;
      if fails rc then mret rc
      else
        on_hash (λ h, with_submitted_index (block_index h) h);;
        rc ← hash_completed_submissions;
        if fails rc then get_error else mret 0.

Definition submit_data_block (buf : data_ptr) (len : Z) (completion : option nat)
    (flags : Z) : MW Z :=
  rc ← maybe_hash_first_submission;
  if fails rc then get_error
  else
    h ← gets hs;
    '(err, out) ← shared_op (submission_create_data (block_index h) len buf completion flags);
    if fails err then fail_with err
    else
      id ← derefM out;
      rc ← queue_submission id;
      if fails rc then mret rc
      else
        err ← shared_op (hash_pool_submit id);
        if fails err then fail_with err
        else
          on_hash (λ h, with_submitted_index (block_index h) h);;
          on_hash (λ h, with_block_index (s64 (block_index h + 1)) h);;
          rc ← hash_completed_submissions;
          if fails rc then get_error else mret 0.

(** ** The pending buffer *)

(** Room left in the pending buffer, [h->config.block_size - h->pending.len]. *)
Definition pending_take (len : Z) : MW Z :=
  c ← config_of; h ← gets hs;
  mret (MIN len (u64 (block_size c - b_len (pending h)))).

Definition add_pending_data (buf : data_ptr) (len : Z) : MW Z :=
  n ← pending_take len;
  on_hash (λ h,
    if b_zero (pending h) then
      with_pending (Buffer (write_at 0 (zeros (b_len (pending h))) (b_data (pending h)))
                      (b_len (pending h)) false) h
    else h);;
  bytes ← shared_op (read_data buf n);
  on_hash (λ h,
    let p := pending h in
    with_pending (Buffer (write_at (b_len p) bytes (b_data p)) (b_len p + n) (b_zero p)) h);;
  mret n.

Definition add_pending_zeros (len : Z) : MW Z :=
  n ← pending_take len;
  on_hash (λ h,
    let p := pending h in
    if b_len p =? 0 then with_pending (Buffer (b_data p) (b_len p) true) h
    else if negb (b_zero p) then
      with_pending (Buffer (write_at (b_len p) (zeros n) (b_data p)) (b_len p) (b_zero p)) h
    else h);;
  on_hash (λ h,
    let p := pending h in with_pending (Buffer (b_data p) (b_len p + n) (b_zero p)) h);;
  mret n.

(** ** Consuming blocks *)

Definition consume_zero_blocks (count : Z) : MW Z :=
  on_hash (λ h, with_block_index (s64 (block_index h + count)) h);;
  h ← gets hs;
  if ZERO_BATCH_SIZE <=? block_index h - submitted_index h then submit_zero_block
  else mret 0.

Definition is_zero_block (buf : data_ptr) (len : Z) : MW bool :=
  c ← config_of;
  if len =? block_size c then
    data ← shared_op (read_data buf len); is_zero data len
  else mret false.

Definition consume_data_block (buf : data_ptr) (len : Z) (completion : option nat)
    (flags : Z) : MW Z :=
  zero ← (if Z.testbit flags 0 then is_zero_block buf len else mret false);
  if zero : bool then consume_zero_blocks 1
  else submit_data_block buf len completion flags.

Definition consume_pending (completion : option nat) : MW Z :=
  c ← config_of; h ← gets hs;
  let p := pending h in
  assertM (b_len p <=? block_size c);;
  rc ←
    (if (b_len p =? block_size c) && b_zero p then consume_zero_blocks 1
     else
       (if b_zero p then
          on_hash (with_pending (Buffer (write_at 0 (zeros (b_len p)) (b_data p)) (b_len p) (b_zero p)))
        else mret tt);;
       h ← gets hs;
       consume_data_block (DCopy (b_data (pending h))) (b_len p) completion SUBMIT_COPY_DATA);
  if fails rc then mret (-1)
  else
    on_hash (λ h, with_pending (Buffer (b_data (pending h)) 0 false) h);;
    mret 0.

(** ** Updates *)

(** [buf + n] *)
Definition advance (p : data_ptr) (n : Z) : data_ptr :=
  match p with
  | DNull => DNull
  | DUser b off => DUser b (off + n)
  | DCopy bytes => DCopy (zdrop n bytes)
  end.

(** Consume all full blocks of the caller's buffer: the status, and the rest. *)
Fixpoint update_blocks (fuel : nat) (buf : data_ptr) (len : Z) (completion : option nat)
    (flags : Z) : MW (Z * data_ptr * Z) :=
  c ← config_of;
  if block_size c <=? len then
    match fuel with
    | O => crashM CNoFuel
    | S fuel' =>
        rc ← consume_data_block buf (block_size c) completion flags;
        if fails rc then mret (rc, buf, len)
        else update_blocks fuel' (advance buf (block_size c)) (u64 (len - block_size c))
               completion flags
    end
  else mret (0, buf, len).

Definition do_update (buf : data_ptr) (len : Z) (completion : option nat) (flags : Z) : MW Z :=
  c ← config_of; h ← gets hs;
  '(rc, buf, len) ←
    (if 0 <? b_len (pending h) then
       n ← add_pending_data buf len;
       h ← gets hs;
       rc ← (if b_len (pending h) =? block_size c then consume_pending completion else mret 0);
       mret (rc, advance buf n, u64 (len - n))
     else mret (0, buf, len));
  if fails rc then get_error
  else
    '(rc, buf, len) ← update_blocks (Z.to_nat len) buf len completion flags;
    if fails rc then get_error
    else if 0 <? len then add_pending_data buf len;; mret 0
    else mret 0.

(** ** The public API *)

Definition blkhash_update (buf : data_ptr) (len : Z) : MW Z :=
  shared_op yield;;
  e ← get_error;
  if fails e then mret e
  else
    on_hash (λ h, with_message_length (u64 (message_length h + len)) h);;
    do_update buf len None SUBMIT_COPY_DATA.

Definition blkhash_aio_update (buf : data_ptr) (len ud : Z) : MW Z :=
  shared_op yield;;
  e ← get_error;
  if fails e then mret e
  else
    c ← config_of; h ← gets hs;
    if queue_depth c <=? inflight h then mret EAGAIN
    else
      on_hash (λ h, with_inflight (u32 (inflight h + 1)) h);;
      '(err, out) ← shared_op (completion_new ud);
      match out with
      | None => fail_with err;; get_error
      | Some completion =>
          on_hash (λ h, with_message_length (u64 (message_length h + len)) h);;
          rc ← do_update buf len (Some completion) 0;
          (if fails rc then
             e ← get_error; shared_op (yield;; completion_set_error completion e)
           else mret tt);;
          shared_op (yield;; completion_unref update_completed completion);;
          mret 0
      end.

Definition blkhash_aio_completion_fd : MW Z :=
  s ← gets sh;
  match cq_event (cq s) with
  | None => mret (- ENOTSUP)
  | Some _ => mret 0 (* the descriptor *)
  end.

(** The critical section of [blkhash_aio_completions]: the completions copied
    to [out], and whether some are left. *)
Definition cq_take (count : Z) : MS (list blkhash_completion * bool) :=
  s ← get;
  let q := cq s in
  let count := MIN count (cq_count q) in
  if 0 <? count then
    let out := ztake count (cq_array q) in
    let left := cq_count q - count in
    let array :=
      if 0 <? left then ztake left (zdrop count (cq_array q)) ++ zdrop left (cq_array q)
      else cq_array q in
    modify (with_cq (with_cq_count left (with_cq_array array q)));;
    mret (out, 0 <? left)
  else mret ([], false).

Definition blkhash_aio_completions (count : Z) : MW (Z * list blkhash_completion) :=
  shared_op yield;;
  e ← get_error;
  if fails e then mret (- e, [])
  else
    '(out, have_more) ← shared_op (yield;; cq_take count);
    let n := zlen out in
    (if 0 <? n then
       h ← gets hs;
       assertM (n <=? inflight h);;
       on_hash (λ h, with_inflight (inflight h - n) h)
     else mret tt);;
    if have_more : bool then
      err ← shared_op (yield;; event_signal);
      if fails err then fail_with (- err);; mret (err, out)
      else mret (n, out)
    else mret (n, out).

Definition blkhash_zero (len : Z) : MW Z :=
  shared_op yield;;
  e ← get_error;
  if fails e then mret e
  else
    on_hash (λ h, with_message_length (u64 (message_length h + len)) h);;
    c ← config_of; h ← gets hs;
    '(rc, len) ←
      (if 0 <? b_len (pending h) then
         n ← add_pending_zeros len;
         h ← gets hs;
         rc ← (if b_len (pending h) =? block_size c then consume_pending None else mret 0);
         mret (rc, u64 (len - n))
       else mret (0, len));
    if fails rc then get_error
    else
      '(rc, len) ←
        (if block_size c <=? len then
           if block_size c =? 0 then crashM CDivZero
           else
             rc ← consume_zero_blocks (len / block_size c);
             mret (rc, len mod block_size c)
         else mret (0, len));
      if fails rc then get_error
      else if 0 <? len then add_pending_zeros len;; mret 0
      else mret 0.

(** The status and the digest written to [md_value]. *)
Definition blkhash_final : MW (Z * list byte) :=
  shared_op yield;;
  h ← gets hs;
  if finalized h then mret (EINVAL, [])
  else
    on_hash (with_finalized true);;
    rc ← (if 0 <? b_len (pending h) then consume_pending None else submit_zero_block);
    if fails rc then e ← get_error; mret (e, [])
    else
      rc ← hash_inflight_submissions;
      if fails rc then e ← get_error; mret (e, [])
      else
        rc ← hash_message_length;
        if fails rc then e ← get_error; mret (e, [])
        else
          o ← shared_op next_fault;
          h ← gets hs;
          d ← derefM (outer_digest h);
          let '(rc, d', md) := d_final o d in
          on_hash (with_outer_digest (Some d'));;
          if fails rc then mret (- rc, [])
          else md ← shared_op (store_md md); mret (0, md).

Definition blkhash_free : MW unit :=
  on_hash (with_outer_digest None);;
  on_hash (λ h, with_pending (Buffer [] (b_len (pending h)) (b_zero (pending h))) h);;
  shared_op yield;;
  c ← config_of;
  (if fails (queue_depth c) then
     shared_op event_close;;
     shared_op (on_cq (with_cq_array []))
   else mret tt);;
  h ← gets hs;
  q ← shared_op (submission_queue_destroy (sq h));
  on_hash (with_sq q);;
  shared_op hash_pool_destroy;;
  mret tt.

(** The steps of [blkhash_new_opts] after the [calloc], up to the first
    error. *)
Definition blkhash_init (opts : blkhash_opts) : MW Z :=
  err ← shared_op (config_init opts);
  if fails err then mret err
  else
  err ← shared_op hash_pool_init;
  if fails err then mret err
  else
  c ← config_of;
  err ← shared_op next_fault; (* malloc of the ring *)
  if fails err then mret err
  else
  on_hash (with_sq (submission_queue_init (max_submissions c)));;
  err ←
    (if 0 <? queue_depth c then
       err ← shared_op next_fault; (* pthread_mutex_init *)
       if fails err then mret err
       else
         err ← shared_op next_fault; (* calloc of cq.array *)
         if fails err then mret err
         else
           shared_op (on_cq (with_cq_array
             (replicate (Z.to_nat (queue_depth c)) (BlkCompletion 0 0))));;
           err ← shared_op event_open;
           mret (- err)
     else mret 0);
  if fails err then mret err
  else
  err ← shared_op next_fault; (* calloc of pending.data *)
  if fails err then mret err
  else
  on_hash (with_pending (Buffer (zeros (block_size c)) 0 false));;
  o1 ← shared_op next_fault; o2 ← shared_op next_fault;
  let '(rc, od) := d_create o1 o2 (digest_name c) in
  if fails rc then mret (- rc)
  else
  d ← derefM od;
  o ← shared_op next_fault;
  let '(rc, d') := d_init o d in
  on_hash (with_outer_digest (Some d'));;
  mret (- rc).

(** The status: 0 if a hash was returned, errno if NULL was. *)
Definition blkhash_new_opts (opts : blkhash_opts) : MW Z :=
  err ← shared_op next_fault; (* calloc of the hash *)
  if fails err then mret err
  else
    err ← blkhash_init opts;
    if fails err then blkhash_free;; mret err
    else mret 0.

Definition blkhash_new : MW Z := blkhash_new_opts default_opts.

(** The zeroed structure that [calloc] returns, beside the user's memory. *)
Definition fresh_world (m : gmap nat (list byte)) : world D :=
  World
    (Shared (Config [] ""%string 0 0 0 0 0) ∅ 0 ∅ 0
       (HashPool (Ring [] 0 0 0 0) CNull CNull 0 0 0 false) []
       (CQueue [] None 0) 0 m 0 0 0)
    (Hash (Ring [] 0 0 0 0) (Buffer [] 0 false) None 0 0 0 0 0 false).
End blkhash.
