(* ===== verification/PoolInv.v ===== *)
(** * Invariants of the shared state

    What holds of the objects shared by the caller and the worker threads at
    every point where threads can interleave.  The invariant is split by
    subject: the work queue and the threads ([threads_inv]), the contents of
    submissions ([subs_inv]), reference counts of completions ([comps_inv]), the
    completion queue ([cq_inv]), and the absence of errors when the environment
    injects none ([calm_inv]). *)

From stdpp Require Import prelude list strings gmap.
From Stdlib Require Import ZArith Lia.
From S2P Require Import Prelude Ring State Digest Zero Event Completion Submission Config HashPool.

Local Open Scope Z_scope.

(** What a submission of the caller stands for: block [i] of the message with
    contents [b], or "all blocks up to [i] that were not submitted are zero". *)
Inductive ablk :=
| AData (i : Z) (b : list byte)
| AZero (i : Z).

Section pool_inv.
Context {D : Type} `{DO : !DigestOps D, DL : !DigestLaws D, EV : !Env}.
Implicit Types (s : shared D) (w : wstate D) (ts : list (wstate D)) (T : gmap nat ablk).
Implicit Types (sub : submission) (S : gmap nat submission) (C : gmap nat completion).

(** ** The configuration of a running hash *)

Record cfg_ok (c : config) : Prop := {
  co_bs : 16 <= block_size c < 2 ^ 32;
  co_md_len : md_len c = md_size (digest_name c);
  co_zero_md : zero_md c = hash (digest_name c) (zeros (block_size c));
  co_workers : 1 <= workers c <= 128;
  co_max : 32 <= max_submissions c < 2 ^ 31;
  co_depth : 0 <= queue_depth c < 2 ^ 32;
}.

(** The environment injects no failure and the algorithm is available. *)
Definition calm (name : string) : Prop := (∀ n, fault n = 0) ∧ DigestTotal D name.

(** ** Threads and the work queue *)

(** The submission a worker holds. *)
Definition held w : option nat :=
  match w with
  | WWork _ id | WComplete _ id | WNotify _ id | WStore _ id => Some id
  | _ => None
  end.

Definition holds ts (k id : nat) : Prop := ts !! k ≫= held = Some id.

(** Counted in [workers_idle]. *)
Definition is_idle w : bool :=
  match w with WCondWait _ | WWake _ => true | _ => false end.

(** Makes progress when scheduled. *)
Definition awake w : bool :=
  match w with WCondWait _ | WExit => false | _ => true end.

Definition idle_count ts : nat := length (filter (λ w, is_idle w = true) ts).

(** [q] is the contents of the work queue; [x] lists submissions that exist but
    were not pushed yet. *)
Record threads_inv (c : config) (p : hash_pool) ts (q x : list nat) : Prop := {
  ti_ring : ring_repr (p_queue p) (Sub <$> q);
  ti_size : r_size (p_queue p) = max_submissions c;
  ti_qmem : p_queue_mem p = CLive;
  ti_wmem : p_workers_mem p = CLive;
  ti_running : stopped p = false;
  ti_nodup : NoDup (q ++ x);
  ti_apart : ∀ id k, id ∈ q ++ x → ¬ holds ts k id;
  ti_inj : ∀ id k1 k2, holds ts k1 id → holds ts k2 id → k1 = k2;
  ti_idle : workers_idle p = Z.of_nat (idle_count ts);
  ti_count : workers_count p = zlen ts;
  ti_few : zlen ts = workers c;
  ti_noexit : p_error p = 0 → ∀ k, ts !! k ≠ Some WExit;
  ti_awake : p_error p = 0 → q ≠ [] → ∃ k w, ts !! k = Some w ∧ awake w = true;
}.

(** ** Submissions *)

(** Not processed yet: the data is readable and holds the block. *)
Record sub_fresh (m : gmap nat (list byte)) sub (i : Z) (b : list byte) : Prop := {
  sf_index : sub_index sub = i;
  sf_len : sub_len sub = zlen b;
  sf_error : sub_error sub = 0;
  sf_zero : sub_zero sub = false;
  sf_completed : sub_completed sub = false;
  sf_data : data_at m (sub_data sub) (sub_len sub) = Some b;
  sf_user : ∀ buf off, sub_data sub = DUser buf off → is_Some (sub_completion sub);
}.

(** Processed: failed, or holds the digest of its block, or found to be a zero
    block. *)
Record sub_done (c : config) sub (i : Z) (b : list byte) : Prop := {
  sd_index : sub_index sub = i;
  sd_result : sub_error sub = 0 →
    if sub_zero sub then b = zeros (block_size c)
    else sub_md sub = hash (digest_name c) b;
}.

Definition worker_ok (c : config) (m : gmap nat (list byte)) S T w : Prop :=
  match w with
  | WStart | WExit => True
  | WLock d | WCondWait d | WWake d => made_by d (digest_name c)
  | WWork d id => made_by d (digest_name c) ∧
      ∃ i b sub, T !! id = Some (AData i b) ∧ S !! id = Some sub ∧ sub_fresh m sub i b
  | WComplete d id => made_by d (digest_name c) ∧
      ∃ i b sub, T !! id = Some (AData i b) ∧ S !! id = Some sub ∧
        sub_done c sub i b ∧ sub_completed sub = false
  | WNotify d id | WStore d id => made_by d (digest_name c) ∧
      (if w is WNotify _ _ then 0 < queue_depth c else True) ∧
      ∃ i b sub, T !! id = Some (AData i b) ∧ S !! id = Some sub ∧
        sub_done c sub i b ∧ sub_completed sub = false ∧ sub_completion sub = None
  end.

(** A submission and what it stands for. *)
Definition sub_is (c : config) sub (a : ablk) : Prop :=
  match a with
  | AZero i => sub_index sub = i ∧ sub_zero sub = true ∧ sub_completed sub = true ∧ sub_error sub = 0
  | AData i b => sub_index sub = i ∧ (sub_completed sub = true → sub_done c sub i b)
  end.

Record subs_inv (c : config) (m : gmap nat (list byte)) S ts T (q : list nat) : Prop := {
  su_queued : ∀ id, id ∈ q →
    ∃ i b sub, T !! id = Some (AData i b) ∧ S !! id = Some sub ∧ sub_fresh m sub i b;
  su_worker : ∀ k w, ts !! k = Some w → worker_ok c m S T w;
  su_tracked : ∀ id a, T !! id = Some a → ∃ sub, S !! id = Some sub ∧ sub_is c sub a ∧
    (sub_completed sub = false → id ∈ q ∨ ∃ k, holds ts k id);
}.

(** ** Completions *)

Definition uses (c : nat) (p : nat * submission) : Prop := sub_completion p.2 = Some c.

#[global] Instance uses_dec c p : Decision (uses c p).
Proof. unfold uses. apply _. Defined.

(** The references the submissions and the caller hold. *)
Definition refs_to (c : nat) S (hold : option nat) : nat :=
  (size (filter (uses c) S) + if decide (hold = Some c) then 1 else 0)%nat.

Record comps_inv S C (nsub ncomp : nat) T (hold : option nat) : Prop := {
  ci_user : ∀ id sub c, S !! id = Some sub → sub_completion sub = Some c →
    is_Some (T !! id) ∧ sub_completed sub = false ∧ is_Some (C !! c);
  ci_refs : ∀ c comp, C !! c = Some comp →
    c_refs comp = Z.of_nat (refs_to c S hold) ∧ 0 < c_refs comp < 2 ^ 32;
  ci_hold : ∀ c, hold = Some c → is_Some (C !! c);
  ci_next_sub : ∀ id, (nsub ≤ id)%nat → S !! id = None;
  ci_next_comp : ∀ c, (ncomp ≤ c)%nat → C !! c = None;
  ci_tracked : ∀ id, is_Some (T !! id) → is_Some (S !! id);
}.

(** ** The completion queue *)

Record cq_inv (c : config) (q : completion_queue) C (infl : Z) : Prop := {
  cq_nonneg : 0 <= cq_count q;
  cq_bound : cq_count q + Z.of_nat (size C) <= infl;
  cq_infl : infl <= queue_depth c;
  cq_alloc : zlen (cq_array q) = queue_depth c;
  cq_open : 0 < queue_depth c → is_Some (cq_event q);
}.

Record calm_inv s : Prop := {
  cm_pool : p_error (pool s) = 0;
  cm_hash : h_error s = 0;
  cm_subs : ∀ id sub, subs s !! id = Some sub → sub_error sub = 0;
  cm_comps : ∀ id c, comps s !! id = Some c → c_error c = 0;
  cm_cq : Forall (λ e, bc_error e = 0) (cq_array (cq s));
}.

(** ** The invariant *)

Record shared_inv (q x : list nat) T (hold : option nat) (infl : Z) s : Prop := {
  si_cfg : cfg_ok (cfg s);
  si_threads : threads_inv (cfg s) (pool s) (threads s) q x;
  si_subs : subs_inv (cfg s) (mem s) (subs s) (threads s) T (q ++ x);
  si_comps : comps_inv (subs s) (comps s) (next_sub s) (next_comp s) T hold;
  si_cq : cq_inv (cfg s) (cq s) (comps s) infl;
  si_calm : calm (digest_name (cfg s)) → calm_inv s;
}.

(** Submissions only ever lose their completion. *)
Definition compl_le S S' : Prop := ∀ id sub', S' !! id = Some sub' →
  ∃ sub, S !! id = Some sub ∧
    (sub_completion sub' = None ∨ sub_completion sub' = sub_completion sub).

#[global] Instance compl_le_refl : Reflexive compl_le.
Proof. intros S id sub Hs. eauto. Qed.

#[global] Instance compl_le_trans : Transitive compl_le.
Proof.
  intros S1 S2 S3 H12 H23 id s3 Hs3. destruct (H23 id s3 Hs3) as (s2 & Hs2 & Hc2).
  destruct (H12 id s2 Hs2) as (s1 & Hs1 & Hc1). exists s1. split; [done|].
  destruct Hc2 as [?|E]; [by left|]. rewrite E. done.
Qed.

Lemma compl_le_insert S id sub sub' :
  S !! id = Some sub →
  (sub_completion sub' = None ∨ sub_completion sub' = sub_completion sub) →
  compl_le S (<[id := sub']> S).
Proof.
  intros Hs Hc j x Hj. destruct (decide (j = id)) as [->|]; simplify_map_eq; eauto.
Qed.

(** What worker steps leave alone. *)
Record frame s s' : Prop := {
  fr_cfg : cfg s' = cfg s;
  fr_mem : mem s' = mem s;
  fr_error : h_error s ≠ 0 → h_error s' = h_error s;
  fr_next_sub : next_sub s' = next_sub s;
  fr_next_comp : next_comp s' = next_comp s;
  fr_compl : compl_le (subs s) (subs s');
}.

#[global] Instance frame_refl : Reflexive frame.
Proof. by split. Qed.

#[global] Instance frame_trans : Transitive frame.
Proof.
  intros s1 s2 s3 [H1 H2 H3 H4 H5 H6] [G1 G2 G3 G4 G5 G6]. split; try congruence.
  - intros He. rewrite G3; [auto|]. rewrite H3; auto.
  - by etrans.
Qed.

(** ** Threads: counting and holding *)

Lemma idle_count_insert ts k w w' :
  ts !! k = Some w →
  Z.of_nat (idle_count (<[k := w']> ts)) =
    Z.of_nat (idle_count ts) - (if is_idle w then 1 else 0) + (if is_idle w' then 1 else 0).
Proof.
  intros Hk. rewrite insert_take_drop by eauto using lookup_lt_Some.
  unfold idle_count. rewrite <-(take_drop_middle ts k w Hk) at 3.
  rewrite !filter_app, !filter_cons, !length_app.
  destruct (is_idle w), (is_idle w'); repeat case_decide; simpl; try done; lia.
Qed.

Lemma idle_count_pos ts k w : ts !! k = Some w → is_idle w = true → (0 < idle_count ts)%nat.
Proof.
  intros Hk Hw. unfold idle_count. rewrite <-(take_drop_middle ts k w Hk).
  rewrite filter_app, filter_cons, length_app. case_decide; [simpl; lia|done].
Qed.

Lemma idle_count_le ts : (idle_count ts ≤ length ts)%nat.
Proof. unfold idle_count. apply length_filter. Qed.

Lemma holds_insert ts k w j id :
  holds (<[k := w]> ts) j id → (j = k ∧ held w = Some id) ∨ (j ≠ k ∧ holds ts j id).
Proof.
  unfold holds. intros H. destruct (decide (j = k)) as [->|Hne].
  - left. split; [done|]. destruct (decide (k < length ts)%nat).
    + by rewrite list_lookup_insert_eq in H.
    + rewrite list_insert_ge in H by lia. by rewrite lookup_ge_None_2 in H by lia.
  - right. rewrite list_lookup_insert_ne in H by done. auto.
Qed.

Lemma holds_lookup ts k w id : ts !! k = Some w → held w = Some id → holds ts k id.
Proof. unfold holds. by intros ->. Qed.

Lemma holds_insert_eq ts k w0 w id :
  ts !! k = Some w0 → held w = Some id → holds (<[k := w]> ts) k id.
Proof.
  intros Hk Hw. unfold holds. rewrite list_lookup_insert_eq by eauto using lookup_lt_Some. done.
Qed.

Lemma holds_insert_ne ts k w j id : j ≠ k → holds ts j id → holds (<[k := w]> ts) j id.
Proof. intros Hne. unfold holds. by rewrite list_lookup_insert_ne. Qed.

Lemma lookup_insert_inv ts k w j w' :
  <[k := w]> ts !! j = Some w' → (j = k ∧ w' = w) ∨ (j ≠ k ∧ ts !! j = Some w').
Proof.
  intros H. apply list_lookup_insert_Some in H as [(->&->&?)|[? ?]]; auto.
Qed.

Lemma queue_apart c p ts q x :
  threads_inv c p ts q x → ∀ id k, id ∈ q → ¬ holds ts k id.
Proof. intros HT id k Hin. eapply ti_apart; [done|]. apply elem_of_app. by left. Qed.

(** A running worker moves on without touching the queue. *)
Lemma threads_inv_move c p ts q x k w w' :
  threads_inv c p ts q x → ts !! k = Some w →
  (held w' = held w ∨ held w' = None) →
  is_idle w' = is_idle w → (awake w' = true) →
  threads_inv c p (<[k := w']> ts) q x.
Proof.
  intros [] Hk Hh Hi Ha. split; try done.
  - intros id j Hin [[-> Hw]|[? ?]]%holds_insert; [|by eapply ti_apart0].
    destruct Hh as [E|E]; rewrite E in Hw; [|done].
    eapply ti_apart0; [done|]. by eapply holds_lookup.
  - assert (∀ id j, holds (<[k:=w']> ts) j id → holds ts j id) as Hold.
    { intros id j [[-> Hw]|[? ?]]%holds_insert; [|done].
      destruct Hh as [E|E]; rewrite E in Hw; [|done]. by eapply holds_lookup. }
    eauto.
  - rewrite (idle_count_insert _ _ w) by done. rewrite Hi, ti_idle0. destruct (is_idle w); lia.
  - unfold zlen in *. by rewrite length_insert.
  - unfold zlen in *. by rewrite length_insert.
  - intros Hp j [[-> <-]|[? ?]]%lookup_insert_inv; [done|]. by eapply ti_noexit0.
  - intros Hp Hq. exists k, w'. split; [|done]. eapply list_lookup_insert_eq.
    by eapply lookup_lt_Some.
Qed.

(** A worker that cannot create its digest reports the error and exits. *)
Lemma threads_inv_exit c p ts q x k w e :
  threads_inv c p ts q x → ts !! k = Some w → held w = None → is_idle w = false → e ≠ 0 →
  threads_inv c (if p_error p =? 0 then with_p_error e p else p) (<[k := WExit]> ts) q x.
Proof.
  intros [] Hk Hh Hi He.
  assert (p_error (if p_error p =? 0 then with_p_error e p else p) ≠ 0) as Hne.
  { destruct (p_error p =? 0) eqn:E; simpl; lia. }
  assert (∀ id j, holds (<[k:=WExit]> ts) j id → holds ts j id) as Hold.
  { intros id j [[-> Hw]|[? ?]]%holds_insert; done. }
  split; try (destruct (p_error p =? 0); done).
  - naive_solver.
  - eauto.
  - rewrite (idle_count_insert _ _ w) by done. rewrite Hi. simpl.
    destruct (p_error p =? 0); simpl; lia.
  - unfold zlen in *. rewrite length_insert. by destruct (p_error p =? 0).
  - unfold zlen in *. rewrite length_insert. done.
Qed.

(** A worker that finds the queue empty blocks. *)
Lemma threads_inv_block c p ts x k d :
  threads_inv c p (<[k := WLock d]> ts) [] x → (k < length ts)%nat →
  zlen ts <= 128 →
  threads_inv c (with_workers_idle (u32 (workers_idle p + 1)) p) (<[k := WCondWait d]> ts) [] x.
Proof.
  intros [] Hk Hfew.
  assert (<[k := WLock d]> ts !! k = Some (WLock d)) as Hl by (by apply list_lookup_insert_eq).
  rewrite <-(list_insert_insert_eq ts k (WCondWait d) (WLock d)).
  assert (∀ id j, holds (<[k:=WCondWait d]> (<[k:=WLock d]> ts)) j id →
    holds (<[k:=WLock d]> ts) j id) as Hold.
  { intros id j [[-> Hw]|[? ?]]%holds_insert; done. }
  split; simpl; try done.
  - naive_solver.
  - eauto.
  - rewrite idle_count_insert with (w := WLock d) by done. simpl.
    rewrite ti_idle0. unfold u32. rewrite Z.mod_small; [lia|].
    pose proof (idle_count_le (<[k:=WLock d]> ts)). rewrite length_insert in *.
    unfold zlen in *. lia.
  - unfold zlen in *. by rewrite !length_insert in *.
  - unfold zlen in *. by rewrite !length_insert in *.
  - intros Hp j [[-> ?]|[? ?]]%lookup_insert_inv; [done|]. by eapply ti_noexit0.
Qed.

(** A worker pops a submission. *)
Lemma threads_inv_pop c p ts q x k d id :
  threads_inv c p (<[k := WLock d]> ts) (id :: q) x → (k < length ts)%nat →
  threads_inv c (with_p_queue (ring_drop (p_queue p)) p) (<[k := WWork d id]> ts) q x.
Proof.
  intros [] Hk. simpl in *. apply NoDup_cons in ti_nodup0 as [Hni Hnd].
  assert (<[k := WLock d]> ts !! k = Some (WLock d)) as Hl by (by apply list_lookup_insert_eq).
  rewrite <-(list_insert_insert_eq ts k (WWork d id) (WLock d)).
  split; simpl; try done.
  - by eapply ring_drop_repr.
  - intros i j Hin [[-> Hw]|[? ?]]%holds_insert.
    + simpl in Hw. by simplify_eq.
    + eapply ti_apart0; [by right|done].
  - intros i j1 j2 [[-> Hw]|[? ?]]%holds_insert [[-> Hw']|[? ?]]%holds_insert; try done.
    + simpl in Hw. simplify_eq. exfalso. eapply ti_apart0; [by left|done].
    + simpl in Hw'. simplify_eq. exfalso. eapply ti_apart0; [by left|done].
    + eauto.
  - rewrite idle_count_insert with (w := WLock d) by done. simpl. lia.
  - unfold zlen in *. by rewrite !length_insert in *.
  - unfold zlen in *. by rewrite !length_insert in *.
  - intros Hp j [[-> ?]|[? ?]]%lookup_insert_inv; [done|]. by eapply ti_noexit0.
  - intros _ _. exists k, (WWork d id). split; [|done]. apply list_lookup_insert_eq.
    by rewrite length_insert.
Qed.

(** A woken worker takes the mutex. *)
Lemma threads_inv_wake c p ts q x k d :
  threads_inv c p ts q x → ts !! k = Some (WWake d) → zlen ts <= 128 →
  threads_inv c (with_workers_idle (u32 (workers_idle p - 1)) p) (<[k := WLock d]> ts) q x.
Proof.
  intros [] Hk Hfew.
  assert (∀ id j, holds (<[k:=WLock d]> ts) j id → holds ts j id) as Hold.
  { intros id j [[-> Hw]|[? ?]]%holds_insert; done. }
  split; simpl; try done.
  - naive_solver.
  - eauto.
  - rewrite (idle_count_insert _ _ (WWake d)) by done. simpl. rewrite ti_idle0.
    pose proof (idle_count_pos ts k _ Hk eq_refl).
    pose proof (idle_count_le ts). unfold u32, zlen in *. rewrite Z.mod_small; lia.
  - unfold zlen in *. by rewrite length_insert.
  - unfold zlen in *. by rewrite length_insert.
  - intros Hp j [[-> ?]|[? ?]]%lookup_insert_inv; [done|]. by eapply ti_noexit0.
  - intros _ _. exists k, (WLock d). split; [|done]. apply list_lookup_insert_eq.
    by eapply lookup_lt_Some.
Qed.

(** A signal or a spurious wake up moves a waiter towards the mutex. *)
Lemma threads_inv_notify c p ts q x k d :
  threads_inv c p ts q x → ts !! k = Some (WCondWait d) →
  threads_inv c p (<[k := WWake d]> ts) q x.
Proof. intros. eapply threads_inv_move; eauto. Qed.

(** ** Submissions under thread steps *)

Lemma worker_ok_ext c m S S' T T' w :
  worker_ok c m S T w →
  (∀ id, held w = Some id → S' !! id = S !! id ∧ T' !! id = T !! id) →
  worker_ok c m S' T' w.
Proof.
  destruct w; simpl; try done; intros H Heq; destruct (Heq id eq_refl) as [-> ->]; done.
Qed.

(** A worker only holds tracked submissions that are not completed. *)
Lemma worker_holds c m S T w id :
  worker_ok c m S T w → held w = Some id →
  is_Some (T !! id) ∧ ∃ sub, S !! id = Some sub ∧ sub_completed sub = false.
Proof.
  destruct w; simpl; intros Hok Hh; simplify_eq.
  - destruct Hok as (_ & i & b & sub & ? & ? & Hf). split; [eauto|]. exists sub.
    split; [done|]. apply Hf.
  - destruct Hok as (_ & i & b & sub & ? & ? & ? & ?). eauto.
  - destruct Hok as (_ & _ & i & b & sub & ? & ? & ? & ? & ?). eauto.
  - destruct Hok as (_ & _ & i & b & sub & ? & ? & ? & ? & ?). eauto.
Qed.

Lemma live_submission c m S ts T q id :
  subs_inv c m S ts T q → (id ∈ q ∨ ∃ k, holds ts k id) →
  is_Some (T !! id) ∧ ∃ sub, S !! id = Some sub ∧ sub_completed sub = false.
Proof.
  intros [] [Hin|[k Hk]].
  - destruct (su_queued0 id Hin) as (i & b & sub & ? & ? & Hf). split; [eauto|].
    exists sub. split; [done|]. apply Hf.
  - unfold holds in Hk. destruct (ts !! k) as [w|] eqn:Hw; [|done].
    eapply worker_holds; [by eapply su_worker0|done].
Qed.

(** A thread moves on; the submissions do not change. *)
Lemma subs_inv_thread c m S ts T q k w w' :
  subs_inv c m S ts T q → ts !! k = Some w → worker_ok c m S T w' → held w' = held w →
  subs_inv c m S (<[k := w']> ts) T q.
Proof.
  intros [] Hk Hw Hh. split; [done| |].
  - intros j v [[-> ->]|[? ?]]%lookup_insert_inv; eauto.
  - intros id a Ha. destruct (su_tracked0 id a Ha) as (sub & Hs & Hi & Hc).
    exists sub. split_and!; [done..|]. intros Hn. destruct (Hc Hn) as [?|[j Hj]]; [by left|right].
    destruct (decide (j = k)) as [->|].
    + exists k. eapply holds_insert_eq; [done|]. unfold holds in Hj. rewrite Hk in Hj. simpl in Hj.
      congruence.
    + exists j. by apply holds_insert_ne.
Qed.

(** A worker pops the head of the queue. *)
Lemma subs_inv_pop c m S ts T q k w d id :
  subs_inv c m S ts T (id :: q) → ts !! k = Some w → held w = None → made_by d (digest_name c) →
  subs_inv c m S (<[k := WWork d id]> ts) T q.
Proof.
  intros [] Hk Hh Hd. split.
  - intros i Hi. apply su_queued0. by right.
  - intros j v [[-> ->]|[? ?]]%lookup_insert_inv; [|eauto]. split; [done|].
    apply su_queued0. by left.
  - intros i a Ha. destruct (su_tracked0 i a Ha) as (sub & Hs & Hi & Hc).
    exists sub. split_and!; [done..|]. intros Hn. destruct (Hc Hn) as [Hin|[j Hj]].
    + apply elem_of_cons in Hin as [->|]; [|by left]. right. exists k. by eapply holds_insert_eq.
    + right. exists j. apply holds_insert_ne; [|done]. intros ->. unfold holds in Hj.
      rewrite Hk in Hj. simpl in Hj. congruence.
Qed.

(** A worker writes to the submission it holds. *)
Lemma subs_inv_update c m p S ts T q x k w w' id sub i b :
  threads_inv c p ts q x → subs_inv c m S ts T (q ++ x) →
  ts !! k = Some w → held w = Some id →
  T !! id = Some (AData i b) → sub_is c sub (AData i b) →
  (sub_completed sub = false → held w' = Some id) →
  worker_ok c m (<[id := sub]> S) T w' →
  subs_inv c m (<[id := sub]> S) (<[k := w']> ts) T (q ++ x).
Proof.
  intros HT [] Hk Hw Ha Hi Hc Hw'.
  assert (holds ts k id) as Hold by (by eapply holds_lookup).
  split.
  - intros j Hj. rewrite lookup_insert_ne; [eauto|]. intros <-. by eapply ti_apart.
  - intros j v [[-> ->]|[? Hv]]%lookup_insert_inv; [done|].
    eapply worker_ok_ext; [eauto|]. intros id' Hid'. split; [|done]. apply lookup_insert_ne. intros <-.
    assert (j = k); [|done]. eapply ti_inj; [done|by eapply holds_lookup|done].
  - intros j a Hj. destruct (decide (j = id)) as [->|Hne].
    + exists sub. rewrite lookup_insert_eq. simplify_eq. split_and!; [done..|].
      intros Hn. right. exists k. eapply holds_insert_eq; [done|auto].
    + destruct (su_tracked0 j a Hj) as (sub' & Hs & Hi' & Hc').
      exists sub'. rewrite lookup_insert_ne by done. split_and!; [done..|].
      intros Hn. destruct (Hc' Hn) as [?|[n Hjn]]; [by left|right]. exists n.
      apply holds_insert_ne; [|done]. intros ->. unfold holds in *. rewrite Hold in Hjn. congruence.
Qed.

(** ** References under changes of one submission *)

Lemma refs_to_insert_same c S hold id sub sub' :
  S !! id = Some sub → sub_completion sub' = sub_completion sub →
  refs_to c (<[id := sub']> S) hold = refs_to c S hold.
Proof.
  intros Hs Hc. unfold refs_to. f_equal.
  destruct (decide (uses c (id, sub))) as [Hu|Hu].
  - rewrite map_filter_insert_True by (unfold uses in *; simpl in *; congruence).
    rewrite map_size_insert_Some; [done|]. exists sub. by apply map_lookup_filter_Some.
  - rewrite map_filter_insert_False by (unfold uses in *; simpl in *; congruence).
    rewrite map_filter_delete. apply map_size_delete_None.
    apply map_lookup_filter_None. right. intros x ?. by simplify_eq.
Qed.

Lemma refs_to_release c S hold id sub sub' :
  S !! id = Some sub → sub_completion sub = Some c → sub_completion sub' = None →
  refs_to c S hold = Datatypes.S (refs_to c (<[id := sub']> S) hold).
Proof.
  intros Hs Hc Hn. unfold refs_to.
  rewrite map_filter_insert_False by (unfold uses; simpl; congruence).
  rewrite map_filter_delete.
  assert (filter (uses c) S !! id = Some sub) as Hin by (by apply map_lookup_filter_Some).
  rewrite map_size_delete_Some by eauto.
  destruct (size (filter (uses c) S)) eqn:E; simpl; [|lia].
  apply map_size_empty_inv in E. rewrite E in Hin. done.
Qed.

Lemma refs_to_release_ne c c' S hold id sub sub' :
  S !! id = Some sub → sub_completion sub = Some c → sub_completion sub' = None → c' ≠ c →
  refs_to c' (<[id := sub']> S) hold = refs_to c' S hold.
Proof.
  intros Hs Hc Hn Hne. unfold refs_to. f_equal.
  rewrite map_filter_insert_False by (unfold uses; simpl; congruence).
  rewrite map_filter_delete. apply map_size_delete_None.
  apply map_lookup_filter_None. right. intros x ?. unfold uses. simpl. simplify_eq. congruence.
Qed.
End pool_inv.
