(* ===== verification/PoolStep.v ===== *)
(** * Worker steps preserve the invariants

    [wmove] is the state machine of a worker as a step relation; every step of
    [worker_run] follows it, preserves the invariant of the shared state and
    never fails an assertion or touches a freed object. *)

From stdpp Require Import prelude list strings gmap.
From Stdlib Require Import ZArith Lia.
From S2P Require Import Prelude Ring State Digest Zero Event Completion Submission Config HashPool PoolInv.

Local Open Scope Z_scope.

Section pool_step.
Context {D : Type} `{DO : !DigestOps D, DL : !DigestLaws D, EV : !Env}.
Implicit Types (s : shared D) (w : wstate D) (ts : list (wstate D)) (T : gmap nat ablk).
Implicit Types (sub : submission) (S : gmap nat submission) (C : gmap nat completion).

(** ** The state machine of a worker and the queue it serves *)

Inductive wmove : list nat → wstate D → list nat → wstate D → Prop :=
| wm_start q d : wmove q WStart q (WLock d)
| wm_fail q : wmove q WStart q WExit
| wm_block d : wmove [] (WLock d) [] (WCondWait d)
| wm_pop q d id : wmove (id :: q) (WLock d) q (WWork d id)
| wm_wake_block d : wmove [] (WWake d) [] (WCondWait d)
| wm_wake_pop q d id : wmove (id :: q) (WWake d) q (WWork d id)
| wm_wait q d : wmove q (WCondWait d) q (WCondWait d)
| wm_work q d d' id : wmove q (WWork d id) q (WComplete d' id)
| wm_callback q d id : wmove q (WComplete d id) q (WNotify d id)
| wm_unref q d id : wmove q (WComplete d id) q (WStore d id)
| wm_signal q d id : wmove q (WNotify d id) q (WStore d id)
| wm_store q d id : wmove q (WStore d id) q (WLock d)
| wm_exited q : wmove q WExit q WExit.

(** ** Changes that keep a component of the invariant *)

Lemma comps_inv_comp S C nsub ncomp T hold c comp comp' :
  comps_inv S C nsub ncomp T hold → C !! c = Some comp → c_refs comp' = c_refs comp →
  comps_inv S (<[c := comp']> C) nsub ncomp T hold.
Proof.
  intros [] Hc Hr.
  assert (∀ x, is_Some (C !! x) → is_Some (<[c:=comp']> C !! x)) as Hdom.
  { intros x Hx. destruct (decide (x = c)) as [->|]; by simplify_map_eq. }
  split; try done.
  - intros id sub x Hs Hx. destruct (ci_user id sub x Hs Hx) as (?&?&?). auto.
  - intros x y. destruct (decide (x = c)) as [->|]; intros Hx; simplify_map_eq; [|eauto].
    rewrite Hr. eauto.
  - eauto.
  - intros x Hx. rewrite lookup_insert_ne; [auto|]. intros ->. rewrite ci_next_comp in Hc; done.
Qed.

Lemma comps_inv_sub S C nsub ncomp T hold id sub sub' :
  comps_inv S C nsub ncomp T hold → S !! id = Some sub →
  sub_completion sub' = sub_completion sub →
  (sub_completed sub' = sub_completed sub ∨ sub_completion sub' = None) →
  comps_inv (<[id := sub']> S) C nsub ncomp T hold.
Proof.
  intros [] Hs Hc Hd. split; try done.
  - intros j x c Hx Hxc. destruct (decide (j = id)) as [->|]; simplify_map_eq; [|eauto].
    destruct Hd as [Hd|Hd]; [|congruence]. rewrite Hd. rewrite Hc in Hxc. eauto.
  - intros c comp Hx. erewrite refs_to_insert_same; eauto.
  - intros j Hj. rewrite lookup_insert_ne; [eauto|]. intros ->. rewrite ci_next_sub in Hs; done.
  - intros j Hj. destruct (decide (j = id)) as [->|]; simplify_map_eq; eauto.
Qed.

Lemma cq_inv_comp c q C infl x comp comp' :
  cq_inv c q C infl → C !! x = Some comp → cq_inv c q (<[x := comp']> C) infl.
Proof. intros [] Hx. split; try done. rewrite map_size_insert_Some by eauto. done. Qed.

Lemma calm_fault name n : calm (D := D) name → fault n = 0.
Proof. intros [Hf _]. apply Hf. Qed.

(** ** Rules for the operations workers use *)

Section rules.
Context (nf : Prop).

(** An error on a submission, passed on to its completion. *)
Definition comp_error (e : Z) (oc : option nat) C : gmap nat completion :=
  match oc with
  | None => C
  | Some c =>
      match C !! c with
      | None => C
      | Some comp => <[c := if c_error comp =? 0 then with_c_error e comp else comp]> C
      end
  end.

Lemma wp_submission_set_error id e sub (Q : unit → shared D → Prop) s :
  subs s !! id = Some sub →
  (∀ c, sub_completion sub = Some c → is_Some (comps s !! c)) →
  Q tt (with_comps (comp_error e (sub_completion sub) (comps s))
         (with_subs (<[id := with_sub_error e sub]> (subs s)) s)) →
  wp nf (submission_set_error id e) Q s.
Proof.
  intros Hs Hc HQ. unfold submission_set_error. wp_step.
  eapply wp_sub_update; [done|]. wp_step.
  eapply wp_sub_load; [simpl; apply lookup_insert_eq|]. simpl.
  destruct (sub_completion sub) as [c|] eqn:E; simpl in *.
  - destruct (Hc c eq_refl) as [comp Hcomp].
    rewrite Hcomp in HQ. eapply wp_comp_update; [done|]. exact HQ.
  - wp_step. by destruct s.
Qed.

Lemma comps_inv_error e oc S C nsub ncomp T hold :
  comps_inv S C nsub ncomp T hold → comps_inv S (comp_error e oc C) nsub ncomp T hold.
Proof.
  intros HC. destruct oc as [c|]; simpl; [|done].
  destruct (C !! c) as [comp|] eqn:E; [|done].
  eapply comps_inv_comp; [done..|]. by destruct (c_error comp =? 0).
Qed.

Lemma cq_inv_error c q C infl e oc : cq_inv c q C infl → cq_inv c q (comp_error e oc C) infl.
Proof.
  intros HC. destruct oc as [x|]; simpl; [|done].
  destruct (C !! x) eqn:E; [|done]. by eapply cq_inv_comp.
Qed.

(** [event_signal] on an open event. *)
Lemma wp_event_write name fuel v (Q : Z → shared D → Prop) s :
  nf ∨ calm (D := D) name →
  cq_event (cq s) = Some v →
  (∀ e n, (calm (D := D) name → e = 0) → e ≠ 0 → Q e (with_n_fault n s)) →
  (∀ n, Q 0 (with_cq (with_cq_event (Some (v + 1)) (cq s)) (with_n_fault n s))) →
  wp nf (event_write fuel) Q s.
Proof.
  intros Hnf. revert s. induction fuel as [|fuel IH]; intros s Hv He H0.
  all: simpl; wp_step; wp_step; wp_step; eapply wp_derefM; [done|];
    wp_step; apply wp_next_fault; cbn.
  all: destruct (fault (n_fault s) =? 0) eqn:E0; [wp_steps; apply H0|].
  all: destruct (fault (n_fault s) =? EINTR) eqn:E1.
  - destruct Hnf as [?|Hc]; [by apply wp_nofuel|].
    apply (calm_fault _ (n_fault s)) in Hc. lia.
  - wp_step. apply He; [|lia]. intros Hc. by eapply calm_fault.
  - destruct Hnf as [?|Hc]; [|apply (calm_fault _ (n_fault s)) in Hc; lia].
    apply IH; [done|..].
    + intros e n. apply (He e n).
    + intros n. apply (H0 n).
  - wp_step. apply He; [|lia]. intros Hc. by eapply calm_fault.
Qed.

Lemma wp_event_signal name v (Q : Z → shared D → Prop) s :
  nf ∨ calm (D := D) name →
  cq_event (cq s) = Some v →
  (∀ e n v', (calm (D := D) name → e = 0) →
    Q e (with_cq (with_cq_event (Some v') (cq s)) (with_n_fault n s))) →
  wp nf event_signal Q s.
Proof.
  intros Hnf Hv HQ. unfold event_signal. wp_step.
  assert (∀ n, with_n_fault n s = with_cq (with_cq_event (Some v) (cq s)) (with_n_fault n s)) as Hs.
  { intros n. destruct s as [? ? ? ? ? ? ? q ? ? ? ? ?], q. simpl in *. by rewrite Hv. }
  eapply (wp_event_write name); [done..| |].
  - intros e n He Hne. rewrite Hs. unfold fails. destruct (e =? 0) eqn:?; [lia|]. simpl.
    destruct (e =? EAGAIN) eqn:?; simpl; wp_step; apply HQ; [done|].
    intros Hc%He. lia.
  - intros n. simpl. wp_step. by apply HQ.
Qed.

(** ** One lemma per stage *)

Context (new : list nat) (T : gmap nat ablk) (hold : option nat) (infl : Z).

Definition step_post (q : list nat) s (k : nat) w : wstate D → shared D → Prop := λ w' s',
  ∃ q', wmove q w q' w' ∧
    shared_inv q' new T hold infl (with_threads (<[k := w']> (threads s')) s') ∧
    frame s (with_threads (<[k := w']> (threads s')) s') ∧
    threads s' = threads s ∧ n_tick s' = n_tick s.

Lemma few_threads q s : shared_inv q new T hold infl s → zlen (threads s) <= 128.
Proof.
  intros HI. rewrite (ti_few _ _ _ _ _ (si_threads _ _ _ _ _ _ HI)).
  apply (co_workers _ (si_cfg _ _ _ _ _ _ HI)).
Qed.

Lemma step_start q s k :
  shared_inv q new T hold infl s → threads s !! k = Some WStart →
  wp nf (worker_run WStart) (step_post q s k WStart) s.
Proof.
  intros [Hcfg Hth Hsu Hco Hcq Hcm] Hk. simpl. do 6 wp_go. simpl.
  destruct (d_create _ _ _) as [rc od] eqn:Hd. unfold fails.
  destruct (rc =? 0) eqn:E; simpl.
  - apply Z.eqb_eq in E as ->. destruct (d_create_ok _ _ _ _ Hd) as [d ->].
    apply d_create_made in Hd. do 3 wp_go.
    exists q. split_and!; [constructor| |done..]. split; simpl; try done.
    + by eapply threads_inv_move; eauto.
    + by eapply subs_inv_thread.
    + intros [Hp Hh Hs Hc Hce]%Hcm. by split.
  - unfold pool_set_error. do 3 wp_go. exists q. split_and!; [constructor| |done..].
    split; simpl; try done.
    + eapply threads_inv_exit; eauto. lia.
    + by eapply subs_inv_thread.
    + intros Hc. exfalso. pose proof Hc as [Hf Ht]. rewrite !Hf in Hd.
      destruct (d_create_total (DigestTotal := Ht)) as [d Hd']. rewrite Hd' in Hd.
      injection Hd as <- _. lia.
Qed.

(** The critical section of [wait_for_work], for a worker at [WLock] or one
    that was just woken. *)
Lemma step_wait q s k w d :
  (w = WLock d ∨ w = WWake d) → threads s !! k = Some w → zlen (threads s) <= 128 →
  cfg_ok (cfg s) → threads_inv (cfg s) (pool s) (<[k := WLock d]> (threads s)) q new →
  subs_inv (cfg s) (mem s) (subs s) (threads s) T (q ++ new) →
  comps_inv (subs s) (comps s) (next_sub s) (next_comp s) T hold →
  cq_inv (cfg s) (cq s) (comps s) infl → (calm (digest_name (cfg s)) → calm_inv s) →
  wp nf (wait_for_work d) (step_post q s k w) s.
Proof.
  intros Hw Hk Hfew Hcfg Hth Hsu Hco Hcq Hcm. unfold wait_for_work. do 2 wp_go.
  assert (k < length (threads s))%nat as Hlt by (by eapply lookup_lt_Some).
  assert (made_by d (digest_name (cfg s))) as Hd.
  { pose proof (su_worker _ _ _ _ _ _ Hsu k w Hk) as Hok. by destruct Hw as [-> | ->]. }
  destruct (r_len _ =? 0) eqn:E.
  - do 3 wp_go.
    assert (q = []) as ->.
    { apply Z.eqb_eq, (ring_repr_nil _ _ (ti_ring _ _ _ _ _ Hth)) in E. by destruct q. }
    exists []. split_and!; [destruct Hw as [-> | ->]; constructor| |done..]. split; simpl; try done.
    + by eapply threads_inv_block.
    + eapply subs_inv_thread; [done..| |]; by destruct Hw as [-> | ->].
    + intros [Hp Hh Hs Hc Hce]%Hcm. by split.
  - destruct q as [|id q].
    { pose proof (ring_repr_len _ _ (ti_ring _ _ _ _ _ Hth)). unfold zlen in *. simpl in *. lia. }
    pose proof (ti_ring _ _ _ _ _ Hth) as Hr.
    pose proof (rr_size _ _ Hr). unfold pop_unlocked, queue_access.
    do 4 wp_go. rewrite (ti_qmem _ _ _ _ _ Hth).
    destruct (r_size _ =? 0) eqn:?; [lia|]. do 2 wp_go.
    eapply wp_derefM; [by eapply ring_peek_repr|]. do 4 wp_go.
    exists q. split_and!; [destruct Hw as [-> | ->]; constructor| |done..]. split; simpl; try done.
    + by eapply threads_inv_pop.
    + eapply subs_inv_pop; [done..| |done]; by destruct Hw as [-> | ->].
    + intros [Hp Hh Hs Hc Hce]%Hcm. by split.
Qed.

Lemma step_lock q s k d :
  shared_inv q new T hold infl s → threads s !! k = Some (WLock d) →
  wp nf (worker_run (WLock d)) (step_post q s k (WLock d)) s.
Proof.
  intros HI Hk. pose proof (few_threads _ _ HI). destruct HI as [Hcfg Hth Hsu Hco Hcq Hcm].
  apply step_wait; auto. by rewrite list_insert_id.
Qed.

Lemma step_wake q s k d :
  shared_inv q new T hold infl s → threads s !! k = Some (WWake d) →
  wp nf (worker_run (WWake d)) (step_post q s k (WWake d)) s.
Proof.
  intros HI Hk. pose proof (few_threads _ _ HI). destruct HI as [Hcfg Hth Hsu Hco Hcq Hcm].
  simpl. do 2 wp_go. eapply wp_mono; [apply step_wait; simpl; eauto|].
  - by apply threads_inv_wake.
  - intros [Hp Hh Hs Hc Hce]%Hcm. by split.
  - intros w' s' (q' & Hm & Hi & Hf & Ht & Htk). exists q'. split_and!; [done..| |done|done].
    by destruct Hf.
Qed.

(** The end of the processing stage, whatever its result. *)
Lemma finish_work q s s' k d d' id i b sub sub' e oc :
  shared_inv q new T hold infl s → threads s !! k = Some (WWork d id) →
  T !! id = Some (AData i b) → subs s !! id = Some sub → sub_fresh (mem s) sub i b →
  made_by d' (digest_name (cfg s)) → sub_done (cfg s) sub' i b →
  sub_completion sub' = sub_completion sub → sub_completed sub' = false →
  (calm (digest_name (cfg s)) → sub_error sub' = 0 ∧ e = 0) →
  subs s' = <[id := sub']> (subs s) → comps s' = comp_error e oc (comps s) →
  cfg s' = cfg s → mem s' = mem s → pool s' = pool s → threads s' = threads s → cq s' = cq s →
  h_error s' = h_error s → next_sub s' = next_sub s → next_comp s' = next_comp s →
  n_tick s' = n_tick s →
  step_post q s k (WWork d id) (WComplete d' id) s'.
Proof.
  intros [Hcfg Hth Hsu Hco Hcq Hcm] Hk Ha Hs Hfr Hd' Hdone Hcc Hcd Hcalm
    Es Ec Ecfg Em Ep Et Eq Ee En1 En2 Etk.
  exists q. split_and!; [constructor| | |done..].
  - split; simpl; rewrite ?Ecfg, ?Em, ?Ep, ?Et, ?Eq, ?Es, ?Ec, ?En1, ?En2; try done.
    + by eapply threads_inv_move; eauto.
    + eapply subs_inv_update; [done..| | |].
      * simpl. split; [apply Hdone|]. congruence.
      * done.
      * split; [done|]. exists i, b, sub'. by rewrite lookup_insert_eq.
    + eapply comps_inv_error, comps_inv_sub; [done..|]. left. rewrite Hcd.
      symmetry. apply Hfr.
    + by eapply cq_inv_error.
    + intros Hc. destruct (Hcalm Hc) as [Hz ->]. destruct (Hcm Hc) as [Hp Hh Hsub Hcomp].
      split; simpl; rewrite ?Ep, ?Ee, ?Es, ?Ec, ?Eq; try done.
      * intros j x. destruct (decide (j = id)) as [->|]; intros; simplify_map_eq; eauto.
      * intros j x. destruct oc as [c|]; simpl; [|eauto].
        destruct (comps s !! c) as [y|] eqn:Hy; [|eauto].
        destruct (decide (j = c)) as [->|]; intros; simplify_map_eq; [|eauto].
        rewrite (Hcomp c y Hy). done.
  - split; simpl; try congruence. rewrite Es. eapply compl_le_insert; [done|]. auto.
Qed.

Lemma wp_store_md md (Q : list byte → shared D → Prop) s :
  zlen md <= 64 → Q md s → wp nf (store_md md) Q s.
Proof.
  intros Hl HQ. unfold store_md, BLKHASH_MAX_MD_SIZE.
  destruct (64 <? zlen md) eqn:?; [lia|]. by wp_go.
Qed.

(** A block is taken for zeros only if it is a full block of zeros. *)
Lemma pool_is_zero_block_ok s sub i b :
  16 <= block_size (cfg s) → sub_fresh (mem s) sub i b →
  wp nf (pool_is_zero_block sub) (λ z s', s' = s ∧ (z = true → b = zeros (block_size (cfg s)))) s.
Proof.
  intros Hbs [Hi Hl He Hz Hcd Hdata Hu]. unfold pool_is_zero_block. do 2 wp_go.
  destruct (negb _ && _) eqn:Eb; [|by wp_go].
  apply andb_true_iff in Eb as [_ Eb%Z.eqb_eq]. wp_go.
  eapply wp_read_data; [done|]. apply is_zero_spec; [rewrite Eb in *; lia|].
  split; [done|]. intros Ht%bool_decide_eq_true.
  rewrite Eb in *. rewrite <-Ht. unfold ztake. rewrite take_ge; [done|]. unfold zlen in Hl. lia.
Qed.

(** A digest call that failed: the error is stored in the submission. *)
Lemma digest_failed q s k d id i b sub rc n d' :
  shared_inv q new T hold infl s → threads s !! k = Some (WWork d id) →
  T !! id = Some (AData i b) → subs s !! id = Some sub → sub_fresh (mem s) sub i b →
  (calm (digest_name (cfg s)) → rc = 0) → (rc =? 0) = false → made_by d' (digest_name (cfg s)) →
  wp nf (submission_set_error id (- rc);; mret d')
    (λ d' s', step_post q s k (WWork d id) (WComplete d' id) s') (with_n_fault n s).
Proof.
  intros HI Hk Ha Hs Hfr Hrc Hne Hd'. pose proof Hfr as [Hi Hl He Hz Hcd Hdata Hu].
  assert (∀ c, sub_completion sub = Some c → is_Some (comps s !! c)) as Hcomp.
  { intros c Hc. by destruct (ci_user _ _ _ _ _ _ (si_comps _ _ _ _ _ _ HI) id sub c Hs Hc) as (_&_&?). }
  wp_go. eapply wp_submission_set_error; [done..|]. wp_go.
  eapply (finish_work _ _ _ _ _ _ _ _ _ _ (with_sub_error (- rc) sub) (- rc) (sub_completion sub)); eauto; simpl; try done.
  - split; [done|]. simpl. lia.
  - intros Hc%Hrc. split; lia.
Qed.

(** The digest of the block, or an error. *)
Lemma compute_block_digest_ok q s k d id i b sub :
  shared_inv q new T hold infl s → threads s !! k = Some (WWork d id) → made_by d (digest_name (cfg s)) →
  T !! id = Some (AData i b) → subs s !! id = Some sub → sub_fresh (mem s) sub i b →
  wp nf (compute_block_digest id d) (λ d' s', step_post q s k (WWork d id) (WComplete d' id) s') s.
Proof.
  intros HI Hk Hd Ha Hs Hfr. pose proof Hfr as [Hi Hl He Hz Hcd Hdata Hu].
  pose proof (digest_failed q s k d id i b sub) as Hfail. specialize (λ rc n d', Hfail rc n d' HI Hk Ha Hs Hfr) as Hf.
  unfold compute_block_digest. wp_go. eapply wp_sub_load; [done|]. do 2 wp_go. simpl.
  destruct (d_init _ _) as [rc d1] eqn:E1.
  assert (calm (digest_name (cfg s)) → rc = 0) as Hc1.
  { intros [Hfl Ht]. rewrite Hfl in E1. pose proof (d_init_total (DigestTotal := Ht) d) as Hx. by rewrite E1 in Hx. }
  pose proof (d_init_made _ _ _ _ _ Hd E1) as Hd1.
  unfold fails. destruct (rc =? 0) eqn:Erc; simpl; [|by apply Hf].
  apply Z.eqb_eq in Erc as ->. apply (d_init_ok _ _ _ _ Hd) in E1. wp_go.
  eapply wp_read_data; [done|]. do 2 wp_go. simpl.
  destruct (d_update _ _ _) as [rc d2] eqn:E2.
  assert (calm (digest_name (cfg s)) → rc = 0) as Hc2.
  { intros [Hfl Ht]. rewrite Hfl in E2. pose proof (d_update_total (DigestTotal := Ht) d1 b) as Hx. by rewrite E2 in Hx. }
  pose proof (d_update_made _ _ _ _ _ _ Hd1 E2) as Hd2.
  destruct (rc =? 0) eqn:Erc; simpl; [|by apply (Hf _ (Datatypes.S (Datatypes.S (n_fault s))))].
  apply Z.eqb_eq in Erc as ->. apply (d_update_ok _ _ _ _ _ _ E1) in E2. simpl in E2. do 2 wp_go. simpl.
  destruct (d_final _ _) as [[rc d3] md] eqn:E3.
  assert (calm (digest_name (cfg s)) → rc = 0) as Hc3.
  { intros [Hfl Ht]. rewrite Hfl in E3. pose proof (d_final_total (DigestTotal := Ht) d2) as Hx. by rewrite E3 in Hx. }
  pose proof (d_final_made _ _ _ _ _ _ Hd2 E3) as Hd3.
  destruct (rc =? 0) eqn:Erc; simpl; [|by apply (Hf _ (Datatypes.S (Datatypes.S (Datatypes.S (n_fault s)))))].
  apply Z.eqb_eq in Erc as ->. apply (d_final_ok _ _ _ _ _ _ E2) in E3 as ->. wp_go.
  apply wp_store_md; [rewrite hash_size; apply md_size_max|]. wp_go.
  eapply wp_sub_update; [done|]. wp_go.
  eapply (finish_work _ _ _ _ _ _ _ _ _ _ (with_sub_md (hash (digest_name (cfg s)) b) sub) 0 None); eauto; simpl; try done.
  split; [done|]. simpl. by rewrite Hz.
Qed.

Lemma step_work q s k d id :
  shared_inv q new T hold infl s → threads s !! k = Some (WWork d id) →
  wp nf (worker_run (WWork d id)) (step_post q s k (WWork d id)) s.
Proof.
  intros HI Hk. destruct (si_cfg _ _ _ _ _ _ HI) as [Hbs _ _ _ _ _].
  destruct (su_worker _ _ _ _ _ _ (si_subs _ _ _ _ _ _ HI) k _ Hk) as (Hd & i & b & sub & Ha & Hs & Hfr).
  simpl. wp_go. eapply wp_sub_load; [done|]. wp_go.
  eapply wp_mono; [by eapply pool_is_zero_block_ok; [lia|]|]. intros z s' [-> Hzb]. destruct z.
  - pose proof Hfr as [Hi Hl He Hz Hcd Hdata Hu].
    wp_go. unfold submission_set_zero. eapply wp_sub_update; [done|]. wp_go.
    eapply (finish_work _ _ _ _ _ _ _ _ _ _ (with_sub_zero true sub) 0 None); eauto; simpl; try done.
    split; [done|]. intros _. simpl. auto.
  - wp_go. eapply wp_mono; [by eapply compute_block_digest_ok|]. intros d' s' Hp. by wp_go.
Qed.

(** *** Dropping a reference *)

Lemma refs_to_0 c S x : refs_to c S x = 0%nat → x ≠ Some c ∧ ∀ id sub, S !! id = Some sub → sub_completion sub ≠ Some c.
Proof.
  unfold refs_to. case_decide; [lia|]. intros Hz. split; [done|]. intros id sub Hs Hc.
  assert (size (filter (uses c) S) = 0%nat) as E by lia. apply map_size_empty_inv in E.
  assert (filter (uses c) S !! id = Some sub) as Hin by (by apply map_lookup_filter_Some).
  rewrite E in Hin. done.
Qed.

Lemma comps_inv_release S C nsub ncomp x id sub sub' c comp :
  comps_inv S C nsub ncomp T x → S !! id = Some sub → sub_completion sub = Some c →
  sub_completion sub' = None → C !! c = Some comp → c_refs comp ≠ 1 →
  comps_inv (<[id := sub']> S) (<[c := with_c_refs (c_refs comp - 1) comp]> C) nsub ncomp T x.
Proof.
  intros [Hus Hrf Hho Hns Hnc Htr] Hs Hc Hn Hcomp Hne.
  split.
  - intros j y c' Hj Hy. destruct (decide (j = id)) as [->|]; simplify_map_eq.
    destruct (Hus j y c') as (?&?&?); [done..|]. split_and!; [done..|].
    destruct (decide (c' = c)) as [->|]; by simplify_map_eq.
  - intros c' y. destruct (decide (c' = c)) as [->|]; intros Hy; simplify_map_eq; simpl.
    + destruct (Hrf c comp Hcomp) as [Hr Hp].
      rewrite (refs_to_release c S x id sub sub') in Hr by done. lia.
    + rewrite (refs_to_release_ne c c' S x id sub sub') by done. eauto.
  - intros c' Hc'. destruct (decide (c' = c)) as [->|]; simplify_map_eq; eauto.
  - intros j Hj. rewrite lookup_insert_ne; [eauto|]. intros ->. rewrite Hns in Hs; done.
  - intros c' Hc'. rewrite lookup_insert_ne; [eauto|]. intros ->. rewrite Hnc in Hcomp; done.
  - intros j Hj. destruct (decide (j = id)) as [->|]; simplify_map_eq; eauto.
Qed.

Lemma comps_inv_last S C nsub ncomp x id sub sub' c comp :
  comps_inv S C nsub ncomp T x → S !! id = Some sub → sub_completion sub = Some c →
  sub_completion sub' = None → C !! c = Some comp → c_refs comp = 1 →
  comps_inv (<[id := sub']> S) (delete c C) nsub ncomp T x.
Proof.
  intros [Hus Hrf Hho Hns Hnc Htr] Hs Hc Hn Hcomp H1.
  assert (refs_to c (<[id := sub']> S) x = 0%nat) as Hz.
  { destruct (Hrf c comp Hcomp) as [Hr _].
    rewrite (refs_to_release c S x id sub sub') in Hr by done. lia. }
  apply refs_to_0 in Hz as [Hx Hno].
  split.
  - intros j y c' Hj Hy.
    assert (c' ≠ c) by (intros ->; by eapply Hno).
    destruct (decide (j = id)) as [->|]; simplify_map_eq.
    destruct (Hus j y c') as (?&?&?); [done..|]. done.
  - intros c' y Hy. apply lookup_delete_Some in Hy as [? Hy].
    rewrite (refs_to_release_ne c c' S x id sub sub') by done. eauto.
  - intros c' ->. rewrite lookup_delete_ne by congruence. eauto.
  - intros j Hj. rewrite lookup_insert_ne; [eauto|]. intros ->. rewrite Hns in Hs; done.
  - intros c' Hc'. destruct (decide (c' = c)) as [->|]; [by simplify_map_eq|].
    rewrite lookup_delete_ne by done. auto.
  - intros j Hj. destruct (decide (j = id)) as [->|]; simplify_map_eq; eauto.
Qed.

(** The completion queue has room for the callback of a live completion. *)
Lemma wp_update_completed_push c ud e comp (Q : bool → shared D → Prop) s :
  cfg_ok (cfg s) → cq_inv (cfg s) (cq s) (comps s) infl → comps s !! c = Some comp →
  (∀ q', cq_inv (cfg s) q' (delete c (comps s)) infl →
    (e = 0 → Forall (λ x, bc_error x = 0) (cq_array (cq s)) → Forall (λ x, bc_error x = 0) (cq_array q')) →
    Q (cq_count (cq s) =? 0) (with_cq q' s)) →
  wp nf (update_completed_push ud e) Q s.
Proof.
  intros Hcfg [Hnn Hb Hi Ha Ho] Hc HQ. unfold update_completed_push.
  pose proof (co_depth _ Hcfg).
  assert (size (comps s) ≠ 0)%nat.
  { intros E%map_size_empty_inv. by rewrite E in Hc. }
  do 3 wp_go. apply wp_assertM; [lia|]. wp_go. destruct (_ <=? _) eqn:?; [lia|]. do 4 wp_go.
  apply HQ; [split; simpl; try done|].
  - unfold u32. rewrite Z.mod_small; lia.
  - rewrite map_size_delete_Some by eauto. unfold u32. rewrite Z.mod_small; lia.
  - unfold zlen in *. by rewrite length_insert.
  - intros -> Hcl. by apply Forall_insert.
Qed.

(** The completion of a submission is dropped, and its worker moves on. *)
Lemma complete_move q s k d id i b sub w' :
  threads_inv (cfg s) (pool s) (threads s) q new →
  subs_inv (cfg s) (mem s) (subs s) (threads s) T (q ++ new) → threads s !! k = Some (WComplete d id) →
  T !! id = Some (AData i b) → subs s !! id = Some sub → sub_done (cfg s) sub i b → sub_completed sub = false →
  made_by d (digest_name (cfg s)) →
  (w' = WStore d id ∨ (w' = WNotify d id ∧ 0 < queue_depth (cfg s))) →
  threads_inv (cfg s) (pool s) (<[k := w']> (threads s)) q new ∧
  subs_inv (cfg s) (mem s) (<[id := with_sub_completion None sub]> (subs s)) (<[k := w']> (threads s)) T (q ++ new).
Proof.
  intros Hth Hsu Hk Ha Hs Hdone Hcd Hd Hw'. split.
  - destruct Hw' as [-> |[-> ?]]; by eapply threads_inv_move; eauto.
  - eapply subs_inv_update; [done..| | |].
    + split; [apply Hdone|]. simpl. congruence.
    + by destruct Hw' as [-> |[-> ?]].
    + assert (∃ i b x, T !! id = Some (AData i b) ∧ <[id:=with_sub_completion None sub]> (subs s) !! id = Some x ∧
        sub_done (cfg s) x i b ∧ sub_completed x = false ∧ sub_completion x = None).
      { exists i, b, (with_sub_completion None sub). rewrite lookup_insert_eq. split_and!; try done.
        destruct Hdone as [H1 H2]. by split. }
      destruct Hw' as [-> |[-> ?]]; simpl; auto.
Qed.

(** Dropping a completion keeps a calm state calm. *)
Lemma dropped_subs (P : submission → Prop) id sub (S : gmap nat submission) :
  (∀ j x, S !! j = Some x → P x) → P (with_sub_completion None sub) →
  ∀ j x, <[id := with_sub_completion None sub]> S !! j = Some x → P x.
Proof. intros HS Hd j x. destruct (decide (j = id)) as [->|]; intros; simplify_map_eq; [done|eauto]. Qed.

Lemma step_complete q s k d id :
  shared_inv q new T hold infl s → threads s !! k = Some (WComplete d id) →
  wp nf (worker_run (WComplete d id)) (step_post q s k (WComplete d id)) s.
Proof.
  intros HI Hk. destruct HI as [Hcfg Hth Hsu Hco Hcq Hcm].
  destruct (su_worker _ _ _ _ _ _ Hsu k _ Hk) as (Hd & i & b & sub & Ha & Hs & Hdone & Hcd).
  simpl. wp_go. eapply wp_sub_load; [done|].
  destruct (sub_completion sub) as [c|] eqn:Hc.
  2:{ wp_go. exists q. split_and!; [constructor| |done..]. split; simpl; try done.
      - by eapply threads_inv_move; eauto.
      - eapply subs_inv_thread; [done..| |done]. split; [done|]. split; [done|].
        exists i, b, sub. by split_and!.
      - intros [Hp Hh Hsub Hcomp Hce]%Hcm. by split. }
  destruct (ci_user _ _ _ _ _ _ Hco id sub c Hs Hc) as (_ & _ & [comp Hcomp]).
  destruct (ci_refs _ _ _ _ _ _ Hco c comp Hcomp) as [Hr Hpos].
  pose proof (λ w', complete_move q s k d id i b sub w' Hth Hsu Hk Ha Hs Hdone Hcd Hd) as Hmove.
  wp_go. unfold completion_unref. wp_go. eapply wp_comp_update; [done|]. wp_go.
  eapply wp_comp_load; [simpl; apply lookup_insert_eq|]. simpl.
  replace (u32 (c_refs comp - 1)) with (c_refs comp - 1) by (unfold u32; rewrite Z.mod_small; lia).
  destruct (c_refs comp - 1 =? 0) eqn:E.
  - wp_go. eapply (wp_update_completed_push c); [done|simpl|simpl; apply lookup_insert_eq|].
    { by eapply cq_inv_comp. }
    intros q' Hq' Hcl. simpl in *. do 4 wp_go.
    eapply wp_sub_update; [done|]. wp_go. simpl.
    assert (0 < queue_depth (cfg s)).
    { pose proof (cq_nonneg _ _ _ _ Hcq). pose proof (cq_bound _ _ _ _ Hcq). pose proof (cq_infl _ _ _ _ Hcq).
      destruct (size (comps s)) eqn:Es; [|lia]. apply map_size_empty_inv in Es. by rewrite Es in Hcomp. }
    rewrite delete_insert_eq in *.
    set (w' := if cq_count (cq s) =? 0 then WNotify d id else WStore d id).
    destruct (Hmove w') as [Hth' Hsu']; [unfold w'; destruct (cq_count _ =? 0); auto|].
    exists q. split_and!; [unfold w'; destruct (cq_count _ =? 0); constructor| |split; try done; eapply compl_le_insert; [done|by left]|done..].
    split; simpl; try done; rewrite ?delete_insert_eq; try done.
    + eapply comps_inv_last; try done. lia.
    + intros [Hp Hh Hsub Hcm' Hce]%Hcm. split; simpl; try done; [|intros j x [_ ?]%lookup_delete_Some; eauto|eauto].
      apply dropped_subs; [done|]. simpl. eauto.
  - do 2 wp_go. eapply wp_sub_update; [done|]. wp_go. simpl.
    destruct (Hmove (WStore d id)) as [Hth' Hsu']; [by left|].
    exists q. split_and!; [constructor| |split; try done; eapply compl_le_insert; [done|by left]|done..]. split; simpl; try done.
    + eapply comps_inv_release; try done. lia.
    + by eapply cq_inv_comp.
    + intros [Hp Hh Hsub Hcm' Hce]%Hcm. split; simpl; try done; [apply dropped_subs; [done|]; simpl; eauto|].
      intros j x. destruct (decide (j = c)) as [->|]; intros; simplify_map_eq; [|eauto]. simpl. eauto.
Qed.

Context (name : string) (Hnf : nf ∨ calm (D := D) name).

Lemma step_notify q s k d id :
  shared_inv q new T hold infl s → digest_name (cfg s) = name →
  threads s !! k = Some (WNotify d id) →
  wp nf (worker_run (WNotify d id)) (step_post q s k (WNotify d id)) s.
Proof.
  intros [Hcfg Hth Hsu Hco Hcq Hcm] Hname Hk.
  pose proof (su_worker _ _ _ _ _ _ Hsu k _ Hk) as (Hd & Hqd & Hsub).
  destruct (cq_open _ _ _ _ Hcq Hqd) as [v Hv].
  simpl. wp_go. unfold update_completed_notify. wp_go.
  eapply wp_event_signal; [done..|]. intros e n v' He.
  set (s' := with_cq _ _).
  assert (∀ e', (calm (D := D) name → e' = h_error s) → (h_error s ≠ 0 → e' = h_error s) →
    step_post q s k (WNotify d id) (WStore d id) (with_h_error e' s')) as Hdone.
  { intros e' Hc' Hst. exists q. split_and!; [constructor| |by split|done..].
    split; simpl; try done.
    - by eapply threads_inv_move; eauto.
    - by eapply subs_inv_thread.
    - destruct Hcq. by split.
    - intros Hc. destruct (Hcm Hc) as [Hp Hh Hs Hcc]. split; simpl; try done.
      rewrite Hname in Hc. rewrite Hc' by done. done. }
  assert (with_h_error (h_error s) s' = s') as Hid by done.
  unfold fails. destruct (e =? 0) eqn:E; simpl.
  - do 2 wp_go. rewrite <-Hid. by apply Hdone.
  - unfold set_error. do 5 wp_go; do 4 wp_go.
    + apply Hdone; [|simpl in *; lia]. intros Hc%He. lia.
    + rewrite <-Hid. by apply Hdone.
Qed.

Lemma step_store q s k d id :
  shared_inv q new T hold infl s → threads s !! k = Some (WStore d id) →
  wp nf (worker_run (WStore d id)) (step_post q s k (WStore d id)) s.
Proof.
  intros [Hcfg Hth Hsu Hco Hcq Hcm] Hk.
  destruct (su_worker _ _ _ _ _ _ Hsu k _ Hk) as (Hd & _ & i & b & sub & Ha & Hs & Hdone & Hcd & Hc).
  simpl. wp_go. eapply wp_sub_update; [done|]. wp_go.
  exists q. split_and!; [constructor| |split; try done; eapply compl_le_insert; [done|by left]|done..]. split; simpl; try done.
  - by eapply threads_inv_move; eauto.
  - eapply subs_inv_update; [done..| |done|done]. simpl. split; [apply Hdone|]. intros _.
    destruct Hdone as [H1 H2]. by split.
  - eapply comps_inv_sub; [done..|]. by right.
  - intros [Hp Hh Hsub Hcomp Hce]%Hcm. split; simpl; try done.
    intros j x. destruct (decide (j = id)) as [->|]; intros; simplify_map_eq; [|eauto].
    simpl. eauto.
Qed.

(** Every step of a worker. *)
Lemma worker_run_inv q s k w :
  shared_inv q new T hold infl s → digest_name (cfg s) = name → threads s !! k = Some w →
  wp nf (worker_run w) (step_post q s k w) s.
Proof.
  intros HI Hn Hk. destruct w.
  - by apply step_start.
  - by apply step_lock.
  - simpl. wp_go. exists q. split_and!; [constructor|..]; rewrite ?list_insert_id by done; by destruct s.
  - by apply step_wake.
  - by apply step_work.
  - by apply step_complete.
  - by apply step_notify.
  - by apply step_store.
  - simpl. wp_go. exists q. split_and!; [constructor|..]; rewrite ?list_insert_id by done; by destruct s.
Qed.

(** ** Scheduled actions *)

Inductive pool_move : action → list nat → list (wstate D) → list nat → list (wstate D) → Prop :=
| pm_run k w q ts q' w' : ts !! k = Some w → wmove q w q' w' →
    pool_move (ARun k) q ts q' (<[k := w']> ts)
| pm_absent k q ts : ts !! k = None → pool_move (ARun k) q ts q ts
| pm_spurious k q ts d : ts !! k = Some (WCondWait d) →
    pool_move (ASpurious k) q ts q (<[k := WWake d]> ts)
| pm_quiet k q ts : (∀ d, ts !! k ≠ Some (WCondWait d)) → pool_move (ASpurious k) q ts q ts.

Lemma alter_wake ts k d :
  ts !! k = Some (WCondWait d) → alter wake_thread k ts = <[k := WWake d]> ts.
Proof.
  intros Hk. rewrite list_insert_alter. apply list_alter_ext; [|done].
  intros w Hw. rewrite Hk in Hw. by simplify_eq.
Qed.

Lemma alter_no_wake ts k :
  (∀ d, ts !! k ≠ Some (WCondWait d)) → alter wake_thread k ts = ts.
Proof.
  intros Hk. rewrite <-(list_alter_id id ts k) at 2 by done. apply list_alter_ext; [|done].
  intros w Hw. destruct w; try done. by destruct (Hk d).
Qed.

Lemma worker_step_inv q s a :
  shared_inv q new T hold infl s → digest_name (cfg s) = name →
  wp nf (worker_step a) (λ _ s', ∃ q', pool_move a q (threads s) q' (threads s') ∧
    shared_inv q' new T hold infl s' ∧ frame s s' ∧ n_tick s' = n_tick s) s.
Proof.
  intros HI Hn. unfold worker_step. do 2 wp_go. destruct a as [k|k].
  - destruct (threads s !! k) as [w|] eqn:Hk.
    + wp_go. eapply wp_mono; [by apply (worker_run_inv q s k)|].
      intros w' s' (q' & Hm & HI' & Hf & Ht & Htk). wp_go. exists q'. split_and!; [|done..].
      simpl. rewrite Ht. by econstructor.
    + wp_go. exists q. split_and!; [by constructor|done..].
  - wp_go. exists q.
    assert ((∃ d, threads s !! k = Some (WCondWait d)) ∨ (∀ d, threads s !! k ≠ Some (WCondWait d)))
      as [[d Hk]|Hk].
    { destruct (threads s !! k) as [[]|]; by eauto. }
    + simpl. rewrite (alter_wake _ _ _ Hk). split_and!; [by constructor| |done..].
      destruct HI as [Hcfg Hth Hsu Hco Hcq Hcm]. split; simpl; try done.
      * by eapply threads_inv_notify.
      * eapply subs_inv_thread; [done..| |done]. by apply (su_worker _ _ _ _ _ _ Hsu k _ Hk).
      * intros [Hp Hh Hs Hc Hce]%Hcm. by split.
    + simpl. rewrite alter_no_wake by done.
      split_and!; [by constructor|by destruct s..].
Qed.
End rules.
End pool_step.
