(* ===== verification/Progress.v ===== *)
(** * Progress of the hash pool

    A submission that was pushed is eventually completed under any fair
    schedule, whatever the order of steps and however many spurious wakeups
    happen: [rank] bounds the number of useful steps left, every action keeps or
    lowers it, and the step of one particular worker (the one that holds the
    submission, or one that is awake while it is queued) lowers it.  That such
    an awake worker exists is what the wakeup rule of [hash_pool_submit] has to
    guarantee. *)

From stdpp Require Import prelude list strings gmap.
From Stdlib Require Import ZArith Lia.
From S2P Require Import Prelude Ring State Digest Zero Event Completion Submission Config HashPool.
From S2P Require Import PoolInv PoolStep.

(** ** Ranks *)

Section rank.
Context {D : Type}.
Implicit Types (w : wstate D) (ts : list (wstate D)) (q : list nat).

(** Steps left until a held submission is completed. *)
Definition stage w : nat :=
  match w with
  | WWork _ _ => 4 | WComplete _ _ => 3 | WNotify _ _ => 2 | WStore _ _ => 1
  | _ => 0
  end.

Definition weight w : nat :=
  match w with
  | WStart | WCondWait _ => 9
  | WLock _ | WWake _ => 8
  | WWork _ _ => 17 | WComplete _ _ => 16 | WNotify _ _ => 15 | WStore _ _ => 14
  | WExit => 0
  end.

Definition stage_for (id : nat) w : nat :=
  if decide (held w = Some id) then stage w else 0.

Definition total q ts : nat := 10 * length q + sum_list_with weight ts.

Definition rank q ts (id : nat) : nat :=
  match sum_list_with (stage_for id) ts with
  | 0 => 5 + total q ts
  | n => n
  end.

(** Queued or held by a worker. *)
Definition live q ts (id : nat) : Prop := id ∈ q ∨ ∃ k, holds ts k id.

#[global] Instance live_dec q ts id : Decision (live q ts id).
Proof.
  destruct (decide (id ∈ q)) as [?|Hq]; [by left; left|].
  destruct (decide (Exists (λ w, held w = Some id) ts)) as [He|He].
  - left; right. apply Exists_exists in He as (w & Hin & Hw).
    apply list_elem_of_lookup in Hin as [k Hk]. exists k. by eapply holds_lookup.
  - right. intros [?|[k Hk]]; [done|]. apply He, Exists_exists. unfold holds in Hk.
    destruct (ts !! k) as [w|] eqn:E; [|done]. exists w. split; [|done].
    by eapply list_elem_of_lookup_2.
Defined.

(** A worker whose next step lowers the rank. *)
Definition key q ts (id k : nat) : Prop :=
  holds ts k id ∨ (∀ j, ¬ holds ts j id) ∧ ∃ w, ts !! k = Some w ∧ awake w = true.

Lemma sum_list_with_insert {A} (f : A → nat) (l : list A) k x y :
  l !! k = Some x → sum_list_with f (<[k := y]> l) + f x = sum_list_with f l + f y.
Proof.
  revert k. induction l as [|z l IH]; intros [|k] Hk; simpl in *; simplify_eq; [lia|].
  specialize (IH k Hk). lia.
Qed.

Lemma sum_list_with_0 {A} (f : A → nat) (l : list A) :
  (∀ k x, l !! k = Some x → f x = 0) → sum_list_with f l = 0.
Proof.
  intros H. induction l as [|z l IH]; simpl; [done|]. rewrite (H 0 z eq_refl), IH; [done|].
  intros k x Hk. by apply (H (S k)).
Qed.

Lemma stage_pos w id : held w = Some id → 0 < stage w.
Proof. destruct w; simpl; intros; simplify_eq; lia. Qed.

Lemma stage_for_None id w : held w ≠ Some id → stage_for id w = 0.
Proof. unfold stage_for. by case_decide. Qed.

Lemma stage_for_Some id w : held w = Some id → stage_for id w = stage w.
Proof. unfold stage_for. by case_decide. Qed.

Lemma not_held_sum ts id : (∀ k, ¬ holds ts k id) → sum_list_with (stage_for id) ts = 0.
Proof.
  intros H. apply sum_list_with_0. intros k w Hk. apply stage_for_None.
  intros Hw. eapply H, holds_lookup; done.
Qed.

Lemma held_sum ts id k w :
  (∀ k1 k2, holds ts k1 id → holds ts k2 id → k1 = k2) →
  ts !! k = Some w → held w = Some id → sum_list_with (stage_for id) ts = stage w.
Proof.
  intros Hinj Hk Hw.
  pose proof (sum_list_with_insert (stage_for id) ts k w WStart Hk) as Hs.
  rewrite (stage_for_Some _ _ Hw) in Hs.
  rewrite (stage_for_None id WStart) in Hs by done. rewrite not_held_sum in Hs; [lia|].
  intros j [[-> Hj]|[Hne Hj]]%holds_insert; [done|].
  by apply Hne, Hinj; [|eapply holds_lookup].
Qed.

Lemma rank_held q ts id k w :
  (∀ k1 k2, holds ts k1 id → holds ts k2 id → k1 = k2) →
  ts !! k = Some w → held w = Some id → rank q ts id = stage w.
Proof.
  intros Hinj Hk Hw. unfold rank. rewrite (held_sum ts id k w) by done.
  pose proof (stage_pos w id Hw). destruct (stage w); [lia|done].
Qed.

Lemma rank_queued q ts id : (∀ k, ¬ holds ts k id) → rank q ts id = 5 + total q ts.
Proof. intros H. unfold rank. by rewrite not_held_sum. Qed.

(** ** Moves and ranks *)

(** The outcome of an action for a live submission. *)
Definition progress (a : action) q ts q' ts' (id : nat) : Prop :=
  ¬ live q' ts' id ∨ rank q' ts' id < rank q ts id ∨
  (rank q' ts' id = rank q ts id ∧ ∀ k, key q ts id k → key q' ts' id k ∧ a ≠ ARun k).

Lemma progress_refl a q ts id :
  (∀ k, a = ARun k → ¬ key q ts id k) → progress a q ts q ts id.
Proof. intros H. right; right. split; [done|]. intros k Hk. split; [done|]. intros ->. by eapply H. Qed.

Lemma holds_eq ts k w id : ts !! k = Some w → holds ts k id → held w = Some id.
Proof. unfold holds. by intros ->. Qed.

(** Held submissions: only the holder matters. *)
Lemma progress_held a q ts q' ts' id j :
  pool_move a q ts q' ts' → (∀ i k, i ∈ q → ¬ holds ts k i) →
  (∀ i k1 k2, holds ts k1 i → holds ts k2 i → k1 = k2) →
  (∀ i k1 k2, holds ts' k1 i → holds ts' k2 i → k1 = k2) →
  holds ts j id → progress a q ts q' ts' id.
Proof.
  intros Hm Hap Hinj Hinj' Hj.
  destruct (ts !! j) as [wj|] eqn:Hwj; [|by unfold holds in Hj; rewrite Hwj in Hj].
  pose proof (holds_eq _ _ _ _ Hwj Hj) as Hheld.
  assert (rank q ts id = stage wj) as Hr by (eapply rank_held; eauto).
  assert (∀ k w', k ≠ j → ts' = <[k := w']> ts → (∀ k, a = ARun k → k ≠ j) →
    progress a q ts q' ts' id) as Hother.
  { intros k w' Hkj -> Ha.
    assert (<[k := w']> ts !! j = Some wj) by (by rewrite list_lookup_insert_ne).
    right; right. split; [rewrite Hr; eapply rank_held; eauto|].
    assert (holds (<[k := w']> ts) j id) by (by eapply holds_lookup).
    intros k' [Hk'|[Hk' _]]; [|by destruct (Hk' j)].
    assert (k' = j) as -> by eauto. split; [by left|]. intros ->. by eapply Ha. }
  destruct Hm as [k w q ts q' w' Hk Hw|k q ts Hk|k q ts d Hk|k q ts Hk].
  - destruct (decide (k = j)) as [->|Hne]; [|eapply Hother; [done..|naive_solver]].
    rewrite Hwj in Hk. simplify_eq.
    assert (<[j := w']> ts !! j = Some w') by (eapply list_lookup_insert_eq, lookup_lt_Some; eauto).
    destruct Hw; simpl in Hheld; simplify_eq; try (right; left; erewrite (rank_held _ (<[j := _]> ts)) by eauto;
      rewrite Hr; simpl; lia).
    left. intros [Hin|[k [[-> Hk]|[? Hk]]%holds_insert]]; [by eapply Hap|done|]. by eauto.
  - apply progress_refl. intros ? [= ->] [Hk'|[Hk' _]]; [|by destruct (Hk' j)].
    assert (k0 = j) as -> by eauto. congruence.
  - eapply Hother; [|done|done]. intros ->. rewrite Hwj in Hk. by simplify_eq.
  - by apply progress_refl.
Qed.

(** Queued submissions: every effective step counts. *)
Lemma progress_queued a q ts q' ts' id :
  pool_move a q ts q' ts' → (∀ i k, i ∈ q → ¬ holds ts k i) →
  (∀ i k1 k2, holds ts' k1 i → holds ts' k2 i → k1 = k2) →
  id ∈ q → progress a q ts q' ts' id.
Proof.
  intros Hm Hap Hinj' Hin.
  assert (∀ k, ¬ holds ts k id) as Hno by eauto.
  pose proof (rank_queued q ts id Hno) as Hr.
  assert (∀ k w w' q', ts !! k = Some w → held w' ≠ Some id → ts' = <[k := w']> ts →
    10 * length q' + weight w' < 10 * length q + weight w →
    progress a q ts q' ts' id) as Hless.
  { intros k w w' q2 Hk Hw -> Hlt. right; left. rewrite Hr.
    rewrite rank_queued.
    - unfold total. pose proof (sum_list_with_insert weight ts k w w' Hk). lia.
    - intros j [[-> ?]|[? ?]]%holds_insert; [done|]. by eapply Hno. }
  destruct Hm as [k w q ts q' w' Hk Hw|k q ts Hk|k q ts d Hk|k q ts Hk].
  - assert (held w ≠ Some id) as Hnw by (intros ?; by eapply Hno, holds_lookup).
    assert (k < length ts) by (by eapply lookup_lt_Some).
    destruct Hw; try by apply elem_of_nil in Hin.
    all: try (eapply Hless; [done| |done|simpl; lia]; done).
    + destruct (decide (id0 = id)) as [->|Hne].
      * right; left. erewrite rank_held; [|apply Hinj'|by apply list_lookup_insert_eq|done].
        rewrite Hr. simpl. lia.
      * eapply Hless; [done| |done|simpl; lia]. simpl. congruence.
    + destruct (decide (id0 = id)) as [->|Hne].
      * right; left. erewrite rank_held; [|apply Hinj'|by apply list_lookup_insert_eq|done].
        rewrite Hr. simpl. lia.
      * eapply Hless; [done| |done|simpl; lia]. simpl. congruence.
    + rewrite list_insert_id by done. apply progress_refl.
      intros ? [= <-] [?|[_ (w & ? & ?)]]; [by eapply Hno|by simplify_eq].
    + rewrite list_insert_id by done. apply progress_refl.
      intros ? [= <-] [?|[_ (w & ? & ?)]]; [by eapply Hno|by simplify_eq].
  - apply progress_refl. intros ? [= ->] [?|[_ (w & ? & ?)]]; [by eapply Hno|by simplify_eq].
  - eapply Hless; [done| |done|simpl; lia]. done.
  - by apply progress_refl.
Qed.
End rank.

(** ** From single actions to scheduling points *)

Section wait.
Context (nf : Prop) {D : Type} `{DO : !DigestOps D, DL : !DigestLaws D, EV : !Env}.
Context (new : list nat) (T : gmap nat ablk) (hold : option nat) (infl : Z) (c : config).
Implicit Types (s : shared D).

Local Open Scope Z_scope.

(** Within any [K] scheduling points every worker takes a step. *)
Definition fair (n K : nat) : Prop :=
  ∀ t k, (k < n)%nat → ∃ d, (d < K)%nat ∧ ARun k ∈ sched (t + d)%nat.

(** A schedule under which waiting loops end, and enough iterations for them:
    a bound on the rank of any submission, times the fairness bound. *)
Definition live_env : Prop :=
  calm (D := D) (digest_name c) ∧
  ∃ K, fair (Z.to_nat (workers c)) K ∧
    (K * (6 + 10 * Z.to_nat (max_submissions c) + 17 * Z.to_nat (workers c)) ≤ spins)%nat.

Context (Hnf : nf ∨ live_env).

(** Nothing popped and released comes back. *)
Lemma dead_stable a q ts q' (ts' : list (wstate D)) id :
  pool_move a q ts q' ts' → ¬ live q ts id → ¬ live q' ts' id.
Proof using Type.
  intros Hm Hd Hl. apply Hd.
  destruct Hm as [k w q ts q' w' Hk Hw|k q ts Hk|k q ts d Hk|k q ts Hk]; [|done| |done].
  - assert (∀ i, held w' = Some i → live q ts i) as Hheld.
    { intros i Hi. destruct Hw; simpl in Hi; simplify_eq;
        try (by right; exists k; eapply holds_lookup); left; by left. }
    destruct Hl as [Hin|[j [[-> ?]|[? ?]]%holds_insert]]; [|by apply Hheld|right; by exists j].
    destruct Hw; left; try done; by right.
  - destruct Hl as [Hin|[j [[-> ?]|[? ?]]%holds_insert]]; [by left|done|right; by exists j].
Qed.

Definition runs (l : list action) q (ts : list (wstate D)) q' (ts' : list (wstate D)) (id : nat) : Prop :=
  ¬ live q' ts' id ∨ (rank q' ts' id < rank q ts id)%nat ∨
  (rank q' ts' id = rank q ts id ∧ ∀ k, key q ts id k → key q' ts' id k ∧ ARun k ∉ l).

(** What a scheduling point gives for the submissions in flight. *)
Definition advanced (l : list action) q s q' s' : Prop :=
  ∀ id, (¬ live q (threads s) id → ¬ live q' (threads s') id) ∧
    (live q (threads s) id → runs l q (threads s) q' (threads s') id).

Lemma runs_cons a l q ts q1 ts1 q2 ts2 id :
  progress a q ts q1 ts1 id → (¬ live q1 ts1 id → ¬ live q2 ts2 id) →
  (live q1 ts1 id → runs l q1 ts1 q2 ts2 id) → runs (a :: l) q ts q2 ts2 id.
Proof using Type.
  intros Hp Hdead Hr. unfold runs.
  destruct Hp as [Hd|Hp]; [by left; auto|].
  destruct (decide (live q1 ts1 id)) as [Hl|Hd].
  2:{ by left; auto. }
  destruct (Hr Hl) as [?|[Hlt|[Heq Hk]]]; [by left|right; left; lia|].
  destruct Hp as [Hlt|[Heq' Hk']]; [right; left; lia|].
  right; right. split; [lia|]. intros k Hkey. destruct (Hk' k Hkey) as [Hk1 Hne].
  destruct (Hk k Hk1) as [Hk2 Hni]. split; [done|].
  by intros [?|?]%elem_of_cons.
Qed.

Lemma run_actions_inv l q s :
  shared_inv q new T hold infl s → cfg s = c →
  wp nf (run_actions l) (λ _ s', ∃ q', shared_inv q' new T hold infl s' ∧ frame s s' ∧
    n_tick s' = n_tick s ∧ advanced l q s q' s') s.
Proof using Hnf.
  revert q s. induction l as [|a l IH]; intros q s HI Hc; simpl.
  - wp_go. exists q. split_and!; [done..|]. intros id. split; [done|]. intros Hl.
    right; right. split; [done|]. intros k Hk. split; [done|]. apply not_elem_of_nil.
  - wp_go. eapply wp_mono.
    { eapply (worker_step_inv nf new T hold infl (digest_name c)); [|done|by rewrite Hc].
      destruct Hnf as [?|[? _]]; auto. }
    intros _ s1 (q1 & Hm & HI1 & Hf1 & Ht1). eapply wp_mono.
    { apply (IH q1); [done|]. by rewrite (fr_cfg _ _ Hf1). }
    intros _ s2 (q2 & HI2 & Hf2 & Ht2 & Ha2). exists q2.
    split_and!; [done|by etrans|congruence|]. intros id. destruct (Ha2 id) as [Hdead Hrun].
    pose proof (queue_apart _ _ _ _ _ (si_threads _ _ _ _ _ _ HI)) as Hap.
    pose proof (ti_inj _ _ _ _ _ (si_threads _ _ _ _ _ _ HI)) as Hinj.
    pose proof (ti_inj _ _ _ _ _ (si_threads _ _ _ _ _ _ HI1)) as Hinj1.
    split.
    + intros Hd. apply Hdead. by eapply dead_stable.
    + intros Hl. eapply runs_cons; [|done|done].
      destruct Hl as [Hin|[j Hj]]; [by eapply progress_queued|by eapply progress_held].
Qed.

Lemma yield_inv q s :
  shared_inv q new T hold infl s → cfg s = c →
  wp nf yield (λ _ s', ∃ q', shared_inv q' new T hold infl s' ∧ frame s s' ∧
    n_tick s' = S (n_tick s) ∧ advanced (sched (n_tick s)) q s q' s') s.
Proof using Hnf.
  intros HI Hc. unfold yield. do 4 wp_go. eapply wp_mono.
  { apply (run_actions_inv _ q); [|done].
    destruct HI as [Hcfg Hth Hsu Hco Hcq Hcm]. split; simpl; try done.
    intros [Hp Hh Hs Hcc Hce]%Hcm. by split. }
  simpl. intros _ s' (q' & HI' & Hf & Ht & Ha). exists q'. split_and!; [done| |done..].
  destruct Hf. by split.
Qed.

(** A tracked submission is completed exactly if no thread will touch it. *)
Lemma live_uncompleted q s id a :
  shared_inv q new T hold infl s → T !! id = Some a → id ∉ new →
  ∃ sub, subs s !! id = Some sub ∧ sub_is (cfg s) sub a ∧
    (sub_completed sub = true ↔ ¬ live q (threads s) id).
Proof using Type.
  intros [Hcfg Hth Hsu Hco Hcq Hcm] Ha Hnew.
  destruct (su_tracked _ _ _ _ _ _ Hsu id a Ha) as (sub & Hs & Hi & Hc).
  exists sub. split_and!; [done..|]. split.
  - intros Hct Hl.
    destruct (live_submission _ _ _ _ _ _ id Hsu) as [_ (x & Hx & Hxc)]; [|simplify_eq; congruence].
    destruct Hl as [Hin|?]; [left; apply elem_of_app; by left|by right].
  - intros Hd. destruct (sub_completed sub); [done|]. destruct Hd. destruct (Hc eq_refl) as [[?|?]%elem_of_app|?]; [by left|done|by right].
Qed.

(** ** Waiting ends *)

Lemma weight_bound (ts : list (wstate D)) : (sum_list_with weight ts ≤ 17 * length ts)%nat.
Proof using Type. induction ts as [|w ts IH]; simpl; [lia|]. destruct w; simpl; lia. Qed.

Lemma rank_bound q s id :
  shared_inv q new T hold infl s → live q (threads s) id →
  (1 ≤ rank q (threads s) id ≤
     5 + 10 * Z.to_nat (max_submissions (cfg s)) + 17 * Z.to_nat (workers (cfg s)))%nat.
Proof using Type.
  intros [Hcfg Hth _ _ _ _] Hl.
  pose proof (ti_inj _ _ _ _ _ Hth) as Hinj. pose proof (queue_apart _ _ _ _ _ Hth) as Hap.
  destruct Hl as [Hin|[k Hk]].
  - rewrite rank_queued by eauto. unfold total.
    pose proof (weight_bound (threads s)). pose proof (ti_few _ _ _ _ _ Hth) as Hfew.
    pose proof (rr_fits _ _ (ti_ring _ _ _ _ _ Hth)) as Hfit.
    rewrite (ti_size _ _ _ _ _ Hth) in Hfit. unfold zlen in *. rewrite length_fmap in Hfit. lia.
  - destruct (threads s !! k) as [w|] eqn:Hw; [|by unfold holds in Hk; rewrite Hw in Hk].
    pose proof (holds_eq _ _ _ _ Hw Hk) as Hh. rewrite (rank_held _ _ _ k w) by eauto.
    pose proof (stage_pos w id Hh). destruct w; simpl in *; lia.
Qed.

Lemma key_exists q s id :
  shared_inv q new T hold infl s → cfg s = c → calm (D := D) (digest_name c) →
  live q (threads s) id →
  ∃ k, key q (threads s) id k ∧ (k < Z.to_nat (workers c))%nat.
Proof using Type.
  intros [Hcfg Hth _ _ _ Hcm] Hc Hcalm Hl. rewrite Hc in Hcm.
  pose proof (ti_few _ _ _ _ _ Hth) as Hfew. unfold zlen in Hfew.
  assert (∀ k w, threads s !! k = Some w → (k < Z.to_nat (workers c))%nat) as Hlt.
  { intros k w Hk. apply lookup_lt_Some in Hk. rewrite <-Hc. lia. }
  destruct Hl as [Hin|[k Hk]].
  - destruct (ti_awake _ _ _ _ _ Hth) as (k & w & Hk & Hw).
    + apply (cm_pool _ (Hcm Hcalm)).
    + intros ->. by apply elem_of_nil in Hin.
    + exists k. split; [right|by eapply Hlt]. split; [|eauto].
      intros j. by eapply queue_apart.
  - exists k. split; [by left|]. unfold holds in Hk.
    destruct (threads s !! k) as [w|] eqn:Hw; [by eapply Hlt|done].
Qed.

(** How much fuel the loop needs from a state. *)
Definition budget (K fuel : nat) q s id : Prop :=
  live q (threads s) id → ∃ k d, key q (threads s) id k ∧ (d < K)%nat ∧
    ARun k ∈ sched (n_tick s + d)%nat ∧ (K * rank q (threads s) id + d ≤ fuel)%nat.

Lemma budget_start K fuel q s id :
  shared_inv q new T hold infl s → cfg s = c → calm (D := D) (digest_name c) →
  fair (Z.to_nat (workers c)) K →
  (∀ r, live q (threads s) id → r = rank q (threads s) id → K * r + K ≤ S fuel)%nat →
  budget K fuel q s id.
Proof using Type.
  intros HI Hc Hcalm Hfair Hr Hl.
  destruct (key_exists q s id HI Hc Hcalm Hl) as (k & Hk & Hlt).
  destruct (Hfair (n_tick s) k Hlt) as (d & Hd & Hs). exists k, d.
  specialize (Hr _ Hl eq_refl). split_and!; [done..|lia].
Qed.

Lemma budget_step K fuel q s q' s' id :
  shared_inv q' new T hold infl s' → cfg s' = c → calm (D := D) (digest_name c) →
  fair (Z.to_nat (workers c)) K → n_tick s' = S (n_tick s) →
  advanced (sched (n_tick s)) q s q' s' → budget K fuel q s id → live q' (threads s') id →
  ∃ fuel', fuel = S fuel' ∧ budget K fuel' q' s' id.
Proof using Type.
  intros HI Hc Hcalm Hfair Ht Ha Hb Hl. destruct (Ha id) as [Hdead Hrun].
  destruct (decide (live q (threads s) id)) as [Hl0|]; [|naive_solver].
  destruct (Hb Hl0) as (k & d & Hk & Hd & Hs & Hfuel).
  destruct (rank_bound q' s' id HI Hl) as [Hr1 _].
  destruct (Hrun Hl0) as [?|[Hlt|[Heq Hkeys]]]; [done| |].
  - destruct fuel as [|fuel]; [nia|]. exists fuel. split; [done|].
    apply budget_start; [done..|]. intros r _ ->. nia.
  - destruct (Hkeys k Hk) as [Hk' Hni]. destruct d as [|d].
    { by rewrite Nat.add_0_r in Hs. }
    destruct fuel as [|fuel]; [lia|]. exists fuel. split; [done|]. intros _. exists k, d.
    rewrite Ht. split_and!; [done|lia| |lia].
    by replace (S (n_tick s) + d)%nat with (n_tick s + S d)%nat by lia.
Qed.

Lemma wait_loop_inv fuel q s id a :
  shared_inv q new T hold infl s → cfg s = c → T !! id = Some a → id ∉ new →
  (nf ∨ calm (D := D) (digest_name c) ∧ ∃ K, fair (Z.to_nat (workers c)) K ∧ budget K fuel q s id) →
  wp nf (submission_wait_loop yield fuel id) (λ _ s', ∃ q', shared_inv q' new T hold infl s' ∧
    frame s s' ∧ ∃ sub, subs s' !! id = Some sub ∧ sub_is (cfg s') sub a ∧
      sub_completed sub = true) s.
Proof using Hnf.
  revert q s. induction fuel as [|fuel IH]; intros q s HI Hc Ha Hnew Hb.
  all: simpl; wp_go; unfold submission_is_completed; wp_go;
    (eapply wp_mono; [by apply (yield_inv q)|]); intros _ s1 (q1 & HI1 & Hf1 & Ht1 & Hadv);
    destruct (live_uncompleted q1 s1 id a HI1 Ha Hnew) as (sub & Hs & Hi & Hcl);
    wp_go; (eapply wp_sub_load; [done|]); wp_go;
    (destruct (sub_completed sub) eqn:E;
     [wp_go; exists q1; split_and!; [done..|]; by exists sub|]);
    assert (live q1 (threads s1) id) as Hl
      by (destruct (decide (live q1 (threads s1) id)) as [?|Hn]; [done|]; by apply Hcl in Hn).
  - destruct Hb as [?|(Hcalm & K & Hfair & Hb)]; [by apply wp_nofuel|].
    eapply budget_step in Hb as (f & ? & _); eauto; [done|]. by rewrite (fr_cfg _ _ Hf1).
  - eapply wp_mono; [apply (IH q1 s1); [done|by rewrite (fr_cfg _ _ Hf1)|done|done|]|].
    + destruct Hb as [?|(Hcalm & K & Hfair & Hb)]; [by left|right]. split; [done|].
      exists K. split; [done|].
      eapply budget_step in Hb as (f & Hf & Hb); eauto; [|by rewrite (fr_cfg _ _ Hf1)].
      by injection Hf as ->.
    + intros _ s2 (q2 & HI2 & Hf2 & Hsub). exists q2. split_and!; [done|by etrans|done].
Qed.

Lemma submission_wait_inv q s id a :
  shared_inv q new T hold infl s → cfg s = c → T !! id = Some a → id ∉ new →
  wp nf (submission_wait yield id) (λ _ s', ∃ q', shared_inv q' new T hold infl s' ∧
    frame s s' ∧ ∃ sub, subs s' !! id = Some sub ∧ sub_is (cfg s') sub a ∧
      sub_completed sub = true) s.
Proof using Hnf.
  intros HI Hc Ha Hnew. apply (wait_loop_inv _ q); [done..|].
  destruct Hnf as [?|(Hcalm & K & Hfair & Hspins)]; [by left|right].
  split; [done|]. exists K. split; [done|]. apply budget_start; [done..|].
  intros r Hl ->. destruct (rank_bound q s id HI Hl) as [_ Hr]. rewrite Hc in Hr. nia.
Qed.
End wait.
