(* ===== verification/Spec.v ===== *)
(** * What a block hash is

    [blkhash_spec] is the definition of the hash that the documentation and the
    reference implementation (test/blkhash.py) share:
    H( H(block 1) || ... || H(block N) || length ).  [Py] is that reference
    implementation, [expand] says which blocks the entries of the submission
    queue stand for. *)

From stdpp Require Import prelude list strings.
From Stdlib Require Import ZArith Lia.
From S2P Require Import Prelude Digest PoolInv.

Local Open Scope Z_scope.

(** ** Cutting a message into blocks *)

(** Cut after [n] bytes. *)
Fixpoint cut (fuel : nat) (bs : Z) (m : list byte) : list (list byte) :=
  match fuel with
  | O => []
  | S f => match m with
           | [] => []
           | _ => ztake bs m :: cut f bs (zdrop bs m)
           end
  end.

Definition blocks (bs : Z) (m : list byte) : list (list byte) := cut (length m) bs m.

Section spec.
Context (H : list byte → list byte) (bs : Z).

(** 64 bit little endian, as [struct.pack("<Q", v)]. *)
Definition pack_le64 (v : Z) : list byte :=
  (λ i, byte_of_Z (v / 256 ^ Z.of_nat i)) <$> seq 0 8.

Definition blkhash_spec (m : list byte) : list byte :=
  H (mjoin (H <$> blocks bs m) ++ pack_le64 (zlen m)).

(** ** Blocks of a message *)

Hypothesis bs_pos : 0 < bs.

Lemma cut_blocks fuel B r :
  (length (mjoin B ++ r) ≤ fuel)%nat → Forall (λ b, zlen b = bs) B → 0 <= zlen r < bs →
  cut fuel bs (mjoin B ++ r) = B ++ (if decide (r = []) then [] else [r]).
Proof using bs_pos.
  revert fuel. induction B as [|b B IH]; intros fuel Hf HB Hr; simpl in *.
  - destruct r as [|x r]; [by destruct fuel|].
    destruct fuel as [|fuel]; [simpl in Hf; lia|]. cbn [cut].
    rewrite ztake_all by lia. f_equal. unfold zdrop. rewrite drop_ge by (unfold zlen in *; lia).
    by destruct fuel.
  - apply Forall_cons in HB as [Hb HB]. rewrite <-app_assoc in *.
    destruct b as [|x b]; [unfold zlen in Hb; simpl in Hb; lia|].
    destruct fuel as [|fuel]; [simpl in Hf; lia|]. cbn [cut].
    change ((x :: b) ++ mjoin B ++ r) with ((x :: b) ++ (mjoin B ++ r)).
    assert (Z.to_nat bs = length (x :: b)) as Hn by (unfold zlen in Hb; lia).
    unfold ztake, zdrop. simpl. rewrite Hn. simpl.
    rewrite take_app_length, drop_app_length. f_equal. apply IH; [|done..].
    rewrite length_app in Hf. simpl in Hf. lia.
Qed.

Lemma blocks_unique B r :
  Forall (λ b, zlen b = bs) B → zlen r < bs →
  blocks bs (mjoin B ++ r) = B ++ (if decide (r = []) then [] else [r]).
Proof using bs_pos. intros. unfold blocks. apply cut_blocks; [done..|]. unfold zlen in *. lia. Qed.
End spec.

(** ** The reference implementation (test/blkhash.py) *)

Module Py.
Section py.
Context (H : list byte → list byte) (bs : Z).

(** [self.outer_hash] as the bytes it was fed, [self.pending], with None as the
    empty list, and [self.length]. *)
Record state := State { outer : list byte; ppending : list byte; length_ : Z }.

Definition init : state := State [] [] 0.

Definition _add_block (s : state) (data : list byte) : state :=
  State (outer s ++ H data) (ppending s) (length_ s + zlen data).

(** [while len(view) >= self.block_size] *)
Fixpoint full_blocks (fuel : nat) (s : state) (view : list byte) : state * list byte :=
  match fuel with
  | O => (s, view)
  | S f =>
      if bs <=? zlen view then full_blocks f (_add_block s (ztake bs view)) (zdrop bs view)
      else (s, view)
  end.

(** [if self.pending] *)
Definition consume_pending (s : state) (data : list byte) : state * list byte :=
  if ppending s is [] then (s, data)
  else
    let take := bs - zlen (ppending s) in
    let p := ppending s ++ ztake take data in
    let s := State (outer s) p (length_ s) in
    (if zlen p =? bs then
       let s := _add_block s p in State (outer s) [] (length_ s)
     else s, zdrop take data).

Definition update (s : state) (data : list byte) : state :=
  let '(s, view) := consume_pending s data in
  let '(s, view) := full_blocks (length view) s view in
  if view is [] then s else State (outer s) view (length_ s).

Definition digest (s : state) : list byte :=
  let s := if ppending s is [] then s else _add_block s (ppending s) in
  H (outer s ++ pack_le64 (length_ s)).

Definition checksum (updates : list (list byte)) : list byte :=
  digest (foldl update init updates).

(** *** It computes the specification *)

Hypothesis bs_pos : 0 < bs.

(** [B] are the blocks hashed so far. *)
Record repr (s : state) (B : list (list byte)) : Prop := {
  r_outer : outer s = mjoin (H <$> B);
  r_length : length_ s = zlen (mjoin B);
  r_full : Forall (λ b, zlen b = bs) B;
  r_pending : zlen (ppending s) < bs;
}.

Lemma repr_add s B p b :
  repr (State (outer s) p (length_ s)) B → zlen b = bs →
  repr (State (outer (_add_block s b)) [] (length_ (_add_block s b))) (B ++ [b]).
Proof using bs_pos.
  intros [Ho Hl Hf _] Hb. simpl in *. split; simpl.
  - rewrite Ho, fmap_app, join_app. simpl. by rewrite app_nil_r.
  - rewrite Hl, join_app, zlen_app. simpl. rewrite app_nil_r. done.
  - apply Forall_app. split; [done|]. by constructor.
  - done.
Qed.

Lemma repr_ext s s' B :
  repr s B → outer s' = outer s → length_ s' = length_ s → zlen (ppending s') < bs → repr s' B.
Proof using Type. intros [] E1 E2 ?. split; congruence. Qed.

Lemma full_blocks_repr fuel s view B :
  repr s B → ppending s = [] → (length view ≤ fuel)%nat →
  ∃ s' rest B', full_blocks fuel s view = (s', rest) ∧ repr s' B' ∧ ppending s' = [] ∧
    zlen rest < bs ∧ mjoin B' ++ rest = mjoin B ++ view.
Proof using bs_pos.
  revert s view B. induction fuel as [|fuel IH]; intros s view B Hs Hp Hf; simpl.
  { destruct view; [|simpl in Hf; lia]. by exists s, [], B. }
  destruct (bs <=? zlen view) eqn:E.
  - assert (zlen (ztake bs view) = bs) as Hb by (apply zlen_ztake; lia).
    destruct (IH (_add_block s (ztake bs view)) (zdrop bs view) (B ++ [ztake bs view]))
      as (s' & rest & B' & H1 & H2 & H3 & H4 & H5).
    + pose proof (repr_add s B [] (ztake bs view)) as Ha. unfold _add_block in *. simpl in *.
      rewrite Hp. apply Ha; [|done]. by eapply repr_ext.
    + done.
    + unfold zdrop. rewrite length_drop. unfold zlen in E. lia.
    + exists s', rest, B'. split_and!; try done. rewrite H5, join_app. simpl.
      rewrite app_nil_r, <-app_assoc. f_equal. apply ztake_zdrop.
  - exists s, view, B. split_and!; try done. lia.
Qed.

Lemma consume_pending_repr s B data :
  repr s B → ∃ s1 view B1, consume_pending s data = (s1, view) ∧ repr s1 B1 ∧
    mjoin B1 ++ ppending s1 ++ view = mjoin B ++ ppending s ++ data ∧
    (ppending s1 = [] ∨ view = []).
Proof using bs_pos.
  intros Hs. unfold consume_pending. pose proof (r_pending _ _ Hs) as Hlt.
  destruct (ppending s) as [|x p] eqn:Hp; [by exists s, data, B; rewrite Hp; auto|].
  cbv zeta. rewrite <-Hp in *. clear x p Hp.
  set (t := bs - zlen (ppending s)). set (p := ppending s ++ ztake t data).
  destruct (zlen p =? bs) eqn:E.
  - eexists _, _, (B ++ [p]). split_and!; [done|..].
    + change (_add_block _ p) with (_add_block (State (outer s) p (length_ s)) p).
      apply (repr_add (State (outer s) p (length_ s)) B (ppending s)); [|lia].
      simpl. by eapply repr_ext.
    + simpl. rewrite join_app. simpl. rewrite app_nil_r, <-app_assoc. unfold p.
      rewrite <-app_assoc, ztake_zdrop. done.
    + by left.
  - assert (zlen data < t) as Hshort.
    { destruct (Z.lt_ge_cases (zlen data) t) as [|Hge]; [done|]. exfalso.
      unfold p in E. rewrite zlen_app, zlen_ztake in E by (unfold t in *; lia). unfold t in *. lia. }
    assert (ztake t data = data) as Ht by (apply ztake_all; lia).
    eexists _, _, B. split_and!; [done|..].
    + eapply repr_ext; [done..|]. simpl. unfold p. rewrite Ht, zlen_app. unfold t in *. lia.
    + simpl. unfold p. by rewrite <-app_assoc, ztake_zdrop.
    + right. unfold zdrop. apply drop_ge. unfold zlen in *. lia.
Qed.

Lemma update_repr s B data :
  repr s B → ∃ B', repr (update s data) B' ∧
    mjoin B' ++ ppending (update s data) = mjoin B ++ ppending s ++ data.
Proof using bs_pos.
  intros Hs. unfold update.
  destruct (consume_pending_repr s B data Hs) as (s1 & view & B1 & -> & Hs1 & Hm & Hor).
  destruct Hor as [Hp| ->].
  - destruct (full_blocks_repr (length view) s1 view B1) as (s2 & rest & B2 & -> & H2 & H3 & H4 & H5);
      [done..|]. rewrite Hp in Hm. simpl in Hm. rewrite <-Hm, <-H5. exists B2.
    destruct rest; [by rewrite H3|]. split; [|done]. eapply repr_ext; done.
  - simpl. exists B1. split; [done|]. by rewrite app_nil_r in Hm.
Qed.

Lemma updates_repr updates s B :
  repr s B → ∃ B', repr (foldl update s updates) B' ∧
    mjoin B' ++ ppending (foldl update s updates) = mjoin B ++ ppending s ++ mjoin updates.
Proof using bs_pos.
  revert s B. induction updates as [|u us IH]; intros s B Hs; simpl.
  { exists B. by rewrite app_nil_r. }
  destruct (update_repr s B u Hs) as (B1 & H1 & E1).
  destruct (IH _ _ H1) as (B2 & H2 & E2). exists B2. split; [done|].
  rewrite E2, (assoc_L (++)), E1. by rewrite <-!(assoc_L (++)).
Qed.

Lemma checksum_spec updates : checksum updates = blkhash_spec H bs (mjoin updates).
Proof using bs_pos.
  destruct (updates_repr updates init []) as (B & HB & E); [by split|].
  unfold checksum, digest. set (s := foldl update init updates) in *. simpl in E.
  destruct HB as [Ho Hl Hf Hp]. unfold blkhash_spec. rewrite <-E.
  rewrite blocks_unique by done. rewrite zlen_app.
  destruct (ppending s) as [|x p] eqn:Ep.
  - rewrite decide_True, app_nil_r, Ho, Hl by done. by rewrite Z.add_0_r.
  - rewrite decide_False by done. rewrite <-Ep in *. simpl.
    rewrite fmap_app, join_app, Ho, Hl. simpl. by rewrite app_nil_r.
Qed.
End py.
End Py.

(** ** The blocks a submission queue stands for *)

Section expand.
Context (zb : list byte).
Implicit Types (Q : list ablk) (h n : Z).

(** [n] zero blocks. *)
Definition zrun n : list (list byte) := replicate (Z.to_nat n) zb.

(** The blocks from index [h] up to index [n], when [Q] is queued and zero
    blocks are not. *)
Fixpoint expand h Q n : list (list byte) :=
  match Q with
  | [] => zrun (n - h)
  | AData i b :: Q' => zrun (i - h) ++ b :: expand (i + 1) Q' n
  | AZero i :: Q' => zrun (i - h) ++ expand i Q' n
  end.

(** The indexes are in order. *)
Fixpoint ordered h Q n : Prop :=
  match Q with
  | [] => h <= n
  | AData i b :: Q' => h <= i ∧ ordered (i + 1) Q' n
  | AZero i :: Q' => h <= i ∧ ordered i Q' n
  end.

(** The last entry of [Q] brings the hashed index to [n]. *)
Definition closed h Q n : Prop :=
  match last Q with
  | None => h = n
  | Some (AZero i) => i = n
  | Some (AData i b) => i + 1 = n ∧ b ≠ zb
  end.

Lemma zrun_add n m : 0 <= n → 0 <= m → zrun (n + m) = zrun n ++ zrun m.
Proof. intros. unfold zrun. rewrite Z2Nat.inj_add by lia. apply replicate_add. Qed.

Lemma zrun_1 : zrun 1 = [zb].
Proof. done. Qed.

Lemma zrun_0 : zrun 0 = [].
Proof. done. Qed.

Lemma zlen_zrun n : 0 <= n → zlen (zrun n) = n.
Proof. intros. unfold zlen, zrun. rewrite length_replicate. lia. Qed.

Lemma ordered_le h Q n : ordered h Q n → h <= n.
Proof.
  revert h. induction Q as [|[i b|i] Q IH]; intros h; simpl; [done|..];
    intros [? ?%IH]; lia.
Qed.

Lemma ordered_weaken h h' Q n : ordered h Q n → h' <= h → ordered h' Q n.
Proof. destruct Q as [|[i b|i] Q]; simpl; intuition lia. Qed.

(** Zero blocks in front of the queue. *)
Lemma expand_zeros h h' Q n :
  ordered h Q n → h' <= h → expand h' Q n = zrun (h - h') ++ expand h Q n.
Proof.
  intros Ho Hh. destruct Q as [|[i b|i] Q]; simpl in *.
  - rewrite <-zrun_add by lia. f_equal. lia.
  - rewrite (assoc_L (++)), <-zrun_add by lia. do 2 f_equal. lia.
  - rewrite (assoc_L (++)), <-zrun_add by lia. do 2 f_equal. lia.
Qed.

Lemma zlen_expand h Q n : ordered h Q n → zlen (expand h Q n) = n - h.
Proof.
  revert h. induction Q as [|[i b|i] Q IH]; intros h Ho; simpl in *.
  - apply zlen_zrun. lia.
  - destruct Ho as [Hi Ho]. rewrite zlen_app, zlen_cons, zlen_zrun, IH by (done || lia). lia.
  - destruct Ho as [Hi Ho]. rewrite zlen_app, zlen_zrun, IH by (done || lia). lia.
Qed.

(** More zero blocks at the end. *)
Lemma expand_grow h Q n k :
  ordered h Q n → 0 <= k → expand h Q (n + k) = expand h Q n ++ zrun k.
Proof.
  intros Ho Hk. revert h Ho. induction Q as [|[i b|i] Q IH]; intros h Ho; simpl in *.
  - rewrite <-zrun_add by lia. f_equal. lia.
  - rewrite IH by apply Ho. by rewrite <-(assoc_L (++)).
  - rewrite IH by apply Ho. by rewrite <-(assoc_L (++)).
Qed.

Lemma ordered_grow h Q n k : ordered h Q n → 0 <= k → ordered h Q (n + k).
Proof.
  intros Ho Hk. revert h Ho. induction Q as [|[i b|i] Q IH]; intros h Ho; simpl in *;
    [lia|..]; destruct Ho; auto.
Qed.

(** Pushing an entry for the next block. *)
Lemma expand_push_data h Q n b :
  ordered h Q n → expand h (Q ++ [AData n b]) (n + 1) = expand h Q n ++ [b].
Proof.
  revert h. induction Q as [|[i b'|i] Q IH]; intros h Ho; simpl in *.
  - by rewrite Z.sub_diag.
  - rewrite IH by apply Ho. by rewrite <-(assoc_L (++)).
  - rewrite IH by apply Ho. by rewrite <-(assoc_L (++)).
Qed.

Lemma ordered_push_data h Q n b : ordered h Q n → ordered h (Q ++ [AData n b]) (n + 1).
Proof. revert h. induction Q as [|[i b'|i] Q IH]; intros h; simpl; [lia|..]; intros []; auto. Qed.

Lemma expand_push_zero h Q n :
  ordered h Q n → expand h (Q ++ [AZero n]) n = expand h Q n.
Proof.
  revert h. induction Q as [|[i b'|i] Q IH]; intros h Ho; simpl in *.
  - by rewrite Z.sub_diag, app_nil_r.
  - by rewrite IH by apply Ho.
  - by rewrite IH by apply Ho.
Qed.

Lemma ordered_push_zero h Q n : ordered h Q n → ordered h (Q ++ [AZero n]) n.
Proof. revert h. induction Q as [|[i b'|i] Q IH]; intros h; simpl; [lia|..]; intros []; auto. Qed.

Lemma closed_push_zero h Q n : closed h (Q ++ [AZero n]) n.
Proof. unfold closed. by rewrite last_snoc. Qed.

Lemma closed_push_data h Q n b : b ≠ zb → closed h (Q ++ [AData n b]) (n + 1).
Proof. unfold closed. by rewrite last_snoc. Qed.

(** Taking the first entry. *)
Lemma closed_pop_zero h i Q n : closed h (AZero i :: Q) n → closed i Q n.
Proof. unfold closed. destruct Q as [|a Q] using rev_ind; [done|]. by rewrite app_comm_cons, !last_snoc. Qed.

Lemma closed_pop_data h i b Q n :
  closed h (AData i b :: Q) n → closed (i + 1) Q n ∧ (b = zb → closed i Q n).
Proof.
  unfold closed. destruct Q as [|a Q] using rev_ind; simpl; [intros []; split; [done|]; congruence|].
  rewrite app_comm_cons, !last_snoc. auto.
Qed.
End expand.
