(* ===== verification/PoolCaller.v ===== *)
(** * The caller side of the shared state

    Rules for what the calling thread does to the objects it shares with the
    workers: creating, queueing and destroying submissions, waking a worker,
    holding and releasing completions, and taking completions from the queue.
    Each preserves [shared_inv]. *)

From stdpp Require Import prelude list strings gmap.
From Stdlib Require Import ZArith Lia.
From S2P Require Import Prelude Ring State Digest Zero Event Completion Submission Config HashPool.
From S2P Require Import PoolInv PoolStep Progress Spec.

Local Open Scope Z_scope.

Section caller.
Context {D : Type} `{DO : !DigestOps D, DL : !DigestLaws D, EV : !Env}.
Implicit Types (s : shared D) (w : wstate D) (ts : list (wstate D)) (T : gmap nat ablk).
Implicit Types (sub : submission) (S : gmap nat submission) (C : gmap nat completion).

(** ** Fields the invariant does not read *)

Lemma shared_inv_fault n q new T hold infl s :
  shared_inv q new T hold infl s → shared_inv q new T hold infl (with_n_fault n s).
Proof.
  intros [Hcfg Hth Hsu Hco Hcq Hcm]. split; try done. intros [Hp Hh Hs Hc Hce]%Hcm. by split.
Qed.

Lemma shared_inv_error e q new T hold infl s :
  shared_inv q new T hold infl s → (calm (D := D) (digest_name (cfg s)) → False) →
  shared_inv q new T hold infl (with_h_error e s).
Proof. intros [Hcfg Hth Hsu Hco Hcq Hcm] Hn. by split. Qed.

(** ** Submissions that are finished *)

Lemma shared_inv_forget q new T hold infl s id sub :
  shared_inv q new T hold infl s → subs s !! id = Some sub → sub_completed sub = true →
  shared_inv q new (delete id T) hold infl s.
Proof.
  intros [Hcfg Hth Hsu Hco Hcq Hcm] Hs Hc.
  assert (¬ (id ∈ q ++ new ∨ ∃ k, holds (threads s) k id)) as Hq.
  { intros Hl. destruct (live_submission _ _ _ _ _ _ id Hsu Hl) as [_ (x & Hx & Hn)].
    simplify_eq. congruence. }
  split; try done.
  - destruct Hsu as [H1 H2 H3]. split.
    + intros j Hj. rewrite lookup_delete_ne; [by apply H1|]. intros ->. auto.
    + intros k w Hk. eapply worker_ok_ext; [by eapply H2|]. intros j Hj. split; [done|].
      apply lookup_delete_ne. intros ->. destruct Hq. right. exists k. by eapply holds_lookup.
    + intros j a [_ Ha]%lookup_delete_Some. by apply H3.
  - destruct Hco as [H1 H2 H3 H4 H5 H6]. split; try done.
    + intros j x c Hx Hxc. destruct (H1 j x c Hx Hxc) as (?&?&?).
      rewrite lookup_delete_ne; [done|]. intros ->. simplify_eq. congruence.
    + intros j [a Ha]. apply lookup_delete_Some in Ha as [_ Ha]. eauto.
Qed.

Lemma refs_to_delete c S hold id :
  (∀ sub, S !! id = Some sub → sub_completion sub = None) →
  refs_to c (delete id S) hold = refs_to c S hold.
Proof.
  intros Hn. unfold refs_to. f_equal. rewrite map_filter_delete. apply map_size_delete_None.
  apply map_lookup_filter_None. right. intros x Hx. unfold uses. simpl. by rewrite (Hn x Hx).
Qed.

Lemma shared_inv_destroy q new T hold infl s id :
  shared_inv q new T hold infl s → T !! id = None →
  shared_inv q new T hold infl (with_subs (delete id (subs s)) s).
Proof.
  intros [Hcfg Hth Hsu Hco Hcq Hcm] Hid.
  assert (∀ j, is_Some (T !! j) → j ≠ id) as Hne by (intros j [] ->; congruence).
  split; simpl; try done.
  - destruct Hsu as [H1 H2 H3]. split.
    + intros j Hj. destruct (H1 j Hj) as (i & b & sub & Hj' & ? & ?). exists i, b, sub.
      rewrite lookup_delete_ne; [done|]. symmetry. eauto.
    + intros k w Hk. eapply worker_ok_ext; [by eapply H2|]. intros j Hj. split; [|done].
      apply lookup_delete_ne. symmetry. apply Hne. by eapply worker_holds; [eapply H2|].
    + intros j a Ha. rewrite lookup_delete_ne by (symmetry; eauto). by apply H3.
  - destruct Hco as [H1 H2 H3 H4 H5 H6]. split; try done.
    + intros j x c [_ Hx]%lookup_delete_Some Hxc. eauto.
    + intros c comp Hc. rewrite refs_to_delete; [eauto|]. intros sub Hs.
      destruct (sub_completion sub) as [x|] eqn:E; [|done].
      destruct (H1 id sub x Hs E) as [[] _]. congruence.
    + intros j Hj. rewrite lookup_delete_None. auto.
    + intros j Hj. rewrite lookup_delete_ne by (symmetry; eauto). auto.
  - intros [Hp Hh Hs Hc Hce]%Hcm. split; simpl; try done. intros j x [_ Hx]%lookup_delete_Some. eauto.
Qed.

(** ** New submissions *)

Lemma next_sub_fresh q new T hold infl s :
  shared_inv q new T hold infl s →
  subs s !! next_sub s = None ∧ T !! next_sub s = None ∧ ¬ (next_sub s ∈ q ++ new) ∧
  ∀ k, ¬ holds (threads s) k (next_sub s).
Proof.
  intros [Hcfg Hth Hsu Hco Hcq Hcm].
  pose proof (ci_next_sub _ _ _ _ _ _ Hco (next_sub s) (Nat.le_refl _)) as Hn.
  assert (¬ (next_sub s ∈ q ++ new ∨ ∃ k, holds (threads s) k (next_sub s))) as Hl.
  { intros Hl. destruct (live_submission _ _ _ _ _ _ _ Hsu Hl) as [_ (x & Hx & _)]. congruence. }
  split_and!; [done| |eauto..].
  apply eq_None_not_Some. intros Ht%(ci_tracked _ _ _ _ _ _ Hco). rewrite Hn in Ht. by destruct Ht.
Qed.

(** The state after [sub_alloc]. *)
Definition alloc sub s : shared D :=
  with_next_sub (Datatypes.S (next_sub s)) (with_subs (<[next_sub s := sub]> (subs s)) s).

Lemma wp_sub_alloc nf sub (Q : nat → shared D → Prop) s :
  Q (next_sub s) (alloc sub s) → wp nf (sub_alloc sub) Q s.
Proof. done. Qed.

Lemma subs_inv_alloc c m S ts T q q' id sub a :
  subs_inv c m S ts T q → S !! id = None → T !! id = None → sub_is c sub a →
  ((q' = q ∧ sub_completed sub = true) ∨
   ∃ i b, q' = q ++ [id] ∧ a = AData i b ∧ sub_fresh m sub i b) →
  subs_inv c m (<[id := sub]> S) ts (<[id := a]> T) q'.
Proof.
  intros [H1 H2 H3] Hs Ht Hi Hq.
  assert (∀ j, is_Some (S !! j) → j ≠ id) as Hne.
  { intros j [x Hx] ->. congruence. }
  split.
  - intros j Hj. assert (j ∈ q ∨ (j = id ∧ ∃ i b, a = AData i b ∧ sub_fresh m sub i b))
      as [Hin|[-> (i & b & -> & Hf)]].
    { destruct Hq as [[-> _]|(i & b & -> & ? & ?)]; [by left|].
      apply elem_of_app in Hj as [?|?%list_elem_of_singleton]; [by left|right; by eauto]. }
    + destruct (H1 j Hin) as (i & b & x & Hj1 & Hj2 & Hj3). exists i, b, x.
      rewrite !lookup_insert_ne by (symmetry; eauto). done.
    + exists i, b, sub. by rewrite !lookup_insert_eq.
  - intros k w Hk. eapply worker_ok_ext; [by eapply H2|]. intros j Hj.
    destruct (worker_holds _ _ _ _ _ _ (H2 k w Hk) Hj) as [_ (x & Hx & _)].
    rewrite !lookup_insert_ne by (symmetry; eauto). done.
  - intros j b Hj. destruct (decide (j = id)) as [->|Hn].
    + rewrite lookup_insert_eq in Hj. rewrite lookup_insert_eq. simplify_eq. exists sub. split_and!; [done..|].
      intros Hc. left. destruct Hq as [[_ ?]|(i & y & -> & _)]; [congruence|].
      apply elem_of_app. right. by apply list_elem_of_singleton.
    + rewrite lookup_insert_ne in Hj by done. destruct (H3 j b Hj) as (x & Hx & Hix & Hl).
      exists x. rewrite lookup_insert_ne by done. split_and!; [done..|]. intros Hc.
      destruct (Hl Hc) as [?|?]; [left|by right].
      destruct Hq as [[-> _]|(i & y & -> & _)]; [done|]. apply elem_of_app. by left.
Qed.

Lemma refs_to_alloc c S hold id sub :
  S !! id = None →
  refs_to c (<[id := sub]> S) hold =
    (refs_to c S hold + if decide (sub_completion sub = Some c) then 1 else 0)%nat.
Proof.
  intros Hs. unfold refs_to.
  assert (filter (uses c) S !! id = None) as Hf.
  { apply map_lookup_filter_None. left. done. }
  destruct (decide (sub_completion sub = Some c)) as [E|E].
  - rewrite map_filter_insert_True by (by unfold uses). rewrite map_size_insert_None by done. lia.
  - rewrite map_filter_insert_not'; [lia|done|]. intros y Hy. congruence.
Qed.

Lemma shared_inv_alloc_zero q T hold infl s i :
  shared_inv q [] T hold infl s →
  shared_inv q [] (<[next_sub s := AZero i]> T) hold infl
    (alloc (Submission [] None DNull i 0 0 true true 0) s).
Proof.
  intros HI. destruct (next_sub_fresh _ _ _ _ _ _ HI) as (Hs & Ht & Hq & Hh).
  destruct HI as [Hcfg Hth Hsu Hco Hcq Hcm]. split; simpl; try done.
  - eapply subs_inv_alloc; [done..|by simpl|]. by left.
  - destruct Hco as [H1 H2 H3 H4 H5 H6]. split; try done.
    + intros j x c Hx Hxc. destruct (decide (j = next_sub s)) as [->|]; simplify_map_eq.
      by destruct (H1 j x c Hx Hxc) as (?&?&?).
    + intros c comp Hc. rewrite refs_to_alloc by done.
      rewrite decide_False by done. rewrite Nat.add_0_r. eauto.
    + intros j Hj. rewrite lookup_insert_ne by lia. apply H4. lia.
    + intros j Hj. destruct (decide (j = next_sub s)) as [->|]; simplify_map_eq; eauto.
  - intros [Hp He Hsb Hc Hce]%Hcm. split; simpl; try done. intros j x.
    destruct (decide (j = next_sub s)) as [->|]; intros; simplify_map_eq; eauto.
Qed.

(** Submissions that use a completion are tracked. *)
Lemma refs_bound S C n m T hold c :
  comps_inv S C n m T hold → (size (filter (uses c) S) ≤ size T)%nat.
Proof.
  intros HC. rewrite <-!size_dom. apply subseteq_size. intros id Hid.
  apply elem_of_dom in Hid as [sub Hid]. apply map_lookup_filter_Some in Hid as [Hs Hu].
  apply elem_of_dom. by destruct (ci_user _ _ _ _ _ _ HC id sub c Hs Hu).
Qed.

(** A new data submission, with a reference to the completion of the caller. *)
Definition ref_comp (oc : option nat) C : gmap nat completion :=
  match oc with
  | None => C
  | Some c => alter (λ x, with_c_refs (u32 (c_refs x + 1)) x) c C
  end.

Lemma ref_comp_dom oc C c : is_Some (ref_comp oc C !! c) ↔ is_Some (C !! c).
Proof. destruct oc as [x|]; simpl; [|done]. by rewrite lookup_alter_is_Some. Qed.

Lemma ref_comp_size oc C : size (ref_comp oc C) = size C.
Proof.
  destruct oc as [x|]; simpl; [|done]. rewrite <-!size_dom. by rewrite dom_alter_L.
Qed.

Lemma comps_inv_alloc S C n m T oc sub a :
  comps_inv S C n m T oc → Z.of_nat (size T) < 2 ^ 31 →
  sub_completion sub = oc → sub_completed sub = false → S !! n = None →
  comps_inv (<[n := sub]> S) (ref_comp oc C) (Datatypes.S n) m (<[n := a]> T) oc.
Proof.
  intros HC Hsize Hc Hd Hs.
  assert (∀ c, (size (filter (uses c) S) ≤ size T)%nat) as Hb by (intros; by eapply refs_bound).
  destruct HC as [H1 H2 H3 H4 H5 H6]. split.
  - intros j x c Hx Hxc. rewrite ref_comp_dom.
    destruct (decide (j = n)) as [->|]; simplify_map_eq.
    + split_and!; [done|done|eauto].
    + destruct (H1 j x c Hx Hxc) as (?&?&?). done.
  - intros c comp Hcomp. rewrite refs_to_alloc by done.
    assert (∃ y, C !! c = Some y ∧ comp = (if decide (sub_completion sub = Some c)
      then with_c_refs (u32 (c_refs y + 1)) y else y)) as (y & Hy & ->).
    { rewrite Hc. destruct oc as [x|]; simpl in Hcomp; [|eauto].
      destruct (decide (x = c)) as [->|Hne].
      - rewrite lookup_alter_eq in Hcomp. destruct (C !! c) as [y|]; simplify_eq/=. exists y.
        by rewrite decide_True.
      - rewrite lookup_alter_ne in Hcomp by done. exists comp. by rewrite decide_False by congruence. }
    destruct (H2 c y Hy) as [Hr Hp]. specialize (Hb c).
    assert (refs_to c S oc ≤ size T + 1)%nat by (unfold refs_to; destruct (decide (oc = Some c)); lia).
    destruct (decide (sub_completion sub = Some c)); simpl; [|lia].
    unfold u32. rewrite Z.mod_small; lia.
  - intros c Hoc. rewrite ref_comp_dom. eauto.
  - intros j Hj. rewrite lookup_insert_ne by lia. apply H4. lia.
  - intros c Hj. apply eq_None_not_Some. rewrite ref_comp_dom. rewrite H5 by done. by intros [].
  - intros j Hj. destruct (decide (j = n)) as [->|]; simplify_map_eq; eauto.
Qed.

Lemma shared_inv_alloc_data q T oc infl s i b sub :
  shared_inv q [] T oc infl s → Z.of_nat (size T) < 2 ^ 31 →
  sub_completion sub = oc → sub_fresh (mem s) sub i b →
  shared_inv q [next_sub s] (<[next_sub s := AData i b]> T) oc infl
    (alloc sub (with_comps (ref_comp oc (comps s)) s)).
Proof.
  intros HI Hsize Hc Hf. destruct (next_sub_fresh _ _ _ _ _ _ HI) as (Hs & Ht & Hq & Hh).
  rewrite app_nil_r in Hq.
  destruct HI as [Hcfg Hth Hsu Hco Hcq Hcm]. rewrite app_nil_r in Hsu. split; simpl; try done.
  - destruct Hth. rewrite app_nil_r in *. split; try done.
    + apply NoDup_app. split_and!; [done| |apply NoDup_singleton].
      intros j Hj ->%list_elem_of_singleton. done.
    + intros j k [Hj| ->%list_elem_of_singleton]%elem_of_app; auto.
  - eapply subs_inv_alloc; [done..| |].
    + split; [apply Hf|]. rewrite (sf_completed _ _ _ _ Hf). done.
    + right. by exists i, b.
  - eapply comps_inv_alloc; [done..|apply Hf|done].
  - destruct Hcq. split; try done. by rewrite ref_comp_size.
  - intros [Hp He Hsb Hcc Hce]%Hcm. split; simpl; try done.
    + intros j x. destruct (decide (j = next_sub s)) as [->|]; intros; simplify_map_eq; [|eauto].
      apply Hf.
    + intros j x. destruct oc as [y|]; simpl; [|eauto].
      destruct (decide (j = y)) as [->|]; [|rewrite lookup_alter_ne by done; eauto].
      rewrite lookup_alter_eq. intros (z & Hz & ->)%fmap_Some. simpl. eauto.
Qed.

(** ** Pushing to the work queue *)

(** Tracked submissions bound the work queue. *)
Lemma queue_bound c m S ts T q new :
  subs_inv c m S ts T (q ++ new) → NoDup (q ++ new) →
  (length q + length new ≤ size T)%nat.
Proof.
  intros HS Hnd. rewrite <-length_app.
  rewrite <-(size_list_to_set (C := gset nat)) by done. rewrite <-size_dom.
  apply subseteq_size. intros id Hid%elem_of_list_to_set. apply elem_of_dom.
  destruct (su_queued _ _ _ _ _ _ HS id Hid) as (i & b & sub & ? & _). eauto.
Qed.

Lemma idle_exists ts :
  (0 < idle_count ts)%nat → ∃ k w, ts !! k = Some w ∧ is_idle w = true.
Proof.
  unfold idle_count. intros Hpos.
  destruct (filter (λ w, is_idle w = true) ts) as [|w l] eqn:E; [simpl in Hpos; lia|].
  assert (w ∈ filter (λ w, is_idle w = true) ts) as Hin by (rewrite E; by left).
  apply list_elem_of_filter in Hin as [Hw Hin].
  apply list_elem_of_lookup in Hin as [k Hk]. eauto.
Qed.

Lemma busy_exists ts :
  (idle_count ts < length ts)%nat → ∃ k w, ts !! k = Some w ∧ is_idle w = false.
Proof.
  unfold idle_count. induction ts as [|w ts IH]; simpl; [lia|].
  rewrite filter_cons. case_decide as Hw; simpl.
  - intros Hlt. destruct IH as (k & v & Hk & Hv); [lia|]. by exists (Datatypes.S k), v.
  - intros _. exists 0%nat, w. split; [done|]. by destruct (is_idle w).
Qed.

Lemma waiters_spec ts k : k ∈ waiters ts ↔ ∃ d, ts !! k = Some (WCondWait d).
Proof.
  unfold waiters. rewrite list_elem_of_filter, elem_of_seq. split.
  - intros [Hk _]. destruct (ts !! k) as [w|]; [|done]. destruct w; try done. eauto.
  - intros [d Hk]. rewrite Hk. split; [done|]. apply lookup_lt_Some in Hk. lia.
Qed.

(** The threads after [cond_signal]: unchanged if nobody waits, otherwise one
    waiter is woken. *)
Definition signaled ts ts' : Prop :=
  (waiters ts = [] ∧ ts' = ts) ∨
  ∃ k d, ts !! k = Some (WCondWait d) ∧ ts' = <[k := WWake d]> ts.

Lemma wp_cond_signal nf (Q : unit → shared D → Prop) s :
  (∀ ts' n, signaled (threads s) ts' → Q tt (with_threads ts' (with_n_wake n s))) →
  wp nf cond_signal Q s.
Proof.
  intros HQ. unfold cond_signal. do 4 wp_go.
  destruct (waiters (threads s) !! _) as [k|] eqn:E; wp_go.
  - assert (k ∈ waiters (threads s)) as [d Hd]%waiters_spec by (by eapply list_elem_of_lookup_2).
    simpl. rewrite (alter_wake _ _ _ Hd). apply HQ. right. eauto.
  - replace (with_n_wake (Datatypes.S (n_wake s)) s)
      with (with_threads (threads s) (with_n_wake (Datatypes.S (n_wake s)) s)) by done.
    apply HQ. left. split; [|done].
    destruct (waiters (threads s)) as [|x l] eqn:Ew; [done|].
    apply lookup_ge_None in E. simpl in E.
    pose proof (Nat.mod_upper_bound (wake (n_wake s)) (Datatypes.S (length l)) ltac:(lia)). lia.
Qed.

Section submit.
Context (nf : Prop) (T : gmap nat ablk) (hold : option nat) (infl : Z).
Implicit Types c : config.

(** The push, with the wakeup rule of [hash_pool_submit]: afterwards some
    worker is awake. *)
(** The queue has one more entry, and no thread took or lost a submission. *)
Lemma queued_threads q id s ts' :
  threads_inv (cfg s) (pool s) (threads s) q [id] → r_len (p_queue (pool s)) < r_size (p_queue (pool s)) →
  length ts' = length (threads s) → idle_count ts' = idle_count (threads s) →
  (∀ k, held <$> ts' !! k = held <$> threads s !! k) → (∀ k, ts' !! k ≠ Some WExit) →
  (∃ k w, ts' !! k = Some w ∧ awake w = true) →
  threads_inv (cfg s) (with_p_queue (ring_put (p_queue (pool s)) (Sub id)) (pool s)) ts' (q ++ [id]) [].
Proof.
  intros [] Hroom Hlen Hidle Hheld Hne Haw.
  assert (∀ k j, holds ts' k j → holds (threads s) k j) as Hh.
  { intros k j. unfold holds. specialize (Hheld k).
    destruct (ts' !! k), (threads s !! k); simpl in *; congruence. }
  split; simpl; rewrite ?app_nil_r; try done.
  - rewrite fmap_app. by apply ring_put_repr.
  - intros j k Hj Hk. eapply ti_apart; eauto.
  - eauto.
  - by rewrite Hidle.
  - unfold zlen in *. by rewrite Hlen.
  - unfold zlen in *. by rewrite Hlen.
Qed.

Lemma push_wakeup q id s (Q : Z → shared D → Prop) :
  shared_inv q [id] T hold infl s → p_error (pool s) = 0 →
  r_len (p_queue (pool s)) < r_size (p_queue (pool s)) →
  (∀ s', shared_inv (q ++ [id]) [] T hold infl s' → frame s s' → Q 0 s') →
  wp nf (push_unlocked (Sub id);; p' ← gets pool;
         (if need_wakeup p' then cond_signal else mret tt);; mret 0) Q s.
Proof.
  intros [Hcfg Hth Hsu Hco Hcq Hcm] Hp0 Hroom HQ.
  unfold push_unlocked, queue_access. do 4 wp_go. rewrite (ti_qmem _ _ _ _ _ Hth).
  pose proof (rr_size _ _ (ti_ring _ _ _ _ _ Hth)). destruct (r_size _ =? 0) eqn:?; [lia|]. do 5 wp_go. simpl.
  set (p' := with_p_queue (ring_put (p_queue (pool s)) (Sub id)) (pool s)).
  pose proof (λ ts', queued_threads q id s ts' Hth Hroom) as Hti. fold p' in Hti. destruct Hth.
  assert (∀ ts' n, threads_inv (cfg s) p' ts' (q ++ [id]) [] →
    subs_inv (cfg s) (mem s) (subs s) ts' T (q ++ [id]) →
    Q 0 (with_threads ts' (with_n_wake n (with_pool p' s)))) as Hdone.
  { intros ts' n Ht' Hs'. apply HQ; [|done]. split; simpl; rewrite ?app_nil_r; try done.
    intros [Hp He Hsb Hc Hce]%Hcm. by split. }
  specialize (ti_noexit Hp0).
  assert (∀ k w, threads s !! k = Some w → is_idle w = false → awake w = true) as Hbusy.
  { intros k w Hk Hi. destruct w; try done. by destruct (ti_noexit k). }
  pose proof (co_workers _ Hcfg). pose proof (idle_count_le (threads s)).
  destruct (need_wakeup p') eqn:Hw.
  - apply wp_cond_signal. simpl. intros ts' n [[Hnone ->]|(k & d & Hk & ->)]; wp_go; apply Hdone.
    + apply Hti; [done..|]. unfold need_wakeup in Hw. simpl in Hw.
      destruct (idle_exists (threads s)) as (k & w & Hk & Hi); [lia|].
      exists k, w. split; [done|]. destruct w; try done.
      assert (k ∈ waiters (threads s)) as Hin by (apply waiters_spec; eauto).
      rewrite Hnone in Hin. by apply elem_of_nil in Hin.
    + done.
    + assert (k < length (threads s))%nat by (by eapply lookup_lt_Some). apply Hti.
      * apply length_insert.
      * pose proof (idle_count_insert (threads s) k _ (WWake d) Hk) as Hc. simpl in Hc. lia.
      * intros j. destruct (decide (j = k)) as [->|].
        -- by rewrite list_lookup_insert_eq, Hk by done.
        -- by rewrite list_lookup_insert_ne.
      * intros j [[-> ?]|[_ ?]]%lookup_insert_inv; [done|]. by eapply ti_noexit.
      * exists k, (WWake d). by rewrite list_lookup_insert_eq.
    + eapply subs_inv_thread; [done..| |done]. by apply (su_worker _ _ _ _ _ _ Hsu k _ Hk).
  - do 2 wp_go. apply (Hdone (threads s) (n_wake s)); [|done]. apply Hti; [done..|].
    destruct (busy_exists (threads s)) as (k & w & Hk & Hi); [|exists k, w; eauto].
    unfold need_wakeup, active_workers in Hw. simpl in Hw.
    rewrite ti_idle, ti_count in Hw.
    pose proof (ring_repr_len _ _ ti_ring). unfold zlen, u32 in *.
    rewrite !Z.mod_small in Hw by lia. lia.
Qed.

(** The last new submission is taken back. *)
Lemma threads_inv_withdraw c p ts q id :
  threads_inv c p ts q [id] →
  threads_inv c p ts q [] ∧ ¬ (id ∈ q) ∧ ∀ k, ¬ holds ts k id.
Proof.
  intros []. pose proof ti_nodup as Hnd. apply NoDup_app in Hnd as (Hq & Hd & _).
  assert (id ∈ q ++ [id]) as Hin by (apply elem_of_app; right; by apply list_elem_of_singleton).
  split_and!.
  - split; rewrite ?app_nil_r; try done. intros j k Hj. apply ti_apart, elem_of_app. by left.
  - intros Hiq. apply (Hd id Hiq). by apply list_elem_of_singleton.
  - intros k. by apply ti_apart.
Qed.

Lemma subs_inv_withdraw c m S ts q id sub i b :
  subs_inv c m S ts T (q ++ [id]) → id ∉ q → (∀ k, ¬ holds ts k id) →
  T !! id = Some (AData i b) → sub_index sub = i → sub_error sub ≠ 0 →
  sub_completed sub = true → subs_inv c m (<[id := sub]> S) ts T (q ++ []).
Proof.
  intros [H1 H2 H3] Hnq Hnh Ha Hi He Hc. rewrite app_nil_r. split.
  - intros j Hj. rewrite lookup_insert_ne by (intros <-; done). apply H1, elem_of_app. by left.
  - intros k w Hk. eapply worker_ok_ext; [by eapply H2|]. intros j Hj. split; [|done].
    apply lookup_insert_ne. intros <-. by eapply Hnh, holds_lookup.
  - intros j a Hj. destruct (decide (j = id)) as [->|Hne].
    + exists sub. rewrite lookup_insert_eq. simplify_eq. split_and!; [done| |congruence].
      split; [done|]. intros _. by split.
    + destruct (H3 j a Hj) as (y & Hy & Hix & Hl). exists y. rewrite lookup_insert_ne by done.
      split_and!; [done..|]. intros Hn.
      destruct (Hl Hn) as [[?|?%list_elem_of_singleton]%elem_of_app|?]; [by left|done|by right].
Qed.

(** A submission the pool refused: its error is set and it is completed by the
    caller, who still holds the completion. *)
Lemma refused q id e s (Q : unit → shared D → Prop) :
  shared_inv q [id] T hold infl s → e ≠ 0 → (calm (D := D) (digest_name (cfg s)) → False) →
  (∀ sub, subs s !! id = Some sub → sub_completion sub = None ∨ sub_completion sub = hold) →
  (∀ s', shared_inv q [] T hold infl s' → frame s s' → Q tt s') →
  wp nf (submission_set_error id e;; submission_complete id) Q s.
Proof.
  intros [Hcfg Hth Hsu Hco Hcq Hcm] He Hnc Hown HQ.
  destruct (su_queued _ _ _ _ _ _ Hsu id) as (i & b & sub & Ha & Hs & Hf).
  { apply elem_of_app. right. by apply list_elem_of_singleton. }
  pose proof Hf as [Hfi Hfl Hfe Hfz Hfc Hfd Hfu].
  specialize (Hown sub Hs).
  assert (∀ x, sub_completion sub = Some x → is_Some (comps s !! x)) as Hcomp.
  { intros c' Hc'. by destruct (ci_user _ _ _ _ _ _ Hco id sub c' Hs Hc') as (_&_&?). }
  set (sub' := with_sub_completed true (with_sub_completion None (with_sub_error e sub))).
  destruct (threads_inv_withdraw _ _ _ _ _ Hth) as (Hth' & Hnq & Hnh).
  assert (subs_inv (cfg s) (mem s) (<[id := sub']> (subs s)) (threads s) T (q ++ [])) as Hsu'.
  { by eapply subs_inv_withdraw. }
  wp_go. eapply wp_submission_set_error; [done..|]. simpl.
  unfold submission_complete. wp_go. eapply wp_sub_load; [simpl; apply lookup_insert_eq|].
  wp_go. simpl. destruct (sub_completion sub) as [x|] eqn:Ex.
  - destruct Hown as [?|Hown]; [done|].
    destruct (Hcomp x eq_refl) as [comp Hx]. unfold comp_error. rewrite Hx.
    set (comp1 := if c_error comp =? 0 then with_c_error e comp else comp).
    assert (c_refs comp1 = c_refs comp) as Er by (unfold comp1; by destruct (c_error comp =? 0)).
    destruct (ci_refs _ _ _ _ _ _ Hco x comp Hx) as [Hr Hpos].
    assert (1 < c_refs comp) as Hmore.
    { rewrite Hr, (refs_to_release x _ _ id sub (with_sub_completion None sub)) by done.
      unfold refs_to. rewrite decide_True by done. lia. }
    wp_go. unfold completion_unref. wp_go.
    eapply wp_comp_update; [simpl; apply lookup_insert_eq|]. wp_go.
    eapply wp_comp_load; [simpl; apply lookup_insert_eq|]. simpl.
    replace (u32 (c_refs comp1 - 1)) with (c_refs comp1 - 1)
      by (unfold u32; rewrite Z.mod_small; lia).
    destruct (c_refs comp1 - 1 =? 0) eqn:?; [lia|]. wp_go.
    eapply wp_sub_update; [simpl; apply lookup_insert_eq|]. simpl.
    eapply wp_sub_update; [simpl; apply lookup_insert_eq|]. simpl.
    rewrite !insert_insert_eq. apply HQ; [|split; try done; eapply compl_le_insert; [done|by left]]. split; simpl; try done.
    + rewrite <-(insert_insert_eq (comps s) x _ comp1). eapply comps_inv_release; try done.
      * by eapply comps_inv_comp.
      * apply lookup_insert_eq.
      * lia.
    + by eapply cq_inv_comp.
  - wp_go. eapply wp_sub_update; [simpl; apply lookup_insert_eq|]. simpl.
    assert (with_sub_completed true (with_sub_error e sub) = sub') as ->.
    { unfold sub', with_sub_completed, with_sub_completion, with_sub_error. simpl. by rewrite Ex. }
    rewrite !insert_insert_eq. apply HQ; [|split; try done; eapply compl_le_insert; [done|by left]]. split; simpl; try done.
    eapply comps_inv_sub; try done; by right.
Qed.

Lemma hash_pool_submit_inv c q id s :
  nf ∨ live_env (D := D) c →
  shared_inv q [id] T hold infl s → cfg s = c → Z.of_nat (size T) <= max_submissions c →
  (∀ sub, subs s !! id = Some sub → sub_completion sub = None ∨ sub_completion sub = hold) →
  wp nf (hash_pool_submit id) (λ rc s', ∃ q', shared_inv q' [] T hold infl s' ∧ frame s s' ∧
    (rc ≠ 0 → calm (D := D) (digest_name c) → False)) s.
Proof.
  intros Hnf HI Hc Hsize Hown. unfold hash_pool_submit. wp_go. eapply wp_mono.
  { by apply (yield_inv nf [id] T hold infl c Hnf q). }
  intros _ s1 (q1 & HI1 & Hf1 & _ & _). do 3 wp_go.
  pose proof (fr_cfg _ _ Hf1) as Hc1. rewrite Hc in Hc1.
  rewrite (ti_running _ _ _ _ _ (si_threads _ _ _ _ _ _ HI1)).
  unfold fails. destruct (p_error (pool s1) =? 0) eqn:Ep; simpl.
  - assert (r_len (p_queue (pool s1)) < r_size (p_queue (pool s1))) as Hroom.
    { destruct HI1 as [_ [] Hsu _ _ _]. pose proof (queue_bound _ _ _ _ _ _ _ Hsu ti_nodup).
      rewrite (ring_repr_len _ _ ti_ring), ti_size, Hc1. unfold zlen. rewrite length_fmap.
      simpl in *. lia. }
    destruct (_ =? r_size _) eqn:?; [lia|].
    eapply push_wakeup; [done|lia|done|]. intros s2 HI2 Hf2. wp_go. simpl. do 2 wp_go.
    eexists. split_and!; [done|by etrans|done].
  - assert (calm (D := D) (digest_name c) → False) as Hnc.
    { intros Hcalm. rewrite <-Hc1 in Hcalm. pose proof (cm_pool _ (si_calm _ _ _ _ _ _ HI1 Hcalm)). lia. }
    do 2 wp_go. rewrite Ep. simpl.
    eapply refused; [done|lia|by rewrite Hc1| |].
    + intros sub Hs. destruct (fr_compl _ _ Hf1 id sub Hs) as (sub0 & Hs0 & [?|E]); [by left|].
      rewrite E. auto.
    + intros s2 HI2 Hf2. wp_go. exists q1. split_and!; [done|by etrans|done].
Qed.
End submit.
End caller.
