(* ===== verification/PoolAio.v ===== *)
(** * Completions on the caller side

    Rules for the calls that [blkhash_aio_update] and [blkhash_aio_completions]
    make on completions, the completion queue and its event. *)

From stdpp Require Import prelude list strings gmap.
From Stdlib Require Import ZArith Lia.
From S2P Require Import Prelude Ring State Digest Zero Event Completion Submission Config HashPool.
From S2P Require Import Blkhash PoolInv PoolStep Progress Spec PoolCaller.

Local Open Scope Z_scope.

Section aio.
Context {D : Type} `{DO : !DigestOps D, DL : !DigestLaws D, EV : !Env}.
Context (nf : Prop).
Implicit Types (s : shared D) (T : gmap nat ablk) (C : gmap nat completion).

(** What every operation of the caller leaves alone. *)
Record keeps_shared s s' : Prop := {
  ks_cfg : cfg s' = cfg s;
  ks_mem : mem s' = mem s;
  ks_error : h_error s ≠ 0 → h_error s' = h_error s;
}.

#[global] Instance keeps_shared_refl : Reflexive keeps_shared.
Proof using Type. by split. Qed.

#[global] Instance keeps_shared_trans : Transitive keeps_shared.
Proof using Type.
  intros s1 s2 s3 [H1 H2 H3] [G1 G2 G3]. split; try congruence.
  intros He. rewrite G3; [auto|]. rewrite H3; auto.
Qed.

Lemma frame_keeps s s' : frame s s' → keeps_shared s s'.
Proof using Type. intros []. by split. Qed.

(** ** Taking and dropping the reference of the caller *)

Lemma completion_new_inv ud q T infl s :
  shared_inv q [] T None infl s → infl < queue_depth (cfg s) → 0 <= infl →
  wp nf (completion_new ud) (λ r s', keeps_shared s s' ∧ h_error s' = h_error s ∧
    match r.2 with
    | None => r.1 ≠ 0 ∧ (calm (D := D) (digest_name (cfg s)) → False) ∧
        shared_inv q [] T None (infl + 1) s'
    | Some id => shared_inv q [] T (Some id) (infl + 1) s'
    end) s.
Proof using Type.
  intros [Hcfg Hth Hsu Hco Hcq Hcm] Hroom Hpos. unfold completion_new. do 2 wp_go.
  unfold fails. destruct (fault (n_fault s) =? 0) eqn:E; simpl.
  - do 6 wp_go. simpl. split; [done|]. split; [done|].
    pose proof (ci_next_comp _ _ _ _ _ _ Hco (next_comp s) (Nat.le_refl _)) as Hn.
    split; simpl; try done.
    + destruct Hco as [H1 H2 H3 H4 H5 H6]. split; try done.
      * intros id sub c Hs Hc. destruct (H1 id sub c Hs Hc) as (?&?&?). split_and!; [done..|].
        destruct (decide (c = next_comp s)) as [->|]; by simplify_map_eq.
      * assert (∀ id sub, subs s !! id = Some sub → sub_completion sub ≠ Some (next_comp s)) as Hno.
        { intros id sub Hs Hc. destruct (H1 id sub _ Hs Hc) as (_&_&[]). congruence. }
        intros c comp. destruct (decide (c = next_comp s)) as [->|Hne]; intros Hc; simplify_map_eq.
        -- unfold refs_to. rewrite decide_True by done.
           assert (filter (uses (next_comp s)) (subs s) = ∅) as ->.
           { apply map_empty. intros id. apply map_lookup_filter_None. right. intros sub Hs Hu. by eapply Hno. }
           rewrite map_size_empty. simpl. lia.
        -- destruct (H2 c comp Hc) as [Hr ?]. unfold refs_to in *.
           rewrite decide_False in Hr by done. rewrite decide_False by congruence. done.
      * intros c [= <-]. by simplify_map_eq.
      * intros c Hc. rewrite lookup_insert_ne by lia. apply H5. lia.
    + destruct Hcq. split; try done; [|lia]. rewrite map_size_insert_None by done. lia.
    + intros [Hp Hh Hs Hc Hce]%Hcm. split; simpl; try done. intros id c.
      destruct (decide (id = next_comp s)) as [->|]; intros; simplify_map_eq; eauto.
  - wp_go. split; [done|]. split; [done|]. simpl. split_and!; [lia|intros Hc; by rewrite (calm_fault _ _ Hc) in E|].
    split; simpl; try done.
    + destruct Hcq. split; try done; lia.
    + intros [Hp Hh Hs Hc Hce]%Hcm. by split.
Qed.

Lemma completion_set_error_inv id e q new T infl s (Q : unit → shared D → Prop) :
  shared_inv q new T (Some id) infl s → (calm (D := D) (digest_name (cfg s)) → False) →
  (∀ s', shared_inv q new T (Some id) infl s' → keeps_shared s s' →
    h_error s' = h_error s → Q tt s') →
  wp nf (completion_set_error id e) Q s.
Proof using Type.
  intros [Hcfg Hth Hsu Hco Hcq Hcm] Hnc HQ.
  destruct (ci_hold _ _ _ _ _ _ Hco id eq_refl) as [comp Hc].
  unfold completion_set_error. eapply wp_comp_update; [done|]. apply HQ; [|done..].
  split; simpl; try done.
  - eapply comps_inv_comp; [done..|]. by destruct (c_error comp =? 0).
  - by eapply cq_inv_comp.
Qed.

(** Signalling the event. *)
Lemma event_signal_inv q new T hold infl s :
  nf ∨ calm (D := D) (digest_name (cfg s)) →
  shared_inv q new T hold infl s → 0 < queue_depth (cfg s) →
  wp nf event_signal (λ e s', shared_inv q new T hold infl s' ∧ keeps_shared s s' ∧
    comps s' = comps s ∧ h_error s' = h_error s ∧
    (e ≠ 0 → calm (D := D) (digest_name (cfg s)) → False)) s.
Proof using Type.
  intros Hnf [Hcfg Hth Hsu Hco Hcq Hcm] Hq. destruct (cq_open _ _ _ _ Hcq Hq) as [v Hv].
  eapply wp_event_signal; [done..|]. intros e n v' He. split_and!; try done; [|by intros ? ?%He].
  split; simpl; try done.
  - destruct Hcq. by split.
  - intros [Hp Hh Hs Hc Hce]%Hcm. by split.
Qed.

Lemma set_error_inv e q new T hold infl s (Q : Z → shared D → Prop) :
  shared_inv q new T hold infl s → e ≠ 0 → (calm (D := D) (digest_name (cfg s)) → False) →
  (∀ s', shared_inv q new T hold infl s' → keeps_shared s s' → comps s' = comps s →
    h_error s' ≠ 0 → Q (-1) s') →
  wp nf (set_error e) Q s.
Proof using Type.
  intros HI He Hnc HQ. unfold set_error. do 3 wp_go. destruct (h_error s =? 0) eqn:E; do 2 wp_go.
  - apply HQ; try done; [by apply shared_inv_error|]. split; simpl; try done. lia.
  - apply HQ; try done. lia.
Qed.

(** References of the caller. *)
Lemma refs_to_drop c S : refs_to c S (Some c) = Datatypes.S (refs_to c S None).
Proof using Type. unfold refs_to. rewrite decide_True, decide_False by done. lia. Qed.

Lemma refs_to_drop_ne c c' S : c' ≠ c → refs_to c' S (Some c) = refs_to c' S None.
Proof using Type. intros. unfold refs_to. by rewrite !decide_False by congruence. Qed.

Lemma comps_inv_drop S C n m T c comp :
  comps_inv S C n m T (Some c) → C !! c = Some comp → c_refs comp ≠ 1 →
  comps_inv S (<[c := with_c_refs (c_refs comp - 1) comp]> C) n m T None.
Proof using Type.
  intros [H1 H2 H3 H4 H5 H6] Hc Hne. split; try done.
  - intros id sub x Hs Hx. destruct (H1 id sub x Hs Hx) as (?&?&?). split_and!; [done..|].
    destruct (decide (x = c)) as [->|]; by simplify_map_eq.
  - intros x y. destruct (decide (x = c)) as [->|Hn]; intros Hy; simplify_map_eq; simpl.
    + destruct (H2 c comp Hc) as [Hr Hp]. rewrite refs_to_drop in Hr. lia.
    + destruct (H2 x y Hy) as [Hr Hp]. by rewrite refs_to_drop_ne in Hr.
  - intros x Hx. rewrite lookup_insert_ne; [auto|]. intros ->. rewrite H5 in Hc; done.
Qed.

Lemma comps_inv_drop_last S C n m T c comp :
  comps_inv S C n m T (Some c) → C !! c = Some comp → c_refs comp = 1 →
  comps_inv S (delete c C) n m T None.
Proof using Type.
  intros [H1 H2 H3 H4 H5 H6] Hc H.
  destruct (H2 c comp Hc) as [Hr _]. rewrite refs_to_drop in Hr.
  destruct (refs_to_0 c S None) as [_ Hno]; [lia|].
  split; try done.
  - intros id sub x Hs Hx. destruct (H1 id sub x Hs Hx) as (?&?&?). split_and!; [done..|].
    rewrite lookup_delete_ne; [done|]. intros ->. by eapply Hno.
  - intros x y [Hne Hy]%lookup_delete_Some. destruct (H2 x y Hy) as [Hr' Hp].
    by rewrite refs_to_drop_ne in Hr' by done.
  - intros x Hx. apply lookup_delete_None. auto.
Qed.

(** The caller drops its reference; the last one runs [update_completed]. *)
(** The caller held the last reference; the event is signalled before the completion is
    removed. *)
Lemma last_reference_dropped id q new T infl s comp q' s' :
  shared_inv q new T (Some id) infl s → comps s !! id = Some comp → c_refs comp = 1 →
  (c_error comp = 0 → Forall (λ x, bc_error x = 0) (cq_array (cq s)) → Forall (λ x, bc_error x = 0) (cq_array q')) →
  (∃ q2 n e, s' = with_h_error e (with_n_fault n
      (with_cq q2 (with_comps (<[id := with_c_refs (c_refs comp - 1) comp]> (comps s)) s))) ∧
      cq_inv (cfg s) q2 (delete id (comps s)) infl ∧
      (calm (D := D) (digest_name (cfg s)) → e = h_error s) ∧
      (h_error s ≠ 0 → e = h_error s) ∧ cq_array q2 = cq_array q') →
  shared_inv q new T None infl (with_comps (delete id (comps s')) s') ∧
  keeps_shared s (with_comps (delete id (comps s')) s').
Proof using Type.
  intros [Hcfg Hth Hsu Hco Hcq Hcm] Hc Hr Hcl (q2 & n & e & -> & Hq2 & He & Hst & Harr). simpl. rewrite delete_insert_eq.
  split; [|by split]. split; simpl; try done.
  - eapply comps_inv_drop_last; [done..|]. lia.
  - intros Hcalm. destruct (Hcm Hcalm) as [Hp Hh Hs Hcc Hce]. split; simpl; try done.
    + by rewrite He.
    + intros j x [_ ?]%lookup_delete_Some. eauto.
    + rewrite Harr. eauto.
Qed.

Lemma completion_release_inv id q new T infl s :
  nf ∨ calm (D := D) (digest_name (cfg s)) →
  shared_inv q new T (Some id) infl s →
  wp nf (completion_unref update_completed id) (λ _ s',
    shared_inv q new T None infl s' ∧ keeps_shared s s') s.
Proof using Type.
  intros Hnf HI. pose proof HI as [Hcfg Hth Hsu Hco Hcq Hcm].
  destruct (ci_hold _ _ _ _ _ _ Hco id eq_refl) as [comp Hc].
  destruct (ci_refs _ _ _ _ _ _ Hco id comp Hc) as [Hr Hpos].
  unfold completion_unref. wp_go. eapply wp_comp_update; [done|]. wp_go.
  eapply wp_comp_load; [simpl; apply lookup_insert_eq|]. simpl.
  replace (u32 (c_refs comp - 1)) with (c_refs comp - 1) by (unfold u32; rewrite Z.mod_small; lia).
  destruct (c_refs comp - 1 =? 0) eqn:E.
  - wp_go. unfold update_completed. wp_go.
    eapply (wp_update_completed_push nf infl id); [done|by eapply cq_inv_comp|apply lookup_insert_eq|].
    simpl. intros q' Hq' Hcl.
    assert (0 < queue_depth (cfg s)) as Hqd.
    { pose proof (cq_nonneg _ _ _ _ Hcq). pose proof (cq_bound _ _ _ _ Hcq).
      pose proof (cq_infl _ _ _ _ Hcq).
      destruct (size (comps s)) eqn:Es; [|lia]. apply map_size_empty_inv in Es.
      by rewrite Es in Hc. }
    rewrite delete_insert_eq in Hq'.
    pose proof (λ s', last_reference_dropped id q new T infl s comp q' s' HI Hc ltac:(lia) Hcl) as Hdone.
    destruct (cq_count (cq s) =? 0) eqn:E0.
    + unfold update_completed_notify. wp_go.
      destruct (cq_open _ _ _ _ Hq' Hqd) as [v Hv].
      eapply (wp_event_signal nf (digest_name (cfg s))); [done..|]. simpl. intros e n v' He.
      assert (cq_inv (cfg s) (with_cq_event (Some v') q') (delete id (comps s)) infl) as Hq2.
      { destruct Hq'. by split. }
      unfold fails. destruct (e =? 0) eqn:Ee; simpl.
      * do 3 wp_go. apply Hdone. exists (with_cq_event (Some v') q'), n, (h_error s). by split_and!.
      * unfold set_error. do 4 wp_go. simpl.
        destruct (h_error s =? 0) eqn:Eh; do 6 wp_go; apply Hdone; simpl.
        -- exists (with_cq_event (Some v') q'), n, (- e). split_and!; try done; [intros Hcalm%He; lia|lia].
        -- exists (with_cq_event (Some v') q'), n, (h_error s). by split_and!.
    + do 3 wp_go. apply Hdone. exists q', (n_fault s), (h_error s). by split_and!.
  - wp_go. split; [|done]. split; simpl; try done.
    + eapply comps_inv_drop; [done..|]. lia.
    + by eapply cq_inv_comp.
    + intros [Hp Hh Hs Hcc Hce]%Hcm. split; simpl; try done.
      intros j x. destruct (decide (j = id)) as [->|]; intros; simplify_map_eq; [|eauto].
      simpl. eauto.
Qed.

(** ** Buffers of the user *)

(** Memory in which the buffers that submissions refer to are the same. *)
Definition undisturbed (m : gmap nat (list byte)) s : Prop := ∀ id sub x i off,
  subs s !! id = Some sub → sub_completion sub = Some x → sub_data sub = DUser i off → m !! i = mem s !! i.

Lemma shared_inv_mem q new T hold infl s m :
  shared_inv q new T hold infl s → undisturbed m s → shared_inv q new T hold infl (with_mem m s).
Proof using Type.
  intros [Hcfg Hth Hsu Hco Hcq Hcm] Hm.
  assert (∀ id sub i b, subs s !! id = Some sub → sub_fresh (mem s) sub i b → sub_fresh m sub i b) as Hfr.
  { intros id sub i b Hs []. split; try done.
    destruct (sub_data sub) as [|buf off|bytes] eqn:E; try done.
    destruct (sf_user buf off eq_refl) as [x Hx]. simpl in *. by rewrite (Hm id sub x buf off). }
  split; simpl; try done.
  - destruct Hsu as [H1 H2 H3]. split; [| |done].
    + intros id Hid. destruct (H1 id Hid) as (i & b & sub & ? & ? & ?). eauto 10.
    + intros k w Hk. specialize (H2 k w Hk). destruct w; simpl in *; try done.
      destruct H2 as (? & i & b & sub & ? & ? & ?). eauto 10.
  - intros [Hp Hh Hs Hc Hce]%Hcm. by split.
Qed.

(** With no update in flight no submission refers to a buffer of the user. *)
Lemma undisturbed_idle q new T hold s m : shared_inv q new T hold 0 s → undisturbed m s.
Proof using Type.
  intros [Hcfg Hth Hsu Hco Hcq Hcm] id sub x i off Hs Hx.
  assert (comps s = ∅) as Hnone. { destruct Hcq. apply map_size_empty_iff. lia. }
  destruct (ci_user _ _ _ _ _ _ Hco id sub x Hs Hx) as (_ & _ & [y Hy]). by rewrite Hnone in Hy.
Qed.

(** ** Taking completions *)

Lemma cq_take_inv count q new T hold infl s :
  shared_inv q new T hold infl s → 0 <= count →
  wp nf (cq_take count) (λ r s', zlen r.1 <= infl ∧ zlen r.1 <= count ∧
    shared_inv q new T hold (infl - zlen r.1) s' ∧ keeps_shared s s' ∧ comps s' = comps s ∧
    (r.2 = true → 0 < queue_depth (cfg s)) ∧
    (calm (D := D) (digest_name (cfg s)) → Forall (λ x, bc_error x = 0) r.1)) s.
Proof using Type.
  intros [Hcfg Hth Hsu Hco Hcq Hcm] Hcount. unfold cq_take, MIN. do 2 wp_go.
  destruct Hcq as [Hnn Hb Hi Ha Ho].
  set (n := if count <? cq_count (cq s) then count else cq_count (cq s)).
  assert (0 <= n <= cq_count (cq s) ∧ n <= count) as [Hn Hnc].
  { unfold n. destruct (count <? _) eqn:?; lia. }
  destruct (0 <? n) eqn:E.
  - do 3 wp_go. simpl. rewrite zlen_ztake by lia.
    split_and!; [lia|lia| |done..|lia|intros Hcalm; by apply Forall_take, (cm_cq _ (Hcm Hcalm))].
    split; simpl; try done.
    + split; simpl; try done; try lia.
      destruct (0 <? cq_count (cq s) - n) eqn:?; [|done].
      rewrite zlen_app, zlen_ztake, zlen_zdrop; rewrite ?zlen_zdrop; lia.
    + intros [Hp Hh Hs Hc Hce]%Hcm. split; try done. simpl. case_match; [|done].
      apply Forall_app. split; [by apply Forall_take, Forall_drop|by apply Forall_drop].
  - wp_go. simpl. rewrite zlen_nil. split_and!; try done; [lia|].
    rewrite Z.sub_0_r. by split.
Qed.
End aio.
