(* ===== verification/BlkhashInv.v ===== *)
(** * The invariant of a hash and the computation of the outer digest

    [core] is what keeps the caller safe whatever failed before; [fn] says that
    the blocks consumed so far are the hashed ones followed by what the
    submission queue stands for.  The rules here cover the draining of the
    submission queue into the outer digest. *)

From stdpp Require Import prelude list strings gmap.
From Stdlib Require Import ZArith Lia.
From S2P Require Import Prelude Ring State Digest Zero Event Completion Submission Config HashPool.
From S2P Require Import Blkhash PoolInv PoolStep Progress Spec PoolCaller PoolAio.

Local Open Scope Z_scope.

Definition ablk_index (a : ablk) : Z := match a with AData i _ | AZero i => i end.

(** The submissions in the queue with what they stand for. *)
Definition tracked (ids : list nat) (Q : list ablk) : gmap nat ablk := list_to_map (zip ids Q).

Lemma tracked_cons id ids a Q : tracked (id :: ids) (a :: Q) = <[id := a]> (tracked ids Q).
Proof. done. Qed.

Lemma tracked_None id ids Q : id ∉ ids → tracked ids Q !! id = None.
Proof.
  intros Hid. apply not_elem_of_list_to_map_1. intros Hin.
  apply list_elem_of_fmap in Hin as ([i a] & -> & Hin). by apply elem_of_zip_l in Hin.
Qed.

Lemma tracked_Some id ids Q :
  length ids = length Q → tracked ids Q !! id = None → id ∉ ids.
Proof.
  revert Q. induction ids as [|j ids IH]; intros [|a Q] Hl Ht; try done; [apply not_elem_of_nil|].
  rewrite tracked_cons in Ht. apply lookup_insert_None in Ht as [Ht Hne].
  apply not_elem_of_cons. split; [done|]. apply (IH Q); [simpl in Hl; lia|done].
Qed.

Lemma tracked_delete id ids a Q :
  id ∉ ids → delete id (tracked (id :: ids) (a :: Q)) = tracked ids Q.
Proof. intros Hid. rewrite tracked_cons. by apply delete_insert_id, tracked_None. Qed.

Lemma tracked_snoc ids id Q a :
  length ids = length Q → id ∉ ids →
  tracked (ids ++ [id]) (Q ++ [a]) = <[id := a]> (tracked ids Q).
Proof.
  intros Hl Hid. unfold tracked. rewrite zip_with_app by done. simpl.
  rewrite list_to_map_snoc; [done|]. intros Hin.
  apply list_elem_of_fmap in Hin as ([i b] & -> & Hin). by apply elem_of_zip_l in Hin.
Qed.

Lemma size_tracked ids Q :
  length ids = length Q → NoDup ids → size (tracked ids Q) = length ids.
Proof.
  revert Q. induction ids as [|id ids IH]; intros [|a Q] Hl Hnd; try done.
  apply NoDup_cons in Hnd as [Hn Hnd]. rewrite tracked_cons.
  rewrite map_size_insert_None by (by apply tracked_None). simpl. rewrite IH; auto.
Qed.

Section hash_inv.
Context {D : Type} `{DO : !DigestOps D, DL : !DigestLaws D, EV : !Env}.
Context (nf : Prop) (c : config) (Hnf : nf ∨ live_env (D := D) c).
(** [G]: the contents of the hash are already lost. *)
Context (hold : option nat) (G : Prop).
Implicit Types (s : shared D) (w : world D) (ids : list nat) (Q : list ablk) (B : list (list byte)).

Abbreviation H := (hash (digest_name c)).
Abbreviation zb := (zeros (block_size c)).

(** ** Safety *)

Record core ids Q w : Prop := {
  k_shared : ∃ q, shared_inv q [] (tracked ids Q) hold (inflight (hs w)) (sh w);
  k_cfg : cfg (sh w) = c;
  k_len : length ids = length Q;
  k_nodup : NoDup ids;
  k_ring : ring_repr (sq (hs w)) ids;
  k_size : r_size (sq (hs w)) = max_submissions c;
  k_outer : ∃ d, outer_digest (hs w) = Some d ∧ made_by d (digest_name c);
  k_index : Forall (λ a, ablk_index a < 2 ^ 63) Q;
  k_block : block_index (hs w) < 2 ^ 63;
  k_hashed : - 2 ^ 63 <= hashed_index (hs w);
  k_pending : zlen (b_data (pending (hs w))) = block_size c;
  k_pending_len : 0 <= b_len (pending (hs w)) <= block_size c;
}.

(** What the internal functions keep. *)
Record keeps w w' : Prop := {
  kp_shared : keeps_shared (sh w) (sh w');
  kp_pending : pending (hs w') = pending (hs w);
  kp_length : message_length (hs w') = message_length (hs w);
  kp_inflight : inflight (hs w') = inflight (hs w);
  kp_finalized : finalized (hs w') = finalized (hs w);
}.

#[global] Instance keeps_refl : Reflexive keeps.
Proof using Type. by split. Qed.

#[global] Instance keeps_trans : Transitive keeps.
Proof using Type. intros w1 w2 w3 [] []. split; [by etrans|congruence..]. Qed.

(** ** Contents *)

(** The outer digest has absorbed the digests of the blocks [done]. *)
Definition hashed (done : list (list byte)) w : Prop :=
  ∃ d, outer_digest (hs w) = Some d ∧ absorbed d (digest_name c) (mjoin (H <$> done)) ∧
    hashed_index (hs w) = zlen done.

(** [B] are the blocks consumed so far; [cl]: the queue covers all of them. *)
Record fn (cl : Prop) Q B w : Prop := {
  f_hashed : ∃ done, hashed done w ∧
    B = done ++ expand zb (hashed_index (hs w)) Q (block_index (hs w));
  f_ordered : ordered (hashed_index (hs w)) Q (block_index (hs w));
  f_small : block_index (hs w) <= 2 ^ 62;
  f_closed : cl → closed zb (hashed_index (hs w)) Q (block_index (hs w));
}.

Definition safe w : Prop := ∃ ids Q, core ids Q w.

Definition st (cl : Prop) B w : Prop := ∃ ids Q, core ids Q w ∧ (G ∨ fn cl Q B w).

(** The result of an internal function with status [rc]. *)
Definition post (cl : Prop) B w : Z → world D → Prop := λ rc w',
  keeps w w' ∧ (rc = 0 → st cl B w') ∧ (rc ≠ 0 → safe w' ∧ h_error (sh w') ≠ 0).

Lemma fn_weaken (cl cl' : Prop) Q B w : fn cl Q B w → (cl' → cl) → fn cl' Q B w.
Proof using Type. intros [] Hc. split; auto. Qed.

Lemma not_calm_error ids Q w : core ids Q w → h_error (sh w) ≠ 0 → calm (D := D) (digest_name c) → False.
Proof using Type.
  intros [[q HI] Hc] He Hcalm. apply He. rewrite <-Hc in Hcalm. by apply (si_calm _ _ _ _ _ _ HI Hcalm).
Qed.

Lemma core_cfg ids Q w : core ids Q w → cfg_ok c.
Proof using Type. intros [[q HI] Hc]. rewrite <-Hc. apply HI. Qed.

(** ** Steps that change few fields *)

Lemma world_eta w : World (sh w) (hs w) = w.
Proof using Type. by destruct w. Qed.

(** The shared half moved on. *)
Lemma core_shared ids Q w s :
  core ids Q w → keeps_shared (sh w) s →
  (∃ q, shared_inv q [] (tracked ids Q) hold (inflight (hs w)) s) →
  core ids Q (World s (hs w)).
Proof using Type. intros [] [] HI. split; simpl; try done. congruence. Qed.

Lemma fn_shared cl Q B w s : fn cl Q B w → fn cl Q B (World s (hs w)).
Proof using Type. intros []. by split. Qed.

(** A step of the outer digest. *)
Lemma core_outer ids Q w d h :
  core ids Q w → made_by d (digest_name c) → - 2 ^ 63 <= h →
  core ids Q (World (sh w) (with_hashed_index h (with_outer_digest (Some d) (hs w)))).
Proof using Type. intros [] Hd Hh. split; simpl; eauto. Qed.

(** ** Primitive operations of the caller *)

Lemma wp_config_of ids Q w (P : config → world D → Prop) :
  core ids Q w → P c w → wp nf config_of P w.
Proof using Type. intros Hk HP. unfold config_of. wp_go. by rewrite (k_cfg _ _ _ Hk). Qed.

Lemma wp_next_fault_w ids Q w (P : Z → world D → Prop) :
  core ids Q w →
  (∀ e s, (calm (D := D) (digest_name c) → e = 0) → core ids Q (World s (hs w)) →
    keeps_shared (sh w) s → subs s = subs (sh w) → h_error s = h_error (sh w) →
    P e (World s (hs w))) →
  wp nf (shared_op next_fault) P w.
Proof using Type.
  intros Hk HP. apply wp_shared_op, wp_next_fault. apply HP; [intros Hc; by eapply calm_fault| |done..].
  apply core_shared; [done..|]. destruct (k_shared _ _ _ Hk) as [q HI]. exists q.
  by apply shared_inv_fault.
Qed.

Lemma wp_fail_with e ids Q w (P : Z → world D → Prop) :
  core ids Q w → e ≠ 0 → (calm (D := D) (digest_name c) → False) →
  (∀ w', core ids Q w' → keeps w w' → h_error (sh w') ≠ 0 → P (-1) w') →
  wp nf (fail_with e) P w.
Proof using Type.
  intros Hk He Hnc HP. unfold fail_with. apply wp_shared_op.
  destruct (k_shared _ _ _ Hk) as [q HI].
  eapply set_error_inv; [done|done|by rewrite (k_cfg _ _ _ Hk)|].
  intros s' HI' Hs' _ Hne. apply HP; [|by split|done]. apply core_shared; eauto.
Qed.

Lemma wp_get_error w (P : Z → world D → Prop) :
  P (h_error (sh w)) w → wp nf get_error P w.
Proof using Type. done. Qed.

(** A failed call is reported by [return h->error] or [return -1]. *)
Lemma post_fail cl B ids Q w w' rc :
  core ids Q w' → keeps w w' → h_error (sh w') ≠ 0 → rc ≠ 0 → post cl B w rc w'.
Proof using Type. intros. split_and!; [done|done|]. intros _. split; [by eexists _, _|done]. Qed.

Lemma post_get_error cl B w w' : 
  keeps w w' → safe w' → h_error (sh w') ≠ 0 → wp nf get_error (post cl B w) w'.
Proof using Type. intros. apply wp_get_error. by split_and!. Qed.

Lemma post_trans cl B w w1 rc w2 : keeps w w1 → post cl B w1 rc w2 → post cl B w rc w2.
Proof using Type. intros Hk (Hk2 & H1 & H2). split_and!; [by etrans|done..]. Qed.

(** ** The outer digest *)

Lemma wp_outer_update data ids Q w (P : Z → world D → Prop) :
  core ids Q w →
  (∀ s d err, core ids Q (World s (with_outer_digest (Some d) (hs w))) →
    keeps_shared (sh w) s → subs s = subs (sh w) → h_error s = h_error (sh w) →
    (err ≠ 0 → calm (D := D) (digest_name c) → False) →
    (err = 0 → ∀ d0 m, outer_digest (hs w) = Some d0 → absorbed d0 (digest_name c) m →
      absorbed d (digest_name c) (m ++ data)) →
    P err (World s (with_outer_digest (Some d) (hs w)))) →
  wp nf (outer_update data) P w.
Proof using Type.
  intros Hk HP. unfold outer_update. wp_go.
  eapply wp_next_fault_w; [done|]. intros e s He Hk' Hs Hsub Herr.
  do 3 wp_go. destruct (k_outer _ _ _ Hk) as (d0 & Hd0 & Hm0).
  simpl. rewrite Hd0. wp_go. destruct (d_update e d0 data) as [rc d] eqn:Eu. unfold on_hash.
  do 3 wp_go. apply HP; try done.
  - pose proof (core_outer _ _ _ d (hashed_index (hs w)) Hk') as Ho. destruct w. apply Ho.
    + by eapply d_update_made.
    + apply Hk'.
  - intros Hne Hc. rewrite (He Hc) in Eu. destruct Hc as [_ Ht].
    pose proof (d_update_total (DigestTotal := Ht) d0 data) as Hz. rewrite Eu in Hz. simpl in Hz. lia.
  - intros Hz d1 m E Ha. simplify_eq. assert (rc = 0) as -> by lia. by eapply d_update_ok.
Qed.

Lemma wp_md_bytes md ids Q w (P : list byte → world D → Prop) :
  core ids Q w → zlen md = md_size (digest_name c) → P md w → wp nf (md_bytes md) P w.
Proof using Type.
  intros Hk Hl HP. unfold md_bytes. wp_go. eapply wp_config_of; [done|].
  pose proof (co_md_len _ (core_cfg _ _ _ Hk)) as Hm.
  destruct (zlen md <? md_len c) eqn:?; [lia|]. wp_go. rewrite ztake_all; [done|lia].
Qed.

(** What a step of the outer digest keeps. *)
Record hashing w w' : Prop := {
  ha_keeps : keeps w w';
  ha_sq : sq (hs w') = sq (hs w);
  ha_block : block_index (hs w') = block_index (hs w);
  ha_subs : subs (sh w') = subs (sh w);
}.

#[local] Instance hashing_refl : Reflexive hashing.
Proof using Type. by split. Qed.

#[local] Instance hashing_trans : Transitive hashing.
Proof using Type. intros w1 w2 w3 [] []. split; [by etrans|congruence..]. Qed.

(** One more block in the outer digest. *)
Lemma wp_hash_digest b md ids Q w (k : M (world D) Z) (P : Z → world D → Prop) :
  core ids Q w → md = H b →
  (∀ w', core ids Q w' → hashing w w' → hashed_index (hs w') = s64 (hashed_index (hs w) + 1) →
    (∀ done, hashed done w → zlen done < 2 ^ 63 - 1 → hashed (done ++ [b]) w') → wp nf k P w') →
  (∀ w', core ids Q w' → keeps w w' → h_error (sh w') ≠ 0 → P (-1) w') →
  wp nf (md' ← md_bytes md; err ← outer_update md';
         if fails err then fail_with err
         else on_hash (λ h, with_hashed_index (s64 (hashed_index h + 1)) h);; k) P w.
Proof using Type.
  intros Hk -> Hok Hfail. wp_go. eapply wp_md_bytes; [done|apply hash_size|]. wp_go.
  eapply wp_outer_update; [done|]. intros s d err Hk1 Hs Hsub Herr Hnc Habs.
  unfold fails. destruct (err =? 0) eqn:E; simpl.
  - unfold on_hash. do 2 wp_go. simpl.
    apply Hok; simpl; [|by split; [split|..]|done|].
    + destruct (k_outer _ _ _ Hk1) as (d' & [= <-] & Hd).
      apply (core_outer _ _ _ d (s64 (hashed_index (hs w) + 1))) in Hk1; [done..|].
      unfold s64. pose proof (Z.mod_pos_bound (hashed_index (hs w) + 1 + 2 ^ 63) (2 ^ 64)). lia.
    + intros done (d0 & Hd0 & Ha & Hi) Hlt. exists d. simpl. split_and!; [done| |].
      * rewrite fmap_app, join_app. simpl. rewrite app_nil_r. eapply Habs; [lia|done..].
      * rewrite Hi, zlen_app. pose proof (zlen_nonneg done). unfold s64.
        rewrite Z.mod_small by lia. change (zlen [b]) with 1. lia.
  - eapply wp_fail_with; [done|lia|apply Hnc; lia|]. intros w' Hk' Hkp Hne.
    apply Hfail; try done. etrans; [|done]. by split.
Qed.

(** The zero blocks before [index]. *)
Lemma hash_zero_blocks_inv fuel index ids Q w (P : Z → world D → Prop) :
  core ids Q w → index < 2 ^ 63 → (Z.to_nat (index - hashed_index (hs w)) ≤ fuel)%nat →
  (∀ w', core ids Q w' → hashing w w' →
    (∀ done, hashed done w → zlen done <= index →
      hashed (done ++ zrun zb (index - zlen done)) w') → P 0 w') →
  (∀ w', core ids Q w' → keeps w w' → h_error (sh w') ≠ 0 → P (-1) w') →
  wp nf (hash_zero_blocks fuel index) P w.
Proof using Type.
  revert w. induction fuel as [|fuel IH]; intros w Hk Hi Hf Hok Hfail; simpl; do 2 wp_go.
  all: destruct (hashed_index (hs w) <? index) eqn:E; [|wp_go; apply Hok; try done;
    intros done Hd Hle; pose proof Hd as (d & _ & _ & Hh);
    replace (index - zlen done) with 0 by lia; by rewrite zrun_0, app_nil_r].
  - lia.
  - wp_go. eapply wp_config_of; [done|].
    eapply (wp_hash_digest zb); [done|apply (co_zero_md _ (core_cfg _ _ _ Hk))| |done].
    intros w1 Hk1 Hw1 Hi1 Hd1. pose proof (k_hashed _ _ _ Hk) as Hlo.
    replace (s64 (hashed_index (hs w) + 1)) with (hashed_index (hs w) + 1) in Hi1
      by (unfold s64; rewrite Z.mod_small; lia).
    apply IH; [done|done|lia| |].
    + intros w2 Hk2 Hw2 Hd2. apply Hok; [done|by etrans|]. intros done Hd Hle.
      pose proof Hd as (d & _ & _ & Hh). specialize (Hd2 _ (Hd1 _ Hd ltac:(lia))).
      rewrite <-app_assoc, zlen_app in Hd2. change (zlen [zb]) with 1 in Hd2.
      replace (index - zlen done) with (1 + (index - (zlen done + 1))) by lia.
      rewrite zrun_add by lia. apply Hd2. lia.
    + intros w2 Hk2 Hw2 Hne. apply Hfail; try done. etrans; [apply Hw1|done].
Qed.

(** Adding a completed submission, popped from the queue. *)
(** The zero blocks before block [i] were hashed. *)
Definition zeros_hashed i w w1 : Prop :=
  hashing w w1 ∧ ∀ done, hashed done w → zlen done <= i → hashed (done ++ zrun zb (i - zlen done)) w1.

(** A submission of zeros was taken: its own block is hashed with the next ones. *)
Lemma zeros_popped cl sub a Q B w w1 :
  sub_is c sub a → sub_completed sub = true → sub_zero sub = true → sub_error sub = 0 → fn cl (a :: Q) B w →
  zeros_hashed (ablk_index a) w w1 → fn cl Q B w1.
Proof using Type.
  intros Hi Hc Hz Ee [(done & Hd & HB) Ho Hsm Hcl] [Hw1 Hd1]. pose proof Hd as (d & Hd0 & Ha & Hh).
  assert (ordered (ablk_index a) Q (block_index (hs w)) ∧ hashed_index (hs w) <= ablk_index a ∧
    B = done ++ zrun zb (ablk_index a - zlen done) ++ expand zb (ablk_index a) Q (block_index (hs w)) ∧
    (cl → closed zb (ablk_index a) Q (block_index (hs w)))) as (Ho' & Hle & HB' & Hcl').
  { rewrite <-Hh. destruct a as [i b|i]; simpl in Ho, HB |- *.
    - destruct Hi as [_ Hi]. destruct (Hi Hc) as [_ Hr]. specialize (Hr Ee).
      rewrite Hz in Hr. subst b. split_and!; [by eapply ordered_weaken; [apply Ho|lia]|lia| |].
      + rewrite HB. f_equal. f_equal. rewrite (expand_zeros zb (i + 1) i) by (try apply Ho; lia).
        replace (i + 1 - i) with 1 by lia. by rewrite zrun_1.
      + intros Hx. by apply (closed_pop_data _ _ _ _ _ _ (Hcl Hx)).
    - split_and!; [apply Ho|lia|done|]. intros Hx. by eapply closed_pop_zero, Hcl. }
  rewrite Hh in Hle. specialize (Hd1 done Hd Hle).
  assert (hashed_index (hs w1) = ablk_index a) as Hi1.
  { destruct Hd1 as (? & _ & _ & ->). rewrite zlen_app, zlen_zrun by lia. lia. }
  pose proof (ha_block _ _ Hw1) as Hb1.
  split; rewrite ?Hi1, ?Hb1; try done. eexists. split; [done|]. by rewrite <-app_assoc.
Qed.

(** A data block was taken and hashed. *)
Lemma data_popped cl i b Q B w w1 w2 :
  fn cl (AData i b :: Q) B w → zeros_hashed i w w1 → hashing w1 w2 →
  (∀ done, hashed done w1 → zlen done < 2 ^ 63 - 1 → hashed (done ++ [b]) w2) → fn cl Q B w2.
Proof using Type.
  intros [(done & Hd & HB) Ho Hsm Hcl] [Hw1 Hd1] Hw2 Hd2. pose proof Hd as (d & Hd0 & Ha & Hh). simpl in Ho, HB.
  specialize (Hd1 done Hd ltac:(lia)). pose proof (ordered_le _ _ _ (proj2 Ho)).
  assert (zlen (done ++ zrun zb (i - zlen done)) = i) as Hl by (rewrite zlen_app, zlen_zrun; lia).
  specialize (Hd2 _ Hd1 ltac:(lia)).
  assert (hashed_index (hs w2) = i + 1) as Hi3.
  { destruct Hd2 as (? & _ & _ & ->). rewrite zlen_app, Hl. done. }
  pose proof (ha_block _ _ Hw1) as Hb1. pose proof (ha_block _ _ Hw2) as Hb2.
  rewrite Hb1 in Hb2. split; rewrite ?Hi3, ?Hb2; try done; try apply Ho.
  - eexists. split; [done|]. rewrite HB, Hh, <-!app_assoc. done.
  - intros Hx. by apply (closed_pop_data _ _ _ _ _ _ (Hcl Hx)).
Qed.

Lemma hash_submission_inv cl id sub a ids Q B w :
  core ids Q w → subs (sh w) !! id = Some sub → sub_completed sub = true → sub_is c sub a →
  ablk_index a < 2 ^ 63 → (G ∨ fn cl (a :: Q) B w) →
  wp nf (hash_submission id) (λ rc w', keeps w w' ∧
    (rc = 0 → core ids Q w' ∧ (G ∨ fn cl Q B w') ∧ subs (sh w') = subs (sh w)) ∧
    (rc ≠ 0 → safe w' ∧ h_error (sh w') ≠ 0)) w.
Proof using Type.
  intros Hk Hs Hc Hi Hidx Hfn. unfold hash_submission. wp_go. apply wp_shared_op.
  eapply wp_sub_load; [done|]. rewrite world_eta.
  assert (sub_index sub = ablk_index a) as Hia.
  { destruct a as [i b|i]; simpl in Hi; by destruct Hi as [? _]. }
  unfold fails. destruct (sub_error sub =? 0) eqn:Ee; simpl.
  2:{ eapply wp_fail_with; [done|lia| |].
      - intros Hcalm. destruct (k_shared _ _ _ Hk) as [q HI]. rewrite <-(k_cfg _ _ _ Hk) in Hcalm.
        pose proof (cm_subs _ (si_calm _ _ _ _ _ _ HI Hcalm) id sub Hs). lia.
      - intros w' Hk' Hkp Hne. split_and!; [done|done|]. intros _. split; [by eexists _, _|done]. }
  do 3 wp_go. rewrite Hia.
  eapply hash_zero_blocks_inv; [done|lia|done| |].
  2:{ intros w' Hk' Hkp Hne. simpl. wp_go. split_and!; [done|done|].
      intros _. split; [by eexists _, _|done]. }
  intros w1 Hk1 Hw1 Hd1. simpl.
  assert (sub_zero sub = false → ∃ i b, a = AData i b ∧ sub_md sub = H b) as Hdata.
  { intros Hz. destruct a as [i b|i]; simpl in Hi; [|destruct Hi as (_ & ? & _); congruence].
    destruct Hi as [_ Hi]. destruct (Hi Hc) as [_ Hr]. specialize (Hr ltac:(lia)).
    rewrite Hz in Hr. eauto. }
  destruct (sub_zero sub) eqn:Ez; simpl.
  - wp_go. split_and!; [apply Hw1| |done]. intros _. split_and!; [done| |apply Hw1].
    destruct Hfn as [?|Hfn]; [by left|right]. eapply (zeros_popped cl sub a); [done|done|done|lia|done|by split].
  - destruct (Hdata eq_refl) as (i & b & -> & Hmd). simpl in *.
    eapply (wp_hash_digest b); [done|done| |].
    + intros w2 Hk2 Hw2 Hi2 Hd2. wp_go. split_and!; [etrans; [apply Hw1|apply Hw2]| |done].
      intros _. split_and!; [done| |by rewrite (ha_subs _ _ Hw2); apply Hw1].
      destruct Hfn as [?|Hfn]; [by left|right]. by eapply (data_popped cl i b); [|split|..].
    + intros w2 Hk2 Hw2 Hne. split_and!; [etrans; [apply Hw1|done]|done|].
      intros _. split; [by eexists _, _|done].
Qed.
End hash_inv.
