(* ===== verification/BlkhashOps.v ===== *)
(** * Queueing and draining blocks

    The functions of blkhash.c between the public API and the outer digest:
    each of them keeps [core], consumes exactly the blocks it was given, and
    fails only by setting the error of the hash. *)

From stdpp Require Import prelude list strings gmap.
From Stdlib Require Import ZArith Lia.
From S2P Require Import Prelude Ring State Digest Zero Event Completion Submission Config HashPool.
From S2P Require Import Blkhash PoolInv PoolStep Progress Spec PoolCaller PoolAio BlkhashInv.

Local Open Scope Z_scope.

Section ops.
Context {D : Type} `{DO : !DigestOps D, DL : !DigestLaws D, EV : !Env}.
Context (nf : Prop) (c : config) (Hnf : nf ∨ live_env (D := D) c).
Context (hold : option nat) (G : Prop).
Implicit Types (s : shared D) (w : world D) (ids : list nat) (Q : list ablk) (B : list (list byte)).

Local Abbreviation core := (core c hold).
Local Abbreviation fn := (fn c).
Local Abbreviation st := (st c hold G).
Local Abbreviation safe := (safe c hold).
Local Abbreviation post := (post c hold G).
Local Abbreviation zb := (zeros (block_size c)).

(** The contents only depend on three fields. *)
Lemma fn_ext cl Q B w w' :
  fn cl Q B w → outer_digest (hs w') = outer_digest (hs w) →
  hashed_index (hs w') = hashed_index (hs w) → block_index (hs w') = block_index (hs w) →
  fn cl Q B w'.
Proof using Type.
  intros [(done & (d & Hd & Ha & Hh) & HB) Ho Hs Hc] E1 E2 E3.
  split; rewrite ?E2, ?E3; try done. exists done. split; [|done].
  exists d. by rewrite E1, E2.
Qed.

(** ** Taking the first submission *)

Lemma core_pop id ids a Q w s q sub :
  core (id :: ids) (a :: Q) w → keeps_shared (sh w) s →
  shared_inv q [] (tracked (id :: ids) (a :: Q)) hold (inflight (hs w)) s →
  subs s !! id = Some sub → sub_completed sub = true →
  core ids Q (World s (with_sq (ring_drop (sq (hs w))) (hs w))).
Proof using Type.
  intros [] Hks HI Hs Hc. apply NoDup_cons in k_nodup as [Hid Hnd].
  apply Forall_cons in k_index as [_ Hidx].
  split; simpl; try done.
  - exists q. rewrite <-(tracked_delete id ids a Q) by done. by eapply shared_inv_forget.
  - rewrite (ks_cfg _ _ Hks). done.
  - simpl in k_len. lia.
  - by eapply ring_drop_repr.
Qed.

Lemma wp_queue_pop id ids a Q w (P : Z * option nat * ring nat → world D → Prop) :
  core (id :: ids) (a :: Q) w → P (0, Some id, ring_drop (sq (hs w))) w →
  wp nf (submission_queue_pop (sq (hs w))) P w.
Proof using Type.
  intros Hk HP. pose proof (k_ring _ _ _ _ _ Hk) as Hr. pose proof (rr_size _ _ Hr).
  unfold submission_queue_pop. rewrite (ring_repr_len _ _ Hr).
  destruct (zlen (id :: ids) =? 0) eqn:E; [rewrite zlen_cons in E; pose proof (zlen_nonneg ids); lia|].
  destruct (r_size _ =? 0) eqn:?; [lia|]. wp_go. by rewrite (ring_peek_repr _ _ _ Hr).
Qed.

Lemma wp_queue_first ids Q w (P : option nat → world D → Prop) :
  core ids Q w → P (head ids) w → wp nf (submission_queue_first (sq (hs w))) P w.
Proof using Type.
  intros Hk HP. pose proof (k_ring _ _ _ _ _ Hk) as Hr. unfold submission_queue_first.
  rewrite (ring_repr_len _ _ Hr). destruct ids as [|id ids]; [by wp_go|].
  destruct (0 <? zlen (id :: ids)) eqn:E; [|rewrite zlen_cons in E; pose proof (zlen_nonneg ids); lia].
  wp_go. eapply wp_derefM; [by eapply ring_peek_repr|]. by wp_go.
Qed.

(** Hash a popped submission and free it. *)
Lemma wp_hash_popped cl id sub a ids Q B w (k : M (world D) Z) (P : Z → world D → Prop) :
  core ids Q w → id ∉ ids → subs (sh w) !! id = Some sub → sub_completed sub = true →
  sub_is c sub a → ablk_index a < 2 ^ 63 → (G ∨ fn cl (a :: Q) B w) →
  (∀ w', keeps w w' → core ids Q w' → (G ∨ fn cl Q B w') → wp nf k P w') →
  (∀ w', keeps w w' → safe w' → h_error (sh w') ≠ 0 → P (h_error (sh w')) w') →
  wp nf (rc ← hash_submission id;
         if fails rc then get_error else shared_op (submission_destroy id);; k) P w.
Proof using Type.
  intros Hk Hid Hs Hc Hi Hidx Hfn Hok Hfail. wp_go.
  eapply wp_mono; [by eapply hash_submission_inv|]. intros rc w1 (Hkp & H0 & Hne).
  unfold fails. destruct (rc =? 0) eqn:E; simpl.
  - destruct (H0 ltac:(lia)) as (Hk1 & Hfn1 & Hsub). wp_go. apply wp_shared_op.
    unfold submission_destroy. wp_go. eapply wp_sub_load; [by rewrite Hsub|]. wp_go.
    apply Hok.
    + etrans; [done|]. by split.
    + apply core_shared; [done..|]. destruct (k_shared _ _ _ _ _ Hk1) as [q HI]. exists q.
      apply shared_inv_destroy; [done|]. by apply tracked_None.
    + destruct Hfn1 as [?|?]; [by left|right]. by apply fn_shared.
  - destruct (Hne ltac:(lia)). apply wp_get_error. by apply Hfail.
Qed.

(** ** Draining *)

Definition room w : Prop := r_len (sq (hs w)) < r_size (sq (hs w)).

Lemma post_st cl B w w' : keeps w w' → st cl B w' → post cl B w 0 w'.
Proof using Type. intros Hk Hs. by split_and!. Qed.

Lemma post_error cl B w w' :
  keeps w w' → safe w' → h_error (sh w') ≠ 0 → post cl B w (h_error (sh w')) w'.
Proof using Type. intros. by split_and!. Qed.

(** Waiting for the submission at the head of the queue. *)
Lemma wp_wait_first id ids a Q w (P : unit → world D → Prop) :
  core (id :: ids) (a :: Q) w →
  (∀ s q sub, shared_inv q [] (tracked (id :: ids) (a :: Q)) hold (inflight (hs w)) s →
    keeps_shared (sh w) s → subs s !! id = Some sub → sub_is c sub a → sub_completed sub = true →
    P tt (World s (hs w))) →
  wp nf (shared_op (submission_wait yield id)) P w.
Proof using Hnf.
  intros Hk HP. apply wp_shared_op. destruct (k_shared _ _ _ _ _ Hk) as [q HI].
  eapply wp_mono.
  { eapply (submission_wait_inv nf [] _ _ _ c Hnf q _ id a HI); [apply Hk| |apply not_elem_of_nil].
    rewrite tracked_cons. apply lookup_insert_eq. }
  intros [] s (q' & HI' & Hf & sub & Hs & Hi & Hc). eapply HP; eauto using frame_keeps.
  rewrite (fr_cfg _ _ Hf) in Hi. by rewrite (k_cfg _ _ _ _ _ Hk) in Hi.
Qed.

Lemma maybe_hash_first_inv cl B w :
  st cl B w →
  wp nf maybe_hash_first_submission (λ rc w', post cl B w rc w' ∧ (rc = 0 → room w')) w.
Proof using Hnf.
  intros (ids & Q & Hk & Hfn). unfold maybe_hash_first_submission, submission_queue_full. do 2 wp_go.
  pose proof (k_ring _ _ _ _ _ Hk) as Hr.
  destruct (r_len _ =? r_size _) eqn:E; simpl.
  2:{ wp_go. split; [apply post_st; [done|by eexists _, _]|]. intros _.
      pose proof (rr_fits _ _ Hr). unfold room. rewrite (ring_repr_len _ _ Hr) in *. lia. }
  destruct (ring_repr_cons _ _ Hr) as (id & ids' & ->); [pose proof (rr_size _ _ Hr); lia|].
  destruct Q as [|a Q]; [by pose proof (k_len _ _ _ _ _ Hk)|].
  wp_go. eapply wp_queue_pop; [done|]. unfold on_hash. do 2 wp_go. change (fails 0) with false. cbv iota. do 3 wp_go.
  (* the queue shrinks before the wait, the submission is forgotten after it *)
  apply wp_shared_op. destruct (k_shared _ _ _ _ _ Hk) as [q HI]. simpl.
  eapply wp_mono.
  { eapply (submission_wait_inv nf [] _ _ _ c Hnf q _ id a HI); [apply Hk| |apply not_elem_of_nil].
    rewrite tracked_cons. apply lookup_insert_eq. }
  intros [] s (q' & HI' & Hf & sub & Hs & Hi & Hc).
  rewrite (fr_cfg _ _ Hf), (k_cfg _ _ _ _ _ Hk) in Hi.
  pose proof (core_pop _ _ _ _ _ _ _ _ Hk (frame_keeps _ _ Hf) HI' Hs Hc) as Hk1.
  pose proof (k_nodup _ _ _ _ _ Hk) as [Hid _]%NoDup_cons.
  pose proof (k_index _ _ _ _ _ Hk) as [Hidx _]%Forall_cons.
  eapply (wp_hash_popped cl id sub a); [done..| | |].
  - destruct Hfn as [?|?]; [by left|right]. by eapply fn_ext.
  - intros w' Hkp Hk' Hfn'. wp_go. split.
    + apply post_st; [etrans; [|done]; by split; [apply frame_keeps|..]|by eexists _, _].
    + intros _. unfold room. pose proof (k_ring _ _ _ _ _ Hk') as Hr'.
      rewrite (ring_repr_len _ _ Hr'), (k_size _ _ _ _ _ Hk').
      rewrite (ring_repr_len _ _ Hr), (k_size _ _ _ _ _ Hk) in E. rewrite zlen_cons in E. lia.
  - intros w' Hkp Hsafe Hne. split; [|done]. apply post_error; try done.
    etrans; [|done]. by split; [apply frame_keeps|..].
Qed.

(** Whether the submission at the head of the queue is completed. *)
Lemma wp_first_completed id ids a Q w (P : bool → world D → Prop) :
  core (id :: ids) (a :: Q) w →
  (∀ s q sub, shared_inv q [] (tracked (id :: ids) (a :: Q)) hold (inflight (hs w)) s →
    keeps_shared (sh w) s → subs s !! id = Some sub → sub_is c sub a →
    P (sub_completed sub) (World s (hs w))) →
  wp nf (shared_op (submission_is_completed yield id)) P w.
Proof using Hnf.
  intros Hk HP. apply wp_shared_op. destruct (k_shared _ _ _ _ _ Hk) as [q HI].
  unfold submission_is_completed. wp_go. eapply wp_mono.
  { apply (yield_inv nf [] _ _ _ c Hnf q _ HI). apply Hk. }
  intros _ s (q' & HI' & Hf & _). 
  destruct (live_uncompleted _ _ _ _ q' s id a HI') as (sub & Hs & Hi & _).
  { rewrite tracked_cons. apply lookup_insert_eq. }
  { apply not_elem_of_nil. }
  wp_go. eapply wp_sub_load; [done|]. wp_go. eapply HP; eauto using frame_keeps.
  rewrite (fr_cfg _ _ Hf) in Hi. by rewrite (k_cfg _ _ _ _ _ Hk) in Hi.
Qed.

(** Pop, hash and free a completed submission at the head of the queue. *)
Lemma wp_drain_first cl id ids a Q B w s q sub (k : M (world D) Z) (P : Z → world D → Prop) :
  core (id :: ids) (a :: Q) w → (G ∨ fn cl (a :: Q) B w) →
  shared_inv q [] (tracked (id :: ids) (a :: Q)) hold (inflight (hs w)) s →
  keeps_shared (sh w) s → subs s !! id = Some sub → sub_is c sub a → sub_completed sub = true →
  (∀ w', keeps w w' → core ids Q w' → (G ∨ fn cl Q B w') → wp nf k P w') →
  (∀ w', keeps w w' → safe w' → h_error (sh w') ≠ 0 → P (h_error (sh w')) w') →
  wp nf ('(_, _, r) ← submission_queue_pop (sq (hs w)); on_hash (with_sq r);;
         rc ← hash_submission id;
         if fails rc then get_error else shared_op (submission_destroy id);; k) P (World s (hs w)).
Proof using Type.
  intros Hk Hfn HI Hks Hs Hi Hc Hok Hfail.
  assert (core (id :: ids) (a :: Q) (World s (hs w))) as Hk0 by (apply core_shared; eauto).
  wp_go. eapply (wp_queue_pop _ _ _ _ (World s (hs w))); [done|]. unfold on_hash. do 2 wp_go. simpl.
  pose proof (core_pop _ _ _ _ _ _ _ _ Hk Hks HI Hs Hc) as Hk1.
  pose proof (k_nodup _ _ _ _ _ Hk) as [Hid _]%NoDup_cons.
  pose proof (k_index _ _ _ _ _ Hk) as [Hidx _]%Forall_cons.
  eapply (wp_hash_popped cl id sub a); [done..| | |].
  - destruct Hfn as [?|?]; [by left|right]. by eapply fn_ext.
  - intros w' Hkp. apply Hok. etrans; [|done]. by split.
  - intros w' Hkp. apply Hfail. etrans; [|done]. by split.
Qed.

Lemma hash_completed_loop_inv fuel cl ids Q B w :
  core ids Q w → (G ∨ fn cl Q B w) → (length ids ≤ fuel)%nat →
  wp nf (hash_completed_loop fuel) (post cl B w) w.
Proof using Hnf.
  revert ids Q w. induction fuel as [|fuel IH]; intros ids Q w Hk Hfn Hlen.
  all: simpl; do 3 wp_go; (eapply wp_queue_first; [done|]); destruct ids as [|id ids]; simpl in *;
    [wp_go; apply post_st; [done|by eexists _, _]|].
  - lia.
  - destruct Q as [|a Q]; [by pose proof (k_len _ _ _ _ _ Hk)|].
    wp_go. eapply wp_first_completed; [done|]. intros s q sub HI Hks Hs Hi.
    destruct (sub_completed sub) eqn:Hc; simpl.
    + eapply (wp_drain_first cl); [done..| |].
      * intros w' Hkp Hk' Hfn'. eapply wp_mono; [apply (IH ids Q w'); [done..|lia]|].
        intros rc w2 Hp. by eapply post_trans.
      * intros w' Hkp Hsafe Hne. by apply post_error.
    + wp_go. apply post_st; [by split|]. exists (id :: ids), (a :: Q). split.
      * apply core_shared; eauto.
      * destruct Hfn as [?|?]; [by left|right]. by apply fn_shared.
Qed.

Lemma hash_completed_inv cl B w :
  st cl B w → wp nf hash_completed_submissions (post cl B w) w.
Proof using Hnf.
  intros (ids & Q & Hk & Hfn). unfold hash_completed_submissions. do 2 wp_go.
  eapply hash_completed_loop_inv; [done..|].
  rewrite (ring_repr_len _ _ (k_ring _ _ _ _ _ Hk)). unfold zlen. lia.
Qed.

Lemma hash_inflight_loop_inv fuel cl ids Q B w :
  core ids Q w → (G ∨ fn cl Q B w) → (length ids ≤ fuel)%nat →
  wp nf (hash_inflight_loop fuel) (λ rc w', post cl B w rc w' ∧
    (rc = 0 → core [] [] w' ∧ (G ∨ fn cl [] B w'))) w.
Proof using Hnf.
  revert ids Q w. induction fuel as [|fuel IH]; intros ids Q w Hk Hfn Hlen.
  all: simpl; do 3 wp_go; (eapply wp_queue_first; [done|]); destruct ids as [|id ids]; simpl in *;
    [destruct Q; [|by pose proof (k_len _ _ _ _ _ Hk)];
     wp_go; split; [apply post_st; [done|by eexists _, _]|done]|].
  - lia.
  - destruct Q as [|a Q]; [by pose proof (k_len _ _ _ _ _ Hk)|].
    wp_go. eapply wp_wait_first; [done|]. intros s q sub HI Hks Hs Hi Hc.
    eapply (wp_drain_first cl); [done..| |].
    + intros w' Hkp Hk' Hfn'. eapply wp_mono; [apply (IH ids Q w'); [done..|lia]|].
      intros rc w2 [Hp Hz]. split; [by eapply post_trans|done].
    + intros w' Hkp Hsafe Hne. split; [by apply post_error|done].
Qed.

Lemma hash_inflight_inv cl B w :
  st cl B w → wp nf hash_inflight_submissions (λ rc w', post cl B w rc w' ∧
    (rc = 0 → core [] [] w' ∧ (G ∨ fn cl [] B w'))) w.
Proof using Hnf.
  intros (ids & Q & Hk & Hfn). unfold hash_inflight_submissions. do 2 wp_go.
  eapply hash_inflight_loop_inv; [done..|].
  rewrite (ring_repr_len _ _ (k_ring _ _ _ _ _ Hk)). unfold zlen. lia.
Qed.

(** ** Queueing a submission *)

(** Room in the queue, after the first submission was drained. *)
Lemma wp_drain_room cl B w (k : M (world D) Z) (P : Z → world D → Prop) :
  st cl B w →
  (∀ w' ids Q, keeps w w' → core ids Q w' → (G ∨ fn cl Q B w') → room w' → wp nf k P w') →
  (∀ w', keeps w w' → safe w' → h_error (sh w') ≠ 0 → P (h_error (sh w')) w') →
  wp nf (rc ← maybe_hash_first_submission; if fails rc then get_error else k) P w.
Proof using Hnf.
  intros Hst Hok Hfail. wp_go. eapply wp_mono; [by eapply maybe_hash_first_inv|].
  intros rc w1 [(Hkp & H0 & Hne) Hroom]. unfold fails. destruct (rc =? 0) eqn:E; simpl.
  - destruct (H0 ltac:(lia)) as (ids & Q & Hk & Hfn). eapply Hok; eauto. apply Hroom. lia.
  - destruct (Hne ltac:(lia)). apply wp_get_error. by apply Hfail.
Qed.

(** Completed submissions are drained at the end of a submit. *)
Lemma wp_drain_completed cl B w w' :
  keeps w w' → st cl B w' →
  wp nf (rc ← hash_completed_submissions; if fails rc then get_error else mret 0) (post cl B w) w'.
Proof using Hnf.
  intros Hkp Hst. wp_go. eapply wp_mono; [by eapply hash_completed_inv|].
  intros rc w2 (Hkp2 & H0 & Hne). unfold fails. destruct (rc =? 0) eqn:E; simpl.
  - wp_go. apply post_st; [by etrans|]. apply H0. lia.
  - destruct (Hne ltac:(lia)). apply wp_get_error, post_error; [by etrans|done..].
Qed.

Lemma wp_queue_submission id ids w (P : Z → world D → Prop) :
  ring_repr (sq (hs w)) ids → room w →
  (ring_repr (ring_put (sq (hs w)) id) (ids ++ [id]) →
    P 0 (World (sh w) (with_sq (ring_put (sq (hs w)) id) (hs w)))) →
  wp nf (queue_submission id) P w.
Proof using Type.
  intros Hr Hroom HP. unfold queue_submission. do 3 wp_go. unfold submission_queue_push.
  unfold room in Hroom. pose proof (rr_size _ _ Hr).
  destruct (r_len _ =? _) eqn:?; [lia|]. destruct (r_size _ =? 0) eqn:?; [lia|].
  unfold on_hash. do 3 wp_go. simpl. wp_go. apply HP. by apply ring_put_repr.
Qed.

(** The state with a new submission in the queue. *)
Lemma core_push ids Q w s id a i n :
  core ids Q w → cfg s = c → id ∉ ids → room w → ablk_index a < 2 ^ 63 → n < 2 ^ 63 →
  (∃ q, shared_inv q [] (tracked (ids ++ [id]) (Q ++ [a])) hold (inflight (hs w)) s) →
  core (ids ++ [id]) (Q ++ [a])
    (World s (with_block_index n (with_submitted_index i (with_sq (ring_put (sq (hs w)) id) (hs w))))).
Proof using Type.
  intros [] Hc Hid Hroom Hia Hn HI. split; simpl; try done.
  - rewrite !length_app. simpl. lia.
  - apply NoDup_app. split_and!; [done| |apply NoDup_singleton].
    intros j Hj ->%list_elem_of_singleton. done.
  - by apply ring_put_repr.
  - apply Forall_app. split; [done|]. by constructor.
Qed.

Lemma submit_zero_block_inv cl B w :
  st cl B w → wp nf submit_zero_block (post True B w) w.
Proof using Hnf.
  intros Hst. unfold submit_zero_block. eapply (wp_drain_room cl); [done| |by intros; apply post_error].
  intros w1 ids Q Hkp Hk Hfn Hroom. do 3 wp_go. unfold submission_create_zero.
  apply wp_shared_op. do 2 wp_go.
  unfold fails. destruct (fault (n_fault (sh w1)) =? 0) eqn:E; simpl.
  2:{ wp_go. simpl. rewrite E. simpl.
      eapply wp_fail_with; [|lia|intros Hc; by rewrite (calm_fault _ _ Hc) in E|].
      - apply core_shared; [done..|]. destruct (k_shared _ _ _ _ _ Hk) as [q HI].
        exists q. by apply shared_inv_fault.
      - intros w2 Hk2 Hkp2 Hne. eapply post_fail; [done| |done..]. by etrans; [|etrans; [|done]]. }
  wp_go. apply wp_sub_alloc. do 2 wp_go. simpl. set (id := next_sub (sh w1)).
  destruct (k_shared _ _ _ _ _ Hk) as [q HI].
  destruct (next_sub_fresh _ _ _ _ _ _ HI) as (_ & Hid & _ & _).
  apply tracked_Some in Hid; [|apply Hk]. pose proof (k_len _ _ _ _ _ Hk) as Hlen.
  do 3 wp_go. eapply wp_queue_submission; [apply Hk|done|]. intros _. simpl.
  unfold on_hash. do 2 wp_go. simpl.
  apply wp_drain_completed; [etrans; [done|]; by split|].
  exists (ids ++ [id]), (Q ++ [AZero (block_index (hs w1))]). split.
  - apply (core_push ids Q w1 _ id _ (block_index (hs w1)) (block_index (hs w1))).
    + done.
    + apply (k_cfg _ _ _ _ _ Hk).
    + done.
    + done.
    + apply Hk.
    + apply Hk.
    + exists q. rewrite tracked_snoc by done.
      apply (shared_inv_alloc_zero q _ _ _ (with_n_fault (S (n_fault (sh w1))) (sh w1))).
      by apply shared_inv_fault.
  - destruct Hfn as [?|[(done & Hd & HB) Ho Hs Hcl]]; [by left|right].
    split; simpl; [|by apply ordered_push_zero|done|intros _; apply closed_push_zero].
    exists done. split; [done|]. by rewrite expand_push_zero.
Qed.

(** ** Data blocks *)

Lemma data_at_len m p len b : data_at m p len = Some b → 0 <= len → zlen b = len.
Proof using Type.
  destruct p as [|buf off|bytes]; simpl; [done| |].
  - destruct (m !! buf) as [x|]; simpl; [|done]. destruct (_ || _) eqn:E; intros [= <-] Hl.
    apply orb_false_iff in E as [E1 E2]. apply zlen_ztake. rewrite zlen_zdrop; lia.
  - destruct (_ <? _) eqn:E; intros [= <-] Hl. apply zlen_ztake. lia.
Qed.

Lemma size_room ids Q w : core ids Q w → room w → Z.of_nat (size (tracked ids Q)) < max_submissions c.
Proof using Type.
  intros Hk Hr. rewrite size_tracked; [|apply Hk..]. unfold room in Hr.
  by rewrite (ring_repr_len _ _ (k_ring _ _ _ _ _ Hk)), (k_size _ _ _ _ _ Hk) in Hr.
Qed.

(** [completion_ref] for the completion of the caller, if it has one. *)
Lemma wp_maybe_ref q new T infl s (P : unit → shared D → Prop) :
  shared_inv q new T hold infl s → P tt (with_comps (ref_comp hold (comps s)) s) →
  wp nf (if hold is Some x then completion_ref x else mret tt) P s.
Proof using Type.
  intros HI HP. destruct hold as [x|]; [|wp_go; by destruct s].
  destruct (ci_hold _ _ _ _ _ _ (si_comps _ _ _ _ _ _ HI) x eq_refl) as [comp Hx].
  eapply wp_comp_update; [done|]. simpl in HP.
  assert (alter (λ y, with_c_refs (u32 (c_refs y + 1)) y) x (comps s) =
    <[x := with_c_refs (u32 (c_refs comp + 1)) comp]> (comps s)) as E; [|by rewrite E in HP].
  apply map_eq. intros j. destruct (decide (j = x)) as [->|].
  - by rewrite lookup_alter_eq, lookup_insert_eq, Hx.
  - by rewrite lookup_alter_ne, lookup_insert_ne.
Qed.

Lemma wp_create_data ids Q w i len p flags b (P : Z * option nat → world D → Prop) :
  core ids Q w → room w → data_at (mem (sh w)) p len = Some b → 0 <= len < 2 ^ 32 →
  (Z.testbit flags 0 = true ∨ is_Some hold) →
  (∀ err s, err ≠ 0 → (calm (D := D) (digest_name c) → False) →
    core ids Q (World s (hs w)) → keeps_shared (sh w) s → P (err, None) (World s (hs w))) →
  (∀ s id q, keeps_shared (sh w) s → id ∉ ids →
    shared_inv q [id] (tracked (ids ++ [id]) (Q ++ [AData i b])) hold (inflight (hs w)) s →
    (∀ sub, subs s !! id = Some sub → sub_completion sub = hold) →
    P (0, Some id) (World s (hs w))) →
  wp nf (shared_op (submission_create_data i len p hold flags)) P w.
Proof using Type.
  intros Hk Hroom Hdata Hlen Hfl Hfail Hok. apply wp_shared_op.
  destruct (k_shared _ _ _ _ _ Hk) as [q HI]. pose proof (k_len _ _ _ _ _ Hk) as Hlq.
  assert (u32 len = len) as Eu by (unfold u32; rewrite Z.mod_small; lia).
  pose proof (data_at_len _ _ _ _ Hdata ltac:(lia)) as Hb.
  assert (∀ n, core ids Q (World (with_n_fault n (sh w)) (hs w))) as Hkn.
  { intros n. apply core_shared; [done..|]. exists q. by apply shared_inv_fault. }
  assert (∀ n data, (data = DCopy b ∨ (data = p ∧ is_Some hold)) →
    wp nf ((if hold is Some x then completion_ref x else mret tt);;
           id ← sub_alloc (Submission [] hold data i len 0 false false flags);
           mret (0, Some id)) (λ a s, P a (World s (hs w))) (with_n_fault n (sh w))) as Hrest.
  { intros n data Hd. wp_go. eapply wp_maybe_ref; [by apply shared_inv_fault|].
    wp_go. apply wp_sub_alloc. wp_go. simpl.
    destruct (next_sub_fresh _ _ _ _ _ _ HI) as (_ & Hid & _ & _).
    apply tracked_Some in Hid; [|done].
    eapply (Hok _ _ q); [done|done| |].
    - rewrite tracked_snoc by done.
      apply (shared_inv_alloc_data q _ _ _ (with_n_fault n (sh w))); [by apply shared_inv_fault|..].
      + pose proof (size_room _ _ _ Hk Hroom). pose proof (co_max _ (core_cfg _ _ _ _ _ Hk)). lia.
      + done.
      + split; simpl; try done.
        * destruct Hd as [->|[-> _]]; [|done]. simpl. rewrite Hb.
          destruct (len <? len) eqn:?; [lia|]. by rewrite ztake_all by lia.
        * intros buf off ->. by destruct Hd as [?|[_ ?]].
    - intros sub. simpl. rewrite lookup_insert_eq. by intros [= <-]. }
  unfold submission_create_data. rewrite Eu. do 2 wp_go. unfold fails.
  destruct (fault (n_fault (sh w)) =? 0) eqn:E; cbn [negb].
  2:{ wp_go. apply Hfail; [lia|intros Hc; by rewrite (calm_fault _ _ Hc) in E|done..]. }
  destruct (Z.testbit flags 0) eqn:Ef.
  - wp_go. unfold copy_data. do 2 wp_go. simpl. unfold fails.
    destruct (fault (S (n_fault (sh w))) =? 0) eqn:E2; simpl.
    + wp_go. eapply wp_read_data; [done|]. do 2 wp_go. apply Hrest. by left.
    + wp_go. simpl. rewrite E2. simpl. wp_go.
      apply (Hfail _ (with_n_fault (S (S (n_fault (sh w)))) (sh w)));
        [lia|intros Hc; by rewrite (calm_fault _ _ Hc) in E2|done..].
  - do 3 wp_go. apply Hrest. right. split; [done|]. destruct Hfl; [done|done].
Qed.

Lemma fn_block cl Q B w : fn cl Q B w → block_index (hs w) = zlen B.
Proof using Type.
  intros [(done & (d & _ & _ & Hh) & ->) Ho _ _]. rewrite zlen_app, zlen_expand by done. lia.
Qed.

Lemma submit_data_block_inv cl B w p len flags b :
  st cl B w → data_at (mem (sh w)) p len = Some b → 0 <= len < 2 ^ 32 →
  (Z.testbit flags 0 = true ∨ is_Some hold) → (G ∨ zlen B < 2 ^ 62) →
  wp nf (submit_data_block p len hold flags) (post (b ≠ zb) (B ++ [b]) w) w.
Proof using Hnf.
  intros Hst Hdata Hlen Hfl Hsmall. unfold submit_data_block.
  eapply (wp_drain_room cl); [done| |by intros; apply post_error].
  intros w1 ids Q Hkp Hk Hfn Hroom. do 3 wp_go.
  eapply wp_create_data; [done|done| |done|done| |].
  { by rewrite (ks_mem _ _ (kp_shared _ _ Hkp)). }
  { intros err s Hne Hnc Hk1 Hks. unfold fails. destruct (err =? 0) eqn:?; [lia|]. simpl.
    eapply wp_fail_with; [done..|]. intros w2 Hk2 Hkp2 He. eapply post_fail; [done| |done..].
    etrans; [done|]. etrans; [|done]. by split. }
  intros s id q Hks Hid HI Hown. do 4 wp_go.
  eapply wp_queue_submission; [apply Hk|done|]. intros Hput. do 2 wp_go. apply wp_shared_op. simpl.
  pose proof (ks_cfg _ _ Hks) as Hc. rewrite (k_cfg _ _ _ _ _ Hk) in Hc.
  eapply wp_mono.
  { eapply (hash_pool_submit_inv _ _ _ _ c); [done..| |].
    - rewrite tracked_snoc by (done || apply Hk).
      pose proof (size_room _ _ _ Hk Hroom). rewrite map_size_insert_None; [lia|].
      by apply tracked_None.
    - intros sub Hs. right. by apply Hown. }
  intros err s2 (q2 & HI2 & Hf & Hnc). pose proof (frame_keeps _ _ Hf) as Hks2.
  assert (∀ i n, n < 2 ^ 63 → core (ids ++ [id]) (Q ++ [AData (block_index (hs w1)) b])
    (World s2 (with_block_index n (with_submitted_index i
      (with_sq (ring_put (sq (hs w1)) id) (hs w1)))))) as Hk2.
  { intros i n Hn. apply core_push; try done; [|apply Hk|by exists q2].
    by rewrite (ks_cfg _ _ Hks2). }
  unfold fails. destruct (err =? 0) eqn:E; simpl.
  - unfold on_hash. do 4 wp_go. simpl.
    apply wp_drain_completed; [etrans; [done|]; split; try done; simpl; by etrans|].
    eexists _, _. split.
    + apply (Hk2 (block_index (hs w1)) (s64 (block_index (hs w1) + 1))). unfold s64.
      pose proof (Z.mod_pos_bound (block_index (hs w1) + 1 + 2 ^ 63) (2 ^ 64)). lia.
    + destruct Hfn as [?|Hfn]; [by left|]. destruct Hsmall as [?|Hsmall]; [by left|right].
      pose proof (fn_block _ _ _ _ Hfn) as Hbi. pose proof (zlen_nonneg B).
      destruct Hfn as [(done & Hd & HB) Ho Hs Hcl].
      replace (s64 (block_index (hs w1) + 1)) with (block_index (hs w1) + 1)
        by (unfold s64; rewrite Z.mod_small; lia).
      split; simpl; [|by apply ordered_push_data|lia|intros Hz; by apply closed_push_data].
      exists done. split; [done|]. by rewrite expand_push_data, HB, app_assoc.
  - eapply wp_fail_with; [|lia|apply Hnc; lia|].
    + apply (Hk2 (submitted_index (hs w1)) (block_index (hs w1))). apply Hk.
    + intros w3 Hk3 Hkp3 Hne. eapply post_fail; [done| |done..].
      etrans; [done|]. etrans; [|done]. split; try done. simpl. by etrans.
Qed.
End ops.
