(* ===== verification/BlkhashUpdate.v ===== *)
(** * Cutting the message into blocks

    The pending buffer and the functions that turn the bytes of updates into
    blocks: [add_pending_data], [add_pending_zeros], the consume functions and
    [do_update]. *)

From stdpp Require Import prelude list strings gmap.
From Stdlib Require Import ZArith Lia.
From S2P Require Import Prelude Ring State Digest Zero Event Completion Submission Config HashPool.
From S2P Require Import Blkhash PoolInv PoolStep Progress Spec PoolCaller PoolAio BlkhashInv BlkhashOps.

Local Open Scope Z_scope.

(** ** Buffers *)

Lemma zlen_write_at off bytes data :
  0 <= off → off + zlen bytes <= zlen data → zlen (write_at off bytes data) = zlen data.
Proof.
  intros Ho Hl. pose proof (zlen_nonneg bytes). unfold write_at.
  rewrite !zlen_app, zlen_ztake, zlen_zdrop by lia. lia.
Qed.

Lemma ztake_write_at off bytes data :
  0 <= off <= zlen data → ztake (off + zlen bytes) (write_at off bytes data) = ztake off data ++ bytes.
Proof.
  intros Ho. unfold write_at. rewrite (assoc_L (++)), ztake_app_le.
  - apply ztake_all. rewrite zlen_app, zlen_ztake; lia.
  - rewrite zlen_app, zlen_ztake; lia.
Qed.

(** The bytes a pending buffer stands for. *)
Definition pend (p : buffer) : list byte :=
  if b_zero p then zeros (b_len p) else ztake (b_len p) (b_data p).

Lemma zlen_pend p : 0 <= b_len p <= zlen (b_data p) → zlen (pend p) = b_len p.
Proof. intros H. unfold pend. destruct (b_zero p); [apply zlen_zeros; lia|by apply zlen_ztake]. Qed.

(** ** Pointers *)

Lemma data_at_ztake m p len n b :
  data_at m p len = Some b → 0 <= n <= len → data_at m p n = Some (ztake n b).
Proof.
  destruct p as [|buf off|bytes]; simpl; [done| |].
  - destruct (m !! buf) as [x|]; simpl; [|done]. destruct (_ || _) eqn:E; intros [= <-] Hn.
    apply orb_false_iff in E as [E1 E2]. destruct (_ || _) eqn:E3.
    { apply orb_true_iff in E3 as [?|?]; lia. }
    by rewrite ztake_ztake by lia.
  - destruct (_ <? _) eqn:E; intros [= <-] Hn. destruct (zlen bytes <? n) eqn:?; [lia|].
    by rewrite ztake_ztake by lia.
Qed.

Lemma ztake_zdrop_comm {A} n m (l : list A) :
  0 <= n <= m → zdrop n (ztake m l) = ztake (m - n) (zdrop n l).
Proof. intros. unfold zdrop, ztake. rewrite skipn_firstn_comm. f_equal. lia. Qed.

Lemma data_at_advance m p len n b :
  data_at m p len = Some b → 0 <= n <= len →
  data_at m (advance p n) (len - n) = Some (zdrop n b).
Proof.
  destruct p as [|buf off|bytes]; simpl; [done| |].
  - destruct (m !! buf) as [x|]; simpl; [|done]. destruct (_ || _) eqn:E; intros [= <-] Hn.
    apply orb_false_iff in E as [E1 E2]. destruct (_ || _) eqn:E3.
    { apply orb_true_iff in E3 as [?|?]; lia. }
    rewrite ztake_zdrop_comm by lia. by rewrite zdrop_zdrop by lia.
  - destruct (_ <? _) eqn:E; intros [= <-] Hn.
    destruct (zlen (zdrop n bytes) <? len - n) eqn:E2; [rewrite zlen_zdrop in E2; lia|].
    by rewrite ztake_zdrop_comm by lia.
Qed.

Section update.
Context {D : Type} `{DO : !DigestOps D, DL : !DigestLaws D, EV : !Env}.
Context (nf : Prop) (c : config) (Hnf : nf ∨ live_env (D := D) c).
Context (hold : option nat) (G : Prop).
Implicit Types (s : shared D) (w : world D) (ids : list nat) (Q : list ablk) (B : list (list byte)).

Local Abbreviation core := (core c hold).
Local Abbreviation fn := (fn c).
Local Abbreviation st := (st c hold G).
Local Abbreviation safe := (safe c hold).
Local Abbreviation post := (post c hold G).
Local Abbreviation zb := (zeros (block_size c)).

Lemma post_weaken cl cl' B w rc w' : post cl B w rc w' → (cl' → cl) → post cl' B w rc w'.
Proof using Type.
  intros (Hk & H0 & H1) Hc. split_and!; [done| |done]. intros Hz.
  destruct (H0 Hz) as (ids & Q & Hk' & [?|Hf]); eexists _, _; (split; [done|]); [by left|right].
  by eapply fn_weaken.
Qed.

(** ** Consuming blocks *)

Lemma consume_zero_blocks_inv cl B w n :
  st cl B w → 0 <= n → (G ∨ zlen B + n <= 2 ^ 62) →
  wp nf (consume_zero_blocks n) (post False (B ++ zrun zb n) w) w.
Proof using Hnf.
  intros (ids & Q & Hk & Hfn) Hn Hsmall. unfold consume_zero_blocks, on_hash. do 4 wp_go. simpl.
  set (i := s64 (block_index (hs w) + n)). set (w1 := with_hs _ w).
  assert (st False (B ++ zrun zb n) w1) as Hst.
  { exists ids, Q. split.
    - destruct Hk. split; simpl; try done. unfold i, s64.
      pose proof (Z.mod_pos_bound (block_index (hs w) + n + 2 ^ 63) (2 ^ 64)). lia.
    - destruct Hfn as [?|Hfn]; [by left|]. destruct Hsmall as [?|Hsmall]; [by left|right].
      pose proof (fn_block _ _ _ _ _ Hfn) as Hbi. pose proof (zlen_nonneg B).
      destruct Hfn as [(done & Hd & HB) Ho Hs Hcl].
      assert (i = block_index (hs w) + n) as Hi by (unfold i, s64; rewrite Z.mod_small; lia).
      split; simpl; rewrite ?Hi; [|by apply ordered_grow|lia|by intros []].
      exists done. split; [done|]. by rewrite expand_grow, HB, app_assoc. }
  destruct (_ <=? _).
  - eapply wp_mono; [by eapply (submit_zero_block_inv nf c Hnf hold G False)|].
    intros rc w2 Hp. eapply (post_weaken True); [|done]. eapply post_trans; [|done]. by split.
  - wp_go. apply post_st; [by split|done].
Qed.

Lemma is_zero_block_inv p len b ids Q w (P : bool → world D → Prop) :
  core ids Q w → data_at (mem (sh w)) p len = Some b → 0 <= len →
  (∀ z : bool, (z = true → b = zb) → P z w) → wp nf (is_zero_block p len) P w.
Proof using Type.
  intros Hk Hd Hl HP. unfold is_zero_block. wp_go. eapply wp_config_of; [done|].
  pose proof (co_bs _ (core_cfg _ _ _ _ _ Hk)). pose proof (data_at_len _ _ _ _ Hd Hl) as Hb.
  destruct (len =? block_size c) eqn:E; wp_go; [|by apply HP].
  apply wp_shared_op. eapply wp_read_data; [done|]. rewrite world_eta.
  apply is_zero_spec; [lia|]. apply HP. intros Hz%bool_decide_eq_true.
  rewrite ztake_all in Hz by lia. rewrite Hz. f_equal. lia.
Qed.

Lemma consume_data_block_inv cl B w p len flags b :
  st cl B w → data_at (mem (sh w)) p len = Some b → 0 <= len < 2 ^ 32 →
  (Z.testbit flags 0 = true ∨ is_Some hold) → (G ∨ zlen B < 2 ^ 62) →
  wp nf (consume_data_block p len hold flags) (post (b ≠ zb) (B ++ [b]) w) w.
Proof using Hnf.
  intros Hst Hd Hl Hfl Hsmall. unfold consume_data_block.
  assert (∀ z : bool, (z = true → b = zb) → 
    wp nf (if z then consume_zero_blocks 1 else submit_data_block p len hold flags)
      (post (b ≠ zb) (B ++ [b]) w) w) as Hz.
  { intros [] Hb.
    - specialize (Hb eq_refl). eapply wp_mono; [eapply consume_zero_blocks_inv; [done|lia|]|].
      + destruct Hsmall; [by left|right; lia].
      + intros rc w' Hp. rewrite Hb. by eapply post_weaken.
    - by eapply submit_data_block_inv. }
  wp_go. destruct (Z.testbit flags 0) eqn:Ef; [|wp_go; by apply (Hz false)].
  destruct Hst as (ids & Q & Hk & Hfn). eapply is_zero_block_inv; [done|done|lia|exact Hz].
Qed.

(** ** The pending buffer *)

(** What the functions on the pending buffer keep. *)
Record keeps_message w w' : Prop := {
  km_shared : keeps_shared (sh w) (sh w');
  km_length : message_length (hs w') = message_length (hs w);
  km_inflight : inflight (hs w') = inflight (hs w);
  km_finalized : finalized (hs w') = finalized (hs w);
}.

#[global] Instance keeps_message_refl : Reflexive keeps_message.
Proof using Type. by split. Qed.

#[global] Instance keeps_message_trans : Transitive keeps_message.
Proof using Type. intros w1 w2 w3 [] []. split; [by etrans|congruence..]. Qed.

Lemma keeps_keeps_message w w' : keeps w w' → keeps_message w w'.
Proof using Type. intros []. by split. Qed.

Lemma core_pending ids Q w p :
  core ids Q w → zlen (b_data p) = block_size c → 0 <= b_len p <= block_size c →
  core ids Q (World (sh w) (with_pending p (hs w))).
Proof using Type. intros [] H1 H2. by split. Qed.

Lemma st_pending cl B w p :
  st cl B w → zlen (b_data p) = block_size c → 0 <= b_len p <= block_size c →
  st cl B (World (sh w) (with_pending p (hs w))).
Proof using Type.
  intros (ids & Q & Hk & Hfn) H1 H2. exists ids, Q. split; [by apply core_pending|].
  destruct Hfn as [?|Hfn]; [by left|right]. by eapply fn_ext.
Qed.

Lemma wp_pending_take ids Q w len (P : Z → world D → Prop) :
  core ids Q w → 0 <= len →
  P (Z.min len (block_size c - b_len (pending (hs w)))) w → wp nf (pending_take len) P w.
Proof using Type.
  intros Hk Hl HP. unfold pending_take. wp_go. eapply wp_config_of; [done|]. do 3 wp_go.
  pose proof (co_bs _ (core_cfg _ _ _ _ _ Hk)). pose proof (k_pending_len _ _ _ _ _ Hk).
  replace (MIN _ _) with (Z.min len (block_size c - b_len (pending (hs w)))); [done|].
  unfold MIN, u64. rewrite Z.mod_small by lia. destruct (_ <? _) eqn:?; lia.
Qed.

(** The state after [n] bytes were appended to the pending buffer. *)
Record appended w (bytes : list byte) w' : Prop := {
  ap_shared : sh w' = sh w;
  ap_hash : ∃ p, hs w' = with_pending p (hs w);
  ap_data : zlen (b_data (pending (hs w'))) = block_size c;
  ap_len : b_len (pending (hs w')) = b_len (pending (hs w)) + zlen bytes;
  ap_pend : pend (pending (hs w')) = pend (pending (hs w)) ++ bytes;
}.

Lemma add_pending_data_inv ids Q w p len b :
  core ids Q w → data_at (mem (sh w)) p len = Some b → 0 <= len →
  wp nf (add_pending_data p len) (λ n w',
    n = Z.min len (block_size c - b_len (pending (hs w))) ∧ appended w (ztake n b) w') w.
Proof using Type.
  intros Hk Hd Hl. unfold add_pending_data. wp_go. eapply wp_pending_take; [done..|].
  pose proof (k_pending_len _ _ _ _ _ Hk). pose proof (k_pending _ _ _ _ _ Hk) as Hpd.
  pose proof (data_at_len _ _ _ _ Hd Hl) as Hb.
  set (n := Z.min _ _). assert (0 <= n <= len ∧ n <= block_size c - b_len (pending (hs w))) as Hn
    by (unfold n; lia).
  unfold on_hash. do 3 wp_go. simpl. apply wp_shared_op.
  eapply wp_read_data; [eapply data_at_ztake; [done|lia]|]. do 3 wp_go. split; [done|].
  assert (zlen (ztake n b) = n) as Ht by (apply zlen_ztake; lia).
  destruct (pending (hs w)) as [data plen zero] eqn:Ep. simpl in *.
  destruct zero; simpl; rewrite ?Ep; simpl.
  - set (data' := write_at 0 (zeros plen) data).
    assert (zlen data' = zlen data) as Hd'.
    { unfold data'. apply zlen_write_at; [done|]. rewrite zlen_zeros by lia. lia. }
    split; simpl; [done|eexists; reflexivity|..].
    + rewrite zlen_write_at by lia. lia.
    + rewrite Ep. simpl. lia.
    + rewrite Ep. unfold pend. simpl. rewrite <-Ht at 1. rewrite ztake_write_at by lia. f_equal.
      unfold data'. pose proof (ztake_write_at 0 (zeros plen) data) as Hz.
      rewrite zlen_zeros in Hz by lia. rewrite Z.add_0_l in Hz. by apply Hz; lia.
  - split; simpl; [done|eexists; reflexivity|..].
    + rewrite zlen_write_at by lia. lia.
    + rewrite Ep. simpl. lia.
    + rewrite Ep. unfold pend. simpl. rewrite <-Ht at 1. by rewrite ztake_write_at by lia.
Qed.

Lemma add_pending_zeros_inv ids Q w len :
  core ids Q w → 0 <= len →
  wp nf (add_pending_zeros len) (λ n w',
    n = Z.min len (block_size c - b_len (pending (hs w))) ∧ appended w (zeros n) w') w.
Proof using Type.
  intros Hk Hl. unfold add_pending_zeros. wp_go. eapply wp_pending_take; [done..|].
  pose proof (k_pending_len _ _ _ _ _ Hk). pose proof (k_pending _ _ _ _ _ Hk) as Hpd.
  set (n := Z.min _ _). assert (0 <= n <= len ∧ n <= block_size c - b_len (pending (hs w))) as Hn
    by (unfold n; lia).
  unfold on_hash. do 5 wp_go. split; [done|].
  destruct (pending (hs w)) as [data plen zero] eqn:Ep. simpl in *.
  assert (zlen (zeros n) = n) as Hz by (apply zlen_zeros; lia).
  destruct (plen =? 0) eqn:E0; simpl.
  - apply Z.eqb_eq in E0 as ->.
    split; simpl; rewrite ?Ep; simpl; [done|eexists; reflexivity|done|lia|].
    unfold pend. simpl. by destruct zero.
  - destruct zero; simpl; rewrite ?Ep; simpl.
    + split; simpl; rewrite ?Ep; simpl; [done|eexists; reflexivity|done|lia|].
      unfold pend. simpl. apply zeros_add; lia.
    + split; simpl; rewrite ?Ep; simpl; [done|eexists; reflexivity| |lia|].
      * rewrite zlen_write_at by lia. done.
      * unfold pend. simpl. rewrite <-Hz at 1. by rewrite ztake_write_at by lia.
Qed.

(** The result of a function that may touch the pending buffer. *)
Definition post_pending (cl : Prop) B w : Z → world D → Prop := λ rc w',
  keeps_message w w' ∧
  (rc = 0 → st cl B w' ∧ b_len (pending (hs w')) = 0 ∧ pend (pending (hs w')) = []) ∧
  (rc ≠ 0 → safe w' ∧ h_error (sh w') ≠ 0).

Lemma consume_pending_inv cl B w :
  st cl B w → (G ∨ zlen B < 2 ^ 62) →
  wp nf (consume_pending hold)
    (post_pending (pend (pending (hs w)) ≠ zb) (B ++ [pend (pending (hs w))]) w) w.
Proof using Hnf.
  intros Hst Hsmall. pose proof Hst as (ids & Q & Hk & _). unfold consume_pending.
  wp_go. eapply wp_config_of; [done|]. do 3 wp_go. cbv zeta.
  pose proof (co_bs _ (core_cfg _ _ _ _ _ Hk)). pose proof (k_pending_len _ _ _ _ _ Hk).
  pose proof (k_pending _ _ _ _ _ Hk) as Hpd.
  destruct (pending (hs w)) as [data len zero] eqn:Ep. simpl in *. set (pb := pend _).
  apply wp_assertM; [lia|]. wp_go.
  apply wp_mono with (P := λ rc w', post (pb ≠ zb) (B ++ [pb])
    (World (sh w) (with_pending (pending (hs w')) (hs w))) rc w').
  - destruct ((len =? block_size c) && zero) eqn:E.
    + apply andb_true_iff in E as [El%Z.eqb_eq ->].
      assert (pb = zb) as Hpb by (unfold pb, pend; simpl; by rewrite El).
      eapply wp_mono; [eapply (consume_zero_blocks_inv cl B w); [done|lia|]|].
      { destruct Hsmall; [by left|right; lia]. }
      intros rc w' Hp. pose proof Hp as (Hkp & _). rewrite (kp_pending _ _ Hkp).
      eapply (post_weaken False); [|intros Hn; by destruct Hn].
      rewrite Hpb. destruct w as [s h]. simpl in *.
      replace (with_pending (pending h) h) with h by (by destruct h). exact Hp.
    + assert (∀ data', zlen data' = block_size c → ztake len data' = pb →
        wp nf (h ← gets hs; consume_data_block (DCopy (b_data (pending h))) len hold SUBMIT_COPY_DATA)
          (λ rc w', post (pb ≠ zb) (B ++ [pb])
             (World (sh w) (with_pending (pending (hs w')) (hs w))) rc w')
          (World (sh w) (with_pending (Buffer data' len zero) (hs w)))) as Hrest.
      { intros data' Hl Ht. do 2 wp_go. simpl.
        eapply wp_mono; [eapply (consume_data_block_inv cl B)|].
        - by apply st_pending.
        - simpl. destruct (zlen data' <? len) eqn:?; [lia|]. done.
        - lia.
        - by left.
        - done.
        - rewrite Ht. intros rc w' Hp. pose proof Hp as (Hkp & _). by rewrite (kp_pending _ _ Hkp). }
      wp_go. destruct zero; simpl.
      * unfold on_hash. wp_go. apply Hrest.
        -- rewrite zlen_write_at; [done|lia|]. rewrite zlen_zeros by lia. lia.
        -- pose proof (ztake_write_at 0 (zeros len) data) as Hz.
           rewrite zlen_zeros in Hz by lia. rewrite Z.add_0_l in Hz. by apply Hz; lia.
      * wp_go. specialize (Hrest data Hpd eq_refl). rewrite <-Ep in Hrest.
        destruct w as [s h]. by destruct h.
  - intros rc w' (Hkp & Hz & Hne). apply keeps_keeps_message in Hkp.
    unfold fails. destruct (rc =? 0) eqn:E; simpl.
    + unfold on_hash. do 3 wp_go. destruct (Hz ltac:(lia)) as (ids' & Q' & Hk' & Hfn').
      split_and!; [|intros _|done].
      * destruct Hkp. by split.
      * split_and!; [|done|done]. apply st_pending; [by eexists _, _|apply Hk'|simpl; lia].
    + wp_go. split_and!; [by destruct Hkp|done|]. intros _. apply Hne. lia.
Qed.

(** Full blocks of the caller's buffer. *)
Lemma update_blocks_inv fuel cl B w p len flags b :
  st cl B w → data_at (mem (sh w)) p len = Some b → 0 <= len → (Z.to_nat len ≤ fuel)%nat →
  len < 2 ^ 64 → (Z.testbit flags 0 = true ∨ is_Some hold) →
  (G ∨ block_size c * zlen B + len < 2 ^ 64) →
  wp nf (update_blocks fuel p len hold flags) (λ r w', keeps w w' ∧
    (r.1.1 = 0 → ∃ Bn rest, b = mjoin Bn ++ rest ∧ Forall (λ x, zlen x = block_size c) Bn ∧
      zlen rest = r.2 ∧ zlen rest < block_size c ∧
      data_at (mem (sh w')) r.1.2 r.2 = Some rest ∧ st False (B ++ Bn) w') ∧
    (r.1.1 ≠ 0 → safe w' ∧ h_error (sh w') ≠ 0)) w.
Proof using Hnf.
  revert cl B w p len b. induction fuel as [|fuel IH];
    intros cl B w p len b Hst Hd Hl Hf Hmax Hfl Hsmall; pose proof Hst as (ids & Q & Hk & Hfn);
    pose proof (co_bs _ (core_cfg _ _ _ _ _ Hk)); pose proof (data_at_len _ _ _ _ Hd Hl) as Hb;
    simpl; wp_go; (eapply wp_config_of; [done|]);
    (destruct (block_size c <=? len) eqn:E; [|wp_go; split_and!; [done| |done]; intros _;
      exists [], b; simpl; rewrite app_nil_r; split_and!; try done; [lia|];
      exists ids, Q; split; [done|]; destruct Hfn; [by left|right; by eapply fn_weaken]]).
  { lia. }
  wp_go. eapply wp_mono.
  { eapply (consume_data_block_inv cl B w); [done|eapply data_at_ztake; [exact Hd|lia]|lia|done|].
    destruct Hsmall as [?|Hs]; [by left|right]. pose proof (zlen_nonneg B). nia. }
  intros rc w1 (Hkp & H0 & Hne). unfold fails. destruct (rc =? 0) eqn:Er; simpl.
  2:{ wp_go. split_and!; [done|simpl; lia|]. intros _. apply Hne. lia. }
  replace (u64 (len - block_size c)) with (len - block_size c)
    by (unfold u64; rewrite Z.mod_small; lia).
  set (b1 := ztake (block_size c) b).
  assert (zlen b1 = block_size c) as Hb1 by (apply zlen_ztake; lia).
  eapply wp_mono.
  { eapply (IH _ (B ++ [b1]) w1); [by apply H0; lia| |lia|lia|lia|done|].
    - rewrite (ks_mem _ _ (kp_shared _ _ Hkp)). by apply data_at_advance; [|lia].
    - destruct Hsmall as [?|Hs]; [by left|right]. rewrite zlen_app. change (zlen [b1]) with 1. lia. }
  intros [[rc2 p2] len2] w2 (Hkp2 & H02 & Hne2). simpl in *.
  split_and!; [by etrans| |done]. intros Hz.
  destruct (H02 Hz) as (Bn & rest & Eb & HBn & Hr & Hr2 & Hd2 & Hst2).
  exists (b1 :: Bn), rest. rewrite <-app_assoc in Hst2. split_and!; try done.
  - simpl. rewrite <-app_assoc, <-Eb. unfold b1. by rewrite ztake_zdrop.
  - by constructor.
Qed.

(** ** The message *)

(** [msg] was consumed: full blocks [B], and the rest in the pending buffer. *)
Definition content msg B w : Prop :=
  Forall (λ b, zlen b = block_size c) B ∧ msg = mjoin B ++ pend (pending (hs w)).

Definition mst msg w : Prop := ∃ B, st False B w ∧ (G ∨ content msg B w) ∧
  b_len (pending (hs w)) < block_size c.

(** The result of an update that leads to [msg]. *)
Definition post_msg msg w : Z → world D → Prop := λ rc w',
  keeps_message w w' ∧ (rc = 0 → mst msg w') ∧ (rc ≠ 0 → safe w' ∧ h_error (sh w') ≠ 0).

Lemma zlen_mjoin B : Forall (λ b, zlen b = block_size c) B → zlen (mjoin B) = block_size c * zlen B.
Proof using Type.
  intros HB. induction HB as [|b B Hb HB IH]; simpl; [unfold zlen; simpl; lia|].
  rewrite zlen_app, zlen_cons, IH, Hb. lia.
Qed.

(** How many blocks a message has room for. *)
Lemma content_blocks msg B w :
  content msg B w → block_size c * zlen B <= zlen msg.
Proof using Type.
  intros [HB ->]. rewrite zlen_app, zlen_mjoin by done. pose proof (zlen_nonneg (pend (pending (hs w)))).
  lia.
Qed.

Lemma content_small msg B w :
  16 <= block_size c → (G ∨ content msg B w) → (G ∨ zlen msg < 2 ^ 64) → (G ∨ zlen B < 2 ^ 62).
Proof using Type.
  intros Hbs [?|Hc] [?|Hl]; try by left. right. pose proof (content_blocks _ _ _ Hc).
  pose proof (zlen_nonneg B). nia.
Qed.

(** The pending buffer after an append: still pending, or a full block. *)
Lemma append_content msg B w bytes w' :
  appended w bytes w' → (G ∨ content msg B w) → (G ∨ content (msg ++ bytes) B w').
Proof using Type.
  intros Ha [?|[HB ->]]; [by left|right]. split; [done|].
  by rewrite (ap_pend _ _ _ Ha), app_assoc.
Qed.

Lemma append_st cl B w bytes w' :
  st cl B w → appended w bytes w' → 0 <= b_len (pending (hs w')) <= block_size c → st cl B w'.
Proof using Type.
  intros Hst Ha Hl. destruct (ap_hash _ _ _ Ha) as [p Hp].
  replace w' with (World (sh w) (with_pending p (hs w))).
  - apply st_pending; [done|..]; [pose proof (ap_data _ _ _ Ha) as Hd|];
      by rewrite Hp in *.
  - rewrite <-(ap_shared _ _ _ Ha), <-Hp. by destruct w'.
Qed.

Lemma append_keeps w bytes w' : appended w bytes w' → keeps_message w w'.
Proof using Type.
  intros Ha. destruct (ap_hash _ _ _ Ha) as [p Hp]. split; rewrite ?Hp, ?(ap_shared _ _ _ Ha); done.
Qed.

(** Consume the pending buffer if an append filled it. *)
Lemma fill_block_inv msg B w w1 bytes :
  st False B w → (G ∨ content msg B w) → b_len (pending (hs w)) < block_size c →
  (G ∨ zlen msg < 2 ^ 64) → appended w bytes w1 →
  zlen bytes <= block_size c - b_len (pending (hs w)) →
  wp nf (if b_len (pending (hs w1)) =? block_size c then consume_pending hold else mret 0)
    (λ rc w', keeps_message w w' ∧ (rc ≠ 0 → safe w' ∧ h_error (sh w') ≠ 0) ∧
      (rc = 0 → ∃ B', st False B' w' ∧ (G ∨ content (msg ++ bytes) B' w') ∧
        (b_len (pending (hs w')) = 0 ∨
         (b_len (pending (hs w')) < block_size c ∧
          zlen bytes < block_size c - b_len (pending (hs w)))))) w1.
Proof using Hnf.
  intros Hst Hc Hlt Hmax Ha Hn. pose proof Hst as (ids & Q & Hk & _).
  pose proof (k_pending_len _ _ _ _ _ Hk). pose proof (ap_len _ _ _ Ha) as Hlen.
  pose proof (co_bs _ (core_cfg _ _ _ _ _ Hk)). pose proof (zlen_nonneg bytes).
  assert (st False B w1) as Hst1 by (eapply append_st; [done..|lia]).
  pose proof (append_content _ _ _ _ _ Ha Hc) as Hc1. pose proof (append_keeps _ _ _ Ha) as Hkm.
  destruct (_ =? _) eqn:E.
  - eapply wp_mono; [eapply (consume_pending_inv False B w1); [done|]|].
    { exact (content_small msg B w ltac:(lia) Hc Hmax). }
    intros rc w2 (Hkm2 & Hok & Hne). split_and!; [by etrans|done|]. intros Hz.
    destruct (Hok Hz) as ((ids2 & Q2 & Hk2 & Hfn2) & Hl2 & Hp2).
    exists (B ++ [pend (pending (hs w1))]). split_and!.
    + exists ids2, Q2. split; [done|]. destruct Hfn2; [by left|right]. by eapply fn_weaken.
    + destruct Hc1 as [?|[HB E1]]; [by left|right]. split.
      * apply Forall_app. split; [done|]. constructor; [|done].
        rewrite zlen_pend; [lia|]. rewrite (ap_data _ _ _ Ha). lia.
      * rewrite E1, Hp2, join_app. simpl. by rewrite !app_nil_r.
    + by left.
  - wp_go. split_and!; [done|done|]. intros _. exists B. split_and!; [done..|]. right. lia.
Qed.

(** The bytes [b1] went to the pending buffer, [b2] are left. *)
Definition filled msg w len b (r : Z * data_ptr * Z) w' : Prop :=
  keeps_message w w' ∧ (r.1.1 ≠ 0 → safe w' ∧ h_error (sh w') ≠ 0) ∧
  (r.1.1 = 0 → ∃ B' b1 b2, b = b1 ++ b2 ∧ st False B' w' ∧ (G ∨ content (msg ++ b1) B' w') ∧
    data_at (mem (sh w')) r.1.2 r.2 = Some b2 ∧ 0 <= r.2 <= len ∧
    (b_len (pending (hs w')) = 0 ∨ (b_len (pending (hs w')) < block_size c ∧ r.2 = 0))).

(** The first step of an update: a pending buffer is filled up. *)
Lemma fill_pending_inv msg w p len b :
  mst msg w → data_at (mem (sh w)) p len = Some b → 0 <= len < 2 ^ 64 → (G ∨ zlen msg + len < 2 ^ 64) →
  wp nf (if 0 <? b_len (pending (hs w)) then
      n ← add_pending_data p len;
      h ← gets hs;
      rc ← (if b_len (pending h) =? block_size c then consume_pending hold else mret 0);
      mret (rc, advance p n, u64 (len - n))
    else mret (0, p, len)) (filled msg w len b) w.
Proof using Hnf.
  intros (B & Hst & Hc & Hlt) Hd Hlen Hmax. pose proof Hst as (ids & Q & Hk & _).
  pose proof (co_bs _ (core_cfg _ _ _ _ _ Hk)) as Hbs. pose proof (k_pending_len _ _ _ _ _ Hk) as Hpl.
  pose proof (data_at_len _ _ _ _ Hd (proj1 Hlen)) as Hb. destruct (0 <? b_len (pending (hs w))) eqn:E0.
  - wp_go. eapply wp_mono; [by eapply add_pending_data_inv; [|done|lia]|].
    intros n w1 [Hn Ha]. do 3 wp_go.
    assert (0 <= n <= len) as Hn2 by lia.
    assert (zlen (ztake n b) = n) as Ht by (apply zlen_ztake; lia).
    eapply wp_mono; [eapply fill_block_inv; [done|done|done| |done|]|].
    + destruct Hmax; [by left|right; lia].
    + lia.
    + intros rc w2 (Hkm & Hne & Hok). wp_go. split_and!; [done|done|]. simpl. intros Hz.
      destruct (Hok Hz) as (B' & Hst' & Hc' & Hor).
      replace (u64 (len - n)) with (len - n) by (unfold u64; rewrite Z.mod_small; lia).
      exists B', (ztake n b), (zdrop n b). split_and!; try done; try lia; [by rewrite ztake_zdrop|].
      rewrite (ks_mem _ _ (km_shared _ _ Hkm)). by apply data_at_advance.
  - wp_go. split_and!; [done|done|]. intros _. simpl. exists B, [], b.
    rewrite app_nil_r. split_and!; try done; lia.
Qed.

Lemma pend_empty w : b_len (pending (hs w)) = 0 → pend (pending (hs w)) = [].
Proof using Type. intros Hz. unfold pend. rewrite Hz. by destruct (b_zero _). Qed.

(** The last step: what is left goes to the pending buffer. *)
Lemma keep_rest_inv m0 B w0 w p len rest :
  keeps_message w0 w → st False B w → (G ∨ (Forall (λ b, zlen b = block_size c) B ∧ m0 = mjoin B ++ pend (pending (hs w)))) →
  data_at (mem (sh w)) p len = Some rest → zlen rest = len → 0 <= len < block_size c →
  (b_len (pending (hs w)) = 0 ∨ (b_len (pending (hs w)) < block_size c ∧ len = 0)) →
  wp nf (if 0 <? len then add_pending_data p len;; mret 0 else mret 0) (post_msg (m0 ++ rest) w0) w.
Proof using Hnf.
  intros Hkm Hst Hc Hd Hr Hlen Hor. destruct (0 <? len) eqn:E2.
  - wp_go. pose proof Hst as (ids & Q & Hk & _). pose proof (k_pending_len _ _ _ _ _ Hk) as Hpl.
    eapply wp_mono; [by eapply add_pending_data_inv; [|done|lia]|]. intros n w3 [Hn Ha]. wp_go.
    assert (b_len (pending (hs w)) = 0) as Hz by (destruct Hor as [?|[_ ?]]; lia).
    assert (n = len) as -> by lia. pose proof (ap_len _ _ _ Ha) as Hl3. rewrite ztake_all in Hl3, Ha by lia.
    split_and!; [etrans; [done|by eapply append_keeps]|intros _|done].
    exists B. split_and!; [by eapply append_st; [..|lia]| |lia].
    destruct Hc as [?|[H1 ->]]; [by left|right]. split; [done|].
    rewrite (ap_pend _ _ _ Ha), (pend_empty w Hz), app_nil_r. done.
  - wp_go. split_and!; [done|intros _|done].
    assert (rest = []) as -> by (destruct rest; [done|rewrite zlen_cons in *; pose proof (zlen_nonneg rest); lia]).
    exists B. rewrite app_nil_r. split_and!; [done| |destruct Hor as [->|[? _]]; lia].
    destruct Hc as [?|[H1 H2]]; [by left|by right].
Qed.

Lemma do_update_inv msg w p len flags b :
  mst msg w → data_at (mem (sh w)) p len = Some b → 0 <= len < 2 ^ 64 →
  (Z.testbit flags 0 = true ∨ is_Some hold) → (G ∨ zlen msg + len < 2 ^ 64) →
  wp nf (do_update p len hold flags) (post_msg (msg ++ b) w) w.
Proof using Hnf.
  intros Hm Hd Hlen Hfl Hmax. pose proof Hm as (B & Hst & _). pose proof Hst as (ids & Q & Hk & _).
  pose proof (data_at_len _ _ _ _ Hd (proj1 Hlen)) as Hb.
  unfold do_update. wp_go. eapply wp_config_of; [done|]. do 3 wp_go.
  eapply wp_mono; [by apply fill_pending_inv|]. intros [[rc p1] len1] w1 (Hkm1 & Hne1 & Hok1). simpl in *.
  unfold fails. destruct (rc =? 0) eqn:Er; simpl.
  2:{ destruct (Hne1 ltac:(lia)). apply wp_get_error. by split_and!. }
  destruct (Hok1 ltac:(lia)) as (B1 & b1 & b2 & -> & Hst1 & Hc1 & Hd1 & Hl1 & Hor).
  rewrite zlen_app in Hb. pose proof (data_at_len _ _ _ _ Hd1 (proj1 Hl1)) as Hb2.
  wp_go. eapply wp_mono.
  { eapply (update_blocks_inv _ False B1 w1 p1 len1); [done|done|lia|lia|lia|done|].
    destruct Hc1 as [?|Hc1]; [by left|]. destruct Hmax as [?|Hmax]; [by left|right].
    pose proof (content_blocks _ _ _ Hc1) as Hcb. rewrite zlen_app in Hcb. lia. }
  intros [[rc2 p2] len2] w2 (Hkp2 & Hok2 & Hne2). simpl in *.
  pose proof (keeps_keeps_message _ _ Hkp2) as Hkm2.
  destruct (rc2 =? 0) eqn:Er2; simpl.
  2:{ destruct (Hne2 ltac:(lia)). apply wp_get_error. split_and!; [by etrans|done|done]. }
  destruct (Hok2 ltac:(lia)) as (Bn & rest & -> & HBn & Hr & Hrs & Hd2 & Hst2).
  pose proof (kp_pending _ _ Hkp2) as Hp2. rewrite zlen_app in Hb2. pose proof (zlen_nonneg (mjoin Bn)). pose proof (zlen_nonneg rest).
  rewrite (app_assoc b1), (app_assoc msg). rewrite (app_assoc msg b1).
  apply (keep_rest_inv _ (B1 ++ Bn)); try done; [by etrans| |lia|].
  - destruct Hc1 as [?|[H1 H2]]; [by left|right]. split; [by apply Forall_app|]. rewrite H2, Hp2, join_app.
    destruct Hor as [Hz|[_ Hz]].
    + by rewrite (pend_empty w1 Hz), !app_nil_r.
    + assert (mjoin Bn = []) as ->; [|by rewrite !app_nil_r].
      destruct (mjoin Bn) as [|x l]; [done|]. rewrite zlen_cons in *. pose proof (zlen_nonneg l). lia.
  - rewrite Hp2. destruct Hor as [?|[? ?]]; [by left|right]. split; [done|]. lia.
Qed.
End update.
