(* ===== verification/Api.v ===== *)
(** * The public API

    [api G msg w]: between calls, the hash [w] stands for the message [msg]
    (unless [G]: its contents were lost by an earlier failure) and is safe to
    use.  Every call preserves it, whatever the workers do meanwhile and
    whatever fails. *)

From stdpp Require Import prelude list strings gmap.
From Stdlib Require Import ZArith Lia.
From S2P Require Import Prelude Ring State Digest Zero Event Completion Submission Config HashPool.
From S2P Require Import Blkhash PoolInv PoolStep Progress Spec PoolCaller PoolAio BlkhashInv BlkhashOps.
From S2P Require Import BlkhashUpdate.

Local Open Scope Z_scope.

Section api.
Context {D : Type} `{DO : !DigestOps D, DL : !DigestLaws D, EV : !Env}.
Context (nf : Prop) (c : config) (Hnf : nf ∨ live_env (D := D) c).
Implicit Types (s : shared D) (w : world D) (ids : list nat) (Q : list ablk) (B : list (list byte)).

Local Abbreviation H := (hash (digest_name c)).
Local Abbreviation zb := (zeros (block_size c)).

(** What every call keeps. *)
Record keeps_api w w' : Prop := {
  ka_shared : keeps_shared (sh w) (sh w');
  ka_finalized : finalized (hs w') = finalized (hs w);
}.

#[global] Instance keeps_api_refl : Reflexive keeps_api.
Proof using Type. by split. Qed.

#[global] Instance keeps_api_trans : Transitive keeps_api.
Proof using Type. intros w1 w2 w3 [] []. split; [by etrans|congruence]. Qed.

Lemma keeps_message_api w w' : keeps_message w w' → keeps_api w w'.
Proof using Type. intros []. by split. Qed.

(** The state of a hash between calls, and inside an async update, where the
    caller holds the completion [hold]. *)
Definition api_in (hold : option nat) (G : Prop) (msg : list byte) w : Prop :=
  ∃ B, st c hold G False B w ∧
    (G ∨ (content c msg B w ∧ message_length (hs w) = zlen msg ∧ zlen msg < 2 ^ 64)) ∧
    (b_len (pending (hs w)) < block_size c ∨ (G ∧ h_error (sh w) ≠ 0)).

Definition api := api_in None.

(** A hash that failed. *)
Definition failed (hold : option nat) w : Prop := safe c hold w ∧ h_error (sh w) ≠ 0.

(** The buffers of the user that no submission refers to are free. *)
Lemma api_mem G msg w m :
  api G msg w → undisturbed m (sh w) → api G msg (World (with_mem m (sh w)) (hs w)).
Proof using Type.
  intros (B & (ids & Q & Hk & Hfn) & Hc & Hp) Hi. exists B. split_and!; [|done..].
  exists ids, Q. split; [|destruct Hfn; [by left|right; by apply fn_shared]].
  destruct Hk. split; try done. simpl. destruct k_shared as [q HI].
  exists q. by apply shared_inv_mem.
Qed.

Lemma api_idle G msg w m : api G msg w → inflight (hs w) = 0 → undisturbed m (sh w).
Proof using Type.
  intros (B & (ids & Q & Hk & _) & _) Hi. destruct (k_shared _ _ _ _ _ Hk) as [q HI]. rewrite Hi in HI.
  by eapply undisturbed_idle.
Qed.

Lemma api_mono hold (G G' : Prop) msg w : (G → G') → api_in hold G msg w → api_in hold G' msg w.
Proof using Type.
  intros HG (B & (ids & Q & Hk & Hfn) & Hc & Hp). exists B. split_and!.
  - exists ids, Q. split; [done|]. destruct Hfn; [left; auto|by right].
  - destruct Hc; [left; auto|by right].
  - destruct Hp as [?|[? ?]]; [by left|right; auto].
Qed.

Lemma failed_api hold msg w : failed hold w → api_in hold True msg w.
Proof using Type.
  intros [(ids & Q & Hk) He]. exists []. split_and!.
  - exists ids, Q. split; [done|by left].
  - by left.
  - by right.
Qed.

Lemma api_safe hold G msg w : api_in hold G msg w → safe c hold w.
Proof using Type. intros (B & (ids & Q & Hk & _) & _). by exists ids, Q. Qed.

Lemma failed_not_calm hold w : failed hold w → calm (D := D) (digest_name c) → False.
Proof using Type. intros [(ids & Q & Hk) He]. by eapply not_calm_error. Qed.

(** Other threads run. *)
Lemma wp_yield_in hold G msg w (P : unit → world D → Prop) :
  api_in hold G msg w →
  (∀ s, api_in hold G msg (World s (hs w)) → keeps_shared (sh w) s → P tt (World s (hs w))) →
  wp nf (shared_op yield) P w.
Proof using Hnf.
  intros (B & (ids & Q & Hk & Hfn) & Hc & Hp) HP. apply wp_shared_op.
  destruct (k_shared _ _ _ _ _ Hk) as [q HI]. eapply wp_mono.
  { apply (yield_inv nf [] _ _ _ c Hnf q _ HI). apply Hk. }
  intros [] s (q' & HI' & Hf & _). pose proof (frame_keeps _ _ Hf) as Hks.
  apply HP; [|done]. exists B. split_and!; [|done|].
  - exists ids, Q. split; [apply core_shared; eauto|]. destruct Hfn; [by left|right].
    by apply fn_shared.
  - destruct Hp as [?|[? He]]; [by left|right]. split; [done|]. simpl.
    rewrite (ks_error _ _ Hks); done.
Qed.

(** A hash that failed refuses a call with its error, untouched. *)
Definition refused_with (w : world D) : Z → world D → Prop := λ rc w',
  rc = h_error (sh w) ∧ hs w' = hs w ∧ h_error (sh w') = h_error (sh w).

Lemma wp_refused hold G msg w (k : M (world D) Z) :
  api_in hold G msg w → h_error (sh w) ≠ 0 →
  wp nf (shared_op yield;; e ← get_error; if fails e then mret e else k) (refused_with w) w.
Proof using Hnf.
  intros Ha He. wp_go. eapply wp_yield_in; [done|]. intros s _ Hks. wp_go. apply wp_get_error.
  simpl. rewrite (ks_error _ _ Hks He). unfold fails. destruct (h_error (sh w) =? 0) eqn:?; [lia|].
  simpl. wp_go. split_and!; [done|done|]. simpl. by apply (ks_error _ _ Hks).
Qed.

(** ** blkhash_update *)

(** Adding to the message length before the data is consumed. *)
Lemma mst_length hold G msg w len :
  api_in hold G msg w → h_error (sh w) = 0 →
  mst c hold G msg (World (sh w) (with_message_length (u64 (message_length (hs w) + len)) (hs w))) ∧
  (G ∨ message_length (hs w) = zlen msg).
Proof using Type.
  intros (B & (ids & Q & Hk & Hfn) & Hc & Hp) He. split.
  - exists B. split_and!.
    + exists ids, Q. split; [by destruct Hk|]. destruct Hfn; [by left|right; by eapply fn_ext].
    + destruct Hc as [?|[? _]]; [by left|by right].
    + destruct Hp as [?|[_ ?]]; [done|]. by destruct He.
  - destruct Hc as [?|(_ & ? & _)]; [by left|by right].
Qed.

(** From the result of the internal functions to the result of the call. *)
Lemma post_msg_api hold G msg b w w1 rc w2 len :
  post_msg c hold G (msg ++ b) w1 rc w2 → keeps_shared (sh w) (sh w1) →
  finalized (hs w1) = finalized (hs w) → 
  (G ∨ zlen msg + zlen b < 2 ^ 64) → len = zlen b →
  (G ∨ message_length (hs w) = zlen msg) →
  message_length (hs w1) = u64 (message_length (hs w) + len) →
  keeps_api w w2 ∧ (rc = 0 → api_in hold G (msg ++ b) w2) ∧ (rc ≠ 0 → failed hold w2).
Proof using Type.
  intros (Hkm & H0 & Hne) Hks Hfin Hmax Hlen Hml Hml1. split_and!.
  - split; [etrans; [done|apply Hkm]|]. rewrite (km_finalized _ _ Hkm). done.
  - intros Hz. destruct (H0 Hz) as (B & Hst & Hc & Hp). exists B. split_and!; [done| |by left].
    destruct Hc as [?|Hc]; [by left|]. destruct Hmax as [?|Hmax]; [by left|].
    destruct Hml as [?|Hml]; [by left|right]. rewrite zlen_app. split_and!; [done| |lia].
    rewrite (km_length _ _ Hkm), Hml1, Hml, Hlen. unfold u64. apply Z.mod_small.
    pose proof (zlen_nonneg msg). pose proof (zlen_nonneg b). lia.
  - intros Hz. by destruct (Hne Hz).
Qed.

Lemma blkhash_update_inv G msg w p len b :
  api G msg w → data_at (mem (sh w)) p len = Some b → 0 <= len < 2 ^ 64 →
  (G ∨ zlen msg + len < 2 ^ 64) →
  wp nf (blkhash_update p len) (λ rc w', keeps_api w w' ∧
    (rc = 0 → api G (msg ++ b) w') ∧ (rc ≠ 0 → failed None w')) w.
Proof using Hnf.
  intros Ha Hd Hlen Hmax. unfold blkhash_update. wp_go. eapply wp_yield_in; [done|].
  intros s Ha1 Hks. wp_go. apply wp_get_error. unfold fails. simpl.
  destruct (h_error s =? 0) eqn:E; simpl.
  - unfold on_hash. do 2 wp_go.
    destruct (mst_length _ _ _ _ len Ha1 ltac:(simpl; lia)) as [Hm Hml].
    pose proof (data_at_len _ _ _ _ Hd (proj1 Hlen)) as Hb.
    eapply wp_mono; [eapply (do_update_inv nf c Hnf None G msg); [done| |done|by left|done]|].
    { simpl. by rewrite (ks_mem _ _ Hks). }
    intros rc w2 Hp. eapply post_msg_api; [done|done|done|by rewrite Hb|done|done|done].
  - wp_go. split_and!; [by split|lia|]. intros _. split; [by eapply api_safe|simpl; lia].
Qed.

(** ** blkhash_zero *)

Lemma mjoin_zrun k : 0 <= k → mjoin (zrun zb k) = zeros (k * block_size c).
Proof using Type.
  intros Hk. unfold zrun. rewrite <-(Z2Nat.id k Hk) at 2. clear Hk.
  induction (Z.to_nat k) as [|n IH]; simpl; [done|]. rewrite IH.
  destruct (Z.le_gt_cases 0 (block_size c)) as [Hb|Hb].
  - rewrite <-zeros_add by lia. f_equal. lia.
  - unfold zeros. rewrite !Z2Nat.nonpos by lia. done.
Qed.

(** A prefix of the zeros completes the pending buffer: [n] zeros are
    consumed and [r.2] are left. *)
Definition zero_mid G msg w len : Z * Z → world D → Prop := λ r w',
  keeps_message w w' ∧ (r.1 ≠ 0 → failed None w') ∧
  (r.1 = 0 → ∃ B n, 0 <= n ∧ 0 <= r.2 ∧ n + r.2 = len ∧ st c None G False B w' ∧
    (G ∨ content c (msg ++ zeros n) B w') ∧
    (b_len (pending (hs w')) = 0 ∨ (b_len (pending (hs w')) < block_size c ∧ r.2 = 0))).

Lemma zero_pending_inv G msg w len :
  mst c None G msg w → 0 <= len < 2 ^ 64 → (G ∨ zlen msg + len < 2 ^ 64) →
  wp nf (if 0 <? b_len (pending (hs w)) then
           n ← add_pending_zeros len;
           h ← gets hs;
           rc ← (if b_len (pending h) =? block_size c then consume_pending None else mret 0);
           mret (rc, u64 (len - n))
         else mret (0, len)) (zero_mid G msg w len) w.
Proof using Hnf.
  intros (B & Hst & Hc & Hlt) Hlen Hmax. pose proof Hst as (ids & Q & Hk & _).
  pose proof (k_pending_len _ _ _ _ _ Hk) as Hpl.
  destruct (0 <? b_len (pending (hs w))) eqn:E0.
  - wp_go. eapply wp_mono; [by eapply add_pending_zeros_inv; [|lia]|].
    intros n w1 [Hn Ha]. do 3 wp_go.
    assert (zlen (zeros n) = n) as Ht by (apply zlen_zeros; lia).
    eapply wp_mono; [eapply (fill_block_inv nf c Hnf None G); [done|done|done| |done|]|].
    + destruct Hmax; [by left|right; lia].
    + lia.
    + intros rc w2 (Hkm & Hne & Hok). wp_go. split_and!; [done|done|]. simpl. intros Hz.
      destruct (Hok Hz) as (B' & Hst' & Hc' & Hor).
      replace (u64 (len - n)) with (len - n) by (unfold u64; rewrite Z.mod_small; lia).
      exists B', n. split_and!; try done; lia.
  - wp_go. split_and!; [done|done|]. intros _. simpl. exists B, 0.
    rewrite app_nil_r. split_and!; try done; lia.
Qed.

Lemma zero_blocks_inv G msg B w len :
  st c None G False B w → (G ∨ content c msg B w) → 0 <= len →
  (b_len (pending (hs w)) = 0 ∨ (b_len (pending (hs w)) < block_size c ∧ len = 0)) →
  (G ∨ zlen msg + len < 2 ^ 64) →
  wp nf (if block_size c <=? len then
           if block_size c =? 0 then crashM CDivZero
           else rc ← consume_zero_blocks (len / block_size c); mret (rc, len mod block_size c)
         else mret (0, len)) (λ r w', zero_mid G msg w len r w' ∧ r.2 < block_size c) w.
Proof using Hnf.
  intros Hst Hc Hlen Hor Hmax. pose proof Hst as (ids & Q & Hk & _).
  pose proof (co_bs _ (core_cfg _ _ _ _ _ Hk)) as Hbs.
  destruct (block_size c <=? len) eqn:E.
  - destruct (block_size c =? 0) eqn:?; [lia|]. wp_go.
    pose proof (Z.div_mod len (block_size c) ltac:(lia)) as Hdm.
    pose proof (Z.mod_pos_bound len (block_size c) ltac:(lia)) as Hmod.
    set (k := len / block_size c) in *. assert (0 <= k) as Hkpos by nia.
    eapply wp_mono; [eapply (consume_zero_blocks_inv nf c Hnf None G False B w k); [done|done|]|].
    { destruct Hc as [?|Hc]; [by left|]. destruct Hmax as [?|Hmax]; [by left|right].
      pose proof (content_blocks _ _ _ _ Hc). pose proof (zlen_nonneg B). nia. }
    intros rc w' (Hkp & H0 & Hne). wp_go. split; [|simpl; lia].
    split_and!; [by apply keeps_keeps_message|by intros Hz; destruct (Hne Hz)|]. simpl. intros Hz.
    exists (B ++ zrun zb k), (k * block_size c). rewrite (kp_pending _ _ Hkp).
    split_and!; try lia; [by apply H0|].
    destruct Hc as [?|[HB Em]]; [by left|right]. split.
    + apply Forall_app. split; [done|]. apply Forall_replicate. apply zlen_zeros. lia.
    + rewrite (kp_pending _ _ Hkp), Em, join_app, mjoin_zrun by done.
      assert (pend (pending (hs w)) = []) as ->.
      { unfold pend. destruct Hor as [->|[_ ?]]; [by destruct (b_zero _)|lia]. }
      by rewrite !app_nil_r.
  - wp_go. split; [|simpl; lia]. split_and!; [done|done|]. intros _. simpl. exists B, 0.
    rewrite app_nil_r. split_and!; try done; lia.
Qed.

Lemma blkhash_zero_inv G msg w len :
  api G msg w → 0 <= len < 2 ^ 64 → (G ∨ zlen msg + len < 2 ^ 64) →
  wp nf (blkhash_zero len) (λ rc w', keeps_api w w' ∧
    (rc = 0 → api G (msg ++ zeros len) w') ∧ (rc ≠ 0 → failed None w')) w.
Proof using Hnf.
  intros Ha Hlen Hmax. unfold blkhash_zero. wp_go. eapply wp_yield_in; [done|].
  intros s Ha1 Hks. wp_go. apply wp_get_error. unfold fails. simpl.
  destruct (h_error s =? 0) eqn:E; simpl.
  2:{ wp_go. split_and!; [by split|lia|]. intros _. split; [by eapply api_safe|simpl; lia]. }
  unfold on_hash. do 2 wp_go.
  destruct (mst_length _ _ _ _ len Ha1 ltac:(simpl; lia)) as [Hm Hml]. simpl in Hm, Hml.
  pose proof Hm as (B0 & (ids0 & Q0 & Hk0 & _) & _). pose proof (co_bs _ (core_cfg _ _ _ _ _ Hk0)) as Hbs.
  set (w1 := World s _) in Hm. change (with_hs _ _) with w1.
  assert (zlen (zeros len) = len) as Hzl by (apply zlen_zeros; lia).
  assert (∀ rc w2, post_msg c None G (msg ++ zeros len) w1 rc w2 → keeps_api w w2 ∧
    (rc = 0 → api_in None G (msg ++ zeros len) w2) ∧ (rc ≠ 0 → failed None w2)) as Hpost.
  { intros rc w2 Hp.
    apply (post_msg_api None G msg (zeros len) w w1 rc w2 len); try done. by rewrite Hzl. }
  eapply wp_mono with (P := post_msg c None G (msg ++ zeros len) w1); [|exact Hpost]. clear Hpost.
  wp_go. eapply wp_config_of; [done|]. do 3 wp_go.
  eapply wp_mono; [by apply (zero_pending_inv G msg)|]. intros [rc len1] w2 (Hkm2 & Hne2 & Hok2).
  simpl in *. destruct (rc =? 0) eqn:Er; simpl.
  2:{ destruct (Hne2 ltac:(lia)). apply wp_get_error. by split_and!. }
  destruct (Hok2 ltac:(lia)) as (B2 & n1 & Hn1 & Hl1 & El & Hst2 & Hc2 & Hor2).
  assert (zlen (zeros n1) = n1) as Hz1 by (apply zlen_zeros; lia).
  wp_go. eapply wp_mono; [apply (zero_blocks_inv G (msg ++ zeros n1) B2); [done|done|done|done|]|].
  { destruct Hmax; [by left|right]. rewrite zlen_app. lia. }
  intros [rc3 len2] w3 [(Hkm3 & Hne3 & Hok3) Hlt3]. simpl in *. destruct (rc3 =? 0) eqn:Er3; simpl.
  2:{ destruct (Hne3 ltac:(lia)). apply wp_get_error. split_and!; [by etrans|done|done]. }
  destruct (Hok3 ltac:(lia)) as (B3 & n2 & Hn2 & Hl2 & El2 & Hst3 & Hc3 & Hor3).
  rewrite <-app_assoc, <-zeros_add in Hc3 by lia.
  destruct (0 <? len2) eqn:E2.
  - wp_go. pose proof Hst3 as (ids3 & Q3 & Hk3 & _).
    eapply wp_mono; [by eapply add_pending_zeros_inv; [|lia]|]. intros n w4 [Hn Ha4]. wp_go.
    assert (b_len (pending (hs w3)) = 0) as Hb0 by (destruct Hor3 as [?|[_ ?]]; [done|lia]).
    assert (n = len2) as -> by lia.
    pose proof (ap_len _ _ _ _ Ha4) as Hl4. rewrite zlen_zeros in Hl4 by lia.
    split_and!; [etrans; [done|etrans; [done|by eapply append_keeps]]|intros _|done].
    exists B3. split_and!; [by eapply append_st; [..|lia]| |lia].
    pose proof (append_content _ _ _ _ _ _ _ Ha4 Hc3) as Hc4.
    rewrite <-app_assoc, <-zeros_add in Hc4 by lia.
    by replace (n1 + n2 + len2) with len in Hc4 by lia.
  - wp_go. split_and!; [by etrans|intros _|done]. exists B3. split_and!; [done| |lia].
    by replace (n1 + n2) with len in Hc3 by lia.
Qed.

(** ** blkhash_final *)

Lemma final_once w :
  safe c None w → finalized (hs w) = true →
  wp nf blkhash_final (λ r w', r = (EINVAL, []) ∧ hs w' = hs w) w.
Proof using Hnf.
  intros (ids & Q & Hk) Hfin. unfold blkhash_final. wp_go. apply wp_shared_op.
  destruct (k_shared _ _ _ _ _ Hk) as [q HI]. eapply wp_mono.
  { apply (yield_inv nf [] _ _ _ c Hnf q _ HI). apply Hk. }
  intros [] s _. do 2 wp_go. simpl. rewrite Hfin. by wp_go.
Qed.

Lemma le64_pack v : le64 v = pack_le64 v.
Proof using Type.
  unfold le64, pack_le64. apply list_fmap_ext. intros i x _.
  rewrite Z.shiftr_div_pow2 by lia. rewrite Z.pow_mul_r by lia. done.
Qed.

(** The last block and the end of the queue. *)
Definition last_block (msg : list byte) B w : list (list byte) :=
  B ++ (if decide (pend (pending (hs w)) = []) then [] else [pend (pending (hs w))]).

Lemma consume_last_inv (G : Prop) msg B w :
  st c None G False B w → (G ∨ (content c msg B w ∧ zlen msg < 2 ^ 64)) →
  (b_len (pending (hs w)) < block_size c ∨ G) →
  wp nf (if 0 <? b_len (pending (hs w)) then consume_pending None else submit_zero_block)
    (λ rc w', keeps_message w w' ∧ (rc = 0 → st c None G True (last_block msg B w) w') ∧
      (rc ≠ 0 → failed None w')) w.
Proof using Hnf.
  intros Hst Hc Hp. pose proof Hst as (ids & Q & Hk & _).
  pose proof (co_bs _ (core_cfg _ _ _ _ _ Hk)) as Hbs.
  pose proof (k_pending_len _ _ _ _ _ Hk) as Hpl. pose proof (k_pending _ _ _ _ _ Hk) as Hpd.
  assert (zlen (pend (pending (hs w))) = b_len (pending (hs w))) as Hz by (apply zlen_pend; lia).
  unfold last_block. destruct (0 <? b_len (pending (hs w))) eqn:E.
  - rewrite decide_False by (intros En; rewrite En, zlen_nil in Hz; lia).
    eapply wp_mono; [eapply (consume_pending_inv nf c Hnf None G False B); [done|]|].
    { eapply (content_small c G msg B w); [lia|..].
      - destruct Hc as [?|[? _]]; [by left|by right].
      - destruct Hc as [?|[_ ?]]; [by left|by right]. }
    intros rc w' (Hkm & H0 & Hne). split_and!; [done| |done]. intros Hrc.
    destruct (H0 Hrc) as ((ids' & Q' & Hk' & Hfn') & _). exists ids', Q'. split; [done|].
    destruct Hfn' as [?|Hfn']; [by left|]. destruct Hp as [Hlt|?]; [right|by left].
    eapply fn_weaken; [done|]. intros _ Eq. rewrite Eq, zlen_zeros in Hz; lia.
  - rewrite decide_True.
    2:{ destruct (pend (pending (hs w))) as [|x l]; [done|]. rewrite zlen_cons in Hz.
        pose proof (zlen_nonneg l). lia. }
    rewrite app_nil_r. eapply wp_mono; [by eapply (submit_zero_block_inv nf c Hnf None G False B)|].
    intros rc w' (Hkp & H0 & Hne). split_and!; [by apply keeps_keeps_message|done|done].
Qed.

(** The result of [blkhash_final]: on success the queue is drained and the digest
    is the specified one. *)
Definition final_post (G : Prop) msg w : Z * list byte → world D → Prop := λ r w',
  safe c None w' ∧ keeps_shared (sh w) (sh w') ∧ finalized (hs w') = true ∧
  inflight (hs w') = inflight (hs w) ∧
  (r.1 = 0 → (G ∨ r.2 = blkhash_spec H (block_size c) msg) ∧ core c None [] [] w') ∧
  (r.1 ≠ 0 → calm (D := D) (digest_name c) → False).

Lemma final_post_trans G msg w w1 r w' :
  keeps_message w w1 → finalized (hs w) = true → final_post G msg w1 r w' → final_post G msg w r w'.
Proof using Type.
  intros Hkm Hf (Hs & Hks & Hf' & Hi & H0 & Hne). split_and!; try done.
  - etrans; [apply Hkm|done].
  - by rewrite Hi, (km_inflight _ _ Hkm).
Qed.

Lemma final_fail G msg w :
  failed None w → finalized (hs w) = true →
  wp nf (e ← get_error; mret (e, [])) (final_post G msg w) w.
Proof using Type.
  intros Hf Hfin. pose proof Hf as [Hsafe He]. wp_go. apply wp_get_error. wp_go.
  split_and!; try done. intros _. by eapply failed_not_calm.
Qed.

(** Finishing the outer digest, once the queue is drained. *)
Lemma digest_final_inv G msg m w d :
  core c None [] [] w → finalized (hs w) = true → outer_digest (hs w) = Some d →
  (G ∨ (absorbed d (digest_name c) m ∧ H m = blkhash_spec H (block_size c) msg)) →
  wp nf (o ← shared_op next_fault; h ← gets hs; d ← derefM (outer_digest h);
         let '(rc, d', md) := d_final o d in
         on_hash (with_outer_digest (Some d'));;
         if fails rc then mret (- rc, []) else md ← shared_op (store_md md); mret (0, md))
    (final_post G msg w) w.
Proof using Type.
  intros Hk Hfin Hd Habs. wp_go. eapply wp_next_fault_w; [done|]. intros e s He Hk1 Hks _ _. simpl.
  do 3 wp_go. eapply wp_derefM; [done|]. destruct (d_final e d) as [[rc d'] md] eqn:Ef.
  unfold on_hash. do 2 wp_go.
  destruct (k_outer _ _ _ _ _ Hk) as (d0 & Hd0 & Hmade). rewrite Hd in Hd0. injection Hd0 as <-.
  pose proof (core_outer _ _ _ _ _ d' (hashed_index (hs w)) Hk1
    (d_final_made _ _ _ _ _ _ Hmade Ef) (k_hashed _ _ _ _ _ Hk)) as Hk2.
  unfold fails. destruct (rc =? 0) eqn:Er; simpl.
  - apply Z.eqb_eq in Er as ->. wp_go. apply wp_shared_op, wp_store_md; [by eapply d_final_max|].
    wp_go. split_and!; [by eexists _, _|done..| |done]. intros _. split; [|done].
    destruct Habs as [?|[Hab Hm]]; [by left|right]. by rewrite (d_final_ok _ _ _ _ _ _ Hab Ef).
  - wp_go. split_and!; [by eexists _, _|done..|simpl; lia|]. intros _ Hcalm. rewrite (He Hcalm) in Ef.
    destruct Hcalm as [_ Ht]. pose proof (d_final_total (DigestTotal := Ht) d) as Hz.
    rewrite Ef in Hz. simpl in Hz. lia.
Qed.

(** The message length, then the digest. *)
Lemma finish_digest_inv (G : Prop) msg w :
  core c None [] [] w → finalized (hs w) = true →
  (G ∨ (hashed c (blocks (block_size c) msg) w ∧ message_length (hs w) = zlen msg)) →
  wp nf (rc ← hash_message_length;
         if fails rc then e ← get_error; mret (e, [])
         else
           o ← shared_op next_fault; h ← gets hs; d ← derefM (outer_digest h);
           let '(rc, d', md) := d_final o d in
           on_hash (with_outer_digest (Some d'));;
           if fails rc then mret (- rc, []) else md ← shared_op (store_md md); mret (0, md))
    (final_post G msg w) w.
Proof using Type.
  intros Hk Hfin Hdone. wp_go. unfold hash_message_length. do 3 wp_go.
  eapply wp_outer_update; [done|]. intros s d err Hk1 Hks _ _ Hnc Habs.
  set (w1 := World s (with_outer_digest (Some d) (hs w))) in *.
  assert (keeps_message w w1) as Hkm by (by split).
  unfold fails at 1. destruct (err =? 0) eqn:Ee; simpl.
  - wp_go. eapply wp_mono; [eapply (digest_final_inv G msg _ w1); [done..|]|].
    + destruct Hdone as [?|[(d0 & Hd0 & Hab & _) Hlen]]; [by left|right].
      split; [eapply Habs; [lia|done..]|]. unfold blkhash_spec. by rewrite le64_pack, Hlen.
    + intros r w2. by apply final_post_trans.
  - eapply wp_fail_with; [done|lia|apply Hnc; lia|]. intros w2 Hk2 Hkp2 He2. simpl.
    pose proof (keeps_keeps_message _ _ Hkp2) as Hkm2.
    eapply wp_mono; [apply (final_fail G msg w2)|].
    + split; [by eexists _, _|done].
    + by rewrite (km_finalized _ _ Hkm2).
    + intros r w3. apply final_post_trans; [by etrans|done].
Qed.

(** After the last block the outer digest has absorbed all blocks of the message. *)
Lemma last_block_hashed (G : Prop) msg B w w' :
  core c None [] [] w' → (G ∨ fn c True [] (last_block msg B w) w') →
  (G ∨ content c msg B w) → (b_len (pending (hs w)) < block_size c ∨ G) →
  (∃ ids Q, core c None ids Q w) →
  G ∨ hashed c (blocks (block_size c) msg) w'.
Proof using Type.
  intros Hk' Hfn Hc Hp (ids & Q & Hk). destruct Hfn as [?|[(done & Hd & HB) _ _ Hcl]]; [by left|].
  destruct Hc as [?|(HB0 & Em)]; [by left|]. destruct Hp as [Hlt|?]; [right|by left].
  specialize (Hcl I). unfold closed in Hcl. simpl in Hcl, HB. rewrite Hcl, Z.sub_diag, zrun_0, app_nil_r in HB.
  pose proof (co_bs _ (core_cfg _ _ _ _ _ Hk)) as Hbs.
  assert (blocks (block_size c) msg = done) as ->; [|done].
  rewrite Em, blocks_unique; [done|lia|done|]. simpl. rewrite zlen_pend; [done|].
  pose proof (k_pending_len _ _ _ _ _ Hk). pose proof (k_pending _ _ _ _ _ Hk). lia.
Qed.

Lemma blkhash_final_full G msg w :
  api G msg w → finalized (hs w) = false → wp nf blkhash_final (final_post G msg w) w.
Proof using Hnf.
  intros Ha Hfin. unfold blkhash_final. wp_go. eapply wp_yield_in; [done|]. intros s Ha1 Hks.
  do 2 wp_go. simpl. rewrite Hfin. unfold on_hash. do 2 wp_go.
  set (w1 := World s (with_finalized true (hs w))). destruct Ha1 as (B & (ids & Q & Hk & Hfn) & Hc & Hp).
  simpl in Hc, Hp. assert (core c None ids Q w1) as Hk1 by (by destruct Hk).
  assert (st c None G False B w1) as Hst1.
  { exists ids, Q. split; [done|]. destruct Hfn; [by left|right; by eapply fn_ext]. }
  assert (G ∨ (content c msg B w1 ∧ zlen msg < 2 ^ 64)) as Hc1.
  { destruct Hc as [?|(Hc & _ & Hlt)]; [by left|right]. by split. }
  assert (b_len (pending (hs w1)) < block_size c ∨ G) as Hp1.
  { destruct Hp as [?|[? _]]; [by left|by right]. }
  assert (∀ k, wp nf k (final_post G msg w1) w1 → wp nf k (final_post G msg w) w1) as Hstart.
  { intros k Hw. eapply wp_mono; [done|]. intros r w' (Hs & Hks' & Hr). split_and!; [done|by etrans|apply Hr..]. }
  apply Hstart. clear Hstart. wp_go. eapply wp_mono; [by apply (consume_last_inv G msg B w1)|].
  intros rc w2 (Hkm2 & H02 & Hne2). unfold fails at 1. destruct (rc =? 0) eqn:Er; simpl.
  2:{ eapply wp_mono; [apply (final_fail G msg w2); [apply Hne2; lia|by rewrite (km_finalized _ _ Hkm2)]|].
      intros r w'. by apply final_post_trans. }
  wp_go. eapply wp_mono; [eapply (hash_inflight_inv nf c Hnf None G True); apply H02; lia|].
  intros rc3 w3 [(Hkp3 & _ & Hne3) H03].
  assert (keeps_message w1 w3) as Hkm3 by (etrans; [done|by apply keeps_keeps_message]).
  unfold fails at 1. destruct (rc3 =? 0) eqn:Er3; simpl.
  2:{ eapply wp_mono; [apply (final_fail G msg w3); [apply Hne3; lia|by rewrite (km_finalized _ _ Hkm3)]|].
      intros r w'. by apply final_post_trans. }
  destruct (H03 ltac:(lia)) as [Hk3 Hfn3]. eapply wp_mono; [apply (finish_digest_inv G msg w3); [done|..]|].
  - by rewrite (km_finalized _ _ Hkm3).
  - destruct (last_block_hashed G msg B w1 w3) as [?|Hh]; [done|done| |done|by eexists _, _|by left|].
    + destruct Hc1 as [?|[? _]]; [by left|by right].
    + destruct Hc as [?|(_ & Hml & _)]; [by left|right]. split; [done|].
      by rewrite (km_length _ _ Hkm3).
  - intros r w'. by apply final_post_trans.
Qed.

Lemma blkhash_final_inv G msg w :
  api G msg w → finalized (hs w) = false →
  wp nf blkhash_final (λ r w', safe c None w' ∧ keeps_shared (sh w) (sh w') ∧
    finalized (hs w') = true ∧ inflight (hs w') = inflight (hs w) ∧
    (r.1 = 0 → G ∨ r.2 = blkhash_spec H (block_size c) msg) ∧
    (r.1 ≠ 0 → calm (D := D) (digest_name c) → False)) w.
Proof using Hnf.
  intros Ha Hf. eapply wp_mono; [by apply blkhash_final_full|].
  intros r w' (? & ? & ? & ? & H0 & ?). split_and!; try done. intros Hr. apply H0, Hr.
Qed.
End api.
