(* ===== verification/ApiAio.v ===== *)
(** * The asynchronous API

    [blkhash_aio_update] and [blkhash_aio_completions]: updates that do not copy
    the data, and the queue of their completions. *)

From stdpp Require Import prelude list strings gmap.
From Stdlib Require Import ZArith Lia.
From S2P Require Import Prelude Ring State Digest Zero Event Completion Submission Config HashPool.
From S2P Require Import Blkhash PoolInv PoolStep Progress Spec PoolCaller PoolAio BlkhashInv BlkhashOps.
From S2P Require Import BlkhashUpdate Api.

Local Open Scope Z_scope.

Section api_aio.
Context {D : Type} `{DO : !DigestOps D, DL : !DigestLaws D, EV : !Env}.
Context (nf : Prop) (c : config) (Hnf : nf ∨ live_env (D := D) c).
Implicit Types (s : shared D) (w : world D) (ids : list nat) (Q : list ablk) (B : list (list byte)).

Local Abbreviation api := (api c).
Local Abbreviation api_in := (api_in c).
Local Abbreviation failed := (failed c).

Lemma wp_shared_bind {A A'} (m : M (shared D) A) (k : A → M (shared D) A') (P : A' → world D → Prop) w :
  wp nf (shared_op m) (λ a w', wp nf (shared_op (k a)) P w') w → wp nf (shared_op (m ≫= k)) P w.
Proof using Type.
  unfold shared_op, zoom, wp, mbind, M_bind. by destruct (m (sh w)) as [a s|[]].
Qed.

(** The caller's half does not matter to a step on the shared half. *)
Lemma wp_shared_hs {A} (m : M (shared D) A) (P : A → world D → Prop) w h :
  wp nf (shared_op m) (λ a w', P a (World (sh w') h)) w → wp nf (shared_op m) P (World (sh w) h).
Proof using Type. unfold shared_op, zoom, wp. simpl. by destruct (m (sh w)) as [a s|[]]. Qed.

Lemma nf_calm : nf ∨ calm (D := D) (digest_name c).
Proof using Hnf. destruct Hnf as [?|[? _]]; auto. Qed.

(** Another completion of the caller, and another number of updates in
    flight. *)
Lemma core_aio hold hold' infl ids Q w s :
  core c hold ids Q w → cfg s = c →
  (∃ q, shared_inv q [] (tracked ids Q) hold' infl s) →
  core c hold' ids Q (World s (with_inflight infl (hs w))).
Proof using Type. intros [] Hc HI. by split. Qed.

Lemma with_inflight_same (h : blkhash D) : with_inflight (inflight h) h = h.
Proof using Type. by destruct h. Qed.

(** A step of the caller on the shared state, which may change its completion
    and, by [f], the number of updates in flight. *)
Lemma wp_shared_api {A} (m : M (shared D) A) (f : A → Z) (hold' : A → option nat)
    (R : A → shared D → Prop) G msg hold w (P : A → world D → Prop) :
  api_in hold G msg w →
  (∀ ids Q q, core c hold ids Q w →
    shared_inv q [] (tracked ids Q) hold (inflight (hs w)) (sh w) →
    wp nf m (λ a s, (∃ q', shared_inv q' [] (tracked ids Q) (hold' a) (f a) s) ∧
      keeps_shared (sh w) s ∧ R a s) (sh w)) →
  (∀ a s, api_in (hold' a) G msg (World s (with_inflight (f a) (hs w))) →
    keeps_shared (sh w) s → R a s → P a (World s (hs w))) →
  wp nf (shared_op m) P w.
Proof using Type.
  intros (B & (ids & Q & Hk & Hfn) & Hc & Hp) Hm HP. apply wp_shared_op.
  destruct (k_shared _ _ _ _ _ Hk) as [q HI]. eapply wp_mono; [by eapply Hm|].
  intros a s (HI' & Hks & HR). apply HP; [|done..]. exists B. split_and!; [|done|].
  - exists ids, Q. split; [|destruct Hfn; [by left|right; by eapply fn_ext]].
    eapply core_aio; [done| |done]. rewrite (ks_cfg _ _ Hks). apply Hk.
  - destruct Hp as [?|[? He]]; [by left|right]. split; [done|]. simpl.
    by rewrite (ks_error _ _ Hks).
Qed.

(** The same, when the number of updates in flight does not change. *)
Lemma wp_shared_same {A} (m : M (shared D) A) (hold' : option nat) (R : A → shared D → Prop)
    G msg hold w (P : A → world D → Prop) :
  api_in hold G msg w →
  (∀ ids Q q, core c hold ids Q w →
    shared_inv q [] (tracked ids Q) hold (inflight (hs w)) (sh w) →
    wp nf m (λ a s, (∃ q', shared_inv q' [] (tracked ids Q) hold' (inflight (hs w)) s) ∧
      keeps_shared (sh w) s ∧ R a s) (sh w)) →
  (∀ a s, api_in hold' G msg (World s (hs w)) → keeps_shared (sh w) s → R a s →
    P a (World s (hs w))) →
  wp nf (shared_op m) P w.
Proof using Type.
  intros Hcon Hm HP. eapply (wp_shared_api m (λ _, inflight (hs w)) (λ _, hold') R); [done..|].
  rewrite with_inflight_same. exact HP.
Qed.

(** ** blkhash_aio_update *)

(** The caller reports a failure through its completion. *)
Lemma report_error_inv id e w :
  failed (Some id) w →
  wp nf (shared_op (yield;; completion_set_error id e)) (λ _ w',
    failed (Some id) w' ∧ keeps_api w w' ∧ inflight (hs w') = inflight (hs w)) w.
Proof using Hnf.
  intros Hf. apply wp_shared_bind.
  eapply (wp_yield_in nf c Hnf _ True []); [by apply failed_api|]. intros s Ha1 Hks1.
  eapply (wp_shared_same _ (Some id) (λ _ _, True)); [done| |].
  - intros ids Q q Hk HI. eapply completion_set_error_inv; [done| |].
    + rewrite (k_cfg _ _ _ _ _ Hk). by eapply failed_not_calm.
    + intros s2 HI2 Hks2 _. split_and!; [by exists q|done|done].
  - intros [] s2 Ha2 Hks2 _. assert (keeps_shared (sh w) s2) as Hks by (by etrans).
    split_and!; [|by split|done]. split; [by eapply api_safe|]. simpl.
    rewrite (ks_error _ _ Hks); apply Hf.
Qed.

(** The caller drops its reference. *)
Lemma release_inv G msg id w :
  api_in (Some id) G msg w →
  wp nf (shared_op (yield;; completion_unref update_completed id)) (λ _ w',
    api G msg w' ∧ keeps_api w w' ∧ inflight (hs w') = inflight (hs w)) w.
Proof using Hnf.
  intros Ha. apply wp_shared_bind. eapply (wp_yield_in nf c Hnf); [done|]. intros s Ha1 Hks1.
  eapply (wp_shared_same _ None (λ _ _, True)); [done| |].
  - intros ids Q q Hk HI. eapply wp_mono.
    { eapply completion_release_inv; [|done]. rewrite (k_cfg _ _ _ _ _ Hk). apply nf_calm. }
    intros ? s2 [HI2 Hks2]. split_and!; [by exists q|done|done].
  - intros ? s2 Ha2 Hks2 _. split_and!; [done| |done]. split; [by etrans|done].
Qed.

Lemma api_inflight hold G msg w :
  api_in hold G msg w → (0 <= inflight (hs w) <= queue_depth c) ∧ queue_depth c < 2 ^ 32.
Proof using Type.
  intros (ids & Q & Hk)%api_safe. pose proof (co_depth _ (core_cfg _ _ _ _ _ Hk)).
  destruct (k_shared _ _ _ _ _ Hk) as [q [_ _ _ _ [] _]]. rewrite (k_cfg _ _ _ _ _ Hk) in *. lia.
Qed.

(** The body of the update, between taking the completion and dropping it. *)
Lemma aio_body_inv G msg id w p len b :
  api_in (Some id) G msg w → h_error (sh w) = 0 →
  data_at (mem (sh w)) p len = Some b → 0 <= len < 2 ^ 64 → (G ∨ zlen msg + len < 2 ^ 64) →
  wp nf (on_hash (λ h, with_message_length (u64 (message_length h + len)) h);;
         rc ← do_update p len (Some id) 0;
         (if fails rc then
            e ← get_error; shared_op (yield;; completion_set_error id e)
          else mret tt);;
         shared_op (yield;; completion_unref update_completed id);;
         mret 0)
    (λ rc w', rc = 0 ∧ (api G (msg ++ b) w' ∨ failed None w') ∧ keeps_api w w' ∧
      inflight (hs w') = inflight (hs w)) w.
Proof using Hnf.
  intros Ha He Hd Hlen Hmax. unfold on_hash. do 3 wp_go.
  destruct (mst_length _ _ _ _ _ len Ha He) as [Hm Hml].
  pose proof (data_at_len _ _ _ _ Hd (proj1 Hlen)) as Hb.
  eapply wp_mono.
  { eapply (do_update_inv nf c Hnf (Some id) G msg); [done|done|done|right; by eexists|done]. }
  intros rc w2 Hp. pose proof Hp as (Hkm & _ & _). pose proof (km_inflight _ _ Hkm) as Hinf.
  destruct (post_msg_api c (Some id) G msg b w _ rc w2 len Hp) as (Hka & H0 & Hne); try done.
  { by rewrite Hb. }
  wp_go. unfold fails. destruct (rc =? 0) eqn:E; simpl.
  - do 2 wp_go. eapply wp_mono; [eapply release_inv, H0; lia|].
    intros ? w3 (Ha3 & Hka3 & Hi3). wp_go. split_and!; [done|by left|by etrans|].
    rewrite Hi3. done.
  - wp_go. apply wp_get_error. eapply wp_mono; [eapply report_error_inv, Hne; lia|].
    intros ? w3 (Hf3 & Hka3 & Hi3). wp_go.
    eapply wp_mono; [by eapply (release_inv True []), failed_api|].
    intros ? w4 (Ha4 & Hka4 & Hi4). wp_go. split_and!; [done|right|by etrans; [|etrans]|].
    + split; [by eapply api_safe|]. rewrite (ks_error _ _ (ka_shared _ _ Hka4)); apply Hf3.
    + rewrite Hi4, Hi3. done.
Qed.

Lemma blkhash_aio_update_inv G msg w p len ud b :
  api G msg w → data_at (mem (sh w)) p len = Some b → 0 <= len < 2 ^ 64 →
  (G ∨ zlen msg + len < 2 ^ 64) →
  wp nf (blkhash_aio_update p len ud) (λ rc w', keeps_api w w' ∧
    ((rc ≠ 0 ∧ failed None w') ∨
     (rc = EAGAIN ∧ api G msg w' ∧ inflight (hs w') = inflight (hs w) ∧
      inflight (hs w) = queue_depth c) ∨
     (rc = 0 ∧ (api G (msg ++ b) w' ∨ failed None w') ∧
      inflight (hs w') = inflight (hs w) + 1))) w.
Proof using Hnf.
  intros Ha Hd Hlen Hmax. unfold blkhash_aio_update. wp_go. eapply (wp_yield_in nf c Hnf); [done|].
  intros s Ha1 Hks. wp_go. apply wp_get_error. unfold fails. simpl.
  destruct (h_error s =? 0) eqn:E; simpl.
  2:{ wp_go. split; [by split|]. left. split; [lia|]. split; [by eapply api_safe|simpl; lia]. }
  pose proof (api_inflight _ _ _ _ Ha1) as Hinf. simpl in Hinf.
  pose proof (api_safe _ _ _ _ _ Ha1) as (ids0 & Q0 & Hk0).
  wp_go. eapply wp_config_of; [done|]. do 2 wp_go. simpl.
  destruct (queue_depth c <=? inflight (hs w)) eqn:Eq.
  { wp_go. split; [by split|]. right; left. split_and!; try done. lia. }
  wp_go. apply wp_modify. wp_go. simpl.
  replace (u32 (inflight (hs w) + 1)) with (inflight (hs w) + 1) by (unfold u32; rewrite Z.mod_small; lia).
  eapply (wp_shared_hs _ _ (World s (hs w))).
  eapply (wp_shared_api (completion_new ud) (λ _, inflight (hs w) + 1) (λ r, r.2)
    (λ r s', h_error s' = h_error s ∧
      (r.2 = None → r.1 ≠ 0 ∧ (calm (D := D) (digest_name c) → False))) G msg None (World s (hs w)));
    [done| |].
  { intros ids Q q Hk HI. pose proof (k_cfg _ _ _ _ _ Hk) as Hc. eapply wp_mono.
    { eapply completion_new_inv; [done|rewrite Hc|]; simpl; lia. }
    rewrite Hc. intros [e [id|]] s2 (Hks2 & He2 & Hr); simpl in *; split_and!; try done; try by exists q.
    - by destruct Hr as (_ & _ & ?); exists q.
    - by destruct Hr as (? & ? & _). }
  intros [e [id|]] s2 Ha2 Hks2 [He2 Hr]; simpl in *.
  - eapply wp_mono; [apply (aio_body_inv G msg id _ p len b); [done|simpl; lia| |done|done]|].
    { simpl. by rewrite (ks_mem _ _ Hks2), (ks_mem _ _ Hks). }
    intros rc w3 (-> & Hor & Hka & Hi). split.
    + etrans; [|done]. split; [by etrans|done].
    + right; right. split_and!; [done..|]. by rewrite Hi.
  - destruct (Hr eq_refl) as [He Hnc]. wp_go. destruct (api_safe _ _ _ _ _ Ha2) as (ids2 & Q2 & Hk2).
    eapply wp_fail_with; [done..|]. intros w3 Hk3 Hkp3 Hne3. apply wp_get_error.
    split; [split; [etrans; [done|etrans; [done|apply Hkp3]]|by rewrite (kp_finalized _ _ Hkp3)]|].
    left. split; [done|]. split; [by eexists _, _|done].
Qed.

(** ** blkhash_aio_completions *)

Lemma blkhash_aio_completions_inv G msg w count :
  api G msg w → 0 <= count →
  wp nf (blkhash_aio_completions count) (λ r w', keeps_api w w' ∧
    (failed None w' ∨
     (api G msg w' ∧ r.1 = zlen r.2 ∧ zlen r.2 <= count ∧
      inflight (hs w') = inflight (hs w) - zlen r.2)) ∧
    (calm (D := D) (digest_name c) → Forall (λ x, bc_error x = 0) r.2)) w.
Proof using Hnf.
  intros Ha Hcount. unfold blkhash_aio_completions. wp_go. eapply (wp_yield_in nf c Hnf); [done|].
  intros s Ha1 Hks. wp_go. apply wp_get_error. unfold fails. simpl.
  destruct (h_error s =? 0) eqn:E; simpl.
  2:{ wp_go. split_and!; [by split| |done]. left. split; [by eapply api_safe|simpl; lia]. }
  wp_go. apply wp_shared_bind. eapply (wp_yield_in nf c Hnf); [done|]. intros s2 Ha2 Hks2.
  simpl in *.
  eapply (wp_shared_api (cq_take count) (λ r, inflight (hs w) - zlen r.1) (λ _, None)
    (λ r _, zlen r.1 <= inflight (hs w) ∧ zlen r.1 <= count ∧ (r.2 = true → 0 < queue_depth c) ∧
      (calm (D := D) (digest_name c) → Forall (λ x, bc_error x = 0) r.1))); [done| |].
  { intros ids Q q Hk HI. pose proof (k_cfg _ _ _ _ _ Hk) as Hc. eapply wp_mono; [by eapply cq_take_inv|].
    rewrite Hc. intros [out more] s3 (H1 & H2 & H3 & H4 & H5 & H6 & H7). split_and!; try done. by exists q. }
  intros [out more] s3 Ha3 Hks3 (Hn1 & Hn2 & Hmore & Hclean). simpl in *.
  set (w3 := World s3 (with_inflight (inflight (hs w) - zlen out) (hs w))).
  assert (keeps_api w w3) as Hka3 by (split; [by etrans; [|etrans]|done]).
  wp_go. eapply wp_mono with (P := λ _ w', w' = w3).
  { destruct (0 <? zlen out) eqn:En.
    - do 3 wp_go. apply wp_assertM; [simpl; lia|]. unfold on_hash. by wp_go.
    - wp_go. unfold w3. replace (inflight (hs w) - zlen out) with (inflight (hs w)).
      + by rewrite with_inflight_same.
      + pose proof (zlen_nonneg out). lia. }
  intros _ ? ->. destruct more; [|wp_go; split_and!; [done| |done]; right; by split_and!].
  wp_go. apply wp_shared_bind. eapply (wp_yield_in nf c Hnf); [exact Ha3|]. intros s4 Ha4 Hks4.
  eapply (wp_shared_same event_signal None
    (λ e s', e ≠ 0 → calm (D := D) (digest_name c) → False)); [exact Ha4| |].
  { intros ids Q q Hk HI. pose proof (k_cfg _ _ _ _ _ Hk) as Hc. eapply wp_mono.
    { eapply event_signal_inv; [|done|]; rewrite Hc; [apply nf_calm|auto]. }
    rewrite Hc. intros e s5 (H1 & H2 & H3 & H4 & H5). split_and!; try done. by exists q. }
  intros e s5 Ha5 Hks5 Hnc.
  assert (keeps_api w (World s5 (hs w3))) as Hka5.
  { etrans; [done|]. split; [by etrans|done]. }
  destruct (e =? 0) eqn:Ee; simpl.
  - wp_go. split_and!; [done| |done]. right. by split_and!.
  - wp_go. destruct (api_safe _ _ _ _ _ Ha5) as (ids & Q & Hk).
    eapply wp_fail_with; [done|lia|apply Hnc; lia|]. intros w6 Hk6 Hkp6 Hne6. wp_go.
    split_and!; [etrans; [done|]; split; [apply Hkp6|apply (kp_finalized _ _ Hkp6)]| |done].
    left. split; [by eexists _, _|done].
Qed.
End api_aio.
