(* ===== verification/Init.v ===== *)
(** * Creating a hash

    [blkhash_init] (the body of [blkhash_new_opts]) establishes the invariant of
    the API.  Worker threads start while the pool is being set up, so the
    threads that exist have to be tracked before the pool is complete: [boot] is
    the invariant of that phase. *)

From stdpp Require Import prelude list strings gmap.
From Stdlib Require Import ZArith Lia.
From S2P Require Import Prelude Ring State Digest Zero Event Completion Submission Config HashPool.
From S2P Require Import Blkhash PoolInv PoolStep Progress Spec PoolCaller PoolAio BlkhashInv BlkhashOps.
From S2P Require Import BlkhashUpdate Api.

Local Open Scope Z_scope.

(** ** Code that may crash when something failed

    [wpx ex m Q s]: [m] returns in a state that satisfies [Q], or [ex] holds. *)

Definition wpx (ex : Prop) {St A} (m : M St A) (Q : A → St → Prop) (s : St) : Prop :=
  match m s with Ret a s' => Q a s' | Crash _ => ex end.

Section wpx.
Context (ex : Prop) {St : Type}.
Implicit Types s : St.

Lemma wpx_ret {A} (a : A) (Q : A → St → Prop) s : Q a s → wpx ex (mret a) Q s.
Proof. done. Qed.

Lemma wpx_bind {A B} (m : M St A) (k : A → M St B) (Q : B → St → Prop) s :
  wpx ex m (λ a s', wpx ex (k a) Q s') s → wpx ex (m ≫= k) Q s.
Proof. unfold wpx, mbind, M_bind. by destruct (m s). Qed.

Lemma wpx_mono {A} (m : M St A) (P Q : A → St → Prop) s :
  wpx ex m P s → (∀ a s', P a s' → Q a s') → wpx ex m Q s.
Proof. unfold wpx. destruct (m s); auto. Qed.

Lemma wpx_wp {A} (m : M St A) (Q : A → St → Prop) s : wp False m Q s → wpx ex m Q s.
Proof. unfold wp, wpx. by destruct (m s) as [|[]]. Qed.

(** Once something failed, only the final result matters. *)
Lemma wpx_any {A} (m : M St A) (Q : A → St → Prop) s :
  ex → (∀ a s', Q a s') → wpx ex m Q s.
Proof. unfold wpx. intros. destruct (m s); auto. Qed.
End wpx.

Lemma wpx_shared_op ex {D A} (m : M (shared D) A) (Q : A → world D → Prop) (w : world D) :
  wpx ex m (λ a s, Q a (World s (hs w))) (sh w) → wpx ex (shared_op m) Q w.
Proof. unfold wpx, shared_op, zoom. by destruct (m (sh w)). Qed.

Ltac wpx_step :=
  lazymatch goal with
  | |- wpx _ (mbind _ _) _ _ => apply wpx_bind
  | |- wpx _ (mret _) _ _ => apply wpx_ret
  | |- wpx _ (shared_op _) _ _ => apply wpx_shared_op
  | |- wpx _ _ _ _ => apply wpx_wp; wp_go
  end; cbv beta.

(** ** Options a hash can be created with *)

Record valid_opts (o : blkhash_opts) : Prop := {
  vo_block : 16 <= o_block_size o < 2 ^ 32;
  vo_threads : 1 <= o_threads o <= MAX_THREADS;
  vo_depth : 0 <= o_queue_depth o < 2 ^ 29;
}.

Section init.
Context {D : Type} `{DO : !DigestOps D, DL : !DigestLaws D, EV : !Env}.
Implicit Types (s : shared D) (w : wstate D) (ts : list (wstate D)).

(** The configuration that [config_init] computes. *)
Definition config_for (o : blkhash_opts) : config :=
  Config (hash (o_digest_name o) (zeros (o_block_size o))) (o_digest_name o) (o_block_size o)
    (md_size (o_digest_name o)) (o_threads o) (o_queue_depth o)
    (max_submissions_for (o_queue_depth o) (o_threads o)).

Lemma config_for_ok o : valid_opts o → cfg_ok (config_for o).
Proof.
  intros [Hb Ht Hq]. pose proof (max_submissions_bounds _ _ Hq Ht) as [? _]. unfold MAX_THREADS in Ht.
  split; simpl; try done; lia.
Qed.

Lemma config_for_workers o : valid_opts o → workers (config_for o) <= max_submissions (config_for o).
Proof.
  intros [_ Ht Hq]. pose proof (max_submissions_bounds _ _ Hq Ht) as (? & _ & ?). simpl. unfold MAX_THREADS in Ht. lia.
Qed.

(** [config_init] fails, or computes that configuration. *)
Lemma config_init_inv o s :
  valid_opts o →
  wp False (config_init o) (λ rc s', ∃ n c, s' = with_cfg c (with_n_fault n s) ∧
    (rc = 0 → c = config_for o) ∧ (rc ≠ 0 → calm (D := D) (o_digest_name o) → False)) s.
Proof.
  intros Hv. unfold config_init, compute_zero_md. simpl. do 2 wp_go.
  assert (∀ rc c c0 n s', s' = with_cfg c0 (with_n_fault n s) → (rc = 0 → c = config_for o) →
    (rc ≠ 0 → calm (D := D) (o_digest_name o) → False) →
    wp False (modify (with_cfg c);; mret rc) (λ rc s', ∃ n c, s' = with_cfg c (with_n_fault n s) ∧
      (rc = 0 → c = config_for o) ∧ (rc ≠ 0 → calm (D := D) (o_digest_name o) → False)) s') as Hend.
  { intros rc c c0 n s' -> H1 H2. do 3 wp_go. by exists n, c. }
  do 3 wp_go. unfold fails at 1. simpl.
  destruct (fault (n_fault s) =? 0) eqn:E0; simpl.
  2:{ wp_go. eapply Hend; [reflexivity|lia|]. intros _ Hc. by rewrite (calm_fault _ _ Hc) in E0. }
  do 4 wp_go. simpl. destruct (d_create _ _ _) as [rc od] eqn:Ed. unfold fails at 1.
  destruct (rc =? 0) eqn:E1; simpl.
  2:{ wp_go. eapply Hend; [reflexivity|lia|]. intros _ [Hf Ht]. rewrite !Hf in Ed.
      destruct (d_create_total (DigestTotal := Ht)) as [d Hd]. rewrite Ed in Hd. by simplify_eq. }
  apply Z.eqb_eq in E1 as ->. destruct (d_create_ok _ _ _ _ Ed) as [d ->].
  apply d_create_made in Ed. do 4 wp_go. simpl. destruct (d_init _ _) as [rc d1] eqn:Ei. unfold fails at 1.
  destruct (rc =? 0) eqn:E1; simpl.
  2:{ wp_go. eapply Hend; [reflexivity|lia|]. intros _ [Hf Ht]. rewrite Hf in Ei.
      pose proof (d_init_total (DigestTotal := Ht) d) as Hx. rewrite Ei in Hx. simpl in Hx. lia. }
  apply Z.eqb_eq in E1 as ->. apply (d_init_ok _ _ _ _ Ed) in Ei as Ha.
  do 2 wp_go. simpl. destruct (d_update _ _ _) as [rc d2] eqn:Eu. unfold fails at 1.
  destruct (rc =? 0) eqn:E1; simpl.
  2:{ wp_go. eapply Hend; [reflexivity|lia|]. intros _ [Hf Ht]. rewrite Hf in Eu.
      pose proof (d_update_total (DigestTotal := Ht) d1 (zeros (o_block_size o))) as Hx.
      rewrite Eu in Hx. simpl in Hx. lia. }
  apply Z.eqb_eq in E1 as ->. apply (d_update_ok _ _ _ _ _ _ Ha) in Eu as Hb.
  do 2 wp_go. simpl. destruct (d_final _ _) as [[rc d3] md] eqn:Ef. unfold fails at 1.
  destruct (rc =? 0) eqn:E1; simpl.
  2:{ wp_go. eapply Hend; [reflexivity|lia|]. intros _ [Hf Ht]. rewrite Hf in Ef.
      pose proof (d_final_total (DigestTotal := Ht) d2) as Hx. rewrite Ef in Hx. simpl in Hx. lia. }
  apply Z.eqb_eq in E1 as ->. apply (d_final_ok _ _ _ _ _ _ Hb) in Ef as ->.
  wp_go. apply wp_store_md; [rewrite hash_size; apply md_size_max|]. wp_go.
  eapply Hend; [reflexivity| |done]. intros _. unfold config_for. f_equal. by rewrite hash_size.
Qed.

(** ** The pool while its threads are created *)

(** A configuration for the threads created so far. *)
Definition boot_cfg (n : Z) (c : config) : config :=
  Config (zero_md c) (digest_name c) (block_size c) (md_len c) n (queue_depth c) (max_submissions c).

Record boot s : Prop := {
  bt_cfg : cfg_ok (cfg s);
  bt_threads : threads_inv (boot_cfg (zlen (threads s)) (cfg s))
    (with_workers_count (zlen (threads s)) (pool s)) (threads s) [] [];
  bt_few : zlen (threads s) <= 128;
  bt_worker : ∀ k w, threads s !! k = Some w → held w = None ∧ worker_ok (cfg s) (mem s) ∅ ∅ w;
  bt_calm : calm (D := D) (digest_name (cfg s)) → calm_inv s;
}.

Record boot_frame s s' : Prop := {
  bf_cfg : cfg s' = cfg s;
  bf_mem : mem s' = mem s;
  bf_cq : cq s' = cq s;
  bf_subs : subs s' = subs s;
  bf_comps : comps s' = comps s;
  bf_next_sub : next_sub s' = next_sub s;
  bf_next_comp : next_comp s' = next_comp s;
  bf_error : h_error s' = h_error s;
  bf_count : workers_count (pool s') = workers_count (pool s);
  bf_threads : length (threads s') = length (threads s);
}.

#[global] Instance boot_frame_refl : Reflexive boot_frame.
Proof. by split. Qed.

#[global] Instance boot_frame_trans : Transitive boot_frame.
Proof. intros s1 s2 s3 [] []. split; congruence. Qed.

Definition boot_post s (k : nat) : wstate D → shared D → Prop := λ w' s',
  boot (with_threads (<[k := w']> (threads s')) s') ∧
  boot_frame s (with_threads (<[k := w']> (threads s')) s').

(** A thread moves on; the shared state changes in the pool at most. *)
Lemma boot_move s k w w' p n :
  boot s → threads s !! k = Some w → held w' = None → worker_ok (cfg s) (mem s) ∅ ∅ w' →
  workers_count p = workers_count (pool s) →
  threads_inv (boot_cfg (zlen (threads s)) (cfg s)) (with_workers_count (zlen (threads s)) p)
    (<[k := w']> (threads s)) [] [] →
  (calm (D := D) (digest_name (cfg s)) → p_error p = 0) →
  boot_post s k w' (with_pool p (with_n_fault n s)).
Proof.
  intros [Hcfg Hth Hfew Hw Hcm] Hk Hh Hok Hcount Hth' Hp. split.
  - assert (zlen (<[k := w']> (threads s)) = zlen (threads s)) as El
      by (unfold zlen; by rewrite length_insert).
    split; simpl; rewrite ?El; try done.
    + intros j v [[-> ->]|[? ?]]%lookup_insert_inv; [done|]. by eapply Hw.
    + intros Hcalm. destruct (Hcm Hcalm) as [Hp0 He Hsb Hcc]. split; simpl; auto.
  - split; simpl; try done. by rewrite length_insert.
Qed.

Lemma boot_stay s k w : boot s → threads s !! k = Some w → boot_post s k w s.
Proof.
  intros Hb Hk. unfold boot_post. rewrite list_insert_id by done.
  by replace (with_threads (threads s) s) with s by (by destruct s).
Qed.

Lemma boot_wait s k w d p :
  boot s → threads s !! k = Some w → worker_ok (cfg s) (mem s) ∅ ∅ (WLock d) →
  workers_count p = workers_count (pool s) → p_queue p = p_queue (pool s) →
  threads_inv (boot_cfg (zlen (threads s)) (cfg s)) (with_workers_count (zlen (threads s)) p)
    (<[k := WLock d]> (threads s)) [] [] →
  (calm (D := D) (digest_name (cfg s)) → p_error p = 0) →
  wp False (wait_for_work d) (boot_post s k) (with_pool p s).
Proof.
  intros Hb Hk Hok Hcount Hq Hth Hp. unfold wait_for_work. do 2 wp_go. simpl.
  assert (r_len (p_queue p) = 0) as ->.
  { by apply (ring_repr_len _ _ (ti_ring _ _ _ _ _ Hth)). }
  change (0 =? 0) with true. cbv iota. do 3 wp_go. simpl.
  apply (boot_move s k w (WCondWait d) (with_workers_idle (u32 (workers_idle p + 1)) p) (n_fault s));
    try done.
  assert (k < length (threads s))%nat by (by eapply lookup_lt_Some).
  apply (threads_inv_block _ _ _ _ _ _ Hth); [done|]. apply Hb.
Qed.

Lemma boot_run s k w :
  boot s → threads s !! k = Some w → wp False (worker_run w) (boot_post s k) s.
Proof.
  intros Hb Hk. pose proof Hb as [Hcfg Hth Hfew Hw Hcm].
  destruct (Hw k w Hk) as [Hh Hok].
  assert (calm (D := D) (digest_name (cfg s)) → p_error (pool s) = 0) as Hp
    by (intros Hcalm; apply (Hcm Hcalm)).
  destruct w; simpl in Hh; try done.
  - simpl. do 6 wp_go. simpl. destruct (d_create _ _ _) as [rc od] eqn:Hd. unfold fails.
    destruct (rc =? 0) eqn:E; simpl.
    + apply Z.eqb_eq in E as ->. destruct (d_create_ok _ _ _ _ Hd) as [d ->].
      apply d_create_made in Hd. do 3 wp_go.
      apply (boot_move s k WStart (WLock d) (pool s) (S (S (n_fault s)))); try done.
      by eapply threads_inv_move; eauto.
    + unfold pool_set_error. do 3 wp_go.
      apply (boot_move s k WStart WExit (if p_error (pool s) =? 0 then with_p_error rc (pool s) else pool s)
        (S (S (n_fault s)))); try done.
      * by destruct (p_error (pool s) =? 0).
      * assert (rc ≠ 0) as Hne by lia.
        pose proof (threads_inv_exit _ _ _ _ _ k _ rc Hth Hk eq_refl eq_refl Hne) as Hx.
        simpl in Hx. by destruct (p_error (pool s) =? 0).
      * intros [Hf Ht]. exfalso. rewrite !Hf in Hd.
        destruct (d_create_total (DigestTotal := Ht)) as [d Hd']. rewrite Hd' in Hd. by simplify_eq.
  - pose proof (boot_wait s k (WLock d) d (pool s)) as Hx.
    replace (with_pool (pool s) s) with s in Hx by (by destruct s).
    apply Hx; try done. by rewrite list_insert_id.
  - simpl. wp_go. apply boot_stay; try done.
  - simpl. do 2 wp_go. simpl.
    eapply (boot_wait s k (WWake d) d); try done. by apply (threads_inv_wake _ _ _ _ _ _ _ Hth).
  - simpl. wp_go. apply boot_stay; try done.
Qed.

Lemma boot_step s a : boot s → wp False (worker_step a) (λ _ s', boot s' ∧ boot_frame s s') s.
Proof.
  intros Hb. unfold worker_step. do 2 wp_go. destruct a as [k|k].
  - destruct (threads s !! k) as [w|] eqn:Hk; [|by wp_go].
    wp_go. eapply wp_mono; [by apply boot_run|]. intros w' s' [Hb' Hf]. by wp_go.
  - wp_go.
    assert ((∃ d, threads s !! k = Some (WCondWait d)) ∨ (∀ d, threads s !! k ≠ Some (WCondWait d)))
      as [[d Hk]|Hk].
    { destruct (threads s !! k) as [[]|]; by eauto. }
    + rewrite (alter_wake _ _ _ Hk). pose proof Hb as [Hcfg Hth Hfew Hw Hcm].
      eapply (boot_move s k (WCondWait d) (WWake d) (pool s) (n_fault s)); try done.
      * by destruct (Hw k _ Hk).
      * by eapply threads_inv_notify.
      * intros Hcalm. apply (Hcm Hcalm).
    + rewrite alter_no_wake by done. by destruct s.
Qed.

Lemma boot_yield s : boot s → wp False yield (λ _ s', boot s' ∧ boot_frame s s') s.
Proof.
  intros Hb. unfold yield. do 4 wp_go. generalize (sched (n_tick s)) as l. intros l.
  assert (boot (with_n_tick (S (n_tick s)) s) ∧ boot_frame s (with_n_tick (S (n_tick s)) s)) as [H1 H2].
  { split; [|by split]. destruct Hb as [Hcfg Hth Hfew Hw Hcm]. split; try done.
    intros [Hp He Hsb Hcc Hce]%Hcm. by split. }
  revert H1 H2. generalize (with_n_tick (S (n_tick s)) s) as s1. clear Hb.
  induction l as [|a l IH]; intros s1 H1 H2; simpl; [by wp_go|].
  wp_go. eapply wp_mono; [by apply boot_step|]. intros _ s2 [H3 H4]. apply IH; [done|by etrans].
Qed.

(** ** hash_pool_init *)

Lemma boot_spawn s :
  boot s → zlen (threads s) < 128 → boot (with_threads (threads s ++ [WStart]) s).
Proof.
  intros [Hcfg Hth Hfew Hw Hcm] Hlt.
  assert (∀ k w, (threads s ++ [WStart]) !! k = Some w → threads s !! k = Some w ∨ w = WStart) as Hin.
  { intros k w [?|[_ Hk]]%lookup_app_Some; [by left|].
    apply list_lookup_singleton_Some in Hk as [_ <-]. by right. }
  assert (∀ k id, ¬ holds (threads s ++ [WStart]) k id) as Hnone.
  { intros k id Hk. unfold holds in Hk. destruct (_ !! k) as [w|] eqn:E; [|done]. simpl in Hk.
    destruct (Hin k w E) as [E'| ->]; [|done]. destruct (Hw k w E') as [Hh _]. congruence. }
  split; simpl; rewrite ?zlen_app; try done.
  - destruct Hth. split; simpl; rewrite ?zlen_app; try done.
    + intros id k1 k2 Hk. by destruct (Hnone k1 id).
    + simpl in ti_idle. rewrite ti_idle. unfold idle_count. by rewrite filter_app, length_app, Nat.add_0_r.
    + intros Hp k Hk. destruct (Hin _ _ Hk) as [Hk'|?]; [|done]. by eapply ti_noexit.
  - change (zlen [WStart (D:=D)]) with 1. lia.
  - intros k w Hk. destruct (Hin k w Hk) as [Hk'| ->]; [|done]. by eapply Hw.
  - intros [Hp He Hsb Hcc Hce]%Hcm. by split.
Qed.

(** What the creation of the threads keeps. *)
Record init_frame s s' : Prop := {
  if_cfg : cfg s' = cfg s;
  if_mem : mem s' = mem s;
  if_cq : cq s' = cq s;
  if_subs : subs s' = subs s;
  if_comps : comps s' = comps s;
  if_next_sub : next_sub s' = next_sub s;
  if_next_comp : next_comp s' = next_comp s;
  if_error : h_error s' = h_error s;
}.

#[local] Instance init_frame_refl : Reflexive init_frame.
Proof. by split. Qed.

#[local] Instance init_frame_trans : Transitive init_frame.
Proof. intros s1 s2 s3 [] []. split; congruence. Qed.

Lemma create_workers_inv n s :
  boot s → workers_count (pool s) = zlen (threads s) → zlen (threads s) + Z.of_nat n <= 128 →
  wp False (create_workers n) (λ rc s', init_frame s s' ∧
    (rc = 0 → boot s' ∧ workers_count (pool s') = zlen (threads s') ∧
      zlen (threads s') = zlen (threads s) + Z.of_nat n) ∧
    (rc ≠ 0 → calm (D := D) (digest_name (cfg s)) → False)) s.
Proof.
  revert s. induction n as [|n IH]; intros s Hb Hcount Hmax; simpl.
  { wp_go. split_and!; [done| |done]. intros _. split_and!; [done..|lia]. }
  do 2 wp_go. unfold fails. destruct (fault (n_fault s) =? 0) eqn:E; simpl.
  2:{ wp_go. split_and!; [done|lia|]. intros _ Hc. by rewrite (calm_fault _ _ Hc) in E. }
  do 3 wp_go. eapply wp_mono.
  { apply boot_yield. apply (boot_spawn (with_n_fault (S (n_fault s)) s)); [|simpl; lia].
    destruct Hb as [Hcfg Hth Hfew Hw Hcm]. split; try done. intros [Hp He Hsb Hcc Hce]%Hcm. by split. }
  intros _ s1 [Hb1 Hf1]. do 2 wp_go.
  pose proof (bf_threads _ _ Hf1) as Hlen. simpl in Hlen. rewrite length_app in Hlen. simpl in Hlen.
  pose proof (bf_count _ _ Hf1) as Hc1. simpl in Hc1.
  assert (u32 (workers_count (pool s1) + 1) = zlen (threads s1)) as Hu.
  { unfold u32, zlen in *. rewrite Z.mod_small; lia. }
  rewrite Hu. set (s2 := with_pool _ s1).
  assert (boot s2) as Hb2.
  { destruct Hb1 as [Hcfg Hth Hfew Hw Hcm]. split; try done. intros [Hp He Hsb Hcc Hce]%Hcm. by split. }
  assert (init_frame s s2) as Hif by (destruct Hf1; by split).
  eapply wp_mono; [apply (IH s2 Hb2 eq_refl); simpl; unfold zlen in *; lia|].
  intros rc s3 (Hif3 & H0 & Hne). split_and!; [by etrans| |].
  - intros Hz. destruct (H0 Hz) as (? & ? & Hl). split_and!; [done..|]. simpl in Hl.
    unfold zlen in *. lia.
  - intros Hz. rewrite (if_cfg _ _ Hif) in Hne. auto.
Qed.

Lemma hash_pool_init_inv s :
  cfg_ok (cfg s) → threads s = [] → subs s = ∅ → comps s = ∅ → h_error s = 0 → cq_array (cq s) = [] →
  wpx (calm (D := D) (digest_name (cfg s)) → False) hash_pool_init (λ rc s', 
    (rc = 0 → init_frame s s' ∧ boot s' ∧ workers_count (pool s') = zlen (threads s') ∧
      zlen (threads s') = workers (cfg s)) ∧
    (rc ≠ 0 → calm (D := D) (digest_name (cfg s)) → False)) s.
Proof.
  intros Hcfg Hts Hs Hc He Hqa. unfold hash_pool_init. set (ex := calm _ → False).
  set (Q := λ (rc : Z) (s' : shared D), (rc = 0 → _) ∧ (rc ≠ 0 → ex)).
  assert (∀ e, e ≠ 0 → ex → ∀ s', wpx ex (mret e) Q s') as Hret.
  { intros e Hne Hex s'. wpx_step. by split. }
  assert (∀ n, (fault n =? 0) = false → ex) as Hex.
  { intros n Hn Hcalm. by rewrite (calm_fault _ _ Hcalm) in Hn. }
  pose proof (co_workers _ Hcfg). pose proof (co_max _ Hcfg).
  do 6 wpx_step. unfold fails. simpl.
  destruct (fault (n_fault s) =? 0) eqn:E0; simpl; [|apply Hret; [lia|eauto]].
  do 6 wpx_step. simpl.
  destruct (fault (S (n_fault s)) =? 0) eqn:E1; simpl.
  2:{ wpx_step. apply wpx_any; [eauto|]. intros _ ?. apply Hret; [lia|eauto]. }
  do 4 wpx_step. simpl.
  destruct (fault (S (S (n_fault s))) =? 0) eqn:E2; simpl.
  2:{ wpx_step. apply wpx_any; [eauto|]. intros _ ?. wpx_step. apply wpx_any; [eauto|].
      intros _ ?. apply Hret; [lia|eauto]. }
  do 2 wpx_step. simpl.
  destruct (fault (S (S (S (n_fault s)))) =? 0) eqn:E3; simpl.
  2:{ wpx_step. apply wpx_any; [eauto|]. intros _ ?. wpx_step. apply wpx_any; [eauto|].
      intros _ ?. apply Hret; [lia|eauto]. }
  wpx_step. set (s1 := with_n_fault _ _). apply wpx_wp. eapply wp_mono.
  { apply (create_workers_inv _ s1).
    - split; simpl; rewrite ?Hts; try done; [|intros _; by split; simpl; rewrite ?Hs, ?Hc, ?Hqa].
      split; simpl; try done; [by apply ring_new_repr; lia|constructor].
    - simpl. by rewrite Hts.
    - simpl. rewrite Hts, zlen_nil. lia. }
  intros rc s2 (Hif & Hz & Hne). destruct (rc =? 0) eqn:Erc; simpl.
  - wpx_step. split; [|lia]. intros _. destruct (Hz ltac:(lia)) as (Hb & Hcount & Hl).
    split_and!; [|done|done|].
    + etrans; [|done]. by split.
    + rewrite Hl. simpl. rewrite Hts, zlen_nil. lia.
  - assert ex by (intros Hcalm; apply Hne; [lia|done]). wpx_step. apply wpx_any; [done|]. intros _ ?. wpx_step.
    apply wpx_any; [done|]. intros _ ?. wpx_step. apply wpx_any; [done|]. intros _ ?.
    apply Hret; [lia|done].
Qed.

(** ** blkhash_init *)

Lemma boot_shared s :
  boot s → workers_count (pool s) = zlen (threads s) → zlen (threads s) = workers (cfg s) →
  subs s = ∅ → comps s = ∅ → cq_inv (cfg s) (cq s) ∅ 0 → shared_inv [] [] ∅ None 0 s.
Proof.
  intros [Hcfg Hth Hfew Hw Hcm] Hcount Hl Hs Hc Hcq. split; try done.
  - replace (boot_cfg (zlen (threads s)) (cfg s)) with (cfg s) in Hth.
    2:{ rewrite Hl. by destruct (cfg s). }
    rewrite <-Hcount in Hth. by destruct (pool s).
  - rewrite Hs. split.
    + intros id Hid. by apply elem_of_nil in Hid.
    + intros k w Hk. by apply (Hw k w Hk).
    + intros id a Ha. done.
  - rewrite Hs, Hc. split; try done; try (by intros ? []). 
  - by rewrite Hc.
Qed.

(** The completion queue, open if the hash has one. *)
Definition cq_ready (c : config) (q : completion_queue) : Prop :=
  cq_count q = 0 ∧ zlen (cq_array q) = queue_depth c ∧ (0 < queue_depth c → is_Some (cq_event q)) ∧
  (∀ v, cq_event q = Some v → v = 0 ∧ 0 < queue_depth c) ∧ Forall (λ e, bc_error e = 0) (cq_array q).

Lemma cq_init_inv name c (w : world D) :
  cq (sh w) = CQueue [] None 0 → 0 <= queue_depth c →
  wp False
    (if 0 <? queue_depth c then
       err ← shared_op next_fault;
       if fails err then mret err
       else
         err ← shared_op next_fault;
         if fails err then mret err
         else
           shared_op (on_cq (with_cq_array
             (replicate (Z.to_nat (queue_depth c)) (BlkCompletion 0 0))));;
           err ← shared_op event_open;
           mret (- err)
     else mret 0)
    (λ err (w' : world D), ∃ n q, w' = World (with_cq q (with_n_fault n (sh w))) (hs w) ∧
      (err = 0 → cq_ready c q) ∧ (err ≠ 0 → calm (D := D) name → False)) w.
Proof.
  intros Hq Hd. destruct w as [s h]. simpl in Hq.
  assert (∀ n, (fault n =? 0) = false → calm (D := D) name → False) as Hex.
  { intros n Hn Hcalm. by rewrite (calm_fault _ _ Hcalm) in Hn. }
  destruct (0 <? queue_depth c) eqn:E.
  2:{ wp_go. exists (n_fault s), (cq s). split_and!; [by destruct s|intros _|done].
      rewrite Hq. split_and!; simpl; [done| |lia|done|constructor]. rewrite zlen_nil. lia. }
  do 3 wp_go. unfold fails. simpl. destruct (fault (n_fault s) =? 0) eqn:E0; simpl.
  2:{ wp_go. exists (S (n_fault s)), (cq s). split_and!; [by destruct s|lia|eauto]. }
  do 3 wp_go. simpl. destruct (fault (S (n_fault s)) =? 0) eqn:E1; simpl.
  2:{ wp_go. exists (S (S (n_fault s))), (cq s). split_and!; [by destruct s|lia|eauto]. }
  do 5 wp_go. unfold event_open. do 2 wp_go. simpl. unfold fails. rewrite Hq.
  destruct (fault (S (S (n_fault s))) =? 0) eqn:E2; simpl.
  2:{ do 2 wp_go. eexists (S (S (S (n_fault s)))), _. split_and!; [reflexivity|lia|eauto]. }
  do 2 wp_go. simpl. destruct (fault (S (S (S (n_fault s)))) =? 0) eqn:E3; simpl.
  2:{ do 2 wp_go. eexists (S (S (S (S (n_fault s))))), _. split_and!; [reflexivity|lia|eauto]. }
  do 4 wp_go. eexists (S (S (S (S (n_fault s))))), _. split_and!; [reflexivity|intros _|done].
  split_and!; simpl; [done| |done|intros v [= <-]; lia|by apply Forall_replicate]. unfold zlen. rewrite length_replicate. lia.
Qed.

(** A hash that was just created, beside the invariant of the API. *)
Record newborn (o : blkhash_opts) (m : gmap nat (list byte)) (w : world D) : Prop := {
  nb_mem : mem (sh w) = m;
  nb_cfg : cfg (sh w) = config_for o;
  nb_subs : subs (sh w) = ∅;
  nb_comps : comps (sh w) = ∅;
  nb_cq : cq_ready (config_for o) (cq (sh w));
  nb_error : h_error (sh w) = 0;
  nb_sq : sq (hs w) = ring_new (max_submissions (config_for o));
  nb_finalized : finalized (hs w) = false;
  nb_inflight : inflight (hs w) = 0;
}.

(** The state [blkhash_init] leaves. *)
Lemma init_api o s d q n :
  valid_opts o → boot s → workers_count (pool s) = zlen (threads s) →
  zlen (threads s) = o_threads o → cfg s = config_for o → subs s = ∅ → comps s = ∅ →
  cq_ready (config_for o) q → absorbed d (o_digest_name o) [] →
  api (config_for o) False [] (World (with_n_fault n (with_cq q s))
    (Hash (ring_new (max_submissions (config_for o))) (Buffer (zeros (o_block_size o)) 0 false)
       (Some d) 0 0 0 0 0 false)).
Proof.
  intros Hv Hb Hcount Hl Hcfg Hs0 Hc0 (Hq1 & Hq2 & Hq3 & _ & Hq5) Hd. pose proof (config_for_ok o Hv) as Hok.
  pose proof (co_max _ Hok). pose proof (vo_block _ Hv). exists []. split_and!.
  - exists [], []. split.
    + split; simpl; try done; try lia.
      * exists []. apply boot_shared; simpl; try done.
        -- destruct Hb as [Hc Hth Hfew Hw Hcm]. split; try done.
           intros [Hp He Hsb Hcp Hce]%Hcm. by split.
        -- by rewrite Hcfg.
        -- rewrite Hcfg. pose proof (vo_depth _ Hv). split; simpl; try done; rewrite ?Hq1; try done.
           simpl. lia.
      * constructor.
      * apply ring_new_repr. simpl in *. lia.
      * exists d. split; [done|]. by eapply absorbed_made.
      * rewrite zlen_zeros; lia.
    + right. split; simpl; try lia. exists []. split; [|done]. by exists d.
  - right. split_and!; simpl; [|done|done]. split; [constructor|done].
  - left. simpl. lia.
Qed.

(** [n]: the calls that could fail before. *)
Lemma blkhash_init_inv_at n0 o m :
  valid_opts o →
  wpx (calm (D := D) (o_digest_name o) → False) (blkhash_init o) (λ rc (w' : world D),
    (rc = 0 → api (config_for o) False [] w' ∧ newborn o m w') ∧
    (rc ≠ 0 → calm (D := D) (o_digest_name o) → False)) (World (with_n_fault n0 (sh (fresh_world m))) (hs (fresh_world m))).
Proof.
  intros Hv. pose proof (config_for_ok o Hv) as Hok. set (ex := calm _ → False).
  unfold blkhash_init. set (Q := λ (rc : Z) (w' : world D), (rc = 0 → _) ∧ (rc ≠ 0 → ex)).
  assert (∀ e, e ≠ 0 → ex → ∀ v, wpx ex (mret e) Q v) as Hret.
  { intros e Hne Hex v. wpx_step. by split. }
  assert (∀ n, (fault n =? 0) = false → ex) as Hex.
  { intros n Hn Hcalm. by rewrite (calm_fault _ _ Hcalm) in Hn. }
  do 2 wpx_step. apply wpx_wp. eapply wp_mono; [by apply config_init_inv|].
  intros rc s0 (n & c & -> & Hc & Hne). unfold fails. simpl.
  destruct (rc =? 0) eqn:Erc; simpl; [|apply Hret; [lia|intros Hcalm; apply Hne; [lia|done]]].
  rewrite (Hc ltac:(lia)). clear Hc Hne. do 2 wpx_step.
  eapply wpx_mono; [by apply hash_pool_init_inv|]. simpl.
  intros rc1 s1 (Hz & Hne). destruct (rc1 =? 0) eqn:Erc1; simpl.
  2:{ apply Hret; [lia|intros Hcalm; apply Hne; [lia|done]]. }
  destruct (Hz ltac:(lia)) as (Hif & Hb & Hcount & Hl). clear Hz Hne.
  pose proof (if_cfg _ _ Hif) as Hcfg. simpl in Hcfg.
  unfold config_of. wpx_step. wpx_step. simpl. rewrite Hcfg.
  do 3 wpx_step. simpl. destruct (fault (n_fault s1) =? 0) eqn:E0; simpl; [|apply Hret; [lia|eauto]].
  unfold on_hash. do 2 wpx_step. simpl. wpx_step. apply wpx_wp.
  eapply wp_mono; [apply (cq_init_inv (o_digest_name o) (config_for o))|].
  { simpl. by rewrite (if_cq _ _ Hif). }
  { apply Hok. }
  intros err w2 (n2 & q & -> & Hq & Hne). simpl.
  destruct (err =? 0) eqn:Ee; simpl; [|apply Hret; [lia|intros Hcalm; apply Hne; [lia|done]]].
  do 3 wpx_step. simpl. destruct (fault n2 =? 0) eqn:E1; simpl; [|apply Hret; [lia|eauto]].
  do 8 wpx_step. simpl. destruct (d_create _ _ _) as [rc3 od] eqn:Hd.
  destruct (rc3 =? 0) eqn:E3; simpl.
  2:{ apply Hret; [lia|]. intros [Hf Ht]. rewrite !Hf in Hd.
      destruct (d_create_total (DigestTotal := Ht)) as [d Hd']. rewrite Hd' in Hd. by simplify_eq. }
  apply Z.eqb_eq in E3 as ->. destruct (d_create_ok _ _ _ _ Hd) as [d ->].
  apply d_create_made in Hd. do 5 wpx_step. simpl. destruct (d_init _ _) as [rc4 d4] eqn:Hi.
  do 3 wpx_step. split.
  - intros Hz. assert (rc4 = 0) as -> by lia. apply (d_init_ok _ _ _ _ Hd) in Hi. split.
    + apply (init_api o s1 d4 q); try done; [apply (if_subs _ _ Hif)|apply (if_comps _ _ Hif)|apply Hq; lia].
    + destruct Hif. split; simpl; try done. apply Hq. lia.
  - intros Hz [Hf Ht]. rewrite Hf in Hi. pose proof (d_init_total (DigestTotal := Ht) d) as Hx.
    rewrite Hi in Hx. simpl in Hx. lia.
Qed.

Lemma blkhash_init_inv o m :
  valid_opts o →
  wpx (calm (D := D) (o_digest_name o) → False) (blkhash_init o) (λ rc (w' : world D),
    (rc = 0 → api (config_for o) False [] w' ∧ newborn o m w') ∧
    (rc ≠ 0 → calm (D := D) (o_digest_name o) → False)) (fresh_world m).
Proof. exact (blkhash_init_inv_at 0 o m). Qed.

(** [blkhash_new_opts]: if it fails, the library may crash while it cleans up. *)
Lemma blkhash_new_opts_inv_at n0 o m :
  valid_opts o →
  wpx (calm (D := D) (o_digest_name o) → False) (blkhash_new_opts o) (λ rc (w' : world D),
    (rc = 0 → api (config_for o) False [] w' ∧ newborn o m w') ∧
    (rc ≠ 0 → calm (D := D) (o_digest_name o) → False))
    (World (with_n_fault n0 (sh (fresh_world m))) (hs (fresh_world m))).
Proof.
  intros Hv. unfold blkhash_new_opts. do 3 wpx_step. unfold fails. simpl.
  destruct (fault n0 =? 0) eqn:E; simpl.
  2:{ wpx_step. split; [lia|]. intros _ Hc. by rewrite (calm_fault _ _ Hc) in E. }
  wpx_step. eapply wpx_mono; [by apply (blkhash_init_inv_at (S n0) o m)|]. intros rc w1 [H0 Hne].
  destruct (rc =? 0) eqn:Er; simpl; [wpx_step; split; [intros _; apply H0; lia|done]|].
  unfold wpx, mbind, M_bind, mret, M_ret.
  destruct (blkhash_free w1) as [u w2|k]; [split; [lia|intros _; apply Hne; lia]|apply Hne; lia].
Qed.
End init.
