(* ===== verification/Session.v ===== *)
(** * Sequences of calls

    A client creates a hash, makes any sequence of update calls and asks for the
    digest.  The theorems here say what the digest is for every sequence, every
    number of threads and every schedule. *)

From stdpp Require Import prelude list strings gmap.
From Stdlib Require Import ZArith Lia.
From S2P Require Import Prelude Ring State Digest Zero Event Completion Submission Config HashPool.
From S2P Require Import Blkhash PoolInv PoolStep Progress Spec PoolCaller PoolAio BlkhashInv BlkhashOps.
From S2P Require Import BlkhashUpdate Api ApiAio Init.

Local Open Scope Z_scope.

(** A call of the client between creating the hash and [blkhash_final]. *)
Inductive call :=
| CUpdate (p : data_ptr) (len : Z)
| CZero (len : Z)
| CAioUpdate (p : data_ptr) (len ud : Z)
| CAioCompletions (count : Z).

(** A value of type [size_t]. *)
Definition is_size (n : Z) : bool := (0 <=? n) && (n <? 2 ^ 64).

(** The bytes a call adds to the message; [None] if the arguments are not
    valid: a length out of range or a buffer that is not readable. *)
Definition call_bytes (m : gmap nat (list byte)) (x : call) : option (list byte) :=
  match x with
  | CUpdate p len | CAioUpdate p len _ => if is_size len then data_at m p len else None
  | CZero len => if is_size len then Some (zeros len) else None
  | CAioCompletions count => if is_size count then Some [] else None
  end.

Definition is_sync (x : call) : bool :=
  match x with CUpdate _ _ | CZero _ => true | _ => false end.

(** The bytes of the calls that returned 0, in order.  A call that polls for
    completions adds nothing. *)
Fixpoint message (m : gmap nat (list byte)) (l : list (call * Z)) : list byte :=
  match l with
  | [] => []
  | (x, rc) :: l' =>
      (match x with
       | CAioCompletions _ => []
       | _ => if rc =? 0 then default [] (call_bytes m x) else []
       end) ++ message m l'
  end.

(** All the bytes of the calls. *)
Definition total_bytes (m : gmap nat (list byte)) (l : list call) : list byte :=
  mjoin (default [] <$> (call_bytes m <$> l)).

(** The message digest that the documentation defines, for the options of a
    hash. *)
Definition digest_of {D} `{!DigestOps D, !DigestLaws D} (o : blkhash_opts) (m : list byte) : list byte :=
  blkhash_spec (hash (o_digest_name o)) (o_block_size o) m.

Section session.
Context {D : Type} `{DO : !DigestOps D, EV : !Env}.
Abbreviation MW := (M (world D)).

Definition run_call (x : call) : MW Z :=
  match x with
  | CUpdate p len => blkhash_update p len
  | CZero len => blkhash_zero len
  | CAioUpdate p len ud => blkhash_aio_update p len ud
  | CAioCompletions count => r ← blkhash_aio_completions count; mret r.1
  end.

(** The calls with the values they returned. *)
Fixpoint run_calls (l : list call) : MW (list (call * Z)) :=
  match l with
  | [] => mret []
  | x :: l' => rc ← run_call x; r ← run_calls l'; mret ((x, rc) :: r)
  end.

(** Create a hash, make the calls, and finish. *)
Definition session (o : blkhash_opts) (l : list call) : MW (Z * list (call * Z) * (Z * list byte)) :=
  rc ← blkhash_init o;
  if fails rc then mret (rc, [], (0, []))
  else r ← run_calls l; f ← blkhash_final; mret (0, r, f).
End session.

(** ** One call, many calls *)

Section calls.
Context {D : Type} `{DO : !DigestOps D, DL : !DigestLaws D, EV : !Env}.
Context (nf : Prop) (c : config) (Hnf : nf ∨ live_env (D := D) c).
Implicit Types (w : world D) (m : gmap nat (list byte)).

Lemma message_cons m x rc r :
  message m ((x, rc) :: r) = message m [(x, rc)] ++ message m r.
Proof using Type. simpl. by rewrite app_nil_r. Qed.

Lemma is_size_true n : is_size n = true → 0 <= n < 2 ^ 64.
Proof using Type. unfold is_size. intros [? ?]%andb_true_iff. lia. Qed.

Lemma run_call_inv m (G : Prop) msg w x b :
  api c G msg w → mem (sh w) = m → call_bytes m x = Some b → (G ∨ zlen msg + zlen b < 2 ^ 64) →
  wp nf (run_call x) (λ rc w', keeps_api w w' ∧
    (failed c None w' ∨ api c G (msg ++ message m [(x, rc)]) w') ∧
    (is_sync x = true → rc ≠ 0 → failed c None w') ∧
    (is_sync x = true → rc = 0 → api c G (msg ++ b) w')) w.
Proof using Hnf.
  intros Ha <- Hb Hmax. destruct x as [p len|len|p len ud|count]; simpl in Hb |- *;
    destruct (is_size _) eqn:En; simplify_eq; apply is_size_true in En.
  - pose proof (data_at_len _ _ _ _ Hb ltac:(lia)) as Hl.
    eapply wp_mono; [eapply (blkhash_update_inv nf c Hnf G msg); [done|done|done|by rewrite Hl in *]|].
    intros rc w' (Hka & H0 & Hne). split_and!; [done| |auto..].
    destruct (rc =? 0) eqn:E; [right|left; apply Hne; lia].
    rewrite Hb, app_nil_r. apply H0. lia.
  - assert (zlen (zeros len) = len) as Hl by (apply zlen_zeros; lia). rewrite Hl in Hmax.
    eapply wp_mono; [by eapply (blkhash_zero_inv nf c Hnf G msg)|].
    intros rc w' (Hka & H0 & Hne). split_and!; [done| |auto..].
    destruct (rc =? 0) eqn:E; [right|left; apply Hne; lia]. simpl. rewrite app_nil_r. apply H0. lia.
  - pose proof (data_at_len _ _ _ _ Hb ltac:(lia)) as Hl.
    eapply wp_mono; [eapply (blkhash_aio_update_inv nf c Hnf G msg); [done|done|done|by rewrite Hl in *]|].
    intros rc w' (Hka & [[? Hf]|[(-> & Ha' & _)|(-> & Hor & _)]]); split_and!; try done.
    + by left.
    + right. simpl. by rewrite app_nil_r.
    + destruct Hor as [?|?]; [right|by left]. simpl. by rewrite Hb, app_nil_r.
  - wp_go. eapply wp_mono; [eapply (blkhash_aio_completions_inv nf c Hnf G msg); [done|lia]|].
    intros [n out] w' (Hka & Hor & _). wp_go. split_and!; try done.
    destruct Hor as [?|(? & _)]; [by left|right]. simpl. by rewrite app_nil_r.
Qed.

Lemma total_cons m x l b :
  call_bytes m x = Some b → total_bytes m (x :: l) = b ++ total_bytes m l.
Proof using Type. intros Hb. unfold total_bytes. simpl. by rewrite Hb. Qed.

(** The calls that were made, whatever happened. *)
Lemma message_le m l r :
  Forall (λ x, is_Some (call_bytes m x)) l → r.*1 = l →
  zlen (message m r) <= zlen (total_bytes m l).
Proof using Type.
  revert l. induction r as [|[x rc] r IH]; intros [|x' l] Hl Hr; try done.
  injection Hr as -> Hr. apply Forall_cons in Hl as [[b Hb] Hl].
  rewrite (total_cons _ _ _ _ Hb). simpl. rewrite !zlen_app. specialize (IH _ Hl Hr).
  pose proof (zlen_nonneg b).
  assert (∀ y : list byte, y = b ∨ y = [] → zlen y + zlen (message m r) <=
    zlen b + zlen (total_bytes m l)) as Hy.
  { intros y [->| ->]; [lia|]. rewrite zlen_nil. lia. }
  destruct x'; apply Hy; try (by right); destruct (rc =? 0); try (by right); left; by rewrite Hb.
Qed.

(** A failed hash stays failed. *)
Lemma failed_keeps w w' :
  failed c None w → keeps_api w w' → safe c None w' → failed c None w'.
Proof using Type.
  intros [_ He] Hka Hs. split; [done|]. rewrite (ks_error _ _ (ka_shared _ _ Hka)); done.
Qed.

Lemma message_sync m x b : is_sync x = true → call_bytes m x = Some b → message m [(x, 0)] = b.
Proof using Type. intros Hs Hb. destruct x; simpl in *; try done; by rewrite Hb, app_nil_r. Qed.

Lemma message_one_le m x rc b : call_bytes m x = Some b → zlen (message m [(x, rc)]) <= zlen b.
Proof using Type.
  intros Hb. pose proof (message_le m [x] [(x, rc)]) as Hle. rewrite (total_cons _ _ _ _ Hb) in Hle.
  rewrite app_nil_r in Hle. apply Hle; [|done]. by constructor; [eexists|constructor].
Qed.

(** The calls never crash; when no error is left behind, the hash stands for
    the message of the calls that returned 0. *)
Lemma run_calls_inv m l G msg w :
  api c G msg w → mem (sh w) = m → Forall (λ x, is_Some (call_bytes m x)) l →
  (G ∨ zlen msg + zlen (total_bytes m l) < 2 ^ 64) →
  wp nf (run_calls l) (λ r w', keeps_api w w' ∧ r.*1 = l ∧ safe c None w' ∧
    (failed c None w' ∨ api c G (msg ++ message m r) w')) w.
Proof using Hnf.
  revert G msg w. induction l as [|x l IH]; intros G msg w Ha Hm Hl Hmax; simpl.
  { wp_go. split_and!; [done|done|by eapply api_safe|]. rewrite app_nil_r. by right. }
  apply Forall_cons in Hl as [[b Hb] Hl]. rewrite (total_cons _ _ _ _ Hb), zlen_app in Hmax.
  pose proof (zlen_nonneg b). pose proof (zlen_nonneg (total_bytes m l)).
  wp_go. eapply wp_mono.
  { eapply (run_call_inv m G msg); [done..|]. destruct Hmax; [by left|right; lia]. }
  intros rc w1 (Hka & Hor & _ & _).
  assert (mem (sh w1) = m) as Hm1 by (by rewrite (ks_mem _ _ (ka_shared _ _ Hka))).
  pose proof (message_one_le m x rc b Hb) as Hlb. wp_go.
  destruct Hor as [Hf|Ha1].
  - eapply wp_mono; [apply (IH True []); [by apply failed_api|done|done|by left]|].
    intros r w2 (Hka2 & Hr & Hs2 & _). wp_go.
    split_and!; [by etrans|by rewrite <-Hr|done|]. left. by eapply failed_keeps.
  - eapply wp_mono; [apply (IH G (msg ++ message m [(x, rc)])); [done..|]|].
    { destruct Hmax; [by left|right]. rewrite zlen_app. lia. }
    intros r w2 (Hka2 & Hr & Hs2 & Hor2). wp_go.
    split_and!; [by etrans|by rewrite <-Hr|done|].
    destruct Hor2 as [?|?]; [by left|right]. by rewrite message_cons, app_assoc.
Qed.

(** For sync calls the return codes tell. *)
Lemma run_sync_inv m l G msg w :
  api c G msg w → mem (sh w) = m → Forall (λ x, is_Some (call_bytes m x)) l →
  (G ∨ zlen msg + zlen (total_bytes m l) < 2 ^ 64) → forallb is_sync l = true →
  wp nf (run_calls l) (λ r w', keeps_api w w' ∧ safe c None w' ∧
    (Forall (λ p, p.2 = 0) r → api c G (msg ++ total_bytes m l) w') ∧
    (failed c None w' ∨ Forall (λ p, p.2 = 0) r)) w.
Proof using Hnf.
  revert G msg w. induction l as [|x l IH]; intros G msg w Ha Hm Hl Hmax Hsync; simpl.
  { wp_go. split_and!; [done|by eapply api_safe| |by right]. intros _. by rewrite app_nil_r. }
  apply andb_true_iff in Hsync as [Hsx Hsync].
  apply Forall_cons in Hl as [[b Hb] Hl]. rewrite (total_cons _ _ _ _ Hb), zlen_app in Hmax.
  pose proof (zlen_nonneg b). pose proof (zlen_nonneg (total_bytes m l)).
  wp_go. eapply wp_mono.
  { eapply (run_call_inv m G msg); [done..|]. destruct Hmax; [by left|right; lia]. }
  intros rc w1 (Hka & _ & Hne & Hz).
  assert (mem (sh w1) = m) as Hm1 by (by rewrite (ks_mem _ _ (ka_shared _ _ Hka))).
  wp_go. destruct (decide (rc = 0)) as [->|Hrc].
  - eapply wp_mono; [apply (IH G (msg ++ b)); [by apply Hz|done|done| |done]|].
    { destruct Hmax; [by left|right]. rewrite zlen_app. lia. }
    intros r w2 (Hka2 & Hs2 & Hok & Hor). wp_go. split_and!; [by etrans|done|..].
    + intros [_ Hr]%Forall_cons. rewrite (total_cons _ _ _ _ Hb), app_assoc. auto.
    + destruct Hor; [by left|right]. by constructor.
  - specialize (Hne Hsx Hrc).
    eapply wp_mono; [apply (IH True []); [by apply failed_api|done|done|by left|done]|].
    intros r w2 (Hka2 & Hs2 & _ & _). wp_go. split_and!; [by etrans|done|..].
    + by intros [? _]%Forall_cons.
    + left. by eapply failed_keeps.
Qed.
End calls.

(** ** Sessions *)

Section sessions.
Context {D : Type} `{DO : !DigestOps D, DL : !DigestLaws D, EV : !Env}.
Context (o : blkhash_opts) (m : gmap nat (list byte)) (l : list call).
Context (Hv : valid_opts o) (Hl : Forall (λ x, is_Some (call_bytes m x)) l).
Context (Hmax : zlen (total_bytes m l) < 2 ^ 64).

Local Abbreviation spec := (blkhash_spec (hash (o_digest_name o)) (o_block_size o)).

(** The calls and [blkhash_final], on a hash that was created. *)
Definition finish : M (world D) (list (call * Z) * (Z * list byte)) :=
  r ← run_calls l; f ← blkhash_final; mret (r, f).

Lemma session_finish (w w' : world D) rc r f :
  session o l w = Ret (rc, r, f) w' → rc = 0 →
  ∃ w0, blkhash_init o w = Ret 0 w0 ∧ finish w0 = Ret (r, f) w'.
Proof using Type.
  unfold session, finish, mbind, M_bind, mret, M_ret. intros Hs ->.
  destruct (blkhash_init o w) as [rc0 w0|]; [|done].
  unfold fails in Hs. destruct (rc0 =? 0) eqn:E; simpl in Hs; [|by simplify_eq].
  apply Z.eqb_eq in E as ->. exists w0. split; [done|].
  destruct (run_calls l w0) as [r0 w1|]; [|done]. destruct (blkhash_final w1) as [f0 w2|]; by simplify_eq.
Qed.

Lemma finish_session (w w0 w' : world D) r f :
  blkhash_init o w = Ret 0 w0 → finish w0 = Ret (r, f) w' → session o l w = Ret (0, r, f) w'.
Proof using Type.
  unfold session, finish, mbind, M_bind, mret, M_ret. intros ->. simpl.
  destruct (run_calls l w0) as [r0 w1|]; [|done]. destruct (blkhash_final w1) as [f0 w2|]; intros; by simplify_eq.
Qed.

Lemma run_calls_fst (x : list call) (w w' : world D) r : run_calls x w = Ret r w' → r.*1 = x.
Proof using Type.
  revert w r. induction x as [|y x IH]; intros w r Hr; simpl in Hr; [by injection Hr as <- <-|].
  unfold mbind, M_bind, mret, M_ret in Hr. destruct (run_call y w) as [rc w1|]; [|done].
  destruct (run_calls x w1) as [r1 w2|] eqn:E; [|done]. injection Hr as <- <-. simpl. f_equal. by eapply IH.
Qed.

Lemma finish_calls (w w' : world D) r f : finish w = Ret (r, f) w' → r.*1 = l.
Proof using Type.
  unfold finish, mbind, M_bind, mret, M_ret. intros Hf.
  destruct (run_calls l w) as [r1 w1|] eqn:E; [|done]. destruct (blkhash_final w1) as [f1 w2|]; [|done].
  injection Hf as <- <- <-. by eapply run_calls_fst.
Qed.

(** What holds of a hash that was just created. *)
Lemma init_ready (w : world D) :
  blkhash_init o (fresh_world m) = Ret 0 w →
  api (config_for o) False [] w ∧ mem (sh w) = m ∧ finalized (hs w) = false.
Proof using DL Hv.
  intros Hi. pose proof (blkhash_init_inv o m Hv) as Hx. unfold wpx in Hx. rewrite Hi in Hx.
  by destruct Hx as [[? []] _].
Qed.

(** Init succeeds when nothing fails. *)
Lemma init_total :
  calm (D := D) (o_digest_name o) → ∃ w : world D, blkhash_init o (fresh_world m) = Ret 0 w.
Proof using DL Hv.
  intros Hc. pose proof (blkhash_init_inv o m Hv) as Hx. unfold wpx in Hx.
  destruct (blkhash_init o (fresh_world m)) as [rc w|k]; [|by destruct Hx].
  destruct Hx as [_ Hne]. exists w. f_equal. destruct (decide (rc = 0)); [done|by destruct Hne].
Qed.

Context (nf : Prop) (Hnf : nf ∨ live_env (D := D) (config_for o)).

Lemma finish_sync (w : world D) :
  blkhash_init o (fresh_world m) = Ret 0 w → forallb is_sync l = true →
  wp nf finish (λ r w', safe (config_for o) None w' ∧
    (Forall (λ p, p.2 = 0) r.1 → r.2.1 = 0 → r.2.2 = spec (total_bytes m l)) ∧
    (calm (D := D) (o_digest_name o) → Forall (λ p, p.2 = 0) r.1 ∧ r.2.1 = 0)) w.
Proof using Hv Hl Hmax Hnf.
  intros (Ha & Hm & Hfin)%init_ready Hsync. unfold finish. wp_go. eapply wp_mono.
  { eapply (run_sync_inv nf _ Hnf m l False []); try done. by right. }
  intros r w1 (Hka & Hs1 & Hok & Hor).
  assert (finalized (hs w1) = false) as Hfin1 by (by rewrite (ka_finalized _ _ Hka)).
  wp_go. destruct (decide (Forall (λ p, p.2 = 0) r)) as [Hr|Hr].
  - eapply wp_mono; [eapply (blkhash_final_inv nf _ Hnf False); [by apply Hok|done]|].
    intros [rc md] w2 (Hs2 & _ & _ & _ & Hmd & Hne). wp_go. simpl in *. split_and!; [done|..].
    + intros _ Hz. by destruct (Hmd Hz) as [[]|].
    + intros Hc. split; [done|]. destruct (decide (rc = 0)); [done|by destruct Hne].
  - destruct Hor as [Hf|?]; [|done].
    eapply wp_mono; [eapply (blkhash_final_inv nf _ Hnf True []); [by apply failed_api|done]|].
    intros [rc md] w2 (Hs2 & _ & _ & _ & Hmd & Hne). wp_go. split_and!; [done|done|].
    intros Hc. by destruct (failed_not_calm _ _ _ Hf Hc).
Qed.

Lemma finish_async (w : world D) :
  blkhash_init o (fresh_world m) = Ret 0 w →
  wp nf finish (λ r w', safe (config_for o) None w' ∧ r.1.*1 = l ∧
    (h_error (sh w') = 0 → r.2.1 = 0 → r.2.2 = spec (message m r.1)) ∧
    (calm (D := D) (o_digest_name o) → h_error (sh w') = 0 ∧ r.2.1 = 0)) w.
Proof using Hv Hl Hmax Hnf.
  intros (Ha & Hm & Hfin)%init_ready. unfold finish. wp_go. eapply wp_mono.
  { eapply (run_calls_inv nf _ Hnf m l False []); try done. by right. }
  intros r w1 (Hka & Hr & Hs1 & Hor).
  assert (finalized (hs w1) = false) as Hfin1 by (by rewrite (ka_finalized _ _ Hka)).
  wp_go. destruct Hor as [Hf|Ha1].
  - eapply wp_mono; [eapply (blkhash_final_inv nf _ Hnf True []); [by apply failed_api|done]|].
    intros [rc md] w2 (Hs2 & Hks & _ & _ & _ & _). wp_go. split_and!; [done|done|..].
    + intros He. exfalso. rewrite (ks_error _ _ Hks) in He; by apply Hf.
    + intros Hc. by destruct (failed_not_calm _ _ _ Hf Hc).
  - eapply wp_mono; [by eapply (blkhash_final_inv nf _ Hnf False)|].
    intros [rc md] w2 (Hs2 & _ & _ & _ & Hmd & Hne). wp_go. simpl in *. split_and!; [done|done|..].
    + intros _ Hz. by destruct (Hmd Hz) as [[]|].
    + intros Hc. split; [|destruct (decide (rc = 0)); [done|by destruct Hne]].
      destruct Hs2 as (ids & Q & Hk). destruct (decide (h_error (sh w2) = 0)); [done|].
      by destruct (not_calm_error _ _ _ _ _ Hk n).
Qed.
End sessions.
