(* ===== verification/Reach.v ===== *)
(** * Reachable states of a hash

    [reach o w msg]: a client that created a hash with options [o] and made
    calls with valid arguments, while the worker threads take any steps and the
    client reads the completion descriptor at any time and changes its own buffers
    only while no update is in flight, can see the hash in state [w] after passing
    the message [msg].
    The invariants of the library hold in every reachable state. *)

From stdpp Require Import prelude list strings gmap.
From Stdlib Require Import ZArith Lia.
From S2P Require Import Prelude Ring State Digest Zero Event Completion Submission Config HashPool.
From S2P Require Import Blkhash PoolInv PoolStep Progress Spec PoolCaller PoolAio BlkhashInv BlkhashOps.
From S2P Require Import BlkhashUpdate Api ApiAio Init Session.

Local Open Scope Z_scope.

Section reach.
Context {D : Type} `{DO : !DigestOps D, DL : !DigestLaws D, EV : !Env}.
Implicit Types (w : world D) (msg : list byte).

Inductive reach (o : blkhash_opts) : world D → list byte → Prop :=
| reach_new m w : blkhash_init o (fresh_world m) = Ret 0 w → reach o w []
| reach_call w msg x b rc w' :
    reach o w msg → call_bytes (mem (sh w)) x = Some b → zlen msg + zlen b < 2 ^ 64 →
    run_call x w = Ret rc w' → reach o w' (msg ++ message (mem (sh w)) [(x, rc)])
| reach_work w msg a s :
    reach o w msg → worker_step a (sh w) = Ret tt s → reach o (World s (hs w)) msg
| reach_event w msg rc s :
    reach o w msg → event_wait (sh w) = Ret rc s → reach o (World s (hs w)) msg
| reach_buffers w msg m :
    reach o w msg → inflight (hs w) = 0 → reach o (World (with_mem m (sh w)) (hs w)) msg.

(** No waiting loop has to end for the invariants. *)
Lemma any_nf c : True ∨ live_env (D := D) c.
Proof using Type. by left. Qed.

(** A worker takes a step between two calls. *)
Lemma work_inv c ids Q w a s :
  core c None ids Q w → worker_step a (sh w) = Ret tt s →
  (∃ q, shared_inv q [] (tracked ids Q) None (inflight (hs w)) s) ∧ keeps_shared (sh w) s.
Proof using Type.
  intros Hk Hs. destruct (k_shared _ _ _ _ _ Hk) as [q HI].
  pose proof (worker_step_inv True [] (tracked ids Q) None (inflight (hs w)) (digest_name (cfg (sh w)))
    (or_introl I) q (sh w) a HI eq_refl) as Hw.
  destruct (wp_run _ _ _ _ _ _ Hw Hs) as (q' & _ & HI' & Hf & _). split; [eauto|by apply frame_keeps].
Qed.

(** The client reads the completion descriptor. *)
Lemma event_read_run fuel (s : shared D) rc s' :
  event_read fuel s = Ret rc s' → ∃ n v, s' = with_cq (with_cq_event (Some v) (cq s)) (with_n_fault n s).
Proof using Type.
  revert s. induction fuel as [|fuel IH]; intros s; simpl; unfold next_fault, mbind, M_bind, mret, M_ret, gets, get,
    modify, derefM; simpl; (destruct (cq_event (cq s)) as [v|] eqn:Ev; [|done]); simpl;
    assert (∀ n, with_n_fault n s = with_cq (with_cq_event (Some v) (cq s)) (with_n_fault n s)) as Hs
      by (intros n; destruct s as [? ? ? ? ? ? ? [] ? ? ? ? ?]; simpl in *; by rewrite Ev);
    (destruct (fault (n_fault s) =? 0); [destruct (v =? 0); intros [= <- <-]; [rewrite Hs|]; by eexists _, _|]);
    (destruct (fault (n_fault s) =? EINTR); [|intros [= <- <-]; rewrite Hs; by eexists _, _]); [done|].
  intros Hr. destruct (IH _ Hr) as (n & v' & ->). by exists n, v'.
Qed.

(** What happens to the shared state between two calls. *)
Definition aside w s : Prop := ∀ c ids Q,
  core c None ids Q w → (∃ q, shared_inv q [] (tracked ids Q) None (inflight (hs w)) s) ∧ keeps_shared (sh w) s.

Lemma aside_fault n w : aside w (with_n_fault n (sh w)).
Proof using Type.
  intros c ids Q Hk. destruct (k_shared _ _ _ _ _ Hk) as [q HI]. split; [|done]. exists q. by apply shared_inv_fault.
Qed.

Lemma aside_event n v w : aside w (with_cq (with_cq_event (Some v) (cq (sh w))) (with_n_fault n (sh w))).
Proof using Type.
  intros c ids Q Hk. destruct (k_shared _ _ _ _ _ Hk) as [q HI]. split; [|done]. exists q.
  destruct HI as [Hcfg Hth Hsu Hco Hcq Hcm]. split; simpl; try done.
  - destruct Hcq. by split.
  - intros [Hp Hh Hs Hc Hce]%Hcm. by split.
Qed.

Lemma aside_event_wait w rc s : event_wait (sh w) = Ret rc s → aside w s.
Proof using Type.
  intros He. unfold event_wait, mbind, M_bind, mret, M_ret in He.
  destruct (event_read spins (sh w)) as [e s1|] eqn:Er; [|done].
  apply event_read_run in Er as (n & v & ->).
  destruct (fails e); [destruct (negb (e =? EAGAIN))|]; injection He as <- <-; apply aside_event.
Qed.

Lemma aside_api c G msg w s : aside w s → api c G msg w → api c G msg (World s (hs w)).
Proof using Type.
  intros Has (B & (ids & Q & Hk & Hfn) & Hc & Hp).
  destruct (Has _ _ _ Hk) as [HI Hks]. exists B. split_and!; [|done|].
  - exists ids, Q. split; [by apply core_shared|]. destruct Hfn; [by left|right]. by apply fn_shared.
  - destruct Hp as [?|[? He]]; [by left|right]. split; [done|]. simpl. by rewrite (ks_error _ _ Hks).
Qed.

Lemma aside_failed c w s : aside w s → failed c None w → failed c None (World s (hs w)).
Proof using Type.
  intros Has [(ids & Q & Hk) He]. destruct (Has _ _ _ Hk) as [HI Hks].
  split; [|simpl; by rewrite (ks_error _ _ Hks)]. exists ids, Q. by apply core_shared.
Qed.

(** A hash that was not finalized and stands for the message [msg], unless it
    failed. *)
Definition standing c msg w : Prop :=
  finalized (hs w) = false ∧ (failed c None w ∨ api c False msg w).

Lemma standing_call nf c msg w x b :
  nf ∨ live_env (D := D) c → standing c msg w →
  call_bytes (mem (sh w)) x = Some b → zlen msg + zlen b < 2 ^ 64 →
  wp nf (run_call x) (λ rc w', standing c (msg ++ message (mem (sh w)) [(x, rc)]) w' ∧ keeps_api w w') w.
Proof using Type.
  intros Hnf [Hfin [Hf|Ha]] Hb Hlen.
  - eapply wp_mono; [apply (run_call_inv nf c Hnf _ True [] w x b (failed_api _ _ _ _ Hf) eq_refl Hb (or_introl I))|].
    intros rc w' (Hka & Hor & _). split; [|done]. split; [by rewrite (ka_finalized _ _ Hka)|left].
    destruct Hor as [?|Ha]; [done|]. eapply failed_keeps; [done..|]. by eapply api_safe.
  - eapply wp_mono; [apply (run_call_inv nf c Hnf _ False msg w x b Ha eq_refl Hb (or_intror Hlen))|].
    intros rc w' (Hka & Hor & _). split; [|done]. split; [by rewrite (ka_finalized _ _ Hka)|done].
Qed.

Lemma standing_aside c msg w s : aside w s → standing c msg w → standing c msg (World s (hs w)).
Proof using Type.
  intros Has [Hfin [Hf|Ha]]; (split; [done|]); [left; by apply aside_failed|right; by apply aside_api].
Qed.

Lemma standing_mem c msg w m :
  standing c msg w → undisturbed m (sh w) → standing c msg (World (with_mem m (sh w)) (hs w)).
Proof using Type.
  intros [Hfin IH] Hin. split; [done|]. destruct IH as [[(ids & Q & Hk) He]|Ha]; [left|right; by apply api_mem].
  split; [|done]. exists ids, Q. destruct (k_shared _ _ _ _ _ Hk) as [q HI].
  destruct Hk. split; try done. exists q. by apply shared_inv_mem.
Qed.

Lemma standing_idle c msg w m : standing c msg w → inflight (hs w) = 0 → undisturbed m (sh w).
Proof using Type.
  intros Hs Hin. assert (safe c None w) as (ids & Q & Hk).
  { destruct Hs as [_ [[? _]|?]]; [done|by eapply api_safe]. }
  destruct (k_shared _ _ _ _ _ Hk) as [q HI]. rewrite Hin in HI. by eapply undisturbed_idle.
Qed.

Lemma standing_safe c msg w : standing c msg w → safe c None w.
Proof using Type. intros [_ [[Hs _]|Ha]]; [done|]. by eapply api_safe. Qed.

(** Every reachable state stands for its message. *)
Lemma reach_inv o w msg : valid_opts o → reach o w msg → standing (config_for o) msg w.
Proof using Type.
  intros Hv. induction 1 as [m w Hi|w msg x b rc w' _ IH Hb Hlen Hx|w msg a s _ IH Hs
    |w msg rc s _ IH Hs|w msg m _ IH Hin].
  - destruct (init_ready o m Hv w Hi) as (Ha & _ & ?). split; [done|by right].
  - by apply (wp_run _ _ _ _ _ _ (standing_call True _ _ _ _ _ (any_nf _) IH Hb Hlen) Hx).
  - apply standing_aside; [|done]. intros c ids Q Hk. by eapply work_inv.
  - apply standing_aside; [|done]. by eapply aside_event_wait.
  - apply standing_mem; [done|]. by eapply standing_idle.
Qed.

Lemma reach_safe o w msg : valid_opts o → reach o w msg → safe (config_for o) None w.
Proof using Type.
  intros Hv Hr. by eapply standing_safe, reach_inv.
Qed.

Lemma reach_api o w msg :
  valid_opts o → reach o w msg → ∃ G, api (config_for o) G msg w ∧ (h_error (sh w) = 0 → G → False).
Proof using Type.
  intros Hv [_ [Hf|Ha]]%(reach_inv _ _ _ Hv).
  - exists True. split; [by apply failed_api|]. intros He. by destruct Hf.
  - exists False. by split.
Qed.

End reach.
