(* ===== verification/Free.v ===== *)
(** * Freeing a hash

    [blkhash_free] after [blkhash_final]: nothing is in flight, so that destroying
    the queues before the pool is safe, and [stop_workers] ends: every worker finds
    a STOP entry and exits.  [stopping] is the invariant of the pool between the
    broadcast and the last [pthread_join]. *)

From stdpp Require Import prelude list strings gmap.
From Stdlib Require Import ZArith Lia.
From S2P Require Import Prelude Ring State Digest Zero Event Completion Submission Config HashPool.
From S2P Require Import Blkhash PoolInv PoolStep Progress Spec PoolCaller PoolAio BlkhashInv BlkhashOps.
From S2P Require Import BlkhashUpdate Api Init Session Reach.

Local Open Scope Z_scope.

Section stopping.
Context {D : Type} `{DO : !DigestOps D, DL : !DigestLaws D, EV : !Env}.
Implicit Types (s : shared D) (w : wstate D) (ts : list (wstate D)).

(** The points where a worker can be while the pool stops. *)
Definition going w : bool :=
  match w with WStart | WLock _ | WWake _ | WExit => true | _ => false end.

(** Steps left until it exits. *)
Definition stop_rank w : nat :=
  match w with WStart => 2 | WExit => 0 | _ => 1 end.

(** The STOP entries the workers will pop. *)
Definition needs w : nat := match w with WExit => 0 | _ => 1 end.
Definition alive ts : nat := sum_list_with needs ts.

Record stopping s : Prop := {
  sg_queue : ∃ n, ring_repr (p_queue (pool s)) (replicate n STOP) ∧ (alive (threads s) ≤ n)%nat;
  sg_queue_mem : p_queue_mem (pool s) = CLive;
  sg_workers_mem : p_workers_mem (pool s) = CLive;
  sg_threads : ∀ k w, threads s !! k = Some w → going w = true;
}.

(** What a stopping pool leaves alone. *)
Record stop_frame s s' : Prop := {
  sf_cfg : cfg s' = cfg s;
  sf_cq : cq s' = cq s;
  sf_subs : subs s' = subs s;
  sf_comps : comps s' = comps s;
  sf_herror : h_error s' = h_error s;
  sf_count : workers_count (pool s') = workers_count (pool s);
  sf_length : length (threads s') = length (threads s);
}.

#[global] Instance stop_frame_refl : Reflexive stop_frame.
Proof. by split. Qed.

#[global] Instance stop_frame_trans : Transitive stop_frame.
Proof. intros s1 s2 s3 [] []. split; congruence. Qed.

(** The actions [l] bring every worker that runs closer to its exit. *)
Definition lowers (l : list action) s s' : Prop :=
  ∀ k w, threads s !! k = Some w → ∃ w', threads s' !! k = Some w' ∧
    (stop_rank w' ≤ stop_rank w - (if decide (ARun k ∈ l) then 1 else 0))%nat.

Definition stop_post s (k : nat) w : wstate D → shared D → Prop := λ w' s',
  stopping (with_threads (<[k := w']> (threads s')) s') ∧
  stop_frame s (with_threads (<[k := w']> (threads s')) s') ∧
  threads s' = threads s ∧ n_tick s' = n_tick s ∧ (stop_rank w' ≤ stop_rank w - 1)%nat.

(** A worker moves on; the pool changes in its counters and its queue. *)
Lemma stop_move s k w w' p n m :
  stopping s → threads s !! k = Some w → going w' = true → (stop_rank w' ≤ stop_rank w - 1)%nat →
  ring_repr (p_queue p) (replicate m STOP) → (alive (<[k := w']> (threads s)) ≤ m)%nat →
  p_queue_mem p = CLive → p_workers_mem p = CLive → workers_count p = workers_count (pool s) →
  stop_post s k w w' (with_pool p (with_n_fault n s)).
Proof.
  intros [Hq Hqm Hwm Hth] Hk Hg Hr Hring Hm Hpq Hpw Hcount. split_and!; try done.
  - split; simpl; try done; [by exists m|].
    intros j v [[-> ->]|[? ?]]%lookup_insert_inv; [done|]. by eapply Hth.
  - split; simpl; try done. by rewrite length_insert.
Qed.

Lemma alive_insert ts k w w' :
  ts !! k = Some w → (alive (<[k := w']> ts) + needs w = alive ts + needs w')%nat.
Proof. apply sum_list_with_insert. Qed.

(** A worker that looks for work finds STOP. *)
Lemma stop_wait s k w d p :
  stopping s → threads s !! k = Some w → needs w = 1%nat → (1 ≤ stop_rank w)%nat →
  p_queue p = p_queue (pool s) → p_queue_mem p = CLive → p_workers_mem p = CLive →
  workers_count p = workers_count (pool s) →
  wp False (wait_for_work d) (stop_post s k w) (with_pool p s).
Proof.
  intros Hs Hk Hn Hr Hpq Hqm Hwm Hcount. pose proof Hs as [(n & Hring & Ha) _ _ Hth].
  pose proof (alive_insert _ _ _ WExit Hk) as Hi. simpl in Hi.
  destruct n as [|n]; [lia|]. change (replicate (S n) STOP) with (STOP :: replicate n STOP) in Hring.
  unfold wait_for_work, pop_unlocked, queue_access. do 2 wp_go. simpl. rewrite Hpq.
  rewrite (ring_repr_len _ _ Hring). rewrite zlen_cons.
  destruct (1 + _ =? 0) eqn:E; [pose proof (zlen_nonneg (replicate n STOP)); lia|].
  do 4 wp_go. simpl. rewrite Hqm, Hpq.
  destruct (r_size (p_queue (pool s)) =? 0) eqn:Es; [pose proof (rr_size _ _ Hring); lia|].
  do 2 wp_go. rewrite (ring_peek_repr _ _ _ Hring). do 5 wp_go.
  apply (stop_move s k w WExit (with_p_queue (ring_drop (p_queue (pool s))) p) (n_fault s) n); try done.
  - simpl. lia.
  - by eapply ring_drop_repr.
  - lia.
Qed.

Lemma stop_run s k w :
  stopping s → threads s !! k = Some w → wp False (worker_run w) (stop_post s k w) s.
Proof.
  intros Hs Hk. pose proof Hs as [(n & Hring & Ha) Hqm Hwm Hth].
  pose proof (Hth k w Hk) as Hg. destruct w; simpl in Hg; try done.
  - simpl. do 6 wp_go. simpl. destruct (d_create _ _ _) as [rc od] eqn:Hd. unfold fails.
    destruct (rc =? 0) eqn:E; simpl.
    + apply Z.eqb_eq in E as ->. destruct (d_create_ok _ _ _ _ Hd) as [d ->]. do 3 wp_go.
      apply (stop_move s k WStart (WLock d) (pool s) (S (S (n_fault s))) n); try done.
      pose proof (alive_insert _ _ _ (WLock d) Hk) as Hi. simpl in Hi. lia.
    + unfold pool_set_error. do 3 wp_go.
      apply (stop_move s k WStart WExit (if p_error (pool s) =? 0 then with_p_error rc (pool s) else pool s)
        (S (S (n_fault s))) n); try done; try (by destruct (p_error (pool s) =? 0)); try (simpl; lia).
      pose proof (alive_insert _ _ _ WExit Hk) as Hi. simpl in Hi. lia.
  - pose proof (stop_wait s k (WLock d) d (pool s)) as Hx.
    replace (with_pool (pool s) s) with s in Hx by (by destruct s). apply Hx; done || (simpl; lia).
  - simpl. do 2 wp_go. simpl. apply (stop_wait s k (WWake d) d); done || (simpl; lia).
  - simpl. wp_go. pose proof (stop_move s k WExit WExit (pool s) (n_fault s) n) as Hx.
    replace (with_pool (pool s) (with_n_fault (n_fault s) s)) with s in Hx by (by destruct s).
    apply Hx; try done. by rewrite list_insert_id.
Qed.

Lemma stop_step s a :
  stopping s → wp False (worker_step a) (λ _ s', stopping s' ∧ stop_frame s s' ∧
    n_tick s' = n_tick s ∧ lowers [a] s s') s.
Proof.
  intros Hs. unfold worker_step. do 2 wp_go.
  assert (∀ k, a ≠ ARun k → (∀ w', threads s !! k = Some w' → (stop_rank w' ≤ stop_rank w' -
    if decide (ARun k ∈ [a]) then 1 else 0)%nat)) as Hother.
  { intros k Hne w' _. rewrite decide_False; [lia|]. intros ?%list_elem_of_singleton. congruence. }
  destruct a as [k|k].
  - destruct (threads s !! k) as [w|] eqn:Hk.
    + wp_go. eapply wp_mono; [by apply stop_run|]. intros w' s' (Hs' & Hf & Ht & Htick & Hr). wp_go.
      split_and!; [done..|]. intros j v Hj. simpl. rewrite Ht. destruct (decide (j = k)) as [->|Hne].
      * rewrite list_lookup_insert_eq by (by eapply lookup_lt_Some). eexists. split; [done|].
        rewrite Hk in Hj. simplify_eq. rewrite decide_True; [done|]. by apply list_elem_of_singleton.
      * rewrite list_lookup_insert_ne by done. exists v. split; [done|]. apply Hother; [congruence|done].
    + wp_go. split_and!; [done..|]. intros j v Hj. exists v. split; [done|]. apply Hother; [congruence|done].
  - wp_go. rewrite alter_no_wake.
    2:{ intros d Hd. by pose proof (sg_threads _ Hs _ _ Hd). }
    replace (with_threads (threads s) s) with s by (by destruct s).
    split_and!; [done..|]. intros j v Hj. exists v. split; [done|]. by apply Hother.
Qed.

Lemma stop_yield s :
  stopping s → wp False yield (λ _ s', stopping s' ∧ stop_frame s s' ∧
    n_tick s' = S (n_tick s) ∧ lowers (sched (n_tick s)) s s') s.
Proof.
  intros Hs. unfold yield. do 4 wp_go. generalize (sched (n_tick s)) as l. intros l.
  set (s1 := with_n_tick (S (n_tick s)) s).
  assert (stopping s1) as H1 by (by destruct Hs).
  assert (wp False (run_actions l) (λ _ s', stopping s' ∧ stop_frame s1 s' ∧
    n_tick s' = n_tick s1 ∧ lowers l s1 s') s1) as Hw.
  { clear Hs. revert H1. generalize s1 as s2. induction l as [|a l IH]; intros s2 H2; simpl.
    - wp_go. split_and!; [done..|]. intros k w Hk. exists w. split; [done|].
      rewrite decide_False; [lia|apply not_elem_of_nil].
    - wp_go. eapply wp_mono; [by apply stop_step|]. intros _ s3 (H3 & Hf3 & Ht3 & Hl3).
      eapply wp_mono; [by apply IH|]. intros _ s4 (H4 & Hf4 & Ht4 & Hl4).
      split_and!; [done|by etrans|congruence|]. intros k w Hk.
      destruct (Hl3 k w Hk) as (w3 & Hk3 & Hr3). destruct (Hl4 k w3 Hk3) as (w4 & Hk4 & Hr4).
      exists w4. split; [done|].
      destruct (decide (ARun k ∈ a :: l)) as [[Heq|Hin]%elem_of_cons|]; [| |repeat case_decide; lia].
      + rewrite decide_True in Hr3 by (rewrite Heq; by apply list_elem_of_singleton).
        repeat case_decide; lia.
      + rewrite decide_True in Hr4 by done. repeat case_decide; lia. }
  eapply wp_mono; [done|]. intros _ s' (? & Hf & Ht & Hl). split_and!; [done|by destruct Hf|by rewrite Ht|done].
Qed.

(** ** Joining *)

Section join.
Context (nf : Prop).

(** The fuel [join_loop] needs for worker [i]: it runs at one of the next scheduling
    points, and once more in each later window. *)
Definition join_budget (K fuel : nat) s (i : nat) : Prop :=
  ∀ w, threads s !! i = Some w → stop_rank w ≠ 0%nat →
  ∃ d, (d < K)%nat ∧ ARun i ∈ sched (n_tick s + d)%nat ∧ (K * (stop_rank w - 1) + d ≤ fuel)%nat.

Lemma join_budget_start n K s i :
  fair n K → (i < n)%nat → (2 * K ≤ S spins)%nat → join_budget K spins s i.
Proof.
  intros Hf Hi Hs w Hw Hr. destruct (Hf (n_tick s) i Hi) as (d & Hd & Hin).
  exists d. split_and!; [done..|]. destruct w; simpl in *; lia.
Qed.

Lemma join_budget_step n K fuel s s' i w :
  fair n K → (i < n)%nat → join_budget K fuel s i → lowers (sched (n_tick s)) s s' →
  n_tick s' = S (n_tick s) → threads s !! i = Some w →
  (∃ w', threads s' !! i = Some w' ∧ stop_rank w' = 0%nat) ∨
  ∃ fuel', fuel = S fuel' ∧ join_budget K fuel' s' i.
Proof.
  intros Hf Hi Hb Hl Ht Hw. destruct (Hl i w Hw) as (w' & Hw' & Hr).
  destruct (decide (stop_rank w' = 0%nat)) as [?|Hne]; [left; by exists w'|right].
  destruct (Hb w Hw) as (d & Hd & Hin & Hle); [lia|]. destruct d as [|d].
  - rewrite Nat.add_0_r in Hin. rewrite decide_True in Hr by done.
    assert (1 * 1 ≤ K * (stop_rank w - 1))%nat as Hk by (apply Nat.mul_le_mono; lia).
    destruct fuel as [|fuel]; [lia|]. exists fuel. split; [done|]. intros v Hv Hrv.
    rewrite Hw' in Hv. simplify_eq. destruct (Hf (n_tick s') i Hi) as (d' & Hd' & Hin').
    exists d'. split_and!; [done..|].
    assert (K * (stop_rank v - 1) + K ≤ K * (stop_rank w - 1))%nat as Hdec.
    { rewrite <-Nat.mul_succ_r. apply Nat.mul_le_mono_l. lia. }
    revert Hle Hdec. generalize (K * (stop_rank v - 1))%nat (K * (stop_rank w - 1))%nat. lia.
  - destruct fuel as [|fuel]; [exfalso; revert Hle; generalize (K * (stop_rank w - 1))%nat; lia|]. exists fuel. split; [done|]. intros v Hv Hrv.
    rewrite Hw' in Hv. simplify_eq. exists d. split_and!; [lia| |].
    + rewrite Ht. by replace (S (n_tick s) + d)%nat with (n_tick s + S d)%nat by lia.
    + assert (stop_rank v ≤ stop_rank w)%nat by (case_decide; lia).
      assert (K * (stop_rank v - 1) ≤ K * (stop_rank w - 1))%nat as Hdec by (apply Nat.mul_le_mono_l; lia).
      revert Hle Hdec. generalize (K * (stop_rank v - 1))%nat (K * (stop_rank w - 1))%nat. lia.
Qed.

(** A worker that exited stays so. *)
Definition exited s (i : nat) : Prop := threads s !! i = Some WExit.

Lemma stop_rank_exit w : going w = true → stop_rank w = 0%nat → w = WExit.
Proof. by destruct w. Qed.

Lemma lowers_exited l s s' i : stopping s' → lowers l s s' → exited s i → exited s' i.
Proof.
  intros Hs Hl Hi. destruct (Hl i _ Hi) as (w' & Hw' & Hr). simpl in Hr. unfold exited. rewrite Hw'.
  f_equal. apply stop_rank_exit; [by eapply sg_threads|lia].
Qed.

Definition join_post s (i : nat) : unit → shared D → Prop := λ _ s',
  stopping s' ∧ stop_frame s s' ∧ exited s' i ∧ ∀ j, exited s j → exited s' j.

Lemma join_loop_inv n fuel s i :
  stopping s → (i < length (threads s))%nat →
  (nf ∨ ∃ K, fair n K ∧ (i < n)%nat ∧ join_budget K fuel s i) →
  wp nf (join_loop fuel i) (join_post s i) s.
Proof.
  revert s. induction fuel as [|fuel IH]; intros s Hs Hi Hb.
  all: simpl; wp_go; (eapply wp_nf; [by apply stop_yield|]); intros _ s1 (H1 & Hf1 & Ht1 & Hl1);
    do 2 wp_go; destruct (lookup_lt_is_Some_2 _ _ Hi) as [w Hw];
    destruct (Hl1 i w Hw) as (w1 & Hw1 & Hr1); rewrite Hw1.
  all: destruct (decide (stop_rank w1 = 0%nat)) as [Hz|Hnz];
    [apply stop_rank_exit in Hz as ->; [|by eapply sg_threads]; wp_go; split_and!; [done..|];
     intros j Hj; by eapply lowers_exited|].
  - assert nf.
    { destruct Hb as [?|(K & Hf & Hn & Hb)]; [done|].
      destruct (join_budget_step n K 0 s s1 i w) as [(w' & Hw' & Hz)|(? & ? & _)]; [done..| |done].
      rewrite Hw1 in Hw'. by simplify_eq. }
    by destruct w1.
  - assert (wp nf (join_loop fuel i) (join_post s i) s1) as Hw2; [|by destruct w1].
    eapply wp_mono.
    + apply (IH s1); [done|by rewrite (sf_length _ _ Hf1)|].
      destruct Hb as [?|(K & Hf & Hn & Hb)]; [by left|right].
      destruct (join_budget_step n K (S fuel) s s1 i w) as [(w' & Hw' & Hz)|(f' & Hf' & Hb')]; [done..| |].
      * rewrite Hw1 in Hw'. by simplify_eq.
      * assert (f' = fuel) as -> by lia. by exists K.
    + intros [] s2 (H2 & Hf2 & He2 & Hst). split_and!; [done|by etrans|done|].
      intros j Hj. by eapply Hst, lowers_exited.
Qed.

Lemma join_workers_inv n m i s :
  stopping s → (i + m = length (threads s))%nat → (∀ j, (j < i)%nat → exited s j) →
  (nf ∨ ∃ K, fair n K ∧ (length (threads s) ≤ n)%nat ∧ (2 * K ≤ S spins)%nat) →
  wp nf (join_workers m i) (λ _ s', stopping s' ∧ stop_frame s s' ∧
    ∀ j, (j < length (threads s'))%nat → exited s' j) s.
Proof.
  revert i s. induction m as [|m IH]; intros i s Hs Hm He Hb; simpl.
  { wp_go. split_and!; [done..|]. intros j Hj. apply He. lia. }
  wp_go. unfold pthread_join. do 2 wp_go. rewrite (sg_workers_mem _ Hs). eapply wp_mono.
  { apply (join_loop_inv n spins s i Hs ltac:(lia)). destruct Hb as [?|(K & Hf & Hl & Hk)]; [by left|right].
    exists K. split_and!; [done|lia|]. apply (join_budget_start n); [done|lia|done]. }
  intros _ s1 (H1 & Hf1 & Hi1 & Hst). pose proof (sf_length _ _ Hf1) as Hlen. eapply wp_mono.
  { apply (IH (S i) s1 H1); [lia| |by rewrite Hlen].
    intros j Hj. destruct (decide (j = i)) as [->|]; [done|]. apply Hst, He. lia. }
  intros _ s2 (H2 & Hf2 & He2). split_and!; [done|by etrans|done].
Qed.
End join.
End stopping.

(** ** blkhash_free *)

Section free.
Context {D : Type} `{DO : !DigestOps D, DL : !DigestLaws D, EV : !Env}.
Context (nf : Prop) (c : config) (Hnf : nf ∨ live_env (D := D) c).
Implicit Types (s : shared D) (w : world D).

(** The pool of a hash with no submissions is quiet: the invariant of a pool that
    was just set up holds again. *)
Lemma drained_boot w :
  core c None [] [] w →
  boot (sh w) ∧ comps (sh w) = ∅ ∧ workers_count (pool (sh w)) = zlen (threads (sh w)) ∧
  zlen (threads (sh w)) = workers c.
Proof using Type.
  intros Hk. pose proof (k_cfg _ _ _ _ _ Hk) as Hc. destruct (k_shared _ _ _ _ _ Hk) as [q HI].
  destruct HI as [Hcfg Hth Hsu Hco Hcq Hcm]. rewrite app_nil_r in Hsu.
  assert (q = []) as ->.
  { destruct q as [|id q]; [done|]. by destruct (su_queued _ _ _ _ _ _ Hsu id) as (? & ? & ? & ? & _); [left|]. }
  assert (∀ k (w' : wstate D), threads (sh w) !! k = Some w' → held w' = None) as Hheld.
  { intros k w' Hw'. destruct (held w') as [id|] eqn:E; [|done].
    destruct (worker_holds _ _ _ _ _ _ (su_worker _ _ _ _ _ _ Hsu _ _ Hw') E) as [[? ?] _]. done. }
  split_and!.
  - split; [done| | | |done].
    + assert (boot_cfg (zlen (threads (sh w))) (cfg (sh w)) = cfg (sh w)) as ->.
      { rewrite (ti_few _ _ _ _ _ Hth). by destruct (cfg (sh w)). }
      rewrite <-(ti_count _ _ _ _ _ Hth). by destruct (pool (sh w)).
    + rewrite (ti_few _ _ _ _ _ Hth). apply Hcfg.
    + intros k w' Hw'. split; [by eapply Hheld|]. eapply worker_ok_ext; [by eapply su_worker|].
      intros id Hid. by rewrite (Hheld _ _ Hw') in Hid.
  - apply map_empty. intros x. destruct (comps (sh w) !! x) as [comp|] eqn:E; [|done].
    destruct (ci_refs _ _ _ _ _ _ Hco x comp E) as [Hr Hpos]. exfalso.
    assert (refs_to x (subs (sh w)) None = 0%nat) as Hz; [|lia].
    unfold refs_to. rewrite decide_False, Nat.add_0_r by done. apply map_size_empty_iff, map_empty. intros id.
    apply map_lookup_filter_None. right. intros sub Hsub Hu.
    by destruct (ci_user _ _ _ _ _ _ Hco id sub x Hsub Hu) as [[? ?] _].
  - apply Hth.
  - by rewrite (ti_few _ _ _ _ _ Hth), Hc.
Qed.

Lemma push_stops_inv n m s (Q : unit → shared D → Prop) :
  p_queue_mem (pool s) = CLive → ring_repr (p_queue (pool s)) (replicate m STOP) →
  Z.of_nat (m + n) <= r_size (p_queue (pool s)) →
  (∀ r, ring_repr r (replicate (m + n) STOP) → Q tt (with_pool (with_p_queue r (pool s)) s)) →
  wp nf (push_stops n) Q s.
Proof using Type.
  revert m s. induction n as [|n IH]; intros m s Hmem Hring Hroom HQ; simpl.
  { wp_go. specialize (HQ (p_queue (pool s))). rewrite Nat.add_0_r in HQ. specialize (HQ Hring).
    by replace (with_pool _ s) with s in HQ by (by destruct s as [? ? ? ? ? []]). }
  unfold push_unlocked, queue_access. do 4 wp_go. rewrite Hmem.
  destruct (r_size (p_queue (pool s)) =? 0) eqn:E; [pose proof (rr_size _ _ Hring); lia|]. do 2 wp_go.
  assert (ring_repr (ring_put (p_queue (pool s)) STOP) (replicate (S m) STOP)) as Hput.
  { rewrite replicate_S_end. apply ring_put_repr; [done|]. rewrite (ring_repr_len _ _ Hring). unfold zlen.
    rewrite length_replicate. lia. }
  apply (IH (S m)); simpl; [done..|lia|]. intros r Hr. apply HQ. by rewrite <-Nat.add_succ_comm.
Qed.

Lemma alive_length (ts : list (wstate D)) : (alive ts ≤ length ts)%nat.
Proof using Type. unfold alive. induction ts as [|[] ts IH]; simpl; lia. Qed.

Lemma stop_workers_inv s :
  boot s → cfg s = c → workers_count (pool s) = zlen (threads s) → zlen (threads s) = workers c →
  zlen (threads s) <= max_submissions c →
  wp nf stop_workers (λ _ s', stopping s' ∧ stop_frame s s' ∧
    ∀ j, (j < length (threads s'))%nat → exited s' j) s.
Proof using Hnf.
  intros Hb Hcfg Hcount Hlen Hroom. unfold stop_workers. wp_go. eapply wp_nf; [by apply boot_yield|].
  intros _ s1 [Hb1 Hf1]. do 5 wp_go. simpl. pose proof (bt_threads _ Hb1) as Hth. simpl in Hth.
  pose proof (ti_ring _ _ _ _ _ Hth) as Hring. simpl in Hring. pose proof (bf_threads _ _ Hf1) as Hlen1.
  assert (workers_count (pool s1) = zlen (threads s1)) as Hcount1
    by (rewrite (bf_count _ _ Hf1); unfold zlen in *; lia).
  rewrite (ring_repr_len _ _ Hring). simpl. do 2 wp_go. simpl. rewrite (ring_repr_len _ _ Hring).
  simpl. do 2 wp_go. rewrite Hcount1. unfold zlen at 1. rewrite Nat2Z.id.
  eapply (push_stops_inv _ 0); simpl; [apply Hth|done| |].
  { pose proof (ti_size _ _ _ _ _ Hth) as Hsz. simpl in Hsz. rewrite Hsz, (bf_cfg _ _ Hf1), Hcfg.
    unfold zlen in *. lia. }
  intros r Hr. unfold cond_broadcast. do 2 wp_go. unfold zlen. rewrite Nat2Z.id. eapply wp_mono.
  { apply (join_workers_inv nf (Z.to_nat (workers c)) _ 0).
    - split; simpl; [|apply Hth..|].
      + exists (length (threads s1)). split; [done|]. etrans; [apply alive_length|]. by rewrite length_fmap.
      + intros k w Hk. apply list_lookup_fmap_Some in Hk as (w0 & -> & Hw0).
        destruct (bt_worker _ Hb1 _ _ Hw0) as [Hh _]. by destruct w0.
    - simpl. by rewrite length_fmap.
    - lia.
    - destruct Hnf as [?|(_ & K & Hf & Hsp)]; [by left|right]. exists K. simpl. rewrite length_fmap.
      split_and!; [done|unfold zlen in *; lia|]. nia. }
  intros _ s2 (H2 & Hf2 & He2). split_and!; [done| |done]. etrans; [|done].
  destruct Hf1. split; simpl; try done. by rewrite length_fmap.
Qed.

(** What is left of a hash. *)
Record released w : Prop := {
  rl_threads : ∀ t, t ∈ threads (sh w) → t = WExit;
  rl_queue : p_queue_mem (pool (sh w)) = CFreed;
  rl_workers : p_workers_mem (pool (sh w)) = CFreed;
  rl_comps : comps (sh w) = ∅;
  rl_event : cq_event (cq (sh w)) = None;
  rl_array : cq_array (cq (sh w)) = [];
  rl_sq : sq (hs w) = Ring [] 0 0 0 0;
  rl_outer : outer_digest (hs w) = None;
  rl_pending : b_data (pending (hs w)) = [];
}.

Lemma free_cell_live (Q : cell → shared D → Prop) s : Q CFreed s → wp nf (free_cell CLive) Q s.
Proof using Type. done. Qed.

Lemma blkhash_free_inv w :
  core c None [] [] w → workers c <= max_submissions c →
  (queue_depth c = 0 → cq_event (cq (sh w)) = None) →
  wp nf blkhash_free (λ _ w', released w' ∧ subs (sh w') = subs (sh w) ∧ h_error (sh w') = h_error (sh w)) w.
Proof using Hnf.
  intros Hk Hroom Hclosed. destruct (drained_boot w Hk) as (Hb & Hcomps & Hcount & Hlen).
  pose proof (k_cfg _ _ _ _ _ Hk) as Hcfg. unfold blkhash_free, on_hash. do 4 wp_go. simpl. do 2 wp_go.
  eapply wp_nf; [by apply boot_yield|]. intros _ s1 [Hb1 Hf1]. simpl in Hf1.
  change (boot_frame (sh w) s1) in Hf1. unfold config_of. do 2 wp_go. simpl.
  set (q := if fails (queue_depth c) then CQueue [] None (cq_count (cq s1)) else cq s1).
  rewrite (bf_cfg _ _ Hf1), Hcfg. wp_go.
  assert (∀ h (P : unit → world D → Prop), P tt (World (with_cq q s1) h) →
    wp nf (if fails (queue_depth c) then shared_op event_close;; shared_op (on_cq (with_cq_array []))
           else mret tt) P (World s1 h)) as Hclose.
  { intros h P HP. subst q. destruct (fails (queue_depth c)).
    - wp_go. unfold event_close. do 4 wp_go. simpl. by destruct (cq s1).
    - wp_go. by destruct s1. }
  apply Hclose. clear Hclose. do 3 wp_go. simpl. unfold submission_queue_destroy.
  pose proof (ring_repr_len _ _ (k_ring _ _ _ _ _ Hk)) as Hsq. change (zlen []) with 0 in Hsq.
  rewrite Hsq. do 2 wp_go. simpl. rewrite Hsq. simpl. do 5 wp_go. unfold hash_pool_destroy.
  assert (boot (with_cq q s1)) as Hb2.
  { destruct Hb1 as [? ? ? ? Hcm]. split; try done. intros [? ? ? ? ?]%Hcm. split; try done. simpl. unfold q. by destruct (fails (queue_depth c)). }
  pose proof (bf_count _ _ Hf1). pose proof (bf_threads _ _ Hf1).
  do 2 wp_go. eapply wp_mono.
  { apply (stop_workers_inv (with_cq q s1)); simpl; [done|by rewrite (bf_cfg _ _ Hf1)|unfold zlen in *; lia..]. }
  intros _ s2 (H2 & Hf2 & He2). unfold free_workers, free_queue. do 3 wp_go.
  rewrite (sg_workers_mem _ H2). wp_go. apply free_cell_live. do 4 wp_go. simpl.
  rewrite (sg_queue_mem _ H2). wp_go. apply free_cell_live. do 3 wp_go. simpl.
  destruct Hf2 as [_ Hcq2 Hsubs2 Hcomps2 Herr2 _ _]. simpl in Hcq2, Hsubs2, Hcomps2, Herr2.
  pose proof (bf_cq _ _ Hf1). pose proof (bf_subs _ _ Hf1). pose proof (bf_comps _ _ Hf1). pose proof (bf_error _ _ Hf1).
  split; [|split; simpl; congruence]. split; simpl; try done.
  - intros t [i Hi]%list_elem_of_lookup. specialize (He2 i (lookup_lt_Some _ _ _ Hi)). unfold exited in He2.
    congruence.
  - congruence.
  - rewrite Hcq2. subst q. unfold fails. destruct (queue_depth c =? 0) eqn:E; simpl; [|done].
    rewrite (bf_cq _ _ Hf1). apply Hclosed. lia.
  - rewrite Hcq2. subst q. unfold fails. destruct (queue_depth c =? 0) eqn:E; simpl; [|done].
    rewrite (bf_cq _ _ Hf1). destruct (k_shared _ _ _ _ _ Hk) as [q0 HI].
    pose proof (cq_alloc _ _ _ _ (si_cq _ _ _ _ _ _ HI)) as Ha. rewrite Hcfg in Ha.
    destruct (cq_array _); [done|]. rewrite zlen_cons in Ha. pose proof (zlen_nonneg l). lia.
Qed.
End free.
