(* ===== verification/Account.v ===== *)
(** * Accounting of submissions and async updates

    Invariants that hold on every path on which a hash has no error, beside those
    of the pool: every submission that exists is in the submission queue (nothing
    leaks), every async update is in exactly one place, a live completion or an entry
    of the completion queue, until it is handed to the caller, and a completion queue
    that is not empty has a signaled event or a worker that is about to signal it.
    The proofs are partial: that calls do not crash is shown elsewhere. *)

From stdpp Require Import prelude list strings gmap.
From Stdlib Require Import ZArith Lia.
From S2P Require Import Prelude Ring State Digest Zero Event Completion Submission Config HashPool.
From S2P Require Import Blkhash PoolStep.

Local Open Scope Z_scope.

(** ** Partial correctness *)

(** If [m] returns, [Q] holds. *)
Definition pc {St A} (m : M St A) (Q : A → St → Prop) (s : St) : Prop :=
  match m s with Ret a s' => Q a s' | Crash _ => True end.

Section pc.
Context {St : Type}.
Implicit Types s : St.

Lemma pc_ret {A} (a : A) (Q : A → St → Prop) s : Q a s → pc (mret a) Q s.
Proof. done. Qed.

Lemma pc_bind {A B} (m : M St A) (k : A → M St B) (Q : B → St → Prop) s :
  pc m (λ a s', pc (k a) Q s') s → pc (m ≫= k) Q s.
Proof. unfold pc, mbind, M_bind. by destruct (m s). Qed.

Lemma pc_mono {A} (m : M St A) (P Q : A → St → Prop) s :
  pc m P s → (∀ a s', P a s' → Q a s') → pc m Q s.
Proof. unfold pc. destruct (m s); auto. Qed.

Lemma pc_get (Q : St → St → Prop) s : Q s s → pc get Q s.
Proof. done. Qed.

Lemma pc_gets {A} (f : St → A) (Q : A → St → Prop) s : Q (f s) s → pc (gets f) Q s.
Proof. done. Qed.

Lemma pc_modify (f : St → St) (Q : unit → St → Prop) s : Q tt (f s) → pc (modify f) Q s.
Proof. done. Qed.

Lemma pc_crash {A} k (Q : A → St → Prop) s : pc (crashM k) Q s.
Proof. done. Qed.

Lemma pc_assertM b (Q : unit → St → Prop) s : (b = true → Q tt s) → pc (assertM b) Q s.
Proof. destruct b; intros H; [by apply H|done]. Qed.

Lemma pc_derefM {A} (o : option A) (Q : A → St → Prop) s :
  (∀ a, o = Some a → Q a s) → pc (derefM o) Q s.
Proof. destruct o; intros H; [by apply H|done]. Qed.

Lemma pc_zoom {T A} (prj : St → T) (upd : T → St → St) (m : M T A) Q s :
  pc m (λ a t, Q a (upd t s)) (prj s) → pc (zoom prj upd m) Q s.
Proof. unfold pc, zoom. by destruct (m (prj s)). Qed.

(** Two proofs about one run. *)
Lemma wp_pc (nf : Prop) {A} (m : M St A) (P Q : A → St → Prop) s :
  wp nf m P s → pc m Q s → wp nf m (λ a s', P a s' ∧ Q a s') s.
Proof. unfold wp, pc. by destruct (m s) as [a s'|[]]. Qed.

Lemma wp_and (nf : Prop) {A} (m : M St A) (P Q : A → St → Prop) s :
  wp nf m P s → wp nf m Q s → wp nf m (λ a s', P a s' ∧ Q a s') s.
Proof. unfold wp. by destruct (m s) as [a s'|[]]. Qed.

Lemma pc_run {A} (m : M St A) Q s a s' : pc m Q s → m s = Ret a s' → Q a s'.
Proof. unfold pc. intros H Hm. by rewrite Hm in H. Qed.
End pc.

Ltac pc_step :=
  lazymatch goal with
  | |- pc (mbind _ _) _ _ => apply pc_bind
  | |- pc (mret _) _ _ => apply pc_ret
  | |- pc get _ _ => apply pc_get
  | |- pc (gets _) _ _ => apply pc_gets
  | |- pc (modify _) _ _ => apply pc_modify
  | |- pc (on_cq _) _ _ => apply pc_modify
  | |- pc (on_pool _) _ _ => apply pc_modify
  | |- pc (crashM _) _ _ => apply pc_crash
  | |- pc (assertM _) _ _ => apply pc_assertM; intros ?
  | |- pc (derefM _) _ _ => apply pc_derefM; intros ? ?
  | |- pc (shared_op _) _ _ => unfold shared_op; apply pc_zoom
  | |- pc (zoom _ _ _) _ _ => apply pc_zoom
  | |- pc (let _ := _ in _) _ _ => cbv zeta
  | |- pc (if ?b then _ else _) _ _ => destruct b eqn:?
  | |- pc (match ?x with _ => _ end) _ _ => destruct x eqn:?
  end; cbv beta.

(** ** Buffers of async updates

    A client decides which buffers an update may use, by the user data it passes;
    [claim] is the buffer of each completion. *)

Class Ownership := own : Z → nat → Prop.
Definition any_buffer : Ownership := λ _ _, True.
Class Claims := claim : gmap nat nat.

(** What a data pointer needs to be submitted with a completion. *)
Definition claims `{CL : !Claims} (p : data_ptr) (completion : option nat) : Prop :=
  ∀ c i off, completion = Some c → p = DUser i off → claim !! c = Some i.

Lemma claims_none `{CL : !Claims} p : claims p None.
Proof. by intros c i off. Qed.

Lemma claims_copy `{CL : !Claims} b completion : claims (DCopy b) completion.
Proof. by intros c i off. Qed.

(** ** The invariant of the shared state *)

Section account.
Context {D : Type} `{DO : !DigestOps D, EV : !Env, OW : !Ownership, CL : !Claims}.
Implicit Types (s : shared D) (w : wstate D) (ts : list (wstate D)) (l : list Z).

(** The user data of the async updates that were accepted and not handed back. *)
Definition uds s : list Z :=
  (c_user_data <$> (map_to_list (comps s)).*2) ++
  (user_data <$> ztake (cq_count (cq s)) (cq_array (cq s))).

(** The completion descriptor is readable. *)
Definition ready s : Prop := ∃ v, cq_event (cq s) = Some v ∧ 0 < v.

(** A worker is about to signal it. *)
Definition notifying ts : Prop := ∃ (k : nat) d id, ts !! k = Some (WNotify d id).

(** EAGAIN on writing to an eventfd means that its counter is at its maximum. *)
Definition no_eagain : Prop := ∀ n, fault n ≠ EAGAIN.

(** [n] submissions exist, the updates [l] are in flight; [ob]: the caller is going
    to look at the completion queue anyway.  A submission that reads from a buffer of
    the user and was not completed belongs to an update that may use the buffer. *)
Record tidy (n : Z) l (ob : Prop) s : Prop := {
  td_depth : 0 <= queue_depth (cfg s) < 2 ^ 32;
  td_sub : ∀ id, (next_sub s ≤ id)%nat → subs s !! id = None;
  td_comp : ∀ id, (next_comp s ≤ id)%nat → comps s !! id = None;
  td_count : 0 <= cq_count (cq s) <= zlen (cq_array (cq s));
  td_event : ∀ v, cq_event (cq s) = Some v → 0 <= v ∧ 0 < queue_depth (cfg s);
  td_subs : h_error s = 0 → Z.of_nat (size (subs s)) = n;
  td_uds : uds s ≡ₚ l;
  td_notify : no_eagain → h_error s = 0 → 0 < cq_count (cq s) → ob ∨ ready s ∨ notifying (threads s);
  td_claim : ∀ c, (next_comp s ≤ c)%nat → claim !! c = None;
  td_own : ∀ c comp i, comps s !! c = Some comp → claim !! c = Some i → own (c_user_data comp) i;
  td_buf : ∀ id sub, subs s !! id = Some sub → claims (sub_data sub) (sub_completion sub);
  td_len : ∀ id sub, subs s !! id = Some sub → 0 <= sub_len sub < 2 ^ 32;
}.

(** After an error submissions can leak and events can be lost. *)
Lemma tidy_error n n' l ob ob' s : tidy n l ob s → h_error s ≠ 0 → tidy n' l ob' s.
Proof using Type. intros [] He. by split. Qed.

Lemma tidy_ob n l (ob ob' : Prop) s : tidy n l ob s → (ob → ob') → tidy n l ob' s.
Proof using Type. intros [] Hob. split; try done. intros. destruct td_notify0; auto. Qed.

Lemma tidy_perm n l l' ob s : tidy n l ob s → l ≡ₚ l' → tidy n l' ob s.
Proof using Type. intros [] Hl. split; try done. by rewrite <-Hl. Qed.

(** What an operation leaves alone: an error stays, and if [still], no thread moves. *)
Record steady (still : Prop) s s' : Prop := {
  sy_error : h_error s ≠ 0 → h_error s' ≠ 0;
  sy_threads : still → threads s' = threads s;
}.

#[global] Instance steady_refl still : Reflexive (steady still).
Proof using Type. by split. Qed.

#[global] Instance steady_trans still : Transitive (steady still).
Proof using Type.
  intros s1 s2 s3 [He1 Ht1] [He2 Ht2]. split; [auto|]. intros Hs. by rewrite (Ht2 Hs), (Ht1 Hs).
Qed.

Lemma steady_eq still s s' : h_error s' = h_error s → threads s' = threads s → steady still s s'.
Proof using Type. intros He Ht. split; [by rewrite He|done]. Qed.

(** Operations that keep the account. *)
Context (still : Prop).
Definition keep {A} (m : M (shared D) A) : Prop :=
  ∀ n l ob s, tidy n l ob s → pc m (λ _ s', tidy n l ob s' ∧ steady still s s') s.

(** *** Closure *)

Lemma keep_ret {A} (a : A) : keep (mret a).
Proof using Type. intros n l ob s Hs. by pc_step. Qed.

Lemma keep_crash {A} k : keep (crashM k : M (shared D) A).
Proof using Type. by intros n l ob s Hs. Qed.

Lemma keep_bind {A B} (m : M (shared D) A) (k : A → M (shared D) B) :
  keep m → (∀ a, keep (k a)) → keep (m ≫= k).
Proof using Type.
  intros Hm Hk n l ob s Hs. pc_step. eapply pc_mono; [by apply Hm|]. intros a s1 [H1 He1].
  eapply pc_mono; [by apply Hk|]. intros b s2 [H2 He2]. split; [done|by etrans].
Qed.

Lemma keep_get : keep get.
Proof using Type. intros n l ob s Hs. by pc_step. Qed.

Lemma keep_gets {A} (f : shared D → A) : keep (gets f).
Proof using Type. intros n l ob s Hs. by pc_step. Qed.

Lemma keep_assertM b : keep (assertM b).
Proof using Type. intros n l ob s Hs. by pc_step. Qed.

Lemma keep_derefM {A} (o : option A) : keep (derefM o).
Proof using Type. intros n l ob s Hs. by pc_step. Qed.

Lemma keep_modify f :
  (∀ n l ob s, tidy n l ob s → tidy n l ob (f s) ∧ steady still s (f s)) → keep (modify f).
Proof using Type.
  intros Hf n l ob s Hs. pc_step. by apply Hf.
Qed.

Lemma keep_on_pool f : keep (on_pool f).
Proof using Type. apply keep_modify. intros n l ob s []. by split. Qed.

Lemma keep_next_fault : keep next_fault.
Proof using Type. intros n l ob s []. unfold next_fault. do 4 pc_step. by split. Qed.

Lemma keep_sub_load id : keep (sub_load id).
Proof using Type. intros n l ob s Hs. unfold sub_load. do 2 pc_step. by pc_step. Qed.

Lemma keep_comp_load id : keep (comp_load id).
Proof using Type. intros n l ob s Hs. unfold comp_load. do 2 pc_step. by pc_step. Qed.

(** A submission keeps its data, and its completion until it is completed. *)
Definition same_claim (f : submission → submission) : Prop := ∀ sub,
  sub_len (f sub) = sub_len sub ∧ sub_data (f sub) = sub_data sub ∧ (sub_completion (f sub) = sub_completion sub ∨ sub_completion (f sub) = None).

Lemma keep_sub_update id f : same_claim f → keep (sub_update id f).
Proof using Type.
  intros Hf n l ob s []. unfold sub_update, sub_load. do 4 pc_step. pc_step. split; [|done].
  split; simpl; try done.
  - intros i Hi. rewrite lookup_insert_ne; [by apply td_sub0|]. intros ->. pose proof (td_sub0 i Hi). congruence.
  - intros He. rewrite map_size_insert_Some; [by apply td_subs0|]. by eexists.
  - intros i sub [[<- <-]|[Hne Hi]]%lookup_insert_Some; [|by eapply td_buf0].
    destruct (Hf a) as [_ [-> [-> | ->]]]; [by eapply td_buf0|apply claims_none].
  - intros i sub [[<- <-]|[Hne Hi]]%lookup_insert_Some; [|by eapply td_len0]. rewrite (proj1 (Hf a)). by eapply td_len0.
Qed.

Lemma map_to_list_insert_same (C : gmap nat completion) id c c' :
  C !! id = Some c → c_user_data c' = c_user_data c →
  c_user_data <$> (map_to_list (<[id := c']> C)).*2 ≡ₚ c_user_data <$> (map_to_list C).*2.
Proof using Type.
  intros Hc Hu. rewrite <-(insert_delete_eq C id c'), (map_to_list_insert _ id c') by apply lookup_delete_eq.
  rewrite <-(insert_delete_id C id c Hc) at 2. rewrite (map_to_list_insert _ id c) by apply lookup_delete_eq.
  simpl. by rewrite Hu.
Qed.

Lemma keep_comp_update id f :
  (∀ c, c_user_data (f c) = c_user_data c) → keep (comp_update id f).
Proof using Type.
  intros Hf n l ob s []. unfold comp_update, comp_load. do 4 pc_step. pc_step. split; [|done].
  split; simpl; try done.
  - intros i Hi. rewrite lookup_insert_ne; [by apply td_comp0|]. intros ->. pose proof (td_comp0 i Hi). congruence.
  - etrans; [|by apply td_uds0]. unfold uds. simpl. f_equiv. by apply map_to_list_insert_same with a.
  - intros c' comp i [[<- <-]|[Hne Hc']]%lookup_insert_Some; [rewrite Hf|]; by apply td_own0.
Qed.

Lemma keep_set_error e : keep (set_error e).
Proof using Type.
  intros n l ob s Hs. unfold set_error. do 3 pc_step. pc_step.
  - pc_step. pc_step. destruct Hs as []. split; [|split; [simpl; lia|done]]. split; simpl; try done; intros; by auto with lia.
  - by do 2 pc_step.
Qed.

Lemma set_error_fails n l ob e s :
  tidy n l ob s → e ≠ 0 → pc (set_error e) (λ rc s', rc = -1 ∧ h_error s' ≠ 0 ∧ steady still s s' ∧
    ∀ n ob, tidy n l ob s') s.
Proof using Type.
  intros Hs He. pose proof (keep_set_error e n l ob s Hs) as Hk. unfold set_error in *. revert Hk.
  unfold pc. unfold mbind, M_bind, get. destruct (h_error s =? 0) eqn:E; simpl; intros [Hk Hst].
  - split_and!; [done..|]. intros. eapply tidy_error; [done|]. done.
  - split_and!; [done|lia|done|]. intros. eapply tidy_error; [done|lia].
Qed.

End account.

Create HintDb keep discriminated.
#[export] Hint Extern 1 (keep _ (sub_update _ _)) => apply keep_sub_update; by intros ?; auto : keep.

(** Closes [keep m] by the structure of [m], with a rule for each call. *)
Ltac keep :=
  repeat first
    [ progress (cbv zeta)
    | solve [auto with keep]
    | lazymatch goal with
      | |- keep _ (mbind _ _) => apply keep_bind; [|intros ?]
      | |- keep _ (match ?x with _ => _ end) => destruct x
      | |- keep _ (if ?x then _ else _) => destruct x
      end ].

Section workers.
Context {D : Type} `{DO : !DigestOps D, EV : !Env, OW : !Ownership, CL : !Claims}.
Context (still : Prop).
Local Abbreviation keep := (keep (D := D) still).
Local Abbreviation steady := (steady still).
Implicit Types (s : shared D) (w : wstate D) (ts : list (wstate D)) (l : list Z).

(** *** The operations of the workers *)

#[local] Hint Resolve keep_ret keep_crash keep_get keep_gets keep_assertM keep_derefM keep_on_pool
  keep_next_fault keep_sub_load keep_comp_load keep_set_error : keep.

Lemma keep_completion_set_error id e : keep (completion_set_error id e).
Proof using Type. apply keep_comp_update. intros c. by case_match. Qed.

Lemma keep_completion_ref id : keep (completion_ref id).
Proof using Type. by apply keep_comp_update. Qed.

#[local] Hint Resolve keep_completion_set_error keep_completion_ref : keep.

Lemma keep_submission_set_error id e : keep (submission_set_error id e).
Proof using Type. unfold submission_set_error. keep. Qed.

Lemma keep_read_data p len : keep (read_data p len).
Proof using Type. unfold read_data. keep. Qed.

Lemma keep_is_zero data len : keep (is_zero data len).
Proof using Type. unfold is_zero. keep. Qed.

Lemma keep_store_md md : keep (store_md md).
Proof using Type. unfold store_md. keep. Qed.

#[local] Hint Resolve keep_submission_set_error keep_read_data keep_is_zero keep_store_md : keep.

Lemma keep_pool_is_zero_block sub : keep (pool_is_zero_block sub).
Proof using Type. unfold pool_is_zero_block. keep. Qed.

Lemma keep_compute_block_digest id d : keep (compute_block_digest id d).
Proof using Type. unfold compute_block_digest. keep. Qed.

Lemma keep_queue_access : keep queue_access.
Proof using Type. unfold queue_access. keep. Qed.

#[local] Hint Resolve keep_pool_is_zero_block keep_compute_block_digest keep_queue_access : keep.

Lemma keep_wait_for_work d : keep (wait_for_work d).
Proof using Type. unfold wait_for_work, pop_unlocked. keep. Qed.
#[local] Hint Resolve keep_wait_for_work : keep.

(** *** Signals *)

Lemma event_write_tidy fuel n l ob s :
  tidy n l ob s → pc (event_write fuel) (λ e s', tidy n l ob s' ∧ h_error s' = h_error s ∧
    threads s' = threads s ∧ comps s' = comps s ∧ (e = 0 → ready s') ∧ (e ≠ 0 → ∃ k, e = fault k)) s.
Proof using Type.
  revert s. induction fuel as [|fuel IH]; intros s Hs; simpl; unfold next_fault.
  all: do 4 pc_step; do 6 pc_step; pose proof (Hs) as []; destruct (td_event0 _ H) as [? ?];
    set (s1 := with_n_fault (S (n_fault s)) s);
    assert (tidy n l ob s1) as Hs1 by (by destruct Hs);
    destruct (fault (n_fault s) =? 0) eqn:Ef;
    [do 3 pc_step|destruct (fault (n_fault s) =? EINTR); [|pc_step; split_and!; [done..|lia|eauto]]].
  1,3: assert (ready (with_cq (with_cq_event (Some (a + 1)) (cq s1)) s1)) as Hr
         by (eexists; split; [reflexivity|lia]);
       split_and!; [|done..]; destruct Hs1; split; simpl in *; try done;
         [intros v [= <-]; split; [lia|done]|auto].
  - pc_step.
  - exact (IH s1 Hs1).
Qed.

Lemma event_signal_tidy n l ob s :
  tidy n l ob s → pc event_signal (λ e s', tidy n l ob s' ∧ h_error s' = h_error s ∧
    threads s' = threads s ∧ comps s' = comps s ∧ (no_eagain → e = 0 → ready s')) s.
Proof using Type.
  intros Hs. unfold event_signal. pc_step. eapply pc_mono; [by apply event_write_tidy|].
  intros e s' (H1 & H2 & H2' & H3 & H4 & H5). unfold fails. destruct (e =? 0) eqn:E; simpl.
  - pc_step. split_and!; [done..|]. intros _ _. apply H4. lia.
  - destruct (H5 ltac:(lia)) as [k Hk]. destruct (e =? EAGAIN) eqn:E'; simpl; pc_step; split_and!; try done.
    + intros Hn _. destruct (Hn k). lia.
    + intros _ ?. lia.
Qed.

Lemma notify_tidy n l ob ob' s :
  tidy n l ob s → pc update_completed_notify (λ _ s', tidy n l ob' s' ∧ steady s s' ∧
    comps s' = comps s) s.
Proof using Type.
  intros Hs. unfold update_completed_notify. pc_step. eapply pc_mono; [by apply event_signal_tidy|].
  intros e s' (H1 & H2 & H2' & H3 & H4). unfold fails. destruct (e =? 0) eqn:E; simpl.
  - pc_step. split_and!; [|by apply steady_eq|done]. destruct H1. split; try done. intros Hn _ _. right. left.
    apply H4; [done|lia].
  - pc_step. assert (- e ≠ 0) as Hne by lia. pose proof (set_error_fails still _ _ _ _ _ H1 Hne) as Hx.
    unfold set_error in *. unfold pc, mbind, M_bind, get in *. 
    destruct (h_error s' =? 0); simpl in *; (split_and!; [apply Hx|etrans; [by apply steady_eq|apply Hx]|done]).
Qed.

(** *** Completions *)

Lemma push_tidy ud e n l ob s :
  tidy n l ob s → pc (update_completed_push ud e) (λ b s', tidy n (ud :: l) (ob ∨ b = true) s' ∧
    h_error s' = h_error s ∧ threads s' = threads s ∧ comps s' = comps s) s.
Proof using Type.
  intros []. unfold update_completed_push. do 3 pc_step. pc_step. do 2 pc_step; [pc_step|].
  do 4 pc_step. set (q := cq s) in *. apply Z.leb_gt in Heqb. apply Z.ltb_lt in H.
  assert (u32 (cq_count q + 1) = cq_count q + 1) as Hu by (unfold u32; apply Z.mod_small; lia).
  assert (Z.to_nat (cq_count q) < length (cq_array q))%nat as Hlt by (unfold zlen in *; lia).
  split_and!; [|done..]. split; simpl; rewrite ?Hu; try done.
  - unfold zlen in *. rewrite length_insert. lia.
  - unfold uds. simpl. unfold ztake.
    replace (Z.to_nat (cq_count q + 1)) with (S (Z.to_nat (cq_count q))) by lia.
    erewrite take_S_r by (by apply list_lookup_insert_eq). rewrite take_insert_ge by done.
    rewrite fmap_app, (assoc_L _), (Permutation_app_comm _ (user_data <$> [_])). simpl. f_equiv.
    done.
  - intros Hn He _. destruct (cq_count q =? 0) eqn:E; [by left; right|].
    destruct (td_notify0 Hn He) as [?|?]; [lia|by left; left|by right].
Qed.

Lemma update_completed_tidy ud e n l ob s :
  tidy n l ob s → pc (update_completed ud e) (λ _ s', tidy n (ud :: l) ob s' ∧ steady s s' ∧
    comps s' = comps s) s.
Proof using Type.
  intros Hs. unfold update_completed. pc_step. eapply pc_mono; [by apply push_tidy|].
  intros b s1 (H1 & He1 & Ht1 & Hc1). destruct b.
  - eapply pc_mono; [by eapply notify_tidy|]. intros _ s2 (H2 & He2 & Hc2).
    split_and!; [done|etrans; [by apply steady_eq|done]|congruence].
  - pc_step. split_and!; [|by apply steady_eq|done]. eapply tidy_ob; [done|]. by intros [?|?].
Qed.

Lemma tidy_comp_delete n l ob s id c :
  tidy n (c_user_data c :: l) ob s → comps s !! id = Some c →
  tidy n l ob (with_comps (delete id (comps s)) s).
Proof using Type.
  intros [] Hc. split; simpl; try done.
  - intros i Hi. by rewrite lookup_delete_None, td_comp0; [right|].
  - unfold uds in *. simpl.
    rewrite <-(map_to_list_delete _ _ _ Hc) in td_uds0. simpl in td_uds0.
    by apply Permutation_cons_inv in td_uds0.
  - intros c' comp i [_ Hc']%lookup_delete_Some. by apply td_own0.
Qed.

(** Dropping a reference, for a callback that reports the update it is called for. *)
Lemma unref_tidy {A} (cb : Z → Z → M (shared D) A) (post : A → Prop → Prop) id n l ob s :
  (∀ ud e n l ob s, tidy n l ob s → pc (cb ud e) (λ r s', tidy n (ud :: l) (post r ob) s' ∧ steady s s' ∧
    comps s' = comps s) s) →
  tidy n l ob s →
  pc (completion_unref cb id) (λ r s',
    match r with Some a => tidy n l (post a ob) s' | None => tidy n l ob s' end ∧ steady s s') s.
Proof using Type.
  intros Hcb Hs. unfold completion_unref. pc_step. eapply pc_mono; [by apply keep_comp_update|].
  intros _ s1 [H1 He1]. unfold comp_load. do 3 pc_step. pc_step. pc_step; [|by pc_step].
  pc_step. eapply pc_mono; [by apply Hcb|]. intros r s2 (H2 & He2 & Hc2). do 3 pc_step.
  split; [|etrans; [done|]; etrans; [done|]; by apply steady_eq]. eapply tidy_comp_delete; [done|]. by rewrite Hc2.
Qed.

Lemma keep_unref id : keep (completion_unref update_completed id).
Proof using Type.
  intros n l ob s Hs. eapply pc_mono; [eapply (unref_tidy _ (λ _ ob, ob)); [|done]|].
  - intros. by apply update_completed_tidy.
  - intros [] s' [H1 H2]; by split.
Qed.
#[local] Hint Resolve keep_unref : keep.

Lemma keep_submission_complete id : keep (submission_complete id).
Proof using Type. unfold submission_complete. keep. Qed.

(** *** Steps of a worker *)

Lemma notifying_insert ts k w w' :
  ts !! k = Some w → notifying ts → (∀ d id, w ≠ WNotify d id) ∨ (∃ d id, w' = WNotify d id) →
  notifying (<[k := w']> ts).
Proof using Type.
  intros Hk (j & d & id & Hj) Hw. destruct (decide (j = k)) as [->|Hne].
  - destruct Hw as [Hw|(d' & id' & ->)]; [congruence|]. exists k, d', id'.
    apply list_lookup_insert_eq. by eapply lookup_lt_Some.
  - exists j, d, id. by rewrite list_lookup_insert_ne.
Qed.

(** A worker moves on; it does not drop a notification it owes. *)
Lemma tidy_thread n l ob (ob' : Prop) s k w w' :
  tidy n l ob' s → threads s !! k = Some w →
  (ob' → ob ∨ ∃ d id, w' = WNotify d id) →
  (∀ d id, w ≠ WNotify d id) ∨ (∃ d id, w' = WNotify d id) ∨ (no_eagain → h_error s = 0 → ready s) →
  tidy n l ob (with_threads (<[k := w']> (threads s)) s).
Proof using Type.
  intros [] Hk Hob Hw. split; try done. intros Hn He Hc. simpl in *.
  assert (∀ d id, w' = WNotify d id → notifying (<[k := w']> (threads s))) as Hnew.
  { intros d id ->. exists k, d, id. apply list_lookup_insert_eq. by eapply lookup_lt_Some. }
  destruct (td_notify0 Hn He Hc) as [[?|(d & id & Hw')]%Hob|[?|Hnt]]; [by left|by eauto|by right; left|].
  destruct Hw as [Hw|[(d & id & Hw')|Hr]]; [|by eauto|by right; left; auto].
  right; right. eapply notifying_insert; eauto.
Qed.
End workers.

(** ** Threads and the caller's operations on the shared state *)

Section steps.
Context {D : Type} `{DO : !DigestOps D, EV : !Env, OW : !Ownership, CL : !Claims}.
Implicit Types (s : shared D) (w : wstate D) (ts : list (wstate D)) (l : list Z).
Local Abbreviation keep_true := (keep (D := D) True).
Local Abbreviation keep := (keep (D := D) False).
Local Abbreviation steady := (steady False).

#[local] Hint Resolve keep_ret keep_crash keep_get keep_gets keep_assertM keep_derefM keep_on_pool
  keep_next_fault keep_sub_load keep_comp_load keep_set_error keep_completion_set_error
  keep_completion_ref keep_submission_set_error keep_read_data keep_is_zero keep_store_md
  keep_pool_is_zero_block keep_compute_block_digest keep_queue_access keep_wait_for_work keep_unref
  keep_submission_complete : keep.

(** The result of a step of worker [k]. *)
Definition moved (k : nat) n l ob s : wstate D → shared D → Prop := λ w' s',
  tidy n l ob (with_threads (<[k := w']> (threads s')) s') ∧ (h_error s ≠ 0 → h_error s' ≠ 0).

(** A step that owes no notification before and after it. *)
Lemma quiet_step k n l ob s w (m : M (shared D) (wstate D)) :
  tidy n l ob s → threads s !! k = Some w → (∀ d id, w ≠ WNotify d id) → keep_true m →
  pc m (moved k n l ob s) s.
Proof using Type.
  intros Hs Hk Hw Hm. eapply pc_mono; [by apply Hm|]. intros w' s' [H' [He Ht]]. split; [|done].
  eapply tidy_thread; [done|by rewrite Ht|auto..].
Qed.

Lemma worker_run_tidy k n l ob s w :
  tidy n l ob s → threads s !! k = Some w → pc (worker_run w) (moved k n l ob s) s.
Proof using Type.
  intros Hs Hk. destruct w; try (eapply quiet_step; [done..|]; unfold worker_run, pool_set_error, submission_set_zero; keep; fail).
  - simpl. unfold sub_load at 1. do 3 pc_step. pc_step. destruct (sub_completion a) as [c|].
    + pc_step. eapply pc_mono; [eapply (unref_tidy True _ (λ b ob, ob ∨ b = true)); [|done]|].
      { intros. eapply pc_mono; [by apply push_tidy|]. intros b s1 (H1 & He & Ht & Hc).
        split_and!; [done|by apply steady_eq|done]. }
      intros r s1 [H1 [He1 Ht1]].
      assert (tidy n l (ob ∨ r = Some true) s1) as H2.
      { destruct r as [b|]; (eapply tidy_ob; [done|]); [intros [?| ->]; auto|auto]. }
      pc_step. eapply pc_mono; [by apply (keep_sub_update True); [intros ?; auto|]|]. intros _ s2 [H3 [He3 Ht3]]. pc_step.
      split; [|auto]. eapply (tidy_thread _ _ _ (ob ∨ r = Some true)); [done|by rewrite Ht3, Ht1| |left; done].
      intros [?| ->]; [by left|right; by eexists _, _].
    + pc_step. split; [|done]. eapply tidy_thread; [done..|auto|left; done].
  - simpl. unfold update_completed_notify. pc_step. pc_step. eapply pc_mono; [by apply event_signal_tidy|].
    intros e s1 (H1 & He1 & Ht1 & Hc1 & Hr). unfold fails. destruct (e =? 0) eqn:E; simpl.
    + do 2 pc_step. split; [|by rewrite He1]. eapply tidy_thread; [done|by rewrite Ht1|auto|].
      right; right. intros Hn _. apply Hr; [done|lia].
    + pc_step. eapply pc_mono; [eapply (set_error_fails True); [done|lia]|].
      intros rc s2 (_ & He2 & [_ Ht2] & H2). do 2 pc_step. split; [|done].
      eapply (tidy_thread _ _ _ False); [apply H2|by rewrite Ht2, Ht1|done|by right; right].
Qed.

Lemma notifying_wake ts (f : list (wstate D) → list (wstate D)) :
  (∀ k d id, ts !! k = Some (WNotify d id) → f ts !! k = Some (WNotify d id)) →
  notifying ts → notifying (f ts).
Proof using Type. intros Hf (k & d & id & Hk). exists k, d, id. auto. Qed.

Lemma tidy_threads n l ob s f :
  tidy n l ob s → (∀ k d id, threads s !! k = Some (WNotify d id) → f (threads s) !! k = Some (WNotify d id)) →
  tidy n l ob (with_threads (f (threads s)) s).
Proof using Type.
  intros [] Hf. split; try done. intros Hn He Hc. simpl in *.
  destruct (td_notify0 Hn He Hc) as [?|[?|?]]; [by left|by right; left|right; right]. by eapply notifying_wake.
Qed.

Lemma alter_wake_notify (i : nat) ts k d id :
  ts !! k = Some (WNotify d id) → alter wake_thread i ts !! k = Some (WNotify d id).
Proof using Type.
  intros Hk. destruct (decide (i = k)) as [->|?]; [|by rewrite list_lookup_alter_ne].
  by rewrite list_lookup_alter_eq, Hk.
Qed.

Lemma keep_worker_step a : keep (worker_step a).
Proof using Type.
  intros n l ob s Hs. unfold worker_step. do 2 pc_step. destruct a as [k|k].
  - destruct (threads s !! k) as [w|] eqn:Hk; [|by pc_step].
    pc_step. eapply pc_mono; [by apply (worker_run_tidy k n l ob)|]. intros w' s1 [H1 He1]. pc_step.
    by split; [|split].
  - pc_step. split; [|by split]. by eapply (tidy_threads _ _ _ _ (alter wake_thread k)); [|apply alter_wake_notify].
Qed.
#[local] Hint Resolve keep_worker_step : keep.

Lemma keep_yield : keep yield.
Proof using Type.
  unfold yield. apply keep_bind; [keep|]. intros s. apply keep_bind.
  { apply keep_modify. intros ? ? ? ? []. by split; split. }
  intros _. induction (sched (n_tick s)) as [|a l IH]; simpl; keep.
Qed.
#[local] Hint Resolve keep_yield : keep.

Lemma keep_cond_signal : keep cond_signal.
Proof using Type.
  unfold cond_signal. apply keep_bind; [keep|]. intros s0. apply keep_bind.
  { apply keep_modify. intros ? ? ? ? []. by split; split. }
  intros _. cbv zeta. case_match; [|keep]. apply keep_modify. intros n0 l0 ob s Hs. split; [|by split].
  by eapply (tidy_threads _ _ _ _ (alter wake_thread _)); [|apply alter_wake_notify].
Qed.
#[local] Hint Resolve keep_cond_signal : keep.

Lemma keep_hash_pool_submit id : keep (hash_pool_submit id).
Proof using Type. unfold hash_pool_submit, push_unlocked. keep. Qed.

Lemma keep_is_completed id : keep (submission_is_completed yield id).
Proof using Type. unfold submission_is_completed. keep. Qed.
#[local] Hint Resolve keep_is_completed : keep.

Lemma keep_submission_wait id : keep (submission_wait yield id).
Proof using Type. unfold submission_wait. induction spins as [|n IH]; simpl; keep. Qed.
#[local] Hint Resolve keep_hash_pool_submit keep_submission_wait : keep.

(** *** Operations that change the account *)

Lemma sub_alloc_tidy sub n l ob s :
  tidy n l ob s → claims (sub_data sub) (sub_completion sub) → 0 <= sub_len sub < 2 ^ 32 → pc (sub_alloc sub) (λ _ s', tidy (n + 1) l ob s' ∧ steady s s') s.
Proof using Type.
  intros [] Hcl Hlen. unfold sub_alloc. do 7 pc_step. split; [|by split]. split; simpl; try done.
  - intros i Hi. rewrite lookup_insert_ne by lia. apply td_sub0. lia.
  - intros He. rewrite map_size_insert_None by (apply td_sub0; lia). specialize (td_subs0 He). lia.
  - intros i sub' [[<- <-]|[Hne Hi]]%lookup_insert_Some; [done|by eapply td_buf0].
  - intros i sub' [[<- <-]|[Hne Hi]]%lookup_insert_Some; [done|by eapply td_len0].
Qed.

(** The number of submissions after a call that may create one. *)
Definition created n l ob s : Z * option nat → shared D → Prop := λ r s',
  tidy (if r.2 is Some _ then n + 1 else n) l ob s' ∧ steady s s' ∧ (r.1 = 0 → is_Some r.2).

(** The data of a new submission: what was passed, or a copy of it. *)
Lemma data_source_tidy data c len (copy : bool) n l ob s :
  claims data c → tidy n l ob s →
  pc (if copy then copy_data data len else mret (0, data))
    (λ r s', tidy n l ob s' ∧ steady s s' ∧ (r.1 = 0 → claims r.2 c)) s.
Proof using Type.
  intros Hcl Hs. destruct copy; [|by pc_step]. unfold copy_data. pc_step.
  eapply pc_mono; [by apply keep_next_fault|]. intros err s1 [H1 Hy1]. unfold fails.
  destruct (err =? 0) eqn:E; simpl; [|pc_step; split_and!; [done..|simpl; lia]].
  pc_step. eapply pc_mono; [by apply (keep_read_data False)|]. intros b s2 [H2 Hy2]. pc_step.
  split_and!; [done|by etrans|]. intros _. apply claims_copy.
Qed.

Lemma create_data_tidy index len data c flags n l ob s :
  claims data c → tidy n l ob s → pc (submission_create_data index len data c flags) (created n l ob s) s.
Proof using Type.
  intros Hcl Hs. unfold submission_create_data. pc_step. eapply pc_mono; [by apply keep_next_fault|].
  intros err s1 [H1 Hy1]. unfold fails at 1. destruct (err =? 0) eqn:E; simpl.
  2:{ pc_step. split_and!; [done..|simpl; lia]. }
  pc_step. eapply pc_mono.
  { apply (data_source_tidy data c (u32 len) (Z.testbit flags 0) n l ob s1 Hcl H1). }
  intros [err2 data'] s2 (H2 & Hy2 & Hcl2). simpl in Hcl2. unfold fails. destruct (err2 =? 0) eqn:E2; simpl.
  2:{ pc_step. split_and!; [done|by etrans|simpl; lia]. }
  pc_step. eapply pc_mono.
  { assert (keep (if c is Some c then completion_ref c else mret tt)) as Hk by keep. by apply Hk. }
  intros [] s3 [H3 Hy3]. pc_step. eapply pc_mono; [apply sub_alloc_tidy; [done|apply Hcl2; lia|by apply Z.mod_pos_bound]|].
  intros id s4 [H4 Hy4]. pc_step. split_and!; [done|do 3 (etrans; [done|]); done|by eexists].
Qed.

Lemma create_zero_tidy index n l ob s :
  tidy n l ob s → pc (submission_create_zero index) (created n l ob s) s.
Proof using Type.
  intros Hs. unfold submission_create_zero. pc_step. eapply pc_mono; [by apply keep_next_fault|].
  intros err s1 [H1 Hy1]. unfold fails. destruct (err =? 0) eqn:E; simpl.
  2:{ pc_step. split_and!; [done..|simpl; lia]. }
  pc_step. eapply pc_mono; [by apply sub_alloc_tidy; [|apply claims_none|]|].
  intros id s2 [H2 Hy2]. pc_step. split_and!; [done|by etrans|by eexists].
Qed.

Lemma destroy_tidy id n l ob s :
  tidy n l ob s → pc (submission_destroy id) (λ _ s', tidy (n - 1) l ob s' ∧ steady s s') s.
Proof using Type.
  intros []. unfold submission_destroy, sub_load. do 3 pc_step. pc_step. pc_step. split; [|by split].
  split; simpl; try done.
  - intros i Hi. apply lookup_delete_None. right. by apply td_sub0.
  - intros He. rewrite map_size_delete_Some by (by eexists). specialize (td_subs0 He).
    assert (size (subs s) ≠ 0%nat); [|lia]. intros Hz%map_size_empty_inv. by rewrite Hz in *.
  - intros i sub [_ Hi]%lookup_delete_Some. by eapply td_buf0.
  - intros i sub [_ Hi]%lookup_delete_Some. by eapply td_len0.
Qed.

(** The claim of a new completion for the data of its update. *)
Definition claim_for (p : data_ptr) (c : nat) : Claims :=
  match p with DUser i _ => <[c := i]> claim | _ => claim end.

Lemma claim_for_claims p c : claims (CL := claim_for p c) p (Some c).
Proof using Type. intros c' i off [= <-] ->. simpl. unfold claim at 1. apply lookup_insert_eq. Qed.

(** The user data lets an update use the buffer that its data is in. *)
Definition may_use (ud : Z) (p : data_ptr) : Prop := ∀ i off, p = DUser i off → own ud i.

Lemma claim_for_lookup p c c' i :
  claim (Claims := claim_for p c) !! c' = Some i →
  (c' = c ∧ ∃ off, p = DUser i off) ∨ claim (Claims := CL) !! c' = Some i.
Proof using Type.
  unfold claim_for, claim at 1. destruct p as [|j off|b]; [by right| |by right].
  intros [[<- <-]|[_ ?]]%lookup_insert_Some; [left; eauto|by right].
Qed.

Lemma completion_new_tidy ud p n l ob s :
  tidy n l ob s → may_use ud p → pc (completion_new ud) (λ r s',
    match r.2 with
    | Some c => tidy (CL := claim_for p c) n (ud :: l) ob s'
    | None => tidy n l ob s'
    end ∧ steady s s' ∧ (r.2 = None → r.1 ≠ 0)) s.
Proof using Type.
  intros Hs Hu. unfold completion_new. pc_step. eapply pc_mono; [by apply keep_next_fault|].
  intros err s1 [[] Hy1]. unfold fails. destruct (err =? 0) eqn:E; simpl.
  2:{ pc_step. split_and!; [done..|simpl; lia]. }
  do 7 pc_step. split_and!; [|by destruct Hy1|done].
  assert (∀ c, (next_comp s1 ≤ c)%nat → claim (Claims := CL) !! c = None) as Hnone by done.
  split; simpl; try done.
  - intros i Hi. rewrite lookup_insert_ne by lia. apply td_comp0. lia.
  - unfold uds. simpl. rewrite map_to_list_insert by (apply td_comp0; lia). simpl. by f_equiv.
  - intros c Hc. destruct (claim (Claims := claim_for _ _) !! c) as [i|] eqn:Ec; [|done].
    apply claim_for_lookup in Ec as [[-> _]|Ec]; [lia|]. rewrite Hnone in Ec by lia. done.
  - intros c comp i [[<- <-]|[Hne Hc]]%lookup_insert_Some Hi; apply claim_for_lookup in Hi as [[Hc' [off ->]]|Hi].
    + simpl. by apply (Hu i off).
    + rewrite Hnone in Hi by lia. done.
    + done.
    + by eapply td_own0.
  - intros id sub Hid c i off Hc Hd. pose proof (td_buf0 id sub Hid c i off Hc Hd) as Hi.
    unfold claim_for. destruct p as [|j off'|b]; [done| |done]. unfold claim at 1. rewrite lookup_insert_ne; [done|].
    intros <-. rewrite Hnone in Hi by lia. done.
Qed.

(** What is left of the array of completions after [m] of [n] were taken. *)
Lemma taken_rest {A} (arr : list A) m n :
  0 <= m <= n → n <= zlen arr →
  let rest := if 0 <? n - m then ztake (n - m) (zdrop m arr) ++ zdrop (n - m) arr else arr in
  ztake n arr = ztake m arr ++ ztake (n - m) rest ∧ n - m <= zlen rest.
Proof using Type.
  intros Hm Hn rest. assert (ztake (n - m) rest = ztake (n - m) (zdrop m arr)) as ->.
  { subst rest. destruct (0 <? n - m) eqn:E.
    - rewrite ztake_app_le, ztake_all; [done|by rewrite zlen_ztake; rewrite ?zlen_zdrop; lia..].
    - replace (n - m) with 0 by lia. done. }
  split.
  - unfold ztake, zdrop. rewrite take_take_drop. f_equal. lia.
  - subst rest. destruct (0 <? n - m) eqn:E; [|lia].
    rewrite zlen_app, zlen_ztake by (rewrite zlen_zdrop; lia). pose proof (zlen_nonneg (zdrop (n - m) arr)). lia.
Qed.

(** A call that asks for no completions can leave the event unsignaled. *)
Lemma cq_take_tidy count n l ob s :
  tidy n l ob s → 0 <= count →
  pc (cq_take count) (λ r s', ∃ l', l ≡ₚ (user_data <$> r.1) ++ l' ∧
    tidy n l' (r.2 = true ∨ (ob ∧ count = 0)) s' ∧ h_error s' = h_error s) s.
Proof using Type.
  intros Hs Hc. pose proof Hs as []. unfold cq_take. do 3 pc_step; set (q := cq s) in *;
    set (m := MIN count (cq_count q)) in *;
    assert (0 <= m <= cq_count q) as Hm by (subst m; unfold MIN; case_match; lia);
    apply Z.ltb_lt in Heqb || apply Z.ltb_ge in Heqb.
  - do 2 pc_step. destruct (taken_rest (cq_array q) m (cq_count q)) as [Htk Hlen]; [lia..|].
    revert Htk Hlen. generalize (if 0 <? cq_count q - m then
      ztake (cq_count q - m) (zdrop m (cq_array q)) ++ zdrop (cq_count q - m) (cq_array q)
      else cq_array q) as rest. intros rest Htk Hlen.
    exists (uds (with_cq (with_cq_count (cq_count q - m) (with_cq_array rest q)) s)).
    split_and!; [| |done]; [|split; simpl; try done; [lia|]].
    + rewrite <-td_uds0. unfold uds at 1. fold q. rewrite Htk, fmap_app. simpl.
      rewrite (assoc_L _), (Permutation_app_comm _ (user_data <$> ztake m (cq_array q))), <-(assoc_L _). done.
    + intros _ _ Hp. left. left. lia.
  - pc_step. exists l. split_and!; [done| |done]. split; try done. intros Hn He Hp.
    destruct (td_notify0 Hn He Hp) as [?|?]; [left; right|by right]. split; [done|].
    subst m. unfold MIN in Heqb. fold q in Hp. destruct (count <? cq_count q) eqn:?; lia.
Qed.
End steps.

#[export] Hint Resolve keep_ret keep_crash keep_get keep_gets keep_assertM keep_derefM keep_on_pool
  keep_next_fault keep_sub_load keep_comp_load keep_set_error keep_completion_set_error
  keep_completion_ref keep_submission_set_error keep_read_data keep_is_zero keep_store_md
  keep_pool_is_zero_block keep_compute_block_digest keep_queue_access keep_wait_for_work keep_unref
  keep_submission_complete keep_worker_step keep_yield keep_cond_signal keep_hash_pool_submit
  keep_is_completed keep_submission_wait : keep.
