(* ===== verification/Poll.v ===== *)
(** * Waiting for completions

    A client of the async interface waits with [poll] until the completion
    descriptor is readable.  Under a fair scheduler the wait ends whenever an update
    is in flight: all submissions are completed within the bound of [Progress], then
    every completion is in the completion queue, and by the rule of [Account] the
    event was signaled. *)

From stdpp Require Import prelude list strings gmap.
From Stdlib Require Import ZArith Lia.
From S2P Require Import Prelude Ring State Digest Zero Event Completion Submission Config HashPool.
From S2P Require Import Blkhash PoolInv PoolStep Progress Account.

Local Open Scope Z_scope.

Section poll.
Context {D : Type} `{DO : !DigestOps D, DL : !DigestLaws D, EV : !Env, OW : !Ownership, CL : !Claims}.
Implicit Types (s : shared D) (l : list Z).

(** [poll] of the completion descriptor for POLLIN without a timeout: other threads
    run until the event is signaled. *)
Fixpoint poll_event (fuel : nat) : M (shared D) unit :=
  q ← gets cq;
  v ← derefM (cq_event q);
  if 0 <? v then mret tt
  else
    yield;;
    match fuel with
    | O => crashM CNoFuel
    | S fuel' => poll_event fuel'
    end.

(** One [read] of the completion descriptor: errno. *)
Definition read_event : M (shared D) Z :=
  q ← gets cq; v ← derefM (cq_event q);
  err ← next_fault;
  if fails err then mret err
  else if v =? 0 then mret EAGAIN
  else on_cq (with_cq_event (Some 0));; mret 0.

Context (nf : Prop) (T : gmap nat ablk) (infl : Z) (c : config).

Lemma live_or_quiet q (ts : list (wstate D)) : (∃ id, live q ts id) ∨ ∀ id, ¬ live q ts id.
Proof using Type.
  destruct q as [|id q]; [|left; exists id; left; by left].
  destruct (decide (Exists (λ w, is_Some (held w)) ts)) as [He|He].
  - apply Exists_exists in He as (w & [k Hk]%list_elem_of_lookup & [id Hid]). left. exists id. right. exists k. unfold holds. by rewrite Hk.
  - right. intros id [Hn|(k & (w & Hk & Hh)%bind_Some)]; [by apply elem_of_nil in Hn|]. apply He, Exists_exists.
    exists w. split; [by eapply list_elem_of_lookup_2|by exists id].
Qed.

(** When no submission is left to hash, no completion is referenced. *)
Lemma quiet_comps q s :
  shared_inv q [] T None infl s → (∀ id, ¬ live q (threads s) id) → comps s = ∅.
Proof using Type.
  intros HI Hq. apply map_empty. intros x. destruct (comps s !! x) as [comp|] eqn:E; [|done].
  destruct (ci_refs _ _ _ _ _ _ (si_comps _ _ _ _ _ _ HI) x comp E) as [Hr Hpos]. exfalso.
  assert (refs_to x (subs s) None = 0%nat) as Hz; [|lia].
  unfold refs_to. rewrite decide_False, Nat.add_0_r by done. apply map_size_empty_iff, map_empty. intros id.
  apply map_lookup_filter_None. right. intros sub Hsub Hu.
  destruct (ci_user _ _ _ _ _ _ (si_comps _ _ _ _ _ _ HI) id sub x Hsub Hu) as ([a Ha] & Hcp & _).
  destruct (su_tracked _ _ _ _ _ _ (si_subs _ _ _ _ _ _ HI) id a Ha) as (sub' & Hsub' & _ & Hlv).
  assert (sub' = sub) as -> by congruence. rewrite app_nil_r in Hlv. by destruct (Hq id (Hlv Hcp)).
Qed.

(** Then every update in flight was announced. *)
Lemma quiet_ready q n l s :
  shared_inv q [] T None infl s → cfg s = c → calm (D := D) (digest_name c) → tidy n l False s → l ≠ [] →
  (∀ id, ¬ live q (threads s) id) → ready s.
Proof using Type.
  intros HI Hc Hcalm Ht Hl Hq. pose proof (si_calm _ _ _ _ _ _ HI) as Hcm. rewrite Hc in Hcm.
  destruct (Hcm Hcalm) as [_ He _ _ _].
  pose proof (quiet_comps q s HI Hq) as Hcs.
  pose proof (td_uds _ _ _ _ Ht) as Hu. unfold uds in Hu. rewrite Hcs, map_to_list_empty in Hu. simpl in Hu.
  assert (0 < cq_count (cq s)) as Hcount.
  { pose proof (td_count _ _ _ _ Ht) as Hct. destruct (decide (cq_count (cq s) = 0)) as [Hz|]; [|lia].
    rewrite Hz in Hu. by apply Permutation_nil in Hu. }
  destruct (td_notify _ _ _ _ Ht) as [[]|[?|(k & d & id & Hk)]]; [|done|done|done|].
  - intros m Hm. rewrite (calm_fault _ _ Hcalm) in Hm. done.
  - destruct (Hq id). right. exists k. unfold holds. by rewrite Hk.
Qed.

(** While the event is not signaled, a submission is on its way. *)
Lemma unready_live q n l s v :
  shared_inv q [] T None infl s → cfg s = c → calm (D := D) (digest_name c) → tidy n l False s → l ≠ [] →
  cq_event (cq s) = Some v → v <= 0 → ∃ id, live q (threads s) id.
Proof using Type.
  intros HI Hc Hcalm Ht Hl Hv Hle. destruct (live_or_quiet q (threads s)) as [?|Hq]; [done|].
  destruct (quiet_ready q n l s HI Hc Hcalm Ht Hl Hq) as (v' & Hv' & Hpos). rewrite Hv in Hv'. simplify_eq. lia.
Qed.

(** A scheduling point uses one unit of the fuel of every submission. *)
Lemma budgets_step K fuel q s q' s' :
  shared_inv q [] T None infl s → shared_inv q' [] T None infl s' → cfg s = c → cfg s' = c →
  calm (D := D) (digest_name c) → fair (Z.to_nat (workers c)) K → n_tick s' = S (n_tick s) →
  advanced (sched (n_tick s)) q s q' s' → (∃ id, live q (threads s) id) → (∀ id, budget K fuel q s id) →
  ∃ fuel', fuel = S fuel' ∧ ∀ id, budget K fuel' q' s' id.
Proof using Type.
  intros HI HI' Hc Hc' Hcalm Hf Hn Hadv [id0 Hid0] Hb.
  destruct fuel as [|fuel].
  { destruct (Hb id0 Hid0) as (k & d & _ & Hd & _ & Hle).
    pose proof (rank_bound [] T None infl q s id0 HI Hid0) as [Hr _]. nia. }
  exists fuel. split; [done|]. intros id Hl'. destruct (decide (live q (threads s) id)) as [Hl|Hl].
  - destruct (budget_step [] T None infl c K (S fuel) q s q' s' id HI' Hc' Hcalm Hf Hn Hadv (Hb id) Hl')
      as (fuel' & [= ->] & Hb'). by apply Hb'.
  - by destruct (proj1 (Hadv id) Hl).
Qed.

Context (Hnf : nf ∨ live_env (D := D) c).

Lemma poll_event_inv fuel q n l s :
  shared_inv q [] T None infl s → cfg s = c → tidy n l False s → 0 < queue_depth c →
  (nf ∨ calm (D := D) (digest_name c) ∧ l ≠ [] ∧
    ∃ K, fair (Z.to_nat (workers c)) K ∧ ∀ id, budget K fuel q s id) →
  wp nf (poll_event fuel) (λ _ s', (∃ q', shared_inv q' [] T None infl s') ∧ frame s s' ∧
    tidy n l False s' ∧ (h_error s ≠ 0 → h_error s' ≠ 0) ∧ ready s') s.
Proof using Hnf.
  revert q s. induction fuel as [|fuel IH]; intros q s HI Hc Ht Hd Hb; simpl; do 2 wp_step;
    destruct (cq_open _ _ _ _ (si_cq _ _ _ _ _ _ HI)) as [v Hv]; rewrite ?Hc; try done;
    wp_step; (eapply wp_derefM; [exact Hv|]); (destruct (0 <? v) eqn:E;
      [wp_step; split_and!; [by exists q|done|done|done|exists v; split; [done|lia]]|]);
    wp_step; (eapply wp_mono; [apply wp_pc; [apply (yield_inv nf [] T None infl c Hnf q s HI Hc)|apply (keep_yield n l False s Ht)]|]);
    intros _ s' [(q' & HI' & Hfr & Hn & Hadv) [Ht' [He _]]]; cbv beta;
    assert (cfg s' = c) as Hc' by (by rewrite (fr_cfg _ _ Hfr)).
  - destruct Hb as [?|(Hcalm & Hl & K & Hf & Hb)]; [by apply wp_nofuel|].
    destruct (budgets_step K 0 q s q' s') as (? & ? & _); try done. eapply unready_live; [done..|lia].
  - eapply wp_mono; [apply (IH q' s'); try done|].
    + destruct Hb as [?|(Hcalm & Hl & K & Hf & Hb)]; [by left|right]. split_and!; [done..|]. exists K. split; [done|].
      destruct (budgets_step K (S fuel) q s q' s') as (? & [= <-] & ?); try done. eapply unready_live; [done..|lia].
    + intros _ s2 (H2 & Hfr2 & Ht2 & He2 & Hr). split_and!; [done|by etrans|done|auto|done].
Qed.

(** With the fuel that waiting loops have. *)
Lemma poll_event_ok q n l s :
  shared_inv q [] T None infl s → cfg s = c → tidy n l False s → 0 < queue_depth c → nf ∨ l ≠ [] →
  wp nf (poll_event spins) (λ _ s', (∃ q', shared_inv q' [] T None infl s') ∧ frame s s' ∧
    tidy n l False s' ∧ (h_error s ≠ 0 → h_error s' ≠ 0) ∧ ready s') s.
Proof using Hnf.
  intros HI Hc Ht Hd Hl. eapply poll_event_inv; try done. destruct Hl as [?|Hl]; [by left|].
  destruct Hnf as [?|(Hcalm & K & Hf & Hk)]; [by left|right]. split_and!; [done..|]. exists K. split; [done|].
  intros id. eapply budget_start; try done. intros r Hlv ->.
  pose proof (rank_bound [] T None infl q s id HI Hlv) as [_ Hr]. rewrite Hc in Hr. nia.
Qed.
End poll.

(** ** Draining the pool

    A client that keeps asking for completions, without submitting more, has them
    all after a bounded number of scheduling points. *)

Section drain.
Context {D : Type} `{DO : !DigestOps D, DL : !DigestLaws D, EV : !Env}.
Context (c : config) (Hcalm : calm (D := D) (digest_name c)) (K : nat) (Hf : fair (Z.to_nat (workers c)) K).
Implicit Types (s : shared D) (T : gmap nat ablk) (infl : Z).

(** Every submission on its way is completed within [F] scheduling points. *)
Definition drains (F : nat) s : Prop :=
  ∀ q, ring_repr (p_queue (pool s)) (Sub <$> q) → ∀ id, budget K F q s id.

Lemma queue_unique q q' (r : ring slot) : ring_repr r (Sub <$> q) → ring_repr r (Sub <$> q') → q = q'.
Proof using Type. intros H1 H2. pose proof (ring_repr_inj _ _ _ H1 H2) as He. 
  apply (list_fmap_eq_inj Sub) in He; [done|]. by intros ?? [= ->].
Qed.

Lemma drains_le F F' s : drains F s → (F ≤ F')%nat → drains F' s.
Proof using Type.
  intros Hd Hle q Hq id Hl. destruct (Hd q Hq id Hl) as (k & d & ? & ? & ? & ?). exists k, d. split_and!; [done..|lia].
Qed.

Lemma drains_same F s s' :
  drains F s → p_queue (pool s') = p_queue (pool s) → threads s' = threads s → n_tick s' = n_tick s → drains F s'.
Proof using Type.
  intros Hd Hq Ht Hn q Hr id. rewrite Hq in Hr. specialize (Hd q Hr id). unfold budget in *. by rewrite Ht, Hn.
Qed.

Lemma drains_quiet q T infl s :
  shared_inv q [] T None infl s → drains 0 s → ∀ id, ¬ live q (threads s) id.
Proof using Type.
  intros HI Hd id Hl. destruct (Hd q (ti_ring _ _ _ _ _ (si_threads _ _ _ _ _ _ HI)) id Hl) as (k & d & _ & Hdk & _ & Hle).
  pose proof (rank_bound [] T None infl q s id HI Hl) as [Hr _]. nia.
Qed.

Lemma drains_start q T infl s :
  (K * (6 + 10 * Z.to_nat (max_submissions c) + 17 * Z.to_nat (workers c)) ≤ spins)%nat →
  shared_inv q [] T None infl s → cfg s = c → drains spins s.
Proof using Hcalm Hf.
  intros Hk HI Hc q' Hq' id. assert (q' = q) as ->.
  { eapply queue_unique; [done|]. apply (ti_ring _ _ _ _ _ (si_threads _ _ _ _ _ _ HI)). }
  eapply budget_start; try done. intros r Hlv ->.
  pose proof (rank_bound [] T None infl q s id HI Hlv) as [_ Hr]. rewrite Hc in Hr. nia.
Qed.

(** A scheduling point: one less. *)
Lemma yield_drains F q T infl s :
  shared_inv q [] T None infl s → cfg s = c → drains F s →
  pc yield (λ _ s', drains (F - 1) s' ∧ cfg s' = c ∧ ∃ q', shared_inv q' [] T None infl s') s.
Proof using Hcalm Hf.
  intros HI Hc Hd. pose proof (yield_inv True [] T None infl c (or_introl I) q s HI Hc) as Hy.
  unfold wp in Hy. unfold pc. destruct (yield s) as [u s'|k]; [|done].
  destruct Hy as (q' & HI' & Hfr & Hn & Hadv). assert (cfg s' = c) as Hc' by (by rewrite (fr_cfg _ _ Hfr)).
  split_and!; [|done|by exists q']. intros q2 Hq2. assert (q2 = q') as ->.
  { eapply queue_unique; [done|]. apply (ti_ring _ _ _ _ _ (si_threads _ _ _ _ _ _ HI')). }
  specialize (Hd q (ti_ring _ _ _ _ _ (si_threads _ _ _ _ _ _ HI))).
  destruct (live_or_quiet q (threads s)) as [Hl|Hq].
  - destruct (budgets_step T infl c K F q s q' s') as (F' & -> & Hb); try done. intros id. simpl. by rewrite Nat.sub_0_r.
  - intros id Hl'. by destruct (proj1 (Hadv id) (Hq id)).
Qed.

Lemma poll_frame fuel q T infl s :
  shared_inv q [] T None infl s → cfg s = c →
  pc (poll_event fuel) (λ _ s', (∃ q', shared_inv q' [] T None infl s') ∧ frame s s') s.
Proof using Type.
  revert q s. induction fuel as [|fuel IH]; intros q s HI Hc; simpl; do 4 pc_step;
    (destruct (0 <? _); [pc_step; split; [by exists q|done]|]); pc_step;
    pose proof (yield_inv True [] T None infl c (or_introl I) q s HI Hc) as Hy;
    unfold wp in Hy; unfold pc at 1; (destruct (yield s) as [u s1|k]; [|done]);
    destruct Hy as (q1 & HI1 & Hfr & _); [pc_step|].
  eapply pc_mono; [eapply IH; [done|by rewrite (fr_cfg _ _ Hfr)]|]. intros _ s2 [H2 Hfr2]. split; [done|by etrans].
Qed.

Lemma poll_drains fuel F q T infl s :
  shared_inv q [] T None infl s → cfg s = c → drains F s →
  pc (poll_event fuel) (λ _ s', drains F s' ∧ cfg s' = c ∧ ∃ q', shared_inv q' [] T None infl s') s.
Proof using Hcalm Hf.
  revert q s. induction fuel as [|fuel IH]; intros q s HI Hc Hd; simpl; do 4 pc_step;
    (destruct (0 <? _); [pc_step; by eauto|]);
    pc_step; (eapply pc_mono; [by eapply yield_drains|]); intros _ s1 (Hd1 & Hc1 & q1 & HI1); cbv beta;
    (apply (drains_le _ F) in Hd1; [|lia]); [pc_step|by eapply IH].
Qed.

(** A worker with no submission leaves the completion queue alone. *)
Lemma run_quiet (w : wstate D) s : held w = None → pc (worker_run w) (λ _ s', cq s' = cq s) s.
Proof using Type.
  intros Hh. destruct w; simpl in Hh; try done; unfold worker_run, wait_for_work, pop_unlocked, queue_access, next_fault,
    pool_set_error, on_pool; repeat (pc_step || (match goal with |- pc (let (_, _) := ?x in _) _ _ => destruct x end)); done.
Qed.

Lemma actions_quiet l q T infl s :
  shared_inv q [] T None infl s → cfg s = c → (∀ id, ¬ live q (threads s) id) →
  pc (run_actions l) (λ _ s', cq s' = cq s) s.
Proof using Type.
  revert q s. induction l as [|a l IH]; intros q s HI Hc Hq; simpl; [by pc_step|]. pc_step.
  assert (pc (worker_step a) (λ _ s', cq s' = cq s) s) as Hcq.
  { unfold worker_step. do 2 pc_step. destruct a as [k|k]; [|by pc_step].
    destruct (threads s !! k) as [w|] eqn:Hk; [|by pc_step]. pc_step.
    eapply pc_mono; [apply run_quiet|intros w' s' He; by pc_step].
    destruct (held w) as [id|] eqn:Hh; [|done]. destruct (Hq id). right. exists k. by eapply holds_lookup. }
  pose proof (worker_step_inv True [] T None infl (digest_name c) (or_introl I) q s a HI ltac:(by rewrite Hc)) as Hs.
  unfold wp in Hs. unfold pc in *. destruct (worker_step a s) as [u s1|k]; [|done].
  destruct Hs as (q1 & Hm & HI1 & Hf1 & _). rewrite <-Hcq. apply (IH q1); [done|by rewrite (fr_cfg _ _ Hf1)|].
  intros id. by eapply dead_stable.
Qed.

Lemma yield_quiet q T infl s :
  shared_inv q [] T None infl s → cfg s = c → drains 0 s → pc yield (λ _ s', cq s' = cq s) s.
Proof using Type.
  intros HI Hc Hd. pose proof (drains_quiet q T infl s HI Hd) as Hq. unfold yield. do 4 pc_step.
  eapply pc_mono; [apply (actions_quiet _ q T infl); [|done..]|done].
  destruct HI as [Hcfg Hth Hsu Hco Hcq Hcm]. split; simpl; try done. intros [Hp Hh Hs Hcc Hce]%Hcm. by split.
Qed.

(** Waiting for an event that nobody is going to signal does not return. *)
Lemma poll_quiet fuel q T infl s :
  shared_inv q [] T None infl s → cfg s = c → drains 0 s → ¬ ready s → pc (poll_event fuel) (λ _ _, False) s.
Proof using Hcalm Hf.
  revert q s. induction fuel as [|fuel IH]; intros q s HI Hc Hd Hnr; simpl; do 3 pc_step;
    (pc_step; destruct (0 <? _) eqn:Ev; [destruct Hnr; eexists; split; [done|lia]|]); pc_step;
    pose proof (yield_drains 0 q T infl s HI Hc Hd) as H1; pose proof (yield_quiet q T infl s HI Hc Hd) as H2;
    unfold pc in H1, H2; unfold pc at 1; (destruct (yield s) as [u s1|k]; [|done]); [done|].
  destruct H1 as (Hd1 & Hc1 & q1 & HI1). apply (IH q1 s1 HI1 Hc1 Hd1). unfold ready in *. by rewrite H2.
Qed.

(** Taking all completions off the queue. *)
Lemma cq_take_all count s :
  0 <= cq_count (cq s) <= count →
  pc (cq_take count) (λ r s', r.2 = false ∧ cq_count (cq s') = 0 ∧ comps s' = comps s ∧
    pool s' = pool s ∧ threads s' = threads s ∧ n_tick s' = n_tick s ∧ h_error s' = h_error s) s.
Proof using Type.
  intros Hc. unfold cq_take. do 2 pc_step. cbv zeta.
  assert (MIN count (cq_count (cq s)) = cq_count (cq s)) as ->.
  { unfold MIN. destruct (count <? cq_count (cq s)) eqn:E; [lia|done]. }
  rewrite Z.sub_diag. destruct (0 <? cq_count (cq s)) eqn:E.
  - do 2 pc_step. by pc_step.
  - pc_step. split_and!; try done. simpl. lia.
Qed.
End drain.
