(* ===== verification/AccountApi.v ===== *)
(** * Accounting through the public calls

    The invariant of [Account] across the functions of lib/blkhash.c: between two
    calls on a hash without error every submission that exists is in the submission
    queue, and the async updates in flight are exactly the live completions and the
    entries of the completion queue. *)

From stdpp Require Import prelude list strings gmap.
From Stdlib Require Import ZArith Lia.
From S2P Require Import Prelude Ring State Digest Zero Event Completion Submission Config HashPool.
From S2P Require Import Blkhash PoolStep Account.

Local Open Scope Z_scope.

Section account_api.
Context {D : Type} `{DO : !DigestOps D, EV : !Env, OW : !Ownership, CL : !Claims}.
Implicit Types (s : shared D) (w : world D) (l : list Z) (k : Z) (ob : Prop).
Abbreviation MW := (M (world D)).

(** [k] submissions beside those in the queue exist. *)
Record wtidy k l ob w : Prop := {
  wt_shared : tidy (r_len (sq (hs w)) + k) l ob (sh w);
  wt_ring : 0 <= r_len (sq (hs w)) <= r_size (sq (hs w)) ∧ r_size (sq (hs w)) < 2 ^ 32;
}.

Definition broken w : Prop := h_error (sh w) ≠ 0.

(** An error stays. *)
Lemma unbroken w w' : (broken w → broken w') → h_error (sh w') = 0 → h_error (sh w) = 0.
Proof. unfold broken. intros Hb H0. destruct (decide (h_error (sh w) = 0)) as [|Hn]; [done|]. by destruct (Hb Hn). Qed.

Record wsteady w w' : Prop := {
  wy_error : broken w → broken w';
  wy_inflight : inflight (hs w') = inflight (hs w);
}.

#[global] Instance wsteady_refl : Reflexive wsteady.
Proof. by split. Qed.

#[global] Instance wsteady_trans : Transitive wsteady.
Proof. intros w1 w2 w3 [] []. split; [auto|congruence]. Qed.

Lemma wtidy_broken k k' l ob ob' w : wtidy k l ob w → broken w → wtidy k' l ob' w.
Proof. intros [Hs Hr] He. split; [by eapply tidy_error|done]. Qed.

(** Operations that keep the account. *)
Definition wkeep {A} (m : MW A) : Prop :=
  ∀ k l ob w, wtidy k l ob w → pc m (λ _ w', wtidy k l ob w' ∧ wsteady w w') w.

(** Functions with a status: they keep the account, and a failure leaves an error. *)
Definition stat_post k l ob w : Z → world D → Prop := λ rc w',
  wtidy k l ob w' ∧ wsteady w w' ∧ (rc ≠ 0 → broken w').

Definition wstat (m : MW Z) : Prop := ∀ k l ob w, wtidy k l ob w → pc m (stat_post k l ob w) w.

(** ** Closure *)

Lemma wkeep_ret {A} (a : A) : wkeep (mret a).
Proof. intros k l ob w Hw. by pc_step. Qed.

Lemma wkeep_gets {A} (f : world D → A) : wkeep (gets f).
Proof. intros k l ob w Hw. by pc_step. Qed.

Lemma wkeep_crash {A} c : wkeep (crashM c : MW A).
Proof. by intros k l ob w Hw. Qed.

Lemma wkeep_assertM b : wkeep (assertM b).
Proof. intros k l ob w Hw. by pc_step. Qed.

Lemma wkeep_derefM {A} (o : option A) : wkeep (derefM o).
Proof. intros k l ob w Hw. by pc_step. Qed.

Lemma wkeep_bind {A B} (m : MW A) (f : A → MW B) : wkeep m → (∀ a, wkeep (f a)) → wkeep (m ≫= f).
Proof.
  intros Hm Hf k l ob w Hw. pc_step. eapply pc_mono; [by apply Hm|]. intros a w1 [H1 Hy1].
  eapply pc_mono; [by apply Hf|]. intros b w2 [H2 Hy2]. split; [done|by etrans].
Qed.

Lemma shared_wtidy {A} (m : M (shared D) A) k l ob w :
  keep False m → wtidy k l ob w →
  pc (shared_op m) (λ _ w', wtidy k l ob w' ∧ wsteady w w' ∧ hs w' = hs w) w.
Proof.
  intros Hm [Hs Hr]. pc_step. eapply pc_mono; [by apply Hm|]. intros a s' [H' [He _]].
  split_and!; [by split..|done].
Qed.

Lemma wkeep_shared {A} (m : M (shared D) A) : keep False m → wkeep (shared_op m).
Proof.
  intros Hm k l ob w Hw. eapply pc_mono; [by apply shared_wtidy|]. by intros a w' (? & ? & _).
Qed.

Lemma wkeep_on_hash f :
  (∀ h, sq (f h) = sq h) → (∀ h, inflight (f h) = inflight h) → wkeep (on_hash (D := D) f).
Proof.
  intros Hf Hi k l ob w [Hs Hr]. unfold on_hash. pc_step. split; split; simpl; rewrite ?Hf, ?Hi; done.
Qed.

Lemma wstat_keep (m : MW Z) : wkeep m → (∀ w rc w', m w = Ret rc w' → rc = 0) → wstat m.
Proof.
  intros Hm H0 k l ob w Hw. specialize (Hm k l ob w Hw). unfold pc in *.
  destruct (m w) as [rc w'|] eqn:E; [|done]. destruct Hm as [? ?]. split_and!; [done..|].
  by rewrite (H0 _ _ _ E).
Qed.

Lemma wstat_ret0 : wstat (mret 0).
Proof. intros k l ob w Hw. by pc_step. Qed.

Lemma wstat_crash c : wstat (crashM c).
Proof. by intros k l ob w Hw. Qed.

(** A function that only reads and then goes on. *)
Lemma wstat_after {A} (m : MW A) (f : A → MW Z) : wkeep m → (∀ a, wstat (f a)) → wstat (m ≫= f).
Proof.
  intros Hm Hf k l ob w Hw. pc_step. eapply pc_mono; [by apply Hm|]. intros a w1 [H1 Hy1].
  eapply pc_mono; [by apply Hf|]. intros b w2 (H2 & Hy2 & He). split_and!; [done|by etrans|done].
Qed.

(** Internal errors are reported by [set_error]. *)
Lemma fail_with_breaks k l ob w e :
  wtidy k l ob w → e ≠ 0 → pc (fail_with e) (λ rc w', rc = -1 ∧ broken w' ∧ wsteady w w' ∧
    ∀ k ob, wtidy k l ob w') w.
Proof.
  intros [Hs Hr] He. unfold fail_with. pc_step. eapply pc_mono; [by eapply (set_error_fails False)|].
  intros rc s' (-> & He' & [He2 _] & Hs'). split_and!; [done|done|by split|]. intros. by split.
Qed.

Lemma fail_with_post k l ob k' ob' w0 w e :
  wtidy k l ob w → wsteady w0 w → e ≠ 0 → pc (fail_with e) (stat_post k' l ob' w0) w.
Proof.
  intros Hw Hy He. eapply pc_mono; [by eapply fail_with_breaks|]. intros rc w' (-> & Hb & Hy' & Ht).
  split_and!; [done|by etrans|done].
Qed.

Lemma wstat_fail (e : Z) m : wstat m → wstat (if fails e then fail_with e else m).
Proof.
  intros Hm k l ob w Hw. unfold fails. destruct (e =? 0) eqn:E; simpl; [by apply Hm|].
  eapply fail_with_post; [done..|lia].
Qed.

(** [if (f(h)) return h->error] and [if (f(h)) return rc] *)
Lemma wstat_seq m n : wstat m → wstat n → wstat (rc ← m; if fails rc then get_error else n).
Proof.
  intros Hm Hn k l ob w Hw. pc_step. eapply pc_mono; [by apply Hm|]. intros rc w1 (H1 & Hy1 & He1).
  unfold fails. destruct (rc =? 0) eqn:E; simpl.
  - eapply pc_mono; [by apply Hn|]. intros b w2 (H2 & Hy2 & He). split_and!; [done|by etrans|done].
  - unfold get_error. pc_step. split_and!; [done..|]. intros _. apply He1. lia.
Qed.

Lemma wstat_seq_rc m n (r : Z → Z) :
  wstat m → wstat n → wstat (rc ← m; if fails rc then mret (r rc) else n).
Proof.
  intros Hm Hn k l ob w Hw. pc_step. eapply pc_mono; [by apply Hm|]. intros rc w1 (H1 & Hy1 & He1).
  unfold fails. destruct (rc =? 0) eqn:E; simpl.
  - eapply pc_mono; [by apply Hn|]. intros b w2 (H2 & Hy2 & He). split_and!; [done|by etrans|done].
  - pc_step. split_and!; [done..|]. intros _. apply He1. lia.
Qed.
End account_api.

Create HintDb wkeep discriminated.
#[export] Hint Resolve wkeep_ret wkeep_gets wkeep_crash wkeep_assertM wkeep_derefM wkeep_shared
  wstat_ret0 wstat_crash : wkeep.

(** Closes [wkeep] and [wstat] by the structure of the function. *)
Ltac wkeep :=
  repeat first
    [ progress (cbv zeta)
    | solve [auto with wkeep]
    | lazymatch goal with
      | |- wkeep (mbind _ _) => apply wkeep_bind; [|intros ?]
      | |- wstat (rc ← _; if fails rc then get_error else _) => apply wstat_seq
      | |- wstat (mbind _ _) => apply wstat_after; [|intros ?]
      | |- wstat (if fails _ then fail_with _ else _) => apply wstat_fail
      | |- wkeep (match ?x with _ => _ end) => destruct x
      | |- wkeep (if ?x then _ else _) => destruct x
      | |- wstat (match ?x with _ => _ end) => destruct x
      | |- wstat (if ?x then _ else _) => destruct x
      | |- wkeep (shared_op _) => apply wkeep_shared; keep
      | |- wkeep (on_hash _) => apply wkeep_on_hash; [done|done]
      end ].

Section functions.
Context {D : Type} `{DO : !DigestOps D, EV : !Env, OW : !Ownership, CL : !Claims}.
Implicit Types (s : shared D) (w : world D) (l : list Z) (k : Z) (ob : Prop).
Local Abbreviation MW := (M (world D)).
Local Abbreviation wkeep := (wkeep (D := D)).
Local Abbreviation wstat := (wstat (D := D)).

(** ** The outer hash *)

Lemma wkeep_config_of : wkeep config_of.
Proof. unfold config_of. wkeep. Qed.

Lemma wkeep_outer_update data : wkeep (outer_update data).
Proof. unfold outer_update. wkeep. Qed.

#[local] Hint Resolve wkeep_config_of wkeep_outer_update : wkeep.

Lemma wkeep_md_bytes md : wkeep (md_bytes md).
Proof. unfold md_bytes. wkeep. Qed.
#[local] Hint Resolve wkeep_md_bytes : wkeep.

Lemma wstat_zero_blocks fuel index : wstat (hash_zero_blocks fuel index).
Proof. induction fuel as [|fuel IH]; simpl; wkeep. Qed.
#[local] Hint Resolve wstat_zero_blocks : wkeep.

Lemma wstat_hash_submission id : wstat (hash_submission id).
Proof.
  unfold hash_submission. apply wstat_after; [wkeep|]. intros sub. apply wstat_fail.
  apply wstat_after; [wkeep|]. intros h. apply (wstat_seq_rc _ _ (λ rc, rc)); wkeep.
Qed.

Lemma wstat_message_length : wstat hash_message_length.
Proof. unfold hash_message_length. wkeep. Qed.
#[local] Hint Resolve wstat_hash_submission wstat_message_length : wkeep.

(** ** The submission queue *)

Lemma wtidy_pop k l ob w q :
  wtidy k l ob w → r_len (sq (hs w)) ≠ 0 → q = ring_drop (sq (hs w)) →
  wtidy (k + 1) l ob (with_hs (with_sq q (hs w)) w).
Proof.
  intros [Hs [Hr Hz]] Hne ->. assert (u32 (r_len (sq (hs w)) - 1) = r_len (sq (hs w)) - 1) as Hu
    by (unfold u32; apply Z.mod_small; lia).
  split; simpl; rewrite Hu; [|lia]. by replace (_ - 1 + (k + 1)) with (r_len (sq (hs w)) + k) by lia.
Qed.

Lemma wtidy_push k l ob w id :
  wtidy (k + 1) l ob w → r_len (sq (hs w)) ≠ r_size (sq (hs w)) →
  wtidy k l ob (with_hs (with_sq (ring_put (sq (hs w)) id) (hs w)) w).
Proof.
  intros [Hs [Hr Hz]] Hne. assert (u32 (r_len (sq (hs w)) + 1) = r_len (sq (hs w)) + 1) as Hu
    by (unfold u32; apply Z.mod_small; lia).
  split; simpl; rewrite Hu; [|lia]. by replace (_ + 1 + k) with (r_len (sq (hs w)) + (k + 1)) by lia.
Qed.

Lemma destroy_wtidy id k l ob w0 w :
  wtidy k l ob w → wsteady w0 w →
  pc (shared_op (submission_destroy id)) (λ _ w', wtidy (k - 1) l ob w' ∧ wsteady w0 w') w.
Proof.
  intros [Hs Hr] Hy. pc_step. eapply pc_mono; [by apply destroy_tidy|]. intros _ s' [H' [He _]].
  split; [split; [|done]|etrans; [done|by split]]. simpl.
  by replace (_ + (k - 1)) with (r_len (sq (hs w)) + k - 1) by lia.
Qed.

(** A popped submission is hashed and destroyed. *)
Lemma hash_and_destroy (n : MW Z) id k l ob w0 w :
  wstat n → wtidy (k + 1) l ob w → wsteady w0 w →
  pc (rc ← hash_submission id; if fails rc then get_error else shared_op (submission_destroy id);; n)
    (stat_post k l ob w0) w.
Proof.
  intros Hn Hw Hy. pc_step. eapply pc_mono; [by apply wstat_hash_submission|].
  intros rc w1 (H1 & Hy1 & He1). unfold fails. destruct (rc =? 0) eqn:E; simpl.
  - pc_step. eapply pc_mono; [eapply (destroy_wtidy _ _ _ _ w0); [done|by etrans]|]. intros _ w2 [H2 Hy2].
    rewrite Z.add_simpl_r in H2. eapply pc_mono; [by apply Hn|].
    intros rc' w3 (H3 & Hy3 & He3). split_and!; [done|by etrans|done].
  - unfold get_error. pc_step. split_and!; [|by etrans|intros _; apply He1; lia].
    eapply wtidy_broken; [done|]. apply He1. lia.
Qed.

Lemma wstat_maybe_hash_first : wstat maybe_hash_first_submission.
Proof.
  intros k l ob w Hw. unfold maybe_hash_first_submission. do 2 pc_step. unfold submission_queue_full.
  destruct (r_len (sq (hs w)) =? r_size (sq (hs w))) eqn:Ef; simpl; [|by apply wstat_ret0].
  unfold submission_queue_pop. pc_step. destruct (r_len (sq (hs w)) =? 0) eqn:E0.
  - do 2 pc_step. unfold on_hash. pc_step. simpl. eapply fail_with_post; [|by split|done].
    destruct Hw. by split.
  - destruct (r_size _ =? 0); [pc_step|]. do 2 pc_step. unfold on_hash. pc_step. simpl. pc_step. pc_step.
    assert (wtidy (k + 1) l ob (with_hs (with_sq (ring_drop (sq (hs w))) (hs w)) w)) as H1
      by (apply wtidy_pop; [done|lia|done]).
    pc_step. eapply pc_mono; [apply (wkeep_shared _ (keep_submission_wait _)); exact H1|].
    intros _ w2 [H2 Hy2]. apply hash_and_destroy; [apply wstat_ret0|done|].
    etrans; [|done]. by split.
Qed.

(** Draining the first submission, which exists. *)
Lemma drain_first (n : MW Z) id k l ob w :
  wstat n → wtidy k l ob w → 0 < r_len (sq (hs w)) →
  pc ('(_, _, q) ← submission_queue_pop (sq (hs w)); on_hash (with_sq q);;
      rc ← hash_submission id; if fails rc then get_error else shared_op (submission_destroy id);; n)
    (stat_post k l ob w) w.
Proof.
  intros Hn Hw Hlen. unfold submission_queue_pop. pc_step.
  destruct (r_len (sq (hs w)) =? 0) eqn:E0; [lia|]. destruct (r_size _ =? 0); [pc_step|]. do 2 pc_step.
  unfold on_hash. pc_step. apply hash_and_destroy; [done| |by split]. apply wtidy_pop; [done|lia|done].
Qed.

(** The first submission stays the first while other threads run. *)
Lemma drain_after {A} (m : M (shared D) A) (n : MW Z) id k l ob w (c : A → bool) :
  keep False m → wstat n → wtidy k l ob w → 0 < r_len (sq (hs w)) →
  pc (a ← shared_op m; if negb (c a) then mret 0 else
      '(_, _, q) ← submission_queue_pop (sq (hs w)); on_hash (with_sq q);;
      rc ← hash_submission id; if fails rc then get_error else shared_op (submission_destroy id);; n)
    (stat_post k l ob w) w.
Proof.
  intros Hm Hn Hw Hlen. pc_step. eapply pc_mono; [by apply shared_wtidy|]. intros a w1 (H1 & Hy1 & Hh).
  destruct (c a); simpl; [|by pc_step]. rewrite <-Hh in *.
  eapply pc_mono; [by apply drain_first|]. intros rc w2 (H2 & Hy2 & He2). split_and!; [done|by etrans|done].
Qed.

Lemma wstat_completed_loop fuel : wstat (hash_completed_loop fuel).
Proof.
  induction fuel as [|fuel IH]; intros k l ob w Hw; simpl; do 2 pc_step; unfold submission_queue_first;
    pc_step; (destruct (0 <? r_len (sq (hs w))) eqn:E; [|by do 2 pc_step]); do 3 pc_step;
    eapply (drain_after _ _ _ _ _ _ _ id); auto using keep_is_completed, wstat_crash; lia.
Qed.

Lemma wstat_completed : wstat hash_completed_submissions.
Proof. unfold hash_completed_submissions. apply wstat_after; [wkeep|]. intros h. apply wstat_completed_loop. Qed.

Lemma wstat_inflight_loop fuel : wstat (hash_inflight_loop fuel).
Proof.
  induction fuel as [|fuel IH]; intros k l ob w Hw; simpl; do 2 pc_step; unfold submission_queue_first;
    pc_step; (destruct (0 <? r_len (sq (hs w))) eqn:E; [|by do 2 pc_step]); do 3 pc_step;
    eapply (drain_after _ _ _ _ _ _ _ (λ _, true)); auto using keep_submission_wait, wstat_crash; lia.
Qed.

Lemma wstat_inflight : wstat hash_inflight_submissions.
Proof. unfold hash_inflight_submissions. apply wstat_after; [wkeep|]. intros h. apply wstat_inflight_loop. Qed.

#[local] Hint Resolve wstat_maybe_hash_first wstat_completed wstat_inflight : wkeep.

(** ** Submitting and consuming blocks *)

(** A function that takes over the submission it is given. *)
Definition wtakes (m : MW Z) : Prop :=
  ∀ k l ob w0 w, wtidy (k + 1) l ob w → wsteady w0 w → pc m (stat_post k l ob w0) w.

Lemma queue_submission_takes id (n : MW Z) :
  wstat n → wtakes (rc ← queue_submission id; if fails rc then mret rc else n).
Proof.
  intros Hn k l ob w0 w Hw Hy. pc_step. unfold queue_submission. do 2 pc_step.
  unfold submission_queue_push. pc_step. destruct (_ =? _) eqn:Ef.
  - do 2 pc_step. unfold on_hash. pc_step. simpl. pc_step.
    eapply pc_mono; [eapply (destroy_wtidy id (k + 1) l ob w0)|].
    + destruct Hw. by split.
    + etrans; [exact Hy|]. by split.
    + intros _ w2 [H2 Hy2]. eapply pc_mono; [by eapply (fail_with_post _ _ _ k ob w0)|].
      intros rc w3 (H3 & Hy3 & He3). unfold fails. destruct (rc =? 0) eqn:E; simpl; [|by pc_step].
      eapply pc_mono; [by apply Hn|]. intros rc' w4 (H4 & Hy4 & He4). split_and!; [done|by etrans|done].
  - destruct (r_size _ =? 0); [pc_step|]. do 2 pc_step. unfold on_hash. pc_step. simpl. pc_step. simpl.
    assert (wtidy k l ob (with_hs (with_sq (ring_put (sq (hs w)) id) (hs w)) w)) as H1
      by (apply wtidy_push; [done|lia]).
    eapply pc_mono; [by apply Hn|]. intros rc' w4 (H4 & Hy4 & He4). split_and!; [done| |done].
    etrans; [exact Hy|]. etrans; [|exact Hy4]. by split.
Qed.

Lemma wstat_create (m : M (shared D) (Z * option nat)) (n : nat → MW Z) :
  (∀ i l ob s, tidy i l ob s → pc m (created i l ob s) s) → (∀ id, wtakes (n id)) →
  wstat ('(err, out) ← shared_op m; if fails err then fail_with err else id ← derefM out; n id).
Proof.
  intros Hm Hn k l ob w [Hs Hr]. do 2 pc_step. eapply pc_mono; [by apply Hm|].
  intros [err out] s' (H' & [He _] & Ho). simpl in *. unfold fails.
  assert (wsteady w (with_sh s' w)) as Hy by by split.
  destruct (err =? 0) eqn:E; simpl.
  - pc_step. pc_step. subst out. apply Hn; [|done]. split; [|done]. simpl. by rewrite Z.add_assoc.
  - eapply (fail_with_post (if out is Some _ then k + 1 else k)); [|exact Hy|lia].
    split; [|done]. simpl. destruct out; [by rewrite Z.add_assoc|exact H'].
Qed.

Lemma wstat_submit_zero_block : wstat submit_zero_block.
Proof.
  unfold submit_zero_block. apply wstat_seq; [wkeep|]. apply wstat_after; [wkeep|]. intros h.
  apply wstat_create; [intros; by apply create_zero_tidy|]. intros id. apply queue_submission_takes. wkeep.
Qed.

Lemma wstat_submit_data_block buf len completion flags :
  claims buf completion → wstat (submit_data_block buf len completion flags).
Proof.
  intros Hcl. unfold submit_data_block. apply wstat_seq; [wkeep|]. apply wstat_after; [wkeep|]. intros h.
  apply wstat_create; [intros; by apply create_data_tidy|]. intros id. apply queue_submission_takes. wkeep.
Qed.
#[local] Hint Resolve wstat_submit_zero_block wstat_submit_data_block claims_none claims_copy : wkeep.

(** ** The pending buffer *)

Lemma wkeep_pending_take len : wkeep (pending_take len).
Proof. unfold pending_take. wkeep. Qed.
#[local] Hint Resolve wkeep_pending_take : wkeep.

Lemma wkeep_add_pending_data buf len : wkeep (add_pending_data buf len).
Proof.
  unfold add_pending_data. wkeep. apply wkeep_on_hash; intros h; by destruct (b_zero _).
Qed.

Lemma wkeep_add_pending_zeros len : wkeep (add_pending_zeros len).
Proof.
  unfold add_pending_zeros. wkeep. apply wkeep_on_hash; intros h; simpl; by repeat case_match.
Qed.
#[local] Hint Resolve wkeep_add_pending_data wkeep_add_pending_zeros : wkeep.

Lemma wstat_consume_zero_blocks count : wstat (consume_zero_blocks count).
Proof. unfold consume_zero_blocks. wkeep. Qed.

Lemma wkeep_is_zero_block buf len : wkeep (is_zero_block buf len).
Proof. unfold is_zero_block, is_zero. wkeep. Qed.
#[local] Hint Resolve wstat_consume_zero_blocks wkeep_is_zero_block : wkeep.

Lemma wstat_consume_data_block buf len completion flags :
  claims buf completion → wstat (consume_data_block buf len completion flags).
Proof. intros Hcl. unfold consume_data_block. wkeep. Qed.
#[local] Hint Resolve wstat_consume_data_block : wkeep.

Lemma wstat_consume_pending completion : wstat (consume_pending completion).
Proof.
  unfold consume_pending. do 3 (apply wstat_after; [wkeep|intros ?]).
  apply (wstat_seq_rc _ _ (λ _, -1)); wkeep.
Qed.
#[local] Hint Resolve wstat_consume_pending : wkeep.

(** ** Updates *)

(** The part of an update that cuts blocks, with its status and what is left, which
    satisfies [R]. *)
Definition wpart {A} (st : A → Z) (R : A → Prop) (m : MW A) : Prop :=
  ∀ k l ob w, wtidy k l ob w → pc m (λ r w', stat_post k l ob w (st r) w' ∧ R r) w.

Lemma wstat_part {A} (st : A → Z) (R : A → Prop) (m : MW A) (f : A → MW Z) :
  wpart st R m → (∀ a, R a → st a = 0 → wstat (f a)) → (∀ a, R a → st a ≠ 0 → f a = get_error) →
  wstat (m ≫= f).
Proof.
  intros Hm Hn Hf k l ob w Hw. pc_step. eapply pc_mono; [by apply Hm|]. intros a w1 [(H1 & Hy1 & He1) HR].
  destruct (decide (st a = 0)) as [E|E].
  - eapply pc_mono; [by apply Hn|]. intros b w2 (H2 & Hy2 & He). split_and!; [done|by etrans|done].
  - rewrite Hf by done. unfold get_error. pc_step. split_and!; [done..|]. intros _. by apply He1.
Qed.

Lemma wpart_ret {A} (st : A → Z) (R : A → Prop) (a : A) : st a = 0 → R a → wpart st R (mret a).
Proof. intros Ha HR k l ob w Hw. pc_step. split; [|done]. split_and!; [done..|]. by rewrite Ha. Qed.

Lemma wpart_after {A B} (st : B → Z) (R : B → Prop) (m : MW A) (f : A → MW B) :
  wkeep m → (∀ a, wpart st R (f a)) → wpart st R (m ≫= f).
Proof.
  intros Hm Hf k l ob w Hw. pc_step. eapply pc_mono; [by apply Hm|]. intros a w1 [H1 Hy1].
  eapply pc_mono; [by apply Hf|]. intros b w2 [(H2 & Hy2 & He) HR]. split; [|done].
  split_and!; [done|by etrans|done].
Qed.

Lemma wpart_stat {A} (st : A → Z) (R : A → Prop) (m : MW Z) (f : Z → A) :
  wstat m → (∀ rc, st (f rc) = rc ∧ R (f rc)) → wpart st R (rc ← m; mret (f rc)).
Proof.
  intros Hm Hf k l ob w Hw. pc_step. eapply pc_mono; [by apply Hm|]. intros rc w1 H1. pc_step.
  destruct (Hf rc) as [-> HR]. by split.
Qed.

Lemma claims_advance buf n completion : claims buf completion → claims (advance buf n) completion.
Proof. intros Hcl c i off Hc. destruct buf; simpl; try done. intros [= -> _]. by eapply Hcl. Qed.
#[local] Hint Resolve claims_advance : wkeep.

Lemma wpart_update_blocks fuel buf len completion flags :
  claims buf completion → wpart (λ r, r.1.1) (λ _, True) (update_blocks fuel buf len completion flags).
Proof.
  revert buf len. induction fuel as [|fuel IH]; intros buf len Hcl; simpl; apply wpart_after; try wkeep;
    intros c; (destruct (_ <=? _); [|by apply wpart_ret]); [by intros k l ob w Hw|].
  intros k l ob w Hw. pc_step. eapply pc_mono; [by apply wstat_consume_data_block|].
  intros rc w1 (H1 & Hy1 & He1). destruct (fails rc); [by pc_step|].
  eapply pc_mono; [by apply IH; [apply claims_advance|]|]. intros b w2 [(H2 & Hy2 & He) _].
  split; [|done]. split_and!; [done|by etrans|done].
Qed.

(** Proves the conditions of [wstat_part] on the continuation. *)
Ltac part_cases :=
  let r := fresh "r" in let H := fresh "Hr" in
  let HR := fresh "HR" in intros r HR H; repeat match goal with x : (_ * _)%type |- _ => destruct x end; simpl in H; unfold fails;
  first [apply Z.eqb_eq in H | apply Z.eqb_neq in H]; rewrite H; simpl; try reflexivity.

Lemma wstat_do_update buf len completion flags :
  claims buf completion → wstat (do_update buf len completion flags).
Proof.
  intros Hcl. unfold do_update. do 2 (apply wstat_after; [wkeep|intros ?]).
  apply (wstat_part (λ r, r.1.1) (λ r, claims r.1.2 completion)).
  - destruct (0 <? _); [|by apply wpart_ret]. do 2 (apply wpart_after; [wkeep|intros ?]).
    apply wpart_stat; [wkeep|]. intros rc. split; [done|]. by apply claims_advance.
  - part_cases. apply (wstat_part (λ r, r.1.1) (λ _, True)); [by apply wpart_update_blocks|part_cases; wkeep..].
  - part_cases.
Qed.
#[local] Hint Resolve wstat_do_update : wkeep.

(** ** The public calls *)

Lemma wkeep_get_error : wkeep get_error.
Proof. unfold get_error. wkeep. Qed.

(** [if (h->error) return h->error] *)
Lemma wstat_checked (m : MW Z) : wstat m → wstat (e ← get_error; if fails e then mret e else m).
Proof.
  intros Hm k l ob w Hw. unfold get_error. do 2 pc_step. unfold fails. destruct (_ =? 0) eqn:E; simpl; [by apply Hm|].
  pc_step. split_and!; [done..|]. intros _. unfold broken. lia.
Qed.

Lemma wstat_blkhash_update buf len : wstat (blkhash_update buf len).
Proof. unfold blkhash_update. apply wstat_after; [wkeep|intros _]. apply wstat_checked. wkeep. Qed.

Lemma wstat_blkhash_zero len : wstat (blkhash_zero len).
Proof.
  unfold blkhash_zero. apply wstat_after; [wkeep|intros _]. apply wstat_checked.
  do 3 (apply wstat_after; [wkeep|intros ?]). apply (wstat_part fst (λ _, True)).
  - destruct (0 <? _); [|by apply wpart_ret]. do 2 (apply wpart_after; [wkeep|intros ?]).
    apply wpart_stat; [wkeep|done].
  - part_cases. apply (wstat_part fst (λ _, True)).
    + destruct (_ <=? _); [|by apply wpart_ret]. destruct (block_size _ =? 0); [by intros ????|].
      apply wpart_stat; [wkeep|done].
    + part_cases; wkeep.
    + part_cases.
  - part_cases.
Qed.

Lemma wstat_wkeep (m : MW Z) : wstat m → wkeep m.
Proof. intros Hm k l ob w Hw. eapply pc_mono; [by apply Hm|]. by intros rc w' (? & ? & _). Qed.
#[local] Hint Resolve wkeep_get_error : wkeep.

Lemma wkeep_blkhash_final : wkeep blkhash_final.
Proof.
  unfold blkhash_final. wkeep; try (apply wstat_wkeep; wkeep).
Qed.

(** ** The async interface *)

(** Between two calls: [l] are the user data of the updates in flight. *)
Record account_for l ob w : Prop := {
  af_tidy : wtidy 0 l ob w;
  af_inflight : h_error (sh w) = 0 → inflight (hs w) = zlen l;
}.

Lemma account_broken l ob ob' w : account_for l ob w → broken w → account_for l ob' w.
Proof. intros [Ht Hi] Hb. split; [by eapply wtidy_broken|done]. Qed.

Lemma wkeep_account_for {A} (m : MW A) l ob w :
  wkeep m → account_for l ob w → pc m (λ _ w', account_for l ob w' ∧ (broken w → broken w')) w.
Proof.
  intros Hm [Ht Hi]. eapply pc_mono; [by apply Hm|]. intros a w' [H' [Hb He]]. split; [|done].
  split; [done|]. intros H0. rewrite He. apply Hi. by eapply unbroken.
Qed.

Lemma fail_with_account l ob ob' w e :
  wtidy 0 l ob w → e ≠ 0 → pc (fail_with e) (λ _ w', account_for l ob' w' ∧ broken w') w.
Proof.
  intros Hw He. eapply pc_mono; [by eapply fail_with_breaks|]. intros rc w' (-> & Hb & _ & Ht).
  split; [|done]. split; [apply Ht|]. by intros H0.
Qed.

End functions.

Section async.
Context {D : Type} `{DO : !DigestOps D, EV : !Env, OW : !Ownership}.
Implicit Types (s : shared D) (w : world D) (l : list Z) (k : Z) (ob : Prop).
Local Abbreviation MW := (M (world D)).
#[local] Hint Resolve wkeep_get_error wstat_do_update : wkeep.

(** A step that keeps the account. *)
Ltac account_step :=
  pc_step; eapply pc_mono; [apply wkeep_account_for; [wkeep|eassumption]|];
  let H := fresh "Hw" in let Hb := fresh "Hb" in intros ? ? [H Hb]; cbv beta.

(** The work of an update after its completion was created. *)
Lemma aio_submit_account `{CL : !Claims} buf len c l ob w :
  claims buf (Some c) → account_for l ob w →
  pc (on_hash (λ h, with_message_length (u64 (message_length h + len)) h);;
      rc ← do_update buf len (Some c) 0;
      (if fails rc then e ← get_error; shared_op (yield;; completion_set_error c e) else mret tt);;
      shared_op (yield;; completion_unref update_completed c);;
      mret 0)
    (λ rc w', rc = 0 ∧ account_for l ob w' ∧ (broken w → broken w')) w.
Proof.
  intros Hcl Hw. account_step. pc_step.
  eapply pc_mono; [apply wkeep_account_for; [apply wstat_wkeep; wkeep|eassumption]|]. intros rc w2 [Hw2 Hb2].
  do 2 account_step. pc_step. split_and!; [done..|]. auto.
Qed.

(** Between two calls, whatever the claims on buffers are. *)
Definition account l ob w : Prop := ∃ CL : Claims, account_for l ob w.

Lemma ac_inflight l ob w : account l ob w → h_error (sh w) = 0 → inflight (hs w) = zlen l.
Proof. intros [CL [Ht Hi]]. done. Qed.

Lemma account_ob l (ob ob' : Prop) w : account l ob w → (ob → ob') → account l ob' w.
Proof. intros [CL [[Ht Hr] Hi]] Hob. exists CL. split; [split; [by eapply tidy_ob|done]|done]. Qed.

Lemma account_perm l l' ob w : account l ob w → l ≡ₚ l' → account l' ob w.
Proof.
  intros [CL [[Ht Hr] Hi]] Hl. exists CL. split; [split; [by eapply tidy_perm|done]|].
  intros He. unfold zlen. rewrite <-Hl. by apply Hi.
Qed.

Lemma wkeep_account {A} (m : MW A) l ob w :
  (∀ CL : Claims, wkeep m) → account l ob w → pc m (λ _ w', account l ob w' ∧ (broken w → broken w')) w.
Proof.
  intros Hm [CL Hw]. eapply pc_mono; [by apply (wkeep_account_for m l ob w (Hm CL))|].
  intros a w' [? ?]. split; [by exists CL|done].
Qed.

(** What an async update leaves: it is in flight if it was accepted. *)
Lemma aio_update_account buf len ud l ob w :
  account l ob w → may_use ud buf →
  pc (blkhash_aio_update buf len ud) (λ rc w',
    account (if rc =? 0 then ud :: l else l) ob w' ∧ (broken w → broken w')) w.
Proof.
  intros [CL Hw] Hu. unfold blkhash_aio_update. account_step. apply pc_bind, pc_gets.
  unfold fails at 1. destruct (_ =? 0) eqn:E; simpl; [|pc_step; rewrite E; split; [by exists CL|done]].
  unfold config_of. do 4 pc_step. destruct (_ <=? _) eqn:Eq; [pc_step; split; [by exists CL|done]|].
  apply Z.eqb_eq in E. destruct Hw0 as [[Hs Hr] Hi]. specialize (Hi E).
  pose proof (td_depth _ _ _ _ Hs) as Hd. pose proof (zlen_nonneg l) as Hz.
  pc_step. unfold on_hash at 1. do 2 pc_step. pc_step. simpl.
  eapply pc_mono; [by eapply (completion_new_tidy ud buf)|]. intros [err out] s2 (H2 & [He2 _] & Ho).
  simpl in *. destruct out as [c|].
  - eapply pc_mono; [eapply (aio_submit_account (CL := claim_for buf c) _ _ _ (ud :: l) ob)|].
    + apply claim_for_claims.
    + split; [by split|]. intros _. simpl. rewrite zlen_cons, Hi. unfold u32. rewrite Z.mod_small; lia.
    + intros rc w3 (-> & H3 & Hb3). simpl. split; [by exists (claim_for buf c)|]. intros Hbr. by destruct (Hb Hbr).
  - pc_step. eapply pc_mono; [eapply (fail_with_account l ob ob); [|by apply Ho]|].
    { split; [exact H2|exact Hr]. }
    intros _ w3 [H3 Hb3]. unfold get_error. pc_step.
    assert ((h_error (sh w3) =? 0) = false) as -> by (unfold broken in Hb3; lia).
    by split; [exists CL|].
Qed.

(** A signaled event is all the caller needs. *)
Lemma tidy_ready `{CL : !Claims} n l ob ob' s :
  tidy n l ob s → (no_eagain → h_error s = 0 → ready s) → tidy n l ob' s.
Proof. intros [] Hr. split; try done. intros. right. left. by apply Hr. Qed.

(** The end of [blkhash_aio_completions] when completions are left. *)
Lemma resignal_account `{CL : !Claims} (n : Z) (out : list blkhash_completion) l ob ob' w :
  account_for l ob w →
  pc (err ← shared_op (yield;; event_signal);
      if fails err then fail_with (- err);; mret (err, out) else mret (n, out))
    (λ r w', r.2 = out ∧ account_for l ob' w' ∧ (broken w → broken w') ∧ (h_error (sh w') = 0 → r.1 = n)) w.
Proof.
  intros [[Hs Hr] Hi]. do 3 pc_step. eapply pc_mono; [by apply (keep_yield _ _ _ _ Hs)|].
  intros _ s1 [H1 [He1 _]]. eapply pc_mono; [by apply event_signal_tidy|].
  intros err s2 (H2 & He2 & _ & _ & Hrd). unfold fails. destruct (err =? 0) eqn:E; simpl; pc_step; simpl.
  - split_and!; [done| |unfold broken; simpl; by rewrite He2|done].
    split; [split; [|done]|]; simpl.
    + eapply tidy_ready; [done|]. intros. apply Hrd; [done|lia].
    + rewrite He2. intros H0. apply Hi. destruct (decide (h_error (sh w) = 0)); [done|]. by destruct He1.
  - eapply pc_mono; [eapply (fail_with_account l ob ob'); [by split|lia]|]. intros _ w3 [H3 Hb3].
    pc_step. by split_and!.
Qed.

(** The accounting of the completions that were taken. *)
Lemma take_inflight_account `{CL : !Claims} (l : list Z) ob (out : list blkhash_completion) w :
  tidy (r_len (sq (hs w)) + 0) l ob (sh w) →
  0 <= r_len (sq (hs w)) <= r_size (sq (hs w)) ∧ r_size (sq (hs w)) < 2 ^ 32 →
  (h_error (sh w) = 0 → inflight (hs w) - zlen out = zlen l) →
  pc (if 0 <? zlen out
      then h ← gets hs; assertM (zlen out <=? inflight h);; on_hash (λ h, with_inflight (inflight h - zlen out) h)
      else mret tt) (λ _ w', account_for l ob w' ∧ sh w' = sh w) w.
Proof.
  intros Hs Hr Hz. destruct (0 <? zlen out) eqn:Eo.
  - do 4 pc_step. unfold on_hash. pc_step. by split.
  - pose proof (zlen_nonneg out). pc_step. split; [|done]. split; [by split|]. intros H0.
    rewrite <-Hz by done. lia.
Qed.

Lemma aio_completions_account count l ob w :
  account l ob w → 0 <= count →
  pc (blkhash_aio_completions count) (λ r w', ∃ l', account l' (ob ∧ count = 0) w' ∧
    (h_error (sh w') = 0 → r.1 = zlen r.2) ∧ l ≡ₚ (user_data <$> r.2) ++ l' ∧ (broken w → broken w')) w.
Proof.
  intros [CL Hw] Hc. unfold blkhash_aio_completions. account_step. rename s' into w1.
  apply pc_bind, pc_gets. unfold fails at 1. destruct (_ =? 0) eqn:E; simpl.
  2:{ pc_step. exists l. split_and!; [|intros; lia|done..]. exists CL. eapply account_broken; [done|]. unfold broken. lia. }
  apply Z.eqb_eq in E. destruct Hw0 as [[Hs Hr] Hi]. specialize (Hi E).
  do 3 pc_step. eapply pc_mono; [by apply (keep_yield _ _ _ _ Hs)|]. intros _ s1 [H1 [He1 _]].
  eapply pc_mono; [by apply (cq_take_tidy count)|]. intros [out more] s2 (l' & Hl & H2 & He2). simpl in *.
  set (ob' := more = true ∨ ob ∧ count = 0) in *.
  assert (h_error s2 = 0 → inflight (hs w1) - zlen out = zlen l') as Hz.
  { intros H0. rewrite Hi. unfold zlen. rewrite Hl, length_app, length_fmap. lia. }
  pc_step. eapply pc_mono; [apply (take_inflight_account l' ob' out (with_sh s2 w1) H2 Hr Hz)|].
  intros _ w3 (H3 & Hs3). simpl in Hs3. destruct more.
  - eapply pc_mono; [eapply (resignal_account _ _ _ _ (ob ∧ count = 0)); exact H3|].
    intros [rc out'] w4 (Ho4 & H4 & Hb4 & H04). simpl in *. subst out'. exists l'.
    split_and!; [by exists CL|done|done|]. by intros Hbr; destruct (Hb Hbr).
  - pc_step. exists l'. split_and!; [|done|done|by intros Hbr; destruct (Hb Hbr)].
    eapply account_ob; [by exists CL|]. by intros [|].
Qed.
End async.
