(* ===== verification/Client.v ===== *)
(** * A client of the async interface

    [client o w a]: a client that created a hash with options [o] sees it in state
    [w], where [a] records the async updates that were accepted, the completions it
    was given, and whether it read the completion descriptor since it last asked for
    completions.  The client makes calls, reads the descriptor and changes its
    buffers, and the workers take steps, in any order. *)

From stdpp Require Import prelude list strings gmap.
From Stdlib Require Import ZArith Lia.
From S2P Require Import Prelude Ring State Digest Zero Event Completion Submission Config HashPool.
From S2P Require Import Blkhash PoolInv PoolStep Progress Spec PoolCaller PoolAio BlkhashInv BlkhashOps.
From S2P Require Import BlkhashUpdate Api ApiAio Init Session Reach Free Account AccountApi.

Local Open Scope Z_scope.

Section client.
Context {D : Type} `{DO : !DigestOps D, DL : !DigestLaws D, EV : !Env}.
Implicit Types (s : shared D) (w : world D) (l : list Z).

(** What the client knows. *)
Record aio := Aio {
  accepted : list Z; (* user data of the updates that returned 0 *)
  reported : list Z; (* user data of the completions it was given *)
  looking : bool; (* the descriptor was read, and the completions not yet *)
}.

Inductive client (o : blkhash_opts) : world D → aio → Prop :=
| client_new m w : blkhash_init o (fresh_world m) = Ret 0 w → client o w (Aio [] [] false)
| client_update w a p len rc w' :
    client o w a → blkhash_update p len w = Ret rc w' → client o w' a
| client_zero w a len rc w' :
    client o w a → blkhash_zero len w = Ret rc w' → client o w' a
| client_aio_update w a p len ud rc w' :
    client o w a → blkhash_aio_update p len ud w = Ret rc w' →
    client o w' (Aio (if rc =? 0 then ud :: accepted a else accepted a) (reported a) (looking a))
| client_completions w a count rc out w' :
    client o w a → 0 <= count → blkhash_aio_completions count w = Ret (rc, out) w' →
    client o w' (Aio (accepted a) ((user_data <$> out) ++ reported a) (looking a && (count =? 0)))
| client_event w a rc s :
    client o w a → event_wait (sh w) = Ret rc s →
    client o (World s (hs w)) (Aio (accepted a) (reported a) true)
| client_worker w a x s :
    client o w a → worker_step x (sh w) = Ret tt s → client o (World s (hs w)) a
| client_buffers w a m :
    client o w a → client o (World (with_mem m (sh w)) (hs w)) a.

(** ** The account of the client *)

Section account.
Context `{OW : !Ownership}.

Lemma newborn_account o m w : valid_opts o → newborn o m w → account [] False w.
Proof using Type.
  intros Hv [_ Hc Hs Hcm (Hq1 & Hq2 & Hq3 & Hq4 & _) He Hsq _ Hin].
  pose proof (vo_depth _ Hv) as Hd. pose proof (co_max _ (config_for_ok o Hv)).
  exists (∅ : gmap nat nat). split; [split|by rewrite Hin].
  - rewrite Hsq. split; rewrite ?Hs, ?Hcm, ?Hc, ?Hq1; simpl; try done; try lia; try (by intros; rewrite lookup_empty).
    + rewrite Hq2. simpl. lia.
    + intros v Hev. destruct (Hq4 v Hev). simpl in *. lia.
    + unfold uds. by rewrite Hcm, Hq1.
  - rewrite Hsq. simpl in *. lia.
Qed.

Lemma init_account o m w :
  valid_opts o → blkhash_init o (fresh_world m) = Ret 0 w → account [] False w.
Proof using DL.
  intros Hv Hi. pose proof (blkhash_init_inv o m Hv) as Hx. unfold wpx in Hx. rewrite Hi in Hx.
  destruct Hx as [[_ Hb] _]; [done|]. by eapply newborn_account.
Qed.

Lemma event_read_tidy `{CL : !Claims} fuel n l ob s :
  tidy n l ob s → pc (event_read fuel) (λ _ s', tidy n l True s' ∧ h_error s' = h_error s) s.
Proof using Type.
  revert s. induction fuel as [|fuel IH]; intros s Hs; simpl; unfold next_fault.
  all: do 4 pc_step; do 6 pc_step; destruct (td_event _ _ _ _ Hs _ H) as [? ?];
    set (s1 := with_n_fault (S (n_fault s)) s);
    assert (tidy n l True s1) as Hs1 by (destruct Hs; split; auto);
    destruct (fault (n_fault s) =? 0) eqn:Ef;
    [destruct (a =? 0); [by pc_step|do 3 pc_step]|destruct (fault (n_fault s) =? EINTR); [|by pc_step]].
  1,3: split; [|done]; destruct Hs1; split; simpl in *; try done; [intros v [= <-]; split; [lia|done]|auto].
  - pc_step.
  - eapply pc_mono; [exact (IH s1 ltac:(by destruct Hs))|done].
Qed.

Lemma event_wait_tidy `{CL : !Claims} n l ob s :
  tidy n l ob s → pc event_wait (λ _ s', tidy n l True s' ∧ h_error s' = h_error s) s.
Proof using Type.
  intros Hs. unfold event_wait. pc_step. eapply pc_mono; [by eapply event_read_tidy|].
  intros err s1 H1. destruct (fails err); [destruct (negb _)|]; by pc_step.
Qed.

(** Steps on the shared state between two calls. *)
Lemma account_aside l ob ob' w s :
  account l ob w → (∀ (CL : Claims) n, tidy n l ob (sh w) → tidy n l ob' s ∧ (h_error (sh w) ≠ 0 → h_error s ≠ 0)) →
  account l ob' (World s (hs w)).
Proof using Type.
  intros [CL [[Hs Hg] Hi]] Hk. exists CL. destruct (Hk CL _ Hs) as [H' He]. split; [by split|]. simpl.
  intros H0. apply Hi. destruct (decide (h_error (sh w) = 0)) as [|Hn]; [done|]. by destruct (He Hn).
Qed.
End account.

(** What the client knows agrees with the state of the hash. *)
#[local] Existing Instance any_buffer.
Definition agrees w (a : aio) : Prop :=
  ∃ l, account l (looking a = true) w ∧ accepted a ≡ₚ reported a ++ l.

Lemma agrees_keep {A} (m : M (world D) A) w a r w' :
  (∀ CL : Claims, AccountApi.wkeep m) → agrees w a → m w = Ret r w' → agrees w' a.
Proof using Type.
  intros Hm (l & Hc & Hp) Hr. pose proof (pc_run _ _ _ _ _ (wkeep_account m l _ w Hm Hc) Hr) as [H' Hb].
  by exists l.
Qed.

Lemma client_agrees o w a : valid_opts o → client o w a → agrees w a.
Proof using DL.
  intros Hv. induction 1 as [m w Hi|w a p len rc w' _ IH Hr|w a len rc w' _ IH Hr|w a p len ud rc w' _ IH Hr
    |w a count rc out w' _ IH Hc Hr|w a rc s _ IH Hr|w a x s _ IH Hr|w a m _ IH].
  - exists []. split; [|done]. eapply account_ob; [by eapply init_account|]. by intros [].
  - eapply agrees_keep; [intros; apply wstat_wkeep, wstat_blkhash_update|done..].
  - eapply agrees_keep; [intros; apply wstat_wkeep, wstat_blkhash_zero|done..].
  - destruct IH as (l & Hac & Hp).
    destruct (pc_run _ _ _ _ _ (aio_update_account p len ud l _ w Hac ltac:(done)) Hr) as [H' _].
    eexists. split; [exact H'|]. simpl. destruct (rc =? 0); [|done]. by rewrite Hp, Permutation_middle.
  - destruct IH as (l & Hac & Hp).
    destruct (pc_run _ _ _ _ _ (aio_completions_account count l _ w Hac Hc) Hr) as (l' & H' & _ & Hl & _).
    exists l'. simpl in *. split.
    + eapply account_ob; [exact H'|]. intros [Hl1 Hc1]. rewrite Hl1. simpl. lia.
    + by rewrite Hp, Hl, app_assoc, (Permutation_app_comm (reported a)).
  - destruct IH as (l & Hac & Hp). exists l. split; [|done]. apply (account_ob _ True); [|done].
    eapply account_aside; [done|]. intros CL n Ht. destruct (pc_run _ _ _ _ _ (event_wait_tidy _ l _ _ Ht) Hr) as [H' He].
    by rewrite He.
  - destruct IH as (l & Hac & Hp). exists l. split; [|done]. eapply account_aside; [done|]. intros CL n Ht.
    by destruct (pc_run _ _ _ _ _ (keep_worker_step x _ l _ _ Ht) Hr) as [H' [He _]].
  - destruct IH as (l & Hac & Hp). exists l. split; [|done]. eapply account_aside; [done|]. intros CL n Ht.
    split; [by destruct Ht|done].
Qed.

(** A client that makes valid calls. *)
Lemma reach_client o w msg : reach o w msg → ∃ a, client o w a.
Proof using Type.
  induction 1 as [m w Hi|w msg x b rc w' _ [a IH] Hb _ Hr|w msg x s _ [a IH] Hr|w msg rc s _ [a IH] Hr|w msg m _ [a IH] _].
  - eexists. by eapply client_new.
  - destruct x as [p len|len|p len ud|count]; simpl in Hr.
    + eexists. by eapply client_update.
    + eexists. by eapply client_zero.
    + eexists. by eapply client_aio_update.
    + simpl in Hb. destruct (is_size count) eqn:Es; [|done]. apply is_size_true in Es.
      unfold mbind, M_bind in Hr. destruct (blkhash_aio_completions count w) as [[rc' out] w''|] eqn:Ec; [|done].
      injection Hr as <- <-. eexists. eapply client_completions; [done|apply Es|done].
  - eexists. by eapply client_worker.
  - eexists. by eapply client_event.
  - eexists. by eapply client_buffers.
Qed.

(** ** Freeing a hash that was finalized *)

Lemma free_after_final `{OW : !Ownership, CL : !Claims} nf o l ob w :
  nf ∨ live_env (D := D) (config_for o) → valid_opts o →
  wtidy 0 l ob w → core (config_for o) None [] [] w →
  wp nf blkhash_free (λ _ w', released w' ∧ (h_error (sh w) = 0 → subs (sh w') = ∅) ∧
    h_error (sh w') = h_error (sh w)) w.
Proof using DL.
  intros Hnf Hv [Ht _] Hk. pose proof (k_cfg _ _ _ _ _ Hk) as Hcfg.
  assert (queue_depth (config_for o) = 0 → cq_event (cq (sh w)) = None) as Hev.
  { intros H0. destruct (cq_event (cq (sh w))) as [v|] eqn:E; [|done].
    destruct (td_event _ _ _ _ Ht _ E) as [_ Hd]. rewrite Hcfg in Hd. lia. }
  eapply wp_mono; [by apply (blkhash_free_inv nf (config_for o) Hnf w Hk (config_for_workers o Hv) Hev)|].
  intros _ w' (Hr & Hs & He). split_and!; [done| |done]. intros H0. rewrite Hs. apply map_size_empty_inv.
  pose proof (td_subs _ _ _ _ Ht H0) as Hn. rewrite (rr_len _ _ (k_ring _ _ _ _ _ Hk)) in Hn.
  rewrite (zlen_nil (A := nat)) in Hn. lia.
Qed.

(** The hash after [blkhash_free]: everything was freed, and no submission is left unless
    there was an error, which there is not if nothing fails. *)
Definition returned o w : Prop :=
  released w ∧ (h_error (sh w) = 0 → subs (sh w) = ∅) ∧ (calm (D := D) (o_digest_name o) → subs (sh w) = ∅).

Lemma free_returned `{OW : !Ownership, CL : !Claims} nf o l ob w :
  nf ∨ live_env (D := D) (config_for o) → valid_opts o →
  wtidy 0 l ob w → core (config_for o) None [] [] w → wp nf blkhash_free (λ _, returned o) w.
Proof using DL.
  intros Hnf Hv Ht Hk. eapply wp_mono; [by apply (free_after_final nf o l ob)|]. intros _ w' (Hr & Hs & He).
  unfold returned. rewrite He. split_and!; [done..|]. intros Hc. apply Hs.
  destruct (decide (h_error (sh w) = 0)) as [|Hn]; [done|]. by destruct (not_calm_error _ _ _ _ _ Hk Hn).
Qed.
End client.
