(* ===== verification/Demo.v ===== *)
(** * A concrete environment

    The witnesses of the theorems run the model: the crypto library of
    [Digest.Toy], small blocks, a few worker threads and a round robin
    scheduler. *)

From stdpp Require Import prelude list strings gmap.
From Stdlib Require Import ZArith Lia.
From S2P Require Import Prelude Ring State Digest Config HashPool Blkhash PoolInv Progress Spec.
From S2P Require Import Init Session Reach.

Local Open Scope Z_scope.

Module Demo.

(** No failures; every worker takes a step at every scheduling point. *)
#[export] Instance env : Env := {|
  fault _ := 0;
  wake n := n;
  sched _ := [ARun 0; ARun 1];
  spins := 400;
|}.

(** Another schedule: workers alternate, with spurious wakeups. *)
Definition env2 : Env := {|
  fault _ := 0;
  wake n := (n + 1)%nat;
  sched t := if Nat.even t then [ARun 0] else [ASpurious 0; ARun 1];
  spins := 800;
|}.

(** An allocation fails: call number [k] of the fallible calls. *)
Definition failing (k : nat) : Env := {|
  fault n := if decide (n = k) then ENOMEM else 0;
  wake n := n;
  sched _ := [ARun 0; ARun 1];
  spins := 400;
|}.

Definition opts : blkhash_opts := Opts "sha256" 16 0 2.
Definition aio_opts : blkhash_opts := Opts "sha256" 16 4 2.

(** A buffer of 40 bytes, the first block zero. *)
Definition buffer0 : list byte := zeros 16 ++ (byte_of_Z ∘ Z.of_nat <$> seq 1 24).
Definition mem0 : gmap nat (list byte) := {[ 0%nat := buffer0 ]}.

Definition calls : list call :=
  [CUpdate (DUser 0 0) 40; CZero 50; CUpdate (DUser 0 10) 30].

Definition aio_calls : list call :=
  [CAioUpdate (DUser 0 0) 40 1; CZero 24; CAioUpdate (DUser 0 16) 24 2; CAioCompletions 8].

Lemma opts_valid : valid_opts opts.
Proof. split; vm_compute; split; congruence. Qed.

Lemma aio_opts_valid : valid_opts aio_opts.
Proof. split; vm_compute; split; congruence. Qed.

Lemma calls_valid : Forall (λ x, is_Some (call_bytes mem0 x)) calls.
Proof. repeat constructor; by eexists. Qed.

Lemma aio_calls_valid : Forall (λ x, is_Some (call_bytes mem0 x)) aio_calls.
Proof. repeat constructor; by eexists. Qed.

Lemma calm_env : calm (EV := env) (D := Toy.digest) "sha256".
Proof. split; [done|apply Toy.total]. Qed.

Lemma calm_env2 : calm (EV := env2) (D := Toy.digest) "sha256".
Proof. split; [done|apply Toy.total]. Qed.

Lemma live_opts o :
  o_digest_name o = "sha256" → o_threads o = 2 → o_queue_depth o <= 4 →
  0 <= o_queue_depth o → live_env (EV := env) (D := Toy.digest) (config_for o).
Proof.
  intros Hn Ht Hq Hq0. split; [simpl; rewrite Hn; apply calm_env|]. exists 1%nat.
  assert (max_submissions (config_for o) = 32) as ->.
  { simpl. rewrite Ht. unfold max_submissions_for, MAX, u32.
    destruct (2 <? o_queue_depth o) eqn:?; rewrite Z.mod_small by lia;
      match goal with |- context [32 <? ?x] => destruct (32 <? x) eqn:? end; lia. }
  split.
  - intros t k Hk. simpl in Hk. rewrite Ht in Hk. exists 0%nat. split; [lia|]. simpl.
    destruct k as [|[|k]]; [by left|right; by left|]. simpl in Hk. lia.
  - simpl. rewrite Ht. simpl. lia.
Qed.

Lemma live_opts2 : live_env (EV := env2) (D := Toy.digest) (config_for opts).
Proof.
  split; [apply calm_env2|]. exists 2%nat. split.
  - intros t k Hk. simpl in Hk. destruct k as [|[|k]]; [| |simpl in Hk; lia].
    + exists (if Nat.even t then 0 else 1)%nat. simpl.
      destruct (Nat.even t) eqn:E; (split; [lia|]).
      * rewrite Nat.add_0_r, E. by left.
      * rewrite Nat.add_1_r, Nat.even_succ, <-Nat.negb_even, E. simpl. by left.
    + exists (if Nat.even t then 1 else 0)%nat. simpl.
      destruct (Nat.even t) eqn:E; (split; [lia|]).
      * rewrite Nat.add_1_r, Nat.even_succ, <-Nat.negb_even, E. simpl. right; by left.
      * rewrite Nat.add_0_r, E. right; by left.
  - vm_compute. lia.
Qed.

(** ** Concrete states *)

Abbreviation world := (world Toy.digest).

(** The final state of a computation that returns. *)
Definition state_of {A} (m : M world A) (w : world) : world :=
  match m w with Ret _ w' => w' | Crash _ => w end.

(** A new hash, sync and async. *)
Definition new : world := state_of (blkhash_init (EV := env) opts) (fresh_world mem0).
Definition aio_new : world := state_of (blkhash_init (EV := env) aio_opts) (fresh_world mem0).

Lemma new_eq : blkhash_init (EV := env) opts (fresh_world mem0) = Ret 0 new.
Proof. vm_compute. reflexivity. Qed.

Lemma aio_new_eq : blkhash_init (EV := env) aio_opts (fresh_world mem0) = Ret 0 aio_new.
Proof. vm_compute. reflexivity. Qed.

(** After an update of 40 bytes. *)
Definition updated : world := state_of (run_call (EV := env) (CUpdate (DUser 0 0) 40)) new.
Definition aio_updated : world := state_of (run_call (EV := env) (CAioUpdate (DUser 0 0) 40 1)) aio_new.

Lemma updated_reach : reach (EV := env) opts updated buffer0.
Proof.
  apply (reach_call (EV := env) opts new [] (CUpdate (DUser 0 0) 40) buffer0 0);
    [eapply reach_new, new_eq|vm_compute; reflexivity..].
Qed.

Lemma aio_updated_reach : reach (EV := env) aio_opts aio_updated buffer0.
Proof.
  apply (reach_call (EV := env) aio_opts aio_new [] (CAioUpdate (DUser 0 0) 40 1) buffer0 0);
    [eapply reach_new, aio_new_eq|vm_compute; reflexivity..].
Qed.

(** A hash whose second allocation of the first update failed. *)
Definition broken_new : world := state_of (blkhash_init (EV := failing 22) opts) (fresh_world mem0).
Definition broken : world := state_of (run_call (EV := failing 22) (CUpdate (DUser 0 0) 40)) broken_new.

Lemma broken_reach : reach (EV := failing 22) opts broken [].
Proof.
  apply (reach_call (EV := failing 22) opts broken_new [] (CUpdate (DUser 0 0) 40) buffer0 ENOMEM);
    [apply (reach_new (EV := failing 22) opts mem0)|..]; vm_compute; reflexivity.
Qed.
End Demo.
