(* ===== verification/ClientTheorems.v ===== *)
(** * Properties of async clients and of freeing a hash

    Every async update is reported exactly once, a client that waits for the
    completion descriptor misses nothing, and [blkhash_free] after [blkhash_final]
    stops the workers and releases everything. *)

From stdpp Require Import prelude list strings gmap.
From Stdlib Require Import ZArith Lia.
From S2P Require Import Prelude Ring State Digest Zero Event Completion Submission Config HashPool.
From S2P Require Import Blkhash PoolInv PoolStep Progress Spec PoolCaller PoolAio BlkhashInv BlkhashOps.
From S2P Require Import BlkhashUpdate Api ApiAio Init Session Reach Free Account Poll AccountApi Client Demo.

Local Open Scope Z_scope.

Section client_theorems.
Context {D : Type} `{DO : !DigestOps D, DL : !DigestLaws D}.
Implicit Types (w : world D).

(** C14: every async update is reported exactly once.  In any interleaving of
    calls, reads of the completion descriptor and worker steps, while the hash has
    no error, the updates that were accepted are, as multisets of user data, those
    that were reported and those that are still in flight (a live completion, or an
    entry of the completion queue); [inflight] is their difference; and the
    submissions that exist are as many as the submission queue holds. *)
Theorem aio_updates_accounted `{EV : !Env} o w a :
  valid_opts o → client o w a → h_error (sh w) = 0 →
  accepted a ≡ₚ reported a ++ uds (sh w) ∧ inflight (hs w) = zlen (accepted a) - zlen (reported a) ∧
  Z.of_nat (size (subs (sh w))) = r_len (sq (hs w)).
Proof using DL.
  intros Hv Hc He. destruct (client_agrees _ _ _ Hv Hc) as (l & [CL [[Hs _] Hi]] & Hp).
  split_and!.
  - by rewrite (td_uds _ _ _ _ Hs).
  - rewrite (Hi He). unfold zlen. rewrite Hp, length_app. lia.
  - rewrite (td_subs _ _ _ _ Hs He). lia.
Qed.

(** C15: no completion notification is lost.  While the hash has no error and if no
    system call fails with EAGAIN: if completions are queued and the client has not
    read the descriptor since it last asked for completions, the descriptor is readable or
    a worker is about to make it so: such a client that polls the descriptor, reads it and
    asks for completions does not hang. *)
Theorem completions_announced `{EV : !Env} o w a :
  valid_opts o → client o w a → no_eagain → h_error (sh w) = 0 → looking a = false →
  0 < cq_count (cq (sh w)) → ready (sh w) ∨ notifying (threads (sh w)).
Proof using DL.
  intros Hv Hc Hn He Hl Hq. destruct (client_agrees _ _ _ Hv Hc) as (l & [CL [[Hs _] _]] & _).
  destruct (td_notify _ _ _ _ Hs Hn He Hq) as [Hb|]; [congruence|done].
Qed.

(** C16: waiting for completions ends.  If an async update is in flight and the
    client has not read the descriptor since it last asked for completions, then
    under a fair scheduler and without failing calls [poll] on the completion
    descriptor returns, with the descriptor readable. *)
Theorem poll_ends `{EV : !Env} o w msg a :
  valid_opts o → reach o w msg → client o w a → live_env (D := D) (config_for o) →
  looking a = false → 0 < inflight (hs w) →
  ∃ s', poll_event spins (sh w) = Ret tt s' ∧ ready s'.
Proof using DL.
  intros Hv Hr Hcl Hlive Hlook Hin. destruct (reach_safe _ _ _ Hv Hr) as (ids & Q & Hk).
  destruct (k_shared _ _ _ _ _ Hk) as [q HI]. pose proof (k_cfg _ _ _ _ _ Hk) as Hc.
  destruct (client_agrees _ _ _ Hv Hcl) as (l & [CL [[Ht _] Hi]] & _).
  assert (h_error (sh w) = 0) as He.
  { pose proof (si_calm _ _ _ _ _ _ HI) as Hcm. rewrite Hc in Hcm. apply Hcm, Hlive. }
  assert (l ≠ []) as Hl. { intros ->. rewrite (Hi He) in Hin. done. }
  assert (0 < queue_depth (config_for o)) as Hd.
  { pose proof (cq_infl _ _ _ _ (si_cq _ _ _ _ _ _ HI)) as Hle. rewrite Hc in Hle. lia. }
  pose proof (poll_event_ok (OW := any_buffer) False (tracked ids Q) (inflight (hs w)) (config_for o) (or_intror Hlive)
    q _ l (sh w) HI Hc (tidy_ob (OW := any_buffer) _ _ _ False _ Ht ltac:(by rewrite Hlook)) Hd (or_intror Hl)) as Hw.
  apply wp_total in Hw as ([] & s' & Hrun & _ & _ & _ & _ & Hrd). by exists s'.
Qed.

(** C18: freeing a hash.  After a successful [blkhash_final], [blkhash_free] never
    crashes; when it returns, every worker has exited, the memory of the pool was
    freed once, no completion is left, the event is closed, and, if the hash has no
    error, no submission is left; it does return if nothing fails and the workers
    are scheduled fairly. *)
Theorem free_releases `{EV : !Env} o w msg md w1 :
  valid_opts o → reach o w msg → blkhash_final w = Ret (0, md) w1 →
  match blkhash_free w1 with
  | Ret _ w2 => released w2 ∧ (h_error (sh w1) = 0 → subs (sh w2) = ∅)
  | Crash k => k = CNoFuel ∧ ¬ live_env (D := D) (config_for o)
  end.
Proof using DL.
  intros Hv Hr Hf. destruct (reach_client _ _ _ Hr) as [a Hcl].
  destruct (client_agrees _ _ _ Hv Hcl) as (l & [CL [Ht _]] & _).
  pose proof (pc_run _ _ _ _ _ (wkeep_blkhash_final _ _ _ _ Ht) Hf) as [Ht1 _].
  destruct (reach_api _ _ _ Hv Hr) as (G & Ha & _). destruct (reach_inv _ _ _ Hv Hr) as [Hfin _].
  pose proof (blkhash_final_full True (config_for o) (any_nf _) G msg w Ha Hfin) as Hx. unfold wp in Hx.
  rewrite Hf in Hx. destruct Hx as (_ & _ & _ & _ & Hk & _). destruct (Hk eq_refl) as [_ Hk1].
  pose proof (λ nf Hnf, free_after_final (OW := any_buffer) nf o _ _ w1 Hnf Hv Ht1 Hk1) as Hfree.
  pose proof (Hfree True (any_nf _)) as Ht2. unfold wp in Ht2, Hfree.
  destruct (blkhash_free w1) as [u w2|k]; [by destruct Ht2 as (? & ? & _)|].
  split; [by destruct k|]. intros Hlive. specialize (Hfree False (or_intror Hlive)). by destruct k.
Qed.
End client_theorems.

(** ** Witnesses *)

Module ClientDemo.
Import Demo.

(** Two updates are accepted, the client reads the descriptor and asks for one
    completion. *)
Definition two : world := state_of (blkhash_aio_update (EV := env) (DUser 0 16) 24 2) aio_updated.
Definition cleared : shared Toy.digest :=
  match event_wait (EV := env) (sh two) with Ret _ s => s | Crash _ => sh two end.
Definition read : world := World cleared (hs two).
Definition one_left : world := state_of (blkhash_aio_completions (EV := env) 1) read.

Lemma aio_updated_client : client (EV := env) aio_opts aio_updated (Aio [1] [] false).
Proof.
  apply (client_aio_update (EV := env) aio_opts aio_new (Aio [] [] false) (DUser 0 0) 40 1 0);
    [eapply client_new, aio_new_eq|vm_compute; reflexivity].
Qed.

Lemma one_left_client : client (EV := env) aio_opts one_left (Aio [2; 1] [1] false).
Proof.
  apply (client_completions (EV := env) aio_opts read (Aio [2; 1] [] true) 1 1 [BlkCompletion 1 0]);
    [|lia|vm_compute; reflexivity].
  apply (client_event (EV := env) aio_opts two (Aio [2; 1] [] false) 1 cleared); [|vm_compute; reflexivity].
  apply (client_aio_update (EV := env) aio_opts aio_updated (Aio [1] [] false) (DUser 0 16) 24 2 0);
    [apply aio_updated_client|vm_compute; reflexivity].
Qed.

Definition final_of : world := state_of (blkhash_final (EV := env)) updated.
Definition final_md : list byte :=
  match blkhash_final (EV := env) updated with Ret r _ => r.2 | Crash _ => [] end.
End ClientDemo.

Lemma aio_updates_accounted_witness :
  [2; 1] ≡ₚ [1] ++ uds (sh ClientDemo.one_left) ∧ inflight (hs ClientDemo.one_left) = 2 - 1 ∧
  Z.of_nat (size (subs (sh ClientDemo.one_left))) = r_len (sq (hs ClientDemo.one_left)).
Proof.
  exact (aio_updates_accounted (EV := Demo.env) Demo.aio_opts ClientDemo.one_left (Aio [2; 1] [1] false)
    Demo.aio_opts_valid ClientDemo.one_left_client ltac:(vm_compute; reflexivity)).
Defined.

Lemma completions_announced_witness :
  cq_count (cq (sh ClientDemo.one_left)) = 1 ∧
  (ready (sh ClientDemo.one_left) ∨ notifying (threads (sh ClientDemo.one_left))).
Proof.
  split; [vm_compute; reflexivity|].
  apply (completions_announced (EV := Demo.env) Demo.aio_opts ClientDemo.one_left (Aio [2; 1] [1] false)
    Demo.aio_opts_valid ClientDemo.one_left_client); [by intros n| |reflexivity|]; vm_compute; reflexivity.
Defined.

Lemma poll_ends_witness :
  ∃ s', poll_event (EV := Demo.env) 400 (sh Demo.aio_updated) = Ret tt s' ∧ ready s'.
Proof.
  apply (poll_ends (EV := Demo.env) Demo.aio_opts Demo.aio_updated Demo.buffer0 (Aio [1] [] false));
    [apply Demo.aio_opts_valid|apply Demo.aio_updated_reach|apply ClientDemo.aio_updated_client
    |apply Demo.live_opts; vm_compute; congruence|reflexivity|vm_compute; reflexivity].
Defined.

Lemma free_releases_witness :
  match blkhash_free (EV := Demo.env) ClientDemo.final_of with
  | Ret _ w2 => released w2 ∧ (h_error (sh ClientDemo.final_of) = 0 → subs (sh w2) = ∅)
  | Crash k => k = CNoFuel ∧ ¬ live_env (D := Toy.digest) (EV := Demo.env) (config_for Demo.opts)
  end.
Proof.
  apply (free_releases (EV := Demo.env) Demo.opts Demo.updated Demo.buffer0 ClientDemo.final_md);
    [apply Demo.opts_valid|apply Demo.updated_reach|vm_compute; reflexivity].
Defined.

(** The run of the model: [blkhash_free] returns and leaves nothing. *)
Example free_returns :
  match blkhash_free (EV := Demo.env) ClientDemo.final_of with
  | Ret _ w2 => threads (sh w2) = [WExit; WExit] ∧ subs (sh w2) = ∅
  | Crash _ => False
  end.
Proof. vm_compute. done. Qed.
