(* ===== verification/AsyncCalls.v ===== *)
(** * A hash between the calls of an async client

    The rules that programs using the async interface share: what an update, a
    request for completions, [poll] and [read] do to a hash that stands for a message
    and to the account of its updates, that waiting brings the completions closer,
    and that a buffer can be used again once the updates that own it were reported. *)

From stdpp Require Import prelude list strings gmap.
From Stdlib Require Import ZArith Lia.
From S2P Require Import Prelude Ring State Digest Zero Event Completion Submission Config HashPool.
From S2P Require Import Blkhash PoolInv PoolStep Progress Spec PoolCaller PoolAio BlkhashInv BlkhashOps.
From S2P Require Import BlkhashUpdate Api ApiAio Init Session Reach Free Account Poll AccountApi Client.

Local Open Scope Z_scope.

(** Code that may crash in any way, for a reason. *)
Lemma wpx_wpc (ex : Prop) (bad : crash → Prop) {St A} (m : M St A) (Q : A → St → Prop) s :
  (ex → ∀ k, bad k) → wpx ex m Q s → wpc bad m Q s.
Proof. unfold wpx, wpc. intros Hex. destruct (m s); auto. Qed.

Section calls.
Context {D : Type} `{DO : !DigestOps D, DL : !DigestLaws D, EV : !Env, OW : !Ownership}.
Context (nf : Prop) (c : config) (Hnf : nf ∨ live_env (D := D) c).
Local Abbreviation calm_lib := (calm (D := D) (digest_name c)).
Implicit Types (w : world D) (l : list Z) (msg : list byte).

Lemma standing_calm msg w : standing c msg w → calm_lib → api c False msg w.
Proof using Type. intros [_ [Hf|Ha]] Hc; [|done]. by destruct (failed_not_calm _ _ _ Hf). Qed.

Lemma standing_error msg w : standing c msg w → calm_lib → h_error (sh w) = 0.
Proof using Type.
  intros Hs Hc. destruct (standing_safe _ _ _ Hs) as (ids & Q & Hk). destruct (k_shared _ _ _ _ _ Hk) as [q HI].
  pose proof (si_calm _ _ _ _ _ _ HI) as Hcm. rewrite (k_cfg _ _ _ _ _ Hk) in Hcm. by apply Hcm.
Qed.

(** An async update of [len] bytes: accepted, or refused for a reason. *)
Lemma standing_update msg w p len ud b l :
  standing c msg w → account l False w → may_use ud p → data_at (mem (sh w)) p len = Some b →
  0 <= len < 2 ^ 64 → zlen msg + len < 2 ^ 64 →
  wp nf (blkhash_aio_update p len ud) (λ rc w', keeps_api w w' ∧
    (rc = 0 → standing c (msg ++ b) w' ∧ account (ud :: l) False w') ∧
    (rc ≠ 0 → calm_lib → zlen l = queue_depth c)) w.
Proof using DL Hnf.
  intros Hs Hac Hu Hd Hlen Hmax.
  assert (call_bytes (mem (sh w)) (CAioUpdate p len ud) = Some b) as Hb.
  { simpl. unfold is_size. rewrite (proj2 (Z.leb_le _ _)), (proj2 (Z.ltb_lt _ _)) by lia. done. }
  pose proof (data_at_len _ _ _ _ Hd (proj1 Hlen)) as Hbl.
  pose proof (standing_call nf c msg w (CAioUpdate p len ud) b Hnf Hs Hb ltac:(lia)) as Hcall. simpl in Hcall.
  assert (wp nf (blkhash_aio_update p len ud) (λ rc w', rc ≠ 0 → calm_lib → inflight (hs w) = queue_depth c) w) as Hr.
  { destruct (Hs) as [_ [Hf|Ha]].
    - eapply wp_mono; [exact Hcall|]. intros ? ? _ _ Hc. by destruct (failed_not_calm _ _ _ Hf).
    - eapply wp_mono; [by apply (blkhash_aio_update_inv nf c Hnf False msg w p len ud b); auto|].
      intros rc w' (_ & [[_ Hf]|[(_ & _ & _ & Hi)|(-> & _)]]) Hne Hc; [|done..].
      by destruct (failed_not_calm _ _ _ Hf). }
  eapply wp_mono; [apply wp_and; [exact Hr|apply wp_pc; [exact Hcall|by apply (aio_update_account p len ud l False w)]]|].
  intros rc w' [Hne [[Hs' Hk] [Hac' _]]]. split_and!; [done| |].
  - intros ->. simpl in Hs', Hac'. simpl in Hb. rewrite app_nil_r, Hb in Hs'. done.
  - intros Hrc Hc. rewrite <-(ac_inflight _ _ _ Hac); [by apply Hne|by eapply standing_error].
Qed.

(** Zeroes: added, or refused for a reason. *)
Lemma standing_zero msg w len l :
  standing c msg w → account l False w → 0 <= len < 2 ^ 64 → zlen msg + len < 2 ^ 64 →
  wp nf (blkhash_zero len) (λ rc w', keeps_api w w' ∧
    (rc = 0 → standing c (msg ++ zeros len) w' ∧ account l False w' ∧
      (api c False msg w → api c False (msg ++ zeros len) w')) ∧ (rc ≠ 0 → calm_lib → False)) w.
Proof using DL Hnf.
  intros Hs Hac Hlen Hmax.
  assert (call_bytes (mem (sh w)) (CZero len) = Some (zeros len)) as Hb.
  { simpl. unfold is_size. rewrite (proj2 (Z.leb_le _ _)), (proj2 (Z.ltb_lt _ _)) by lia. done. }
  pose proof (standing_call nf c msg w (CZero len) _ Hnf Hs Hb ltac:(rewrite zlen_zeros; lia)) as Hcall.
  pose proof (wkeep_account _ l False w (λ CL, wstat_wkeep _ (wstat_blkhash_zero len)) Hac) as Hkeep.
  pose proof (λ Ha, blkhash_zero_inv nf c Hnf False msg w len Ha Hlen (or_intror Hmax)) as Hz.
  simpl in Hcall, Hb. unfold wp, pc in *. destruct (blkhash_zero len w) as [rc w'|k]; [|done].
  destruct Hcall as [Hs' Hk], Hkeep as [Hac' _]. split_and!; [done| |].
  - intros ->. simpl in Hs'. rewrite app_nil_r, Hb in Hs'. split_and!; [done|done|]. intros Ha. by apply (Hz Ha).
  - intros Hne Hc. destruct Hs as [_ [Hf|Ha]]; [by destruct (failed_not_calm _ _ _ Hf)|].
    destruct (Hz Ha) as (_ & _ & Hf). by destruct (failed_not_calm _ _ _ (Hf Hne)).
Qed.

Lemma standing_completions msg w count :
  standing c msg w → 0 <= count →
  wp nf (blkhash_aio_completions count) (λ r w', standing c msg w' ∧ keeps_api w w' ∧
    (calm_lib → r.1 = zlen r.2 ∧ Forall (λ x, bc_error x = 0) r.2)) w.
Proof using DL Hnf.
  intros [Hfin [Hf|Ha]] Hc.
  - eapply wp_mono; [by apply (blkhash_aio_completions_inv nf c Hnf True [] w count (failed_api _ _ _ _ Hf))|].
    intros r w' (Hka & Hor & _). split_and!; [|done|intros Hcalm; by destruct (failed_not_calm _ _ _ Hf)].
    split; [by rewrite (ka_finalized _ _ Hka)|left]. eapply failed_keeps; [done..|].
    destruct Hor as [[? _]|(Ha & _)]; [done|by eapply api_safe].
  - eapply wp_mono; [by apply (blkhash_aio_completions_inv nf c Hnf False msg w count Ha)|].
    intros r w' (Hka & Hor & Hcl). split_and!; [|done|].
    + split; [by rewrite (ka_finalized _ _ Hka)|]. destruct Hor as [?|(? & _)]; auto.
    + intros Hcalm. destruct Hor as [Hf|(_ & Hn & _)]; [by destruct (failed_not_calm _ _ _ Hf)|auto].
Qed.

(** Asking for all completions does not change the message. *)
Lemma completions_api msg w count :
  api c False msg w → 0 <= queue_depth c <= count →
  wp nf (blkhash_aio_completions count) (λ _ w', api c False msg w') w.
Proof using Hnf.
  intros Ha Hcount. unfold blkhash_aio_completions. wp_go. eapply (wp_yield_in nf c Hnf); [done|].
  intros s Ha1 Hks. wp_go. apply wp_get_error. simpl. destruct (fails (h_error s)); [by wp_go|].
  wp_go. apply wp_shared_bind. eapply (wp_yield_in nf c Hnf); [done|]. intros s2 Ha2 Hks2. simpl in *.
  eapply (wp_shared_api nf c (cq_take count) (λ r, inflight (hs w) - zlen r.1) (λ _, None)
    (λ r _, zlen r.1 <= inflight (hs w) ∧ r.2 = false)); [done| |].
  { intros ids Q q Hk HI. eapply wp_mono; [apply wp_pc; [eapply (cq_take_inv nf count); [done|lia]|apply (cq_take_all count)]|].
    - destruct (si_cq _ _ _ _ _ _ HI) as [Hn Hb Hi Hal Ho]. rewrite (k_cfg _ _ _ _ _ Hk) in *. lia.
    - intros r s3 [(? & ? & ? & ? & _) [? _]]. split_and!; try done. by exists q. }
  intros [out more] s3 Ha3 Hks3 [Hn Hmore]. simpl in *. subst more. wp_go.
  eapply wp_mono with (P := λ _ w', w' = World s3 (with_inflight (inflight (hs w) - zlen out) (hs w))).
  { destruct (0 <? zlen out) eqn:En.
    - do 3 wp_go. apply wp_assertM; [simpl; lia|]. unfold on_hash. by wp_go.
    - wp_go. replace (inflight (hs w) - zlen out) with (inflight (hs w)) by (pose proof (zlen_nonneg out); lia).
      by rewrite with_inflight_same. }
  intros _ ? ->. by wp_go.
Qed.

(** A hash with an error hands out no completions. *)
Lemma completions_refused msg w count :
  standing c msg w → h_error (sh w) ≠ 0 → pc (blkhash_aio_completions count) (λ r _, r.2 = []) w.
Proof using Type.
  intros Hs He. destruct (standing_safe _ _ _ Hs) as (ids & Q & Hk). destruct (k_shared _ _ _ _ _ Hk) as [q HI].
  pose proof (yield_inv True [] _ None _ c (or_introl I) q _ HI (k_cfg _ _ _ _ _ Hk)) as Hy.
  unfold blkhash_aio_completions. do 2 pc_step. unfold wp in Hy. unfold pc at 1.
  destruct (yield (sh w)) as [u s1|]; [|done]. destruct Hy as (q1 & _ & Hf & _). cbv beta.
  unfold get_error. do 2 pc_step. simpl. rewrite (fr_error _ _ Hf He). unfold fails.
  rewrite (proj2 (Z.eqb_neq _ _) He). simpl. by pc_step.
Qed.

(** When there was something to hand out, the hash stands for the message. *)
Lemma completions_clean msg w count :
  standing c msg w → 0 <= queue_depth c <= count →
  wp nf (blkhash_aio_completions count) (λ r w', api c False msg w ∨ r.2 ≠ [] → api c False msg w') w.
Proof using DL Hnf.
  intros Hs Hcount. pose proof (standing_completions msg w count Hs ltac:(lia)) as H0.
  pose proof (λ Ha, completions_api msg w count Ha Hcount) as H1.
  pose proof (completions_refused msg w count Hs) as H2. unfold wp, pc in *.
  destruct (blkhash_aio_completions count w) as [r w'|k]; [|done]. intros [Ha|Hne]; [by apply H1|].
  destruct Hs as [_ [[_ He]|Ha]]; [by destruct Hne, H2|by apply H1].
Qed.

(** Asking for completions: what was taken. *)
Lemma taken_completions msg w count l ob :
  standing c msg w → account l ob w → 0 < count →
  wp nf (blkhash_aio_completions count) (λ r w', keeps_api w w' ∧ standing c msg w' ∧
    ∃ l', account l' False w' ∧ l ≡ₚ (user_data <$> r.2) ++ l' ∧
      (calm_lib → r.1 = zlen r.2 ∧ Forall (λ x, bc_error x = 0) r.2)) w.
Proof using DL Hnf.
  intros Hs Hac Hcount.
  eapply wp_mono; [apply wp_pc; [apply (standing_completions msg w count Hs)|apply (aio_completions_account count l ob w Hac)]; lia|].
  intros r w' [(Hs' & Hka & Hcl) (l' & Hac' & _ & Hl & _)]. split_and!; [done..|]. exists l'. split_and!; [|done|done].
  eapply account_ob; [done|]. intros [_ ?]. lia.
Qed.

(** ** Draining *)

(** Asking for all completions: what is on its way gets closer, and nothing is left
    when there was little to wait for. *)
Lemma completions_drain K F msg w count :
  standing c msg w → calm_lib → fair (Z.to_nat (workers c)) K → drains K F (sh w) → queue_depth c <= count →
  pc (blkhash_aio_completions count) (λ _ w', drains K (F - 1) (sh w') ∧
    ((F ≤ 1)%nat → comps (sh w') = ∅ ∧ cq_count (cq (sh w')) = 0)) w.
Proof using Type.
  intros Hs Hcalm Hfair Hd Hcount. destruct (standing_safe _ _ _ Hs) as (ids & Q & Hk).
  pose proof (k_cfg _ _ _ _ _ Hk) as Hc. destruct (k_shared _ _ _ _ _ Hk) as [q HI].
  unfold blkhash_aio_completions. do 2 pc_step.
  eapply pc_mono; [by eapply (yield_drains c Hcalm K Hfair)|]. intros _ s1 (Hd1 & Hc1 & q1 & HI1). cbv beta.
  unfold get_error. do 2 pc_step. simpl.
  assert (h_error s1 = 0) as He1.
  { pose proof (si_calm _ _ _ _ _ _ HI1) as Hcm. rewrite Hc1 in Hcm. by apply Hcm. }
  rewrite He1. change (fails 0) with false. cbv iota. do 3 pc_step.
  eapply pc_mono; [by eapply (yield_drains c Hcalm K Hfair)|]. intros _ s2 (Hd2 & Hc2 & q2 & HI2). cbv beta.
  destruct (si_cq _ _ _ _ _ _ HI2) as [Hn Hb Hi Ha Ho]. rewrite Hc2 in *.
  eapply pc_mono; [apply cq_take_all; lia|]. intros [out more] s3 (Hm & Hz & Hcm & Hp & Ht & Htk & _). simpl in *. subst more.
  assert (drains K (F - 1) s3 ∧ ((F ≤ 1)%nat → comps s3 = ∅ ∧ cq_count (cq s3) = 0)) as [Hx Hy].
  { split.
    - eapply drains_same; [eapply drains_le; [exact Hd2|lia]|by rewrite Hp|done|done].
    - intros HF. split; [|done]. rewrite Hcm. eapply quiet_comps; [exact HI2|]. eapply (drains_quiet K); [exact HI2|].
      eapply drains_le; [exact Hd2|lia]. }
  cbv zeta. pc_step. eapply pc_mono with (P := λ _ w', sh w' = s3).
  - destruct (0 <? zlen out); [|by pc_step]. do 4 pc_step. unfold on_hash. by pc_step.
  - intros _ w' Hw. pc_step. by rewrite Hw.
Qed.

(** When nothing is on its way, the event is not signaled again. *)
Lemma completions_quiet K msg w count :
  standing c msg w → calm_lib → fair (Z.to_nat (workers c)) K → drains K 0 (sh w) → queue_depth c <= count →
  pc (blkhash_aio_completions count) (λ _ w', cq_event (cq (sh w')) = cq_event (cq (sh w))) w.
Proof using Type.
  intros Hs Hcalm Hfair Hd Hcount. destruct (standing_safe _ _ _ Hs) as (ids & Q & Hk).
  pose proof (k_cfg _ _ _ _ _ Hk) as Hc. destruct (k_shared _ _ _ _ _ Hk) as [q HI].
  assert (∀ q s, shared_inv q [] (tracked ids Q) None (inflight (hs w)) s → cfg s = c → drains K 0 s →
    pc yield (λ _ s', drains K 0 s' ∧ cfg s' = c ∧ (∃ q', shared_inv q' [] (tracked ids Q) None (inflight (hs w)) s') ∧
      cq s' = cq s) s) as Hyield.
  { intros q0 s0 HI0 Hc0 Hd0. pose proof (yield_drains c Hcalm K Hfair 0 q0 _ _ s0 HI0 Hc0 Hd0) as H1.
    pose proof (yield_quiet c K q0 _ _ s0 HI0 Hc0 Hd0) as H2. unfold pc in *. destruct (yield s0); [|done].
    destruct H1 as (? & ? & ?). by split_and!. }
  unfold blkhash_aio_completions. do 2 pc_step.
  eapply pc_mono; [by eapply Hyield|]. intros _ s1 (Hd1 & Hc1 & (q1 & HI1) & He1). cbv beta.
  unfold get_error. do 2 pc_step. simpl. destruct (fails (h_error s1)); [pc_step; simpl; by rewrite He1|]. do 3 pc_step.
  eapply pc_mono; [by eapply Hyield|]. intros _ s2 (Hd2 & Hc2 & (q2 & HI2) & He2). cbv beta.
  destruct (si_cq _ _ _ _ _ _ HI2) as [Hn Hb Hi Ha Ho]. rewrite Hc2 in *.
  assert (pc (cq_take count) (λ _ s', cq_event (cq s') = cq_event (cq s2)) s2) as Hev.
  { unfold cq_take. do 2 pc_step. cbv zeta. destruct (0 <? _); [do 2 pc_step|]; by pc_step. }
  pose proof (cq_take_all count s2 ltac:(lia)) as Hall. unfold pc at 1. unfold pc in Hev, Hall.
  destruct (cq_take count s2) as [[out more] s3|]; [|done]. destruct Hall as (Hm & _). simpl in Hm. subst more.
  cbv zeta. pc_step. eapply pc_mono with (P := λ _ w', sh w' = s3).
  - destruct (0 <? zlen out); [|by pc_step]. do 4 pc_step. unfold on_hash. by pc_step.
  - intros _ w' Hw. pc_step. rewrite Hw, Hev, He2. simpl. by rewrite He1.
Qed.

Lemma nothing_left l ob w :
  account l ob w → comps (sh w) = ∅ → cq_count (cq (sh w)) = 0 → l = [].
Proof using Type.
  intros [CL [[Ht _] _]] Hc Hz. pose proof (td_uds _ _ _ _ Ht) as Hu. unfold uds in Hu.
  rewrite Hc, Hz, map_to_list_empty in Hu. by apply Permutation_nil in Hu.
Qed.

(** ** Waiting *)

Lemma fault_account n l ob w :
  account l ob w → account l ob (World (with_n_fault n (sh w)) (hs w)).
Proof using Type. intros Hac. eapply account_aside; [done|]. intros CL k []. split; [by split|done]. Qed.

Lemma aside_poll fuel w s : poll_event fuel (sh w) = Ret tt s → aside w s.
Proof using Type.
  intros Hr c' ids Q Hk. destruct (k_shared _ _ _ _ _ Hk) as [q HI].
  destruct (pc_run _ _ _ _ _ (poll_frame c' fuel q _ _ _ HI (k_cfg _ _ _ _ _ Hk)) Hr) as [Hx [H1 H2 H3 _ _ _]].
  split; [done|by split].
Qed.

(** Other threads run. *)
Lemma standing_yield msg w l ob :
  standing c msg w → account l ob w →
  wp nf yield (λ _ s', aside w s' ∧ account l ob (World s' (hs w)) ∧ mem s' = mem (sh w)) (sh w).
Proof using Hnf.
  intros Hs Hac.
  assert (∀ c' ids Q (Hc : nf ∨ live_env (D := D) c'), core c' None ids Q w → wp nf yield (λ _ s',
    (∃ q, shared_inv q [] (tracked ids Q) None (inflight (hs w)) s') ∧ keeps_shared (sh w) s') (sh w)) as Hcore.
  { intros c' ids Q Hc' Hk. destruct (k_shared _ _ _ _ _ Hk) as [q HI].
    eapply wp_mono; [by apply (yield_inv nf [] _ None _ c' Hc' q _ HI (k_cfg _ _ _ _ _ Hk))|].
    intros _ s' (q' & HI' & [] & _). split; [by exists q'|by split]. }
  destruct (standing_safe _ _ _ Hs) as (ids0 & Q0 & Hk0). pose proof (Hcore _ _ _ Hnf Hk0) as Hw. unfold wp in *.
  destruct (yield (sh w)) as [[] s'|k] eqn:Hy; [|done]. destruct Hw as [_ Hks]. split_and!; [..|apply Hks].
  - intros c' ids Q Hk. pose proof (k_cfg _ _ _ _ _ Hk) as Hc1.
    pose proof (k_cfg _ _ _ _ _ Hk0) as Hc2. assert (c' = c) as -> by congruence. by eapply (Hcore c).
  - eapply account_aside; [done|]. intros CL n Ht.
    destruct (pc_run _ _ _ _ _ (keep_yield n l ob (sh w) Ht) Hy) as [? [? _]]. done.
Qed.

Lemma standing_poll msg w l :
  standing c msg w → account l False w → 0 < queue_depth c → nf ∨ l ≠ [] →
  wp nf (poll_event spins) (λ _ s', standing c msg (World s' (hs w)) ∧ account l False (World s' (hs w)) ∧
    mem s' = mem (sh w) ∧ ready s') (sh w).
Proof using Hnf.
  intros Hs [CL [[Ht Hr] Hi]] Hd Hl. destruct (standing_safe _ _ _ Hs) as (ids & Q & Hk).
  pose proof (k_cfg _ _ _ _ _ Hk) as Hc. destruct (k_shared _ _ _ _ _ Hk) as [q HI].
  pose proof (poll_event_ok nf (tracked ids Q) (inflight (hs w)) c Hnf q _ l (sh w) HI Hc Ht Hd Hl) as Hp.
  unfold wp in *. destruct (poll_event spins (sh w)) as [[] s'|k] eqn:E; [|done].
  destruct Hp as (_ & Hfr & Ht2 & He & Hrd). split_and!; [|exists CL; split; [by split|]|by destruct Hfr|done].
  - apply standing_aside; [by eapply aside_poll|done].
  - simpl. intros H0. apply Hi. destruct (decide (h_error (sh w) = 0)); [done|]. by destruct (He n).
Qed.

(** The descriptor is read: the event is cleared. *)
Lemma standing_read msg w l :
  standing c msg w → account l False w → ready (sh w) →
  wp nf read_event (λ err s', standing c msg (World s' (hs w)) ∧ account l True (World s' (hs w)) ∧
    mem s' = mem (sh w) ∧ pool s' = pool (sh w) ∧ threads s' = threads (sh w) ∧ n_tick s' = n_tick (sh w) ∧
    (err ≠ 0 → calm_lib → False)) (sh w).
Proof using Type.
  intros Hs Hac (v & Hv & Hpos). unfold read_event. do 3 wp_step. eapply wp_derefM; [exact Hv|].
  assert (account l True w) as Hac' by (by eapply account_ob).
  assert (fault (n_fault (sh w)) ≠ 0 → calm_lib → False) as Hf.
  { intros Hne Hc. by destruct Hne; apply (calm_fault _ _ Hc). }
  unfold next_fault. wp_steps; split_and!; try done; try lia.
  1,3: eapply standing_aside; [first [apply aside_event | apply aside_fault]|done].
  - by apply fault_account.
  - eapply account_aside; [done|]. intros CL k []. split; [|done]. split; simpl; try done.
    + intros v' [= <-]. destruct (td_event v Hv). lia.
    + auto.
Qed.

(** ** Using buffers again *)

(** A memory that differs only in buffers that no update in flight owns. *)
Definition reused l (m m' : gmap nat (list byte)) : Prop := ∀ u i, u ∈ l → own u i → m' !! i = m !! i.

Lemma account_undisturbed msg w l ob m :
  standing c msg w → account l ob w → reused l (mem (sh w)) m → undisturbed m (sh w).
Proof using Type.
  intros Hs [CL [[Ht _] _]] Hm id sub x i off Hsub Hx Hd.
  destruct (standing_safe _ _ _ Hs) as (ids & Q & Hk). destruct (k_shared _ _ _ _ _ Hk) as [q HI].
  destruct (ci_user _ _ _ _ _ _ (si_comps _ _ _ _ _ _ HI) id sub x Hsub Hx) as (_ & _ & [comp Hc]).
  pose proof (td_buf _ _ _ _ Ht id sub Hsub x i off Hx Hd) as Hcl.
  apply (Hm (c_user_data comp)); [|by eapply td_own].
  rewrite <-(td_uds _ _ _ _ Ht). unfold uds. apply elem_of_app. left. apply list_elem_of_fmap.
  exists comp. split; [done|]. apply list_elem_of_fmap. exists (x, comp). split; [done|]. by apply elem_of_map_to_list.
Qed.

Lemma standing_reuse msg w l ob m :
  standing c msg w → account l ob w → reused l (mem (sh w)) m →
  standing c msg (World (with_mem m (sh w)) (hs w)) ∧ account l ob (World (with_mem m (sh w)) (hs w)).
Proof using Type.
  intros Hs Hac Hm. split; [apply standing_mem; [done|by eapply account_undisturbed]|].
  eapply account_aside; [done|]. intros CL n []. by split.
Qed.
End calls.

(** ** The end of a session *)

Section final.
Context {D : Type} `{DO : !DigestOps D, DL : !DigestLaws D, EV : !Env, OW : !Ownership}.
Context (nf : Prop) (o : blkhash_opts) (Hnf : nf ∨ live_env (D := D) (config_for o)).
Local Abbreviation c := (config_for (D := D) o).
Local Abbreviation calm_lib := (calm (D := D) (o_digest_name o)).

(** The digest is the one of the message, and the account is kept. *)
Lemma standing_final msg w l ob :
  standing c msg w → account l ob w →
  wp nf blkhash_final (λ r w', (r.1 ≠ 0 → calm_lib → False) ∧ (calm_lib → h_error (sh w') = 0) ∧
    (r.1 = 0 → account l ob w' ∧ core c None [] [] w' ∧
      (h_error (sh w') = 0 → r.2 = digest_of (D := D) o msg))) w.
Proof using Hnf.
  intros [Hfin Hor] Hac.
  assert (∃ G, api c G msg w ∧ (G → h_error (sh w) ≠ 0)) as (G & Ha & HG).
  { destruct Hor as [Hf|Ha]; [|by exists False]. exists True. split; [by apply failed_api|]. intros _. apply Hf. }
  eapply wp_mono; [apply wp_pc; [by apply (blkhash_final_full nf c Hnf G msg w Ha)|
    apply (wkeep_account _ l ob w (λ CL, wkeep_blkhash_final) Hac)]|].
  intros r w' [((ids & Q & Hk) & Hks & _ & _ & H0 & Hne) [Hac' _]]. split_and!; [done| |].
  - intros Hcalm. destruct (decide (h_error (sh w') = 0)) as [?|He]; [done|]. by destruct (not_calm_error _ _ _ _ _ Hk He).
  - intros Hr. destruct (H0 Hr) as [Hd Hk']. split_and!; [done|done|]. intros He. destruct Hd as [HG'|Hd]; [|done].
    rewrite (ks_error _ _ Hks (HG HG')) in He. by destruct (HG HG').
Qed.
End final.
