(* ===== verification/Reuse.v ===== *)
(** * Buffers are free again when their update was reported

    [shares o w msg l]: a client of the async interface, which decides by user data
    which buffers an update may use, sees a hash in state [w] after passing the
    message [msg], and has not been told of the completion of the updates [l].  It
    changes any buffer that none of [l] owns, at any time: also while other updates
    are in flight. *)

From stdpp Require Import prelude list strings gmap.
From Stdlib Require Import ZArith Lia.
From S2P Require Import Prelude Ring State Digest Zero Event Completion Submission Config HashPool.
From S2P Require Import Blkhash PoolInv PoolStep Progress Spec PoolCaller PoolAio BlkhashInv BlkhashOps.
From S2P Require Import BlkhashUpdate Api ApiAio Init Session Reach Free Account Poll AccountApi Client.
From S2P Require Import Demo AsyncCalls.

Local Open Scope Z_scope.

Section shares.
Context {D : Type} `{DO : !DigestOps D, DL : !DigestLaws D, EV : !Env, OW : !Ownership}.
Implicit Types (w : world D) (msg : list byte) (l : list Z).

Inductive shares (o : blkhash_opts) : world D → list byte → list Z → Prop :=
| shares_new m w : blkhash_init o (fresh_world m) = Ret 0 w → shares o w [] []
| shares_sync w msg l x b rc w' :
    shares o w msg l → is_sync x = true → call_bytes (mem (sh w)) x = Some b → zlen msg + zlen b < 2 ^ 64 →
    run_call x w = Ret rc w' → shares o w' (msg ++ message (mem (sh w)) [(x, rc)]) l
| shares_update w msg l p len ud b rc w' :
    shares o w msg l → may_use ud p → call_bytes (mem (sh w)) (CAioUpdate p len ud) = Some b →
    zlen msg + zlen b < 2 ^ 64 → blkhash_aio_update p len ud w = Ret rc w' →
    shares o w' (msg ++ message (mem (sh w)) [(CAioUpdate p len ud, rc)]) (if rc =? 0 then ud :: l else l)
| shares_completions w msg l count rc out l' w' :
    shares o w msg l → is_size count = true → blkhash_aio_completions count w = Ret (rc, out) w' →
    l ≡ₚ (user_data <$> out) ++ l' → shares o w' msg l'
| shares_worker w msg l a s :
    shares o w msg l → worker_step a (sh w) = Ret tt s → shares o (World s (hs w)) msg l
| shares_event w msg l rc s :
    shares o w msg l → event_wait (sh w) = Ret rc s → shares o (World s (hs w)) msg l
| shares_buffers w msg l m :
    shares o w msg l → reused l (mem (sh w)) m → shares o (World (with_mem m (sh w)) (hs w)) msg l.

(** An update that is accepted. *)
Lemma shares_accepted o w msg l p len ud b w' :
  shares o w msg l → may_use ud p → call_bytes (mem (sh w)) (CAioUpdate p len ud) = Some b →
  zlen msg + zlen b < 2 ^ 64 → blkhash_aio_update p len ud w = Ret 0 w' → shares o w' (msg ++ b) (ud :: l).
Proof using Type.
  intros Hsh Hu Hb Hm Hr. pose proof (shares_update o w msg l p len ud b 0 w' Hsh Hu Hb Hm Hr) as Hx.
  simpl in Hx, Hb. by rewrite app_nil_r, Hb in Hx.
Qed.

(** A call of a client whose hash stands for a message. *)
Lemma standing_run o msg w x b rc w' :
  standing (config_for o) msg w → call_bytes (mem (sh w)) x = Some b → zlen msg + zlen b < 2 ^ 64 →
  run_call x w = Ret rc w' → standing (config_for o) (msg ++ message (mem (sh w)) [(x, rc)]) w'.
Proof using DL.
  intros Hs Hb Hm Hr. pose proof (standing_call True _ msg w x b (any_nf _) Hs Hb Hm) as Hc.
  unfold wp in Hc. rewrite Hr in Hc. by destruct Hc.
Qed.

Lemma shares_inv o w msg l :
  valid_opts o → shares o w msg l → standing (config_for o) msg w ∧ ∃ ob, account l ob w.
Proof using DL.
  intros Hv. induction 1 as [m w Hi|w msg l x b rc w' _ [Hs [ob Hac]] Hx Hb Hm Hr
    |w msg l p len ud b rc w' _ [Hs [ob Hac]] Hu Hb Hm Hr|w msg l count rc out l' w' _ [Hs [ob Hac]] Hc Hr Hl
    |w msg l a s _ [Hs [ob Hac]] Hr|w msg l rc s _ [Hs [ob Hac]] Hr|w msg l m _ [Hs [ob Hac]] Hm].
  - split; [|exists False; by eapply init_account]. destruct (init_ready o m Hv w Hi) as (Ha & _ & Hf).
    split; [done|by right].
  - split; [by eapply standing_run|]. exists ob. destruct x as [p len|len|?|?]; try done; simpl in Hr;
      [apply (pc_run _ _ _ _ _ (wkeep_account _ l ob w (λ CL, wstat_wkeep _ (wstat_blkhash_update p len)) Hac) Hr)
      |apply (pc_run _ _ _ _ _ (wkeep_account _ l ob w (λ CL, wstat_wkeep _ (wstat_blkhash_zero len)) Hac) Hr)].
  - split; [by eapply standing_run|]. exists ob.
    apply (pc_run _ _ _ _ _ (aio_update_account p len ud l ob w Hac Hu) Hr).
  - pose proof (is_size_true _ Hc). split.
    + pose proof (standing_completions True _ (any_nf _) msg w count Hs ltac:(lia)) as Hx. unfold wp in Hx.
      rewrite Hr in Hx. apply Hx.
    + destruct (pc_run _ _ _ _ _ (aio_completions_account count l ob w Hac ltac:(lia)) Hr) as (l2 & H2 & _ & Hl2 & _).
      eexists. eapply account_perm; [exact H2|]. simpl in Hl2. rewrite Hl in Hl2. by apply Permutation_app_inv_l in Hl2.
  - split; [apply standing_aside; [|done]; intros c ids Q Hk; by apply (work_inv c ids Q w a s)|]. exists ob. eapply account_aside; [done|].
    intros CL n Ht. by destruct (pc_run _ _ _ _ _ (keep_worker_step a _ l _ _ Ht) Hr) as [H' [He _]].
  - split; [apply standing_aside; [by eapply aside_event_wait|done]|]. exists True. eapply account_aside; [done|].
    intros CL n Ht. destruct (pc_run _ _ _ _ _ (event_wait_tidy _ l _ _ Ht) Hr) as [H' He]. by rewrite He.
  - destruct (standing_reuse _ _ _ _ _ _ Hs Hac Hm) as [? ?]. eauto.
Qed.

(** C17: buffers can be used again.  A client of the async interface that changes a
    buffer only when all updates that own it were reported, while other updates are
    still in flight and workers run at any time, can ask for the digest: [blkhash_final]
    never touches invalid memory, and if it returns 0 and the hash has no error then, it
    computed the block hash of what the buffers held when the updates were accepted. *)
Theorem buffers_reusable o w msg l :
  valid_opts o → shares o w msg l →
  match blkhash_final w with
  | Ret (rc, md) w' => rc = 0 → h_error (sh w') = 0 → md = digest_of (D := D) o msg
  | Crash k => k = CNoFuel
  end.
Proof using DL.
  intros Hv Hsh. destruct (shares_inv _ _ _ _ Hv Hsh) as [Hs [ob Hac]].
  pose proof (standing_final True o (any_nf _) msg w l ob Hs Hac) as Hf. unfold wp in Hf.
  destruct (blkhash_final w) as [[rc md] w'|k]; [|by destruct k]. destruct Hf as (_ & _ & H0).
  intros Hrc. by apply H0.
Qed.
End shares.

(** ** A witness *)

Module ReuseDemo.
Import Demo.

(** Update [i] owns buffer [i]. *)
#[export] Instance by_index : Ownership := λ ud i, ud = Z.of_nat i.

Definition first : list byte := byte_of_Z ∘ Z.of_nat <$> seq 1 16.
Definition second : list byte := byte_of_Z ∘ Z.of_nat <$> seq 101 40.
Definition start : world := state_of (blkhash_init (EV := env) aio_opts) (fresh_world {[0%nat := first; 1%nat := second]}).

(** Two updates are accepted, the first one is reported, and its buffer gets new
    data, which is passed with another update. *)
Definition one : world := state_of (blkhash_aio_update (EV := env) (DUser 0 0) 16 0) start.
Definition reported : list blkhash_completion * world :=
  match blkhash_aio_completions (EV := env) 1 one with Ret (_, out) w => (out, w) | Crash _ => ([], one) end.
Definition two : world := state_of (blkhash_aio_update (EV := env) (DUser 1 0) 40 1) reported.2.
Definition refilled : world := World (with_mem {[0%nat := rev first; 1%nat := second]} (sh two)) (hs two).
Definition three : world := state_of (blkhash_aio_update (EV := env) (DUser 0 0) 16 0) refilled.

Lemma one_shares : shares (EV := env) aio_opts one first [0].
Proof.
  apply (shares_accepted (EV := env) aio_opts start [] [] (DUser 0 0) 16 0 first);
    [by eapply shares_new; vm_compute| |vm_compute; reflexivity..].
  by intros i off [= <- _].
Qed.

Lemma two_shares : shares (EV := env) aio_opts two (first ++ second) [1].
Proof.
  apply (shares_accepted (EV := env) aio_opts reported.2 first [] (DUser 1 0) 40 1 second);
    [| |vm_compute; reflexivity..].
  - apply (shares_completions (EV := env) aio_opts one first [0] 1 1 [BlkCompletion 0 0]);
      [apply one_shares|vm_compute; reflexivity..].
  - by intros i off [= <- _].
Qed.

Lemma three_shares : shares (EV := env) aio_opts three ((first ++ second) ++ rev first) [0; 1].
Proof.
  apply (shares_accepted (EV := env) aio_opts refilled (first ++ second) [1] (DUser 0 0) 16 0 (rev first));
    [| |vm_compute; reflexivity..].
  - apply shares_buffers; [apply two_shares|]. intros u i ->%list_elem_of_singleton Hi.
    assert (i = 1%nat) as -> by (unfold own, by_index in Hi; lia). vm_compute. reflexivity.
  - by intros i off [= <- _].
Qed.
End ReuseDemo.

Lemma buffers_reusable_witness :
  is_Some (comps (sh ReuseDemo.refilled) !! 1%nat) ∧
  match blkhash_final (EV := Demo.env) ReuseDemo.three with
  | Ret (rc, md) w' => rc = 0 → h_error (sh w') = 0 →
      md = digest_of (D := Toy.digest) Demo.aio_opts ((ReuseDemo.first ++ ReuseDemo.second) ++ rev ReuseDemo.first)
  | Crash k => k = CNoFuel
  end.
Proof.
  split; [vm_compute; eauto|].
  pose proof (buffers_reusable (EV := Demo.env) (OW := ReuseDemo.by_index) Demo.aio_opts ReuseDemo.three
    ((ReuseDemo.first ++ ReuseDemo.second) ++ rev ReuseDemo.first) [0; 1] Demo.aio_opts_valid ReuseDemo.three_shares) as H.
  exact H.
Defined.
