(* ===== verification/Leaves.v ===== *)
(** * The leaf components

    Properties of the parts of the library that the hash is built from: zero
    detection, the submission queue as a bounded FIFO, the life of a completion,
    the event counter, options and configuration, and the encoding of the message
    length. *)

From stdpp Require Import prelude list strings gmap.
From Stdlib Require Import ZArith Lia.
From S2P Require Import Prelude Ring State Digest Zero Event Completion Submission Config HashPool.
From S2P Require Import Blkhash PoolInv Spec Init Session Demo.

Local Open Scope Z_scope.

(** ** The submission queue is a bounded FIFO *)

Module Fifo.

(** The operations of submission.h on a queue. *)
Inductive op := Push (id : nat) | Pop | First | Full.

Inductive result :=
| RStatus (rc : Z)
| RPop (rc : Z) (out : option nat)
| RFirst (out : option nat)
| RFull (b : bool).

Definition run_op (x : op) : M (ring nat) result :=
  q ← get;
  match x with
  | Push id => '(rc, q') ← submission_queue_push q id; modify (λ _, q');; mret (RStatus rc)
  | Pop => '(rc, out, q') ← submission_queue_pop q; modify (λ _, q');; mret (RPop rc out)
  | First => out ← submission_queue_first q; mret (RFirst out)
  | Full => mret (RFull (submission_queue_full q))
  end.

Fixpoint run_ops (l : list op) : M (ring nat) (list result) :=
  match l with
  | [] => mret []
  | x :: l' => r ← run_op x; rs ← run_ops l'; mret (r :: rs)
  end.

(** A queue of at most [size] elements as a list. *)
Definition fifo_op (size : Z) (x : op) (q : list nat) : result * list nat :=
  match x with
  | Push id => if zlen q =? size then (RStatus ENOBUFS, q) else (RStatus 0, q ++ [id])
  | Pop => match q with [] => (RPop ENOENT None, []) | id :: q' => (RPop 0 (Some id), q') end
  | First => (RFirst (head q), q)
  | Full => (RFull (zlen q =? size), q)
  end.

Fixpoint fifo_ops (size : Z) (l : list op) (q : list nat) : list result :=
  match l with
  | [] => []
  | x :: l' => let '(r, q') := fifo_op size x q in r :: fifo_ops size l' q'
  end.

(** One operation of the ring simulates one of the list. *)
Lemma run_op_repr (r : ring nat) q x :
  ring_repr r q → ∃ r', run_op x r = Ret (fifo_op (r_size r) x q).1 r' ∧
    ring_repr r' (fifo_op (r_size r) x q).2 ∧ r_size r' = r_size r.
Proof.
  intros Hr. pose proof (rr_len _ _ Hr) as Hl. pose proof (rr_size _ _ Hr) as Hs.
  pose proof (rr_fits _ _ Hr) as Hf.
  unfold run_op, mbind, M_bind, get, submission_queue_push, submission_queue_pop,
    submission_queue_first, submission_queue_full.
  destruct x as [id| | |]; simpl; rewrite Hl.
  - destruct (zlen q =? r_size r) eqn:E; simpl; [by exists r|].
    destruct (r_size r =? 0) eqn:?; [lia|]. exists (ring_put r id). split_and!; [done| |done].
    apply ring_put_repr; [done|lia].
  - destruct q as [|id q]; simpl; [by exists r|].
    destruct (zlen (id :: q) =? 0) eqn:E; [rewrite zlen_cons in E; pose proof (zlen_nonneg q); lia|].
    destruct (r_size r =? 0) eqn:?; [lia|]. rewrite (ring_peek_repr _ _ _ Hr).
    exists (ring_drop r). split_and!; [done|by eapply ring_drop_repr|done].
  - destruct q as [|id q]; simpl; [by exists r|].
    destruct (0 <? zlen (id :: q)) eqn:E; [|rewrite zlen_cons in E; pose proof (zlen_nonneg q); lia].
    rewrite (ring_peek_repr _ _ _ Hr). by exists r.
  - by exists r.
Qed.

Lemma run_ops_repr l (r : ring nat) q :
  ring_repr r q → ∃ r', run_ops l r = Ret (fifo_ops (r_size r) l q) r'.
Proof.
  revert r q. induction l as [|x l IH]; intros r q Hr; simpl; [by eexists|].
  destruct (run_op_repr r q x Hr) as (r1 & Hx & Hr1 & Hs). unfold mbind, M_bind. rewrite Hx.
  destruct (fifo_op _ _ _) as [y q1]. simpl in *. destruct (IH _ _ Hr1) as (r2 & ->).
  exists r2. by rewrite Hs.
Qed.
End Fifo.

(** C30: the submission queue refines a bounded FIFO.  Any sequence of pushes,
    pops, peeks and fullness tests on a queue made by [submission_queue_init] gives
    the results of the same sequence on a list of bounded length, with ENOBUFS on a
    full and ENOENT on an empty queue, however often the counters wrap around. *)
Theorem submission_queue_refines (size : Z) (l : list Fifo.op) :
  0 < size < 2 ^ 32 →
  ∃ q', Fifo.run_ops l (submission_queue_init size) = Ret (Fifo.fifo_ops size l []) q'.
Proof.
  intros Hs. apply (Fifo.run_ops_repr l (ring_new size) []). by apply ring_new_repr.
Qed.

Lemma submission_queue_refines_witness :
  ∃ q', Fifo.run_ops [Fifo.Push 1; Fifo.Push 2; Fifo.Push 3; Fifo.Pop; Fifo.Push 4; Fifo.Pop;
    Fifo.Full; Fifo.First; Fifo.Pop; Fifo.Pop] (submission_queue_init 2) =
  Ret [Fifo.RStatus 0; Fifo.RStatus 0; Fifo.RStatus ENOBUFS; Fifo.RPop 0 (Some 1%nat);
    Fifo.RStatus 0; Fifo.RPop 0 (Some 2%nat); Fifo.RFull false; Fifo.RFirst (Some 4%nat);
    Fifo.RPop 0 (Some 4%nat); Fifo.RPop ENOENT None] q'.
Proof. apply (submission_queue_refines 2); lia. Defined.

(** ** Zero detection *)

(** C31: [is_zero] is exact.  For a readable buffer of at least 16 bytes the test
    of two words and an overlapping [memcmp] is equivalent to "all bytes are
    zero"; for less than 16 bytes it aborts. *)
Theorem is_zero_exact {St} (buf : list byte) (len : Z) (s : St) :
  len <= zlen buf →
  is_zero buf len s =
    if len <? 16 then Crash CAssert else Ret (bool_decide (ztake len buf = zeros len)) s.
Proof.
  intros Hl. destruct (len <? 16) eqn:E.
  - unfold is_zero, mbind, M_bind, assertM. destruct (16 <=? len) eqn:?; [lia|done].
  - destruct (wp_total _ _ _ (is_zero_spec False buf len (λ b s', b = _ ∧ s' = s) s ltac:(lia)
      (conj eq_refl eq_refl))) as (b & s' & -> & -> & ->). done.
Qed.

Lemma is_zero_exact_witness :
  is_zero (zeros 40) 40 tt = Ret true tt ∧ is_zero (zeros 39 ++ [Byte.x01]) 40 tt = Ret false tt.
Proof.
  split; [rewrite (is_zero_exact (zeros 40) 40 tt)|rewrite (is_zero_exact (zeros 39 ++ [Byte.x01]) 40 tt)];
    first [vm_compute; reflexivity | vm_compute; congruence].
Defined.

(** ** The message length *)

Lemma load_le_cons b l : load_le (b :: l) = byte_val b + 256 * load_le l.
Proof.
  pose proof (byte_val_range b). pose proof (load_le_nonneg l). simpl.
  rewrite Z.lor_comm, lor_shiftl by lia. lia.
Qed.

Lemma byte_val_of_Z z : byte_val (byte_of_Z z) = z mod 256.
Proof.
  unfold byte_val, byte_of_Z. pose proof (Z.mod_pos_bound z 256 ltac:(lia)) as Hb.
  destruct (Byte.of_N (Z.to_N (z mod 256))) as [b|] eqn:E; simpl.
  - apply Byte.to_of_N in E. rewrite E. lia.
  - apply Byte.of_N_None_iff in E. lia.
Qed.

Lemma load_le_bytes n v :
  load_le ((λ i, byte_of_Z (Z.shiftr v (8 * Z.of_nat i))) <$> seq 0 n) = v mod 256 ^ Z.of_nat n.
Proof.
  revert v. induction n as [|n IH]; intros v; [simpl; by rewrite Z.mod_1_r|].
  simpl seq. rewrite <-fmap_S_seq, fmap_cons, <-list_fmap_compose, load_le_cons.
  rewrite byte_val_of_Z, Z.shiftr_0_r.
  rewrite (list_fmap_ext _ (λ i, byte_of_Z (Z.shiftr (v / 256) (8 * Z.of_nat i)))).
  - rewrite IH, Nat2Z.inj_succ, Z.pow_succ_r, Z.rem_mul_r by lia. done.
  - intros i x _. simpl. change 256 with (2 ^ 8). rewrite <-Z.shiftr_div_pow2 by lia.
    rewrite Z.shiftr_shiftr by lia. do 2 f_equal. lia.
Qed.

(** The length that ends the message is read back.  The 8 bytes that
    [hash_message_length] feeds to the outer digest are the little endian encoding
    of the message length: loading them as [is_zero] loads a word gives the length
    back, and two messages of different lengths end with different bytes. *)
Theorem message_length_roundtrip (v : Z) :
  0 <= v < 2 ^ 64 → load_le (le64 v) = v ∧ zlen (le64 v) = 8.
Proof.
  intros Hv. split; [|done]. unfold le64. rewrite load_le_bytes. apply Z.mod_small.
  change (256 ^ Z.of_nat 8) with (2 ^ 64). done.
Qed.

Lemma message_length_roundtrip_witness : load_le (le64 123456789) = 123456789 ∧ zlen (le64 123456789) = 8.
Proof. apply (message_length_roundtrip 123456789). lia. Defined.

(** ** The life of a completion *)

Module CompletionLife.
Section life.
Context {D : Type}.

(** The operations of completion.h on one completion. *)
Inductive op := Ref | Unref | SetError (e : Z).

(** The callback records its arguments. *)
Definition run_op (id : nat) (x : op) : M (shared D) (option (Z * Z)) :=
  match x with
  | Ref => completion_ref id;; mret None
  | Unref => completion_unref (λ ud e, mret (ud, e)) id
  | SetError e => completion_set_error id e;; mret None
  end.

Fixpoint run_ops (id : nat) (l : list op) : M (shared D) (list (option (Z * Z))) :=
  match l with
  | [] => mret []
  | x :: l' => r ← run_op id x; rs ← run_ops id l'; mret (r :: rs)
  end.

(** What a completion promises: a counter of references that runs the callback
    when it drops to zero, with the first error that was set. *)
Definition life_op (x : op) (c : completion) : option (Z * Z) * option completion :=
  match x with
  | Ref => (None, Some (with_c_refs (c_refs c + 1) c))
  | Unref =>
      if c_refs c =? 1 then (Some (c_user_data c, c_error c), None)
      else (None, Some (with_c_refs (c_refs c - 1) c))
  | SetError e => (None, Some (if c_error c =? 0 then with_c_error e c else c))
  end.

(** [None]: an operation on a completion that was freed. *)
Fixpoint life_ops (l : list op) (o : option completion) : option (list (option (Z * Z)) * option completion) :=
  match l with
  | [] => Some ([], o)
  | x :: l' =>
      c ← o;
      let '(r, o') := life_op x c in
      '(rs, o'') ← life_ops l' o';
      Some (r :: rs, o'')
  end.

Definition put (id : nat) (o : option completion) (s : shared D) : shared D :=
  with_comps (match o with Some c => <[id := c]> (comps s) | None => delete id (comps s) end) s.

Lemma run_op_life id x c s :
  comps s !! id = Some c → 0 < c_refs c < 2 ^ 32 - 1 →
  run_op id x s = Ret (life_op x c).1 (put id (life_op x c).2 s).
Proof using Type.
  intros Hc Hr. unfold put.
  destruct x; unfold run_op, completion_ref, completion_unref, completion_set_error, comp_update,
    comp_load, mbind, M_bind, get, derefM, modify; rewrite Hc; simpl.
  - unfold u32. by rewrite Z.mod_small by lia.
  - rewrite lookup_insert_eq. simpl. unfold u32. rewrite Z.mod_small by lia.
    destruct (c_refs c =? 1) eqn:E1, (c_refs c - 1 =? 0) eqn:E2; try lia; [|done].
    unfold mret, M_ret. simpl. unfold with_comps. simpl. by rewrite delete_insert_eq.
  - done.
Qed.

Lemma dead_op id x s : comps s !! id = None → run_op id x s = Crash CMemory.
Proof using Type.
  intros Hc. destruct x; unfold run_op, completion_ref, completion_unref, completion_set_error,
    comp_update, comp_load, mbind, M_bind, get, derefM; by rewrite Hc.
Qed.

Lemma run_ops_cons id x l s :
  run_ops id (x :: l) s =
    match run_op id x s with
    | Ret r s1 =>
        match run_ops id l s1 with
        | Ret rs s2 => Ret (r :: rs) s2
        | Crash k => Crash k
        end
    | Crash k => Crash k
    end.
Proof using Type. done. Qed.

Lemma lookup_put id o s : comps (put id o s) !! id = o.
Proof using Type.
  unfold put. simpl. destruct o; [by rewrite lookup_insert_eq|by rewrite lookup_delete_eq].
Qed.

Lemma run_ops_life id l o s :
  comps s !! id = o → (∀ c, o = Some c → 0 < c_refs c ∧ c_refs c + zlen l < 2 ^ 32) →
  match life_ops l o with
  | Some (rs, o') => ∃ s', run_ops id l s = Ret rs s' ∧ comps s' !! id = o'
  | None => run_ops id l s = Crash CMemory
  end.
Proof using Type.
  revert o s. induction l as [|x l IH]; intros o s Hc Hr; [simpl; by eexists|].
  rewrite run_ops_cons. destruct o as [c|]; simpl; [|by rewrite dead_op].
  destruct (Hr c eq_refl) as [Hpos Hb]. rewrite zlen_cons in Hb. pose proof (zlen_nonneg l).
  rewrite (run_op_life id x c s Hc ltac:(lia)).
  destruct (life_op x c) as [r o'] eqn:E. simpl.
  specialize (IH o' (put id o' s) (lookup_put _ _ _)).
  assert (∀ c', o' = Some c' → 0 < c_refs c' ∧ c_refs c' + zlen l < 2 ^ 32) as Ho.
  { intros c' ->. destruct x; simpl in E; repeat case_match; simplify_eq; simpl; lia. }
  specialize (IH Ho). destruct (life_ops l o') as [[rs o'']|]; simpl; [|by rewrite IH].
  destruct IH as (s' & -> & ?). by eexists.
Qed.
End life.
End CompletionLife.

(** C32: a completion is released exactly once.  Any sequence of
    [completion_ref], [completion_unref] and [completion_set_error] on a completion
    behaves as a counter: the callback runs exactly at the [completion_unref] that
    drops the last reference, with the user data and the first error set, and the
    object is gone afterwards; any later use is an access to freed memory. *)
Theorem completion_lifecycle {D} (id : nat) (c : completion) (l : list CompletionLife.op)
    (s : shared D) :
  comps s !! id = Some c → 0 < c_refs c → c_refs c + zlen l < 2 ^ 32 →
  match CompletionLife.life_ops l (Some c) with
  | Some (rs, o) => ∃ s', CompletionLife.run_ops id l s = Ret rs s' ∧ comps s' !! id = o
  | None => CompletionLife.run_ops id l s = Crash CMemory
  end.
Proof.
  intros Hc Hp Hl. apply CompletionLife.run_ops_life; [done|]. by intros c' [= <-].
Qed.

Lemma completion_lifecycle_witness :
  let s := with_comps {[ 7%nat := Completion 42 0 1 ]} (sh (fresh_world (D := Toy.digest) ∅)) in
  ∃ s', CompletionLife.run_ops 7 [CompletionLife.Ref; CompletionLife.SetError 5;
    CompletionLife.Unref; CompletionLife.SetError 6; CompletionLife.Unref] s =
    Ret [None; None; None; None; Some (42, 5)] s' ∧ comps s' !! 7%nat = None.
Proof.
  apply (completion_lifecycle 7 (Completion 42 0 1) [CompletionLife.Ref; CompletionLife.SetError 5;
    CompletionLife.Unref; CompletionLife.SetError 6; CompletionLife.Unref]);
    [reflexivity|simpl; lia|vm_compute; reflexivity].
Defined.

(** ** Events *)

Section event_rules.
Context {D : Type} `{EV : !Env}.
Implicit Types s : shared D.

(** Every system call is interrupted a bounded number of times and succeeds. *)
Definition restartable : Prop :=
  ∀ n, ∃ j, (j ≤ spins)%nat ∧ fault (n + j)%nat = 0 ∧ ∀ i, (i < j)%nat → fault (n + i)%nat = EINTR.

(** The event in a state with counter [v], after some number of calls. *)
Definition event_at (v : Z) s s' : Prop :=
  ∃ n, s' = with_cq (with_cq_event (Some v) (cq s)) (with_n_fault n s).

Lemma event_at_open v s s' : event_at v s s' → cq_event (cq s') = Some v.
Proof using Type. by intros [n ->]. Qed.

Lemma event_at_trans v v' s s1 s2 : event_at v s s1 → event_at v' s1 s2 → event_at v' s s2.
Proof using Type. intros [n ->] [n' ->]. by exists n'. Qed.

(** A loop over an interrupted call makes the call that is not interrupted. *)
Lemma event_write_retry fuel j v s :
  cq_event (cq s) = Some v → (j ≤ fuel)%nat → fault (n_fault s + j)%nat = 0 →
  (∀ i, (i < j)%nat → fault (n_fault s + i)%nat = EINTR) →
  ∃ s', event_write fuel s = Ret 0 s' ∧ event_at (v + 1) s s'.
Proof using Type.
  revert fuel s. induction j as [|j IH]; intros fuel s Hv Hf H0 Hi.
  - rewrite Nat.add_0_r in H0. eexists. split; [|by eexists].
    destruct fuel; unfold event_write, mbind, M_bind, gets, derefM, next_fault, get, modify; simpl;
      by rewrite Hv; simpl; rewrite H0.
  - destruct fuel as [|fuel]; [lia|]. specialize (Hi 0%nat ltac:(lia)) as H1. rewrite Nat.add_0_r in H1.
    destruct (IH fuel (with_n_fault (S (n_fault s)) s)) as (s' & Hs' & n & ->); simpl; [done|lia|..].
    { by rewrite <-H0, <-Nat.add_succ_comm. }
    { intros i Hij. rewrite <-(Hi (S i)) by lia. by rewrite <-Nat.add_succ_comm. }
    eexists. split; [|by exists n]. simpl. unfold mbind at 1 2 3, M_bind, gets, derefM. rewrite Hv. simpl.
    unfold next_fault, mbind, M_bind, get, modify, mret, M_ret. rewrite H1. simpl. apply Hs'.
Qed.

Lemma event_read_retry fuel j v s :
  cq_event (cq s) = Some v → (j ≤ fuel)%nat → fault (n_fault s + j)%nat = 0 →
  (∀ i, (i < j)%nat → fault (n_fault s + i)%nat = EINTR) →
  ∃ s', event_read fuel s = Ret (if v =? 0 then EAGAIN else 0) s' ∧ event_at 0 s s'.
Proof using Type.
  revert fuel s. induction j as [|j IH]; intros fuel s Hv Hf H0 Hi.
  - rewrite Nat.add_0_r in H0.
    assert (∃ s', event_read fuel s = Ret (if v =? 0 then EAGAIN else 0) s' ∧
      s' = if v =? 0 then with_n_fault (S (n_fault s)) s
           else with_cq (with_cq_event (Some 0) (cq s)) (with_n_fault (S (n_fault s)) s)) as (s' & ? & ->).
    { eexists. split; [|done]. destruct fuel;
        unfold event_read, mbind, M_bind, gets, derefM, next_fault, get, modify; simpl;
        rewrite Hv; simpl; rewrite H0; simpl; by destruct (v =? 0). }
    eexists. split; [done|]. exists (S (n_fault s)). destruct (v =? 0) eqn:E; [|done].
    apply Z.eqb_eq in E as ->. unfold with_n_fault, with_cq, with_cq_event. simpl. rewrite <-Hv. by destruct (cq s).
  - destruct fuel as [|fuel]; [lia|]. specialize (Hi 0%nat ltac:(lia)) as H1. rewrite Nat.add_0_r in H1.
    destruct (IH fuel (with_n_fault (S (n_fault s)) s)) as (s' & Hs' & n & ->); simpl; [done|lia|..].
    { by rewrite <-H0, <-Nat.add_succ_comm. }
    { intros i Hij. rewrite <-(Hi (S i)) by lia. by rewrite <-Nat.add_succ_comm. }
    eexists. split; [|by exists n]. simpl. unfold mbind at 1 2 3, M_bind, gets, derefM. rewrite Hv. simpl.
    unfold next_fault, mbind, M_bind, get, modify, mret, M_ret. rewrite H1. simpl. apply Hs'.
Qed.

Lemma event_signal_at v s :
  restartable → cq_event (cq s) = Some v →
  ∃ s', event_signal s = Ret 0 s' ∧ event_at (v + 1) s s'.
Proof using Type.
  intros Hr Hv. destruct (Hr (n_fault s)) as (j & Hj & H0 & Hi).
  destruct (event_write_retry spins j v s Hv Hj H0 Hi) as (s' & Hw & Ha).
  exists s'. split; [|done]. unfold event_signal, mbind, M_bind. by rewrite Hw.
Qed.

Lemma event_wait_at v s :
  restartable → cq_event (cq s) = Some v →
  ∃ s', event_wait s = Ret (if v =? 0 then 0 else 1) s' ∧ event_at 0 s s'.
Proof using Type.
  intros Hr Hv. destruct (Hr (n_fault s)) as (j & Hj & H0 & Hi).
  destruct (event_read_retry spins j v s Hv Hj H0 Hi) as (s' & Hw & Ha).
  exists s'. split; [|done]. unfold event_wait, mbind, M_bind. rewrite Hw. by destruct (v =? 0).
Qed.

Fixpoint signals (k : nat) : M (shared D) unit :=
  match k with O => mret tt | S k' => event_signal;; signals k' end.

Lemma signals_at k v s :
  restartable → cq_event (cq s) = Some v →
  ∃ s', signals k s = Ret tt s' ∧ cq_event (cq s') = Some (v + Z.of_nat k).
Proof using Type.
  intros Hr. revert v s. induction k as [|k IH]; intros v s Hv; simpl.
  { exists s. by rewrite Z.add_0_r. }
  destruct (event_signal_at v s Hr Hv) as (s1 & Hs1 & Ha). unfold mbind, M_bind. rewrite Hs1.
  destruct (IH (v + 1) s1 (event_at_open _ _ _ Ha)) as (s2 & Hs2 & Hv2). exists s2.
  split; [done|]. rewrite Hv2. f_equal. lia.
Qed.
End event_rules.

(** C33: events are not lost and are delivered once.  Any positive number of
    [event_signal] calls on an open event, with system calls that are interrupted
    any bounded number of times, makes the next [event_wait] return 1; the one
    after it returns 0. *)
Theorem event_delivery {D} `{EV : !Env} (k : nat) (s : shared D) :
  restartable → cq_event (cq s) = Some 0 → (0 < k)%nat →
  ∃ s', (signals k;; a ← event_wait; b ← event_wait; mret (a, b)) s = Ret (1, 0) s'.
Proof.
  intros Hr Hv Hk. unfold mbind, M_bind.
  destruct (signals_at k 0 s Hr Hv) as (s1 & -> & Hv1).
  destruct (event_wait_at _ s1 Hr Hv1) as (s2 & -> & Ha).
  destruct (event_wait_at 0 s2 Hr (event_at_open _ _ _ Ha)) as (s3 & -> & _).
  exists s3. destruct (0 + Z.of_nat k =? 0) eqn:?; [lia|done].
Qed.

(** An environment that interrupts every other call. *)
Definition flaky : Env := {|
  fault n := if Nat.even n then EINTR else 0; wake n := n; sched _ := []; spins := 2;
|}.

Lemma event_delivery_witness :
  ∃ s', (signals (EV := flaky) 3;; a ← event_wait (EV := flaky); b ← event_wait (EV := flaky); mret (a, b))
    (with_cq (CQueue [] (Some 0) 0) (sh (fresh_world (D := Toy.digest) ∅))) = Ret (1, 0) s'.
Proof.
  apply (event_delivery (EV := flaky) 3); [|reflexivity|lia].
  intros n. destruct (Nat.even n) eqn:E.
  - exists 1%nat. simpl. split_and!; [lia| |].
    + rewrite Nat.add_1_r, Nat.even_succ, <-Nat.negb_even, E. reflexivity.
    + intros i Hi. replace i with 0%nat by lia. rewrite Nat.add_0_r, E. reflexivity.
  - exists 0%nat. simpl. split_and!; [lia| |lia]. rewrite Nat.add_0_r, E. reflexivity.
Defined.

(** ** Options and configuration *)

Module Options.

(** A call of a setter; the argument has the width of its C type. *)
Inductive setter :=
| SetBlockSize (v : Z)
| SetThreads (v : Z)
| SetQueueDepth (v : Z).

Definition in_range (x : setter) : bool :=
  match x with
  | SetBlockSize v | SetQueueDepth v => (0 <=? v) && (v <? 2 ^ 32)
  | SetThreads v => (0 <=? v) && (v <? 2 ^ 8)
  end.

Definition apply (x : setter) (o : blkhash_opts) : Z * blkhash_opts :=
  match x with
  | SetBlockSize v => blkhash_opts_set_block_size o v
  | SetThreads v => blkhash_opts_set_threads o v
  | SetQueueDepth v => blkhash_opts_set_queue_depth o v
  end.

Definition apply_all (l : list setter) (o : blkhash_opts) : blkhash_opts :=
  foldl (λ o x, (apply x o).2) o l.

(** What the getter of the same field returns. *)
Definition read (x : setter) (o : blkhash_opts) : Z :=
  match x with
  | SetBlockSize _ => blkhash_opts_get_block_size o
  | SetThreads _ => blkhash_opts_get_threads o
  | SetQueueDepth _ => blkhash_opts_get_queue_depth o
  end.

Definition value (x : setter) : Z :=
  match x with SetBlockSize v | SetThreads v | SetQueueDepth v => v end.

(** What every options object satisfies. *)
Record ok (name : string) (o : blkhash_opts) : Prop := {
  ok_name : blkhash_opts_get_digest_name o = name;
  ok_block : 0 <= o_block_size o < 2 ^ 32 ∧ o_block_size o mod 2 = 0;
  ok_threads : 1 <= o_threads o <= MAX_THREADS;
  ok_depth : 0 <= o_queue_depth o < 2 ^ 32;
}.

Lemma apply_ok name x o : in_range x = true → ok name o → ok name (apply x o).2.
Proof.
  unfold in_range, apply, blkhash_opts_set_block_size, blkhash_opts_set_threads,
    blkhash_opts_set_queue_depth, fails, MAX_THREADS. intros Hr [Hn Hb Ht Hd].
  destruct x as [v|v|v]; apply andb_true_iff in Hr as [? ?]; simpl.
  - destruct (v mod 2 =? 0) eqn:?; simpl; split; simpl; try done; lia.
  - destruct (_ || _) eqn:E; simpl; split; simpl; try done. apply orb_false_iff in E. unfold MAX_THREADS. lia.
  - split; simpl; try done; lia.
Qed.

Lemma apply_all_ok name l o :
  Forall (λ x, in_range x = true) l → ok name o → ok name (apply_all l o).
Proof.
  intros Hl. revert o. induction Hl as [|x l Hx _ IH]; intros o Ho; simpl; [done|].
  by apply IH, apply_ok.
Qed.
End Options.

(** Options stay within their limits.  After [blkhash_opts_new] and any
    sequence of setter calls, whatever they returned, the digest name is the one
    given, the number of threads is between 1 and 128 and the block size is even;
    a setter that returns 0 makes its getter return the value, and one that fails
    returns EINVAL and changes nothing. *)
Theorem options_stay_valid (name : string) (l : list Options.setter) (x : Options.setter) :
  Forall (λ x, Options.in_range x = true) l →
  match blkhash_opts_new 0 (Some name) with
  | (rc, Some o0) => rc = 0 ∧
      let o := Options.apply_all l o0 in
      Options.ok name o ∧
      match Options.apply x o with
      | (rc, o') => (rc = 0 ∧ Options.read x o' = Options.value x) ∨ (rc = EINVAL ∧ o' = o)
      end
  | (_, None) => False
  end.
Proof.
  intros Hl. simpl. split_and!; [done| |].
  - apply Options.apply_all_ok; [done|]. by split; [|split_and!; vm_compute..].
  - generalize (Options.apply_all l (Opts name (64 * KiB) 0 4)). intros o.
    unfold Options.apply, blkhash_opts_set_block_size, blkhash_opts_set_threads,
      blkhash_opts_set_queue_depth. destruct x; repeat case_match; simplify_eq; auto.
Qed.

Lemma options_stay_valid_witness :
  let l := [Options.SetBlockSize 4096; Options.SetThreads 200; Options.SetBlockSize 7] in
  Forall (λ x, Options.in_range x = true) l ∧
  match blkhash_opts_new 0 (Some "sha1"%string) with
  | (rc, Some o0) => rc = 0 ∧
      let o := Options.apply_all l o0 in
      Options.ok "sha1" o ∧
      match Options.apply (Options.SetQueueDepth 16) o with
      | (rc, o') => (rc = 0 ∧ Options.read (Options.SetQueueDepth 16) o' = 16) ∨ (rc = EINVAL ∧ o' = o)
      end
  | (_, None) => False
  end.
Proof.
  assert (Forall (λ x, Options.in_range x = true)
    [Options.SetBlockSize 4096; Options.SetThreads 200; Options.SetBlockSize 7]) as Hl
    by (repeat constructor).
  split; [exact Hl|]. exact (options_stay_valid "sha1" _ (Options.SetQueueDepth 16) Hl).
Defined.

(** The size of the queues.  For every queue depth below 2^29 and every legal
    number of threads, the [unsigned] arithmetic of [config_init] does not wrap:
    there is room for at least 32 submissions and four per thread and per async
    update. *)
Theorem max_submissions_room (depth threads : Z) :
  0 <= depth < 2 ^ 29 → 1 <= threads <= MAX_THREADS →
  32 <= max_submissions_for depth threads < 2 ^ 31 ∧
  4 * depth <= max_submissions_for depth threads ∧
  4 * threads <= max_submissions_for depth threads.
Proof. apply max_submissions_bounds. Qed.

Lemma max_submissions_room_witness :
  32 <= max_submissions_for 128 16 < 2 ^ 31 ∧ 4 * 128 <= max_submissions_for 128 16 ∧
  4 * 16 <= max_submissions_for 128 16.
Proof. apply (max_submissions_room 128 16); vm_compute; split; congruence. Defined.

(** Beyond that bound the product wraps around: with a queue depth of 2^30 there
    is room for 32 submissions only. *)
Example max_submissions_wraps : max_submissions_for (2 ^ 30) 4 = 32.
Proof. reflexivity. Qed.
