(* ===== verification/PoolTheorems.v ===== *)
(** * The hash pool under concurrency

    Properties of the worker threads and of the queues they share with the
    caller, in every state a client can reach: each worker follows its state
    machine, no wakeup is lost, a submission waited for is completed, and the
    stores of submissions and completions hold no dangling pointer. *)

From stdpp Require Import prelude list strings gmap.
From Stdlib Require Import ZArith Lia.
From S2P Require Import Prelude Ring State Digest Zero Event Completion Submission Config HashPool.
From S2P Require Import Blkhash PoolInv PoolStep Progress Spec PoolCaller PoolAio BlkhashInv BlkhashOps.
From S2P Require Import BlkhashUpdate Api ApiAio Init Session Reach Demo.

Local Open Scope Z_scope.

Section pool.
Context {D : Type} `{DO : !DigestOps D, DL : !DigestLaws D, EV : !Env}.

(** The invariant of the shared state, with its parts named. *)
Lemma reach_shared o (w : world D) msg :
  valid_opts o → reach o w msg →
  ∃ ids Q q, core (config_for o) None ids Q w ∧
    shared_inv q [] (tracked ids Q) None (inflight (hs w)) (sh w) ∧ cfg (sh w) = config_for o.
Proof using Type.
  intros Hv Hr. destruct (reach_safe _ _ _ Hv Hr) as (ids & Q & Hk).
  destruct (k_shared _ _ _ _ _ Hk) as [q HI]. exists ids, Q, q. split_and!; [done..|apply Hk].
Qed.

(** C22: workers follow their state machine.  From every reachable state, any
    scheduled action (a step of any worker or a spurious wakeup) either keeps
    spinning on an interrupted [write] or moves exactly that worker along [wmove],
    together with the work queue it pops from, and never crashes. *)
Theorem workers_follow_machine o (w : world D) msg a :
  valid_opts o → reach o w msg →
  match worker_step a (sh w) with
  | Crash k => k = CNoFuel
  | Ret _ s' => ∃ q q', ring_repr (p_queue (pool (sh w))) (Sub <$> q) ∧
      ring_repr (p_queue (pool s')) (Sub <$> q') ∧
      pool_move a q (threads (sh w)) q' (threads s')
  end.
Proof using DL.
  intros Hv Hr. destruct (reach_shared _ _ _ Hv Hr) as (ids & Q & q & Hk & HI & Hc).
  pose proof (worker_step_inv True [] (tracked ids Q) None (inflight (hs w)) (digest_name (cfg (sh w)))
    (or_introl I) q (sh w) a HI eq_refl) as Hw.
  unfold wp in Hw. destruct (worker_step a (sh w)) as [[] s'|[]]; try done.
  destruct Hw as (q' & Hm & HI' & _). exists q, q'.
  split_and!; [apply (si_threads _ _ _ _ _ _ HI)|apply (si_threads _ _ _ _ _ _ HI')|done].
Qed.

(** C23: no lost wakeup.  In every reachable state of a pool without error, if
    the work queue is not empty then some worker is not blocked on the condition
    variable, so that the queue will be served; and [workers_idle] counts exactly
    the workers that wait or were woken and do not have the mutex yet. *)
Theorem no_lost_wakeup o (w : world D) msg :
  valid_opts o → reach o w msg → p_error (pool (sh w)) = 0 →
  workers_idle (pool (sh w)) = Z.of_nat (idle_count (threads (sh w))) ∧
  (r_len (p_queue (pool (sh w))) ≠ 0 →
    ∃ k t, threads (sh w) !! k = Some t ∧ awake t = true).
Proof using DL.
  intros Hv Hr He. destruct (reach_shared _ _ _ Hv Hr) as (ids & Q & q & _ & HI & _).
  pose proof (si_threads _ _ _ _ _ _ HI) as HT. split; [apply HT|]. intros Hq.
  apply (ti_awake _ _ _ _ _ HT He). intros ->. by rewrite (rr_len _ _ (ti_ring _ _ _ _ _ HT)) in Hq.
Qed.

(** C24: waiting ends.  Under a fair scheduler and without failures, the busy
    wait of [submission_wait] on any submission of the submission queue ends, with
    the submission completed without error and either marked as zero or holding a
    full digest, which is what [hash_submission] reads next. *)
Theorem wait_ends o (w : world D) msg :
  valid_opts o → reach o w msg → live_env (D := D) (config_for o) →
  ∃ ids, ring_repr (sq (hs w)) ids ∧ ∀ id, id ∈ ids →
    ∃ (s' : shared D) sub, submission_wait yield id (sh w) = Ret tt s' ∧
      subs s' !! id = Some sub ∧ sub_completed sub = true ∧ sub_error sub = 0 ∧
      (sub_zero sub = true ∨ zlen (sub_md sub) = md_len (cfg (sh w))).
Proof using Type.
  intros Hv Hr Hlive. destruct (reach_shared _ _ _ Hv Hr) as (ids & Q & q & Hk & HI & Hc).
  exists ids. split; [apply Hk|]. intros id Hid.
  destruct (tracked ids Q !! id) as [a|] eqn:Ha.
  2: { by destruct (tracked_Some _ _ _ (k_len _ _ _ _ _ Hk) Ha). }
  destruct (wp_total _ _ _ (submission_wait_inv False [] _ None _ (config_for o) (or_intror Hlive) q
    (sh w) id a HI Hc Ha (not_elem_of_nil _))) as ([] & s' & Hrun & q' & HI' & Hf & sub & Hsub & Hsa & Hcp).
  exists s', sub. assert (sub_error sub = 0) as He.
  { rewrite (fr_cfg _ _ Hf), Hc in *. eapply cm_subs; [|done]. apply (si_calm _ _ _ _ _ _ HI').
    rewrite (fr_cfg _ _ Hf), Hc. apply Hlive. }
  split_and!; [done..|]. destruct a as [i b|i]; simpl in Hsa.
  - destruct Hsa as [_ Hd]. destruct (Hd Hcp) as [_ Hres]. specialize (Hres He).
    destruct (sub_zero sub); [by left|right]. rewrite Hres, hash_size, (fr_cfg _ _ Hf), Hc. done.
  - left. apply Hsa.
Qed.

(** C25: ownership.  In every reachable state each submission of the submission
    queue exists in the store, a submission that is not completed is in exactly one
    place (the work queue or one worker), and every completion that a submission
    points to is live with a reference count equal to the number of submissions
    that point to it. *)
Theorem ownership o (w : world D) msg :
  valid_opts o → reach o w msg →
  ∃ ids q, ring_repr (sq (hs w)) ids ∧ ring_repr (p_queue (pool (sh w))) (Sub <$> q) ∧ NoDup q ∧
    (∀ id, id ∈ ids → ∃ sub, subs (sh w) !! id = Some sub ∧
      (sub_completed sub = false → id ∈ q ∨ ∃ k, holds (threads (sh w)) k id)) ∧
    (∀ id k, id ∈ q → ¬ holds (threads (sh w)) k id) ∧
    (∀ id k1 k2, holds (threads (sh w)) k1 id → holds (threads (sh w)) k2 id → k1 = k2) ∧
    (∀ id sub c, subs (sh w) !! id = Some sub → sub_completion sub = Some c →
      ∃ comp, comps (sh w) !! c = Some comp ∧
        c_refs comp = Z.of_nat (size (filter (uses c) (subs (sh w))))).
Proof using DL.
  intros Hv Hr. destruct (reach_shared _ _ _ Hv Hr) as (ids & Q & q & Hk & HI & Hc).
  destruct HI as [_ HT HS HC _ _]. exists ids, q. rewrite app_nil_r in HS.
  split_and!; [apply Hk|apply HT|..].
  - pose proof (ti_nodup _ _ _ _ _ HT) as Hnd. by rewrite app_nil_r in Hnd.
  - intros id Hid. destruct (tracked ids Q !! id) as [a|] eqn:Ha.
    2: { by destruct (tracked_Some _ _ _ (k_len _ _ _ _ _ Hk) Ha). }
    destruct (su_tracked _ _ _ _ _ _ HS id a Ha) as (sub & ? & _ & ?). eauto.
  - apply (queue_apart _ _ _ _ _ HT).
  - apply (ti_inj _ _ _ _ _ HT).
  - intros id sub k Hs Hcomp. destruct (ci_user _ _ _ _ _ _ HC _ _ _ Hs Hcomp) as (_ & _ & [comp Hcm]).
    exists comp. split; [done|]. destruct (ci_refs _ _ _ _ _ _ HC _ _ Hcm) as [-> _].
    unfold refs_to. destruct (decide _); [done|]. by rewrite Nat.add_0_r.
Qed.

(** A new hash.  When creation succeeds, the configuration is derived from
    the options (the digest of a zero block included), the pool has the requested
    number of threads, all its queues are empty and no error is set. *)
Theorem new_hash o m (w : world D) :
  valid_opts o → blkhash_init o (fresh_world m) = Ret 0 w →
  cfg (sh w) = Config (hash (o_digest_name o) (zeros (o_block_size o))) (o_digest_name o)
    (o_block_size o) (md_size (o_digest_name o)) (o_threads o) (o_queue_depth o)
    (max_submissions_for (o_queue_depth o) (o_threads o)) ∧
  zlen (threads (sh w)) = o_threads o ∧ workers_count (pool (sh w)) = o_threads o ∧
  inflight (hs w) = 0 ∧ h_error (sh w) = 0 ∧ finalized (hs w) = false ∧ mem (sh w) = m.
Proof using Type.
  intros Hv Hi. pose proof (blkhash_init_inv o m Hv) as Hx. unfold wpx in Hx. rewrite Hi in Hx.
  destruct Hx as [[Ha []] _]; [done|].
  destruct (api_safe _ _ _ _ _ Ha) as (ids & Q & Hk). destruct (k_shared _ _ _ _ _ Hk) as [q HI].
  pose proof (si_threads _ _ _ _ _ _ HI) as HT. pose proof (k_cfg _ _ _ _ _ Hk) as Hc.
  split_and!; try done.
  - rewrite (ti_few _ _ _ _ _ HT), Hc. done.
  - rewrite (ti_count _ _ _ _ _ HT), (ti_few _ _ _ _ _ HT), Hc. done.
Qed.
End pool.

(** ** Witnesses *)

Lemma workers_follow_machine_witness :
  ∃ s', worker_step (EV := Demo.env) (ARun 0) (sh Demo.aio_updated) = Ret tt s' ∧
  ∃ q q', ring_repr (p_queue (pool (sh Demo.aio_updated))) (Sub <$> q) ∧
    ring_repr (p_queue (pool s')) (Sub <$> q') ∧
    pool_move (ARun 0) q (threads (sh Demo.aio_updated)) q' (threads s').
Proof.
  pose proof (workers_follow_machine (EV := Demo.env) Demo.aio_opts Demo.aio_updated Demo.buffer0 (ARun 0)
    Demo.aio_opts_valid Demo.aio_updated_reach) as Hw.
  destruct (worker_step (EV := Demo.env) (ARun 0) (sh Demo.aio_updated)) as [[] s'|k] eqn:E.
  - exists s'. split; [reflexivity|exact Hw].
  - exfalso. vm_compute in E. congruence.
Defined.

Lemma no_lost_wakeup_witness :
  r_len (p_queue (pool (sh Demo.aio_updated))) = 1 ∧
  workers_idle (pool (sh Demo.aio_updated)) = Z.of_nat (idle_count (threads (sh Demo.aio_updated))) ∧
  (r_len (p_queue (pool (sh Demo.aio_updated))) ≠ 0 →
    ∃ k t, threads (sh Demo.aio_updated) !! k = Some t ∧ awake t = true).
Proof.
  split; [vm_compute; reflexivity|].
  apply (no_lost_wakeup (EV := Demo.env) Demo.aio_opts Demo.aio_updated Demo.buffer0);
    [apply Demo.aio_opts_valid|apply Demo.aio_updated_reach|vm_compute; reflexivity].
Defined.

Lemma wait_ends_witness :
  ∃ ids, ring_repr (sq (hs Demo.aio_updated)) ids ∧ ∀ id, id ∈ ids →
    ∃ s' sub, submission_wait (EV := Demo.env) (yield (EV := Demo.env)) id (sh Demo.aio_updated) = Ret tt s' ∧
      subs s' !! id = Some sub ∧ sub_completed sub = true ∧ sub_error sub = 0 ∧
      (sub_zero sub = true ∨ zlen (sub_md sub) = md_len (cfg (sh Demo.aio_updated))).
Proof.
  apply (wait_ends (EV := Demo.env) Demo.aio_opts Demo.aio_updated Demo.buffer0);
    [apply Demo.aio_opts_valid|apply Demo.aio_updated_reach|apply Demo.live_opts; vm_compute; congruence].
Defined.

Lemma ownership_witness :
  let w := Demo.aio_updated in
  ∃ ids q, ring_repr (sq (hs w)) ids ∧ ring_repr (p_queue (pool (sh w))) (Sub <$> q) ∧ NoDup q ∧
    (∀ id, id ∈ ids → ∃ sub, subs (sh w) !! id = Some sub ∧
      (sub_completed sub = false → id ∈ q ∨ ∃ k, holds (threads (sh w)) k id)) ∧
    (∀ id k, id ∈ q → ¬ holds (threads (sh w)) k id) ∧
    (∀ id k1 k2, holds (threads (sh w)) k1 id → holds (threads (sh w)) k2 id → k1 = k2) ∧
    (∀ id sub c, subs (sh w) !! id = Some sub → sub_completion sub = Some c →
      ∃ comp, comps (sh w) !! c = Some comp ∧
        c_refs comp = Z.of_nat (size (filter (uses c) (subs (sh w))))).
Proof.
  apply (ownership (EV := Demo.env) Demo.aio_opts Demo.aio_updated Demo.buffer0);
    [apply Demo.aio_opts_valid|apply Demo.aio_updated_reach].
Defined.

Lemma new_hash_witness :
  cfg (sh Demo.new) = Config (hash (D := Toy.digest) "sha256" (zeros 16)) "sha256" 16
    (md_size (D := Toy.digest) "sha256") 2 0 32 ∧
  zlen (threads (sh Demo.new)) = 2 ∧ workers_count (pool (sh Demo.new)) = 2 ∧
  inflight (hs Demo.new) = 0 ∧ h_error (sh Demo.new) = 0 ∧ finalized (hs Demo.new) = false ∧
  mem (sh Demo.new) = Demo.mem0.
Proof.
  apply (new_hash (EV := Demo.env) Demo.opts Demo.mem0 Demo.new); [apply Demo.opts_valid|apply Demo.new_eq].
Defined.
