(* ===== verification/Theorems.v ===== *)
(** * The digest of a session

    What a client of the library can rely on, from creating a hash to its
    digest: the digest is the specified one for every sequence of calls, every
    number of threads and every schedule; no update, poll or final call touches
    freed memory or fails an assertion; errors stay visible; buffers can be reused when no update is
    in flight. *)

From stdpp Require Import prelude list strings gmap.
From Stdlib Require Import ZArith Lia.
From S2P Require Import Prelude Ring State Digest Zero Event Completion Submission Config HashPool.
From S2P Require Import Blkhash PoolInv PoolStep Progress Spec PoolCaller PoolAio BlkhashInv BlkhashOps.
From S2P Require Import BlkhashUpdate Api ApiAio Init Session Reach Demo.

Local Open Scope Z_scope.

(** Every call has valid arguments: a length that fits a [size_t] and, for the
    calls that pass data, a readable buffer. *)
Definition valid_calls (m : gmap nat (list byte)) (l : list call) : Prop :=
  Forall (λ x, is_Some (call_bytes m x)) l ∧ zlen (total_bytes m l) < 2 ^ 64.

(** All calls returned 0. *)
Definition all_ok (r : list (call * Z)) : Prop := Forall (λ p, p.2 = 0) r.

#[export] Instance all_ok_dec r : Decision (all_ok r).
Proof. unfold all_ok. apply _. Defined.

Section sessions.
Context {D : Type} `{DO : !DigestOps D, DL : !DigestLaws D}.

(** The digest of a session whose calls all succeeded, in any environment. *)
Lemma sync_sound `{EV : !Env} o m l r md (w' : world D) :
  valid_opts o → valid_calls m l → forallb is_sync l = true →
  session o l (fresh_world m) = Ret (0, r, (0, md)) w' → all_ok r →
  md = digest_of o (total_bytes m l).
Proof using DL.
  intros Hv [Hl Hmax] Hs Hrun Hr.
  destruct (session_finish _ _ _ _ _ _ _ Hrun eq_refl) as (w0 & Hi & Hf).
  pose proof (finish_sync o m l Hv Hl Hmax True (or_introl I) w0 Hi Hs) as Hw.
  destruct (wp_run _ _ _ _ _ _ Hw Hf) as (_ & Hd & _). by apply Hd.
Qed.

Lemma sync_complete `{EV : !Env} o m l :
  valid_opts o → valid_calls m l → forallb is_sync l = true →
  live_env (D := D) (config_for o) →
  ∃ r (w' : world D), session o l (fresh_world m) =
    Ret (0, r, (0, digest_of o (total_bytes m l))) w' ∧ all_ok r.
Proof using DL.
  intros Hv [Hl Hmax] Hs Hlive. pose proof (proj1 Hlive) as Hc.
  destruct (init_total o m Hv Hc) as [w0 Hi].
  destruct (wp_total _ _ _ (finish_sync o m l Hv Hl Hmax False (or_intror Hlive) w0 Hi Hs))
    as ([r [rc md]] & w' & Hf & _ & Hd & Hok).
  destruct (Hok Hc) as [Hr Hrc]. simpl in *. subst rc. exists r, w'. split; [|done].
  rewrite (finish_session _ _ _ _ _ _ _ Hi Hf), (Hd Hr eq_refl). done.
Qed.
End sessions.

Section theorems.
Context {D : Type} `{DO : !DigestOps D, DL : !DigestLaws D}.

(** C1: total correctness of the synchronous API.  When no allocation or crypto
    call fails and the scheduler is fair, creating a hash succeeds, every
    [blkhash_update] and [blkhash_zero] returns 0, [blkhash_final] returns 0 and
    writes H(H(block 1) || ... || H(block N) || length) of the concatenated data,
    with any number of threads and any fair interleaving. *)
Theorem session_total `{EV : !Env} o m l :
  valid_opts o → valid_calls m l → forallb is_sync l = true →
  live_env (D := D) (config_for o) →
  ∃ r (w' : world D), session o l (fresh_world m) =
    Ret (0, r, (0, digest_of o (total_bytes m l))) w' ∧ r = map (λ x, (x, 0)) l.
Proof using DL.
  intros Hv Hm Hs Hlive.
  destruct (sync_complete o m l Hv Hm Hs Hlive) as (r & w' & Hrun & Hr).
  exists r, w'. split; [done|].
  destruct (session_finish _ _ _ _ _ _ _ Hrun eq_refl) as (w0 & Hi & Hf).
  pose proof (finish_async o m l Hv (proj1 Hm) (proj2 Hm) True (or_introl I) w0 Hi) as Hw.
  destruct (wp_run _ _ _ _ _ _ Hw Hf) as (_ & <- & _). simpl. clear -Hr.
  induction r as [|[x rc] r IH]; [done|]. apply Forall_cons in Hr as [Hrc Hr]. simpl in *.
  rewrite Hrc. f_equal. by apply IH.
Qed.

(** C2: soundness in every environment.  Whatever fails and however the threads
    are scheduled: if every call returned 0 and [blkhash_final] returned 0, the
    digest is the specified one. *)
Theorem session_sound `{EV : !Env} o m l r md (w' : world D) :
  valid_opts o → valid_calls m l → forallb is_sync l = true →
  session o l (fresh_world m) = Ret (0, r, (0, md)) w' → all_ok r →
  md = blkhash_spec (hash (o_digest_name o)) (o_block_size o) (total_bytes m l).
Proof using DL. exact (sync_sound o m l r md w'). Qed.

(** C3: soundness of the asynchronous API.  Any mix of sync and async updates
    and polls for completions, in any environment: if the hash has no error at
    the end and [blkhash_final] returned 0, the digest is the specified one of the
    data of the accepted calls, in the order of the calls. *)
Theorem async_sound `{EV : !Env} o m l r md (w' : world D) :
  valid_opts o → valid_calls m l →
  session o l (fresh_world m) = Ret (0, r, (0, md)) w' → h_error (sh w') = 0 →
  md = digest_of o (message m r) ∧ r.*1 = l.
Proof using DL.
  intros Hv [Hl Hmax] Hrun He.
  destruct (session_finish _ _ _ _ _ _ _ Hrun eq_refl) as (w0 & Hi & Hf).
  pose proof (finish_async o m l Hv Hl Hmax True (or_introl I) w0 Hi) as Hw.
  destruct (wp_run _ _ _ _ _ _ Hw Hf) as (_ & ? & Hd & _). split; [by apply Hd|done].
Qed.

(** C4: total correctness of the asynchronous API under a fair scheduler and
    without injected failures: the session ends, no error is left, and the digest
    is the one of the data of the accepted calls. *)
Theorem async_total `{EV : !Env} o m l :
  valid_opts o → valid_calls m l → live_env (D := D) (config_for o) →
  ∃ r (w' : world D), session o l (fresh_world m) =
    Ret (0, r, (0, digest_of o (message m r))) w' ∧ r.*1 = l ∧ h_error (sh w') = 0.
Proof using DL.
  intros Hv [Hl Hmax] Hlive. pose proof (proj1 Hlive) as Hc.
  destruct (init_total o m Hv Hc) as [w0 Hi].
  destruct (wp_total _ _ _ (finish_async o m l Hv Hl Hmax False (or_intror Hlive) w0 Hi))
    as ([r [rc md]] & w' & Hf & _ & Hrl & Hd & Hok).
  destruct (Hok Hc) as [He Hrc]. simpl in *. subst rc. exists r, w'.
  by rewrite (finish_session _ _ _ _ _ _ _ Hi Hf), (Hd He eq_refl).
Qed.

(** C5: memory safety.  After a hash was created with valid options (a block size of at
    least 16, up to 128 threads), no sequence of valid [blkhash_update], [blkhash_zero],
    [blkhash_aio_update] and [blkhash_aio_completions] calls followed by one
    [blkhash_final] fails an assertion, divides by zero, or reads or frees an object that
    is not live, in any environment: the only way not to return is a busy wait that
    outlasts the iterations granted to it.  [blkhash_free] is not one of these calls. *)
Theorem calls_never_crash `{EV : !Env} o m l (w0 : world D) k :
  valid_opts o → valid_calls m l → blkhash_init o (fresh_world m) = Ret 0 w0 →
  finish l w0 = Crash k → k = CNoFuel.
Proof using DL.
  intros Hv [Hl Hmax] Hi Hf.
  pose proof (finish_async o m l Hv Hl Hmax True (or_introl I) w0 Hi) as Hw.
  unfold wp in Hw. rewrite Hf in Hw. by destruct k.
Qed.

(** C6: equivalence with the reference implementation.  Without failing calls and under a
    fair scheduler, synchronous updates of the multi-threaded library and the simple Python
    implementation of test/blkhash.py compute the same digest, for any split of the message
    into updates on both sides. *)
Theorem matches_reference `{EV : !Env} o m l (updates : list (list byte)) :
  valid_opts o → valid_calls m l → forallb is_sync l = true →
  live_env (D := D) (config_for o) → mjoin updates = total_bytes m l →
  ∃ r (w' : world D), session o l (fresh_world m) =
    Ret (0, r, (0, Py.checksum (hash (o_digest_name o)) (o_block_size o) updates)) w'.
Proof using DL.
  intros Hv Hm Hs Hlive Hu. destruct (sync_complete o m l Hv Hm Hs Hlive) as (r & w' & -> & _).
  exists r, w'. rewrite Py.checksum_spec by (pose proof (vo_block _ Hv); lia).
  by rewrite Hu.
Qed.
(** C7: the digest of any use of the API, buffers included.  In every state a
    client can reach by valid calls, changing its buffers only while no update is
    in flight, if [blkhash_final] returns 0 and the hash has no error then, it wrote the
    specified digest of exactly the bytes accepted so far.  (On a hash with an error it
    can return 0 and write another digest, see [final_after_error].) *)
Theorem reach_digest `{EV : !Env} o (w w' : world D) msg md :
  valid_opts o → reach o w msg → blkhash_final w = Ret (0, md) w' → h_error (sh w') = 0 →
  md = digest_of o msg.
Proof using DL.
  intros Hv Hr Hf He. destruct (reach_inv _ _ _ Hv Hr) as [Hfin _].
  destruct (reach_api _ _ _ Hv Hr) as (G & Ha & HG).
  pose proof (blkhash_final_inv True _ (any_nf _) G msg w Ha Hfin) as Hw.
  destruct (wp_run _ _ _ _ _ _ Hw Hf) as (_ & Hks & _ & _ & Hmd & _).
  destruct (Hmd eq_refl) as [HG'|?]; [|done]. exfalso. eapply HG, HG'.
  destruct (decide (h_error (sh w) = 0)) as [|n]; [done|]. by rewrite (ks_error _ _ Hks n) in He.
Qed.

(** C19: bounds of the queues.  In every reachable state the number of updates in
    flight is at most the queue depth, the completion queue never holds more
    entries than updates in flight nor than its array, and both the submission
    queue and the work queue hold at most [max_submissions] entries. *)
Theorem queues_bounded `{EV : !Env} o (w : world D) msg :
  valid_opts o → reach o w msg →
  0 <= cq_count (cq (sh w)) <= inflight (hs w) ∧ inflight (hs w) <= o_queue_depth o ∧
  zlen (cq_array (cq (sh w))) = o_queue_depth o ∧
  0 <= r_len (sq (hs w)) <= max_submissions_for (o_queue_depth o) (o_threads o) ∧
  0 <= r_len (p_queue (pool (sh w))) <= max_submissions_for (o_queue_depth o) (o_threads o) ∧
  0 <= b_len (pending (hs w)) <= o_block_size o.
Proof using DL.
  intros Hv Hr. destruct (reach_safe _ _ _ Hv Hr) as (ids & Q & Hk).
  destruct (k_shared _ _ _ _ _ Hk) as [q HI]. pose proof (k_cfg _ _ _ _ _ Hk) as Hc.
  pose proof (k_pending_len _ _ _ _ _ Hk) as Hp. pose proof (k_size _ _ _ _ _ Hk) as Hsz.
  destruct (k_ring _ _ _ _ _ Hk) as [_ _ Hl Hfit _ _ _].
  destruct (si_cq _ _ _ _ _ _ HI) as [Hn Hb Hin Hal _].
  destruct (si_threads _ _ _ _ _ _ HI) as [[_ _ Hql Hqfit _ _ _] Hqs _ _ _ _ _ _ _ _ _ _ _].
  rewrite Hc in *. simpl in *.
  rewrite Hl, Hql. pose proof (zlen_nonneg ids). pose proof (zlen_nonneg (Sub <$> q)).
  split_and!; lia.
Qed.

(** C21: errors are sticky.  In a reachable state with an error every update call
    returns that error and changes nothing of the hash, and the error stays. *)
Theorem errors_sticky `{EV : !Env} o (w w' : world D) msg x rc :
  valid_opts o → reach o w msg → h_error (sh w) ≠ 0 →
  match x with CAioCompletions _ => False | _ => True end →
  run_call x w = Ret rc w' →
  rc = h_error (sh w) ∧ hs w' = hs w ∧ h_error (sh w') = h_error (sh w).
Proof using DL.
  intros Hv Hr He Hx Hrun. destruct (reach_api _ _ _ Hv Hr) as (G & Ha & _).
  destruct x as [p len|len|p len ud|]; [..|done]; simpl in Hrun;
    (eapply wp_run in Hrun; [exact Hrun|by apply (wp_refused True (config_for o) (any_nf _) None G msg)]).
Qed.

(** A hash is finalized once.  After [blkhash_final] returned, whatever it
    returned, calling it again returns EINVAL and changes nothing. *)
Theorem final_twice `{EV : !Env} o (w w1 w2 : world D) msg r1 r2 :
  valid_opts o → reach o w msg → blkhash_final w = Ret r1 w1 → blkhash_final w1 = Ret r2 w2 →
  r2 = (EINVAL, []) ∧ hs w2 = hs w1.
Proof using DL.
  intros Hv Hr H1 H2. destruct (reach_inv _ _ _ Hv Hr) as [Hfin _].
  destruct (reach_api _ _ _ Hv Hr) as (G & Ha & _).
  pose proof (blkhash_final_inv True _ (any_nf _) G msg w Ha Hfin) as Hw.
  destruct (wp_run _ _ _ _ _ _ Hw H1) as (Hs & _ & Hfin1 & _).
  by apply (wp_run _ _ _ _ _ _ (final_once True _ (any_nf _) w1 Hs Hfin1) H2).
Qed.

(** Accounting of async updates.  A call that is not refused with an error
    changes the number of updates in flight by exactly what it accepted or handed
    back, and EAGAIN means that the queue depth is reached. *)
Theorem inflight_accounting `{EV : !Env} o (w w' : world D) msg p len ud b rc :
  valid_opts o → reach o w msg → call_bytes (mem (sh w)) (CAioUpdate p len ud) = Some b →
  zlen msg + zlen b < 2 ^ 64 → blkhash_aio_update p len ud w = Ret rc w' →
  (rc = 0 ∧ inflight (hs w') = inflight (hs w) + 1) ∨
  (rc = EAGAIN ∧ inflight (hs w') = inflight (hs w) ∧ inflight (hs w) = o_queue_depth o) ∨
  (rc ≠ 0 ∧ h_error (sh w') ≠ 0).
Proof using DL.
  intros Hv Hr Hb Hlen Hrun. destruct (reach_api _ _ _ Hv Hr) as (G & Ha & _). simpl in Hb.
  destruct (is_size len) eqn:En; [|done]. apply is_size_true in En.
  pose proof (data_at_len _ _ _ _ Hb ltac:(lia)) as Hl. rewrite Hl in Hlen.
  pose proof (blkhash_aio_update_inv True _ (any_nf _) G msg w p len ud b Ha Hb En (or_intror Hlen)) as Hw.
  destruct (wp_run _ _ _ _ _ _ Hw Hrun) as (_ & [[? [_ ?]]|[(? & _ & ? & ?)|(? & _ & ?)]]); auto.
Qed.

(** Polling.  [blkhash_aio_completions] on a hash that ends without error
    returns how many completions it copied, at most as many as asked for, and
    takes exactly these off the number of updates in flight. *)
Theorem completions_accounting `{EV : !Env} o (w w' : world D) msg count n out :
  valid_opts o → reach o w msg → 0 <= count →
  blkhash_aio_completions count w = Ret (n, out) w' → h_error (sh w') = 0 →
  n = zlen out ∧ n <= count ∧ inflight (hs w') = inflight (hs w) - n.
Proof using DL.
  intros Hv Hr Hcount Hrun He. destruct (reach_api _ _ _ Hv Hr) as (G & Ha & _).
  pose proof (blkhash_aio_completions_inv True _ (any_nf _) G msg w count Ha Hcount) as Hw.
  destruct (wp_run _ _ _ _ _ _ Hw Hrun) as (_ & [[_ Hf]|(_ & Hn & Hc & Hin)] & _); [done|].
  simpl in *. rewrite Hn. split_and!; lia.
Qed.
End theorems.

(** ** Witnesses *)

Lemma demo_calls : valid_calls Demo.mem0 Demo.calls.
Proof. split; [apply Demo.calls_valid|vm_compute; reflexivity]. Qed.

Lemma demo_aio_calls : valid_calls Demo.mem0 Demo.aio_calls.
Proof. split; [apply Demo.aio_calls_valid|vm_compute; reflexivity]. Qed.

Lemma session_total_witness :
  ∃ r (w' : Demo.world), session (EV := Demo.env) Demo.opts Demo.calls (fresh_world Demo.mem0) =
    Ret (0, r, (0, digest_of Demo.opts (total_bytes Demo.mem0 Demo.calls))) w' ∧
    r = map (λ x, (x, 0)) Demo.calls.
Proof.
  apply (session_total (EV := Demo.env) Demo.opts Demo.mem0 Demo.calls);
    [apply Demo.opts_valid|apply demo_calls|reflexivity|by apply Demo.live_opts].
Defined.

Lemma session_sound_witness :
  ∃ md, md = blkhash_spec (hash (o_digest_name Demo.opts)) (o_block_size Demo.opts)
    (total_bytes Demo.mem0 Demo.calls) ∧ zlen md = 4.
Proof.
  eexists. split; [|].
  - eapply (session_sound (EV := Demo.env2) Demo.opts Demo.mem0 Demo.calls);
      [apply Demo.opts_valid|apply demo_calls|reflexivity|vm_compute; reflexivity|repeat constructor].
  - vm_compute. reflexivity.
Defined.

Lemma async_sound_witness :
  ∃ md r, (md = digest_of Demo.aio_opts (message Demo.mem0 r) ∧ r.*1 = Demo.aio_calls) ∧ zlen md = 4.
Proof.
  eexists _, _. split.
  - eapply (async_sound (EV := Demo.env) Demo.aio_opts Demo.mem0 Demo.aio_calls);
      [apply Demo.aio_opts_valid|apply demo_aio_calls|vm_compute; reflexivity|vm_compute; reflexivity].
  - vm_compute. reflexivity.
Defined.

Lemma async_total_witness :
  ∃ r (w' : Demo.world), session (EV := Demo.env) Demo.aio_opts Demo.aio_calls (fresh_world Demo.mem0) =
    Ret (0, r, (0, digest_of Demo.aio_opts (message Demo.mem0 r))) w' ∧ r.*1 = Demo.aio_calls ∧
    h_error (sh w') = 0.
Proof.
  apply (async_total (EV := Demo.env) Demo.aio_opts Demo.mem0 Demo.aio_calls);
    [apply Demo.aio_opts_valid|apply demo_aio_calls|by apply Demo.live_opts].
Defined.

(** A schedule in which no worker ever runs: the wait for the first submission
    does not end. *)
Definition idle_env : Env := {| fault _ := 0; wake n := n; sched _ := []; spins := 3; |}.

Lemma calls_never_crash_witness :
  let w0 := Demo.state_of (blkhash_init (EV := idle_env) Demo.opts) (fresh_world Demo.mem0) in
  ∃ k, finish (EV := idle_env) [CUpdate (DUser 0 0) 40] w0 = Crash k ∧ k = CNoFuel.
Proof.
  intros w0. eexists. split; [vm_compute; reflexivity|].
  apply (calls_never_crash (EV := idle_env) Demo.opts Demo.mem0 [CUpdate (DUser 0 0) 40] w0);
    [apply Demo.opts_valid|split; [repeat constructor; by eexists|vm_compute; reflexivity]|
     vm_compute; reflexivity|vm_compute; reflexivity].
Defined.

Lemma matches_reference_witness :
  ∃ r (w' : Demo.world), session (EV := Demo.env2) Demo.opts Demo.calls (fresh_world Demo.mem0) =
    Ret (0, r, (0, Py.checksum (hash "sha256") 16 [total_bytes Demo.mem0 Demo.calls])) w'.
Proof.
  apply (matches_reference (EV := Demo.env2) Demo.opts Demo.mem0 Demo.calls [total_bytes Demo.mem0 Demo.calls]);
    [apply Demo.opts_valid|apply demo_calls|reflexivity|apply Demo.live_opts2|vm_compute; reflexivity].
Defined.

(** A client that reuses its buffer between two updates. *)
Definition reused : Demo.world :=
  World (with_mem {[ 0%nat := replicate 40 Byte.x05 ]} (sh Demo.updated)) (hs Demo.updated).

Lemma reach_digest_witness :
  ∃ md, md = digest_of Demo.opts (Demo.buffer0 ++ replicate 8 Byte.x05) ∧ zlen md = 4.
Proof.
  eexists. split.
  - eapply (reach_digest (EV := Demo.env) Demo.opts
      (Demo.state_of (run_call (EV := Demo.env) (CUpdate (DUser 0 3) 8)) reused));
      [apply Demo.opts_valid| |vm_compute; reflexivity|vm_compute; reflexivity].
    eapply (reach_call (EV := Demo.env) _ reused Demo.buffer0 (CUpdate (DUser 0 3) 8) _ 0);
      [apply reach_buffers; [apply Demo.updated_reach|vm_compute; reflexivity]|vm_compute; reflexivity..].
  - vm_compute. reflexivity.
Defined.

Lemma queues_bounded_witness :
  let w := Demo.aio_updated in
  inflight (hs w) = 1 ∧
  0 <= cq_count (cq (sh w)) <= inflight (hs w) ∧ inflight (hs w) <= 4 ∧
  zlen (cq_array (cq (sh w))) = 4 ∧ 0 <= r_len (sq (hs w)) <= 32 ∧
  0 <= r_len (p_queue (pool (sh w))) <= 32 ∧ 0 <= b_len (pending (hs w)) <= 16.
Proof.
  split; [vm_compute; reflexivity|].
  apply (queues_bounded (EV := Demo.env) Demo.aio_opts Demo.aio_updated Demo.buffer0);
    [apply Demo.aio_opts_valid|apply Demo.aio_updated_reach].
Defined.

Lemma errors_sticky_witness :
  let w' := Demo.state_of (run_call (EV := Demo.failing 22) (CZero 5)) Demo.broken in
  ENOMEM = h_error (sh Demo.broken) ∧ hs w' = hs Demo.broken ∧ h_error (sh w') = h_error (sh Demo.broken).
Proof.
  apply (errors_sticky (EV := Demo.failing 22) Demo.opts Demo.broken _ [] (CZero 5));
    [apply Demo.opts_valid|apply Demo.broken_reach|vm_compute; congruence|exact I|vm_compute; reflexivity].
Defined.

Lemma final_twice_witness :
  ∃ (r : Z * list byte) (w2 : Demo.world), r = (EINVAL, []) ∧ hs w2 = hs (Demo.state_of (blkhash_final (EV := Demo.env)) Demo.updated).
Proof.
  eexists _, _.
  eapply (final_twice (EV := Demo.env) Demo.opts Demo.updated _ _ Demo.buffer0);
    [apply Demo.opts_valid|apply Demo.updated_reach|vm_compute; reflexivity|vm_compute; reflexivity].
Defined.

Lemma inflight_accounting_witness :
  ∃ rc (w' : Demo.world), rc = 0 ∧ ((rc = 0 ∧ inflight (hs w') = inflight (hs Demo.aio_updated) + 1) ∨
  (rc = EAGAIN ∧ inflight (hs w') = inflight (hs Demo.aio_updated) ∧
    inflight (hs Demo.aio_updated) = o_queue_depth Demo.aio_opts) ∨
  (rc ≠ 0 ∧ h_error (sh w') ≠ 0)).
Proof.
  eexists _, (Demo.state_of (blkhash_aio_update (EV := Demo.env) (DUser 0 16) 24 2) Demo.aio_updated).
  split; [reflexivity|].
  apply (inflight_accounting (EV := Demo.env) Demo.aio_opts Demo.aio_updated _ Demo.buffer0 (DUser 0 16) 24 2
    (zdrop 16 Demo.buffer0));
    [apply Demo.aio_opts_valid|apply Demo.aio_updated_reach|vm_compute; reflexivity..].
Defined.

(** Polls until the first update is complete. *)
Definition polled : Demo.world :=
  Demo.state_of (run_call (EV := Demo.env) (CAioCompletions 0)) Demo.aio_updated.

Lemma completions_accounting_witness :
  ∃ n (out : list blkhash_completion) (w' : Demo.world), n = zlen out ∧ n <= 8 ∧
    inflight (hs w') = inflight (hs polled) - n.
Proof.
  eexists _, _, _.
  eapply (completions_accounting (EV := Demo.env) Demo.aio_opts polled _ (Demo.buffer0 ++ []));
    [apply Demo.aio_opts_valid| |vm_compute; congruence|vm_compute; reflexivity|vm_compute; reflexivity].
  eapply (reach_call (EV := Demo.env) _ Demo.aio_updated Demo.buffer0 (CAioCompletions 0) [] 0);
    [apply Demo.aio_updated_reach|vm_compute; reflexivity..].
Defined.
