(* ===== verification/Types.v ===== *)
(** * The fields keep their types

    The model keeps the fields of the C structs as integers and writes wrap-around
    out where the code computes.  In every reachable state of a hash without error the
    counters, lengths and indices of the hash, its configuration, its queues and its
    submissions are values of their C types, so that no store truncates. *)

From stdpp Require Import prelude list strings gmap.
From Stdlib Require Import ZArith Lia.
From S2P Require Import Prelude Ring State Digest Zero Event Completion Submission Config HashPool.
From S2P Require Import Blkhash PoolInv PoolStep Progress Spec PoolCaller PoolAio BlkhashInv BlkhashOps.
From S2P Require Import BlkhashUpdate Api ApiAio Init Session Reach Account AccountApi Client Demo.

Local Open Scope Z_scope.

Definition uint32 (z : Z) : Prop := 0 <= z < 2 ^ 32.
Definition uint64 (z : Z) : Prop := 0 <= z < 2 ^ 64.
Definition int64 (z : Z) : Prop := - 2 ^ 63 <= z < 2 ^ 63.

(** The indices of a ring are inside its array. *)
Record ring_typed {A} (r : ring A) : Prop := {
  rt_size : uint32 (r_size r) ∧ zlen (r_array r) = r_size r;
  rt_len : 0 <= r_len r <= r_size r;
  rt_head : 0 <= r_head r < r_size r;
  rt_tail : 0 <= r_tail r < r_size r;
}.

(** [struct config]: [block_size] is a [uint32_t], the others are [unsigned], and the
    digest of a zero block fits in its array. *)
Record config_typed (c : config) : Prop := {
  ct_zero_md : zlen (zero_md c) <= BLKHASH_MAX_MD_SIZE;
  ct_block_size : uint32 (block_size c);
  ct_md_len : uint32 (md_len c);
  ct_workers : uint32 (workers c);
  ct_depth : uint32 (queue_depth c);
  ct_max : uint32 (max_submissions c);
}.

(** [int64_t index] and [uint32_t len] of [struct submission]. *)
Record submission_typed (sub : submission) : Prop := {
  st_index : int64 (sub_index sub);
  st_len : uint32 (sub_len sub);
}.

(** [struct blkhash] with what it points to: the configuration, the queues, the pool,
    the submissions and the completions. *)
Record hash_typed {D} (w : world D) : Prop := {
  ht_config : config_typed (cfg (sh w));
  ht_sq : ring_typed (sq (hs w));
  ht_queue : ring_typed (p_queue (pool (sh w)));
  ht_pool : 0 <= workers_idle (pool (sh w)) <= workers_count (pool (sh w)) ∧ uint32 (workers_count (pool (sh w)));
  ht_cq : uint32 (cq_count (cq (sh w)));
  ht_subs : ∀ id sub, subs (sh w) !! id = Some sub → submission_typed sub;
  ht_refs : ∀ id c, comps (sh w) !! id = Some c → uint32 (c_refs c);
  ht_pending : uint64 (b_len (pending (hs w))) ∧ b_len (pending (hs w)) <= zlen (b_data (pending (hs w)));
  ht_indices : 0 <= hashed_index (hs w) <= block_index (hs w) ∧ int64 (block_index (hs w));
  ht_length : uint64 (message_length (hs w));
  ht_inflight : uint32 (inflight (hs w));
}.

Section types.
Context {D : Type} `{DO : !DigestOps D, DL : !DigestLaws D, EV : !Env}.

Lemma ring_repr_typed {A} (r : ring A) l : ring_repr r l → ring_typed r.
Proof.
  intros [Hs Ha Hl Hf Hh Ht _]. pose proof (zlen_nonneg l). split; unfold uint32; [by split; [lia|]|lia|lia|].
  rewrite Ht. apply Z.mod_pos_bound. lia.
Qed.

(** If there are as many keys as the elements of a list of some of them, they are all in
    the list. *)
Lemma keys_listed {A} (m : gmap nat A) (l : list nat) :
  NoDup l → (∀ i, i ∈ l → is_Some (m !! i)) → size m = length l → ∀ i, is_Some (m !! i) → i ∈ l.
Proof using Type.
  intros Hnd Hl Hs i Hi. rewrite <-elem_of_dom in Hi. rewrite <-size_dom in Hs.
  assert (list_to_set l ⊆ dom m) as Hsub.
  { intros j Hj%elem_of_list_to_set. by apply elem_of_dom, Hl. }
  apply (elem_of_list_to_set (C := gset nat)). rewrite (set_subseteq_size_eq _ _ Hsub); [done|].
  rewrite (size_list_to_set (C := gset nat) l) by done. lia.
Qed.

Lemma ordered_from h Q n a : ordered h Q n → a ∈ Q → h <= ablk_index a.
Proof using Type.
  revert h. induction Q as [|[i b|i] Q IH]; intros h Ho Ha; [by apply elem_of_nil in Ha| |]; destruct Ho as [Hh Ho];
    apply elem_of_cons in Ha as [->|Ha]; simpl; try done; specialize (IH _ Ho Ha); lia.
Qed.

Lemma tracked_elem id ids (Q : list ablk) : length ids = length Q → id ∈ ids → is_Some (tracked ids Q !! id).
Proof using Type.
  intros Hl Hid. destruct (tracked ids Q !! id) eqn:E; [by eexists|]. by destruct (tracked_Some id ids Q Hl E).
Qed.

Lemma tracked_in id ids (Q : list ablk) a : tracked ids Q !! id = Some a → a ∈ Q.
Proof using Type. intros Ha%elem_of_list_to_map_2. by apply elem_of_zip_r in Ha. Qed.

(** The submissions that exist are those in the queue. *)
Lemma subs_typed o (w : world D) msg ids Q :
  valid_opts o → reach o w msg → h_error (sh w) = 0 → core (config_for o) None ids Q w →
  0 <= hashed_index (hs w) → ordered (hashed_index (hs w)) Q (block_index (hs w)) →
  ∀ id sub, subs (sh w) !! id = Some sub → submission_typed sub.
Proof using DL.
  intros Hv Hr He Hk Hh Hord id sub Hsub. destruct (reach_client _ _ _ Hr) as [a Hcl].
  destruct (client_agrees _ _ _ Hv Hcl) as (l & [CL [[Ht _] _]] & _).
  destruct (k_shared _ _ _ _ _ Hk) as [q HI]. pose proof (si_subs _ _ _ _ _ _ HI) as HS.
  assert (id ∈ ids) as Hid.
  { apply (keys_listed (subs (sh w))); [apply Hk| |pose proof (td_subs _ _ _ _ Ht He) as Hn|by eexists].
    - intros i Hi. destruct (tracked_elem i ids Q) as [b Hb]; [apply Hk|done..|].
      destruct (su_tracked _ _ _ _ _ _ HS i b Hb) as (s & Hs & _). by eexists.
    - rewrite (rr_len _ _ (k_ring _ _ _ _ _ Hk)) in Hn. unfold zlen in Hn. lia. }
  destruct (tracked_elem id ids Q) as [b Hb]; [apply Hk|done..|].
  destruct (su_tracked _ _ _ _ _ _ HS id b Hb) as (s & Hs & Hi & _).
  assert (s = sub) as -> by congruence. assert (b ∈ Q) as HbQ by (by eapply tracked_in).
  pose proof (ordered_from _ _ _ _ Hord HbQ). pose proof (k_index _ _ _ _ _ Hk) as Hix. rewrite Forall_forall in Hix.
  specialize (Hix b HbQ). assert (sub_index sub = ablk_index b) as Eq by (destruct b; by destruct Hi).
  split; [unfold int64; rewrite Eq; lia|by apply (td_len _ _ _ _ Ht id)].
Qed.

(** C20: type safety of the state.  In every state of a hash without error that valid
    calls, worker threads and the client can reach, these fields are in the range of their
    C types: the sizes and counts of the configuration ([block_size] and [md_len]
    included), the indices and lengths of the submission queue and of the work queue,
    which are inside their arrays, the worker counts, the number of completions, their
    reference counts, the index and the length of every submission that exists, the
    pending length, which is inside its buffer, the block indices, the message length and
    the updates in flight.  No store of one of them truncated its value. *)
Theorem fields_typed o (w : world D) msg :
  valid_opts o → reach o w msg → h_error (sh w) = 0 → hash_typed w.
Proof using DL.
  intros Hv Hr He. destruct (reach_api _ _ _ Hv Hr) as (G & (B & (ids & Q & Hk & Hfn) & Hm & _) & HG).
  specialize (HG He). destruct Hfn as [?|Hfn]; [done|]. destruct Hm as [?|(_ & Hlen & Hmax)]; [done|].
  destruct (k_shared _ _ _ _ _ Hk) as [q HI]. pose proof (k_cfg _ _ _ _ _ Hk) as Hc.
  destruct (si_cfg _ _ _ _ _ _ HI) as [Hbs Hmd Hzm Hw Hmx Hqd]. rewrite Hc in *.
  assert (0 <= hashed_index (hs w) <= block_index (hs w) ∧ block_index (hs w) <= 2 ^ 62 ∧
    ordered (hashed_index (hs w)) Q (block_index (hs w))) as (Hidx & Hsmall & Hord).
  { destruct Hfn as [(done & (d & _ & _ & Hh) & _) Hord Hsmall _]. pose proof (zlen_nonneg done).
    pose proof (ordered_le _ _ _ Hord). split_and!; done || lia. }
  pose proof (ti_ring _ _ _ _ _ (si_threads _ _ _ _ _ _ HI)) as Hq.
  destruct (si_cq _ _ _ _ _ _ HI) as [Hn Hb Hin Hal _]. rewrite Hc in *.
  pose proof (zlen_nonneg msg). split; unfold uint32, uint64, int64.
  - pose proof (hash_size (digest_name (config_for o)) (zeros (block_size (config_for o)))) as Hz.
    rewrite <-Hzm, <-Hmd in Hz. pose proof (md_size_max (digest_name (config_for o))). pose proof (zlen_nonneg (zero_md (config_for o))).
    rewrite Hc. split; unfold uint32, BLKHASH_MAX_MD_SIZE; lia.
  - eapply ring_repr_typed, Hk.
  - by eapply ring_repr_typed.
  - rewrite (ti_idle _ _ _ _ _ (si_threads _ _ _ _ _ _ HI)), (ti_count _ _ _ _ _ (si_threads _ _ _ _ _ _ HI)).
    pose proof (ti_few _ _ _ _ _ (si_threads _ _ _ _ _ _ HI)) as Hfew. rewrite Hc in Hfew. unfold zlen in *.
    pose proof (idle_count_le (threads (sh w))). lia.
  - lia.
  - eapply subs_typed; [done..|lia|done].
  - intros id comp Hcomp. destruct (ci_refs _ _ _ _ _ _ (si_comps _ _ _ _ _ _ HI) id comp Hcomp). lia.
  - pose proof (k_pending_len _ _ _ _ _ Hk). rewrite (k_pending _ _ _ _ _ Hk). lia.
  - lia.
  - lia.
  - lia.
Qed.
End types.

Lemma fields_typed_witness : hash_typed Demo.aio_updated ∧ inflight (hs Demo.aio_updated) = 1.
Proof.
  split; [|vm_compute; reflexivity].
  apply (fields_typed (EV := Demo.env) Demo.aio_opts Demo.aio_updated Demo.buffer0);
    [apply Demo.aio_opts_valid|apply Demo.aio_updated_reach|vm_compute; reflexivity].
Defined.
