(* ===== verification/Findings.v ===== *)
(** * Executions that deviate from the documentation

    Runs of the model, in the concrete environments of [Demo], that show where
    the code does something else than the header or its own intent says. *)

From stdpp Require Import prelude list strings gmap.
From Stdlib Require Import ZArith Lia.
From S2P Require Import Prelude Ring State Digest Config HashPool Blkhash Spec Init Session Demo Theorems.

Local Open Scope Z_scope.

(** What an execution returns, without its final state. *)
Definition returns {St A} (x : outcome St A) : A + crash :=
  match x with Ret a _ => inl a | Crash k => inr k end.

(** The allocation of the first block fails and all calls return ENOMEM, as
    documented; [blkhash_final] then returns 0 with a digest that is not the one
    of the data. *)
Example final_after_error :
  match returns (session (D := Toy.digest) (EV := Demo.failing 22) Demo.opts Demo.calls (fresh_world Demo.mem0)) with
  | inl (0, r, (0, md)) => r.*2 = [ENOMEM; ENOMEM; ENOMEM] ∧
      md ≠ digest_of Demo.opts (total_bytes Demo.mem0 Demo.calls)
  | _ => False
  end.
Proof. vm_compute. split; [reflexivity|congruence]. Qed.

(** Freeing a hash with a submission in flight destroys the submission while the
    work queue still refers to it. *)
Example free_in_flight : returns (blkhash_free (EV := Demo.env) Demo.updated) = inr CMemory.
Proof. vm_compute. reflexivity. Qed.

(** After [blkhash_final] the same call is fine and stops all workers. *)
Example freed_after_final :
  let w := Demo.state_of (blkhash_free (EV := Demo.env))
    (Demo.state_of (blkhash_final (EV := Demo.env)) Demo.updated) in
  returns (blkhash_free (EV := Demo.env) (Demo.state_of (blkhash_final (EV := Demo.env)) Demo.updated)) = inl tt ∧
  threads (sh w) = [WExit; WExit] ∧ p_queue_mem (pool (sh w)) = CFreed.
Proof. vm_compute. auto. Qed.

(** [hash_pool_init] fails to allocate the workers and frees the queue, which
    [blkhash_new_opts] frees again in its error path. *)
Example new_double_free :
  returns (blkhash_new_opts (D := Toy.digest) (EV := Demo.failing 8) Demo.opts (fresh_world Demo.mem0)) = inr CMemory.
Proof. vm_compute. reflexivity. Qed.

(** A worker that cannot create its digest reports a negative errno, which the
    update returns. *)
Example worker_error_negative :
  returns ((rc ← blkhash_init (EV := Demo.failing 11) Demo.opts; r ← run_calls (EV := Demo.failing 11) Demo.calls;
            mret (rc, r.*2)) (fresh_world (D := Toy.digest) Demo.mem0)) = inl (0, [- ENOMEM; - ENOMEM; - ENOMEM]).
Proof. vm_compute. reflexivity. Qed.

(** Block sizes that the setter accepts and the hash cannot use. *)
Definition with_block_size (bs : Z) (l : list call) :=
  let '(rc, o) := blkhash_opts_set_block_size (Opts "sha256" 16 0 2) bs in
  (rc, returns (session (D := Toy.digest) (EV := Demo.env) o l (fresh_world Demo.mem0))).

Example block_size_unusable :
  with_block_size 0 [CZero 4] = (0, inr CDivZero) ∧
  with_block_size 0 [CUpdate (DUser 0 0) 4] = (0, inr CAssert) ∧
  with_block_size 8 [CUpdate (DUser 0 0) 9] = (0, inr CAssert).
Proof. vm_compute. auto. Qed.

(** Without a queue depth an async update is refused with EAGAIN. *)
Example aio_without_queue :
  returns (blkhash_aio_update (EV := Demo.env) (DUser 0 0) 40 1 Demo.new) = inl EAGAIN ∧
  returns (blkhash_aio_completion_fd Demo.new) = inl (- ENOTSUP).
Proof. vm_compute. auto. Qed.
