(* ===== verification/Src.v ===== *)
(** * Image sources (bin/src.h, bin/nbd-src.c, bin/file-src.c)

    A source tells which parts of an image are data and which read as zeros, and
    reads data.  libnbd is a parameter: what the server replies to a block status
    request is an argument of [nbd_ops_extents].  [describes] is the contract
    between a source and the worker of blksum: the extents are contiguous from an
    offset, within the image, and an extent marked as zero reads as zeros. *)

From stdpp Require Import prelude list strings.
From Stdlib Require Import ZArith Lia.
From S2P Require Import Prelude.

Local Open Scope Z_scope.

(** ** Data *)

Record extent := Extent { e_length : Z; e_zero : bool }.

(** [struct extent_request]; the array behind the pointer has a fixed number of
    slots. *)
Record extent_request := ExtentRequest {
  r_extents : list extent;
  r_count : Z;
  r_completed : bool;
}.

Definition LIBNBD_STATE_ZERO := 2.
Definition LIBNBD_CONTEXT_BASE_ALLOCATION : string := "base:allocation".

(** A call of the extent callback: the meta context, the entries and the
    error. *)
Record reply := Reply { rp_context : string; rp_entries : list Z; rp_error : Z }.

(** ** nbd-src.c *)

(** The loop of [extent_callback], from entry [i]. *)
Fixpoint fill_extents (n : nat) (i : nat) (entries : list Z) : M extent_request unit :=
  match n with
  | O => mret tt
  | S n' =>
      length ← derefM (entries !! (i * 2)%nat);
      flags ← derefM (entries !! (i * 2 + 1)%nat);
      r ← get;
      (if (i <? List.length (r_extents r))%nat then mret tt else crashM CMemory);;
      modify (λ r, ExtentRequest
        (<[i := Extent length (fails (Z.land flags LIBNBD_STATE_ZERO))]> (r_extents r))
        (r_count r) (r_completed r));;
      fill_extents n' (S i) entries
  end.

Definition extent_callback (p : reply) : M extent_request Z :=
  r ← get;
  let count := Z.min (zlen (rp_entries p) / 2) (r_count r) in
  if negb (String.eqb (rp_context p) LIBNBD_CONTEXT_BASE_ALLOCATION) then mret 0
  else if fails (rp_error p) then mret 0
  else
    fill_extents (Z.to_nat count) 0 (rp_entries p);;
    modify (λ r, ExtentRequest (r_extents r) count true);;
    mret 0.

(** [nbd_block_status]: the library calls the callback for each reply. *)
Fixpoint callbacks (l : list reply) : M extent_request unit :=
  match l with [] => mret tt | p :: l' => extent_callback p;; callbacks l' end.

(** What the library does for one request: its return code and the replies it
    passes to the callback. *)
Record block_status := BlockStatus { bs_rc : Z; bs_replies : list reply }.

(** The state of a source that its operations change, with the array and the
    count that the caller passes. *)
Record src := Src { can_extents : bool; s_extents : list extent; s_count : Z }.

Definition nbd_ops_extents (b : block_status) : M src Z :=
  s ← get;
  if negb (can_extents s) then mret (-1)
  else
    match callbacks (bs_replies b) (ExtentRequest (s_extents s) (s_count s) false) with
    | Crash k => crashM k
    | Ret _ r =>
        modify (λ s, Src (can_extents s) (r_extents r) (s_count s));;
        if fails (bs_rc b) then
          modify (λ s, Src false (s_extents s) (s_count s));; mret (-1)
        else if negb (r_completed r) then mret (-1)
        else modify (λ s, Src (can_extents s) (s_extents s) (r_count r));; mret 0
    end.

(** ** src.h *)

Definition src_extents (b : block_status) (length : Z) : M src unit :=
  s ← get;
  rc ← (if can_extents s then nbd_ops_extents b else mret (-1));
  if rc =? 0 then mret tt
  else
    s ← get;
    (if (0 <? List.length (s_extents s))%nat then mret tt else crashM CMemory);;
    modify (λ s, Src (can_extents s) (<[0%nat := Extent (u32 length) false]> (s_extents s)) 1).

(** ** file-src.c and pipe-src.c

    The kernel is a parameter: the result of the n-th [pread] or [read] call. *)

Inductive io := IoData (bytes : list byte) | IoError (errno : Z).

(** The bytes stored in the buffer, or the errno that ends the program. *)
Fixpoint file_ops_pread (fuel : nat) (pread : nat → Z → Z → io) (t : nat) (len offset : Z)
    (buf : list byte) : option (list byte + Z) :=
  match fuel with
  | O => None
  | S fuel' =>
      if zlen buf <? len then
        match pread t (len - zlen buf) (offset + zlen buf) with
        | IoError e =>
            if e =? EINTR then file_ops_pread fuel' pread (S t) len offset buf
            else Some (inr e)
        | IoData b => file_ops_pread fuel' pread (S t) len offset (buf ++ b)
        end
      else Some (inl buf)
  end.

(** ** The contract of extents *)

(** [len] bytes of an image at an offset. *)
Definition slice (img : list byte) (off len : Z) : list byte := ztake len (zdrop off img).

Fixpoint describes (img : list byte) (off : Z) (l : list extent) : Prop :=
  match l with
  | [] => True
  | e :: l' =>
      0 < e_length e < 2 ^ 32 ∧ off + e_length e <= zlen img ∧
      (e_zero e = true → slice img off (e_length e) = zeros (e_length e)) ∧
      describes img (off + e_length e) l'
  end.

Lemma describes_take img off l n : describes img off l → describes img off (take n l).
Proof.
  revert off n. induction l as [|e l IH]; intros off [|n]; simpl; try done.
  intros (? & ? & ? & ?). auto.
Qed.

(** The entries of a reply as extents. *)
Fixpoint entry_extents (l : list Z) : list extent :=
  match l with
  | length :: flags :: l' => Extent length (fails (Z.land flags LIBNBD_STATE_ZERO)) :: entry_extents l'
  | _ => []
  end.

Lemma entry_extents_length l : zlen (entry_extents l) = zlen l / 2.
Proof.
  revert l. fix IH 1. intros [|a [|b l]]; [done|done|]. simpl entry_extents.
  rewrite zlen_cons, IH, !zlen_cons.
  replace (1 + (1 + zlen l)) with (zlen l + 1 * 2) by lia. rewrite Z.div_add by lia. lia.
Qed.

Lemma entry_extents_lookup l i e :
  entry_extents l !! i = Some e →
  ∃ flags, l !! (i * 2)%nat = Some (e_length e) ∧ l !! (i * 2 + 1)%nat = Some flags ∧
    e_zero e = fails (Z.land flags LIBNBD_STATE_ZERO).
Proof.
  revert l. induction i as [|i IH]; intros [|a [|b l]] He; simpl in He; try done.
  - simplify_eq. by exists b.
  - destruct (IH l He) as (f & ? & ? & ?). exists f. simpl. auto.
Qed.

(** ** The extents that reach the caller *)

(** The loop copies the entries from [i] on. *)
Lemma fill_extents_spec n i entries r :
  (i + n ≤ length (entry_extents entries))%nat → (i + n ≤ length (r_extents r))%nat →
  ∃ r', fill_extents n i entries r = Ret tt r' ∧ r_count r' = r_count r ∧ r_completed r' = r_completed r ∧
    r_extents r' = take i (r_extents r) ++ take n (drop i (entry_extents entries)) ++ drop (i + n) (r_extents r).
Proof.
  revert i r. induction n as [|n IH]; intros i r He Hr.
  { exists r. simpl. rewrite Nat.add_0_r, take_drop. done. }
  destruct (lookup_lt_is_Some_2 (entry_extents entries) i ltac:(lia)) as [[len z] Hi].
  destruct (entry_extents_lookup _ _ _ Hi) as (flags & Hl & Hf & Hz). simpl in Hl, Hz.
  simpl fill_extents. unfold mbind, M_bind, derefM. rewrite Hl, Hf. simpl. unfold get.
  destruct (Nat.ltb_spec i (length (r_extents r))); [|lia]. simpl. rewrite <-Hz.
  destruct (IH (S i) (ExtentRequest (<[i := Extent len z]> (r_extents r)) (r_count r) (r_completed r)))
    as (r' & Hrun & Hc & Hd & Hx); simpl; [lia|rewrite length_insert; lia|].
  exists r'. split_and!; [done..|]. rewrite Hx. simpl.
  rewrite (drop_S _ _ _ Hi). simpl. rewrite drop_insert_lt by lia.
  replace (S (i + n)) with (i + S n)%nat by lia.
  rewrite (take_S_r _ i (Extent len z)) by (by apply list_lookup_insert_eq).
  rewrite take_insert_ge, <-app_assoc by lia. done.
Qed.

(** A reply that the callback does not ignore. *)
Definition accepted (p : reply) : bool :=
  String.eqb (rp_context p) LIBNBD_CONTEXT_BASE_ALLOCATION && (rp_error p =? 0).

(** The state of a request: the array keeps its size, the count stays in range,
    and once completed the counted extents are the first ones that a reply
    listed. *)
Record request_ok (size : nat) (count0 : Z) (l : list reply) (r : extent_request) : Prop := {
  rq_size : length (r_extents r) = size;
  rq_count : 1 <= r_count r <= count0;
  rq_done : r_completed r = true → ∃ p, p ∈ l ∧ accepted p = true ∧
    take (Z.to_nat (r_count r)) (r_extents r) = take (Z.to_nat (r_count r)) (entry_extents (rp_entries p));
}.

Lemma extent_callback_ok size count0 l p r :
  request_ok size count0 l r → count0 <= Z.of_nat size →
  (accepted p = true → 2 <= zlen (rp_entries p)) →
  ∃ r', extent_callback p r = Ret 0 r' ∧ request_ok size count0 (p :: l) r'.
Proof.
  intros [Hs Hc Hd] Hsz Hp. unfold extent_callback, mbind, M_bind, get, fails, accepted in *.
  assert (request_ok size count0 (p :: l) r) as Hsame.
  { split; [done..|]. intros Hr. destruct (Hd Hr) as (p' & ? & ? & ?). exists p'. split_and!; [by right|done..]. }
  destruct (String.eqb _ _) eqn:Hctx; simpl in *; [|eauto].
  destruct (rp_error p =? 0) eqn:He; simpl in *; [|eauto]. specialize (Hp eq_refl).
  assert (1 <= zlen (rp_entries p) / 2) as Hn by (apply Z.div_le_lower_bound; lia).
  pose proof (entry_extents_length (rp_entries p)) as Hel. unfold zlen in Hel at 1.
  set (n := Z.min (zlen (rp_entries p) / 2) (r_count r)).
  assert (1 <= n <= r_count r ∧ n <= zlen (rp_entries p) / 2) as [Hn1 Hn2] by lia. clearbody n.
  destruct (fill_extents_spec (Z.to_nat n) 0 (rp_entries p) r) as (r' & -> & Hc' & Hd' & Hx); [lia..|].
  eexists. split; [done|]. split; simpl.
  - rewrite Hx, take_0, drop_0, Nat.add_0_l, !length_app, length_take, length_drop. simpl. lia.
  - lia.
  - intros _. exists p. split_and!; [by left|unfold accepted; by rewrite Hctx, He|]. rewrite Hx, take_0, drop_0. simpl.
    rewrite take_app_le by (rewrite length_take; lia). by rewrite take_take, Nat.min_id.
Qed.

Lemma callbacks_ok size count0 done l r :
  request_ok size count0 done r → count0 <= Z.of_nat size →
  Forall (λ p, accepted p = true → 2 <= zlen (rp_entries p)) l →
  ∃ r', callbacks l r = Ret tt r' ∧ request_ok size count0 (reverse l ++ done) r'.
Proof.
  revert done r. induction l as [|p l IH]; intros done r Hr Hsz Hl; simpl; [eauto|].
  apply Forall_cons in Hl as [Hp Hl].
  destruct (extent_callback_ok size count0 done p r Hr Hsz Hp) as (r1 & H1 & Hr1).
  unfold mbind, M_bind. rewrite H1. destruct (IH _ _ Hr1 Hsz Hl) as (r2 & -> & Hr2).
  exists r2. split; [done|]. by rewrite reverse_cons, <-app_assoc.
Qed.

Definition truthful (img : list byte) (off : Z) (p : reply) : Prop :=
  accepted p = true → 2 <= zlen (rp_entries p) ∧ describes img off (entry_extents (rp_entries p)).

Lemma nbd_extents_truthful img off b s :
  1 <= s_count s <= zlen (s_extents s) → Forall (truthful img off) (bs_replies b) →
  ∃ rc s', nbd_ops_extents b s = Ret rc s' ∧ length (s_extents s') = length (s_extents s) ∧
    1 <= s_count s' <= s_count s ∧
    (rc = 0 → describes img off (take (Z.to_nat (s_count s')) (s_extents s'))).
Proof.
  intros Hs Ht. unfold nbd_ops_extents, mbind, M_bind, get, modify.
  destruct (can_extents s) eqn:Hce; simpl; [|eexists _, s; split_and!; done || lia].
  destruct (callbacks_ok (length (s_extents s)) (s_count s) [] (bs_replies b)
    (ExtentRequest (s_extents s) (s_count s) false)) as (r & -> & [Hsz Hc Hd]).
  { by split; simpl; [|lia|]. }
  { apply Hs. }
  { eapply Forall_impl; [done|]. intros p Hp Ha. by apply Hp. }
  destruct (fails (bs_rc b)); [eexists _, _; split; [done|]; simpl; split_and!; done || lia|].
  destruct (r_completed r) eqn:Hr; simpl; eexists _, _; (split; [done|]); simpl; split_and!; try done; try lia.
  intros _. destruct (Hd eq_refl) as (p & Hin & Ha & Hx). rewrite Hx.
  rewrite app_nil_r, elem_of_reverse in Hin. rewrite Forall_forall in Ht.
  apply describes_take. by apply (Ht p).
Qed.

(** C37: extents never lie.  Whatever the NBD server replies, as long as the
    extents it reports describe the image: after [src_extents] (the NBD callback
    with its limit on the number of extents, an ignored or failed request, or the
    fallback to one data extent) the array holds between one and [count] extents
    that are contiguous from the requested offset, inside the image, and marked as
    zero only where the image reads as zeros. *)
Theorem src_extents_truthful (img : list byte) (off len : Z) (b : block_status) (s : src) :
  0 <= off → 0 < len < 2 ^ 32 → off + len <= zlen img →
  1 <= s_count s <= zlen (s_extents s) → Forall (truthful img off) (bs_replies b) →
  ∃ s', src_extents b len s = Ret tt s' ∧ length (s_extents s') = length (s_extents s) ∧
    1 <= s_count s' <= s_count s ∧
    describes img off (take (Z.to_nat (s_count s')) (s_extents s')).
Proof.
  intros Ho Hl Himg Hs Ht. unfold src_extents, mbind, M_bind, get.
  assert (∃ rc s1, (if can_extents s then nbd_ops_extents b else mret (-1)) s = Ret rc s1 ∧
    length (s_extents s1) = length (s_extents s) ∧ 1 <= s_count s1 <= s_count s ∧
    (rc = 0 → describes img off (take (Z.to_nat (s_count s1)) (s_extents s1)))) as (rc & s1 & -> & Hsz & Hc & Hd).
  { destruct (can_extents s); [by apply nbd_extents_truthful|]. eexists _, s. split_and!; done || lia. }
  destruct (rc =? 0) eqn:E; [exists s1; split_and!; try done; try lia; apply Hd; lia|].
  unfold zlen in Hs. destruct (Nat.ltb_spec 0 (length (s_extents s1))); [|lia]. simpl.
  eexists. split; [done|]. simpl. rewrite length_insert. split_and!; [done|lia|lia|].
  destruct (s_extents s1) as [|e l]; [simpl in *; lia|]. simpl.
  unfold u32. rewrite Z.mod_small by lia. split_and!; done || lia.
Qed.

(** An image of 8 zero bytes and 8 data bytes, as an NBD server describes it, with
    one more meta context. *)
Definition sample_image : list byte := zeros 8 ++ replicate 8 Byte.x01.
Definition sample_status : block_status :=
  BlockStatus 0 [Reply "qemu:dirty-bitmap" [16; 1] 0; Reply "base:allocation" [8; 3; 8; 0] 0].

Lemma src_extents_truthful_witness :
  ∃ s', src_extents sample_status 16 (Src true (replicate 4 (Extent 0 false)) 4) = Ret tt s' ∧
    length (s_extents s') = 4%nat ∧ 1 <= s_count s' <= 4 ∧
    describes sample_image 0 (take (Z.to_nat (s_count s')) (s_extents s')).
Proof.
  apply (src_extents_truthful sample_image 0 16 sample_status (Src true (replicate 4 (Extent 0 false)) 4));
    [lia|lia|vm_compute; congruence|simpl; unfold zlen; simpl; lia|].
  repeat constructor; try (vm_compute; congruence); vm_compute; intros; congruence.
Defined.

(** ** Reading files *)

Lemma slice_app img off n k :
  0 <= off → 0 <= n → 0 <= k → slice img off (n + k) = slice img off n ++ slice img (off + n) k.
Proof.
  intros Ho Hn Hk. unfold slice, ztake, zdrop.
  rewrite !Z2Nat.inj_add, <-drop_drop by lia. generalize (drop (Z.to_nat off) img). intros l.
  rewrite <-(take_drop (Z.to_nat n) l) at 1. destruct (decide (Z.to_nat n ≤ length l)%nat).
  - rewrite (take_app_add' _ _ (Z.to_nat n)); [done|]. rewrite length_take. lia.
  - rewrite (drop_ge l), !app_nil_r, take_take, take_nil, app_nil_r by lia. f_equal. lia.
Qed.

Lemma zlen_slice img off n : 0 <= off → 0 <= n → off + n <= zlen img → zlen (slice img off n) = n.
Proof. intros Ho Hn Hl. unfold slice. rewrite zlen_ztake; [done|]. rewrite zlen_zdrop; lia. Qed.

(** What [pread] returns of a file, if it does not fail. *)
Definition returns_file (img : list byte) (pread : nat → Z → Z → io) : Prop :=
  ∀ t n off, 0 < n → 0 <= off → off + n <= zlen img →
    match pread t n off with IoError _ => True | IoData b => ∃ k, 0 <= k <= n ∧ b = slice img off k end.

Lemma file_pread_partial img pread fuel t len offset pos data :
  returns_file img pread → 0 <= offset → 0 <= pos <= len → offset + len <= zlen img →
  file_ops_pread fuel pread t len offset (slice img offset pos) = Some (inl data) → data = slice img offset len.
Proof.
  intros Hr Ho. revert t pos. induction fuel as [|fuel IH]; intros t pos Hp Hl; simpl; [done|].
  rewrite zlen_slice by lia. destruct (pos <? len) eqn:E.
  - specialize (Hr t (len - pos) (offset + pos) ltac:(lia) ltac:(lia) ltac:(lia)).
    destruct (pread t (len - pos) (offset + pos)) as [b|e].
    + destruct Hr as (k & Hk & ->). rewrite <-slice_app by lia. apply IH; lia.
    + destruct (e =? EINTR); [|done]. apply IH; lia.
  - intros [= <-]. f_equal. lia.
Qed.

(** What POSIX says of [pread] on a regular file: at least one byte and at most
    the number asked for, from the offset, or an interruption. *)
Definition reads_file (img : list byte) (pread : nat → Z → Z → io) : Prop :=
  ∀ t n off, 0 < n → 0 <= off → off + n <= zlen img →
    pread t n off = IoError EINTR ∨ ∃ k, 0 < k <= n ∧ pread t n off = IoData (slice img off k).

(** At most [max] of the calls are interrupted, counted by [intr]. *)
Definition few_interrupts (pread : nat → Z → Z → io) (intr : nat → nat) (max : nat) : Prop :=
  (∀ t, intr t ≤ intr (S t))%nat ∧ (∀ t, intr t ≤ max)%nat ∧
  ∀ t n off, pread t n off = IoError EINTR → (intr t < intr (S t))%nat.

Lemma file_pread_loop img pread intr max fuel t len offset pos :
  reads_file img pread → few_interrupts pread intr max →
  0 <= offset → 0 <= pos <= len → offset + len <= zlen img →
  (Z.to_nat (len - pos) + (max - intr t) < fuel)%nat →
  file_ops_pread fuel pread t len offset (slice img offset pos) = Some (inl (slice img offset len)).
Proof.
  intros Hr [Hmono [Hmax Hintr]] Ho. revert t pos. induction fuel as [|fuel IH]; intros t pos Hp Hl Hf; [lia|].
  simpl. rewrite zlen_slice by lia. destruct (pos <? len) eqn:E.
  2: { do 2 f_equal. replace pos with len by lia. done. }
  specialize (Hmono t) as Hm1. specialize (Hmax (S t)) as Hm2.
  destruct (Hr t (len - pos) (offset + pos)) as [Hi|(k & Hk & Hd)]; [lia..| |].
  - rewrite Hi. simpl. apply IH; [lia..|]. pose proof (Hintr _ _ _ Hi). lia.
  - rewrite Hd, <-slice_app by lia. apply IH; lia.
Qed.

(** Reading a file.  With any pattern of short reads and a bounded number of
    interruptions, [file_ops_pread] ends and has stored exactly the requested
    range of the file. *)
Theorem file_pread_exact (img : list byte) (pread : nat → Z → Z → io) (intr : nat → nat) (max : nat)
    (len offset : Z) :
  reads_file img pread → few_interrupts pread intr max →
  0 <= offset → 0 <= len → offset + len <= zlen img →
  file_ops_pread (S (Z.to_nat len + max)) pread 0 len offset [] = Some (inl (slice img offset len)).
Proof.
  intros Hr Hi Ho Hlen Hl. change (@nil byte) with (slice img offset 0).
  apply (file_pread_loop img pread intr max); [done..|lia|done|lia].
Qed.

(** A kernel that interrupts the first call and then returns one byte at a
    time. *)
Definition slow_pread (img : list byte) (t : nat) (n off : Z) : io :=
  if (t =? 0)%nat then IoError EINTR else IoData (slice img off 1).

Lemma file_pread_exact_witness :
  file_ops_pread 11 (slow_pread sample_image) 0 9 4 [] = Some (inl (slice sample_image 4 9)).
Proof.
  apply (file_pread_exact sample_image (slow_pread sample_image) (λ t, if (t =? 0)%nat then 0 else 1)%nat 1 9 4);
    [| |lia|lia|vm_compute; congruence].
  - intros t n off Hn Ho Hl. unfold slow_pread. destruct (t =? 0)%nat; [left; reflexivity|right].
    exists 1. split; [lia|reflexivity].
  - split_and!; intros t; [destruct t; simpl; lia|destruct t; simpl; lia|].
    intros n off. unfold slow_pread. destruct t; simpl; [lia|congruence].
Defined.

(** A file that became shorter than its size at opening time: every [pread] past
    its end returns 0 and the loop never ends. *)
Example file_pread_truncated fuel :
  file_ops_pread fuel (λ _ _ _, IoData []) 0 4096 0 [] = None.
Proof.
  generalize 0%nat. induction fuel as [|fuel IH]; intros t; [done|]. simpl. apply IH.
Qed.
