(* ===== verification/Cli.v ===== *)
(** * The command line of blksum (bin/blksum.c, bin/probe.c, bin/nbd-server.c,
      common/util.c)

    Parsing and validating options, adapting them to the image, probing the image
    format, the environment of qemu-nbd, and printing the digest.  [getopt_long],
    [strtod] and the system calls are parameters. *)

From stdpp Require Import prelude list strings.
From Stdlib Require Import ZArith QArith Lia.
From S2P Require Import Prelude.

Local Open Scope Z_scope.

(** ** common/util.c *)

Definition KiB := Z.shiftl 1 10.
Definition MiB := Z.shiftl 1 20.
Definition GiB := Z.shiftl 1 30.
Definition TiB := Z.shiftl 1 40.

(** The digits that ["%x"] prints. *)
Definition hex_digit (n : Z) : Ascii.ascii :=
  Ascii.ascii_of_N (Z.to_N (if n <? 10 then 48 + n else 87 + n)).

(** [snprintf(s, 3, "%02x", b)] *)
Definition hex_byte (b : byte) : list Ascii.ascii :=
  [hex_digit (byte_val b / 16); hex_digit (byte_val b mod 16)].

(** The characters before the terminating NUL. *)
Definition format_hex (md : list byte) : list Ascii.ascii := mjoin (hex_byte <$> md).

(** Conversion of a [double] to [int64_t]; [None] when the value does not fit,
    which is undefined. *)
Definition to_int64 (q : Q) : option Z :=
  let z := Z.quot (Qnum q) (Zpos (Qden q)) in
  if (- 2 ^ 63 <=? z) && (z <? 2 ^ 63) then Some z else None.

(** [strtod s] is the value and the text after it; the text is [s] itself when
    nothing was parsed.  Multiplying a [double] by a power of two is exact. *)
Definition parse_humansize (strtod : string → Q * string) (s : string) : option Z :=
  let '(value, rest) := strtod s in
  if Qlt_le_dec value 0 then Some (- EINVAL)
  else if String.eqb rest s then Some (- EINVAL)
  else if String.eqb rest "" then to_int64 value
  else if String.eqb rest "k" then to_int64 (value * inject_Z KiB)
  else if String.eqb rest "m" then to_int64 (value * inject_Z MiB)
  else if String.eqb rest "g" then to_int64 (value * inject_Z GiB)
  else if String.eqb rest "t" then to_int64 (value * inject_Z TiB)
  else Some (- EINVAL).

(** ** Options *)

Definition MAX_QUEUE_DEPTH := 128.
Definition MAX_THREADS := 128.
Definition USER_QUEUE_DEPTH := Z.shiftl 1 0.
Definition USER_READ_SIZE := Z.shiftl 1 1.
Definition USER_CACHE := Z.shiftl 1 2.

Record options := Options {
  digest_name : string;
  read_size : Z;
  queue_depth : Z;
  block_size : Z;
  threads : Z;
  extents_size : Z;
  aio : string;
  cache : bool;
  filename : option string;
  progress : bool;
  flags : Z;
}.

Definition default_options : options :=
  Options "sha256" (256 * KiB) 16 (64 * KiB) 4 (1 * GiB) "native" false None false 0.

(** What [getopt_long] returns for each option, with its argument. *)
Inductive opt_item :=
| OptHelp
| OptListDigests
| OptDigest (arg : string)
| OptProgress
| OptCache
| OptThreads (arg : string)
| OptQueueDepth (arg : string)
| OptReadSize (arg : string)
| OptBlockSize (arg : string)
| OptMissing
| OptUnknown.

Section parse.
Context (strtod : string → Q * string) (page_size : Z) (isatty : bool).
Abbreviation MO := (M options).

(** [int value = parse_humansize(optarg)] *)
Definition int_value (arg : string) : MO Z :=
  v ← derefM (parse_humansize strtod arg); mret (s32 v).

Definition set_digest (v : string) (o : options) : options :=
  Options v (read_size o) (queue_depth o) (block_size o) (threads o) (extents_size o) (aio o) (cache o)
    (filename o) (progress o) (flags o).
Definition set_progress (v : bool) (o : options) : options :=
  Options (digest_name o) (read_size o) (queue_depth o) (block_size o) (threads o) (extents_size o) (aio o)
    (cache o) (filename o) v (flags o).
Definition set_cache (v : bool) (fl : Z) (o : options) : options :=
  Options (digest_name o) (read_size o) (queue_depth o) (block_size o) (threads o) (extents_size o) (aio o)
    v (filename o) (progress o) (Z.lor (flags o) fl).
Definition set_threads (v : Z) (o : options) : options :=
  Options (digest_name o) (read_size o) (queue_depth o) (block_size o) (u32 v) (extents_size o) (aio o)
    (cache o) (filename o) (progress o) (flags o).
Definition set_queue_depth (v fl : Z) (o : options) : options :=
  Options (digest_name o) (read_size o) (u64 v) (block_size o) (threads o) (extents_size o) (aio o)
    (cache o) (filename o) (progress o) (Z.lor (flags o) fl).
Definition set_read_size (v fl : Z) (o : options) : options :=
  Options (digest_name o) (u64 v) (queue_depth o) (block_size o) (threads o) (extents_size o) (aio o)
    (cache o) (filename o) (progress o) (Z.lor (flags o) fl).
Definition set_block_size (v : Z) (o : options) : options :=
  Options (digest_name o) (read_size o) (queue_depth o) (u64 v) (threads o) (extents_size o) (aio o)
    (cache o) (filename o) (progress o) (flags o).
Definition set_aio (v : string) (o : options) : options :=
  Options (digest_name o) (read_size o) (queue_depth o) (block_size o) (threads o) (extents_size o) v
    (cache o) (filename o) (progress o) (flags o).
Definition set_filename (v : option string) (o : options) : options :=
  Options (digest_name o) (read_size o) (queue_depth o) (block_size o) (threads o) (extents_size o) (aio o)
    (cache o) v (progress o) (flags o).

(** One iteration of the loop of [parse_options]. *)
Definition parse_item (x : opt_item) : MO unit :=
  match x with
  | OptHelp | OptListDigests | OptMissing | OptUnknown => crashM CExit
  | OptDigest arg => modify (set_digest arg)
  | OptProgress => modify (set_progress isatty)
  | OptCache => modify (set_cache true USER_CACHE)
  | OptThreads arg =>
      value ← int_value arg;
      if (value =? - EINVAL) || (value <? 1) || (MAX_THREADS <? value) then crashM CExit
      else modify (set_threads value)
  | OptQueueDepth arg =>
      value ← int_value arg;
      if (value =? - EINVAL) || (MAX_QUEUE_DEPTH <? value) then crashM CExit
      else modify (set_queue_depth value USER_QUEUE_DEPTH)
  | OptReadSize arg =>
      value ← int_value arg;
      if value =? - EINVAL then crashM CExit
      else modify (set_read_size value USER_READ_SIZE)
  | OptBlockSize arg =>
      let page_size := if page_size =? -1 then 4 * KiB else page_size in
      value ← int_value arg;
      if value =? - EINVAL then crashM CExit
      else
        o ← get;
        if fails (block_size o mod u64 page_size) then crashM CExit
        else modify (set_block_size value)
  end.

Fixpoint parse_items (l : list opt_item) : MO unit :=
  match l with [] => mret tt | x :: l' => parse_item x;; parse_items l' end.

(** The options, then the checks that depend on several of them, then the first
    argument that is not an option. *)
Definition parse_options (items : list opt_item) (arg : option string) : MO unit :=
  parse_items items;;
  o ← get;
  (if block_size o =? 0 then crashM CDivZero else mret tt);;
  if fails (read_size o mod block_size o) then crashM CExit
  else if read_size o <? block_size o then crashM CExit
  else if arg is Some f then modify (set_filename (Some f)) else mret tt.
End parse.

(** ** bin/nbd-server.c *)

Record file_info := FileInfo { format : string; fs_name : option string }.

(** [direct]: whether the file can be opened for direct I/O. *)
Definition optimize_for_nbd_server (direct : bool) (fi : file_info) (o : options) : options :=
  if bool_decide (fs_name fi = Some "nfs"%string) then
    let o := if String.eqb (aio o) "native" then set_aio "threads" o else o in
    if String.eqb (format fi) "raw" then
      if Z.land (flags o) USER_READ_SIZE =? 0 then
        let o := set_read_size (2 * 1024 * 1024) 0 o in
        if Z.land (flags o) USER_QUEUE_DEPTH =? 0 then set_queue_depth 4 0 o else o
      else o
    else o
  else
    let o := if negb (cache o) && negb direct then set_cache true 0 o else o in
    if cache o && String.eqb (aio o) "native" then set_aio "threads" o else o.

(** [env[i + 2]] for the variables of the process, after the two for socket
    activation; [calloc] left the slots that are skipped NULL. *)
Definition is_listen (v : string) : bool :=
  String.prefix "LISTEN_PID=" v || String.prefix "LISTEN_FDS=" v.

Definition create_env (environ : list string) : list (option string) :=
  [Some "LISTEN_PID=xxxxxxxxxxxxxxxxxxxx"%string; Some "LISTEN_FDS=1"%string] ++
  ((λ v, if is_listen v then None else Some v) <$> environ) ++ [None].

(** What a program reads from an environment: up to the first NULL. *)
Fixpoint env_vars (env : list (option string)) : list string :=
  match env with Some v :: env' => v :: env_vars env' | _ => [] end.

(** ** bin/probe.c *)

(** ('Q' << 24) | ('F' << 16) | ('I' << 8) | 0xfb *)
Definition QCOW_MAGIC :=
  Z.lor (Z.lor (Z.lor (Z.shiftl 81 24) (Z.shiftl 70 16)) (Z.shiftl 73 8)) 251.

(** [sizeof(struct qcow2_header)] *)
Definition qcow2_header_size := 4 + 4 + 96.

(** [ntohl] of the 4 bytes at an offset. *)
Definition load_be32 (buf : list byte) (off : nat) : Z :=
  let at_ i := byte_val (default zero_byte (buf !! (off + i)%nat)) in
  Z.lor (Z.lor (Z.lor (Z.shiftl (at_ 0%nat) 24) (Z.shiftl (at_ 1%nat) 16)) (Z.shiftl (at_ 2%nat) 8)) (at_ 3%nat).

Definition is_qcow2 (buf : list byte) (len : Z) : bool :=
  (qcow2_header_size <=? len) && (load_be32 buf 0 =? QCOW_MAGIC) && (2 <=? load_be32 buf 4).

(** What [probe_format] stores for the bytes read. *)
Definition probe_format (buf : list byte) : string :=
  if is_qcow2 buf (zlen buf) then "qcow2" else "raw".

Definition fs_name_of (f_type : Z) : string :=
  if f_type =? 0x73727279 then "btrfs"
  else if f_type =? 0xef53 then "ext4"
  else if f_type =? 0x65735546 then "fuse"
  else if f_type =? 0x6969 then "nfs"
  else if f_type =? 0x01021994 then "tmpfs"
  else if f_type =? 0x58465342 then "xfs"
  else "other".

(** ** bin/src.c *)

Definition is_nbd_uri (s : string) : bool :=
  String.prefix "nbd://" s || String.prefix "nbd+unix:///" s.
