(* ===== verification/CliTheorems.v ===== *)
(** * Properties of the command line of blksum *)

From stdpp Require Import prelude list strings.
From Stdlib Require Import ZArith QArith Lia.
From S2P Require Import Prelude Zero Cli.

Local Open Scope Z_scope.

(** ** Options *)

(** What holds while options are parsed. *)
Record parsed (o : options) : Prop := {
  pa_threads : 1 <= threads o <= MAX_THREADS;
  pa_aio : aio o = "native"%string;
  pa_extents : extents_size o = 1 * GiB;
  pa_read : Z.land (flags o) USER_READ_SIZE = 0 → read_size o = 256 * KiB;
  pa_sizes : 0 <= read_size o ∧ 0 <= block_size o;
}.

(** What the rest of the program relies on. *)
Record consistent (o : options) : Prop := {
  ct_threads : 1 <= threads o <= MAX_THREADS;
  ct_block : 0 < block_size o;
  ct_multiple : read_size o mod block_size o = 0;
  ct_large : block_size o <= read_size o;
  ct_extents : extents_size o = 1 * GiB;
}.

Lemma default_parsed : parsed default_options.
Proof. by split. Qed.

Lemma land_lor_other f a b : Z.land a b = 0 → Z.land (Z.lor f a) b = Z.land f b.
Proof. intros Hab. by rewrite Z.land_lor_distr_l, Hab, Z.lor_0_r. Qed.

Lemma land_lor_same f : Z.land (Z.lor f USER_READ_SIZE) USER_READ_SIZE = USER_READ_SIZE.
Proof.
  apply Z.bits_inj'. intros n Hn. rewrite Z.land_spec, Z.lor_spec.
  by destruct (Z.testbit f n), (Z.testbit USER_READ_SIZE n).
Qed.

Section parse.
Context (strtod : string → Q * string) (page_size : Z) (isatty : bool).

(** Parsing exits, runs into an undefined conversion, or keeps the invariant. *)
Definition tolerated (k : crash) : Prop := k = CExit ∨ k = CMemory.

Lemma int_value_any arg (Q : Z → options → Prop) o :
  (∀ v, Q (s32 v) o) → wpc tolerated (int_value strtod arg) Q o.
Proof using Type.
  intros HQ. unfold int_value. wpc_step. unfold wpc, derefM.
  destruct (parse_humansize strtod arg) as [v|]; simpl; [apply HQ|by right].
Qed.

Lemma u64_nonneg v : 0 <= u64 v.
Proof using Type. apply Z.mod_pos_bound. lia. Qed.

Lemma parse_item_inv x o :
  parsed o → wpc tolerated (parse_item strtod page_size isatty x) (λ _, parsed) o.
Proof using Type.
  intros [Ht Ha He Hr [Hs1 Hs2]]. pose proof u64_nonneg as Hu. destruct x; simpl; try by left.
  - by split.
  - by split.
  - split; try done. simpl. by rewrite land_lor_other.
  - wpc_step. apply int_value_any. intros v. destruct (_ || _) eqn:E; [by left|]. wpc_step.
    rewrite !orb_false_iff in E. unfold MAX_THREADS in *. split; try done. simpl. unfold MAX_THREADS, u32.
    rewrite Z.mod_small; lia.
  - wpc_step. apply int_value_any. intros v. destruct (_ || _) eqn:E; [by left|]. wpc_step.
    split; try done. simpl. by rewrite land_lor_other.
  - wpc_step. apply int_value_any. intros v. destruct (_ =? _) eqn:E; [by left|]. wpc_step.
    split; try done; simpl; [by rewrite land_lor_same|auto].
  - wpc_step. apply int_value_any. intros v. destruct (_ =? _) eqn:E; [by left|]. do 2 wpc_step.
    destruct (fails _); [by left|]. wpc_step. split; simpl; auto.
Qed.

Lemma parse_items_inv l o :
  parsed o → wpc tolerated (parse_items strtod page_size isatty l) (λ _, parsed) o.
Proof using Type.
  revert o. induction l as [|x l IH]; intros o Ho; simpl; [done|]. wpc_step.
  eapply wpc_mono; [by apply parse_item_inv|]. intros [] o' Ho'. by apply IH.
Qed.

Lemma parse_options_inv l arg o :
  parsed o → wpc (λ k, tolerated k ∨ k = CDivZero) (parse_options strtod page_size isatty l arg)
    (λ _ o', parsed o' ∧ consistent o') o.
Proof using Type.
  intros Ho. unfold parse_options. wpc_step.
  assert (wpc (λ k, tolerated k ∨ k = CDivZero) (parse_items strtod page_size isatty l) (λ _, parsed) o) as Hi.
  { pose proof (parse_items_inv l o Ho) as H. unfold wpc in *. destruct (parse_items _ _ _ _ _); [done|by left]. }
  eapply wpc_mono; [done|]. intros [] o1 Ho1. do 2 wpc_step. wpc_step.
  destruct (block_size o1 =? 0) eqn:Eb; [by right|]. wpc_step. unfold fails.
  destruct (read_size o1 mod block_size o1 =? 0) eqn:Em; simpl; [|by left; left].
  destruct (read_size o1 <? block_size o1) eqn:El; [by left; left|].
  assert (consistent o1) as Hc.
  { destruct Ho1 as [? ? ? ? [? ?]]. split; try done; lia. }
  destruct arg; wpc_step; destruct Ho1, Hc; (split; split; done).
Qed.
End parse.

(** C38: options are consistent.  Whatever the options and their arguments, if
    [parse_options] returns then the number of threads is between 1 and 128 and the
    read size is a positive multiple of the block size; adapting the options to the
    image keeps this, keeps a read size and a queue depth that the user chose, and
    never combines the host cache with native async I/O. *)
Theorem options_consistent (strtod : string → Q * string) (page_size : Z) (isatty : bool)
    (items : list opt_item) (arg : option string) (o : options) (direct : bool) (fi : file_info) :
  parse_options strtod page_size isatty items arg default_options = Ret tt o →
  let o' := optimize_for_nbd_server direct fi o in
  consistent o ∧ consistent o' ∧
  (Z.land (flags o) USER_READ_SIZE ≠ 0 → read_size o' = read_size o) ∧
  (Z.land (flags o) USER_QUEUE_DEPTH ≠ 0 → queue_depth o' = queue_depth o) ∧
  digest_name o' = digest_name o ∧ block_size o' = block_size o ∧
  (cache o' = true → fs_name fi ≠ Some "nfs"%string → aio o' ≠ "native"%string) ∧
  (fs_name fi = Some "nfs"%string → aio o' ≠ "native"%string).
Proof.
  intros Hp o'. pose proof (parse_options_inv strtod page_size isatty items arg default_options default_parsed) as Hw.
  unfold wpc in Hw. rewrite Hp in Hw. destruct Hw as [[Ht Ha He Hr Hs] Hc]. split; [done|].
  destruct Hc as [_ Hb Hm Hl _]. subst o'. unfold optimize_for_nbd_server.
  destruct (bool_decide_reflect (fs_name fi = Some "nfs"%string)) as [Hn|Hn]; cbv zeta.
  - rewrite Ha. simpl String.eqb. cbv iota.
    destruct (String.eqb (format fi) "raw"); [|split_and!; try done; by split].
    destruct (Z.land (flags (set_aio "threads" o)) USER_READ_SIZE =? 0) eqn:Ef;
      [|split_and!; try done; by split].
    simpl in Ef. apply Z.eqb_eq in Ef. pose proof (Hr Ef) as Hrs.
    assert ((2 * 1024 * 1024) mod block_size o = 0) as Hm2.
    { rewrite Hrs in Hm. change (2 * 1024 * 1024) with (8 * (256 * KiB)).
      rewrite Z.mul_mod, Hm, Z.mul_0_r, Z.mod_0_l by lia. done. }
    assert (consistent (set_read_size (2 * 1024 * 1024) 0 (set_aio "threads" o))) as Hc.
    { rewrite Hrs in Hl. split; simpl; try done. change (u64 (2 * 1024 * 1024)) with 2097152.
      change (256 * KiB) with 262144 in Hl. lia. }
    destruct (Z.land _ USER_QUEUE_DEPTH =? 0) eqn:Eq; split_and!; try done; try (intros; exfalso; done).
    + by destruct Hc.
    + intros Hq. simpl in Eq. rewrite Z.lor_0_r in Eq. lia.
  - destruct (negb (cache o) && negb direct) eqn:Ec; simpl.
    + rewrite Ha. simpl. split_and!; try done.
    + destruct (cache o) eqn:Eca; simpl; [rewrite Ha; simpl|]; split_and!; try done; by rewrite Eca.
Qed.

(** ** A concrete [strtod] *)

Definition digit_of (a : Ascii.ascii) : option Z :=
  let n := Z.of_N (Ascii.N_of_ascii a) in
  if (48 <=? n) && (n <=? 57) then Some (n - 48) else None.

(** Decimal integers with an optional sign, which is enough to run the model. *)
Fixpoint digits (acc : Z) (s : string) : Z * string :=
  match s with
  | String a s' => match digit_of a with Some d => digits (acc * 10 + d) s' | None => (acc, s) end
  | EmptyString => (acc, s)
  end.

Definition decimal_strtod (s : string) : Q * string :=
  if String.prefix "-" s
  then let '(v, rest) := digits 0 (String.substring 1 (String.length s) s) in (inject_Z (- v), rest)
  else let '(v, rest) := digits 0 s in (inject_Z v, rest).

Definition run_options (items : list opt_item) : outcome options unit :=
  parse_options decimal_strtod 4096 false items None default_options.

Lemma options_consistent_witness :
  let o := Options "sha1" (1 * MiB) 16 (64 * KiB) 8 (1 * GiB) "native" false None false USER_READ_SIZE in
  let o' := optimize_for_nbd_server false (FileInfo "raw" (Some "nfs"%string)) o in
  consistent o ∧ consistent o' ∧
  (Z.land (flags o) USER_READ_SIZE ≠ 0 → read_size o' = read_size o) ∧
  (Z.land (flags o) USER_QUEUE_DEPTH ≠ 0 → queue_depth o' = queue_depth o) ∧
  digest_name o' = digest_name o ∧ block_size o' = block_size o ∧
  (cache o' = true → Some "nfs" ≠ Some "nfs" → aio o' ≠ "native")%string ∧
  (Some "nfs" = Some "nfs" → aio o' ≠ "native")%string.
Proof.
  intros o. apply (options_consistent decimal_strtod 4096 false
    [OptDigest "sha1"; OptThreads "8"; OptReadSize "1m"] None o false (FileInfo "raw" (Some "nfs"%string))).
  vm_compute. reflexivity.
Defined.

(** The documented range of the queue depth is 1-128; 0 passes, and so does a
    value whose conversion to [int] is negative. *)
Example queue_depth_out_of_range :
  (∃ o, run_options [OptQueueDepth "0"] = Ret tt o ∧ queue_depth o = 0) ∧
  (∃ o, run_options [OptQueueDepth "3g"] = Ret tt o ∧ queue_depth o = 2 ^ 64 - 2 ^ 30).
Proof. split; eexists; (split; [vm_compute; reflexivity|reflexivity]). Qed.

(** The alignment check of the block size looks at the previous value: a block
    size that is not a multiple of the page size is accepted, and a block size of
    0 divides by zero. *)
Example block_size_not_checked :
  (∃ o, run_options [OptBlockSize "1000"; OptReadSize "2000"] = Ret tt o ∧ block_size o = 1000) ∧
  run_options [OptBlockSize "0"] = Crash CDivZero.
Proof. split; [eexists; split; [vm_compute; reflexivity|reflexivity]|vm_compute; reflexivity]. Qed.

(** ** Sizes *)

Lemma to_int64_Z n : - 2 ^ 63 <= n < 2 ^ 63 → to_int64 (inject_Z n) = Some n.
Proof.
  intros Hn. unfold to_int64, inject_Z. cbn [Qnum Qden]. rewrite Z.quot_1_r.
  destruct (_ <=? _) eqn:?, (_ <? _) eqn:?; simpl; (lia || done).
Qed.

Lemma to_int64_mult n k : - 2 ^ 63 <= n * k < 2 ^ 63 → to_int64 (inject_Z n * inject_Z k) = Some (n * k).
Proof. intros Hn. rewrite <-(to_int64_Z _ Hn). done. Qed.

(** The factor of a suffix. *)
Definition suffix_factor (s : string) : option Z :=
  if String.eqb s "" then Some 1
  else if String.eqb s "k" then Some (2 ^ 10)
  else if String.eqb s "m" then Some (2 ^ 20)
  else if String.eqb s "g" then Some (2 ^ 30)
  else if String.eqb s "t" then Some (2 ^ 40)
  else None.

(** Human sizes.  For every text whose number [strtod] reads as an integer,
    [parse_humansize] returns the number times the factor of its suffix when that
    fits, and -EINVAL for a negative number, for a text without a number, and for
    an unknown suffix. *)
Theorem humansize_value (strtod : string → Q * string) (s rest : string) (n : Z) :
  strtod s = (inject_Z n, rest) →
  parse_humansize strtod s =
    if n <? 0 then Some (- EINVAL)
    else if String.eqb rest s then Some (- EINVAL)
    else match suffix_factor rest with
         | None => Some (- EINVAL)
         | Some k => if n * k <? 2 ^ 63 then Some (n * k) else None
         end.
Proof.
  intros Hs. unfold parse_humansize, suffix_factor. rewrite Hs.
  destruct (Qlt_le_dec (inject_Z n) 0) as [Hn|Hn].
  - change 0%Q with (inject_Z 0) in Hn. rewrite <-Zlt_Qlt in Hn. destruct (n <? 0) eqn:?; [done|lia].
  - change 0%Q with (inject_Z 0) in Hn. rewrite <-Zle_Qle in Hn. destruct (n <? 0) eqn:?; [lia|].
    destruct (String.eqb rest s); [done|].
    assert (∀ k q, q = (inject_Z n * inject_Z k)%Q → 0 < k →
      to_int64 q = if n * k <? 2 ^ 63 then Some (n * k) else None) as Hk.
    { intros k q -> Hk. destruct (n * k <? 2 ^ 63) eqn:E; [apply to_int64_mult; nia|].
      unfold to_int64, inject_Z, Qmult. cbn [Qnum Qden]. rewrite Pos.mul_1_l, Z.quot_1_r.
      rewrite E. by rewrite andb_false_r. }
    destruct (String.eqb rest ""); [apply (Hk 1); [|lia]|].
    { unfold inject_Z, Qmult. cbn [Qnum Qden]. by rewrite Z.mul_1_r. }
    destruct (String.eqb rest "k"); [by apply (Hk (2 ^ 10))|].
    destruct (String.eqb rest "m"); [by apply (Hk (2 ^ 20))|].
    destruct (String.eqb rest "g"); [by apply (Hk (2 ^ 30))|].
    destruct (String.eqb rest "t"); [by apply (Hk (2 ^ 40))|done].
Qed.

Lemma humansize_value_witness :
  parse_humansize decimal_strtod "16m" = Some (2 ^ 24) ∧
  parse_humansize decimal_strtod "16x" = Some (- EINVAL).
Proof.
  split; [exact (humansize_value decimal_strtod "16m" "m" 16 eq_refl)|
          exact (humansize_value decimal_strtod "16x" "x" 16 eq_refl)].
Defined.

(** ** Printing the digest *)

Definition hex_value (a : Ascii.ascii) : Z :=
  let n := Z.of_N (Ascii.N_of_ascii a) in if n <? 58 then n - 48 else n - 87.

(** Read pairs of digits. *)
Fixpoint parse_hex (l : list Ascii.ascii) : list byte :=
  match l with
  | a :: b :: l' => byte_of_Z (16 * hex_value a + hex_value b) :: parse_hex l'
  | _ => []
  end.

Definition is_hex_digit (a : Ascii.ascii) : bool :=
  let n := Z.of_N (Ascii.N_of_ascii a) in
  ((48 <=? n) && (n <=? 57)) || ((97 <=? n) && (n <=? 102)).

Lemma hex_digit_spec n : 0 <= n < 16 → hex_value (hex_digit n) = n ∧ is_hex_digit (hex_digit n) = true.
Proof.
  intros Hn. assert (∃ k, n = Z.of_nat k ∧ (k < 16)%nat) as (k & -> & Hk) by (exists (Z.to_nat n); lia).
  do 16 (destruct k as [|k]; [by split|]). lia.
Qed.

Lemma byte_of_byte_val b : byte_of_Z (byte_val b) = b.
Proof.
  unfold byte_of_Z, byte_val. pose proof (Byte.to_N_bounded b).
  rewrite Z.mod_small by lia. rewrite N2Z.id, Byte.of_to_N. done.
Qed.

(** C40: the printed digest determines the digest.  [format_hex] writes two
    lowercase hexadecimal digits for every byte, which fits the buffer of twice the
    size plus one, and reading the digits back gives the bytes. *)
Theorem format_hex_roundtrip (md : list byte) :
  parse_hex (format_hex md) = md ∧ zlen (format_hex md) = 2 * zlen md ∧
  Forall (λ a, is_hex_digit a = true) (format_hex md).
Proof.
  induction md as [|b md (IH & Hl & Hf)]; [done|]. unfold format_hex in *. rewrite fmap_cons.
  pose proof (byte_val_range b) as Hb.
  destruct (hex_digit_spec (byte_val b / 16)) as [Hv1 Hd1].
  { split; [by apply Z.div_pos; lia|apply Z.div_lt_upper_bound; lia]. }
  destruct (hex_digit_spec (byte_val b mod 16)) as [Hv2 Hd2]; [apply Z.mod_pos_bound; lia|].
  simpl. rewrite IH, Hv1, Hv2, <-Z.div_mod, byte_of_byte_val by lia. split_and!; [done| |].
  - unfold zlen in *. simpl. lia.
  - by repeat constructor.
Qed.

(** ** The environment of qemu-nbd *)

Lemma env_vars_somes l : env_vars ((Some <$> l) ++ [None]) = l.
Proof. induction l as [|v l IH]; [done|]. rewrite fmap_cons. simpl. by rewrite IH. Qed.

(** The environment of qemu-nbd.  If no socket activation variable is set,
    qemu-nbd sees the two new variables followed by the whole environment. *)
Theorem create_env_complete (environ : list string) :
  Forall (λ v, is_listen v = false) environ →
  env_vars (create_env environ) =
    "LISTEN_PID=xxxxxxxxxxxxxxxxxxxx"%string :: "LISTEN_FDS=1"%string :: environ.
Proof.
  intros Hf. unfold create_env. simpl. do 2 f_equal.
  rewrite (list_fmap_ext _ Some environ); [by apply env_vars_somes|].
  intros i v Hv. rewrite Forall_forall in Hf. rewrite Hf; [done|]. by eapply list_elem_of_lookup_2.
Qed.

Lemma create_env_complete_witness :
  env_vars (create_env ["HOME=/root"; "LISTEN=1"]%string) =
    ["LISTEN_PID=xxxxxxxxxxxxxxxxxxxx"; "LISTEN_FDS=1"; "HOME=/root"; "LISTEN=1"]%string.
Proof. apply (create_env_complete ["HOME=/root"; "LISTEN=1"]%string). repeat constructor. Defined.

(** If one is set, its slot stays NULL and the variables after it are lost. *)
Example create_env_truncated :
  env_vars (create_env ["HOME=/root"; "LISTEN_FDS=3"; "PATH=/usr/bin"]%string) =
    ["LISTEN_PID=xxxxxxxxxxxxxxxxxxxx"; "LISTEN_FDS=1"; "HOME=/root"]%string.
Proof. reflexivity. Qed.

(** ** Probing *)

(** A header as qemu-img writes it: magic, version, and the rest. *)
Definition qcow2_header (version : list byte) (rest : list byte) : list byte :=
  [Byte.x51; Byte.x46; Byte.x49; Byte.xfb] ++ version ++ rest.

Lemma load_be32_value a b c d buf :
  load_be32 (a :: b :: c :: d :: buf) 0 =
    byte_val a * 2 ^ 24 + byte_val b * 2 ^ 16 + byte_val c * 2 ^ 8 + byte_val d.
Proof.
  unfold load_be32. simpl lookup. simpl default. rewrite <-!Z.lor_assoc.
  pose proof (byte_val_range a). pose proof (byte_val_range b).
  pose proof (byte_val_range c). pose proof (byte_val_range d).
  rewrite (lor_shiftl (byte_val c)) by lia. rewrite (lor_shiftl (byte_val b)) by lia.
  rewrite (lor_shiftl (byte_val a)) by lia. lia.
Qed.

Lemma load_be32_magic buf :
  4 <= zlen buf →
  load_be32 buf 0 = QCOW_MAGIC ↔ ztake 4 buf = [Byte.x51; Byte.x46; Byte.x49; Byte.xfb].
Proof.
  unfold zlen. intros Hl. destruct buf as [|a [|b [|c [|d buf]]]]; try (simpl in Hl; lia).
  rewrite load_be32_value. unfold ztake. change (Z.to_nat 4) with 4%nat. simpl take.
  change QCOW_MAGIC with (81 * 2 ^ 24 + 70 * 2 ^ 16 + 73 * 2 ^ 8 + 251).
  pose proof (byte_val_range a). pose proof (byte_val_range b).
  pose proof (byte_val_range c). pose proof (byte_val_range d).
  split; [|by intros [= -> -> -> ->]]. intros He.
  assert (a = Byte.x51) as -> by (apply byte_val_inj; change (byte_val Byte.x51) with 81; lia).
  assert (b = Byte.x46) as -> by (apply byte_val_inj; change (byte_val Byte.x51) with 81 in *;
    change (byte_val Byte.x46) with 70; lia).
  change (byte_val Byte.x51) with 81 in *. change (byte_val Byte.x46) with 70 in *.
  assert (c = Byte.x49) as -> by (apply byte_val_inj; change (byte_val Byte.x49) with 73; lia).
  change (byte_val Byte.x49) with 73 in *.
  by assert (d = Byte.xfb) as -> by (apply byte_val_inj; change (byte_val Byte.xfb) with 251; lia).
Qed.

(** Probing the format.  An image is taken for qcow2 exactly if a whole header
    was read, it starts with the magic bytes "QFI\xfb" and the big endian version
    is at least 2; every other image is raw. *)
Theorem probe_format_exact (buf : list byte) :
  probe_format buf = "qcow2"%string ↔
    104 <= zlen buf ∧ ztake 4 buf = [Byte.x51; Byte.x46; Byte.x49; Byte.xfb] ∧ 2 <= load_be32 buf 4.
Proof.
  unfold probe_format, is_qcow2, qcow2_header_size. change (4 + 4 + 96) with 104.
  destruct (104 <=? zlen buf) eqn:El; simpl; [|split; [done|lia]].
  pose proof (load_be32_magic buf ltac:(lia)) as Hm.
  destruct (load_be32 buf 0 =? QCOW_MAGIC) eqn:Em; simpl.
  - apply Z.eqb_eq, Hm in Em. destruct (2 <=? load_be32 buf 4) eqn:Ev; split; try done; [|lia].
    intros _. split_and!; [lia|done|lia].
  - split; [done|]. intros (_ & Ht & _). apply Hm in Ht. lia.
Qed.
