(* ===== verification/Process.v ===== *)
(** * The process of blksum (bin/blksum.c, bin/pipe-src.c)

    The flags that tell the threads of blksum to stop, the signal handler, the
    allocations of the program, the standard input as an image source, and the end of
    [main].  The operating system is a parameter: which signals it delivers and when,
    how many bytes each [read] of the pipe returns, and which system calls fail. *)

From stdpp Require Import prelude list strings.
From Stdlib Require Import ZArith Lia.
From S2P Require Import Prelude Src.
From S2P Require Cli.

Local Open Scope Z_scope.

(** ** Data *)

(** What a [read] of the pipe does: it fails with an errno, or it returns at most
    [k] bytes (it blocks until there is one, and returns none only at the end of
    the stream). *)
Inductive chunk := ChunkError (errno : Z) | ChunkBytes (k : Z).

Class Os := {
  os_stdin : list byte;           (** the bytes written to the standard input *)
  os_chunk : nat → chunk;         (** the n-th [read] *)
  os_signal : nat → option Z;     (** a signal that arrives before the n-th look at the flags *)
  os_alloc : nat → Z;             (** errno of the n-th allocation, 0 if it succeeds *)
}.

Record proc := Proc {
  terminated : Z;
  failed : bool;
  p_pos : Z;      (** bytes read from the standard input *)
  p_blocks : Z;   (** allocations of the program that were not freed *)
  p_files : Z;    (** files and connections that it opened and did not close *)
  n_reads : nat;
  n_looks : nat;
  n_allocs : nat;
}.

(** The zeroed static variables. *)
Definition new_proc : proc := Proc 0 false 0 0 0 0 0 0.

(** How [main] ends: a line, a signal, or [exit(EXIT_FAILURE)] because a thread failed. *)
Inductive ending := Printed (line : string) | Killed (signum : Z) | Failed.

Section process.
Context `{OS : !Os}.
Abbreviation MP := (M proc).

(** ** Signals and failures *)

Definition handle_signal (signum : Z) : MP unit :=
  assertM (0 <? signum);;
  modify (λ p, if terminated p =? 0
    then Proc signum (failed p) (p_pos p) (p_blocks p) (p_files p) (n_reads p) (n_looks p) (n_allocs p) else p).

(** Signals that arrived are handled before the flags are read. *)
Definition look : MP unit :=
  p ← get;
  modify (λ p, Proc (terminated p) (failed p) (p_pos p) (p_blocks p) (p_files p) (n_reads p) (S (n_looks p)) (n_allocs p));;
  if os_signal (n_looks p) is Some signum then handle_signal signum else mret tt.

Definition is_running (p : proc) : bool := negb (fails (terminated p) || failed p).

Definition running : MP bool := look;; gets is_running.

(** [fail()] in a worker thread: the thread ends after this. *)
Definition fail_worker (debug : bool) : MP unit :=
  look;;
  modify (λ p, if is_running p || debug
    then Proc (terminated p) true (p_pos p) (p_blocks p) (p_files p) (n_reads p) (n_looks p) (n_allocs p) else p).

(** [fail()] in the main thread exits the process. *)
Definition fail_main {A} (debug : bool) : MP A := fail_worker debug;; crashM CExit.

(** ** Memory *)

(** [malloc] and the like: errno. *)
Definition allocate : MP Z :=
  p ← get;
  let err := os_alloc (n_allocs p) in
  modify (λ p, Proc (terminated p) (failed p) (p_pos p) (if err =? 0 then p_blocks p + 1 else p_blocks p)
    (p_files p) (n_reads p) (n_looks p) (S (n_allocs p)));;
  mret err.

Definition release : MP unit :=
  p ← get;
  (if 0 <? p_blocks p then mret tt else crashM CMemory);;
  modify (λ p, Proc (terminated p) (failed p) (p_pos p) (p_blocks p - 1) (p_files p) (n_reads p) (n_looks p) (n_allocs p)).

(** ** Files *)

Definition with_files (n : Z) (p : proc) : proc :=
  Proc (terminated p) (failed p) (p_pos p) (p_blocks p) n (n_reads p) (n_looks p) (n_allocs p).

(** A file was opened, or a connection was created. *)
Definition acquire_file : MP unit := modify (λ p, with_files (p_files p + 1) p).

(** [close], or [nbd_close]. *)
Definition close_file : MP unit :=
  p ← get;
  (if 0 <? p_files p then mret tt else crashM CMemory);;
  modify (λ p, with_files (p_files p - 1) p).

(** ** pipe-src.c *)

(** [read(0, buf, n)] *)
Definition read_stdin (n : Z) : MP io :=
  p ← get;
  let got := match os_chunk (n_reads p) with
             | ChunkError _ => []
             | ChunkBytes k => ztake (Z.min n (Z.max 1 k)) (zdrop (p_pos p) os_stdin)
             end in
  modify (λ p, Proc (terminated p) (failed p) (p_pos p + zlen got) (p_blocks p) (p_files p) (S (n_reads p)) (n_looks p)
    (n_allocs p));;
  mret (match os_chunk (n_reads p) with ChunkError e => IoError e | ChunkBytes _ => IoData got end).

Definition open_pipe (debug : bool) : MP unit :=
  err ← allocate; if fails err then fail_main debug else mret tt.

(** The loop: [buf] is what was read so far. *)
Fixpoint pipe_ops_read (debug : bool) (fuel : nat) (len : Z) (buf : list byte) : MP (list byte) :=
  if zlen buf <? len then
    match fuel with
    | O => crashM CNoFuel
    | S fuel' =>
        r ← read_stdin (len - zlen buf);
        match r with
        | IoError e =>
            stopped ← (if e =? EINTR then r ← running; mret (negb r) else mret false);
            if stopped : bool then mret buf else fail_main debug
        | IoData data =>
            if zlen data =? 0 then mret buf else pipe_ops_read debug fuel' len (buf ++ data)
        end
    end
  else mret buf.

Definition pipe_ops_close : MP unit := release.

(** [src_read(s, buf, len)] of the pipe source: every iteration reads a byte. *)
Definition src_read (debug : bool) (len : Z) : MP (list byte) :=
  pipe_ops_read debug (S (Z.to_nat len)) len [].

(** ** The end of main() *)

(** The flags, then the digest. *)
Definition finish_main (md : option (list byte)) (name : string) : MP ending :=
  look;;
  p ← get;
  if fails (terminated p) then mret (Killed (terminated p))
  else if failed p then mret Failed
  else
    md ← derefM md;
    mret (Printed (String.string_of_list_ascii (Cli.format_hex md) +:+ "  " +:+ name)).
End process.

(** ** Reading the standard input *)

Section reading.
Context `{OS : !Os}.
Implicit Types p : proc.

(** The numbers of signals are positive. *)
Definition signals_ok : Prop := ∀ n signum, os_signal n = Some signum → 0 < signum.

(** Nothing fails and no signal arrives. *)
Definition calm_os : Prop :=
  (∀ n, os_signal n = None) ∧ (∀ n, ∃ k, os_chunk n = ChunkBytes k) ∧ (∀ n, os_alloc n = 0).

(** What happens to the flags: a signal or a failure that was noted stays. *)
Record later p p' : Prop := {
  lt_terminated : terminated p ≠ 0 → terminated p' = terminated p;
  lt_failed : failed p = true → failed p' = true;
  lt_blocks : p_blocks p' = p_blocks p;
  lt_files : p_files p' = p_files p;
  lt_calm : calm_os → is_running p' = is_running p;
}.

#[global] Instance later_refl : Reflexive later.
Proof. by split. Qed.

#[global] Instance later_trans : Transitive later.
Proof.
  intros p1 p2 p3 [Ht1 Hf1 Hb1 Hn1 Hc1] [Ht2 Hf2 Hb2 Hn2 Hc2]. split; [|auto|congruence|congruence|intros Hc; by rewrite Hc2, Hc1].
  intros Ht. specialize (Ht1 Ht). rewrite <-Ht1 in Ht |- *. auto.
Qed.

(** A program that was told to stop does not start again. *)
Lemma later_stopped p p' : later p p' → is_running p = false → is_running p' = false.
Proof.
  unfold is_running, fails. intros [Ht Hf _ _ _] Hr. destruct (failed p) eqn:Ef.
  - rewrite (Hf eq_refl), orb_true_r. done.
  - rewrite orb_false_r, negb_false_iff, negb_true_iff in Hr. rewrite Ht by lia. by rewrite Hr.
Qed.

Context (Hsig : signals_ok) (bad : crash → Prop).
Local Abbreviation nf := (bad CNoFuel).
Local Abbreviation ex := (bad CExit).

Lemma look_ok p : wp nf look (λ _ p', later p p' ∧ p_pos p' = p_pos p) p.
Proof using Hsig.
  unfold look. wp_steps. destruct (os_signal (n_looks p)) as [signum|] eqn:E.
  - unfold handle_signal. wp_step. apply wp_assertM; [pose proof (Hsig _ _ E); lia|]. wp_steps. simpl.
    destruct (terminated p =? 0) eqn:Et; (split; [|done]); split; simpl; try done; try lia;
      intros [Hs _]; by rewrite Hs in E.
  - wp_steps. by split.
Qed.

Lemma running_ok p : wp nf running (λ b p', later p p' ∧ p_pos p' = p_pos p ∧ b = is_running p') p.
Proof using Hsig.
  unfold running. wp_steps. eapply wp_mono; [apply look_ok|]. intros _ p' [Hl Hp]. wp_steps. by split_and!.
Qed.

(** A program that failed is told to stop. *)
Lemma fail_worker_ok debug p :
  wpc bad (fail_worker debug) (λ _ p', p_blocks p' = p_blocks p ∧ p_files p' = p_files p ∧ is_running p' = false) p.
Proof using Hsig.
  unfold fail_worker. wpc_step. apply wpc_wp. eapply wp_mono; [apply look_ok|]. intros _ p' [Hl _]. wpc_step.
  rewrite <-(lt_blocks _ _ Hl), <-(lt_files _ _ Hl). destruct (is_running p') eqn:Er; simpl.
  - split_and!; [done..|]. unfold is_running. simpl. by rewrite orb_true_r.
  - destruct debug; split_and!; try done. unfold is_running. simpl. by rewrite orb_true_r.
Qed.

Lemma fail_main_exits {A} debug (Q : A → proc → Prop) p : ex → wpc bad (fail_main debug) Q p.
Proof using Hsig.
  intros Hex. unfold fail_main, fail_worker. do 2 wpc_step. apply wpc_wp. eapply wp_mono; [apply look_ok|].
  intros _ p' _. wp_steps. done.
Qed.

Lemma allocate_ok p :
  wp nf allocate (λ err p', p_pos p' = p_pos p ∧ is_running p' = is_running p ∧ p_files p' = p_files p ∧
    (err = 0 → p_blocks p' = p_blocks p + 1) ∧ (err ≠ 0 → calm_os → False)) p.
Proof using Type.
  unfold allocate. wp_steps. simpl. split_and!; try done.
  - by intros ->.
  - intros Hne (_ & _ & Hc). by destruct Hne.
Qed.

Lemma release_ok p (Q : unit → proc → Prop) :
  0 < p_blocks p →
  (∀ p', p_pos p' = p_pos p → is_running p' = is_running p → p_blocks p' = p_blocks p - 1 → p_files p' = p_files p → Q tt p') →
  wpc bad release Q p.
Proof using Type.
  intros Hb HQ. unfold release. do 3 wpc_step. destruct (0 <? p_blocks p) eqn:E; [|lia]. do 2 wpc_step. by apply HQ.
Qed.

Lemma close_file_ok p (Q : unit → proc → Prop) :
  0 < p_files p → Q tt (with_files (p_files p - 1) p) → wpc bad close_file Q p.
Proof using Type.
  intros Hf HQ. unfold close_file. do 3 wpc_step. destruct (0 <? p_files p) eqn:E; [|lia]. by do 2 wpc_step.
Qed.

(** The line of a digest. *)
Definition line_of (md : list byte) (name : string) : string :=
  String.string_of_list_ascii (Cli.format_hex md) +:+ "  " +:+ name.

Lemma finish_main_ok md name p :
  (md = None → is_running p = false) →
  wpc bad (finish_main md name) (λ e p', p_blocks p' = p_blocks p ∧ p_files p' = p_files p ∧
    (calm_os → is_running p = true → ∃ line, e = Printed line) ∧
    ∀ line, e = Printed line → ∃ d, md = Some d ∧ line = line_of d name) p.
Proof using Hsig.
  intros Hmd. unfold finish_main. wpc_step. apply wpc_wp. eapply wp_mono; [by apply look_ok|].
  intros _ p' [Hl _]. do 2 wpc_step. pose proof (lt_blocks _ _ Hl) as Hb. pose proof (lt_files _ _ Hl) as Hfl.
  assert (is_running p' = false → (calm_os ∧ is_running p = true) → False) as Hstop.
  { intros Hst [Hc Hr]. rewrite (lt_calm _ _ Hl Hc), Hr in Hst. done. }
  destruct (fails (terminated p')) eqn:Et.
  { wpc_step. split_and!; [done|done| |done]. intros Hc Hr. destruct Hstop; [|done]. unfold is_running. by rewrite Et. }
  destruct (failed p') eqn:Ef.
  { wpc_step. split_and!; [done|done| |done]. intros Hc Hr. destruct Hstop; [|done]. unfold is_running. by rewrite Ef, orb_true_r. }
  assert (is_running p' = true) as Hrun by (unfold is_running; by rewrite Et, Ef).
  destruct md as [d|]; [|by rewrite (later_stopped _ _ Hl (Hmd eq_refl)) in Hrun].
  wpc_step. eapply wpc_derefM; [done|]. wpc_step. split_and!; [done|done|by eauto|]. intros line [= <-]. by exists d.
Qed.

(** A read that fails is a reason to exit. *)
Context (Hex : ∀ n e, os_chunk n = ChunkError e → ex).

(** A part of the standard input, from where it was read last. *)
Record got p len p' (d : list byte) : Prop := {
  gt_data : d = slice os_stdin (p_pos p) (zlen d);
  gt_pos : p_pos p' = p_pos p + zlen d;
  gt_len : zlen d <= len;
  gt_max : p_pos p' <= zlen os_stdin;
  gt_end : zlen d = len ∨ p_pos p' = zlen os_stdin ∨ is_running p' = false;
}.

Lemma read_stdin_ok n p :
  0 < n → 0 <= p_pos p <= zlen os_stdin →
  wp nf (read_stdin n) (λ r p', later p p' ∧
    match r with
    | IoError e => os_chunk (n_reads p) = ChunkError e ∧ p_pos p' = p_pos p
    | IoData d => d = slice os_stdin (p_pos p) (zlen d) ∧ p_pos p' = p_pos p + zlen d ∧ zlen d <= n ∧
        p_pos p' <= zlen os_stdin ∧ (zlen d = 0 → p_pos p = zlen os_stdin)
    end) p.
Proof using Type.
  intros Hn Hp. unfold read_stdin. wp_steps. destruct (os_chunk (n_reads p)) as [e|k]; simpl.
  - split_and!; try done. rewrite zlen_nil. lia.
  - set (m := Z.min n (Z.max 1 k)). set (rest := zdrop (p_pos p) os_stdin).
    assert (zlen rest = zlen os_stdin - p_pos p) as Hrest by (apply zlen_zdrop; lia).
    assert (zlen (ztake m rest) = Z.min m (zlen rest)) as Hl by (unfold ztake, zlen in *; rewrite length_take; lia).
    split_and!; try done; try lia. unfold slice. fold rest. rewrite Hl.
    unfold ztake, zlen. destruct (decide (m <= Z.of_nat (length rest))).
    + by rewrite Z.min_l.
    + rewrite Z.min_r by lia. rewrite Nat2Z.id, firstn_all, take_ge; [done|lia].
Qed.

Lemma pipe_read_loop debug fuel len buf p :
  0 <= p_pos p <= zlen os_stdin → 0 <= len - zlen buf → (Z.to_nat (len - zlen buf) < fuel)%nat →
  wpc bad (pipe_ops_read debug fuel len buf) (λ out p', later p p' ∧
    ∃ d, out = buf ++ d ∧ got p (len - zlen buf) p' d) p.
Proof using Hex Hsig.
  revert buf p. induction fuel as [|fuel IH]; intros buf p Hp Hl Hf; [lia|]. simpl.
  assert (∀ p', p_pos p' = p_pos p → zlen buf = len ∨ p_pos p = zlen os_stdin ∨ is_running p' = false →
    later p p' → later p p' ∧ ∃ d, buf = buf ++ d ∧ got p (len - zlen buf) p' d) as Hend.
  { intros p' He Hr Hlt. split; [done|]. exists []. rewrite app_nil_r. split; [done|].
    split; rewrite ?zlen_nil; try lia; [done|]. destruct Hr as [?|[?|?]]; [left|right; left|by right; right]; lia. }
  destruct (zlen buf <? len) eqn:E; [|wpc_step; apply Hend; [done|left; lia|done]].
  wpc_step. apply wpc_wp. eapply wp_mono; [apply read_stdin_ok; lia|]. intros [d|e] p1 (Hlt & Hr).
  - destruct Hr as (Hd & Hpos & Hn & Hmax & H0). pose proof (zlen_nonneg d). destruct (zlen d =? 0) eqn:Ed.
    + wpc_step. apply Hend; [lia|right; left; lia|done].
    + eapply wpc_mono; [apply IH; rewrite ?zlen_app; lia|].
      intros out p2 (Hlt2 & d2 & -> & [Hg1 Hg2 Hg3 Hg4 Hg5]). split; [by etrans|].
      exists (d ++ d2). rewrite app_assoc. split; [done|]. rewrite zlen_app in *. pose proof (zlen_nonneg d2).
      split; rewrite ?zlen_app; try lia; [|destruct Hg5 as [?|[?|?]]; [left; lia|auto|auto]].
      rewrite slice_app, <-Hd, <-Hpos, <-Hg1; [done|lia..].
  - destruct Hr as [He Hpos]. wpc_step.
    assert ex as Hx by by eapply Hex.
    destruct (e =? EINTR); [|wpc_step; by apply fail_main_exits].
    wpc_step. apply wpc_wp. eapply wp_mono; [apply running_ok|]. intros b p2 (Hlt2 & Hp2 & Hb). wp_steps.
    destruct b; simpl; [by apply fail_main_exits|]. wpc_step. apply Hend; [lia|auto|by etrans].
Qed.

Lemma src_read_ok debug len p :
  0 <= p_pos p <= zlen os_stdin → 0 <= len →
  wpc bad (src_read debug len) (λ d p', later p p' ∧ got p len p' d) p.
Proof using Hex Hsig.
  intros Hp Hl. unfold src_read. assert (len - zlen (@nil byte) = len) as Hn by (rewrite zlen_nil; lia).
  eapply wpc_mono; [apply pipe_read_loop; rewrite ?Hn; lia|].
  intros out p' (Hlt & d & -> & Hg). rewrite Hn in Hg. by split.
Qed.
End reading.

(** Reading a pipe.  However the writer splits the stream and whatever signals
    arrive, [pipe_ops_read] always ends: it returns the next bytes of the stream, in
    order and none twice, as many as asked for unless the stream ended or the
    program was told to stop; an error of [read] other than an interruption by a
    signal that stops the program makes it exit, and it exits for no other
    reason. *)
Theorem pipe_read_complete `{OS : !Os} (debug : bool) (len : Z) (p : proc) :
  signals_ok → 0 <= p_pos p <= zlen os_stdin → 0 <= len →
  match src_read debug len p with
  | Ret d p' => got p len p' d ∧ later p p'
  | Crash k => k = CExit ∧ ∃ n e, os_chunk n = ChunkError e
  end.
Proof.
  intros Hs Hp Hl. pose proof (src_read_ok Hs (λ k, k = CExit ∧ ∃ n e, os_chunk n = ChunkError e)) as Hr.
  specialize (Hr (λ n e Hn, conj eq_refl (ex_intro _ n (ex_intro _ e Hn))) debug len p Hp Hl). unfold wpc in Hr.
  destruct (src_read debug len p) as [d p'|k]; [by destruct Hr|done].
Qed.

(** A stream of 10 bytes that arrives in small pieces; the program is interrupted
    by SIGINT at the third read. *)
#[local] Instance sample_os : Os := {|
  os_stdin := byte_of_Z ∘ Z.of_nat <$> seq 1 10;
  os_chunk n := match n with O => ChunkBytes 3 | S O => ChunkBytes 4 | _ => ChunkError EINTR end;
  os_signal n := if (n =? 0)%nat then Some 2 else None;
  os_alloc _ := 0;
|}.

Lemma pipe_read_complete_witness :
  match src_read false 9 new_proc with
  | Ret d p' => got new_proc 9 p' d ∧ later new_proc p'
  | Crash k => k = CExit ∧ ∃ n e, os_chunk n = ChunkError e
  end.
Proof.
  apply (pipe_read_complete (OS := sample_os) false 9 new_proc).
  - intros n signum. unfold os_signal. simpl. destruct (n =? 0)%nat; intros [= <-]. lia.
  - vm_compute. split; congruence.
  - lia.
Defined.

Example pipe_read_interrupted :
  match src_read false 9 new_proc with
  | Ret d p' => zlen d = 7 ∧ is_running p' = false
  | Crash _ => False
  end.
Proof. vm_compute. done. Qed.
