(* ===== verification/Server.v ===== *)
(** * The qemu-nbd server of blksum (bin/nbd-server.c)

    For a local image blksum starts qemu-nbd on a unix socket in a temporary
    directory and stops it at the end.  The state is what the process shares with
    the rest of the machine: directories and sockets in the file system, its
    descriptors, its children, its memory and its signals.  Every system call can
    fail.  [exit] is a result, so that what the process leaves behind can be
    stated. *)

From stdpp Require Import prelude list strings gmap.
From Stdlib Require Import ZArith Lia.
From S2P Require Import Prelude.
From S2P Require Cli.

Local Open Scope Z_scope.

Definition EADDRINUSE := 98.
Definition ENOTEMPTY := 39.
Definition SIGINT := 2.
Definition SIGPIPE := 13.
Definition SIGTERM := 15.

(** [sizeof(sun_path)] *)
Definition SUN_PATH := 108.

Definition FIRST_SOCKET_ACTIVATION_FD : nat := 3.
Definition STDERR_FILENO : nat := 2.
Definition PREFIX_LENGTH : nat := 11.

(** ** Data *)

Inductive syscall :=
| SAlloc | SMkdtemp | SSocket | SBind | SListen | SFork | SUnlink | SRmdir | SFcntl | SDup | SDup2 | SOpen
| SWaitpid | SExec | SSigaction.

(** What the system does: the errno of the n-th call, the name that [mkdtemp]
    finds, the pid of the child, and the environment of the process. *)
Class Machine := {
  m_fault : syscall → nat → Z;
  m_suffix : string;
  m_pid : Z;
  m_environ : list string;
}.

(** What a descriptor refers to. *)
Inductive file := FSocket (path : option string) (listening : bool) | FDevNull | FOther (name : string).

Record desc := Desc { d_file : file; d_cloexec : bool }.

Inductive action := SigDfl | SigIgn | SigHandler.

(** A program that was executed, with what it inherits. *)
Record program := Program {
  e_argv : list string;
  e_env : list string;
  e_fds : gmap nat desc;
  e_blocked : list Z;
  e_actions : gmap Z action;
}.

Inductive child := Executed (p : program) | Exited (code : Z) | Killed.

Record machine := MachineState {
  dirs : gset string;
  socks : gset string;
  fds : gmap nat desc;
  procs : gmap Z child;
  heap : Z;
  blocked : list Z;
  actions : gmap Z action;
  m_calls : nat;
}.

(** [struct nbd_server] *)
Record nbd_server := NbdServer { tmpdir : option string; sock : option string; s_pid : Z }.

(** [struct server_options] *)
Record server_options := ServerOptions {
  so_filename : string;
  so_format : string;
  so_aio : string;
  so_cache : bool;
}.

Section server.
Context `{MA : !Machine} (debug : bool).
Abbreviation MM := (M machine).

(** ** System calls *)

Definition with_dirs x m := MachineState x (socks m) (fds m) (procs m) (heap m) (blocked m) (actions m) (m_calls m).
Definition with_socks x m := MachineState (dirs m) x (fds m) (procs m) (heap m) (blocked m) (actions m) (m_calls m).
Definition with_fds x m := MachineState (dirs m) (socks m) x (procs m) (heap m) (blocked m) (actions m) (m_calls m).
Definition with_procs x m := MachineState (dirs m) (socks m) (fds m) x (heap m) (blocked m) (actions m) (m_calls m).
Definition with_heap x m := MachineState (dirs m) (socks m) (fds m) (procs m) x (blocked m) (actions m) (m_calls m).
Definition with_signals b a m := MachineState (dirs m) (socks m) (fds m) (procs m) (heap m) b a (m_calls m).
Definition with_calls n m := MachineState (dirs m) (socks m) (fds m) (procs m) (heap m) (blocked m) (actions m) n.

(** errno of a system call, 0 if it succeeds *)
Definition attempt (c : syscall) : MM Z :=
  m ← get; modify (with_calls (S (m_calls m)));; mret (m_fault c (m_calls m)).

(** [malloc], [calloc], [strdup], [asprintf]: whether it succeeded *)
Definition alloc : MM bool :=
  err ← attempt SAlloc;
  if fails err then mret false else modify (λ m, with_heap (heap m + 1) m);; mret true.

Definition free : MM unit :=
  m ← get;
  (if 0 <? heap m then mret tt else crashM CMemory);;
  modify (λ m, with_heap (heap m - 1) m).

(** The lowest unused descriptor. *)
Definition lowest (t : gmap nat desc) : nat :=
  match list_find (λ n, t !! n = None) (seq 0 (S (size t))) with Some (_, n) => n | None => 0%nat end.

Definition open_fd (d : desc) : MM nat :=
  m ← get; modify (λ m, with_fds (<[lowest (fds m) := d]> (fds m)) m);; mret (lowest (fds m)).

Definition close (fd : nat) : MM unit := modify (λ m, with_fds (delete fd (fds m)) m).

(** The new descriptor does not have the close-on-exec flag. *)
Definition dup2 (old new : nat) : MM unit :=
  err ← attempt SDup2;
  if fails err then mret tt
  else modify (λ m, match fds m !! old with
                    | Some d => with_fds (<[new := Desc (d_file d) false]> (fds m)) m
                    | None => m
                    end).

Definition unlink (path : string) : MM Z :=
  err ← attempt SUnlink;
  if fails err then mret err
  else
    m ← get;
    if decide (path ∈ socks m) then modify (λ m, with_socks (socks m ∖ {[path]}) m);; mret 0 else mret ENOENT.

(** The sockets in a directory. *)
Definition entries (dir : string) (m : machine) : gset string :=
  filter (λ p, String.prefix (dir +:+ "/") p = true) (socks m).

Definition rmdir (dir : string) : MM Z :=
  err ← attempt SRmdir;
  if fails err then mret err
  else
    m ← get;
    if decide (dir ∉ dirs m) then mret ENOENT
    else if decide (entries dir m ≠ ∅) then mret ENOTEMPTY
    else modify (λ m, with_dirs (dirs m ∖ {[dir]}) m);; mret 0.

(** ** The environment *)

(** Up to the first NULL, then the array. *)
Fixpoint free_strings (env : list (option string)) : MM unit :=
  match env with Some _ :: env' => free;; free_strings env' | _ => mret tt end.

Definition free_env (env : list (option string)) : MM unit := free_strings env;; free.

(** The loop over the environment; [calloc] left the slots that are skipped NULL. *)
Fixpoint copy_vars (l : list string) (env : list (option string)) : MM (bool * list (option string)) :=
  match l with
  | [] => mret (true, env)
  | v :: l' =>
      if Cli.is_listen v then copy_vars l' (env ++ [None])
      else
        ok ← alloc;
        if ok : bool then copy_vars l' (env ++ [Some v]) else mret (false, env)
  end.

Definition create_env : MM (option (list (option string))) :=
  ok ← alloc; (* calloc *)
  if negb ok then mret None
  else
    ok ← alloc;
    if negb ok then free_env [];; mret None
    else
      let env0 := Some "LISTEN_PID=xxxxxxxxxxxxxxxxxxxx"%string in
      ok ← alloc;
      if negb ok then free_env [env0];; mret None
      else
        let env1 := Some "LISTEN_FDS=1"%string in
        '(ok, env) ← copy_vars m_environ [env0; env1];
        if ok : bool then mret (Some (env ++ [None])) else free_env env;; mret None.

(** ** The temporary directory *)

(** [None]: the process exits. *)
Definition create_tmpdir (s : nbd_server) : MM (option nbd_server) :=
  ok ← alloc;
  if negb ok then mret None
  else
    err ← attempt SMkdtemp;
    if fails err then mret None
    else
      let path := ("/tmp/blksum-" +:+ m_suffix)%string in
      modify (λ m, with_dirs ({[path]} ∪ dirs m) m);;
      mret (Some (NbdServer (Some path) (sock s) (s_pid s))).

Definition remove_tmpdir (s : nbd_server) : MM nbd_server :=
  '(go, s) ←
    match sock s with
    | None => mret (true, s)
    | Some path =>
        err ← unlink path;
        if fails err then mret (false, s) else free;; mret (true, NbdServer (tmpdir s) None (s_pid s))
    end;
  if negb go then mret s
  else
    match tmpdir s with
    | None => mret s
    | Some dir =>
        err ← rmdir dir;
        if fails err then mret s else free;; mret (NbdServer None (sock s) (s_pid s))
    end.

(** ** The listening socket *)

(** The [fail] label: -1 *)
Definition socket_failed (s : nbd_server) (fd : option nat) : MM (option nat * nbd_server) :=
  free;;
  (if fd is Some fd then close fd else mret tt);;
  mret (None, NbdServer (tmpdir s) None (s_pid s)).

Definition create_listening_socket (s : nbd_server) : MM (option nat * nbd_server) :=
  ok ← alloc;
  if negb ok then mret (None, s)
  else
    dir ← derefM (tmpdir s);
    let path := (dir +:+ "/sock")%string in
    let s := NbdServer (tmpdir s) (Some path) (s_pid s) in
    err ← attempt SSocket;
    if fails err then socket_failed s None
    else
      fd ← open_fd (Desc (FSocket None false) false);
      (* memcpy(addr.sun_path, s->sock, strlen(s->sock) + 1) *)
      (if SUN_PATH <? Z.of_nat (String.length path) + 1 then crashM CMemory else mret tt);;
      err ← attempt SBind;
      m ← get;
      if fails err || bool_decide (path ∈ socks m) then socket_failed s (Some fd)
      else
        modify (λ m, with_fds (<[fd := Desc (FSocket (Some path) false) false]> (fds m))
          (with_socks ({[path]} ∪ socks m) m));;
        err ← attempt SListen;
        if fails err then socket_failed s (Some fd)
        else
          modify (λ m, with_fds (<[fd := Desc (FSocket (Some path) true) false]> (fds m)) m);;
          mret (Some fd, s).

(** ** The child *)

Definition set_cloexec (fd : nat) (on : bool) : MM Z :=
  err ← attempt SFcntl;
  m ← get;
  if fails err || bool_decide (fds m !! fd = None) then mret (-1)
  else
    err ← attempt SFcntl;
    if fails err then mret (-1)
    else modify (λ m, with_fds (alter (λ d, Desc (d_file d) on) fd (fds m)) m);; mret 0.

(** The saved descriptor, or -1. *)
Definition suppress_stderr : MM (option nat) :=
  err ← attempt SDup;
  m ← get;
  saved ←
    match (if fails err then None else fds m !! STDERR_FILENO) with
    | None => mret None
    | Some d => fd ← open_fd (Desc (d_file d) false); set_cloexec fd true;; mret (Some fd)
    end;
  err ← attempt SOpen;
  if fails err then (if saved is Some fd then close fd else mret tt);; mret None
  else
    devnull ← open_fd (Desc FDevNull false);
    dup2 devnull STDERR_FILENO;;
    close devnull;;
    mret saved.

Definition setup_signals : MM unit :=
  modify (λ m, with_signals (SIGINT :: blocked m) (<[SIGPIPE := SigDfl]> (actions m)) m).

Definition argv (opt : server_options) : list string :=
  ["qemu-nbd"; "--read-only"; "--persistent";
   "--cache"; if so_cache opt then "writeback" else "none";
   "--aio"; so_aio opt; "--shared"; "0"; "--format"; so_format opt; so_filename opt]%string.

(** ["%d"] of a number that is not negative; an int has at most ten digits. *)
Fixpoint decimal (fuel : nat) (n : Z) (text : string) : string :=
  match fuel with
  | O => text
  | S fuel' =>
      let text := String (Ascii.ascii_of_N (Z.to_N (48 + n mod 10))) text in
      if n / 10 =? 0 then text else decimal fuel' (n / 10) text
  end.

(** [snprintf(env[0] + PREFIX_LENGTH, strlen(env[0]) - PREFIX_LENGTH, "%d", pid)] *)
Definition set_listen_pid (env : list (option string)) : list (option string) :=
  match env with
  | Some v :: env' =>
      Some (String.substring 0 PREFIX_LENGTH v +:+
        String.substring 0 (String.length v - PREFIX_LENGTH - 1) (decimal 10 m_pid EmptyString))%string :: env'
  | _ => env
  end.

(** A handler is reset when a program is executed; closed on exec. *)
Definition inherited (t : gmap nat desc) : gmap nat desc := filter (λ p, d_cloexec p.2 = false) t.
Definition reset_handlers (a : gmap Z action) : gmap Z action :=
  (λ x, if x is SigIgn then SigIgn else SigDfl) <$> a.

Definition exec_qemu_nbd (fd : nat) (env : list (option string)) (opt : server_options) : MM child :=
  rc ←
    (if (fd =? FIRST_SOCKET_ACTIVATION_FD)%nat then set_cloexec fd false
     else dup2 fd FIRST_SOCKET_ACTIVATION_FD;; close fd;; mret 0);
  if fails rc then mret (Exited 1)
  else
    let env := set_listen_pid env in
    setup_signals;;
    saved ← (if debug then mret None else suppress_stderr);
    err ← attempt SExec;
    m ← get;
    if fails err then
      (if saved is Some fd then dup2 fd STDERR_FILENO else mret tt);;
      mret (Exited (if err =? ENOENT then 127 else 126))
    else
      mret (Executed (Program (argv opt) (Cli.env_vars env) (inherited (fds m)) (blocked m)
        (reset_handlers (actions m)))).

(** ** Start and stop *)

(** The [fail] label: the process exits with 1. *)
Definition start_failed (s : nbd_server) (fd : option nat) (env : option (list (option string))) :
    MM (option nbd_server) :=
  (if env is Some env then free_env env else mret tt);;
  (if fd is Some fd then close fd else mret tt);;
  remove_tmpdir s;;
  free;;
  mret None.

(** The child works on a copy of the state of its parent. *)
Definition fork (fd : nat) (env : list (option string)) (opt : server_options) : MM Z :=
  err ← attempt SFork;
  if fails err then mret (-1)
  else
    m ← get;
    modify (with_procs (<[m_pid := match exec_qemu_nbd fd env opt m with Ret c _ => c | Crash _ => Exited 1 end]>
      (procs m)));;
    mret m_pid.

Definition start_nbd_server (opt : server_options) : MM (option nbd_server) :=
  ok ← alloc;
  if negb ok then mret None
  else
    s ← create_tmpdir (NbdServer None None 0);
    match s with
    | None => mret None
    | Some s =>
        '(fd, s) ← create_listening_socket s;
        match fd with
        | None => start_failed s None None
        | Some fd =>
            env ← create_env;
            match env with
            | None => start_failed s (Some fd) None
            | Some env =>
                pid ← fork fd env opt;
                if pid =? -1 then start_failed s (Some fd) (Some env)
                else
                  free_env env;;
                  close fd;;
                  mret (Some (NbdServer (tmpdir s) (sock s) pid))
            end
        end
    end.

(** [None]: the process exits. *)
Definition nbd_server_uri (s : nbd_server) : MM (option string) :=
  ok ← alloc;
  if negb ok then mret None
  else path ← derefM (sock s); mret (Some ("nbd+unix:///?socket=" +:+ path)%string).

Definition stop_nbd_server (s : nbd_server) : MM nbd_server :=
  modify (λ m, with_procs (alter (λ c, if c is Executed _ then Killed else c) (s_pid s) (procs m)) m);;
  err ← attempt SWaitpid;
  (if fails err then mret tt else modify (λ m, with_procs (delete (s_pid s) (procs m)) m));;
  remove_tmpdir (NbdServer (tmpdir s) (sock s) (-1)).
End server.
