(* ===== verification/ServerTheorems.v ===== *)
(** * The life of the qemu-nbd server

    What blksum leaves on the machine: nothing after a server was stopped, nothing
    after a start that failed (with one exception), and a server that was started
    runs with the socket and the environment that socket activation needs. *)

From stdpp Require Import prelude list strings gmap.
From Stdlib Require Import ZArith Lia.
From S2P Require Import Prelude Server.
From S2P Require Cli CliTheorems.

Local Open Scope Z_scope.

Section server.
Context `{MA : !Machine} (debug : bool).
Implicit Types (m : machine) (s : nbd_server).
Local Abbreviation wps := (wp False).

(** The path of the temporary directory and of the socket. *)
Definition dir_path : string := "/tmp/blksum-" +:+ m_suffix.
Definition sock_path : string := dir_path +:+ "/sock".

(** [mkdtemp] replaces six characters with a name that was not in use; the pid of the
    child is new. *)
Record machine_ok m : Prop := {
  mo_suffix : String.length m_suffix = 6%nat;
  mo_dir : dir_path ∉ dirs m;
  mo_socks : ∀ p, p ∈ socks m → String.prefix (dir_path +:+ "/") p = false;
  mo_pid : 0 < m_pid < 2 ^ 31 ∧ procs m !! m_pid = None;
  mo_heap : 0 <= heap m;
}.

(** ** System calls *)

(** Only the number of calls and of allocations changed. *)
Definition quiet m m' : Prop :=
  dirs m' = dirs m ∧ socks m' = socks m ∧ fds m' = fds m ∧ procs m' = procs m ∧
  blocked m' = blocked m ∧ actions m' = actions m.

#[local] Instance quiet_refl : Reflexive quiet.
Proof using Type. done. Qed.

#[local] Instance quiet_trans : Transitive quiet.
Proof using Type.
  intros m1 m2 m3 (H1 & H2 & H3 & H4 & H5 & H6) (K1 & K2 & K3 & K4 & K5 & K6). unfold quiet.
  rewrite K1, K2, K3, K4, K5, K6. by split_and!.
Qed.

Lemma attempt_ok c m (Q : Z → machine → Prop) :
  (∀ e, (e ≠ 0 → ∃ n, m_fault c n ≠ 0) → Q e (with_calls (S (m_calls m)) m)) → wps (attempt c) Q m.
Proof using Type. intros HQ. unfold attempt. wp_steps. apply HQ. intros He. by exists (m_calls m). Qed.

Lemma alloc_ok m :
  wps alloc (λ ok m', quiet m m' ∧ heap m' = heap m + (if ok then 1 else 0) ∧
    (ok = false → ∃ n, m_fault SAlloc n ≠ 0)) m.
Proof using Type.
  unfold alloc. wp_step. apply attempt_ok. intros e He. unfold fails. destruct (e =? 0) eqn:E; simpl; wp_steps; simpl.
  - by split_and!.
  - split_and!; [done|lia|]. intros _. apply He. lia.
Qed.

Lemma free_ok m (Q : unit → machine → Prop) :
  0 < heap m → Q tt (with_heap (heap m - 1) m) → wps free Q m.
Proof using Type. intros Hh HQ. unfold free. wp_step. wp_step. wp_step. rewrite (proj2 (Z.ltb_lt _ _)) by lia. wp_steps. done. Qed.

Lemma lookup_lowest (t : gmap nat desc) : t !! lowest t = None.
Proof using Type.
  unfold lowest. destruct (list_find _ _) as [[i n]|] eqn:E; [by apply list_find_Some in E as (_ & ? & _)|].
  apply list_find_None in E. exfalso.
  assert (list_to_set (seq 0 (S (size t))) ⊆ dom t) as Hs.
  { intros n Hn. apply elem_of_list_to_set in Hn. rewrite Forall_forall in E. specialize (E n Hn).
    apply elem_of_dom. destruct (t !! n); [done|by destruct E]. }
  apply subseteq_size in Hs. rewrite size_list_to_set, length_seq, size_dom in Hs by apply NoDup_seq. lia.
Qed.

(** ** The environment *)

(** The strings of an environment before the first NULL. *)
Definition reachable_strings (env : list (option string)) : Z := zlen (Cli.env_vars env).

Fixpoint all_strings (env : list (option string)) : Z :=
  match env with [] => 0 | o :: env' => (if o is Some _ then 1 else 0) + all_strings env' end.

Lemma reachable_all env : 0 <= reachable_strings env <= all_strings env.
Proof using Type.
  unfold reachable_strings, zlen. induction env as [|[v|] env IH]; simpl; [lia|lia|].
  assert (0 <= all_strings env); [|lia]. clear IH. induction env as [|[] env IH]; simpl; lia.
Qed.

Lemma free_strings_ok env m (Q : unit → machine → Prop) :
  reachable_strings env <= heap m →
  (∀ m', quiet m m' → heap m' = heap m - reachable_strings env → Q tt m') → wps (free_strings env) Q m.
Proof using Type.
  revert m. induction env as [|[v|] env IH]; intros m Hh HQ; simpl.
  1,3: wp_step; apply HQ; [done|unfold reachable_strings, zlen; simpl; lia].
  assert (reachable_strings (Some v :: env) = reachable_strings env + 1) as He
    by (unfold reachable_strings, zlen; simpl; lia).
  pose proof (reachable_all env). wp_step. apply free_ok; [lia|]. apply IH; [simpl; lia|].
  intros m' Hq Hm. apply HQ; [by etrans; [|exact Hq]|simpl in Hm; lia].
Qed.

Lemma free_env_ok env m (Q : unit → machine → Prop) :
  1 + reachable_strings env <= heap m →
  (∀ m', quiet m m' → heap m' = heap m - 1 - reachable_strings env → Q tt m') → wps (free_env env) Q m.
Proof using Type.
  intros Hh HQ. pose proof (reachable_all env). unfold free_env. wp_step. apply free_strings_ok; [lia|].
  intros m1 Hq H1. apply free_ok; [lia|]. apply HQ; [by etrans; [exact Hq|]|simpl; lia].
Qed.

Lemma all_strings_snoc env o : all_strings (env ++ [o]) = all_strings env + (if o is Some _ then 1 else 0).
Proof using Type. induction env as [|x env IH]; simpl; [|rewrite IH]; lia. Qed.

Lemma copy_vars_ok l env m :
  wps (copy_vars l env) (λ r m', quiet m m' ∧ heap m' - all_strings r.2 = heap m - all_strings env ∧
    (r.1 = false → ∃ n, m_fault SAlloc n ≠ 0) ∧
    (r.1 = true → r.2 = env ++ ((λ v, if Cli.is_listen v then None else Some v) <$> l))) m.
Proof using Type.
  revert env m. induction l as [|v l IH]; intros env m; simpl.
  { wp_step. split_and!; [done|done|done|]. by rewrite app_nil_r. }
  destruct (Cli.is_listen v).
  - eapply wp_mono; [apply IH|]. intros r m' (Hq & Hh & Hf & Ht). rewrite all_strings_snoc in Hh. simpl in Hh.
    split_and!; [done|lia|done|]. intros Hr. rewrite (Ht Hr). by rewrite <-app_assoc.
  - wp_step. eapply wp_mono; [apply alloc_ok|]. intros ok m1 (Hq1 & Hh1 & Hf1). cbv beta. destruct ok.
    + eapply wp_mono; [apply IH|]. intros r m' (Hq & Hh & Hf & Ht). rewrite all_strings_snoc in Hh. simpl in *.
      split_and!; [by etrans|lia|done|]. intros Hr. rewrite (Ht Hr). by rewrite <-app_assoc.
    + wp_step. split_and!; [done|simpl; lia|auto|done].
Qed.

Lemma create_env_ok m :
  0 <= heap m →
  wps create_env (λ r m', quiet m m' ∧
    match r with
    | Some env => env = Cli.create_env m_environ ∧ heap m' = heap m + 1 + all_strings env
    | None => heap m <= heap m' ∧ ∃ n, m_fault SAlloc n ≠ 0
    end) m.
Proof using Type.
  intros Hm. unfold create_env. wp_step. eapply wp_mono; [apply alloc_ok|]. intros ok m1 (Hq1 & Hh1 & Hf1). cbv beta.
  destruct ok; cbn [negb]; [|wp_step; split_and!; [done|lia|auto]].
  wp_step. eapply wp_mono; [apply alloc_ok|]. intros ok m2 (Hq2 & Hh2 & Hf2). cbv beta.
  assert (quiet m m2) as Hq2' by by etrans.
  destruct ok; cbn [negb].
  2:{ wp_step. apply free_env_ok; [unfold reachable_strings, zlen; simpl; lia|]. intros m3 Hq3 Hh3.
      unfold reachable_strings, zlen in Hh3. simpl in Hh3. wp_step. split_and!; [by etrans|lia|auto]. }
  cbv zeta. wp_step. eapply wp_mono; [apply alloc_ok|]. intros ok m3 (Hq3 & Hh3 & Hf3). cbv beta.
  assert (quiet m m3) as Hq3' by by etrans.
  destruct ok; cbn [negb].
  2:{ wp_step. apply free_env_ok; [unfold reachable_strings, zlen; simpl; lia|]. intros m4 Hq4 Hh4.
      unfold reachable_strings, zlen in Hh4. simpl in Hh4. wp_step. split_and!; [by etrans|lia|auto]. }
  wp_step. eapply wp_mono; [apply copy_vars_ok|]. intros [ok env] m4 (Hq4 & Hh4 & Hf4 & Ht4). cbv beta.
  cbn [fst snd] in *. assert (quiet m m4) as Hq4' by by etrans.
  assert (all_strings [Some "LISTEN_PID=xxxxxxxxxxxxxxxxxxxx"; Some "LISTEN_FDS=1"]%string = 2) as H2 by done.
  destruct ok.
  - wp_step. split; [done|]. rewrite (Ht4 eq_refl) in *. split; [by unfold Cli.create_env; rewrite <-app_assoc|].
    rewrite H2 in Hh4. rewrite all_strings_snoc. cbv iota. lia.
  - pose proof (reachable_all env). wp_step. apply free_env_ok; [lia|]. intros m5 Hq5 Hh5. wp_step.
    split_and!; [by etrans|lia|auto].
Qed.

(** ** The temporary directory *)

(** The strings that a server owns. *)
Definition owned s : Z := (if tmpdir s is Some _ then 1 else 0) + (if sock s is Some _ then 1 else 0).

(** Descriptors, children and signals did not change. *)
Definition inside m m' : Prop :=
  fds m' = fds m ∧ procs m' = procs m ∧ blocked m' = blocked m ∧ actions m' = actions m.

Lemma unlink_ok path m (Q : Z → machine → Prop) :
  (∀ e, e ≠ 0 → ((∀ n, m_fault SUnlink n = 0) → path ∉ socks m) → Q e (with_calls (S (m_calls m)) m)) →
  (path ∈ socks m → Q 0 (with_socks (socks m ∖ {[path]}) (with_calls (S (m_calls m)) m))) →
  wps (unlink path) Q m.
Proof using Type.
  intros Hne H0. unfold unlink. wp_step. apply attempt_ok. intros e He. unfold fails.
  destruct (e =? 0) eqn:E; cbn [negb].
  - do 2 wp_step. simpl. destruct (decide (path ∈ socks m)) as [Hin|Hin]; wp_steps; [by apply H0|by apply Hne].
  - wp_step. apply Hne; [lia|]. intros Hf. destruct He as [n Hn]; [lia|]. by rewrite Hf in Hn.
Qed.

Lemma rmdir_ok dir m (Q : Z → machine → Prop) :
  (∀ e, e ≠ 0 → ((∀ n, m_fault SRmdir n = 0) → dir ∈ dirs m → entries dir m = ∅ → False) →
    Q e (with_calls (S (m_calls m)) m)) →
  (dir ∈ dirs m → entries dir m = ∅ → Q 0 (with_dirs (dirs m ∖ {[dir]}) (with_calls (S (m_calls m)) m))) →
  wps (rmdir dir) Q m.
Proof using Type.
  intros Hne H0. unfold rmdir. wp_step. apply attempt_ok. intros e He. unfold fails.
  destruct (e =? 0) eqn:E; cbn [negb].
  - do 2 wp_step. unfold entries. cbn [with_calls socks dirs]. fold (entries dir m).
    destruct (decide (dir ∉ dirs m)) as [Hin|Hin]; [wp_step; by apply Hne|]. apply dec_stable in Hin.
    destruct (decide (entries dir m ≠ ∅)) as [Hen|Hen]; [wp_step; by apply Hne|]. apply dec_stable in Hen.
    wp_steps. by apply H0.
  - wp_step. apply Hne; [lia|]. intros Hf. destruct He as [n Hn]; [lia|]. by rewrite Hf in Hn.
Qed.

(** What is left when removing never fails. *)
Definition removed s m m' : Prop :=
  (∀ n, m_fault SUnlink n = 0 ∧ m_fault SRmdir n = 0) →
  ∀ dir, tmpdir s = Some dir → dir ∈ dirs m →
  match sock s with
  | Some path => path ∈ socks m ∧ entries dir m = {[path]}
  | None => entries dir m = ∅
  end →
  dirs m' = dirs m ∖ {[dir]} ∧ heap m' = heap m - owned s ∧
  socks m' = match sock s with Some path => socks m ∖ {[path]} | None => socks m end.

Lemma remove_tmpdir_ok s m :
  owned s <= heap m →
  wps (remove_tmpdir s) (λ _ m', inside m m' ∧ heap m - owned s <= heap m' ∧ removed s m m') m.
Proof using Type.
  intros Hh. unfold remove_tmpdir. wp_step.
  assert (∀ m1 s1, tmpdir s1 = tmpdir s → sock s1 = None → inside m m1 → heap m1 = heap m - (owned s - owned s1) →
    dirs m1 = dirs m → (∀ dir, tmpdir s = Some dir →
      match sock s with Some path => path ∈ socks m ∧ entries dir m = {[path]} | None => entries dir m = ∅ end →
      entries dir m1 = ∅ ∧ socks m1 = match sock s with Some path => socks m ∖ {[path]} | None => socks m end) →
    wps (match tmpdir s1 with
         | Some dir => err ← rmdir dir; if fails err then mret s1 else free;; mret (NbdServer None (sock s1) (s_pid s1))
         | None => mret s1
         end) (λ _ m', inside m m' ∧ heap m - owned s <= heap m' ∧ removed s m m') m1) as Hdir.
  { intros m1 s1 Ht Hs Hi Hh1 Hd He. rewrite Ht.
    assert (owned s1 = if tmpdir s is Some _ then 1 else 0) as Ho by (unfold owned; rewrite Ht, Hs; lia).
    destruct (tmpdir s) as [dir|] eqn:Etd.
    2:{ wp_step. split_and!; [done|lia|]. intros _ dir Hdir. by rewrite Etd in Hdir. }
    wp_step. apply rmdir_ok.
    - intros e Hne Hf. unfold fails. rewrite (proj2 (Z.eqb_neq e 0)) by done. cbn [negb]. wp_step.
      split_and!; [done|simpl; lia|]. intros Hnf dir' Hdir' Hin Hen. rewrite Etd in Hdir'. injection Hdir' as <-.
      exfalso. apply Hf; [apply Hnf|by rewrite Hd|by apply He].
    - intros Hin Hen. change (fails 0) with false. cbv iota. wp_step. apply free_ok; [simpl; unfold owned in *; destruct (sock s); lia|].
      wp_step. simpl. split_and!; [done|lia|]. intros Hnf dir' Hdir' Hin' Hen'. rewrite Etd in Hdir'. injection Hdir' as <-.
      simpl. rewrite Hd. split_and!; [done|lia|]. by apply (He dir). }
  destruct (sock s) as [path|] eqn:Es.
  - wp_step. apply unlink_ok.
    + intros e Hne Hf. unfold fails. rewrite (proj2 (Z.eqb_neq e 0)) by done. cbn [negb]. wp_step. cbn [negb]. wp_step. simpl.
      split_and!; [done|unfold owned in *; simpl; rewrite Es in *; destruct (tmpdir s); lia|].
      intros Hnf dir Hdir' _ Hen. rewrite Es in Hen. destruct Hen as [Hen _]. exfalso. apply Hf; [apply Hnf|done].
    + intros Hin. change (fails 0) with false. cbv iota. wp_step.
      assert (owned s = owned (NbdServer (tmpdir s) None (s_pid s)) + 1) as Ho by (unfold owned; rewrite Es; simpl; lia).
      assert (0 <= owned (NbdServer (tmpdir s) None (s_pid s))) by (unfold owned; simpl; destruct (tmpdir s); lia).
      apply free_ok; [simpl; lia|]. wp_step. simpl. apply (Hdir _ (NbdServer (tmpdir s) None (s_pid s))); try done; simpl; [lia|].
      intros dir Hd [Hp He]. split; [|done]. unfold entries in *. simpl. apply set_eq. intros x. split; [|by intros ?%elem_of_empty].
      intros [Hx [Hxs Hxp]%elem_of_difference]%elem_of_filter. destruct Hxp. rewrite <-He. by apply elem_of_filter.
  - wp_step. simpl. apply (Hdir m s); try done; lia.
Qed.

(** ** The listening socket *)

Definition broken : Prop := ∃ c n, m_fault c n ≠ 0.

Lemma broken_by c : (∃ n, m_fault c n ≠ 0) → broken.
Proof using Type. intros [n Hn]. by exists c, n. Qed.

Lemma prefix_app a b : String.prefix a (a +:+ b) = true.
Proof using Type. induction a as [|x a IH]; simpl; [by destruct b|]. by destruct (Ascii.ascii_dec x x). Qed.

Lemma sock_in_dir : String.prefix (dir_path +:+ "/") sock_path = true.
Proof using Type.
  unfold sock_path. assert (∀ a b c : string, (a +:+ (b +:+ c) = (a +:+ b) +:+ c)%string) as Hassoc.
  { intros a b c. induction a as [|x a IH]; [done|]. exact (f_equal (String x) IH). }
  change "/sock"%string with ("/" +:+ "sock")%string. rewrite Hassoc. apply prefix_app.
Qed.

Lemma length_append a b : String.length (a +:+ b) = (String.length a + String.length b)%nat.
Proof using Type. induction a as [|x a IH]; simpl; [done|by rewrite IH]. Qed.

Lemma sock_length m : machine_ok m → (SUN_PATH <? Z.of_nat (String.length sock_path) + 1) = false.
Proof using Type.
  intros Hm. unfold sock_path, dir_path. rewrite !length_append, (mo_suffix _ Hm). vm_compute. done.
Qed.

Lemma sock_new m : machine_ok m → sock_path ∉ socks m.
Proof using Type.
  intros Hm Hin. pose proof (mo_socks _ Hm _ Hin) as Hp. by rewrite sock_in_dir in Hp.
Qed.

Lemma entries_before m : machine_ok m → entries dir_path m = ∅.
Proof using Type.
  intros Hm. apply set_eq. intros x. split; [|by intros ?%elem_of_empty]. intros [Hp Hx]%elem_of_filter.
  by rewrite (mo_socks _ Hm _ Hx) in Hp.
Qed.

Lemma entries_after m : machine_ok m → entries dir_path (with_socks ({[sock_path]} ∪ socks m) m) = {[sock_path]}.
Proof using Type.
  intros Hm. apply set_eq. intros x. unfold entries. simpl. rewrite elem_of_filter, elem_of_union, elem_of_singleton. split.
  - intros [Hp [?|Hx]]; [done|]. by rewrite (mo_socks _ Hm _ Hx) in Hp.
  - intros ->. split; [apply sock_in_dir|by left].
Qed.

(** What an attempt to listen leaves. *)
Definition listening (fd : nat) m m' : Prop :=
  fds m !! fd = None ∧ fds m' = <[fd := Desc (FSocket (Some sock_path) true) false]> (fds m) ∧
  socks m' = {[sock_path]} ∪ socks m ∧ dirs m' = dirs m ∧ procs m' = procs m ∧
  blocked m' = blocked m ∧ actions m' = actions m ∧ heap m' = heap m + 1.

Definition not_listening m m' : Prop :=
  inside m m' ∧ dirs m' = dirs m ∧ heap m' = heap m ∧ broken ∧
  (socks m' = socks m ∨ socks m' = {[sock_path]} ∪ socks m ∧ ∃ n, m_fault SListen n ≠ 0).

Lemma socket_failed_ok s fd m0 m (Q : option nat * nbd_server → machine → Prop) :
  0 < heap m → fds m0 !! fd = None → (∃ d, fds m = <[fd := d]> (fds m0)) →
  (∀ m', fds m' = fds m0 → dirs m' = dirs m → socks m' = socks m → procs m' = procs m → blocked m' = blocked m →
    actions m' = actions m → heap m' = heap m - 1 → Q (None, NbdServer (tmpdir s) None (s_pid s)) m') →
  wps (socket_failed s (Some fd)) Q m.
Proof using Type.
  intros Hh Hn [d Hd] HQ. unfold socket_failed. wp_step. apply free_ok; [done|]. unfold close. wp_steps.
  apply HQ; try done. simpl. rewrite Hd. by apply delete_insert_id.
Qed.

Lemma create_listening_socket_ok s m0 m :
  machine_ok m0 → socks m = socks m0 → tmpdir s = Some dir_path → 0 <= heap m →
  wps (create_listening_socket s) (λ r m', match r.1 with
    | Some fd => listening fd m m' ∧ r.2 = NbdServer (Some dir_path) (Some sock_path) (s_pid s)
    | None => not_listening m m' ∧ (sock s = None → r.2 = NbdServer (Some dir_path) None (s_pid s))
    end) m.
Proof using Type.
  intros Hm Hsk Ht Hh. unfold create_listening_socket. wp_step. eapply wp_mono; [apply alloc_ok|].
  intros ok m1 ((Hd1 & Hs1 & Hf1 & Hp1 & Hb1 & Ha1) & Hh1 & Hx1). cbv beta.
  destruct ok; cbn [negb].
  2:{ wp_step. simpl. split; [|intros Hs; destruct s; simpl in *; by subst].
      split_and!; [by split_and!|done|lia|by eapply broken_by, Hx1|by left]. }
  rewrite Ht. wp_step. eapply wp_derefM; [done|]. cbv zeta. wp_step. apply attempt_ok. intros e1 He1. unfold fails at 1.
  destruct (e1 =? 0) eqn:E1; cbn [negb].
  2:{ unfold socket_failed. wp_step. apply free_ok; [simpl; lia|]. wp_steps. simpl. split; [|done].
      split_and!; [by split_and!|done|simpl; lia|by apply (broken_by SSocket), He1; lia|by left]. }
  unfold open_fd. wp_step. do 5 wp_step. cbn [with_calls fds]. set (fd := lowest (fds m1)).
  assert (fds m !! fd = None) as Hfd by (rewrite <-Hf1; apply lookup_lowest).
  change (dir_path +:+ "/sock")%string with sock_path. wp_step. rewrite (sock_length _ Hm). wp_step. wp_step.
  apply attempt_ok. intros e2 He2. do 2 wp_step. cbn [with_calls with_fds socks]. rewrite bool_decide_false.
  2:{ rewrite Hs1, Hsk. by apply sock_new. }
  rewrite orb_false_r. unfold fails at 1. destruct (e2 =? 0) eqn:E2; cbn [negb].
  2:{ eapply (socket_failed_ok _ fd m); [simpl; lia|done|eexists; simpl; by rewrite Hf1|].
      intros m' H1 H2 H3 H4 H5 H6 H7. simpl in *. split; [|done].
      split_and!; [split_and!; congruence|congruence|lia|by apply (broken_by SBind), He2; lia|left; congruence]. }
  do 3 wp_step. apply attempt_ok. intros e3 He3. unfold fails at 1. destruct (e3 =? 0) eqn:E3; cbn [negb].
  2:{ eapply (socket_failed_ok _ fd m); [simpl; lia|done|eexists; simpl; by rewrite Hf1, insert_insert_eq|].
      intros m' H1 H2 H3 H4 H5 H6 H7. simpl in *. split; [|done].
      split_and!; [split_and!; congruence|congruence|lia|by apply (broken_by SListen), He3; lia|].
      right. split; [congruence|apply He3; lia]. }
  wp_steps. simpl. split; [|done]. split_and!; simpl; try congruence; try lia.
  by rewrite Hf1, !insert_insert_eq.
Qed.

(** ** Starting *)

Lemma create_tmpdir_ok s m (Q : option nbd_server → machine → Prop) :
  (∀ m', quiet m m' → broken → Q None m') →
  (∀ m', quiet m (with_dirs (dirs m) m') → dirs m' = {[dir_path]} ∪ dirs m → heap m' = heap m + 1 →
    Q (Some (NbdServer (Some dir_path) (sock s) (s_pid s))) m') →
  wps (create_tmpdir s) Q m.
Proof using Type.
  intros Hn Hs. unfold create_tmpdir. wp_step. eapply wp_mono; [apply alloc_ok|].
  intros ok m1 (Hq & Hh & Hf). cbv beta. destruct ok; cbn [negb]; [|wp_step; apply Hn; [done|by eapply broken_by, Hf]].
  wp_step. apply attempt_ok. intros e He. unfold fails. destruct (e =? 0) eqn:E; cbn [negb].
  - cbv zeta. wp_steps. destruct Hq as (H1 & H2 & H3 & H4 & H5 & H6).
    apply Hs; [by split_and!|simpl; by rewrite H1|done].
  - wp_step. apply Hn; [done|]. apply (broken_by SMkdtemp), He. lia.
Qed.

Lemma add_remove (x : string) (X : gset string) : x ∉ X → ({[x]} ∪ X) ∖ {[x]} = X.
Proof using Type. clear debug MA. set_solver. Qed.

Lemma elem_of_added (x : string) (X : gset string) : x ∈ {[x]} ∪ X.
Proof using Type. apply elem_of_union_l. by apply elem_of_singleton. Qed.

(** What removing the directory of the server needs. *)
Lemma removed_clean s m0 m m' :
  machine_ok m0 → tmpdir s = Some dir_path → dirs m = {[dir_path]} ∪ dirs m0 → removed s m m' →
  (∀ n, m_fault SUnlink n = 0 ∧ m_fault SRmdir n = 0) →
  match sock s with
  | Some path => path = sock_path ∧ socks m = {[sock_path]} ∪ socks m0
  | None => socks m = socks m0
  end →
  dirs m' = dirs m0 ∧ socks m' = socks m0 ∧ heap m' = heap m - owned s.
Proof using Type.
  intros Hm Ht Hd Hr Hf Hs. pose proof (mo_dir _ Hm) as Hnd. pose proof (sock_new _ Hm) as Hns.
  destruct (Hr Hf dir_path Ht) as (H1 & H2 & H3); [rewrite Hd; apply elem_of_added| |].
  - destruct (sock s) as [path|].
    + destruct Hs as [-> Hs]. split; [rewrite Hs; apply elem_of_added|]. rewrite <-(entries_after m0 Hm). unfold entries. simpl. by rewrite Hs.
    + rewrite <-(entries_before m0 Hm). unfold entries. by rewrite Hs.
  - split_and!; [rewrite H1, Hd; by apply add_remove| |done]. rewrite H3. destruct (sock s) as [path|]; [|done].
    destruct Hs as [-> Hs]. rewrite Hs. by apply add_remove.
Qed.

(** The faults that keep a start that failed from cleaning up. *)
Definition cleanup_works : Prop :=
  ∀ n, m_fault SUnlink n = 0 ∧ m_fault SRmdir n = 0 ∧ m_fault SListen n = 0.

(** The machine after a start that failed. *)
Definition not_started m m' : Prop :=
  broken ∧ fds m' = fds m ∧ procs m' = procs m ∧ blocked m' = blocked m ∧ actions m' = actions m ∧
  (cleanup_works → dirs m' = dirs m ∧ socks m' = socks m).

Lemma start_failed_ok s fd env m0 m :
  machine_ok m0 → tmpdir s = Some dir_path → dirs m = {[dir_path]} ∪ dirs m0 → procs m = procs m0 →
  blocked m = blocked m0 → actions m = actions m0 → broken →
  match fd with
  | Some fd => fds m0 !! fd = None ∧ ∃ d, fds m = <[fd := d]> (fds m0)
  | None => fds m = fds m0
  end →
  (cleanup_works → match sock s with
    | Some path => path = sock_path ∧ socks m = {[sock_path]} ∪ socks m0
    | None => socks m = socks m0
    end) →
  1 + owned s + (if env is Some env then 1 + reachable_strings env else 0) <= heap m →
  wps (start_failed s fd env) (λ r m', r = None ∧ not_started m0 m') m.
Proof using Type.
  intros Hm Ht Hd Hp Hb Ha Hbr Hfd Hs Hh. unfold start_failed. wp_step.
  assert (0 <= owned s) by (unfold owned; destruct (tmpdir s), (sock s); lia).
  eapply wp_mono with (P := λ _ m1, quiet m m1 ∧ 1 + owned s <= heap m1).
  { destruct env as [env|]; [|wp_step; split; [done|lia]]. pose proof (reachable_all env). apply free_env_ok; [lia|].
    intros m1 Hq Hh1. split; [done|lia]. }
  intros _ m1 [(Q1 & Q2 & Q3 & Q4 & Q5 & Q6) Hh1]. cbv beta. wp_step.
  eapply wp_mono with (P := λ _ m2, fds m2 = fds m0 ∧ dirs m2 = dirs m ∧ socks m2 = socks m ∧ procs m2 = procs m ∧
    blocked m2 = blocked m ∧ actions m2 = actions m ∧ heap m2 = heap m1).
  { destruct fd as [fd|]; [|wp_step; split_and!; congruence]. destruct Hfd as [Hn [d Hf]]. unfold close. wp_step. simpl.
    split_and!; try congruence. rewrite Q3, Hf. by apply delete_insert_id. }
  intros _ m2 (K1 & K2 & K3 & K4 & K5 & K6 & K7). cbv beta. wp_step.
  eapply wp_mono; [apply remove_tmpdir_ok; lia|]. intros _ m3 ((I1 & I2 & I3 & I4) & Hh3 & Hrm). cbv beta. wp_step.
  apply free_ok; [lia|]. wp_step. split; [done|]. split; [done|]. simpl. split_and!; try congruence. intros Hc. specialize (Hs Hc).
  destruct (removed_clean s m0 m2 m3 Hm Ht ltac:(congruence) Hrm) as (? & ? & _); [|rewrite K3; done|done].
  intros n. destruct (Hc n) as (? & ? & ?). done.
Qed.

(** The strings behind a variable of socket activation, which [free_env] does not free. *)
Definition env_leak : Z := all_strings (Cli.create_env m_environ) - reachable_strings (Cli.create_env m_environ).

(** The machine while the server runs. *)
Record started (opt : server_options) m m' : Prop := {
  sd_dirs : dirs m' = {[dir_path]} ∪ dirs m;
  sd_socks : socks m' = {[sock_path]} ∪ socks m;
  sd_fds : fds m' = fds m;
  sd_signals : blocked m' = blocked m ∧ actions m' = actions m;
  sd_heap : heap m' = heap m + 3 + env_leak;
  sd_child : ∃ fd mc c mc', fds m !! fd = None ∧
    fds mc = <[fd := Desc (FSocket (Some sock_path) true) false]> (fds m) ∧
    blocked mc = blocked m ∧ actions mc = actions m ∧
    exec_qemu_nbd debug fd (Cli.create_env m_environ) opt mc = Ret c mc' ∧
    procs m' = <[m_pid := c]> (procs m);
}.

(** ** The child *)

Lemma set_cloexec_ok fd on m (Q : Z → machine → Prop) :
  (∀ n, broken ∨ fds m !! fd = None → Q (-1) (with_calls n m)) →
  (∀ n d, fds m !! fd = Some d → Q 0 (with_fds (<[fd := Desc (d_file d) on]> (fds m)) (with_calls n m))) →
  wps (set_cloexec fd on) Q m.
Proof using Type.
  intros Hf H0. unfold set_cloexec. wp_step. apply attempt_ok. intros e He. do 2 wp_step. cbn [with_calls fds]. unfold fails at 1.
  destruct (e =? 0) eqn:E; cbn [negb orb]; [|wp_step; apply Hf; left; apply (broken_by SFcntl), He; lia].
  destruct (fds m !! fd) as [d|] eqn:Ed; [rewrite bool_decide_false by done|rewrite bool_decide_true by done].
  2:{ wp_step. apply Hf. by right. }
  wp_step. apply attempt_ok. intros e2 He2. unfold fails. destruct (e2 =? 0) eqn:E2; cbn [negb].
  - wp_steps. simpl.
    assert (alter (λ d, Desc (d_file d) on) fd (fds m) = <[fd := Desc (d_file d) on]> (fds m)) as ->; [|by apply H0].
    apply map_eq. intros i. destruct (decide (i = fd)) as [->|];
      [by rewrite lookup_alter_eq, Ed, lookup_insert_eq|by rewrite lookup_alter_ne, lookup_insert_ne].
  - wp_step. apply Hf. left. apply (broken_by SFcntl), He2. lia.
Qed.

Lemma dup2_ok old new m (Q : unit → machine → Prop) :
  (∀ n, broken ∨ fds m !! old = None → Q tt (with_calls n m)) →
  (∀ n d, fds m !! old = Some d → Q tt (with_fds (<[new := Desc (d_file d) false]> (fds m)) (with_calls n m))) →
  wps (dup2 old new) Q m.
Proof using Type.
  intros Hf H0. unfold dup2. wp_step. apply attempt_ok. intros e He. unfold fails. destruct (e =? 0) eqn:E; cbn [negb].
  - wp_step. simpl. destruct (fds m !! old) as [d|] eqn:Ed; [by apply H0|apply Hf; by right].
  - wp_step. apply Hf. left. apply (broken_by SDup2), He. lia.
Qed.

(** Descriptors after the diagnostics of the child were redirected: only descriptors
    that are closed on exec are new. *)
Definition redirected m m' : Prop :=
  blocked m' = blocked m ∧ actions m' = actions m ∧
  (¬ broken → is_Some (fds m !! STDERR_FILENO) →
    inherited (fds m') = <[STDERR_FILENO := Desc FDevNull false]> (inherited (fds m))).

Lemma inherited_insert t k d :
  inherited (<[k := d]> t) = if d_cloexec d then delete k (inherited t) else <[k := d]> (inherited t).
Proof using Type.
  unfold inherited. destruct (d_cloexec d) eqn:Ec.
  - rewrite map_filter_insert_False by (simpl; congruence). by rewrite map_filter_delete.
  - by rewrite map_filter_insert_True.
Qed.

Lemma suppress_stderr_ok m : wps suppress_stderr (λ _ m', redirected m m') m.
Proof using Type.
  unfold suppress_stderr. wp_step. apply attempt_ok. intros e He. do 2 wp_step. cbn [with_calls fds]. wp_step.
  eapply wp_mono with (P := λ _ m1, blocked m1 = blocked m ∧ actions m1 = actions m ∧
    (¬ broken → is_Some (fds m !! STDERR_FILENO) → ∃ k f, fds m !! k = None ∧ fds m1 = <[k := Desc f true]> (fds m))).
  { unfold fails. destruct (e =? 0) eqn:E; cbn [negb].
    2:{ wp_step. split_and!; try done. intros Hnb. destruct Hnb. apply (broken_by SDup), He. lia. }
    destruct (fds m !! STDERR_FILENO) as [d|] eqn:Ed; [|wp_step; split_and!; [done|done|by intros _ []]].
    unfold open_fd. wp_step. do 5 wp_step. cbn [with_calls fds]. pose proof (lookup_lowest (fds m)) as Hl.
    wp_step. apply set_cloexec_ok.
    - intros n [Hb|Hn]; wp_step; (split_and!; [done|done|]); intros Hnb; [done|].
      simpl in Hn. by rewrite lookup_insert_eq in Hn.
    - intros n d1 Hd1. simpl in Hd1. rewrite lookup_insert_eq in Hd1. injection Hd1 as <-. wp_step.
      split_and!; [done|done|]. intros _ _. eexists _, _. split; [exact Hl|]. simpl. by rewrite insert_insert_eq. }
  intros saved m1 (Hb1 & Ha1 & Hf1). cbv beta. wp_step. apply attempt_ok. intros e2 He2. unfold fails.
  destruct (e2 =? 0) eqn:E2; cbn [negb].
  2:{ assert (broken) as Hbr by (apply (broken_by SOpen), He2; lia). wp_step.
      destruct saved; unfold close; wp_steps; split_and!; try done. }
  unfold open_fd. wp_step. do 5 wp_step. cbn [with_calls fds]. pose proof (lookup_lowest (fds m1)) as Hl1.
  set (k2 := lowest (fds m1)) in *. wp_step. apply dup2_ok; cbn [with_fds with_calls fds].
  - intros n [Hb|Hn]; [|by rewrite lookup_insert_eq in Hn]. unfold close. wp_steps. split_and!; try done.
  - intros n d Hd. rewrite lookup_insert_eq in Hd. injection Hd as <-. unfold close. wp_steps. simpl.
    split_and!; try done. intros Hnb Hs. destruct (Hf1 Hnb Hs) as (k & f & Hk & Hf). simpl.
    unfold inherited. rewrite map_filter_delete. fold (inherited (<[STDERR_FILENO := Desc FDevNull false]> (<[k2 := Desc FDevNull false]> (fds m1)))).
    assert (k2 ≠ STDERR_FILENO) as Hne.
    { intros He'. rewrite He', Hf in Hl1. destruct Hs as [d Hs]. destruct (decide (k = STDERR_FILENO)) as [->|]; [by rewrite Hk in Hs|].
      by rewrite lookup_insert_ne, Hs in Hl1. }
    assert (∀ j, fds m !! j = None → inherited (fds m) !! j = None) as Hin.
    { intros j Hj. apply map_lookup_filter_None. by left. }
    rewrite !inherited_insert. simpl. rewrite delete_insert_ne by done. f_equal. rewrite delete_insert_id.
    + rewrite Hf, inherited_insert. simpl. by apply delete_id, Hin.
    + rewrite Hf, inherited_insert. simpl. apply lookup_delete_None. destruct (decide (k2 = k)) as [?|Hkk]; [by left|right].
      apply Hin. by rewrite Hf, lookup_insert_ne in Hl1.
Qed.

Lemma substring_all n (v : string) : (String.length v ≤ n)%nat → String.substring 0 n v = v.
Proof using Type.
  revert n. induction v as [|x v IH]; intros [|n] Hl; simpl in *; try done; try lia. f_equal. apply IH. lia.
Qed.

Lemma decimal_length fuel n text : (String.length (decimal fuel n text) ≤ fuel + String.length text)%nat.
Proof using Type.
  revert n text. induction fuel as [|fuel IH]; intros n text; [done|]. simpl. destruct (n / 10 =? 0); simpl; [lia|].
  pose proof (IH (n / 10) (String (Ascii.ascii_of_N (Z.to_N (48 + n mod 10))) text)) as H. simpl in H. lia.
Qed.

(** The variables that qemu-nbd sees. *)
Definition child_env : list string :=
  ("LISTEN_PID=" +:+ decimal 10 m_pid EmptyString)%string :: "LISTEN_FDS=1"%string ::
  Cli.env_vars ((λ v, if Cli.is_listen v then None else Some v) <$> m_environ).

Lemma env_vars_end l : Cli.env_vars (l ++ [None]) = Cli.env_vars l.
Proof using Type. induction l as [|[v|] l IH]; simpl; [done|by rewrite IH|done]. Qed.

Lemma child_env_ok : Cli.env_vars (set_listen_pid (Cli.create_env m_environ)) = child_env.
Proof using Type.
  pose proof (decimal_length 10 m_pid EmptyString) as Hl. unfold child_env, Cli.create_env, set_listen_pid.
  cbn [app]. change (String.length EmptyString) with 0%nat in Hl. rewrite (substring_all _ (decimal _ _ _)) by (etrans; [exact Hl|vm_compute; lia]).
  cbn [Cli.env_vars]. by rewrite env_vars_end.
Qed.

(** What socket activation needs, and the rest of what qemu-nbd inherits from a
    process with the descriptors [t]. *)
Record activated (opt : server_options) (t : gmap nat desc) (p : program) : Prop := {
  av_argv : e_argv p = argv opt;
  av_env : e_env p = child_env;
  av_socket : e_fds p !! 3%nat = Some (Desc (FSocket (Some sock_path) true) false);
  av_stderr : debug = false → e_fds p !! 2%nat = Some (Desc FDevNull false);
  av_others : ∀ k, k ≠ 2%nat → k ≠ 3%nat → e_fds p !! k = inherited t !! k;
  av_signals : SIGINT ∈ e_blocked p ∧ e_actions p !! SIGPIPE = Some SigDfl;
}.

Definition socket_moved (fd : nat) m m' : Prop :=
  blocked m' = blocked m ∧ actions m' = actions m ∧
  (¬ broken → ∀ t, fds m = <[fd := Desc (FSocket (Some sock_path) true) false]> t → t !! fd = None →
    inherited (fds m') = <[3%nat := Desc (FSocket (Some sock_path) true) false]> (inherited t) ∧
    (is_Some (t !! STDERR_FILENO) → is_Some (fds m' !! STDERR_FILENO))).

Lemma move_socket_ok fd m :
  wps (if (fd =? FIRST_SOCKET_ACTIVATION_FD)%nat then set_cloexec fd false
       else dup2 fd FIRST_SOCKET_ACTIVATION_FD;; close fd;; mret 0)
    (λ rc m', socket_moved fd m m' ∧ (rc ≠ 0 → broken ∨ fds m !! fd = None)) m.
Proof using Type.
  destruct (fd =? FIRST_SOCKET_ACTIVATION_FD)%nat eqn:E.
  - apply Nat.eqb_eq in E as ->. apply set_cloexec_ok.
    + intros n Hf. split; [|done]. split_and!; try done. intros Hnb t Ht Hn. destruct Hf as [?|Hf]; [done|].
      by rewrite Ht, lookup_insert_eq in Hf.
    + intros n d Hd. split; [|done]. split_and!; try done. intros Hnb t Ht Hn. simpl. rewrite Ht, lookup_insert_eq in Hd.
      injection Hd as <-. simpl. rewrite Ht, insert_insert_eq, inherited_insert. split; [done|]. by rewrite lookup_insert_ne.
  - apply Nat.eqb_neq in E. wp_step. apply dup2_ok.
    + intros n Hf. unfold close. wp_steps. split; [|done]. split_and!; try done. intros Hnb t Ht Hn.
      destruct Hf as [?|Hf]; [done|]. by rewrite Ht, lookup_insert_eq in Hf.
    + intros n d Hd. unfold close. wp_steps. split; [|done]. split_and!; try done. intros Hnb t Ht Hn. simpl.
      rewrite Ht, lookup_insert_eq in Hd. injection Hd as <-. simpl. split.
      2:{ intros [d Hd]. assert (fd ≠ STDERR_FILENO) by (intros ->; congruence).
          by rewrite lookup_delete_ne, lookup_insert_ne, Ht, lookup_insert_ne, Hd by done. }
      unfold inherited. rewrite map_filter_delete.
      fold (inherited (<[FIRST_SOCKET_ACTIVATION_FD := Desc (FSocket (Some sock_path) true) false]> (fds m))).
      rewrite inherited_insert. simpl. rewrite Ht, inherited_insert. simpl. rewrite delete_insert_ne by done.
      f_equal. rewrite delete_insert_id; [done|]. apply map_lookup_filter_None. by left.
Qed.

Lemma exec_ok fd opt m :
  wps (exec_qemu_nbd debug fd (Cli.create_env m_environ) opt) (λ c _,
    ¬ broken → ∀ t, fds m = <[fd := Desc (FSocket (Some sock_path) true) false]> t → t !! fd = None →
    is_Some (t !! STDERR_FILENO) → ∃ p, c = Executed p ∧ activated opt t p) m.
Proof using Type.
  unfold exec_qemu_nbd. wp_step. eapply wp_mono; [apply move_socket_ok|]. intros rc m1 ((Hb1 & Ha1 & Hf1) & Hrc).
  cbv beta. unfold fails at 1. destruct (rc =? 0) eqn:E; cbn [negb].
  2:{ wp_step. intros Hnb t Ht Hn. exfalso. destruct Hrc as [?|Hrc]; [lia|done|]. by rewrite Ht, lookup_insert_eq in Hrc. }
  cbv zeta. rewrite child_env_ok. unfold setup_signals. do 3 wp_step.
  set (m2 := with_signals (SIGINT :: blocked m1) (<[SIGPIPE := SigDfl]> (actions m1)) m1).
  eapply wp_mono with (P := λ _ m3, blocked m3 = blocked m2 ∧ actions m3 = actions m2 ∧
    (¬ broken → is_Some (fds m2 !! STDERR_FILENO) → inherited (fds m3) =
      if debug then inherited (fds m2) else <[STDERR_FILENO := Desc FDevNull false]> (inherited (fds m2)))).
  { destruct debug; [wp_step; by split_and!|]. eapply wp_mono; [apply suppress_stderr_ok|]. by intros ? m3. }
  intros saved m3 (Hb3 & Ha3 & Hf3). cbv beta. wp_step. apply attempt_ok. intros e He. do 2 wp_step. unfold fails.
  destruct (e =? 0) eqn:Ee; cbn [negb].
  2:{ assert broken as Hbr by (apply (broken_by SExec), He; lia). wp_step.
      eapply wp_mono with (P := λ _ _, True); [|intros _ ? _; by wp_step].
      destruct saved; [|by wp_step]. by apply dup2_ok. }
  wp_step. intros Hnb t Ht Hn Hs. eexists. split; [done|]. cbn [with_calls fds blocked actions].
  destruct (Hf1 Hnb t Ht Hn) as [Hi1 Hs1]. specialize (Hf3 Hnb (Hs1 Hs)). change (fds m2) with (fds m1) in Hf3.
  rewrite Hi1 in Hf3. split; cbn [e_argv e_env e_fds e_blocked e_actions]; try done.
  - rewrite Hf3. destruct debug; [by rewrite lookup_insert_eq|]. by rewrite lookup_insert_ne, lookup_insert_eq.
  - intros Hdb. rewrite Hf3, Hdb. by rewrite lookup_insert_eq.
  - intros k H2 H3. rewrite Hf3. destruct debug; [by rewrite lookup_insert_ne|]. by rewrite !lookup_insert_ne.
  - rewrite Hb3, Ha3. unfold m2. simpl. split; [by left|]. unfold reset_handlers. by rewrite lookup_fmap, lookup_insert_eq.
Qed.

(** ** The whole *)

Definition server_of (pid : Z) : nbd_server := NbdServer (Some dir_path) (Some sock_path) pid.

Lemma start_ok opt m :
  machine_ok m →
  wps (start_nbd_server debug opt) (λ r m', match r with
    | Some s => s = server_of m_pid ∧ started opt m m'
    | None => not_started m m'
    end) m.
Proof using Type.
  intros Hm. pose proof (mo_heap _ Hm) as Hh0. unfold start_nbd_server. wp_step. eapply wp_mono; [apply alloc_ok|].
  intros ok m1 ((Q1 & Q2 & Q3 & Q4 & Q5 & Q6) & Hh1 & Hf1). cbv beta. destruct ok; cbn [negb].
  2:{ wp_step. split; [by eapply broken_by, Hf1|]. by split_and!. }
  wp_step. apply create_tmpdir_ok.
  { intros m' (K1 & K2 & K3 & K4 & K5 & K6) Hbr. wp_step. split; [done|]. split_and!; try congruence. intros _. split; congruence. }
  intros m2 (_ & K2 & K3 & K4 & K5 & K6) Hd2 Hh2. cbn [with_dirs socks fds procs blocked actions sock s_pid] in *. wp_step.
  eapply wp_mono; [apply (create_listening_socket_ok _ m m2 Hm); [congruence|done|lia]|].
  intros [[fd|] s] m3 Hr; cbn [fst snd sock s_pid] in Hr.
  2:{ destruct Hr as [((I1 & I2 & I3 & I4) & Hd3 & Hh3 & Hbr & Hs3) Hs]. rewrite (Hs eq_refl). eapply wp_mono.
      - apply (start_failed_ok _ None None m m3 Hm); simpl; try congruence; try done; [|unfold owned; simpl; lia].
        intros Hc. destruct Hs3 as [?|[_ [n Hn]]]; [congruence|]. by destruct (Hc n) as (_ & _ & ?).
      - by intros r m4 [-> Hns]. }
  destruct Hr as [(Hn & Hf3 & Hs3 & Hd3 & Hp3 & Hb3 & Ha3 & Hh3) ->].
  assert (fds m3 = <[fd := Desc (FSocket (Some sock_path) true) false]> (fds m)) as Hf3' by congruence.
  assert (fds m !! fd = None) as Hn' by congruence. wp_step.
  eapply wp_mono; [apply create_env_ok; lia|]. intros [env|] m4 ((L1 & L2 & L3 & L4 & L5 & L6) & He4).
  2:{ destruct He4 as [Hh4 Hf4]. eapply wp_mono.
      - apply (start_failed_ok _ (Some fd) None m m4 Hm); simpl; try congruence; try done.
        + by eapply broken_by.
        + split; [done|]. eexists. by rewrite L3.
        + intros _. split; [done|congruence].
        + unfold owned. simpl. lia.
      - by intros r m5 [-> Hns]. }
  destruct He4 as [-> Hh4]. pose proof (reachable_all (Cli.create_env m_environ)) as Hre. unfold fork. do 2 wp_step.
  apply attempt_ok. intros e He. unfold fails. destruct (e =? 0) eqn:E; cbn [negb].
  2:{ wp_step. change (-1 =? -1) with true. cbv iota. eapply wp_mono.
      - apply (start_failed_ok _ (Some fd) (Some (Cli.create_env m_environ)) m (with_calls (S (m_calls m4)) m4) Hm); simpl; try congruence; try done.
        + apply (broken_by SFork), He. lia.
        + split; [done|]. eexists. by rewrite L3.
        + intros _. split; [done|congruence].
        + unfold owned. simpl. lia.
      - by intros r m5 [-> Hns]. }
  do 2 wp_step. pose proof (exec_ok fd opt (with_calls (S (m_calls m4)) m4)) as Hx. unfold wp in Hx.
  destruct (exec_qemu_nbd debug fd (Cli.create_env m_environ) opt (with_calls (S (m_calls m4)) m4)) as [c mc'|k] eqn:Ex;
    [clear Hx|by destruct k].
  do 3 wp_step. pose proof (mo_pid _ Hm) as [Hpid _]. rewrite (proj2 (Z.eqb_neq m_pid (-1))) by lia. wp_step.
  apply free_env_ok; [simpl; lia|]. intros m5 (P1 & P2 & P3 & P4 & P5 & P6) Hh5. simpl in *. unfold close. wp_steps. split; [done|].
  split; simpl; try congruence; [|split; congruence|unfold env_leak; simpl; lia|].
  - rewrite P3, L3, Hf3'. by apply delete_insert_id.
  - exists fd, (with_calls (S (m_calls m4)) m4), c, mc'. simpl. split_and!; congruence.
Qed.

Lemma env_leak_nonneg : 0 <= env_leak.
Proof using Type. unfold env_leak. pose proof (reachable_all (Cli.create_env m_environ)). lia. Qed.

Lemma stop_ok opt m m1 :
  machine_ok m → started opt m m1 →
  wps (stop_nbd_server (server_of m_pid)) (λ _ m', fds m' = fds m ∧ blocked m' = blocked m ∧ actions m' = actions m ∧
    heap m1 - 2 <= heap m' ∧
    (¬ broken → dirs m' = dirs m ∧ socks m' = socks m ∧ procs m' = procs m ∧ heap m' = heap m1 - 2)) m1.
Proof using Type.
  intros Hm [Hd Hs Hf [Hb Ha] Hh (fd & mc & c & mc' & _ & _ & _ & _ & _ & Hp)]. pose proof (mo_heap _ Hm).
  pose proof env_leak_nonneg as Hre.
  unfold stop_nbd_server. do 2 wp_step. wp_step. apply attempt_ok. intros e He. simpl. wp_step.
  eapply wp_mono with (P := λ _ m2, fds m2 = fds m1 ∧ dirs m2 = dirs m1 ∧ socks m2 = socks m1 ∧ blocked m2 = blocked m1 ∧
    actions m2 = actions m1 ∧ heap m2 = heap m1 ∧ (¬ broken → procs m2 = procs m)).
  { unfold fails. destruct (e =? 0) eqn:E; cbn [negb].
    - wp_step. simpl. split_and!; try done. intros _. pose proof (mo_pid _ Hm) as [_ Hn].
      apply map_eq. intros i. destruct (decide (i = m_pid)) as [->|]; [by rewrite lookup_delete_eq|].
      by rewrite lookup_delete_ne, lookup_alter_ne, Hp, lookup_insert_ne.
    - wp_step. split_and!; try done. intros []. apply (broken_by SWaitpid), He. lia. }
  intros _ m2 (I1 & I2 & I3 & I4 & I5 & I6 & I7). cbv beta.
  eapply wp_mono; [apply remove_tmpdir_ok; unfold owned, server_of; simpl; lia|].
  intros _ m3 ((J1 & J2 & J3 & J4) & Hh3 & Hr). split_and!; try congruence.
  { unfold owned, server_of in Hh3. simpl in Hh3. lia. }
  intros Hnb.
  destruct (removed_clean (server_of (-1)) m m2 m3 Hm ltac:(reflexivity) ltac:(congruence) Hr) as (H1 & H2 & H3).
  - intros n. destruct (decide (m_fault SUnlink n = 0)) as [?|Hx]; [|by destruct Hnb; exists SUnlink, n].
    destruct (decide (m_fault SRmdir n = 0)) as [?|Hx]; [done|by destruct Hnb; exists SRmdir, n].
  - simpl. split; [done|congruence].
  - split_and!; [done|done|rewrite J2; auto|]. rewrite H3. unfold owned, server_of. simpl. lia.
Qed.

Lemma no_holes l :
  Forall (λ v, Cli.is_listen v = false) l →
  all_strings (((λ v, if Cli.is_listen v then None else Some v) <$> l) ++ [None]) =
  zlen (Cli.env_vars (((λ v, if Cli.is_listen v then None else Some v) <$> l) ++ [None])).
Proof using Type.
  induction 1 as [|v l Hv _ IH]; [done|]. rewrite fmap_cons, Hv. cbn [app all_strings Cli.env_vars]. by rewrite zlen_cons, IH.
Qed.

Lemma env_leak_none : Forall (λ v, Cli.is_listen v = false) m_environ → env_leak = 0.
Proof using Type.
  intros Henv. unfold env_leak, Cli.create_env, reachable_strings. cbn [app all_strings Cli.env_vars].
  rewrite !zlen_cons, (no_holes _ Henv). lia.
Qed.

(** C28: the life of the server.  If no system call fails, [start_nbd_server] returns
    a server that runs: qemu-nbd was executed with the options, the listening socket
    as descriptor 3 and the variables of socket activation with its own pid, blocked
    SIGINT and the default action for SIGPIPE, and no descriptor of the parent is
    left open; after [stop_nbd_server] the file system, the descriptors, the
    children and the signals are as before the start, and (if no variable of
    socket activation was set) the only memory left is the struct that the caller
    frees. *)
Theorem server_lifecycle opt m :
  machine_ok m → ¬ broken → is_Some (fds m !! STDERR_FILENO) →
  ∃ s m1 s' m2 p, start_nbd_server debug opt m = Ret (Some s) m1 ∧
    fds m1 = fds m ∧ procs m1 !! s_pid s = Some (Executed p) ∧ activated opt (fds m) p ∧
    stop_nbd_server s m1 = Ret s' m2 ∧
    dirs m2 = dirs m ∧ socks m2 = socks m ∧ fds m2 = fds m ∧ procs m2 = procs m ∧
    blocked m2 = blocked m ∧ actions m2 = actions m ∧
    (Forall (λ v, Cli.is_listen v = false) m_environ → heap m2 = heap m + 1).
Proof using Type.
  intros Hm Hnb Herr. destruct (wp_total _ _ _ (start_ok opt m Hm)) as ([s|] & m1 & Hst & Hr).
  2:{ by destruct Hr. }
  destruct Hr as [-> Hs]. destruct (wp_total _ _ _ (stop_ok opt m m1 Hm Hs)) as (s' & m2 & Hsp & Hf & Hb & Ha & _ & Hr).
  destruct (Hr Hnb) as (Hd & Hsk & Hp & Hh).
  destruct (sd_child _ _ _ Hs) as (fd & mc & c & mc' & Hn & Hfd & _ & _ & Hex & Hpr).
  pose proof (wp_run _ _ _ _ _ _ (exec_ok fd opt mc) Hex Hnb (fds m) Hfd Hn Herr) as (p & -> & Hact).
  exists (server_of m_pid), m1, s', m2, p. split_and!; try done.
  - apply Hs.
  - simpl. by rewrite Hpr, lookup_insert_eq.
  - intros Henv. rewrite Hh, (sd_heap _ _ _ Hs), (env_leak_none Henv). lia.
Qed.

(** C29: a start that fails.  Whatever system call fails, [start_nbd_server] does not
    touch invalid memory (the path of the socket fits in its address, memory is freed
    once), and if it exits, no descriptor is open and no child runs that was not
    there before; unless [unlink], [rmdir] or [listen] failed, the temporary directory
    and the socket are gone.  If it does not exit, the server was started. *)
Theorem start_cleans_up opt m :
  machine_ok m →
  ∃ r m', start_nbd_server debug opt m = Ret r m' ∧ fds m' = fds m ∧ blocked m' = blocked m ∧
    match r with
    | Some s => s = server_of m_pid ∧ is_Some (procs m' !! m_pid) ∧ sock_path ∈ socks m'
    | None => procs m' = procs m ∧ (cleanup_works → dirs m' = dirs m ∧ socks m' = socks m)
    end.
Proof using Type.
  intros Hm. destruct (wp_total _ _ _ (start_ok opt m Hm)) as ([s|] & m1 & Hst & Hr); eexists _, m1; (split; [exact Hst|]).
  - destruct Hr as [-> [_ Hs Hf [Hb _] _ (fd & mc & c & mc' & _ & _ & _ & _ & _ & Hp)]].
    split_and!; try done; [rewrite Hp, lookup_insert_eq; by eexists|rewrite Hs; apply elem_of_added].
  - destruct Hr as (_ & Hf & Hp & Hb & _ & Hc). by split_and!.
Qed.
End server.

(** ** Witnesses *)

#[local] Instance sample_machine : Machine := {|
  m_fault _ _ := 0;
  m_suffix := "a1b2c3";
  m_pid := 4711;
  m_environ := ["HOME=/root"; "PATH=/usr/bin"]%string;
|}.

(** A process with its standard streams and the image open. *)
Definition sample_fds : gmap nat desc :=
  list_to_map [(0%nat, Desc (FOther "stdin") false); (1%nat, Desc (FOther "stdout") false);
    (2%nat, Desc (FOther "stderr") false)].
Definition sample_state : machine :=
  MachineState {["/tmp"%string]} ∅ sample_fds ∅ 0 [] {[SIGINT := SigHandler]} 0.
Definition sample_options : server_options := ServerOptions "disk.img" "raw" "native" false.

Lemma sample_ok m_f : machine_ok (MA := Build_Machine m_f "a1b2c3" 4711 ["HOME=/root"; "PATH=/usr/bin"]%string) sample_state.
Proof.
  split; simpl; [done| |by intros ? ?%elem_of_empty|split; [done|apply lookup_empty]|done].
  by intros ?%elem_of_singleton.
Qed.

(** With a variable of socket activation [free_env] leaks the string behind it. *)
Example listen_variable_leaks :
  env_leak (MA := Build_Machine (λ _ _, 0) "a1b2c3" 4711 ["LISTEN_FDS=1"; "HOME=/root"]%string) = 1.
Proof. reflexivity. Qed.

Lemma server_lifecycle_witness :
  ∃ s m1 s' m2 p, start_nbd_server false sample_options sample_state = Ret (Some s) m1 ∧
    fds m1 = sample_fds ∧ procs m1 !! s_pid s = Some (Executed p) ∧ activated false sample_options sample_fds p ∧
    stop_nbd_server s m1 = Ret s' m2 ∧
    dirs m2 = {["/tmp"%string]} ∧ socks m2 = ∅ ∧ fds m2 = sample_fds ∧ procs m2 = ∅ ∧
    blocked m2 = [] ∧ actions m2 = {[SIGINT := SigHandler]} ∧
    (Forall (λ v, Cli.is_listen v = false) ["HOME=/root"; "PATH=/usr/bin"]%string → heap m2 = 0 + 1).
Proof.
  apply (server_lifecycle (MA := sample_machine) false sample_options sample_state).
  - apply sample_ok.
  - by intros (c & n & []).
  - by eexists.
Defined.

(** A machine on which [listen] fails. *)
Definition no_listen : Machine := {|
  m_fault c _ := if c is SListen then 98 else 0;
  m_suffix := "a1b2c3";
  m_pid := 4711;
  m_environ := ["HOME=/root"; "PATH=/usr/bin"]%string;
|}.

Lemma start_cleans_up_witness :
  ∃ r m', start_nbd_server (MA := no_listen) false sample_options sample_state = Ret r m' ∧
    fds m' = sample_fds ∧ blocked m' = [] ∧
    match r with
    | Some s => s = server_of (MA := no_listen) 4711 ∧ is_Some (procs m' !! 4711) ∧ sock_path (MA := no_listen) ∈ socks m'
    | None => procs m' = ∅ ∧ (cleanup_works (MA := no_listen) → dirs m' = {["/tmp"%string]} ∧ socks m' = ∅)
    end.
Proof. apply (start_cleans_up (MA := no_listen) false sample_options sample_state). apply sample_ok. Defined.

(** The directory and the socket stay when [listen] fails: the path of the socket was
    dropped before they are removed. *)
Example listen_failure_leaks :
  match start_nbd_server (MA := no_listen) false sample_options sample_state with
  | Ret None m' => bool_decide ("/tmp/blksum-a1b2c3"%string ∈ dirs m') &&
      bool_decide ("/tmp/blksum-a1b2c3/sock"%string ∈ socks m')
  | _ => false
  end = true.
Proof. vm_compute. reflexivity. Qed.
