(* ===== verification/Double.v ===== *)
(** * Double precision arithmetic

    The doubles that the program computes are not negative and far from the limits of
    the exponent: a double is modelled as its rational value, and the result of an
    operation is the exact result rounded to 53 significant bits, to nearest with ties
    to even.  Rounding keeps the order, and leaves small integers as they are. *)

From stdpp Require Import prelude.
From Stdlib Require Import ZArith QArith Qround Qpower Lqa Lia.
From S2P Require Import Prelude.

Local Open Scope Q_scope.

(** The largest [b] with [2 ^ b <= x], of a positive number. *)
Definition binade (x : Q) : Z :=
  let b := (Z.log2 (Qnum x) - Z.log2 (Zpos (Qden x)))%Z in
  if Qle_bool (2 ^ b) x then b else (b - 1)%Z.

(** The nearest integer, the even one of two. *)
Definition nearest (x : Q) : Z :=
  let f := Qfloor x in
  let r := x - inject_Z f in
  if Qle_bool (1 # 2) r then if Qle_bool r (1 # 2) && Z.even f then f else (f + 1)%Z
  else f.

(** The nearest double. *)
Definition round (x : Q) : Q :=
  if Qle_bool x 0 then 0
  else inject_Z (nearest (x * 2 ^ (52 - binade x))) * 2 ^ (binade x - 52).

(** Conversion from an integer, the operations, and conversion to an integer. *)
Definition of_int (n : Z) : Q := round (inject_Z n).
Definition ddiv (x y : Q) : Q := round (x / y).
Definition dmul (x y : Q) : Q := round (x * y).
Definition to_int (x : Q) : Z := Qfloor x.

(** ** Powers of two *)

Lemma pow2_pos e : 0 < 2 ^ e.
Proof. by apply Qpower_0_lt. Qed.

Lemma pow2_add a b : 2 ^ (a + b) == 2 ^ a * 2 ^ b.
Proof. by apply Qpower_plus. Qed.

Lemma pow2_cancel a : 2 ^ a * 2 ^ (- a) == 1.
Proof. rewrite <-pow2_add. by replace (a + - a)%Z with 0%Z by lia. Qed.

Lemma pow2_le a b : (a <= b)%Z -> 2 ^ a <= 2 ^ b.
Proof. intros H. apply Qpower_le_compat_l; [done|]. lra. Qed.

Lemma pow2_lt_inv a b : 2 ^ a < 2 ^ b -> (a < b)%Z.
Proof. intros H. destruct (Z.lt_ge_cases a b) as [|Hge]; [done|]. apply pow2_le in Hge. lra. Qed.

Lemma pow2_Z n : (0 <= n)%Z -> inject_Z (2 ^ n) == 2 ^ n.
Proof. intros H. by apply Zpower_Qpower. Qed.

(** ** The binade *)

Lemma num_pos x : 0 < x -> (0 < Qnum x)%Z.
Proof. unfold Qlt. simpl. lia. Qed.

Lemma num_den x : x * inject_Z (Zpos (Qden x)) == inject_Z (Qnum x).
Proof. destruct x as [n d]. unfold Qeq, Qmult, inject_Z. simpl. lia. Qed.

Lemma log2_spec_Q n : (0 < n)%Z -> 2 ^ Z.log2 n <= inject_Z n /\ inject_Z n < 2 ^ (Z.log2 n + 1).
Proof.
  intros Hn. pose proof (Z.log2_spec n Hn) as [H1 H2]. pose proof (Z.log2_nonneg n). split.
  - rewrite <-pow2_Z by lia. by rewrite <-Zle_Qle.
  - rewrite <-pow2_Z by lia. rewrite <-Zlt_Qlt. by replace (Z.log2 n + 1)%Z with (Z.succ (Z.log2 n)) by lia.
Qed.

Lemma binade_spec x : 0 < x -> 2 ^ binade x <= x /\ x < 2 ^ (binade x + 1).
Proof.
  intros Hx. unfold binade. set (ln := Z.log2 (Qnum x)). set (ld := Z.log2 (Zpos (Qden x))).
  destruct (log2_spec_Q (Qnum x) (num_pos x Hx)) as [N1 N2]. destruct (log2_spec_Q (Zpos (Qden x)) eq_refl) as [D1 D2].
  fold ln in N1, N2. fold ld in D1, D2. pose proof (num_den x) as Hnd.
  set (d := inject_Z (Zpos (Qden x))) in *. set (n := inject_Z (Qnum x)) in *.
  assert (0 < d) as Hd by (pose proof (pow2_pos ld); lra).
  assert (x < 2 ^ (ln - ld + 1)) as Hup.
  { apply Qmult_lt_r with d; [done|]. rewrite Hnd.
    assert (2 ^ (ln + 1) == 2 ^ (ln - ld + 1) * 2 ^ ld) as He by (rewrite <-pow2_add; by replace (ln - ld + 1 + ld)%Z with (ln + 1)%Z by lia).
    assert (2 ^ (ln - ld + 1) * 2 ^ ld <= 2 ^ (ln - ld + 1) * d) by (apply Qmult_le_l; [apply pow2_pos|done]). lra. }
  assert (2 ^ (ln - ld - 1) < x) as Hlow.
  { apply Qmult_lt_r with d; [done|]. rewrite Hnd.
    assert (2 ^ ln == 2 ^ (ln - ld - 1) * 2 ^ (ld + 1)) as He by (rewrite <-pow2_add; by replace (ln - ld - 1 + (ld + 1))%Z with ln by lia).
    assert (2 ^ (ln - ld - 1) * d < 2 ^ (ln - ld - 1) * 2 ^ (ld + 1)) by (apply Qmult_lt_l; [apply pow2_pos|done]). lra. }
  destruct (Qle_bool (2 ^ (ln - ld)) x) eqn:E.
  - apply Qle_bool_iff in E. by split.
  - assert (x < 2 ^ (ln - ld)) as Hlt.
    { apply Qnot_le_lt. intros Hle. apply Qle_bool_iff in Hle. congruence. }
    split; [lra|]. by replace (ln - ld - 1 + 1)%Z with (ln - ld)%Z by lia.
Qed.

Lemma binade_mono x y : 0 < x -> x <= y -> (binade x <= binade y)%Z.
Proof.
  intros Hx Hle. destruct (binade_spec x Hx) as [H1 _]. destruct (binade_spec y) as [_ H2]; [lra|].
  assert (binade x < binade y + 1)%Z by (apply pow2_lt_inv; lra). lia.
Qed.

(** ** The nearest integer *)

Lemma nearest_floor x : nearest x = Qfloor x \/ nearest x = (Qfloor x + 1)%Z.
Proof. unfold nearest. repeat case_match; auto. Qed.

(** Between two numbers with the same integral part the decision keeps the order. *)
Lemma nearest_same x y : x <= y -> Qfloor x = Qfloor y -> (nearest x <= nearest y)%Z.
Proof.
  intros Hle Hf. unfold nearest. rewrite Hf. set (f := Qfloor y).
  destruct (Qle_bool (1 # 2) (x - inject_Z f)) eqn:Ex; [|repeat case_match; lia].
  apply Qle_bool_iff in Ex. assert (Qle_bool (1 # 2) (y - inject_Z f) = true) as -> by (apply Qle_bool_iff; lra).
  destruct (Qle_bool (y - inject_Z f) (1 # 2)) eqn:Ey; simpl; [|case_match; lia].
  apply Qle_bool_iff in Ey. assert (Qle_bool (x - inject_Z f) (1 # 2) = true) as -> by (apply Qle_bool_iff; lra).
  simpl. lia.
Qed.

Lemma nearest_mono x y : x <= y -> (nearest x <= nearest y)%Z.
Proof.
  intros Hle. pose proof (Qfloor_resp_le x y Hle). destruct (Z.eq_dec (Qfloor x) (Qfloor y)); [by apply nearest_same|].
  destruct (nearest_floor x), (nearest_floor y); lia.
Qed.

Lemma nearest_Z n : nearest (inject_Z n) = n.
Proof.
  unfold nearest. rewrite Qfloor_Z. destruct (Qle_bool (1 # 2) (inject_Z n - inject_Z n)) eqn:E; [|done].
  apply Qle_bool_iff in E. lra.
Qed.

(** ** Rounding *)

Lemma round_nonpos x : x <= 0 -> round x = 0.
Proof. intros H. unfold round. by apply Qle_bool_iff in H as ->. Qed.

Lemma round_pos_eq x : 0 < x -> round x = inject_Z (nearest (x * 2 ^ (52 - binade x))) * 2 ^ (binade x - 52).
Proof.
  intros H. unfold round. destruct (Qle_bool x 0) eqn:E; [|done]. apply Qle_bool_iff in E. lra.
Qed.

(** The significand has 53 bits; the largest one is rounded up to the next binade. *)
Lemma significand x : 0 < x -> (2 ^ 52 <= nearest (x * 2 ^ (52 - binade x)) <= 2 ^ 53)%Z.
Proof.
  intros Hx. destruct (binade_spec x Hx) as [H1 H2]. set (b := binade x) in *. pose proof (pow2_pos (52 - b)) as Hp.
  assert (2 ^ 52 == 2 ^ b * 2 ^ (52 - b)) as E1 by (rewrite <-pow2_add; by replace (b + (52 - b))%Z with 52%Z by lia).
  assert (2 ^ 53 == 2 ^ (b + 1) * 2 ^ (52 - b)) as E2 by (rewrite <-pow2_add; by replace (b + 1 + (52 - b))%Z with 53%Z by lia).
  assert (2 ^ b * 2 ^ (52 - b) <= x * 2 ^ (52 - b)) as L1 by (by apply Qmult_le_r).
  assert (x * 2 ^ (52 - b) < 2 ^ (b + 1) * 2 ^ (52 - b)) as L2 by (by apply Qmult_lt_r).
  pose proof (pow2_Z 52 ltac:(lia)) as Z1. pose proof (pow2_Z 53 ltac:(lia)) as Z2. split.
  - rewrite <-(nearest_Z (2 ^ 52)) at 1. apply nearest_mono. lra.
  - rewrite <-(nearest_Z (2 ^ 53)). apply nearest_mono. lra.
Qed.

Lemma round_bounds x : 0 < x -> 2 ^ binade x <= round x /\ round x <= 2 ^ (binade x + 1).
Proof.
  intros Hx. rewrite round_pos_eq by done. destruct (significand x Hx) as [H1 H2]. set (b := binade x) in *.
  set (n := nearest _) in *. pose proof (pow2_pos (b - 52)) as Hp.
  assert (2 ^ b == 2 ^ 52 * 2 ^ (b - 52)) as -> by (rewrite <-pow2_add; by replace (52 + (b - 52))%Z with b by lia).
  assert (2 ^ (b + 1) == 2 ^ 53 * 2 ^ (b - 52)) as -> by (rewrite <-pow2_add; by replace (53 + (b - 52))%Z with (b + 1)%Z by lia).
  pose proof (pow2_Z 52 ltac:(lia)) as Z1. pose proof (pow2_Z 53 ltac:(lia)) as Z2. rewrite Zle_Qle in H1, H2.
  split; (apply Qmult_le_r; [done|]); lra.
Qed.

Lemma round_nonneg x : 0 <= round x.
Proof.
  destruct (Qlt_le_dec 0 x) as [H|H]; [|by rewrite round_nonpos]. destruct (round_bounds x H) as [H1 _].
  pose proof (pow2_pos (binade x)). lra.
Qed.

Lemma round_mono x y : x <= y -> round x <= round y.
Proof.
  intros Hle. destruct (Qlt_le_dec 0 x) as [Hx|Hx]; [|rewrite (round_nonpos x) by done; apply round_nonneg].
  assert (0 < y) as Hy by lra. pose proof (binade_mono x y Hx Hle) as Hb.
  destruct (Z.eq_dec (binade x) (binade y)) as [E|E].
  - rewrite !round_pos_eq by done. rewrite E. pose proof (pow2_pos (52 - binade y)). pose proof (pow2_pos (binade y - 52)).
    apply Qmult_le_r; [done|]. rewrite <-Zle_Qle. apply nearest_mono. by apply Qmult_le_r.
  - destruct (round_bounds x Hx) as [_ H1]. destruct (round_bounds y Hy) as [H2 _].
    assert (2 ^ (binade x + 1) <= 2 ^ binade y) by (apply pow2_le; lia). lra.
Qed.

#[export] Instance round_proper : Proper (Qeq ==> Qeq) round.
Proof. intros x y E. apply Qle_antisym; apply round_mono; rewrite E; apply Qle_refl. Qed.

Lemma of_int_mono a b : (a <= b)%Z -> of_int a <= of_int b.
Proof. intros H. apply round_mono. by rewrite <-Zle_Qle. Qed.

Lemma of_int_pos n : (0 < n)%Z -> 0 < of_int n.
Proof.
  intros Hn. assert (0 < inject_Z n) as Hq by (by rewrite Zlt_Qlt in Hn).
  destruct (round_bounds _ Hq) as [H _]. pose proof (pow2_pos (binade (inject_Z n))). unfold of_int. lra.
Qed.

Lemma to_int_mono x y : x <= y -> (to_int x <= to_int y)%Z.
Proof. apply Qfloor_resp_le. Qed.
