(* ===== verification/ProgressBar.v ===== *)
(** * The progress bar of blksum (bin/progress.c)

    The bar counts the bytes that were hashed and draws a line when the percentage grows,
    computed in double precision ([Double]).  The state is the static variable beside what
    was written to the terminal. *)

From stdpp Require Import prelude list strings sorting.
From Stdlib Require Import Strings.Ascii ZArith QArith Qround Lqa Lia.
From S2P Require Import Prelude Double.
From S2P Require Server.

Local Open Scope Z_scope.

Definition WIDTH := 50.

(** [struct progress], and the lines that were written. *)
Record progress := Progress { size : Z; done_ : Z; value : Z; out : list string }.

Abbreviation MB := (M progress).

(** [n] times a character *)
Fixpoint repeat_char (c : Ascii.ascii) (n : nat) : string :=
  match n with O => EmptyString | S n' => String c (repeat_char c n') end.

(** The string that is left in the buffer of [size + 1] bytes. *)
Definition draw_bar (done size : Z) : MB string :=
  assertM (done <=? size);;
  if done <? 0 then crashM CMemory
  else mret (repeat_char "|"%char (Z.to_nat done) +:+ repeat_char " "%char (Z.to_nat (size - done))).

(** ["%3d"] *)
Definition padded (n : Z) : string :=
  let text := Server.decimal 10 n EmptyString in
  repeat_char " "%char (3 - String.length text) +:+ text.

(** The line for a percentage and a bar. *)
Definition line (n : Z) (bar : string) : string :=
  " " +:+ padded n +:+ "% [" +:+ bar +:+ "]    " +:+ String (Ascii.ascii_of_nat 13) EmptyString.

Definition write (text : string) : MB unit :=
  modify (λ p, Progress (size p) (done_ p) (value p) (out p ++ [text])).

Definition progress_draw : MB unit :=
  p ← get;
  bar ← draw_bar (value p * WIDTH ÷ 100) WIDTH;
  write (line (value p) bar).

Definition progress_init (n : Z) : MB unit := modify (λ p, Progress n 0 (-1) (out p)).

(** [(double)done / (double)size * 100] as an integer; without a size it is not a number,
    and its conversion is undefined. *)
Definition percent (done size : Z) : option Z :=
  if size =? 0 then None
  else Some (to_int (dmul (ddiv (of_int done) (of_int size)) (of_int 100))).

Definition progress_update (len : Z) : MB unit :=
  modify (λ p, Progress (size p) (Z.min (s64 (done_ p + len)) (size p)) (value p) (out p));;
  p ← get;
  match percent (done_ p) (size p) with
  | None => crashM CDivZero
  | Some v =>
      if value p <? v then modify (λ p, Progress (size p) (done_ p) v (out p));; progress_draw else mret tt
  end.

Definition progress_clear : MB unit :=
  write (repeat_char " "%char 79 +:+ String (Ascii.ascii_of_nat 13) EmptyString).

(** ** The percentage *)

Section percent.
Context (n : Z) (Hn : 0 < n).

Definition value_of (done : Z) : Z := to_int (dmul (ddiv (of_int done) (of_int n)) (of_int 100)).

Lemma percent_value done : percent done n = Some (value_of done).
Proof using Hn. unfold percent. by rewrite (proj2 (Z.eqb_neq _ _)) by lia. Qed.

Lemma value_mono a b : a <= b → value_of a <= value_of b.
Proof using Hn.
  intros H. pose proof (of_int_pos n Hn) as Hp. pose proof (of_int_pos 100 eq_refl) as H100.
  apply to_int_mono, round_mono, Qmult_le_r; [done|]. apply round_mono. apply Qmult_le_r; [by apply Qinv_lt_0_compat|].
  by apply of_int_mono.
Qed.

Lemma value_nonneg a : 0 <= value_of a.
Proof using Type. change 0 with (to_int 0). apply to_int_mono, round_nonneg. Qed.

Lemma value_full : value_of n = 100.
Proof using Hn.
  pose proof (of_int_pos n Hn) as Hp. unfold value_of, to_int, dmul, ddiv.
  assert (of_int n / of_int n == 1)%Q as E by (field; lra).
  assert (round (of_int n / of_int n) == 1)%Q as E2 by (rewrite E; reflexivity).
  assert (round (round (of_int n / of_int n) * of_int 100) == 100)%Q as E3 by (rewrite E2; reflexivity).
  rewrite (Qfloor_comp _ _ E3). reflexivity.
Qed.

Lemma value_range a : a <= n → 0 <= value_of a <= 100.
Proof using Hn. intros H. split; [apply value_nonneg|]. rewrite <-value_full. by apply value_mono. Qed.
End percent.

(** ** The lines *)

(** The line that is drawn for a percentage. *)
Definition frame (v : Z) : string :=
  let k := v * WIDTH ÷ 100 in
  line v (repeat_char "|"%char (Z.to_nat k) +:+ repeat_char " "%char (Z.to_nat (WIDTH - k))).

Fixpoint updates (l : list Z) : MB unit :=
  match l with [] => mret tt | len :: l' => progress_update len;; updates l' end.

Section updates.
Context (n : Z) (Hn : 0 < n < 2 ^ 63).

Lemma draw_ok p : 0 <= value p <= 100 →
  wp False progress_draw (λ _ p', p' = Progress (size p) (done_ p) (value p) (out p ++ [frame (value p)])) p.
Proof using Type.
  intros Hv. unfold progress_draw, draw_bar, write. do 4 wp_step. assert (0 <= value p * WIDTH ÷ 100 <= WIDTH) as Hk.
  { unfold WIDTH. rewrite Z.quot_div_nonneg by lia. split; [apply Z.div_pos; lia|]. apply Z.div_le_upper_bound; lia. }
  apply wp_assertM; [lia|]. rewrite (proj2 (Z.ltb_ge _ _)) by lia. by do 2 wp_step.
Qed.

(** One update: the bytes are added, and a line is drawn if the percentage grew. *)
Lemma progress_update_ok len p :
  size p = n → 0 <= done_ p <= n → -1 <= value p → 0 <= len → done_ p + len < 2 ^ 63 →
  let d := Z.min (done_ p + len) n in
  wp False (progress_update len) (λ _ p', p' = Progress n d (Z.max (value p) (value_of n d))
    (out p ++ if value p <? value_of n d then [frame (value_of n d)] else [])) p.
Proof using Hn.
  intros Hs Hd Hv Hl Hm d. unfold progress_update. do 4 wp_step. simpl.
  assert (s64 (done_ p + len) = done_ p + len) as -> by (unfold s64; rewrite Z.mod_small; lia). rewrite Hs. fold d.
  rewrite percent_value by lia. pose proof (value_range n ltac:(lia) d ltac:(lia)) as Hr.
  destruct (value p <? value_of n d) eqn:E.
  - do 2 wp_step. eapply wp_mono; [by apply draw_ok|]. intros _ p' ->. simpl. f_equal. lia.
  - wp_step. rewrite app_nil_r. f_equal. lia.
Qed.

(** Percentages that grow from [v]. *)
Definition grows (v : Z) (vs : list Z) : Prop := Sorted Z.lt (v :: vs) ∧ Forall (λ x, 0 <= x <= 100) vs.


Lemma last_cons_default (x a b : Z) (l : list Z) : List.last (x :: l) a = List.last (x :: l) b.
Proof using Type. revert x. induction l as [|y l IH]; intros x; [done|]. apply (IH y). Qed.

Lemma last_grown (v0 v : Z) (vs : list Z) : List.last (v :: vs) v0 = List.last vs v.
Proof using Type. destruct vs as [|x vs]; [done|]. exact (last_cons_default x v0 v vs). Qed.

End updates.

(** ** The bar of an image while it is hashed *)

Lemma grows_snoc v vs x : grows v vs → List.last vs v < x → 0 <= x <= 100 → grows v (vs ++ [x]).
Proof.
  revert v. induction vs as [|y vs IH]; intros v [Hs Hf] Hl Hx; simpl.
  - simpl in Hl. split; [constructor; [by repeat constructor|by constructor]|by constructor].
  - apply Sorted_inv in Hs as [Hs Hh]. apply Forall_cons in Hf as [Hy Hf]. rewrite last_grown in Hl.
    destruct (IH y (conj Hs Hf) Hl Hx) as [Hs' Hf']. apply HdRel_inv in Hh.
    split; [constructor; [done|by constructor]|by constructor].
Qed.

Lemma last_snoc (v x : Z) (vs : list Z) : List.last (vs ++ [x]) v = x.
Proof. induction vs as [|y vs IH]; [done|]. simpl. by destruct (vs ++ [x]) eqn:E; [destruct vs|]. Qed.

(** [hashed] bytes of an image of [n] bytes were hashed: the lines after [o] show
    percentages that grow. *)
Definition shows (n hashed : Z) (o : list string) (b : progress) : Prop :=
  size b = n ∧ 0 <= hashed ∧ done_ b = hashed ∧ ∃ vs, out b = o ++ (frame <$> vs) ∧ grows (-1) vs ∧
    value b = List.last vs (-1) ∧ value b = if 0 <? hashed then value_of n hashed else -1.

Lemma shows_update n hashed o len b :
  0 < n < 2 ^ 63 → 0 < len → hashed + len <= n → shows n hashed o b →
  wp False (progress_update len) (λ _ b', shows n (hashed + len) o b') b.
Proof.
  intros Hn Hl Hle (Hs & Hh & Hd & vs & Ho & Hg & Hv & Hval).
  pose proof (value_range n ltac:(lia) (hashed + len) ltac:(lia)) as Hr.
  assert (-1 <= value b <= value_of n (hashed + len)) as Hlt.
  { rewrite Hval. destruct (0 <? hashed) eqn:E; [|lia].
    pose proof (value_nonneg n hashed). pose proof (value_mono n ltac:(lia) hashed (hashed + len)). lia. }
  eapply wp_mono; [apply (progress_update_ok n Hn); lia|]. intros _ b' ->. rewrite Hd, Z.min_l by lia.
  split_and!; [done|lia|done|]. rewrite Z.max_r by lia. rewrite (proj2 (Z.ltb_lt 0 (hashed + len))) by lia. simpl.
  destruct (value b <? value_of n (hashed + len)) eqn:E.
  - exists (vs ++ [value_of n (hashed + len)]). rewrite Ho, fmap_app, app_assoc, last_snoc. split_and!; [done| |done..].
    apply grows_snoc; [done|rewrite <-Hv|]; lia.
  - exists vs. rewrite Ho, app_nil_r, <-Hv. split_and!; try done. lia.
Qed.

(** A bar that was initialised. *)
Lemma shows_start n b : shows n 0 (out b) (Progress n 0 (-1) (out b)).
Proof. split_and!; [done..|]. exists []. rewrite app_nil_r. split_and!; [done| |done..]. split; by repeat constructor. Qed.

(** The lines of an image that was hashed. *)
Definition complete (o : list string) (b : progress) : Prop :=
  ∃ vs, out b = o ++ (frame <$> vs) ∧ grows (-1) vs ∧ List.last vs (-1) = 100.

Lemma shows_complete n o b : 0 < n → shows n n o b → complete o b.
Proof.
  intros Hn (_ & _ & _ & vs & Ho & Hg & Hv & Hval). exists vs. split_and!; [done..|]. rewrite <-Hv, Hval.
  rewrite (proj2 (Z.ltb_lt 0 n)) by lia. by apply value_full.
Qed.




Example progress_bar_lines :
  ∃ p', (progress_init 7;; updates [2; 1; 0; 4]) (Progress 0 0 0 []) = Ret tt p' ∧ out p' = frame <$> [28; 42; 100].
Proof. eexists. vm_compute. split; reflexivity. Qed.
