(* ===== verification/Thread.v ===== *)
(** * Code of a thread that can end the thread

    [FAIL] in a thread of blksum ends the thread with [pthread_exit], wherever it is
    called; the other threads go on with the state it leaves.  [T] is the monad [M] with
    this way to stop: [None] is the end of the thread.  [wpt] has a postcondition for it. *)

From stdpp Require Import prelude.
From S2P Require Import Prelude.

Definition T (St A : Type) : Type := M St (option A).

#[export] Instance T_ret St : MRet (T St) := λ A a, (mret (Some a) : M St (option A)).
#[export] Instance T_bind St : MBind (T St) := λ A B (k : A → T St B) (m : T St A),
  ((m : M St (option A)) ≫= λ r, match r with Some a => k a : M St (option B) | None => mret None end : M St (option B)).

(** Code that does not end the thread. *)
Definition lift {St A} (m : M St A) : T St A := (m ≫= λ a, mret (Some a) : M St (option A)).

(** [pthread_exit] after [m]. *)
Definition exit_after {St A} (m : M St unit) : T St A := (m ≫= λ _, mret None : M St (option A)).

(** [pthread_join]: what another thread sees of the thread. *)
Definition joined {St A} (m : T St A) : M St (option A) := m.

(** ** Weakest preconditions

    [wpt E X m Q s]: [m] returns in a state that satisfies [Q], ends the thread in a
    state that satisfies [X], or crashes in one of the ways [E]. *)

Definition wpt (E : crash → Prop) {St} (X : St → Prop) {A} (m : T St A) (Q : A → St → Prop) (s : St) : Prop :=
  wpc E (joined m) (λ r s', match r with Some a => Q a s' | None => X s' end) s.

Section wpt.
Context (E : crash → Prop) {St : Type} (X : St → Prop).
Implicit Types s : St.

Lemma wpt_bind {A B} (m : T St A) (k : A → T St B) (Q : B → St → Prop) s :
  wpt E X m (λ a s', wpt E X (k a) Q s') s → wpt E X (m ≫= k) Q s.
Proof.
  intros Hm. unfold wpt, joined, mbind, T_bind. apply wpc_bind. eapply wpc_mono; [exact Hm|]. by intros [a|] s' Ha.
Qed.

Lemma wpt_mono {A} (m : T St A) (P Q : A → St → Prop) s :
  wpt E X m P s → (∀ a s', P a s' → Q a s') → wpt E X m Q s.
Proof. intros Hm HQ. eapply wpc_mono; [exact Hm|]. intros [a|] s'; [apply HQ|done]. Qed.

Lemma wpt_ret {A} (a : A) (Q : A → St → Prop) s : Q a s → wpt E X (mret a) Q s.
Proof. done. Qed.

Lemma wpt_lift {A} (m : M St A) (Q : A → St → Prop) s : wpc E m Q s → wpt E X (lift m) Q s.
Proof. intros Hm. apply wpc_bind. eapply wpc_mono; [exact Hm|]. by intros a s' HQ. Qed.

Lemma wpt_exit {A} (m : M St unit) (Q : A → St → Prop) s :
  wpc E m (λ _ s', X s') s → wpt E X (exit_after m) Q s.
Proof. intros Hm. apply wpc_bind. eapply wpc_mono; [exact Hm|]. by intros a s' HQ. Qed.

Lemma wpt_joined {A} (m : T St A) (Q : option A → St → Prop) s :
  wpt E X m (λ a, Q (Some a)) s → (∀ s', X s' → Q None s') → wpc E (joined m) Q s.
Proof. intros Hm HX. eapply wpc_mono; [exact Hm|]. intros [a|] s'; [done|apply HX]. Qed.
End wpt.

(** Steps over the primitive at the head of the code of a thread; lifted code is left to
    the rules of [wpc]. *)
Ltac wpt_step :=
  lazymatch goal with
  | |- wpt _ _ (mbind _ _) _ _ => apply wpt_bind; try apply wpt_lift
  | |- wpt ?E ?X (mret ?a) ?Q ?s => apply (wpt_ret E X a Q s)
  | |- wpt _ _ (lift _) _ _ => apply wpt_lift; wpc_step
  | |- wpt _ _ (let _ := _ in _) _ _ => cbv zeta
  | |- wpt _ _ (if ?b then _ else _) _ _ => destruct b eqn:?
  | |- _ => wpc_step
  end; cbv beta.
