(* ===== verification/Hasher.v ===== *)
(** * What the worker of blksum uses of a hash

    The worker of bin/aio-checksum.c is a client of the async interface of the
    library.  [Hasher] is the part of the interface it calls, and the buffers of its
    commands, which the hash reads while an update is in flight.  [HasherLaws] is
    what it relies on: the proofs about the worker use only these laws, and the
    library discharges them. *)

From stdpp Require Import prelude list.
From Stdlib Require Import ZArith Lia.
From S2P Require Import Prelude.

Local Open Scope Z_scope.

(** A command has a number: its buffer, and the user data of its update. *)
Class Hasher (H : Type) := {
  hash_fill : nat → list byte → M H unit;  (** store at the start of a buffer *)
  hash_update : nat → Z → M H Z;  (** [blkhash_aio_update] of the first bytes of a buffer *)
  hash_zero : Z → M H Z;  (** [blkhash_zero] *)
  (** [poll] of the completion descriptor and of another one, which has an event
      after some scheduling points, or never: errno, whether the other descriptor has
      events, whether the completion descriptor is readable. *)
  hash_poll : option nat → M H (Z * (bool * bool));
  (** [read] of the completion descriptor: errno, and the number of bytes *)
  hash_read : M H (Z * Z);
  (** [blkhash_aio_completions]: the count or an error, and the commands with their
      errors *)
  hash_completions : Z → M H (Z * list (nat * Z));
}.

(** [bad]: the ways a call may crash.  [ok]: no call fails.  [depth]: the number of
    updates that can be in flight.  [patience]: how often the completion
    descriptor becomes readable, at most, after the last call that is not about
    completions. *)
Class HasherLaws (H : Type) `{HA : !Hasher H} (bad : crash → Prop) (ok : Prop) (depth : Z)
    (patience : nat) := {
  (** The message so far, the updates not reported, and whether the descriptor was
      read since the last request for completions. *)
  hrep : list byte → list nat → bool → H → Prop;
  hbuf : H → nat → option (list byte);
  hready : H → Prop;  (** the descriptor is readable *)
  hdrain : nat → H → Prop;  (** the descriptor becomes readable at most as many times *)

  hl_fill id data old msg l b h :
    hrep msg l b h → id ∉ l → hbuf h id = Some old → zlen data <= zlen old →
    wpc bad (hash_fill id data) (λ _ h', hrep msg l b h' ∧
      hbuf h' id = Some (data ++ zdrop (zlen data) old) ∧ (∀ j, j ≠ id → hbuf h' j = hbuf h j) ∧
      (hready h → hready h') ∧ ∀ F, hdrain F h → hdrain F h') h;
  hl_update id len buf msg l h :
    hrep msg l false h → hbuf h id = Some buf → 0 <= len <= zlen buf → zlen msg + len < 2 ^ 63 →
    zlen l < depth →
    wpc bad (hash_update id len) (λ rc h', (∀ j, hbuf h' j = hbuf h j) ∧
      (rc = 0 → hrep (msg ++ ztake len buf) (id :: l) false h') ∧ (rc ≠ 0 → ok → False)) h;
  hl_zero len msg l h :
    hrep msg l false h → 0 <= len → zlen msg + len < 2 ^ 63 →
    wpc bad (hash_zero len) (λ rc h', (∀ j, hbuf h' j = hbuf h j) ∧
      (rc = 0 → hrep (msg ++ zeros len) l false h') ∧ (rc ≠ 0 → ok → False)) h;
  hl_poll limit msg l h :
    hrep msg l false h →
    bad CNoFuel ∨ (ok ∧ (l ≠ [] ∨ is_Some limit)) →
    wpc bad (hash_poll limit) (λ r h', hrep msg l false h' ∧ (∀ j, hbuf h' j = hbuf h j) ∧
      (r.1 ≠ 0 → ok → False) ∧ (r.2.1 = true → is_Some limit) ∧ (r.1 = 0 → r.2.1 || r.2.2 = true) ∧
      (r.1 = 0 → r.2.2 = true → hready h') ∧ ∀ F, hdrain F h → hdrain F h') h;
  hl_read msg l h :
    hrep msg l false h → hready h →
    wpc bad hash_read (λ r h', (∀ j, hbuf h' j = hbuf h j) ∧ (r.1 = 0 → hrep msg l true h' ∧ 0 < r.2) ∧
      (r.1 ≠ 0 → hrep msg l false h' ∧ hready h' ∧ (ok → False)) ∧ ∀ F, hdrain F h → hdrain F h') h;
  hl_completions msg l h :
    hrep msg l true h →
    wpc bad (hash_completions depth) (λ r h', (∀ j, hbuf h' j = hbuf h j) ∧
      ∃ l', hrep msg l' false h' ∧ l ≡ₚ r.2.*1 ++ l' ∧
        (ok → 0 <= r.1 ∧ Forall (λ p, p.2 = 0) r.2 ∧ ∀ F, hdrain F h → hdrain (F - 1) h')) h;
  hl_start msg l b h : hrep msg l b h → ok → hdrain patience h;
  hl_drained h : ok → hdrain 0 h → hready h → False;
}.
