(* ===== verification/AioHash.v ===== *)
(** * The library as the hash of blksum

    The worker of blksum uses the library through [Hasher].  Here the library
    discharges the laws of that interface: the message is the one the hash stands
    for, the account of its updates lists the commands in flight by their number, a
    command owns its buffer while its update is in flight, and the pool drains while
    the worker waits. *)

From stdpp Require Import prelude list strings gmap.
From Stdlib Require Import ZArith Lia.
From S2P Require Import Prelude Ring State Digest Zero Event Completion Submission Config HashPool.
From S2P Require Import Blkhash PoolInv PoolStep Progress Spec PoolCaller PoolAio BlkhashInv BlkhashOps.
From S2P Require Import BlkhashUpdate Api ApiAio Init Session Reach Free Account Poll AccountApi Client.
From S2P Require Import AsyncCalls Hasher.

Local Open Scope Z_scope.

Section hasher.
Context {D : Type} `{DO : !DigestOps D, EV : !Env}.
Abbreviation MW := (M (world D)).

(** ** The calls *)

(** Storing at the start of buffer [id]. *)
Definition fill (id : nat) (data : list byte) : MW unit :=
  w ← get;
  buf ← derefM (mem (sh w) !! id);
  if zlen buf <? zlen data then crashM CMemory
  else modify (λ w, World (with_mem (<[id := data ++ zdrop (zlen data) buf]> (mem (sh w))) (sh w)) (hs w)).

(** [poll] of the completion descriptor and of one that has an event after [k]
    scheduling points. *)
Fixpoint poll_within (k : nat) : M (shared D) (bool * bool) :=
  q ← gets cq;
  v ← derefM (cq_event q);
  if 0 <? v then mret (bool_decide (k = O), true)
  else match k with O => mret (true, false) | S k' => yield;; poll_within k' end.

(** [poll(fds, 2, -1)] *)
Definition poll_fds (limit : option nat) : M (shared D) (Z * (bool * bool)) :=
  err ← next_fault;
  if fails err then mret (err, (false, false))
  else match limit with
       | Some k => r ← poll_within k; mret (0, r)
       | None => poll_event spins;; mret (0, (false, true))
       end.

#[export] Instance library : Hasher (world D) := {|
  hash_fill := fill;
  hash_update id len := blkhash_aio_update (DUser id 0) len (Z.of_nat id);
  hash_zero := blkhash_zero;
  hash_poll limit := shared_op (poll_fds limit);
  hash_read := err ← shared_op read_event; mret (err, 8);
  hash_completions count :=
    '(n, out) ← blkhash_aio_completions count;
    mret (n, (λ x, (Z.to_nat (user_data x), bc_error x)) <$> out);
|}.
End hasher.

(** ** The laws *)

(** The update with user data [i] owns buffer [i]. *)
#[export] Instance by_number : Ownership := λ ud i, ud = Z.of_nat i.

Section laws.
Context {D : Type} `{DO : !DigestOps D, DL : !DigestLaws D, EV : !Env}.
Context (bad : crash → Prop) (c : config) (Hnf : bad CNoFuel ∨ live_env (D := D) c) (Hdepth : 0 < queue_depth c).
Implicit Types (w : world D) (l : list nat) (msg : list byte).
Local Abbreviation nf := (bad CNoFuel).
Local Abbreviation ok := (live_env (D := D) c).

Record represents msg l (looked : bool) w : Prop := {
  re_standing : standing c msg w;
  re_account : account (Z.of_nat <$> l) (looked = true) w;
  re_looked : looked = true → ¬ ready (sh w);
  re_clean : l = [] → api c False msg w;  (** no update failed that was not reported *)
}.

(** A bound of the scheduler that the waiting loops can be observed for. *)
Definition patient (K : nat) : Prop :=
  fair (Z.to_nat (workers c)) K ∧
  (K * (6 + 10 * Z.to_nat (max_submissions c) + 17 * Z.to_nat (workers c)) ≤ spins)%nat.

(** The descriptor is readable at most [F] more times. *)
Definition draining (F : nat) w : Prop :=
  ok → ∀ K, patient K →
    match F with O => drains K 0 (sh w) ∧ ¬ ready (sh w) | S F' => drains K F' (sh w) end.

Lemma ok_calm : ok → calm (D := D) (digest_name c).
Proof using Type. by intros [? _]. Qed.

Lemma represents_false msg l w :
  standing c msg w → account (Z.of_nat <$> l) False w → (l = [] → api c False msg w) → represents msg l false w.
Proof using Type. intros Hs Ha Hc. split; [done| |done|done]. by eapply account_ob. Qed.

Lemma account_false msg l w : represents msg l false w → account (Z.of_nat <$> l) False w.
Proof using Type. intros [_ Ha _ _]. by eapply account_ob. Qed.

Lemma represents_aside msg l looked looked' w s :
  represents msg l looked w → aside w s → account (Z.of_nat <$> l) (looked' = true) (World s (hs w)) →
  (looked' = true → ¬ ready s) → represents msg l looked' (World s (hs w)).
Proof using Type.
  intros [Hs _ _ Hc] Has Ha Hr. split; [by apply standing_aside|done|done|]. intros Hl. by apply aside_api, Hc.
Qed.

(** Only memory and counters changed. *)
Lemma draining_same F w w' :
  draining F w → p_queue (pool (sh w')) = p_queue (pool (sh w)) → threads (sh w') = threads (sh w) →
  n_tick (sh w') = n_tick (sh w) → (ready (sh w') → ready (sh w)) → draining F w'.
Proof using Type.
  intros Hd Hq Ht Hn Hr Ho K Hf. specialize (Hd Ho K Hf). destruct F as [|F]; [|by eapply drains_same].
  destruct Hd as [Hd Hnr]. split; [by eapply drains_same|auto].
Qed.

Lemma fill_law id data old msg l b w :
  represents msg l b w → id ∉ l → mem (sh w) !! id = Some old → zlen data <= zlen old →
  wpc bad (fill id data) (λ _ w', represents msg l b w' ∧
    mem (sh w') !! id = Some (data ++ zdrop (zlen data) old) ∧ (∀ j, j ≠ id → mem (sh w') !! j = mem (sh w) !! j) ∧
    (ready (sh w) → ready (sh w')) ∧ ∀ F, draining F w → draining F w') w.
Proof using Type.
  intros [Hs Ha Hr Hcl] Hid Hm Hlen. unfold fill. do 3 wpc_step. eapply wpc_derefM; [done|].
  destruct (zlen old <? zlen data) eqn:E; [lia|]. wpc_step. simpl.
  assert (reused (Z.of_nat <$> l) (mem (sh w)) (<[id := data ++ zdrop (zlen data) old]> (mem (sh w)))) as Hre.
  { intros u i Hu Hi. unfold own, by_number in Hi. subst u. apply list_elem_of_fmap in Hu as (j & Hj & Hin).
    apply Nat2Z.inj in Hj. subst j. rewrite lookup_insert_ne; [done|]. by intros ->. }
  destruct (standing_reuse c msg w _ _ _ Hs Ha Hre) as [Hs' Ha'].
  split_and!; [|by rewrite lookup_insert_eq|intros j Hj; by rewrite lookup_insert_ne|done|].
  - split; [done|done|done|]. intros Hl. apply api_mem; [by apply Hcl|by eapply account_undisturbed].
  - intros F HF. by eapply draining_same.
Qed.

Lemma update_law id len buf msg l w :
  represents msg l false w → mem (sh w) !! id = Some buf → 0 <= len <= zlen buf → zlen msg + len < 2 ^ 63 →
  zlen l < queue_depth c →
  wpc bad (blkhash_aio_update (DUser id 0) len (Z.of_nat id)) (λ rc w', (∀ j, mem (sh w') !! j = mem (sh w) !! j) ∧
    (rc = 0 → represents (msg ++ ztake len buf) (id :: l) false w') ∧ (rc ≠ 0 → ok → False)) w.
Proof using DL Hnf.
  intros Hre Hm Hlen Hmax Hroom. pose proof (zlen_nonneg msg). apply wpc_wp. eapply wp_mono.
  { apply (standing_update nf c Hnf msg w (DUser id 0) len (Z.of_nat id) (ztake len buf) (Z.of_nat <$> l)).
    - apply Hre.
    - by apply account_false with msg.
    - by intros i off [= <- _].
    - simpl. rewrite Hm. simpl. destruct (zlen buf <? 0 + len) eqn:E; [lia|done].
    - lia.
    - lia. }
  intros rc w' (Hk & H0 & Hne). split_and!.
  - intros j. by rewrite (ks_mem _ _ (ka_shared _ _ Hk)).
  - intros Hrc. destruct (H0 Hrc). by apply represents_false.
  - intros Hrc Ho. specialize (Hne Hrc (ok_calm Ho)). unfold zlen in *. rewrite length_fmap in Hne. lia.
Qed.

Lemma zero_law len msg l w :
  represents msg l false w → 0 <= len → zlen msg + len < 2 ^ 63 →
  wpc bad (blkhash_zero len) (λ rc w', (∀ j, mem (sh w') !! j = mem (sh w) !! j) ∧
    (rc = 0 → represents (msg ++ zeros len) l false w') ∧ (rc ≠ 0 → ok → False)) w.
Proof using DL Hnf.
  intros Hre Hlen Hmax. pose proof (zlen_nonneg msg). apply wpc_wp. eapply wp_mono.
  { apply (standing_zero nf c Hnf msg w len (Z.of_nat <$> l)); [apply Hre|by apply account_false with msg|lia..]. }
  intros rc w' (Hk & H0 & Hne). split_and!.
  - intros j. by rewrite (ks_mem _ _ (ka_shared _ _ Hk)).
  - intros Hrc. destruct (H0 Hrc) as (? & ? & Hc). apply represents_false; [done..|]. intros Hl. by apply Hc, Hre.
  - intros Hrc Ho. apply (Hne Hrc (ok_calm Ho)).
Qed.

(** Other threads run while the worker waits. *)
Lemma yield_law msg l w :
  represents msg l false w →
  wp nf yield (λ _ s', represents msg l false (World s' (hs w)) ∧ mem s' = mem (sh w) ∧
    ∀ F, draining F w → draining F (World s' (hs w))) (sh w).
Proof using Hnf.
  intros Hre. pose proof (re_standing _ _ _ _ Hre) as Hs. pose proof (account_false _ _ _ Hre) as Ha.
  destruct (standing_safe _ _ _ Hs) as (ids & Q & Hk). destruct (k_shared _ _ _ _ _ Hk) as [q HI].
  pose proof (k_cfg _ _ _ _ _ Hk) as Hc.
  pose proof (standing_yield nf c Hnf msg w _ _ Hs Ha) as Hy. unfold wp in *.
  destruct (yield (sh w)) as [[] s'|k] eqn:E; [|done]. destruct Hy as (Hs' & Ha' & Hm).
  split_and!; [eapply represents_aside; [done..|by eapply account_ob|done]|done|].
  intros F HF Ho K Hf. specialize (HF Ho K Hf).
  assert (∀ n, drains K n (sh w) → drains K (n - 1) s') as Hstep.
  { intros n Hn. by destruct (pc_run _ _ _ _ _ (yield_drains c (ok_calm Ho) K (proj1 Hf) n q _ _ _ HI Hc Hn) E). }
  destruct F as [|F]; simpl.
  - destruct HF as [Hd Hnr]. split; [by apply (Hstep 0%nat)|].
    pose proof (pc_run _ _ _ _ _ (yield_quiet c K q _ _ _ HI Hc Hd) E) as Hq. unfold ready in *. by rewrite Hq.
  - eapply drains_le; [by apply Hstep|lia].
Qed.

Lemma poll_within_law k msg l w :
  represents msg l false w →
  wp nf (poll_within k) (λ r s', represents msg l false (World s' (hs w)) ∧ mem s' = mem (sh w) ∧
    r.1 || r.2 = true ∧ (r.2 = true → ready s') ∧ ∀ F, draining F w → draining F (World s' (hs w))) (sh w).
Proof using Hnf Hdepth.
  revert w. induction k as [|k IH]; intros w Hre;
    destruct (standing_safe _ _ _ (re_standing _ _ _ _ Hre)) as (ids & Q & Hk);
    destruct (k_shared _ _ _ _ _ Hk) as [q HI]; pose proof (k_cfg _ _ _ _ _ Hk) as Hc;
    (destruct (cq_open _ _ _ _ (si_cq _ _ _ _ _ _ HI)) as [v Hv]; [by rewrite Hc|]);
    assert (World (sh w) (hs w) = w) as Hw by (by destruct w);
    simpl; do 3 wp_step; (eapply wp_derefM; [exact Hv|]); (destruct (0 <? v) eqn:Ev; [wp_step; rewrite Hw; split_and!; try done|]).
  - intros _. exists v. split; [done|lia].
  - wp_step. rewrite Hw. by split_and!.
  - intros _. exists v. split; [done|lia].
  - wp_step. eapply wp_mono; [by apply (yield_law msg l)|]. intros [] s1 (Hre1 & Hm1 & Hd1). cbv beta.
    eapply wp_mono; [exact (IH (World s1 (hs w)) Hre1)|]. simpl. intros r s2 (? & Hm2 & ? & ? & Hd2).
    split_and!; try done; [congruence|auto].
Qed.

Lemma fault_law msg l b n w :
  represents msg l b w → represents msg l b (World (with_n_fault n (sh w)) (hs w)) ∧
    ∀ F, draining F w → draining F (World (with_n_fault n (sh w)) (hs w)).
Proof using Type.
  intros Hre. split; [|intros F HF; by eapply draining_same].
  eapply represents_aside; [done|apply aside_fault|apply fault_account, Hre|apply Hre].
Qed.

Lemma poll_event_law msg l w :
  represents msg l false w → nf ∨ l ≠ [] →
  wp nf (poll_event spins) (λ _ s', represents msg l false (World s' (hs w)) ∧ mem s' = mem (sh w) ∧ ready s' ∧
    ∀ F, draining F w → draining F (World s' (hs w))) (sh w).
Proof using Hnf Hdepth.
  intros Hre Hl. pose proof (re_standing _ _ _ _ Hre) as Hs. pose proof (account_false _ _ _ Hre) as Ha.
  destruct (standing_safe _ _ _ Hs) as (ids & Q & Hk). destruct (k_shared _ _ _ _ _ Hk) as [q HI].
  pose proof (k_cfg _ _ _ _ _ Hk) as Hc.
  assert (nf ∨ Z.of_nat <$> l ≠ []) as Hl' by (destruct Hl as [?|Hl]; [by left|right]; by intros ?%fmap_nil_inv).
  pose proof (standing_poll nf c Hnf msg w _ Hs Ha Hdepth Hl') as Hp. unfold wp in *.
  destruct (poll_event spins (sh w)) as [[] s'|k] eqn:E; [|done]. destruct Hp as (Hs' & Ha' & Hm & Hr).
  split_and!; [|done|done|].
  { eapply represents_aside; [done|by eapply aside_poll|by eapply account_ob|done]. }
  intros F HF Ho K Hf. specialize (HF Ho K Hf).
  assert (∀ n, drains K n (sh w) → drains K n s') as Hstep.
  { intros n Hn. by destruct (pc_run _ _ _ _ _ (poll_drains c (ok_calm Ho) K (proj1 Hf) spins n q _ _ _ HI Hc Hn) E). }
  destruct F as [|F]; simpl; [|by apply Hstep]. destruct HF as [Hd Hnr].
  by destruct (pc_run _ _ _ _ _ (poll_quiet c (ok_calm Ho) K (proj1 Hf) spins q _ _ _ HI Hc Hd Hnr) E).
Qed.

Lemma poll_law limit msg l w :
  represents msg l false w → bad CNoFuel ∨ (ok ∧ (l ≠ [] ∨ is_Some limit)) →
  wpc bad (shared_op (poll_fds limit)) (λ r w', represents msg l false w' ∧
    (∀ j, mem (sh w') !! j = mem (sh w) !! j) ∧ (r.1 ≠ 0 → ok → False) ∧ (r.2.1 = true → is_Some limit) ∧
    (r.1 = 0 → r.2.1 || r.2.2 = true) ∧ (r.1 = 0 → r.2.2 = true → ready (sh w')) ∧
    ∀ F, draining F w → draining F w') w.
Proof using Hnf Hdepth.
  intros Hre Hl. apply wpc_wp. unfold shared_op. wp_step. unfold poll_fds, next_fault. do 6 wp_step.
  destruct (fault_law msg l false (S (n_fault (sh w))) w Hre) as [Hre1 Hd1].
  unfold fails. destruct (fault (n_fault (sh w)) =? 0) eqn:Ef; simpl.
  2: { wp_step. simpl. split_and!; try done; [intros _ Ho|lia..]. pose proof (calm_fault _ (n_fault (sh w)) (ok_calm Ho)). lia. }
  destruct limit as [k|].
  - wp_step. eapply wp_mono; [exact (poll_within_law k msg l _ Hre1)|]. simpl.
    intros r s' (? & Hm & ? & ? & Hd). wp_step. simpl. split_and!; try done; auto. intros j. by rewrite Hm.
  - wp_step. eapply wp_mono.
    { apply (poll_event_law msg l _ Hre1). destruct Hl as [?|[Ho [?|[? ?]]]]; [by left|by right|done]. }
    simpl. intros [] s' (? & Hm & ? & Hd). wp_step. simpl. split_and!; try done; auto. intros j. by rewrite Hm.
Qed.

Lemma read_law msg l w :
  represents msg l false w → ready (sh w) →
  wpc bad (err ← shared_op read_event; mret (err, 8)) (λ r w', (∀ j, mem (sh w') !! j = mem (sh w) !! j) ∧
    (r.1 = 0 → represents msg l true w' ∧ 0 < r.2) ∧
    (r.1 ≠ 0 → represents msg l false w' ∧ ready (sh w') ∧ (ok → False)) ∧ ∀ F, draining F w → draining F w') w.
Proof using Type.
  intros Hre Hrd. pose proof (re_standing _ _ _ _ Hre) as Hs. pose proof (account_false _ _ _ Hre) as Ha.
  pose proof (standing_read nf c msg w _ Hs Ha Hrd) as Hw. apply wpc_wp. unfold shared_op. wp_step. wp_step.
  destruct Hrd as (v & Hv & Hpos). revert Hw. unfold wp, read_event, next_fault. unfold gets, get, modify, on_cq, derefM, mbind, M_bind, mret, M_ret. rewrite Hv. simpl.
  destruct (fault_law msg l false (S (n_fault (sh w))) w Hre) as [Hre1 Hd1].
  unfold fails. destruct (fault (n_fault (sh w)) =? 0) eqn:Ef; simpl.
  - assert ((v =? 0) = false) as -> by lia. simpl. intros (Hs' & Ha' & _). split_and!; try done; try lia.
    + intros _. split; [|lia]. eapply represents_aside; [done|apply aside_event|by eapply account_ob|].
      intros _ (v' & [= <-] & ?). lia.
    + intros F HF. eapply draining_same; [done..|]. intros (v' & [= <-] & ?). lia.
  - intros (_ & _ & _ & _ & _ & _ & Hne). split_and!; try done; try lia. intros _. split_and!; [done|by exists v|].
    intros Ho. apply Hne; [lia|by apply ok_calm].
Qed.

(** The numbers of commands as user data. *)
Lemma numbers l (out rest : list Z) :
  Z.of_nat <$> l ≡ₚ out ++ rest →
  l ≡ₚ (Z.to_nat <$> out) ++ (Z.to_nat <$> rest) ∧ Z.of_nat <$> (Z.to_nat <$> rest) = rest.
Proof using Type.
  intros Hp. assert (∀ l', Z.to_nat <$> (Z.of_nat <$> l') = l') as Hid.
  { intros l'. rewrite <-list_fmap_compose. rewrite <-(list_fmap_id l') at 2. apply list_fmap_ext.
    intros i x _. simpl. apply Nat2Z.id. }
  split.
  - rewrite <-fmap_app, <-Hp, Hid. done.
  - rewrite <-list_fmap_compose. rewrite <-(list_fmap_id rest) at 2. apply list_fmap_ext. intros i x Hx.
    assert (x ∈ Z.of_nat <$> l) as (y & -> & _)%list_elem_of_fmap.
    { rewrite Hp. apply elem_of_app. right. by eapply list_elem_of_lookup_2. }
    simpl. by rewrite Nat2Z.id.
Qed.

Lemma completions_law msg l w :
  represents msg l true w →
  wpc bad ('(n, out) ← blkhash_aio_completions (queue_depth c);
    mret (n, (λ x, (Z.to_nat (user_data x), bc_error x)) <$> out)) (λ r w', (∀ j, mem (sh w') !! j = mem (sh w) !! j) ∧
    ∃ l', represents msg l' false w' ∧ l ≡ₚ r.2.*1 ++ l' ∧
      (ok → 0 <= r.1 ∧ Forall (λ p, p.2 = 0) r.2 ∧ ∀ F, draining F w → draining (F - 1) w')) w.
Proof using DL Hnf Hdepth.
  intros [Hs Ha Hr Hclean]. apply wpc_wp. wp_step.
  assert (pc (blkhash_aio_completions (queue_depth c)) (λ _ w', ok → ∀ F, draining F w → draining (F - 1) w') w) as Hd.
  { pose proof (completions_drain c) as H1. pose proof (completions_quiet c) as H2. unfold pc in *.
    destruct (blkhash_aio_completions (queue_depth c) w) as [r w'|] eqn:E; [|done]. intros Ho F HF Ho' K Hf.
    specialize (HF Ho K Hf). pose proof (ok_calm Ho) as Hc.
    assert (drains K 0 (sh w) → ¬ ready (sh w')) as Hq.
    { intros Hd0. specialize (H2 K msg w (queue_depth c) Hs Hc (proj1 Hf) Hd0 ltac:(lia)). rewrite E in H2.
      specialize (Hr eq_refl). unfold ready in *. by rewrite H2. }
    destruct F as [|[|F]]; simpl.
    - destruct HF as [Hd0 _]. specialize (H1 K 0%nat msg w (queue_depth c) Hs Hc (proj1 Hf) Hd0 ltac:(lia)). rewrite E in H1.
      destruct H1. split; [done|auto].
    - specialize (H1 K 0%nat msg w (queue_depth c) Hs Hc (proj1 Hf) HF ltac:(lia)). rewrite E in H1.
      destruct H1. split; [done|auto].
    - specialize (H1 K (S F) msg w (queue_depth c) Hs Hc (proj1 Hf) HF ltac:(lia)). rewrite E in H1. destruct H1 as [H1 _].
      simpl in H1. by rewrite Nat.sub_0_r in H1. }
  eapply wp_mono; [apply wp_and; [apply (completions_clean nf c Hnf msg w (queue_depth c) Hs); lia|
    apply wp_pc; [by apply (taken_completions nf c Hnf msg w (queue_depth c) _ _ Hs Ha)|exact Hd]]|].
  intros [n out] w' [Hapi [(Hk & Hs' & lz & Ha' & Hl & Hcl) Hd']]. simpl in *. wp_step. simpl. split.
  { intros j. by rewrite (ks_mem _ _ (ka_shared _ _ Hk)). }
  destruct (numbers l _ _ Hl) as [Hl' Hlz]. exists (Z.to_nat <$> lz). split_and!.
  - apply represents_false; [done|by rewrite Hlz|]. intros Hnil%fmap_nil_inv. subst lz. rewrite app_nil_r in Hl.
    apply Hapi. destruct l as [|x l]; [left; by apply Hclean|right]. intros ->.
    by apply Permutation_length in Hl.
  - rewrite <-list_fmap_compose. by rewrite <-list_fmap_compose in Hl'.
  - intros Ho. destruct (Hcl (ok_calm Ho)) as [-> Hz]. split_and!; [apply zlen_nonneg|by apply Forall_fmap|auto].
Qed.

Lemma start_law msg l b w : represents msg l b w → ok → draining (S spins) w.
Proof using Type.
  intros [Hs _ _ _] Ho _ K [Hf Hb]. simpl.
  destruct (standing_safe _ _ _ Hs) as (ids & Q & Hk). destruct (k_shared _ _ _ _ _ Hk) as [q HI].
  by apply (drains_start c (ok_calm Ho) K Hf q _ _ _ Hb HI (k_cfg _ _ _ _ _ Hk)).
Qed.

Lemma drained_law w : ok → draining 0 w → ready (sh w) → False.
Proof using Type. intros Ho Hd Hr. pose proof Ho as (_ & K & Hf). destruct (Hd Ho K Hf). done. Qed.

#[export] Instance library_laws : HasherLaws (world D) bad ok (queue_depth c) (S spins) := {|
  hrep := represents;
  hbuf w id := mem (sh w) !! id;
  hready w := ready (sh w);
  hdrain := draining;
  hl_fill := fill_law;
  hl_update := update_law;
  hl_zero := zero_law;
  hl_poll := poll_law;
  hl_read := read_law;
  hl_completions := completions_law;
  hl_start := start_law;
  hl_drained := drained_law;
|}.
End laws.

(** ** A new hash *)

Lemma new_represents {D : Type} `{DO : !DigestOps D, DL : !DigestLaws D, EV : !Env} o m (w : world D) :
  valid_opts o → api (config_for o) False [] w → newborn o m w → represents (config_for o) [] [] false w.
Proof.
  intros Hv Ha Hn. apply represents_false; [|by eapply newborn_account|done]. destruct Hn. split; [done|by right].
Qed.

Lemma init_represents {D : Type} `{DO : !DigestOps D, DL : !DigestLaws D, EV : !Env} o m (w : world D) :
  valid_opts o → blkhash_init o (fresh_world m) = Ret 0 w → represents (config_for o) [] [] false w.
Proof.
  intros Hv Hi. destruct (init_ready o m Hv w Hi) as (Ha & _ & Hf).
  apply represents_false; [split; [done|by right]|by eapply init_account|done].
Qed.

(** ** The digest *)

Section final.
Context {D : Type} `{DO : !DigestOps D, DL : !DigestLaws D, EV : !Env}.
Context (bad : crash → Prop) (o : blkhash_opts) (Hv : valid_opts o).
Context (Hnf : bad CNoFuel ∨ live_env (D := D) (config_for o)).

(** Nothing is in flight: the digest was asked for, or no data was passed. *)
Definition finished (w : world D) : Prop :=
  (∃ CL : Claims, wtidy 0 [] False w) ∧ core (config_for o) None [] [] w.

Lemma final_law msg (w : world D) :
  represents (config_for o) msg [] false w →
  wpc bad blkhash_final (λ r w', (r.1 = 0 → r.2 = digest_of (D := D) o msg ∧ finished w') ∧
    (r.1 ≠ 0 → live_env (D := D) (config_for o) → False)) w.
Proof using Hnf.
  intros Hre. pose proof (account_false _ _ _ _ Hre) as Ha. apply wpc_wp.
  eapply wp_mono; [apply wp_pc; [apply (blkhash_final_full (bad CNoFuel) _ Hnf False msg w (re_clean _ _ _ _ _ Hre eq_refl)), Hre|
    apply (wkeep_account _ [] False w (λ CL, wkeep_blkhash_final) Ha)]|].
  intros r w' [(_ & _ & _ & _ & H0 & Hne) [[CL [Ht _]] _]]. split; [|intros Hr [Hc _]; by apply Hne].
  intros Hr. destruct (H0 Hr) as [[[]|Hd] Hk]. split; [done|]. split; [by exists CL|done].
Qed.

(** A new hash has nothing in flight either. *)
Lemma new_finished m (w : world D) : api (config_for o) False [] w → newborn o m w → finished w.
Proof using Hv.
  intros (B & (ids & Q & Hk & _) & _) Hn. destruct (newborn_account o m w Hv Hn) as [CL [Ht _]].
  split; [by exists CL|]. assert (ids = []) as ->.
  { apply (ring_repr_nil _ _ (k_ring _ _ _ _ _ Hk)). by rewrite (nb_sq _ _ _ Hn). }
  pose proof (k_len _ _ _ _ _ Hk) as Hl. by destruct Q.
Qed.

Lemma free_law w (Q : unit → world D → Prop) :
  finished w → (∀ w', returned o w' → Q tt w') → wpc bad blkhash_free Q w.
Proof using DL Hnf Hv.
  intros [[CL Ht] Hk] HQ. apply wpc_wp. eapply wp_mono; [by eapply (free_returned (bad CNoFuel) o)|]. intros [] w' Hw. by apply HQ.
Qed.
End final.
