(* ===== verification/AioChecksum.v ===== *)
(** * The async worker of blksum (bin/aio-checksum.c)

    One thread reads an image with several commands in flight and hands the data
    to the hash in order.  A command travels between two queues: from the hash
    queue, when its update completed, to the tail of the read queue with the next
    extent of the image; and from the head of the read queue, when its read
    completed, to the tail of the hash queue.

    [FAIL] ends the thread ([Thread]) and tells the program to stop; the state stays for
    the main thread.  The bytes that were hashed are reported to the progress bar.

    The hash is any [Hasher]; the buffers of the commands are part of it.  The kernel
    and libnbd are parameters ([Outside]); the reads that libnbd accepted and has not
    completed yet are [src_inflight]. *)

From stdpp Require Import prelude list strings gmap.
From Stdlib Require Import ZArith Lia.
From S2P Require Import Prelude Thread Src Process Hasher.
From S2P Require ProgressBar.

Local Open Scope Z_scope.

Definition MAX_EXTENTS := 4096.

(** The fields of [struct options] that the worker reads. *)
Record worker_options := WorkerOptions {
  read_size : Z;
  queue_depth : Z;
  extents_size : Z;
  progress : bool;
}.

(** [struct command]; the buffer is the one with the number of the command. *)
Record command := Command {
  c_offset : Z;
  c_length : Z;
  c_completed : bool;
  c_zero : bool;
}.

(** [struct worker], with the flags of the program and the state of the source and
    of the hash. *)
Record worker (H : Type) := Worker {
  image_size : Z;
  read_offset : Z;
  bytes_hashed : Z;
  w_src : src;              (** extents.array and extents.count, can_extents *)
  ex_index : Z;
  cmds : gmap nat command;
  read_queue : list nat;
  hash_queue : list nat;
  commands_in_flight : Z;
  src_inflight : list nat;  (** reads that the source has not completed *)
  w_hash : H;
  w_proc : proc;
  n_calls : nat;            (** requests to the source so far *)
  n_waits : nat;
  w_bar : ProgressBar.progress;  (** the static variable of bin/progress.c *)
}.
Arguments Worker {H}.
Arguments image_size {H}.
Arguments read_offset {H}.
Arguments bytes_hashed {H}.
Arguments w_src {H}.
Arguments ex_index {H}.
Arguments cmds {H}.
Arguments read_queue {H}.
Arguments hash_queue {H}.
Arguments commands_in_flight {H}.
Arguments src_inflight {H}.
Arguments w_hash {H}.
Arguments w_proc {H}.
Arguments n_calls {H}.
Arguments n_waits {H}.
Arguments w_bar {H}.

(** libnbd or a local file. *)
Inductive source := SrcFile | SrcNbd.

Definition POLLIN := 1.
Definition POLLOUT := 4.
Definition POLLERR := 8.
Definition POLLHUP := 16.
Definition POLLNVAL := 32.

Definition LIBNBD_AIO_DIRECTION_READ := 1.
Definition LIBNBD_AIO_DIRECTION_WRITE := 2.
Definition LIBNBD_AIO_DIRECTION_BOTH := 3.

(** The world outside of the worker: the image and what it is read through, the
    replies to extent requests, whether libnbd accepts a read, and what happens in the n-th wait: the direction
    of the connection, when the socket has events and which, what [nbd_aio_notify]
    returns and which reads it completes with which errno, and whether the completion
    descriptor has an error.  [kernel_pread] is the result of the n-th attempt of a
    read of a file; [retries] and [loops] bound how long the loops that the outside
    can keep going are observed. *)
Class Outside := {
  image : list byte;
  kind : source;
  status : nat → Z → Z → block_status;
  accepts : nat → bool;
  kernel_pread : nat → nat → Z → Z → io;
  direction : nat → Z;
  wakes : nat → list nat → option nat;
  revents : nat → Z;
  notified : nat → list nat → Z * list (nat * Z);
  hangup : nat → bool;
  retries : nat;
  loops : nat;
}.

(** The same outside, read through a source of kind [k]. *)
Definition with_kind (k : source) (O : Outside) : Outside := {|
  image := image; kind := k; status := status; accepts := accepts; kernel_pread := kernel_pread;
  direction := direction; wakes := wakes; revents := revents; notified := notified; hangup := hangup;
  retries := retries; loops := loops;
|}.

Section worker.
Context {H : Type} `{HA : !Hasher H, OUT : !Outside, OS : !Os} (opt : worker_options) (debug : bool).
Abbreviation MK := (M (worker H)).
Abbreviation MT := (T (worker H)).

(** ** Field updates *)

Definition set_image (n : Z) (w : worker H) : worker H :=
  Worker n (read_offset w) (bytes_hashed w) (w_src w) (ex_index w) (cmds w) (read_queue w) (hash_queue w) (commands_in_flight w) (src_inflight w) (w_hash w) (w_proc w) (n_calls w) (n_waits w) (w_bar w).
Definition set_src (s : src) (w : worker H) : worker H :=
  Worker (image_size w) (read_offset w) (bytes_hashed w) s (ex_index w) (cmds w) (read_queue w) (hash_queue w) (commands_in_flight w) (src_inflight w) (w_hash w) (w_proc w) (n_calls w) (n_waits w) (w_bar w).
Definition set_index (i : Z) (w : worker H) : worker H :=
  Worker (image_size w) (read_offset w) (bytes_hashed w) (w_src w) i (cmds w) (read_queue w) (hash_queue w) (commands_in_flight w) (src_inflight w) (w_hash w) (w_proc w) (n_calls w) (n_waits w) (w_bar w).
Definition set_offset (o : Z) (w : worker H) : worker H :=
  Worker (image_size w) o (bytes_hashed w) (w_src w) (ex_index w) (cmds w) (read_queue w) (hash_queue w) (commands_in_flight w) (src_inflight w) (w_hash w) (w_proc w) (n_calls w) (n_waits w) (w_bar w).
Definition set_hashed (n : Z) (w : worker H) : worker H :=
  Worker (image_size w) (read_offset w) n (w_src w) (ex_index w) (cmds w) (read_queue w) (hash_queue w) (commands_in_flight w) (src_inflight w) (w_hash w) (w_proc w) (n_calls w) (n_waits w) (w_bar w).
Definition set_cmds (m : gmap nat command) (w : worker H) : worker H :=
  Worker (image_size w) (read_offset w) (bytes_hashed w) (w_src w) (ex_index w) m (read_queue w) (hash_queue w) (commands_in_flight w) (src_inflight w) (w_hash w) (w_proc w) (n_calls w) (n_waits w) (w_bar w).
Definition set_queues (r h : list nat) (w : worker H) : worker H :=
  Worker (image_size w) (read_offset w) (bytes_hashed w) (w_src w) (ex_index w) (cmds w) r h (commands_in_flight w) (src_inflight w) (w_hash w) (w_proc w) (n_calls w) (n_waits w) (w_bar w).
Definition set_flight (n : Z) (w : worker H) : worker H :=
  Worker (image_size w) (read_offset w) (bytes_hashed w) (w_src w) (ex_index w) (cmds w) (read_queue w) (hash_queue w) n (src_inflight w) (w_hash w) (w_proc w) (n_calls w) (n_waits w) (w_bar w).
Definition set_src_inflight (l : list nat) (w : worker H) : worker H :=
  Worker (image_size w) (read_offset w) (bytes_hashed w) (w_src w) (ex_index w) (cmds w) (read_queue w) (hash_queue w) (commands_in_flight w) l (w_hash w) (w_proc w) (n_calls w) (n_waits w) (w_bar w).
Definition set_hash (x : H) (w : worker H) : worker H :=
  Worker (image_size w) (read_offset w) (bytes_hashed w) (w_src w) (ex_index w) (cmds w) (read_queue w) (hash_queue w) (commands_in_flight w) (src_inflight w) x (w_proc w) (n_calls w) (n_waits w) (w_bar w).
Definition set_proc (p : proc) (w : worker H) : worker H :=
  Worker (image_size w) (read_offset w) (bytes_hashed w) (w_src w) (ex_index w) (cmds w) (read_queue w) (hash_queue w) (commands_in_flight w) (src_inflight w) (w_hash w) p (n_calls w) (n_waits w) (w_bar w).
Definition set_counts (calls waits : nat) (w : worker H) : worker H :=
  Worker (image_size w) (read_offset w) (bytes_hashed w) (w_src w) (ex_index w) (cmds w) (read_queue w) (hash_queue w) (commands_in_flight w) (src_inflight w) (w_hash w) (w_proc w) calls waits (w_bar w).

Definition set_bar (b : ProgressBar.progress) (w : worker H) : worker H :=
  Worker (image_size w) (read_offset w) (bytes_hashed w) (w_src w) (ex_index w) (cmds w) (read_queue w) (hash_queue w) (commands_in_flight w) (src_inflight w) (w_hash w) (w_proc w) (n_calls w) (n_waits w) b.

Definition hash_op {A} (m : M H A) : MK A := zoom w_hash set_hash m.
Definition proc_op {A} (m : M proc A) : MK A := zoom w_proc set_proc m.
Definition bar_op {A} (m : M ProgressBar.progress A) : MK A := zoom w_bar set_bar m.

(** [FAIL] in the thread *)
Definition fail_thread {A} : MT A := exit_after (proc_op (fail_worker debug)).

(** ** Commands *)

Definition load (id : nat) : MK command := w ← get; derefM (cmds w !! id).

Definition store (id : nat) (f : command → command) : MK unit :=
  c ← load id; modify (λ w, set_cmds (<[id := f c]> (cmds w)) w).

Definition set_completed (b : bool) (c : command) : command :=
  Command (c_offset c) (c_length c) b (c_zero c).

Definition init_command (id : nat) (offset length : Z) (zero : bool) : MK unit :=
  store id (λ c, Command offset length zero zero).

(** The n-th request to the source. *)
Definition next_call : MK nat :=
  w ← get; modify (set_counts (S (n_calls w)) (n_waits w));; mret (n_calls w).

(** [assert(w->commands_in_flight < w->opt->queue_depth); w->commands_in_flight++] *)
Definition take_flight : MK unit :=
  w ← get;
  assertM (commands_in_flight w <? queue_depth opt);;
  modify (set_flight (u32 (commands_in_flight w + 1))).

(** [assert(w->commands_in_flight > 0); w->commands_in_flight--] *)
Definition drop_flight : MK unit :=
  w ← get;
  assertM (0 <? commands_in_flight w);;
  modify (set_flight (commands_in_flight w - 1)).

(** ** Hashing *)

(** [if (w->opt->progress) progress_update(cmd->length)] *)
Definition report (length : Z) : MK unit :=
  if progress opt then bar_op (ProgressBar.progress_update length) else mret tt.

Definition start_update (id : nat) : MT unit :=
  lift (store id (set_completed false));;
  c ← lift (load id);
  err ← lift (hash_op (hash_update id (c_length c)));
  if fails err then fail_thread else lift take_flight.

Definition update_completed (id : nat) : MK unit :=
  store id (set_completed true);;
  c ← load id;
  modify (λ w, set_hashed (bytes_hashed w + c_length c) w);;
  drop_flight;;
  report (c_length c).

Definition run_zero (id : nat) : MT unit :=
  c ← lift (load id);
  err ← lift (hash_op (hash_zero (c_length c)));
  if fails err then fail_thread
  else
    lift (store id (set_completed true));;
    lift (modify (λ w, set_hashed (bytes_hashed w + c_length c) w));;
    lift (report (c_length c)).

(** The loop of [hash_more_data] over the read queue. *)
Fixpoint hash_loop (l : list nat) : MT unit :=
  match l with
  | [] => mret tt
  | id :: l' =>
      c ← lift (load id);
      if c_completed c then
        lift (modify (λ w, set_queues (tail (read_queue w)) (hash_queue w ++ [id]) w));;
        (if c_zero c then run_zero id else start_update id);;
        hash_loop l'
      else mret tt
  end.

Definition hash_more_data : MT unit := w ← lift get; hash_loop (read_queue w).

(** ** Extents *)

Definition fetch_extents (length : Z) : MK unit :=
  modify (set_index 0);;
  modify (λ w, set_src (Src (can_extents (w_src w)) (s_extents (w_src w)) MAX_EXTENTS) w);;
  t ← next_call;
  w ← get;
  zoom w_src set_src (src_extents (status t (read_offset w) length) length).

Definition need_extents (w : worker H) : bool := ex_index w =? s_count (w_src w).

Definition next_extent : MK extent :=
  w ← get;
  (if need_extents w then
     fetch_extents (u32 (Z.min (extents_size opt) (image_size w - read_offset w)))
   else mret tt);;
  w ← get;
  assertM (ex_index w <? s_count (w_src w));;
  current ← derefM (s_extents (w_src w) !! Z.to_nat (ex_index w));
  let length :=
    if e_zero current then e_length current
    else if e_length current <? read_size opt then e_length current else u32 (read_size opt) in
  let left := u32 (e_length current - length) in
  modify (λ w, set_src (Src (can_extents (w_src w))
    (<[Z.to_nat (ex_index w) := Extent left (e_zero current)]> (s_extents (w_src w)))
    (s_count (w_src w))) w);;
  (if left =? 0 then modify (λ w, set_index (ex_index w + 1) w) else mret tt);;
  mret (Extent length (e_zero current)).

(** ** Reading *)

(** The data of a read is stored in the buffer of its command. *)
Definition receive (id : nat) (data : list byte) : MK unit := hash_op (hash_fill id data).

Definition read_completed (id : nat) (error : Z) : MT unit :=
  if fails error then fail_thread
  else lift (store id (set_completed true));; lift drop_flight.

(** [file_ops_aio_pread]: the read completes before the call returns. *)
Definition file_ops_aio_pread (id : nat) (length offset : Z) : MT unit :=
  t ← lift next_call;
  match file_ops_pread (S (Z.to_nat length + retries)) (kernel_pread t) 0 length offset [] with
  | None => lift (crashM CNoFuel)
  | Some (inr _) => fail_thread
  | Some (inl data) => lift (receive id data);; read_completed id 0
  end.

(** [nbd_ops_aio_pread]: libnbd accepts the read, or the thread fails. *)
Definition nbd_ops_aio_pread (id : nat) : MT unit :=
  t ← lift next_call;
  if accepts t then lift (modify (λ w, set_src_inflight (src_inflight w ++ [id]) w)) else fail_thread.

(** Both check that the read is inside the image. *)
Definition src_aio_pread (id : nat) : MT unit :=
  c ← lift (load id);
  w ← lift get;
  if image_size w <? c_offset c + c_length c then fail_thread
  else match kind with
       | SrcFile => file_ops_aio_pread id (c_length c) (c_offset c)
       | SrcNbd => nbd_ops_aio_pread id
       end.

Definition start_read (id : nat) : MT unit := lift take_flight;; src_aio_pread id.

(** The loop of [read_more_data] over the hash queue. *)
Fixpoint read_loop (l : list nat) : MT unit :=
  match l with
  | [] => mret tt
  | id :: l' =>
      w ← lift get;
      if read_offset w <? image_size w then
        c ← lift (load id);
        (if c_completed c then
           lift (modify (λ w, set_queues (read_queue w ++ [id]) (filter (.≠ id) (hash_queue w)) w));;
           e ← lift next_extent;
           w ← lift get;
           lift (init_command id (read_offset w) (e_length e) (e_zero e));;
           (if e_zero e then mret tt else start_read id);;
           lift (modify (λ w, set_offset (read_offset w + e_length e) w))
         else mret tt);;
        read_loop l'
      else mret tt
  end.

Definition read_more_data : MT unit := w ← lift get; read_loop (hash_queue w).

(** ** Events of the source *)

(** The reads that [nbd_aio_notify] completes, of those that were accepted. *)
Fixpoint complete_reads (l : list (nat * Z)) : MT unit :=
  match l with
  | [] => mret tt
  | (id, error) :: l' =>
      w ← lift get;
      (if decide (id ∈ src_inflight w) then
         lift (modify (λ w, set_src_inflight (filter (.≠ id) (src_inflight w)) w));;
         (if fails error then mret tt
          else lift (c ← load id; receive id (slice image (c_offset c) (c_length c))));;
         read_completed id error
       else mret tt);;
      complete_reads l'
  end.

(** The status, and whether the socket is polled. *)
Definition nbd_ops_aio_prepare (t : nat) : MK (Z * bool) :=
  w ← get;
  if (length (src_inflight w) =? 0)%nat then mret (0, false)
  else if (direction t =? LIBNBD_AIO_DIRECTION_READ) || (direction t =? LIBNBD_AIO_DIRECTION_WRITE) ||
          (direction t =? LIBNBD_AIO_DIRECTION_BOTH) then mret (0, true)
  else mret (-1, true).

(** A file source has no [aio_prepare]. *)
Definition src_aio_prepare (t : nat) : MK (Z * bool) :=
  match kind with SrcFile => mret (0, false) | SrcNbd => nbd_ops_aio_prepare t end.

Definition nbd_ops_aio_notify (t : nat) : MT Z :=
  w ← lift get;
  if fails (Z.land (revents t) (Z.lor POLLIN POLLHUP)) || fails (Z.land (revents t) POLLOUT) then
    let '(rc, l) := notified t (src_inflight w) in
    complete_reads l;; mret rc
  else if fails (Z.land (revents t) (Z.lor POLLERR POLLNVAL)) then mret (-1)
  else mret 0.

(** ** Waiting *)

(** The loop over the completions. *)
Fixpoint complete_loop (l : list (nat * Z)) : MK Z :=
  match l with
  | [] => mret 0
  | (id, error) :: l' =>
      if fails error then mret (-1) else update_completed id;; complete_loop l'
  end.

Definition complete_updates : MK Z :=
  '(n, out) ← hash_op (hash_completions (queue_depth opt));
  if n <? 0 then mret (-1) else complete_loop out.

(** [poll] and [read] until they are not interrupted. *)
Fixpoint poll_loop (fuel : nat) (limit : option nat) : MK (Z * (bool * bool)) :=
  r ← hash_op (hash_poll limit);
  if r.1 =? EINTR then
    match fuel with O => crashM CNoFuel | S fuel' => poll_loop fuel' limit end
  else mret r.

Fixpoint drain_event (fuel : nat) : MK (Z * Z) :=
  r ← hash_op hash_read;
  if r.1 =? EINTR then
    match fuel with O => crashM CNoFuel | S fuel' => drain_event fuel' end
  else mret r.

Definition wait_for_events : MT Z :=
  w ← lift get;
  let t := n_waits w in
  lift (modify (set_counts (n_calls w) (S t)));;
  '(rc, polled) ← lift (src_aio_prepare t);
  if fails rc then mret (-1)
  else
    '(err, (src, hash)) ← lift (poll_loop retries (if polled : bool then wakes t (src_inflight w) else None));
    if fails err then mret (-1)
    else
      rc ← (if src : bool then nbd_ops_aio_notify t else mret 0);
      if fails rc then mret (-1)
      else if hangup t then mret (-1)
      else if hash : bool then
        '(err, n) ← lift (drain_event retries);
        if fails err then mret (-1)
        else if 0 <? n then lift complete_updates else mret 0
      else mret 0.

(** ** The main loop *)

Fixpoint process_image (fuel : nat) : MT unit :=
  w ← lift get;
  if bytes_hashed w <? image_size w then
    match fuel with
    | O => lift (crashM CNoFuel)
    | S fuel' =>
        (if read_offset w <? image_size w then read_more_data else mret tt);;
        hash_more_data;;
        w ← lift get;
        (if fails (commands_in_flight w) then
           rc ← wait_for_events; if fails rc then fail_thread else mret tt
         else mret tt);;
        go ← lift (proc_op running);
        if go : bool then process_image fuel' else mret tt
    end
  else mret tt.

(** The worker before its loop: all commands are in the hash queue, as if their
    updates were completed. *)
Definition new_worker (can : bool) (h : H) (p : proc) (b : ProgressBar.progress) : worker H :=
  let ids := seq 0 (Z.to_nat (queue_depth opt)) in
  Worker (zlen image) 0 0 (Src can (replicate (Z.to_nat MAX_EXTENTS) (Extent 0 false)) 0) 0
    (list_to_map ((λ id : nat, (id, Command 0 0 true false)) <$> ids))
    [] ids 0 [] h p 0 0 b.
End worker.
