(* ===== verification/AioInv.v ===== *)
(** * The worker of blksum hashes the image

    The invariant of the two queues: the message of the hash, followed by the
    extents in the read queue, is the image up to the read offset; buffers in the
    read queue are filled with their part of the image when the read completed; the
    updates in flight are the commands of the hash queue that are not completed; and
    the counters agree with the requests in flight.  [potential] decreases with every
    step of a command.  Of the hash only the laws of its interface are used.  When the
    thread ends because of a failure, all commands are still in the queues. *)

From stdpp Require Import prelude list strings gmap.
From Stdlib Require Import ZArith Lia.
From S2P Require Import Prelude Thread Src Process Hasher AioChecksum.
From S2P Require ProgressBar.

Local Open Scope Z_scope.

Section cmds.
Implicit Types (m : gmap nat command) (l : list nat).

(** A command with a request in flight. *)
Definition pend m (id : nat) : bool :=
  match m !! id with Some c => negb (c_completed c) | None => false end.

Definition cmd_len m (id : nat) : Z := match m !! id with Some c => c_length c | None => 0 end.

Definition cmd_part (img : list byte) m (id : nat) : list byte :=
  match m !! id with Some c => slice img (c_offset c) (c_length c) | None => [] end.

Definition pending_ids m l : list nat := filter (λ id, pend m id = true) l.

Definition sum_len m l : Z := foldr (λ id n, cmd_len m id + n) 0 l.

(** Steps left for the commands of the read queue. *)
Definition read_weight m l : Z := foldr (λ id n, (if pend m id then 3 else 2) + n) 0 l.

Lemma filter_ext_in {A} (P Q : A → Prop) `{!∀ x, Decision (P x), !∀ x, Decision (Q x)} (l : list A) :
  (∀ x, x ∈ l → P x ↔ Q x) → filter P l = filter Q l.
Proof.
  induction l as [|x l IH]; intros Hx; [done|]. rewrite !filter_cons, IH by (intros; apply Hx; by right).
  destruct (Hx x ltac:(by left)). destruct (decide (P x)), (decide (Q x)); tauto || done.
Qed.

Lemma filter_all_in {A} (P : A → Prop) `{!∀ x, Decision (P x)} (l : list A) :
  (∀ x, x ∈ l → P x) → filter P l = l.
Proof.
  induction l as [|x l IH]; intros Hx; [done|]. rewrite filter_cons_True by (apply Hx; by left).
  rewrite IH; [done|]. intros; apply Hx; by right.
Qed.

Lemma pending_ids_ne m id c l :
  id ∉ l → pending_ids (<[id := c]> m) l = pending_ids m l.
Proof.
  intros Hid. unfold pending_ids. apply filter_ext_in. intros x Hx. unfold pend.
  rewrite lookup_insert_ne; [done|]. by intros ->.
Qed.

Lemma pending_ids_done m id c l :
  c_completed c = true → pending_ids (<[id := c]> m) l = filter (.≠ id) (pending_ids m l).
Proof.
  intros Hc. unfold pending_ids. rewrite list_filter_filter. apply list_filter_iff. intros x. unfold pend.
  destruct (decide (x = id)) as [->|].
  - rewrite lookup_insert_eq, Hc. split; [done|by intros []].
  - rewrite lookup_insert_ne by done. split; [by split|by intros []].
Qed.

Lemma pending_ids_remove m id l :
  id ∉ pending_ids m l → pending_ids m (filter (.≠ id) l) = pending_ids m l.
Proof.
  intros Hid. unfold pending_ids in *. rewrite list_filter_filter. apply filter_ext_in. intros x Hx.
  split; [by intros []|]. intros Hp. split; [done|]. intros ->. by apply Hid, list_elem_of_filter.
Qed.

Lemma pending_ids_app m l k : pending_ids m (l ++ k) = pending_ids m l ++ pending_ids m k.
Proof. apply filter_app. Qed.

Lemma sum_len_ne m id c l : id ∉ l → sum_len (<[id := c]> m) l = sum_len m l.
Proof.
  induction l as [|x l IH]; simpl; [done|]. rewrite not_elem_of_cons. intros [Hx Hl]. rewrite IH by done.
  unfold cmd_len. by rewrite lookup_insert_ne.
Qed.

Lemma sum_len_app m l k : sum_len m (l ++ k) = sum_len m l + sum_len m k.
Proof. induction l as [|x l IH]; simpl; [done|]. rewrite IH. lia. Qed.

(** The length does not change. *)
Lemma sum_len_same m id c c' l :
  m !! id = Some c → c_length c' = c_length c → sum_len (<[id := c']> m) l = sum_len m l.
Proof.
  intros Hc Hl. induction l as [|x l IH]; simpl; [done|]. rewrite IH. f_equal. unfold cmd_len.
  destruct (decide (x = id)) as [->|]; [by rewrite lookup_insert_eq, Hc|by rewrite lookup_insert_ne].
Qed.

Lemma cmd_part_ne img m id c l :
  id ∉ l → cmd_part img (<[id := c]> m) <$> l = cmd_part img m <$> l.
Proof.
  intros Hid. apply list_fmap_ext. intros i x Hx. unfold cmd_part. rewrite lookup_insert_ne; [done|].
  intros ->. by apply list_elem_of_lookup_2 in Hx.
Qed.

Lemma cmd_part_same img m id c c' l :
  m !! id = Some c → c_length c' = c_length c → c_offset c' = c_offset c →
  cmd_part img (<[id := c']> m) <$> l = cmd_part img m <$> l.
Proof.
  intros Hc Hl Ho. apply list_fmap_ext. intros i x Hx. unfold cmd_part.
  destruct (decide (x = id)) as [->|]; [by rewrite lookup_insert_eq, Hc, Hl, Ho|by rewrite lookup_insert_ne].
Qed.

Lemma read_weight_ne m id c l : id ∉ l → read_weight (<[id := c]> m) l = read_weight m l.
Proof.
  induction l as [|x l IH]; simpl; [done|]. rewrite not_elem_of_cons. intros [Hx Hl]. rewrite IH by done.
  unfold pend. by rewrite lookup_insert_ne.
Qed.

Lemma read_weight_app m l k : read_weight m (l ++ k) = read_weight m l + read_weight m k.
Proof. induction l as [|x l IH]; simpl; [done|]. rewrite IH. lia. Qed.

(** A read completes. *)
Lemma read_weight_done m id c l :
  NoDup l → id ∈ l → pend m id = true → c_completed c = true →
  read_weight (<[id := c]> m) l = read_weight m l - 1.
Proof.
  intros Hnd. revert id. induction Hnd as [|x l Hx Hnd IH]; intros id Hid Hp Hc; simpl;
    [by apply elem_of_nil in Hid|].
  apply elem_of_cons in Hid as [->|Hid].
  - rewrite read_weight_ne, Hp by done. unfold pend at 1. rewrite lookup_insert_eq, Hc. simpl. lia.
  - rewrite IH by done. assert (x ≠ id) by (by intros ->). unfold pend at 1.
    rewrite lookup_insert_ne by done. fold (pend m x). lia.
Qed.

Lemma remove_absent (id : nat) l : id ∉ l → filter (.≠ id) l = l.
Proof. intros Hid. apply filter_all_in. by intros x Hx ->. Qed.
End cmds.

(** ** Hypotheses on the options and on the outside *)

Record options_ok (opt : worker_options) : Prop := {
  oo_read : 0 < read_size opt < 2 ^ 32;
  oo_depth : 0 < queue_depth opt < 2 ^ 32;
  oo_extents : 0 < extents_size opt < 2 ^ 32;
}.

(** The extents that the source reports describe the image, and what a file returns
    is its contents. *)
Record source_truthful `{OUT : !Outside} : Prop := {
  st_status t off len : 0 <= off → 0 < len → off + len <= zlen image →
    Forall (truthful image off) (bs_replies (status t off len));
  st_pread t : returns_file image (kernel_pread t);
}.

(** No read, poll or notification fails. *)
Record source_ok `{OUT : !Outside} : Prop := {
  so_pread t : reads_file image (kernel_pread t) ∧ ∃ intr, few_interrupts (kernel_pread t) intr retries;
  so_accepts t : accepts t = true;
  so_direction t : LIBNBD_AIO_DIRECTION_READ <= direction t <= LIBNBD_AIO_DIRECTION_BOTH;
  so_revents t : fails (Z.land (revents t) (Z.lor POLLIN POLLHUP)) || fails (Z.land (revents t) POLLOUT) = true;
  so_notified t l : (notified t l).1 = 0 ∧ Forall (λ p, p.2 = 0) (notified t l).2;
  so_hangup t : hangup t = false;
}.

(** With reads in flight the socket has events in time, and after at most [G] events
    one of them completes a read. *)
Record source_live `{OUT : !Outside} (G : nat) (dry : nat → nat) : Prop := {
  sl_wakes t l : l ≠ [] → is_Some (wakes t l);
  sl_dry t l : l ≠ [] → (∃ p, p ∈ (notified t l).2 ∧ p.1 ∈ l) ∨ (dry (S t) < dry t)%nat;
  sl_bound t : (dry t ≤ G)%nat;
}.

Section inv.
Context {H : Type} `{HA : !Hasher H, OUT : !Outside, OS : !Os}.
Context (opt : worker_options) (debug : bool) (E : crash → Prop) (ok : Prop) (patience : nat) (p0 : proc).
Context (lines : list string).
Context `{HL : !HasherLaws H E ok (queue_depth opt) patience}.
Implicit Types (w : worker H) (m : gmap nat command) (l : list nat) (h : H).

(** What a thread that failed leaves. *)
Record abandoned w : Prop := {
  ab_depth : zlen (read_queue w ++ hash_queue w) = queue_depth opt;
  ab_blocks : p_blocks (w_proc w) = p_blocks p0;
  ab_files : p_files (w_proc w) = p_files p0;
  ab_stopped : is_running (w_proc w) = false;
}.

Context (X : worker H → Prop) (Hopt : options_ok opt) (Hsrc : source_truthful) (Hsig : signals_ok).
Context (Hfail : (ok ∧ source_ok) ∨ (E CNoFuel ∧ ∀ w, abandoned w → X w)).
Context (Himg : zlen image < 2 ^ 63).

Lemma fail_exits {A} (Q : A → worker H → Prop) w :
  (ok → source_ok → False) → zlen (read_queue w ++ hash_queue w) = queue_depth opt → later p0 (w_proc w) →
  wpt E X (fail_thread debug) Q w.
Proof using Hsig Hfail.
  intros Hno Hd Hl. destruct Hfail as [[]|[_ HX]]; [by destruct Hno|]. apply wpt_exit. unfold proc_op. wpc_step.
  eapply wpc_mono; [apply (fail_worker_ok Hsig)|]. intros _ p' (Hb & Hf & Hr). apply HX.
  split; simpl; [done|by rewrite Hb, (lt_blocks _ _ Hl)|by rewrite Hf, (lt_files _ _ Hl)|done].
Qed.

(** ** The invariant *)

(** The extents that were fetched describe the image from [off] on. *)
Record ext_ok (off : Z) w : Prop := {
  xo_size : zlen (s_extents (w_src w)) = MAX_EXTENTS;
  xo_index : 0 <= ex_index w <= s_count (w_src w);
  xo_count : s_count (w_src w) <= MAX_EXTENTS;
  xo_describes : describes image off
    (drop (Z.to_nat (ex_index w)) (take (Z.to_nat (s_count (w_src w))) (s_extents (w_src w))));
}.

(** A command of the read queue, with its buffer. *)
Record read_ok (buf : option (list byte)) (c : command) : Prop := {
  ro_offset : 0 <= c_offset c;
  ro_length : 0 < c_length c < 2 ^ 32;
  ro_inside : c_offset c + c_length c <= zlen image;
  ro_zero : c_zero c = true → c_completed c = true ∧
    slice image (c_offset c) (c_length c) = zeros (c_length c);
  ro_data : c_zero c = false → c_length c <= read_size opt ∧
    (c_completed c = true → ∃ b, buf = Some b ∧ ztake (c_length c) b = slice image (c_offset c) (c_length c));
}.

(** The updates that the worker waits for. *)
Definition updates w : list nat := pending_ids (cmds w) (hash_queue w).

(** The hash stands for what was passed to it; [owed]: completions that it reported
    and the worker has not looked at. *)
Definition hashing (owed : list nat) (looked : bool) w : Prop :=
  ∃ msg l, hrep msg l looked (w_hash w) ∧ updates w ≡ₚ owed ++ l ∧
    msg ++ mjoin (cmd_part image (cmds w) <$> read_queue w) = ztake (read_offset w) image.

Record inv (owed : list nat) (looked : bool) w : Prop := {
  in_size : image_size w = zlen image;
  in_offset : 0 <= read_offset w <= zlen image;
  in_nodup : NoDup (read_queue w ++ hash_queue w);
  in_depth : zlen (read_queue w ++ hash_queue w) = queue_depth opt;
  in_cmds : ∀ id, id ∈ read_queue w ++ hash_queue w → is_Some (cmds w !! id);
  in_bufs : ∀ id, id ∈ read_queue w ++ hash_queue w →
    ∃ b, hbuf (w_hash w) id = Some b ∧ zlen b = read_size opt;
  in_reads : src_inflight w = pending_ids (cmds w) (read_queue w);
  in_flight : commands_in_flight w = zlen (src_inflight w) + zlen (updates w);
  in_read : ∀ id c, id ∈ read_queue w → cmds w !! id = Some c → read_ok (hbuf (w_hash w) id) c;
  in_update : ∀ id c, id ∈ updates w → cmds w !! id = Some c → 0 < c_length c;
  in_hash : hashing owed looked w;
  in_hashed : bytes_hashed w + sum_len (cmds w) (read_queue w) + sum_len (cmds w) (updates w) =
    read_offset w;
  in_extents : ext_ok (read_offset w) w;
  in_source : kind = SrcFile → src_inflight w = [];
  in_proc : later p0 (w_proc w);  (** the flags of the program since the start *)
  in_bar : progress opt = true → ProgressBar.shows (zlen image) (bytes_hashed w) lines (w_bar w);
}.

(** The number of steps that the commands have left, at most. *)
Definition potential w : Z :=
  4 * (zlen image - read_offset w) + read_weight (cmds w) (read_queue w) + zlen (updates w).

(** The counters and the flags of the program do not matter. *)
Lemma inv_counts owed looked w calls waits p :
  inv owed looked w → later p0 p → inv owed looked (set_proc p (set_counts calls waits w)).
Proof using Type. intros [? ? ? ? ? ? ? ? ? ? ? ? []] ?. by split. Qed.

(** ** Extents *)

Lemma wpc_load id c (Q : command → worker H → Prop) w :
  cmds w !! id = Some c → Q c w → wpc E (load id) Q w.
Proof using Type. intros Hc HQ. unfold load. wpc_step. wpc_step. by eapply wpc_derefM. Qed.

Lemma wpc_store id f c (Q : unit → worker H → Prop) w :
  cmds w !! id = Some c → Q tt (set_cmds (<[id := f c]> (cmds w)) w) → wpc E (store id f) Q w.
Proof using Type. intros Hc HQ. unfold store. wpc_step. eapply wpc_load; [done|]. by wpc_step. Qed.

(** The worker after extents were fetched and consumed. *)
Definition ext_frame w w' : Prop :=
  ∃ s i n, w' = set_counts n (n_waits w) (set_index i (set_src s w)).

Lemma fetch_extents_inv w len :
  image_size w = zlen image → 0 <= read_offset w → 0 < len < 2 ^ 32 →
  read_offset w + len <= zlen image → zlen (s_extents (w_src w)) = MAX_EXTENTS →
  wpc E (fetch_extents len) (λ _ w', ext_frame w w' ∧ ext_ok (read_offset w) w' ∧
    ex_index w' = 0 ∧ 1 <= s_count (w_src w')) w.
Proof using Hsrc.
  intros Hs Ho Hl Hin Hsz. unfold fetch_extents. do 4 wpc_step. unfold next_call. do 8 wpc_step.
  simpl. unfold wpc, zoom. simpl.
  destruct (src_extents_truthful image (read_offset w) len (status (n_calls w) (read_offset w) len)
    (Src (can_extents (w_src w)) (s_extents (w_src w)) MAX_EXTENTS)) as (s' & -> & Hsz' & Hc & Hd);
    try done; simpl.
  { rewrite Hsz. unfold MAX_EXTENTS. lia. }
  { apply (st_status Hsrc); lia. }
  simpl in Hc. split_and!; [by eexists _, _, _| |done|lia]. split; simpl; [|lia|lia|].
  - unfold zlen in *. by rewrite Hsz'.
  - done.
Qed.

(** The first extent and the rest. *)
Lemma ext_ok_current off w :
  ext_ok off w → ex_index w < s_count (w_src w) →
  ∃ e rest, s_extents (w_src w) !! Z.to_nat (ex_index w) = Some e ∧
    drop (Z.to_nat (ex_index w)) (take (Z.to_nat (s_count (w_src w))) (s_extents (w_src w))) = e :: rest ∧
    drop (Z.to_nat (ex_index w + 1)) (take (Z.to_nat (s_count (w_src w))) (s_extents (w_src w))) = rest.
Proof using Type.
  intros [Hsz Hi Hc Hd] Hlt. unfold zlen in *.
  destruct (lookup_lt_is_Some_2 (s_extents (w_src w)) (Z.to_nat (ex_index w))) as [e He]; [lia|].
  exists e, (drop (Z.to_nat (ex_index w + 1)) (take (Z.to_nat (s_count (w_src w))) (s_extents (w_src w)))).
  split_and!; [done| |done].
  replace (Z.to_nat (ex_index w + 1)) with (S (Z.to_nat (ex_index w))) by lia.
  rewrite <-(drop_S _ e); [done|]. rewrite lookup_take_lt by lia. done.
Qed.

(** An extent was consumed up to [n] bytes. *)
Lemma ext_ok_consume off w e rest n :
  ext_ok off w → ex_index w < s_count (w_src w) →
  drop (Z.to_nat (ex_index w)) (take (Z.to_nat (s_count (w_src w))) (s_extents (w_src w))) = e :: rest →
  drop (Z.to_nat (ex_index w + 1)) (take (Z.to_nat (s_count (w_src w))) (s_extents (w_src w))) = rest →
  0 < n <= e_length e → (e_zero e = true → n = e_length e) → 0 <= off →
  ext_ok (off + n) (set_index (if u32 (e_length e - n) =? 0 then ex_index w + 1 else ex_index w)
    (set_src (Src (can_extents (w_src w))
      (<[Z.to_nat (ex_index w) := Extent (u32 (e_length e - n)) (e_zero e)]> (s_extents (w_src w)))
      (s_count (w_src w))) w)).
Proof using Type.
  intros [Hsz Hi Hc Hd] Hlt Hcur Hrest Hn Hz Ho. rewrite Hcur in Hd. destruct Hd as (Hlen & Hin & Hzero & Hd).
  rewrite u32_small by lia. split; simpl; [unfold zlen in *; by rewrite length_insert| |done|].
  { destruct (_ =? 0); lia. }
  destruct (e_length e - n =? 0) eqn:E0.
  - assert (n = e_length e) as -> by lia.
    rewrite take_insert_lt, drop_insert_lt by lia. by rewrite Hrest.
  - rewrite take_insert_lt by lia. rewrite drop_insert_ge, Nat.sub_diag, Hcur by lia. simpl.
    assert (e_zero e = false) as He by (destruct (e_zero e); [specialize (Hz eq_refl); lia|done]).
    rewrite He. split_and!; [lia|lia|lia|done|]. by replace (off + n + (e_length e - n)) with (off + e_length e) by lia.
Qed.

Lemma next_extent_inv w :
  image_size w = zlen image → 0 <= read_offset w < zlen image →
  ext_ok (read_offset w) w →
  wpc E (next_extent opt) (λ e w', ext_frame w w' ∧ 0 < e_length e < 2 ^ 32 ∧
    read_offset w + e_length e <= zlen image ∧
    (e_zero e = true → slice image (read_offset w) (e_length e) = zeros (e_length e)) ∧
    (e_zero e = false → e_length e <= read_size opt) ∧
    ext_ok (read_offset w + e_length e) w') w.
Proof using Hopt Hsrc Himg.
  intros Hs Ho Hx. unfold next_extent. destruct Hopt as [Hrs Hqd Hes]. wpc_step. wpc_step.
  apply wpc_bind. apply (wpc_mono _ _ (λ _ w', ext_frame w w' ∧ ext_ok (read_offset w) w' ∧
    ex_index w' < s_count (w_src w'))).
  { destruct (need_extents w) eqn:Hneed; unfold need_extents in Hneed.
    - rewrite Hs, u32_small by lia.
      eapply wpc_mono; [apply fetch_extents_inv; try done; try lia; apply Hx|].
      intros [] w' (? & ? & ? & ?). split_and!; [done..|lia].
    - wpc_step. split_and!; [|done|pose proof (xo_index _ _ Hx); lia].
      exists (w_src w), (ex_index w), (n_calls w). by destruct w. }
  intros [] w1 ((s1 & i1 & n1 & Hw1) & Hx1 & Hlt). wpc_step. wpc_step. wpc_step.
  apply wpc_assertM; [lia|]. wpc_step.
  destruct (ext_ok_current _ _ Hx1 Hlt) as (e & rest & He & Hcur & Hrest). eapply wpc_derefM; [done|].
  cbv zeta. do 2 wpc_step.
  pose proof (xo_describes _ _ Hx1) as Hd. rewrite Hcur in Hd. destruct Hd as (Hlen & Hin & Hzero & _).
  set (n := if e_zero e then e_length e else if e_length e <? read_size opt then e_length e
    else u32 (read_size opt)).
  assert (0 < n <= e_length e ∧ (e_zero e = true → n = e_length e) ∧
    (e_zero e = false → n <= read_size opt)) as (Hn & Hnz & Hnd).
  { unfold n. rewrite u32_small by lia.
    destruct (e_zero e); [split_and!; lia || done|]. destruct (_ <? _) eqn:?; split_and!; lia || done. }
  pose proof (ext_ok_consume _ _ _ _ n Hx1 Hlt Hcur Hrest Hn Hnz ltac:(lia)) as Hx2.
  clearbody n. wpc_step. subst w1. destruct (u32 (e_length e - n) =? 0); do 2 wpc_step; simpl.
  - split_and!; [by eexists _, _, _|lia|lia|lia|..|done]; [|done].
    intros Hz. rewrite Hnz in * by done. auto.
  - split_and!; [by eexists _, i1, _|lia|lia|lia|..|done]; [|done].
    intros Hz. rewrite Hnz in * by done. auto.
Qed.

(** ** Moving a command to the read queue *)

Lemma remove_perm (id : nat) l : NoDup l → id ∈ l → (id :: filter (.≠ id) l) ≡ₚ l.
Proof using Type.
  intros Hnd Hid. apply list_elem_of_split in Hid as (l1 & l2 & ->).
  apply NoDup_app in Hnd as (_ & Hd & [Hn _]%NoDup_cons).
  rewrite filter_app, filter_cons_False by auto.
  rewrite (remove_absent id l1), (remove_absent id l2); [by rewrite Permutation_middle|done|].
  intros Hin. apply (Hd id Hin). by left.
Qed.

Lemma ztake_slice n : ztake n image = slice image 0 n.
Proof using Type. done. Qed.

(** The worker after command [id] was moved to the read queue as [c]. *)
Definition moved_to_read id c s i flight sif h calls w : worker H :=
  Worker (image_size w) (read_offset w + c_length c) (bytes_hashed w) s i (<[id := c]> (cmds w))
    (read_queue w ++ [id]) (filter (.≠ id) (hash_queue w)) flight sif h (w_proc w) calls (n_waits w) (w_bar w).

Lemma queue_parts owed looked w id :
  inv owed looked w → id ∈ hash_queue w → ¬ (id ∈ read_queue w) ∧ NoDup (hash_queue w) ∧
  (read_queue w ++ hash_queue w) ≡ₚ (read_queue w ++ [id]) ++ filter (.≠ id) (hash_queue w).
Proof using Type.
  intros Hi Hid. pose proof (in_nodup _ _ _ Hi) as Hnd. apply NoDup_app in Hnd as (_ & Hd & Hnh).
  split_and!; [|done|].
  - intros Hin. by apply (Hd id).
  - rewrite <-app_assoc. simpl. by rewrite (remove_perm id (hash_queue w)).
Qed.

Lemma not_pending m id c l :
  m !! id = Some c → c_completed c = true → id ∉ pending_ids m l.
Proof using Type.
  intros Hc Hd Hin. apply list_elem_of_filter in Hin as [Hp _]. unfold pend in Hp. by rewrite Hc, Hd in Hp.
Qed.

(** The message and the updates of the hash did not change, and only the buffer of
    [id] may have. *)
Record touched id h h' : Prop := {
  tc_rep : ∀ msg l b, hrep msg l b h → id ∉ l → hrep msg l b h';
  tc_bufs : ∀ j, j ≠ id → hbuf h' j = hbuf h j;
}.

(** Moving an idle command does not change the updates. *)
Lemma updates_moved id c0 c w :
  cmds w !! id = Some c0 → c_completed c0 = true → id ∈ hash_queue w →
  pending_ids (<[id := c]> (cmds w)) (filter (.≠ id) (hash_queue w)) = updates w.
Proof using Type.
  intros Hc0 Hd Hid. rewrite pending_ids_ne by (by intros [? _]%list_elem_of_filter).
  apply pending_ids_remove. by eapply not_pending.
Qed.

Lemma inv_moved id c0 c s i flight sif h calls w :
  inv [] false w → id ∈ hash_queue w → cmds w !! id = Some c0 → c_completed c0 = true →
  c_offset c = read_offset w → read_ok (hbuf h id) c →
  (∃ b, hbuf h id = Some b ∧ zlen b = read_size opt) → touched id (w_hash w) h →
  sif = src_inflight w ++ (if c_completed c then [] else [id]) →
  (kind = SrcFile → c_completed c = true) →
  flight = zlen sif + zlen (updates w) →
  ext_ok (read_offset w + c_length c) (moved_to_read id c s i flight sif h calls w) →
  let w' := moved_to_read id c s i flight sif h calls w in inv [] false w' ∧ potential w' < potential w.
Proof using Type.
  intros Hi Hid Hc0 Hdone Hoff Hok Hbuf [Htr Htb] Hsif Hfile Hfl Hx w'.
  destruct (queue_parts _ _ _ _ Hi Hid) as (Hnr & Hnh & Hperm).
  assert (id ∉ updates w) as Hnu by (by eapply not_pending).
  pose proof (updates_moved id c0 c w Hc0 Hdone Hid) as Hup.
  pose proof Hok as [Hro Hrl Hri Hrz Hrd]. split; [split; simpl|].
  - apply Hi.
  - pose proof (in_offset _ _ _ Hi). lia.
  - rewrite <-Hperm. apply Hi.
  - unfold zlen. rewrite <-Hperm. apply Hi.
  - intros j Hj. rewrite <-Hperm in Hj. destruct (decide (j = id)) as [->|]; [by rewrite lookup_insert_eq|].
    rewrite lookup_insert_ne by done. by apply (in_cmds _ _ _ Hi).
  - intros j Hj. rewrite <-Hperm in Hj. destruct (decide (j = id)) as [->|]; [done|].
    rewrite Htb by done. by apply (in_bufs _ _ _ Hi).
  - rewrite pending_ids_app, pending_ids_ne by done. rewrite Hsif, (in_reads _ _ _ Hi). f_equal.
    unfold pending_ids. rewrite filter_cons. unfold pend. rewrite lookup_insert_eq.
    by destruct (c_completed c).
  - unfold updates. simpl. by rewrite Hup.
  - intros j cj Hj. destruct (decide (j = id)) as [->|].
    + rewrite lookup_insert_eq. intros [= <-]. done.
    + rewrite lookup_insert_ne, Htb by done. apply elem_of_app in Hj as [Hj|?%list_elem_of_singleton]; [|done].
      by apply (in_read _ _ _ Hi).
  - unfold updates. simpl. rewrite Hup. intros j cj Hj. rewrite lookup_insert_ne by (by intros ->).
    by apply (in_update _ _ _ Hi).
  - destruct (in_hash _ _ _ Hi) as (msg & l & Hrep & Hl & Hmsg). exists msg, l. unfold updates in *. simpl in *.
    rewrite Hup. split_and!; [|done|].
    + apply Htr; [done|]. intros Hin. apply Hnu. by rewrite Hl.
    + rewrite fmap_app, cmd_part_ne, join_app, app_assoc, Hmsg by done. simpl.
      unfold cmd_part. rewrite lookup_insert_eq, app_nil_r, Hoff, !ztake_slice.
      pose proof (in_offset _ _ _ Hi). rewrite slice_app by lia. done.
  - unfold updates. simpl. rewrite Hup, sum_len_app, (sum_len_ne _ _ _ (read_queue w)), (sum_len_ne _ _ _ (updates w)) by done.
    simpl. unfold cmd_len. rewrite lookup_insert_eq. pose proof (in_hashed _ _ _ Hi). lia.
  - done.
  - intros Hk. rewrite Hsif, (Hfile Hk), (in_source _ _ _ Hi Hk). done.
  - apply Hi.
  - apply Hi.
  - unfold potential, updates. simpl. rewrite Hup, read_weight_app, read_weight_ne by done.
    cbn [read_weight foldr]. fold (updates w). destruct (pend _ id); lia.
Qed.

Lemma pending_lt m id c l :
  id ∈ l → m !! id = Some c → c_completed c = true → zlen (pending_ids m l) < zlen l.
Proof using Type.
  intros Hid Hc Hd. apply list_elem_of_split in Hid as (l1 & l2 & ->).
  rewrite pending_ids_app, !zlen_app. unfold pending_ids at 2. rewrite filter_cons_False, zlen_cons.
  2: { unfold pend. by rewrite Hc, Hd. }
  assert (∀ k, zlen (pending_ids m k) <= zlen k) as Hle.
  { intros k. unfold zlen, pending_ids. pose proof (length_filter (λ id, pend m id = true) k). lia. }
  pose proof (Hle l1). pose proof (Hle l2). unfold pending_ids in *. lia.
Qed.

(** There is room for one more request if some command is idle. *)
Lemma flight_room owed looked w id c :
  inv owed looked w → id ∈ read_queue w ++ hash_queue w → cmds w !! id = Some c → c_completed c = true →
  0 <= commands_in_flight w < queue_depth opt ∧ zlen (updates w) < queue_depth opt.
Proof using Type.
  intros Hi Hid Hc Hd. pose proof (pending_lt _ _ _ _ Hid Hc Hd) as Hlt.
  rewrite (in_flight _ _ _ Hi), (in_reads _ _ _ Hi). unfold updates.
  rewrite pending_ids_app, zlen_app, (in_depth _ _ _ Hi) in Hlt.
  pose proof (zlen_nonneg (pending_ids (cmds w) (read_queue w))).
  pose proof (zlen_nonneg (pending_ids (cmds w) (hash_queue w))). lia.
Qed.
(** ** Filling a buffer *)

Lemma fill_touched id data old msg l b h :
  hrep msg l b h → id ∉ l → hbuf h id = Some old → zlen data <= zlen old →
  wpc E (hash_fill id data) (λ _ h', touched id h h' ∧
    hbuf h' id = Some (data ++ zdrop (zlen data) old) ∧
    (hready h → hready h') ∧ ∀ F, hdrain F h → hdrain F h') h.
Proof using HL.
  intros Hr Hid Hb Hlen. pose proof (hl_fill id data old msg l b h Hr Hid Hb Hlen) as Hw.
  assert (∀ msg' l' b', hrep msg' l' b' h → id ∉ l' →
    wpc E (hash_fill id data) (λ _ h', hrep msg' l' b' h') h) as Hall.
  { intros msg' l' b' Hr' Hid'. eapply wpc_mono; [by apply (hl_fill id data old msg' l' b')|]. by intros _ h' []. }
  unfold wpc in *. destruct (hash_fill id data h) as [[] h'|k]; [|done].
  destruct Hw as (_ & Hb' & Hne & Hrd & Hdr). split_and!; done.
Qed.

(** The kernel fills the buffer of a command with the bytes it asked for. *)
Lemma file_pread_ok c w :
  0 <= c_offset c → 0 < c_length c → c_offset c + c_length c <= zlen image →
  match file_ops_pread (S (Z.to_nat (c_length c) + retries)) (kernel_pread (n_calls w)) 0 (c_length c) (c_offset c) [] with
  | None => E CNoFuel
  | Some (inr _) => ok → source_ok → False
  | Some (inl data) => data = slice image (c_offset c) (c_length c)
  end.
Proof using Hsrc Hfail.
  intros Ho Hl Hin.
  assert (source_ok → file_ops_pread (S (Z.to_nat (c_length c) + retries)) (kernel_pread (n_calls w)) 0 (c_length c)
    (c_offset c) [] = Some (inl (slice image (c_offset c) (c_length c)))) as Hread.
  { intros Hok. destruct (so_pread Hok (n_calls w)) as [Hr [intr Hi]].
    rewrite (file_pread_loop image _ intr retries _ 0 (c_length c) (c_offset c) 0); try done; lia. }
  destruct (file_ops_pread _ _ _ _ _ _) as [[data|e]|] eqn:Hr.
  - eapply (file_pread_partial image _ _ _ _ _ 0); [apply (st_pread Hsrc)|lia..|exact Hr].
  - intros _ Hok. by specialize (Hread Hok).
  - destruct Hfail as [[_ Hok]|[Hn _]]; [by specialize (Hread Hok)|done].
Qed.

(** ** Reading more data *)

(** The idle command [id] was given the extent [e]. *)
Lemma extent_moved id c0 c e s i flight sif h calls w :
  inv [] false w → id ∈ hash_queue w → cmds w !! id = Some c0 → c_completed c0 = true →
  0 < e_length e < 2 ^ 32 → read_offset w + e_length e <= zlen image →
  (e_zero e = true → slice image (read_offset w) (e_length e) = zeros (e_length e)) →
  (e_zero e = false → e_length e <= read_size opt) →
  ext_ok (read_offset w + e_length e) (moved_to_read id c s i flight sif h calls w) →
  c = Command (read_offset w) (e_length e) (c_completed c) (e_zero e) →
  (e_zero e = true → c_completed c = true) →
  (∃ b, hbuf h id = Some b ∧ zlen b = read_size opt ∧ (e_zero e = false → c_completed c = true →
    ztake (e_length e) b = slice image (read_offset w) (e_length e))) →
  touched id (w_hash w) h → sif = src_inflight w ++ (if c_completed c then [] else [id]) →
  (kind = SrcFile → c_completed c = true) → flight = zlen sif + zlen (updates w) →
  let w' := moved_to_read id c s i flight sif h calls w in
  inv [] false w' ∧ potential w' < potential w ∧ hash_queue w' = filter (.≠ id) (hash_queue w).
Proof using Type.
  intros Hi Hid Hc0 Hd Hl Hin Hz Hnz Hx Hc Hzc (b & Hb & Hbl & Hdata) Ht Hs Hk Hf w'.
  pose proof (in_offset _ _ _ Hi).
  destruct (inv_moved id c0 c s i flight sif h calls w) as [Hi' Hpot]; try done.
  - by rewrite Hc.
  - rewrite Hc. split; simpl; [lia|lia|lia|..].
    + auto.
    + intros Hze. split; [auto|]. intros Hcc. exists b. auto.
  - eauto.
  - by rewrite Hc at 1.
Qed.

Lemma idle_touched id h : touched id h h.
Proof using Type. by split. Qed.

(** A read of a file that is inside of the image: the buffer is filled. *)
Lemma file_read_done id c old msg l w :
  cmds w !! id = Some c → hrep msg l false (w_hash w) → id ∉ l → hbuf (w_hash w) id = Some old →
  0 <= c_offset c → 0 < c_length c <= zlen old → c_offset c + c_length c <= zlen image → 0 < commands_in_flight w →
  zlen (read_queue w ++ hash_queue w) = queue_depth opt → later p0 (w_proc w) →
  wpt E X (file_ops_aio_pread debug id (c_length c) (c_offset c)) (λ _ w', ∃ h',
    w' = set_flight (commands_in_flight w - 1) (set_cmds (<[id := set_completed true c]> (cmds w))
      (set_hash h' (set_counts (S (n_calls w)) (n_waits w) w))) ∧ touched id (w_hash w) h' ∧
    hbuf h' id = Some (slice image (c_offset c) (c_length c) ++ zdrop (c_length c) old)) w.
Proof using Hsrc Hfail HL Hsig.
  intros Hc Hr Hid Hb Ho Hl Hin Hpos Hdep Hlat. unfold file_ops_aio_pread, next_call. do 6 wpt_step.
  pose proof (file_pread_ok c w Ho ltac:(lia) Hin) as Hf.
  destruct (file_ops_pread _ _ _ _ _ _) as [[data|e]|]; [|by apply fail_exits|by apply wpt_lift, wpc_crash]. subst data.
  assert (zlen (slice image (c_offset c) (c_length c)) = c_length c) as Hsl by (apply zlen_slice; lia).
  unfold receive, hash_op, read_completed, drop_flight. wpt_step. wpt_step. simpl.
  eapply wpc_mono; [eapply (fill_touched id _ old msg l false); [done..|lia]|].
  intros [] h' (Ht & Hb' & _). change (fails 0) with false. cbv iota. wpt_step.
  eapply wpc_store; [done|]. do 3 wpt_step. apply wpc_assertM; [simpl; lia|]. wpt_step. simpl.
  exists h'. rewrite Hsl in Hb'. done.
Qed.

(** The command [id], which was moved to the read queue, reads the data extent [e]. *)
Lemma start_read_inv id c e s1 i1 n1 w :
  inv [] false w → id ∈ hash_queue w → cmds w !! id = Some c → c_completed c = true →
  e_zero e = false → 0 < e_length e < 2 ^ 32 → e_length e <= read_size opt → read_offset w + e_length e <= zlen image →
  let moved := set_queues (read_queue w ++ [id]) (filter (.≠ id) (hash_queue w)) w in
  let fetched := set_counts n1 (n_waits w) (set_index i1 (set_src s1 moved)) in
  ext_ok (read_offset w + e_length e) fetched →
  wpt E X (start_read opt debug id) (λ _ w1,
      let w' := set_offset (read_offset w1 + e_length e) w1 in
      inv [] false w' ∧ potential w' < potential w ∧ hash_queue w' = filter (.≠ id) (hash_queue w))
    (set_cmds (<[id := Command (read_offset w) (e_length e) false false]> (cmds w)) fetched).
Proof using Hopt Hsrc Hfail HL Hsig Himg.
  intros Hi Hid Hc Hd Hze Hl Hnz Hin moved fetched Hx. subst moved fetched. destruct (Hopt) as [Hrs Hqd Hes].
  assert (id ∈ read_queue w ++ hash_queue w) as Hq by (apply elem_of_app; by right).
  destruct (in_bufs _ _ _ Hi id Hq) as (old & Hb & Hbl). pose proof (flight_room _ _ w id c Hi Hq Hc Hd) as [Hroom _].
  pose proof (in_offset _ _ _ Hi) as Ho.
  assert (zlen ((read_queue w ++ [id]) ++ filter (.≠ id) (hash_queue w)) = queue_depth opt) as Hdep.
  { rewrite <-(in_depth _ _ _ Hi). unfold zlen. by rewrite <-(proj2 (proj2 (queue_parts _ _ _ _ Hi Hid))). }
  unfold start_read, take_flight, src_aio_pread. do 4 wpt_step.
  apply wpc_assertM; [simpl; lia|]. wpt_step. simpl. wpt_step. eapply wpc_load; [by apply lookup_insert_eq|].
  do 2 wpt_step. simpl. rewrite (in_size _ _ _ Hi). destruct (zlen image <? _) eqn:Eo; [lia|].
  rewrite u32_small by lia. destruct kind eqn:Hk.
  - destruct (in_hash _ _ _ Hi) as (msg & l & Hr & Hul & _).
    match goal with |- wpt _ _ _ _ ?W => eapply wpt_mono; [apply (file_read_done id
      (Command (read_offset w) (e_length e) false false) old msg l W); simpl; try done; try lia|] end.
    { by rewrite lookup_insert_eq. }
    { intros Hil. eapply (not_pending (cmds w) id c (hash_queue w)); [done..|]. fold (updates w). by rewrite Hul. }
    { apply Hi. }
    intros [] w2 (h' & -> & Ht & Hb'). cbv zeta. simpl in *.
    match goal with |- inv _ _ ?W ∧ _ => replace W with (moved_to_read id
      (Command (read_offset w) (e_length e) true false) s1 i1 (commands_in_flight w) (src_inflight w) h' (S n1) w) end.
    2: { unfold moved_to_read, set_offset, set_completed. simpl. rewrite !insert_insert_eq. f_equal. lia. }
    eapply (extent_moved id c _ e); rewrite ?Hze; try done.
    + destruct Hx. by split.
    + eexists. split; [done|]. assert (zlen (slice image (read_offset w) (e_length e)) = e_length e) as Hsl
        by (apply zlen_slice; lia). split; [rewrite zlen_app, zlen_zdrop; lia|].
      intros _ _. rewrite ztake_app_le, ztake_all; [done|lia..].
    + by rewrite app_nil_r.
    + apply Hi.
  - unfold nbd_ops_aio_pread, next_call. do 6 wpt_step. simpl. destruct (accepts n1) eqn:Ea.
    2: { apply fail_exits; [|done|apply Hi]. intros _ Hok. pose proof (so_accepts Hok n1). congruence. }
    wpt_step. cbv zeta. simpl.
    match goal with |- inv _ _ ?W ∧ _ => replace W with (moved_to_read id
      (Command (read_offset w) (e_length e) false false) s1 i1 (commands_in_flight w + 1)
      (src_inflight w ++ [id]) (w_hash w) (S n1) w) by done end.
    eapply (extent_moved id c _ e); rewrite ?Hze; try done.
    + destruct Hx. by split.
    + by exists old.
    + by rewrite Hk.
    + rewrite zlen_app, (in_flight _ _ _ Hi). change (zlen [id]) with 1. lia.
Qed.

(** One iteration of [read_more_data] for an idle command. *)
Lemma read_step id c w :
  inv [] false w → id ∈ hash_queue w → cmds w !! id = Some c → c_completed c = true →
  read_offset w < zlen image →
  wpt E X
    (lift (modify (λ w, set_queues (read_queue w ++ [id]) (filter (.≠ id) (hash_queue w)) w));;
     e ← lift (next_extent opt);
     w ← lift get;
     lift (init_command id (read_offset w) (e_length e) (e_zero e));;
     (if e_zero e then mret tt else start_read opt debug id);;
     lift (modify (λ w, set_offset (read_offset w + e_length e) w)))
    (λ _ w', inv [] false w' ∧ potential w' < potential w ∧ hash_queue w' = filter (.≠ id) (hash_queue w)) w.
Proof using Hopt Hsrc Hfail HL Hsig Himg.
  intros Hi Hid Hc Hd Hlt. destruct (Hopt) as [Hrs Hqd Hes].
  assert (id ∈ read_queue w ++ hash_queue w) as Hq by (apply elem_of_app; by right).
  destruct (in_bufs _ _ _ Hi id Hq) as (old & Hb & Hbl).
  pose proof (in_offset _ _ _ Hi) as Ho.
  do 2 wpt_step. wpt_step. eapply wpc_mono.
  { apply next_extent_inv; simpl; [apply Hi|lia|]. destruct (in_extents _ _ _ Hi). by split. }
  intros e w1 ((s1 & i1 & n1 & ->) & Hl & Hin & Hz & Hnz & Hx). simpl in *. do 2 wpt_step. wpt_step.
  eapply wpc_store; [done|]. wpt_step. simpl. destruct (e_zero e) eqn:Hze.
  - wpt_step. wpt_step. apply (extent_moved id c (Command (read_offset w) (e_length e) true true) e s1 i1
      (commands_in_flight w) (src_inflight w) (w_hash w) n1 w); rewrite ?Hze; try done.
    + destruct Hx. by split.
    + by exists old.
    + by rewrite app_nil_r.
    + apply Hi.
  - specialize (Hnz eq_refl). eapply wpt_mono; [by apply (start_read_inv id c e s1 i1 n1 w)|].
    intros [] w1 Hw1. by wpt_step.
Qed.

Lemma read_loop_inv l w :
  inv [] false w → (∀ id, id ∈ l → id ∈ hash_queue w) → NoDup l →
  wpt E X (read_loop opt debug l) (λ _ w', inv [] false w' ∧ (potential w' < potential w ∨
    (w' = w ∧ (read_offset w < zlen image → ∀ id, id ∈ l → pend (cmds w) id = true)))) w.
Proof using Hopt Hsrc Hfail HL Hsig Himg.
  intros Hi Hl Hnd. revert w Hi Hl. induction Hnd as [|id l Hid Hnd IH]; intros w Hi Hl; simpl.
  { wpt_step. split; [done|]. right. split; [done|]. by intros _ id ?%elem_of_nil. }
  do 2 wpt_step. destruct (read_offset w <? image_size w) eqn:Eo; rewrite (in_size _ _ _ Hi) in Eo.
  2: { wpt_step. split; [done|]. right. split; [done|lia]. }
  destruct (in_cmds _ _ _ Hi id) as [c Hc]; [apply elem_of_app; right; apply Hl; by left|].
  wpt_step. eapply wpc_load; [done|]. wpt_step. destruct (c_completed c) eqn:Hd.
  - eapply wpt_mono; [apply (read_step id c); try done; [apply Hl; by left|lia]|].
    intros [] w1 (Hi1 & Hpot & Hq). eapply wpt_mono; [apply (IH w1 Hi1)|].
    { intros j Hj. rewrite Hq. apply list_elem_of_filter. split; [by intros ->|apply Hl; by right]. }
    intros [] w2 (Hi2 & [?|[-> _]]); split; try done; left; lia.
  - wpt_step. eapply wpt_mono; [apply (IH w Hi); intros; apply Hl; by right|].
    intros [] w2 (Hi2 & [?|[-> Hp]]); split; try done; [by left|right]. split; [done|].
    intros Ho j [->|Hj]%elem_of_cons; [|auto]. unfold pend. by rewrite Hc, Hd.
Qed.

(** ** Moving a command to the hash queue *)

(** The worker after the first command of the read queue was passed to the hash
    and became [c]. *)
Definition moved_to_hash id c h hashed flight rq b w : worker H :=
  Worker (image_size w) (read_offset w) hashed (w_src w) (ex_index w) (<[id := c]> (cmds w))
    rq (hash_queue w ++ [id]) flight (src_inflight w) h (w_proc w) (n_calls w) (n_waits w) b.

(** The first part of what is still to be hashed. *)
Lemma first_part owed looked w id c rq :
  inv owed looked w → read_queue w = id :: rq → cmds w !! id = Some c →
  ∃ msg l, hrep msg l looked (w_hash w) ∧ updates w ≡ₚ owed ++ l ∧
    (msg ++ slice image (c_offset c) (c_length c)) ++ mjoin (cmd_part image (cmds w) <$> rq) =
      ztake (read_offset w) image ∧ zlen msg + c_length c <= zlen image.
Proof using Type.
  intros Hi Hrq Hc. destruct (in_hash _ _ _ Hi) as (msg & l & Hr & Hl & Hm). exists msg, l.
  rewrite Hrq, fmap_cons in Hm. simpl mjoin in Hm. unfold cmd_part in Hm at 1. rewrite Hc, app_assoc in Hm.
  split_and!; try done.
  destruct (in_read _ _ _ Hi id c ltac:(rewrite Hrq; by left) Hc) as [Ho Hlen Hin _ _].
  pose proof (in_offset _ _ _ Hi) as Hoff. apply (f_equal zlen) in Hm.
  rewrite !zlen_app, zlen_ztake, zlen_slice in Hm by lia.
  pose proof (zlen_nonneg (mjoin (cmd_part image (cmds w) <$> rq))). lia.
Qed.

Lemma inv_hashing id c0 c h hashed flight rq b w :
  inv [] false w → read_queue w = id :: rq → cmds w !! id = Some c0 → c_completed c0 = true →
  c_length c = c_length c0 → (∀ j, hbuf h j = hbuf (w_hash w) j) →
  (∃ msg l, hrep msg l false h ∧ updates w ++ (if c_completed c then [] else [id]) ≡ₚ l ∧
    msg ++ mjoin (cmd_part image (cmds w) <$> rq) = ztake (read_offset w) image) →
  hashed = bytes_hashed w + (if c_completed c then c_length c else 0) →
  flight = commands_in_flight w + (if c_completed c then 0 else 1) →
  (progress opt = true → ProgressBar.shows (zlen image) hashed lines b) →
  let w' := moved_to_hash id c h hashed flight rq b w in inv [] false w' ∧ potential w' < potential w.
Proof using Type.
  intros Hi Hrq Hc0 Hd Hlen Hbuf (msg & l & Hr & Hl & Hm) Hh Hf Hbar w'.
  pose proof (in_nodup _ _ _ Hi) as Hnd. rewrite Hrq in Hnd. simpl in Hnd. apply NoDup_cons in Hnd as [Hnin Hnd].
  rewrite not_elem_of_app in Hnin. destruct Hnin as [Hnr Hnh].
  assert (read_queue w ++ hash_queue w ≡ₚ rq ++ hash_queue w ++ [id]) as Hperm.
  { rewrite Hrq. simpl. rewrite app_assoc. by rewrite <-Permutation_cons_append. }
  assert (id ∉ updates w) as Hnu by (by eapply not_pending).
  pose proof (in_read _ _ _ Hi id c0 ltac:(rewrite Hrq; by left) Hc0) as [_ Hpos _ _ _].
  assert (src_inflight w = pending_ids (cmds w) rq) as Hsif.
  { rewrite (in_reads _ _ _ Hi), Hrq. unfold pending_ids. rewrite filter_cons_False; [done|].
    unfold pend. by rewrite Hc0, Hd. }
  assert (updates w' = updates w ++ (if c_completed c then [] else [id])) as Hup.
  { unfold updates. simpl. rewrite pending_ids_app, pending_ids_ne by done. f_equal.
    unfold pending_ids. rewrite filter_cons. unfold pend. rewrite lookup_insert_eq. by destruct (c_completed c). }
  split; [split; rewrite ?Hup; simpl|].
  - apply Hi.
  - apply Hi.
  - rewrite <-Hperm. apply Hi.
  - unfold zlen. rewrite <-Hperm. apply Hi.
  - intros j Hj. rewrite <-Hperm in Hj. destruct (decide (j = id)) as [->|]; [by rewrite lookup_insert_eq|].
    rewrite lookup_insert_ne by done. by apply (in_cmds _ _ _ Hi).
  - intros j Hj. rewrite <-Hperm in Hj. rewrite Hbuf. by apply (in_bufs _ _ _ Hi).
  - by rewrite pending_ids_ne.
  - rewrite Hf, (in_flight _ _ _ Hi), zlen_app. destruct (c_completed c); unfold zlen; simpl; lia.
  - intros j cj Hj. rewrite lookup_insert_ne, Hbuf by (by intros ->). apply (in_read _ _ _ Hi). rewrite Hrq. by right.
  - intros j cj Hj. destruct (decide (j = id)) as [->|].
    + rewrite lookup_insert_eq. intros [= <-]. lia.
    + rewrite lookup_insert_ne by done. apply elem_of_app in Hj as [Hj|Hj]; [by apply (in_update _ _ _ Hi)|].
      destruct (c_completed c); [by apply elem_of_nil in Hj|by apply list_elem_of_singleton in Hj].
  - exists msg, l. split_and!; [done|by rewrite Hup|]. simpl. by rewrite cmd_part_ne.
  - pose proof (in_hashed _ _ _ Hi) as Hs. rewrite Hrq in Hs. simpl in Hs. unfold cmd_len in Hs at 1. rewrite Hc0 in Hs.
    rewrite sum_len_ne, sum_len_app, sum_len_ne by done. rewrite Hh.
    destruct (c_completed c); simpl; [lia|]. unfold cmd_len. rewrite lookup_insert_eq. lia.
  - destruct (in_extents _ _ _ Hi). by split.
  - apply Hi.
  - apply Hi.
  - done.
  - unfold potential. rewrite Hup, Hrq, zlen_app. simpl. rewrite read_weight_ne by done.
    assert (pend (cmds w) id = false) as -> by (unfold pend; by rewrite Hc0, Hd).
    fold (read_weight (cmds w) rq). destruct (c_completed c); unfold zlen; simpl length; lia.
Qed.
End inv.

Arguments in_size {H HA OUT OS opt E ok patience p0 lines HL owed looked w}.
Arguments in_offset {H HA OUT OS opt E ok patience p0 lines HL owed looked w}.
Arguments in_nodup {H HA OUT OS opt E ok patience p0 lines HL owed looked w}.
Arguments in_depth {H HA OUT OS opt E ok patience p0 lines HL owed looked w}.
Arguments in_cmds {H HA OUT OS opt E ok patience p0 lines HL owed looked w}.
Arguments in_bufs {H HA OUT OS opt E ok patience p0 lines HL owed looked w}.
Arguments in_reads {H HA OUT OS opt E ok patience p0 lines HL owed looked w}.
Arguments in_flight {H HA OUT OS opt E ok patience p0 lines HL owed looked w}.
Arguments in_read {H HA OUT OS opt E ok patience p0 lines HL owed looked w}.
Arguments in_update {H HA OUT OS opt E ok patience p0 lines HL owed looked w}.
Arguments in_hash {H HA OUT OS opt E ok patience p0 lines HL owed looked w}.
Arguments in_hashed {H HA OUT OS opt E ok patience p0 lines HL owed looked w}.
Arguments in_extents {H HA OUT OS opt E ok patience p0 lines HL owed looked w}.
Arguments in_source {H HA OUT OS opt E ok patience p0 lines HL owed looked w}.
Arguments in_bar {H HA OUT OS opt E ok patience p0 lines HL owed looked w}.
Arguments in_proc {H HA OUT OS opt E ok patience p0 lines HL owed looked w}.
