(* ===== verification/AioLoop.v ===== *)
(** * The main loop of the worker

    The loops of aio-checksum.c preserve the invariant.  Every iteration of
    [process_image] moves a command, or asks the hash for completions that come
    closer, or gets an event from the source: the loop ends, and then the message of
    the hash is the image. *)

From stdpp Require Import prelude list strings gmap.
From Stdlib Require Import ZArith Lia.
From S2P Require Import Prelude Thread Src Process Hasher AioChecksum AioInv.
From S2P Require ProgressBar.

Local Open Scope Z_scope.

Section loop.
Context {H : Type} `{HA : !Hasher H, OUT : !Outside, OS : !Os}.
Context (opt : worker_options) (debug : bool) (E : crash → Prop) (ok : Prop) (patience : nat) (p0 : proc).
Context (lines : list string).
Context `{HL : !HasherLaws H E ok (queue_depth opt) patience}.
Context (X : worker H → Prop) (Hopt : options_ok opt) (Hsrc : source_truthful) (Hsig : signals_ok).
Context (Hfail : (ok ∧ source_ok) ∨ (E CNoFuel ∧ ∀ w, abandoned opt p0 w → X w)).
Context (Himg : zlen image < 2 ^ 63).
Implicit Types (w : worker H) (m : gmap nat command) (l : list nat) (h : H).

Local Abbreviation inv := (inv opt E ok patience p0 lines).
Local Abbreviation hopeless := (ok → source_ok → False).

(** A failure, with all commands in the queues. *)
Definition trouble w : Prop :=
  hopeless ∧ zlen (read_queue w ++ hash_queue w) = queue_depth opt ∧ later p0 (w_proc w).

Lemma inv_trouble owed looked w : inv owed looked w → hopeless → trouble w.
Proof using Type. intros Hi Hno. split_and!; [done|apply (in_depth Hi)|apply (in_proc Hi)]. Qed.

Lemma trouble_exits {A} (Q : A → worker H → Prop) w : trouble w → wpt E X (fail_thread debug) Q w.
Proof using Hfail Hsig. intros (Hno & Hd & Hl). by eapply fail_exits. Qed.

(** A call of the hash that fails only for a reason. *)
Lemma hash_call err (Q : unit → worker H → Prop) (k : T (worker H) unit) w :
  (err ≠ 0 → trouble w) → (err = 0 → wpt E X k Q w) → wpt E X (if fails err then fail_thread debug else k) Q w.
Proof using Hfail Hsig.
  intros Hne Hk. unfold fails. destruct (err =? 0) eqn:Es; simpl; [apply Hk; lia|]. apply trouble_exits, Hne. lia.
Qed.

(** The progress bar. *)
Lemma report_ok n len (Q : unit → worker H → Prop) w :
  0 < len → n + len <= zlen image →
  (progress opt = true → ProgressBar.shows (zlen image) n lines (w_bar w)) →
  (∀ b, (progress opt = true → ProgressBar.shows (zlen image) (n + len) lines b) → Q tt (set_bar b w)) →
  wpc E (report opt len) Q w.
Proof using Himg.
  intros Hl Hle Hs HQ. unfold report. destruct (progress opt).
  - unfold bar_op. wpc_step. apply wpc_wp. eapply wp_nf.
    { apply ProgressBar.shows_update; [|done..|by apply Hs]. destruct (Hs eq_refl) as (_ & ? & _). lia. }
    intros [] b Hb. by apply HQ.
  - wpc_step. replace w with (set_bar (w_bar w) w) by (by destruct w). by apply HQ.
Qed.

Lemma sum_len_pos m l :
  (∀ id c, id ∈ l → m !! id = Some c → 0 < c_length c) → (∀ id, id ∈ l → is_Some (m !! id)) →
  0 <= sum_len m l ∧ (sum_len m l = 0 → l = []).
Proof using Type.
  induction l as [|x l IH]; intros Hl Hs'; [done|]. simpl.
  destruct (Hs' x ltac:(by left)) as [c Hc]. pose proof (Hl x c ltac:(by left) Hc).
  destruct IH as [? _]; [intros; eapply Hl; [by right|done]|intros; apply Hs'; by right|].
  unfold cmd_len. rewrite Hc. split; lia.
Qed.

(** The commands that were not hashed are part of the image. *)
Lemma lengths_pos owed looked w :
  inv owed looked w → (0 <= sum_len (cmds w) (read_queue w) ∧ (sum_len (cmds w) (read_queue w) = 0 → read_queue w = [])) ∧
    (0 <= sum_len (cmds w) (updates w) ∧ (sum_len (cmds w) (updates w) = 0 → updates w = [])).
Proof using Type.
  intros Hi. split; apply sum_len_pos.
  - intros id c Hid Hc. apply (in_read Hi id c Hid Hc).
  - intros id Hid. apply (in_cmds Hi). apply elem_of_app. by left.
  - apply (in_update Hi).
  - intros id [_ Hid]%list_elem_of_filter. apply (in_cmds Hi). apply elem_of_app. by right.
Qed.

Lemma sum_len_in m (id : nat) c l :
  (∀ id c, id ∈ l → m !! id = Some c → 0 < c_length c) → (∀ id, id ∈ l → is_Some (m !! id)) →
  id ∈ l → m !! id = Some c → c_length c <= sum_len m l.
Proof using Type.
  intros Hl Hs' Hid Hc. apply list_elem_of_split in Hid as (l1 & l2 & ->). rewrite sum_len_app. simpl.
  unfold cmd_len at 1. rewrite Hc.
  destruct (sum_len_pos m l1) as [? _]; [intros; eapply Hl; [apply elem_of_app; by left|done]|intros; apply Hs', elem_of_app; by left|].
  destruct (sum_len_pos m l2) as [? _]; [intros; eapply Hl; [apply elem_of_app; right; by right|done]|
    intros; apply Hs', elem_of_app; right; by right|]. lia.
Qed.

(** The outcome of a loop: some command moved, or nothing changed. *)
Definition moved w w' : Prop := inv [] false w' ∧ (potential w' < potential w ∨ w' = w).

(** One iteration of [hash_more_data]. *)
Lemma hash_step id c rq w :
  inv [] false w → read_queue w = id :: rq → cmds w !! id = Some c → c_completed c = true →
  wpt E X (if c_zero c then run_zero opt debug id else start_update opt debug id)
    (λ _ w', inv [] false w' ∧ potential w' < potential w ∧ read_queue w' = rq)
    (set_queues rq (hash_queue w ++ [id]) w).
Proof using Hfail Hopt Himg Hsig.
  intros Hi Hrq Hc Hd. destruct (Hopt) as [Hrs Hqd Hes].
  assert (id ∈ read_queue w) as Hin by (rewrite Hrq; by left).
  destruct (in_bufs Hi id) as (buf & Hbuf & Hbl); [apply elem_of_app; by left|].
  pose proof (in_read Hi id c Hin Hc) as [Hro Hlen Hins Hrz Hrd].
  pose proof (flight_room opt _ _ _ _ _ _ _ w id c Hi ltac:(apply elem_of_app; by left) Hc Hd) as [Hroom Hup].
  destruct (first_part _ _ _ _ _ _ _ _ w id c rq Hi Hrq Hc) as (msg & l & Hr & Hl & Hm & Hfit). simpl in Hl.
  assert (zlen (rq ++ hash_queue w ++ [id]) = queue_depth opt) as Hdep.
  { rewrite <-(in_depth Hi), Hrq, !zlen_app, !zlen_cons. change (zlen (@nil nat)) with 0. lia. }
  assert (bytes_hashed w + c_length c <= zlen image) as Hle.
  { destruct (lengths_pos _ _ w Hi) as [_ [? _]]. pose proof (in_hashed Hi). pose proof (in_offset Hi).
    pose proof (sum_len_in (cmds w) id c (read_queue w)) as Hx. specialize (Hx (λ j cj Hj Hcj, proj1 (ro_length _ _ _ (in_read Hi j cj Hj Hcj)))).
    specialize (Hx (λ j Hj, in_cmds Hi j (proj2 (elem_of_app _ _ _) (or_introl Hj))) Hin Hc). lia. }
  destruct (c_zero c) eqn:Hz.
  - unfold run_zero, hash_op. wpt_step. eapply wpc_load; [done|]. wpt_step. wpt_step. simpl.
    eapply wpc_mono; [apply (hl_zero (c_length c) msg l); [done|lia..]|]. intros rc h' (Hb & H0 & Hne). cbv beta.
    apply hash_call; [intros ?; split_and!; [auto|done|apply (in_proc Hi)]|]. intros Hrc. wpt_step.
    eapply wpc_store; [done|]. do 2 wpt_step. apply wpt_lift.
    apply (report_ok (bytes_hashed w)); [lia|done|apply (in_bar Hi)|]. intros b Hbar. simpl.
    match goal with |- inv _ _ ?W ∧ _ => replace W with (moved_to_hash id (set_completed true c) h'
      (bytes_hashed w + c_length c) (commands_in_flight w) rq b w) by done end.
    destruct (Hrz eq_refl) as [_ Hsl]. rewrite Hsl in Hm.
    destruct (inv_hashing opt E ok patience p0 lines id c (set_completed true c) h' (bytes_hashed w + c_length c)
      (commands_in_flight w) rq b w) as [? ?]; simpl; try done; [|lia].
    exists (msg ++ zeros (c_length c)), l. rewrite app_nil_r. auto.
  - destruct (Hrd eq_refl) as [Hfits Hsl]. destruct (Hsl Hd) as (b' & Hb' & Hsl').
    assert (b' = buf) as -> by congruence. pose proof (Permutation_length Hl) as Hpl.
    unfold start_update, hash_op. wpt_step. eapply wpc_store; [done|]. wpt_step.
    eapply wpc_load; [by apply lookup_insert_eq|]. wpt_step. wpt_step. simpl.
    eapply wpc_mono; [apply (hl_update id (c_length c) buf msg l); [done|done|lia|lia|unfold zlen in *; lia]|].
    intros rc h' (Hb & H0 & Hne). cbv beta.
    apply hash_call; [intros ?; split_and!; [auto|done|apply (in_proc Hi)]|]. intros Hrc. unfold take_flight. apply wpt_lift. do 3 wpt_step. apply wpc_assertM; [simpl; lia|].
    wpt_step. simpl. rewrite u32_small by lia.
    match goal with |- inv _ _ ?W ∧ _ => replace W with (moved_to_hash id (set_completed false c) h'
      (bytes_hashed w) (commands_in_flight w + 1) rq (w_bar w) w) by done end.
    destruct (inv_hashing opt E ok patience p0 lines id c (set_completed false c) h' (bytes_hashed w)
      (commands_in_flight w + 1) rq (w_bar w) w) as [? ?]; simpl; try done; [|lia|apply (in_bar Hi)].
    exists (msg ++ ztake (c_length c) buf), (id :: l). split_and!; [auto|by rewrite <-Permutation_cons_append, Hl|].
    by rewrite Hsl'.
Qed.

Lemma hash_loop_inv l w :
  inv [] false w → read_queue w = l →
  wpt E X (hash_loop opt debug l) (λ _ w', moved w w' ∧
    match read_queue w' with [] => True | id :: _ => pend (cmds w') id = true end) w.
Proof using Hfail Hopt Himg Hsig.
  revert w. induction l as [|id l IH]; intros w Hi Hrq; simpl.
  { wpt_step. rewrite Hrq. split; [|done]. split; [done|by right]. }
  destruct (in_cmds Hi id) as [c Hc]; [rewrite Hrq; by left|].
  wpt_step. eapply wpc_load; [done|]. destruct (c_completed c) eqn:Hd.
  - do 2 wpt_step. rewrite Hrq. simpl tail. wpt_step. eapply wpt_mono; [by apply hash_step|].
    intros [] w1 (Hi1 & Hpot & Hrq1). eapply wpt_mono; [by apply IH|].
    intros [] w2 [[Hi2 Hor] Hh]. split; [|done]. split; [done|]. left. destruct Hor as [?| ->]; lia.
  - wpt_step. rewrite Hrq. split; [split; [done|by right]|]. unfold pend. by rewrite Hc, Hd.
Qed.

(** ** Completed requests *)

(** The hash moved on, with the same buffers. *)
Lemma inv_hash owed looked owed' looked' w h :
  inv owed looked w → (∀ j, hbuf h j = hbuf (w_hash w) j) →
  hashing opt E ok patience owed' looked' (set_hash h w) → inv owed' looked' (set_hash h w).
Proof using Type.
  intros [? ? ? ? ? Hb ? ? Hr ? ? ? [] ? ? ?] He Hh. split; try done; simpl.
  - intros id Hid. rewrite He. by apply Hb.
  - intros id c Hid Hc. rewrite He. by apply Hr.
Qed.

(** The worker after command [id] completed. *)
Definition completed id c h hashed flight sif b w : worker H :=
  Worker (image_size w) (read_offset w) hashed (w_src w) (ex_index w) (<[id := c]> (cmds w))
    (read_queue w) (hash_queue w) flight sif h (w_proc w) (n_calls w) (n_waits w) b.

Lemma filter_remove_len (id : nat) l : NoDup l → id ∈ l → zlen (filter (.≠ id) l) = zlen l - 1.
Proof using Type.
  intros Hnd Hid. unfold zlen. rewrite <-(remove_perm id l Hnd Hid) at 2. simpl. lia.
Qed.

Lemma sum_len_remove m (id : nat) l :
  NoDup l → id ∈ l → sum_len m (filter (.≠ id) l) = sum_len m l - cmd_len m id.
Proof using Type.
  intros Hnd. revert id. induction Hnd as [|x l Hx Hnd IH]; intros id Hid; [by apply elem_of_nil in Hid|].
  destruct (decide (x = id)) as [->|Hne].
  - rewrite filter_cons_False, remove_absent by auto. simpl. lia.
  - apply elem_of_cons in Hid as [->|Hid]; [done|]. rewrite filter_cons_True by done. simpl. rewrite IH by done. lia.
Qed.

Lemma nodup_pending owed looked w : inv owed looked w → NoDup (src_inflight w) ∧ NoDup (updates w).
Proof using Type.
  intros Hi. pose proof (in_nodup Hi) as Hnd. apply NoDup_app in Hnd as (H1 & _ & H2).
  rewrite (in_reads Hi). split; by apply NoDup_filter.
Qed.

(** A command of the read queue with a read in flight. *)
Lemma reading_cmd owed looked w id :
  inv owed looked w → id ∈ src_inflight w → ∃ c, cmds w !! id = Some c ∧ c_completed c = false ∧ c_zero c = false ∧
    id ∈ read_queue w ∧ ¬ (id ∈ hash_queue w) ∧ read_ok opt (hbuf (w_hash w) id) c.
Proof using Type.
  intros Hi Hid. rewrite (in_reads Hi) in Hid. apply list_elem_of_filter in Hid as [Hp Hq].
  destruct (in_cmds Hi id) as [c Hc]; [apply elem_of_app; by left|].
  pose proof (in_read Hi id c Hq Hc) as Hro.
  unfold pend in Hp. rewrite Hc in Hp. exists c. assert (c_completed c = false) as Hd by (by destruct (c_completed c)).
  pose proof (in_nodup Hi) as Hnd. apply NoDup_app in Hnd as (_ & Hdis & _).
  split_and!; auto. destruct (c_zero c) eqn:Hz; [|done]. destruct (ro_zero _ _ _ Hro Hz). congruence.
Qed.

(** A read completes: the buffer holds the data. *)
Lemma inv_read_done id c h b w :
  inv [] false w → id ∈ src_inflight w → cmds w !! id = Some c → touched opt E ok patience id (w_hash w) h →
  hbuf h id = Some b → zlen b = read_size opt →
  ztake (c_length c) b = slice image (c_offset c) (c_length c) →
  let w' := completed id (set_completed true c) h (bytes_hashed w) (commands_in_flight w - 1)
    (filter (.≠ id) (src_inflight w)) (w_bar w) w in
  inv [] false w' ∧ potential w' < potential w ∧ updates w' = updates w.
Proof using Type.
  intros Hi Hid Hc [Htr Htb] Hb Hbl Hdata w'. destruct (nodup_pending _ _ w Hi) as [Hns Hnh].
  destruct (reading_cmd _ _ w id Hi Hid) as (c0 & Hc0 & Hd & Hz & Hq & Hnq & [Hro Hrl Hri Hrz Hrd]).
  assert (c0 = c) as -> by congruence. clear Hc0.
  pose proof (in_nodup Hi) as Hnd. apply NoDup_app in Hnd as (Hndr & _ & _).
  assert (id ∉ updates w) as Hnu by (by intros [_ ?]%list_elem_of_filter).
  assert (updates w' = updates w) as Hup by (unfold updates; simpl; by rewrite pending_ids_ne).
  split_and!; [split; rewrite ?Hup; simpl|..|done].
  - apply Hi.
  - apply Hi.
  - apply Hi.
  - apply Hi.
  - intros j Hj. destruct (decide (j = id)) as [->|]; [by rewrite lookup_insert_eq|].
    rewrite lookup_insert_ne by done. by apply (in_cmds Hi).
  - intros j Hj. destruct (decide (j = id)) as [->|]; [eauto|].
    rewrite Htb by done. by apply (in_bufs Hi).
  - by rewrite pending_ids_done, (in_reads Hi).
  - rewrite (filter_remove_len id _ Hns Hid), (in_flight Hi). lia.
  - intros j cj Hj. destruct (decide (j = id)) as [->|].
    + rewrite lookup_insert_eq. intros [= <-]. split; simpl; [done..| |]; intros; [congruence|].
      split; [by apply Hrd|]. intros _. by exists b.
    + rewrite lookup_insert_ne, Htb by done. by apply (in_read Hi).
  - intros j cj Hj. rewrite lookup_insert_ne by (by intros ->). by apply (in_update Hi).
  - destruct (in_hash Hi) as (msg & l & Hr & Hl & Hm). exists msg, l. rewrite Hup. split_and!; [|done|].
    + apply Htr; [done|]. intros Hin. apply Hnu. by rewrite Hl.
    + simpl. by rewrite (cmd_part_same _ _ _ c).
  - rewrite !(sum_len_same _ _ c) by done. apply Hi.
  - destruct (in_extents Hi). by split.
  - intros Hk. by rewrite (in_source Hi Hk).
  - apply Hi.
  - apply Hi.
  - unfold potential. rewrite Hup. simpl. rewrite read_weight_done; [lia|done|done| |done].
    unfold pend. by rewrite Hc, Hd.
Qed.

(** An update completes. *)
Lemma inv_update_done id owed c b w :
  inv (id :: owed) false w → cmds w !! id = Some c →
  (progress opt = true → ProgressBar.shows (zlen image) (bytes_hashed w + c_length c) lines b) →
  let w' := completed id (set_completed true c) (w_hash w) (bytes_hashed w + c_length c)
    (commands_in_flight w - 1) (src_inflight w) b w in
  inv owed false w' ∧ potential w' < potential w ∧ 0 < commands_in_flight w.
Proof using Type.
  intros Hi Hc Hbar w'. destruct (nodup_pending _ _ w Hi) as [Hns Hnh].
  destruct (in_hash Hi) as (msg & l & Hr & Hl & Hm).
  assert (id ∈ updates w) as Hid by (rewrite Hl; by left).
  pose proof Hid as Hq. apply list_elem_of_filter in Hq as [Hp Hq].
  pose proof (in_nodup Hi) as Hnd. apply NoDup_app in Hnd as (_ & Hdis & _).
  assert (id ∉ read_queue w) as Hnq by (intros ?; by apply (Hdis id)).
  pose proof (filter_remove_len id _ Hnh Hid) as Hlen.
  pose proof (zlen_nonneg (filter (.≠ id) (updates w))). pose proof (zlen_nonneg (src_inflight w)).
  assert (updates w' = filter (.≠ id) (updates w)) as Hup by (unfold updates; simpl; by rewrite pending_ids_done).
  split_and!; [split; rewrite ?Hup; simpl|..|rewrite (in_flight Hi); lia].
  - apply Hi.
  - apply Hi.
  - apply Hi.
  - apply Hi.
  - intros j Hj. destruct (decide (j = id)) as [->|]; [by rewrite lookup_insert_eq|].
    rewrite lookup_insert_ne by done. by apply (in_cmds Hi).
  - apply Hi.
  - rewrite pending_ids_ne by done. apply Hi.
  - rewrite Hlen, (in_flight Hi). lia.
  - intros j cj Hj. rewrite lookup_insert_ne by (by intros ->). by apply (in_read Hi).
  - intros j cj [Hne Hj]%list_elem_of_filter. rewrite lookup_insert_ne by done. by apply (in_update Hi).
  - exists msg, l. rewrite Hup. simpl. split_and!; [done| |by rewrite cmd_part_ne].
    apply (Permutation_cons_inv (a := id)). rewrite remove_perm by done. by rewrite Hl.
  - rewrite !(sum_len_same _ _ c) by done. rewrite sum_len_remove by done.
    unfold cmd_len at 1. rewrite Hc. pose proof (in_hashed Hi). lia.
  - destruct (in_extents Hi). by split.
  - apply Hi.
  - apply Hi.
  - done.
  - unfold potential. rewrite Hup. simpl. rewrite read_weight_ne by done. lia.
Qed.

Lemma flight_pos owed looked w id :
  inv owed looked w → id ∈ src_inflight w → 0 < commands_in_flight w.
Proof using Type.
  intros Hi Hid. rewrite (in_flight Hi). pose proof (zlen_nonneg (updates w)).
  destruct (src_inflight w) as [|x l]; [by apply elem_of_nil in Hid|]. rewrite zlen_cons. pose proof (zlen_nonneg l). lia.
Qed.

Lemma complete_reads_inv (l : list (nat * Z)) w :
  inv [] false w → (Forall (λ p, p.2 = 0) l ∨ hopeless) →
  wpt E X (complete_reads debug l) (λ _ w', inv [] false w' ∧ potential w' <= potential w ∧
    updates w' = updates w ∧ n_waits w' = n_waits w ∧
    (hready (w_hash w) → hready (w_hash w')) ∧ (∀ F, hdrain F (w_hash w) → hdrain F (w_hash w')) ∧
    ((∃ p, p ∈ l ∧ p.1 ∈ src_inflight w) → potential w' < potential w)) w.
Proof using Hfail Hsig.
  revert w. induction l as [|[id e] l IH]; intros w Hi Hl; simpl.
  { wpt_step. split_and!; try done. by intros (p & ?%elem_of_nil & _). }
  assert (Forall (λ p, p.2 = 0) l ∨ hopeless) as Hl'.
  { destruct Hl as [[_ ?]%Forall_cons|?]; [by left|by right]. }
  do 3 wpt_step. destruct (decide (id ∈ src_inflight w)) as [Hid|Hid].
  2: { wpt_step. eapply wpt_mono; [by apply IH|]. intros [] w' (? & ? & ? & ? & ? & ? & Hlt). split_and!; [done..|].
       intros (p & [->|Hp]%elem_of_cons & Hin); [done|eauto]. }
  destruct (reading_cmd _ _ w id Hi Hid) as (c & Hc & Hd & Hz & Hq & Hnq & [Hro Hrl Hri _ Hrd]).
  destruct (Hrd Hz) as [Hfit _]. pose proof (flight_pos _ _ w id Hi Hid) as Hpos.
  do 3 wpt_step. unfold fails at 1. destruct (e =? 0) eqn:Ee; simpl.
  2: { wpt_step. unfold read_completed, fails. rewrite Ee. simpl. apply trouble_exits.
       destruct Hl as [[Hz' _]%Forall_cons|Hno]; [simpl in Hz'; lia|]. split_and!; [done|apply (in_depth Hi)|apply (in_proc Hi)]. }
  unfold receive, hash_op. wpt_step. eapply wpc_load; [done|]. wpt_step.
  assert (zlen (slice image (c_offset c) (c_length c)) = c_length c) as Hsl by (apply zlen_slice; lia).
  destruct (in_bufs Hi id) as (old & Hb & Hbl); [apply elem_of_app; by left|].
  destruct (in_hash Hi) as (msg & lu & Hr & Hul & _).
  eapply wpc_mono; [apply (fill_touched opt E ok patience id _ old msg lu false); [done| |done|lia]|].
  { intros Hin. assert (id ∈ updates w) as [_ ?]%list_elem_of_filter by (by rewrite Hul). done. }
  intros [] h' (Ht & Hb' & Hrdy & Hdr).
  destruct (inv_read_done id c h' _ w Hi Hid Hc Ht Hb') as (Hi' & Hpot & Hup).
  { rewrite zlen_app, zlen_zdrop; lia. }
  { rewrite ztake_app_le, ztake_all; [done|lia..]. }
  unfold read_completed, fails, drop_flight. rewrite Ee. simpl negb. cbv iota. wpt_step.
  eapply wpc_store; [done|]. do 3 wpt_step. apply wpc_assertM; [simpl; lia|]. wpt_step. simpl.
  eapply wpt_mono; [by apply (IH _ Hi')|]. intros [] w' (? & ? & Hu' & ? & Hrd' & Hdr' & _).
  split_and!; [done|lia|congruence|done|auto|auto|lia].
Qed.

Lemma complete_loop_inv (l : list (nat * Z)) w :
  inv l.*1 false w → (Forall (λ p, p.2 = 0) l ∨ hopeless) →
  wpc E (complete_loop opt l) (λ rc w', (rc ≠ 0 → trouble w') ∧ (rc = 0 → inv [] false w' ∧
    potential w' <= potential w ∧ n_waits w' = n_waits w ∧ w_hash w' = w_hash w)) w.
Proof using Himg.
  revert w. induction l as [|[id e] l IH]; intros w Hi Hl; simpl.
  { wpc_step. split; [done|]. intros _. by split_and!. }
  assert (Forall (λ p, p.2 = 0) l ∨ hopeless) as Hl'.
  { destruct Hl as [[_ ?]%Forall_cons|?]; [by left|by right]. }
  unfold fails. destruct (e =? 0) eqn:Ee; simpl.
  2: { wpc_step. split; [|done]. intros _. destruct Hl as [[Hz _]%Forall_cons|Hno]; [simpl in Hz; lia|]. by eapply inv_trouble. }
  assert (id ∈ updates w) as Hup by (destruct (in_hash Hi) as (msg & lu & _ & Hul & _); rewrite Hul; by left).
  assert (∀ j, j ∈ updates w → is_Some (cmds w !! j)) as Hsome.
  { intros j [_ Hj]%list_elem_of_filter. apply (in_cmds Hi). apply elem_of_app. by right. }
  destruct (Hsome id Hup) as [c Hc]. pose proof (in_update Hi id c Hup Hc) as Hlen.
  assert (bytes_hashed w + c_length c <= zlen image) as Hle.
  { destruct (lengths_pos _ _ w Hi) as [[? _] _]. pose proof (in_hashed Hi). pose proof (in_offset Hi).
    pose proof (sum_len_in (cmds w) id c (updates w) (in_update Hi) Hsome Hup Hc). lia. }
  assert (0 < commands_in_flight w) as Hpos.
  { rewrite (in_flight Hi). destruct (updates w) as [|j lu]; [by apply elem_of_nil in Hup|]. rewrite zlen_cons.
    pose proof (zlen_nonneg lu). pose proof (zlen_nonneg (src_inflight w)). lia. }
  wpc_step. unfold update_completed, drop_flight. wpc_step. eapply wpc_store; [done|]. wpc_step.
  eapply wpc_load; [by apply lookup_insert_eq|]. do 6 wpc_step.
  apply wpc_assertM; [simpl; lia|]. wpc_step. simpl. apply (report_ok (bytes_hashed w)); [done..|apply (in_bar Hi)|].
  intros b Hbar. simpl. destruct (inv_update_done id l.*1 c b w Hi Hc Hbar) as (Hi' & Hpot & _).
  eapply wpc_mono; [by apply (IH _ Hi')|]. intros rc w' [? Hz]. split; [done|]. intros Hrc.
  destruct (Hz Hrc) as (? & ? & ? & ?). split_and!; [done|lia|done|done].
Qed.

Lemma complete_updates_inv w :
  inv [] true w →
  wpc E (complete_updates opt) (λ rc w', (rc ≠ 0 → trouble w') ∧ (rc = 0 → inv [] false w' ∧
    potential w' <= potential w ∧ n_waits w' = n_waits w ∧
    (ok → ∀ F, hdrain F (w_hash w) → hdrain (F - 1) (w_hash w')))) w.
Proof using Himg.
  intros Hi. unfold complete_updates, hash_op. destruct (in_hash Hi) as (msg & l & Hr & Hl & Hm). wpc_step. wpc_step.
  eapply wpc_mono; [by apply (hl_completions msg l)|]. intros [n out] h' (Hb & l' & Hr' & Hl' & Hok). simpl in *.
  destruct (n <? 0) eqn:En.
  { wpc_step. split; [|done]. intros _. split_and!; [|apply (in_depth Hi)|apply (in_proc Hi)]. intros Ho _. destruct (Hok Ho). lia. }
  assert (inv out.*1 false (set_hash h' w)) as Hi'.
  { eapply inv_hash; [done..|]. exists msg, l'. split_and!; [done| |done].
    change (updates w ≡ₚ out.*1 ++ l'). by rewrite Hl. }
  eapply wpc_mono; [apply (complete_loop_inv out _ Hi')|].
  { destruct (Forall_dec (λ p, p.2 = 0) out) as [?|Hno]; [by left|right]. intros Ho _. by apply Hno, Hok. }
  intros rc w' [Hne Hz]. split; [done|]. intros Hrc. destruct (Hz Hrc) as (? & Hp & ? & Hh). split_and!; try done.
  intros Ho. rewrite Hh. by apply Hok.
Qed.

(** ** Waiting *)

(** Only the hash moved, and its updates are as far as before. *)
Definition aside w w' : Prop :=
  ∃ h', w' = set_hash h' w ∧ ∀ F, hdrain F (w_hash w) → hdrain F h'.

Lemma aside_trans w1 w2 w3 : aside w1 w2 → aside w2 w3 → aside w1 w3.
Proof using Type. intros (h2 & -> & H2) (h3 & -> & H3). exists h3. split; [done|]. simpl in *. auto. Qed.

Lemma inv_hashing_msg owed looked w :
  inv owed looked w → ∃ msg l, hrep msg l looked (w_hash w) ∧ updates w ≡ₚ owed ++ l ∧
    ∀ looked' h, hrep msg l looked' h → (∀ j, hbuf h j = hbuf (w_hash w) j) → inv owed looked' (set_hash h w).
Proof using Type.
  intros Hi. destruct (in_hash Hi) as (msg & l & Hr & Hl & Hm). exists msg, l. split_and!; [done..|].
  intros looked' h Hr' Hb. eapply inv_hash; [done..|]. by exists msg, l.
Qed.

Lemma poll_loop_inv fuel limit w :
  inv [] false w →
  E CNoFuel ∨ (ok ∧ (updates w ≠ [] ∨ is_Some limit)) →
  wpc E (poll_loop fuel limit) (λ r w', inv [] false w' ∧ aside w w' ∧ (r.1 ≠ 0 → ok → False) ∧
    (r.2.1 = true → is_Some limit) ∧ (r.1 = 0 → r.2.1 || r.2.2 = true) ∧
    (r.1 = 0 → r.2.2 = true → hready (w_hash w'))) w.
Proof using Hfail.
  revert w. induction fuel as [|fuel IH]; intros w Hi Hl;
    destruct (inv_hashing_msg _ _ w Hi) as (msg & l & Hr & Hu & Hi'); simpl; unfold hash_op; wpc_step; wpc_step;
    (eapply wpc_mono; [apply (hl_poll limit msg l _ Hr)|]).
  1,3: destruct Hl as [?|[Ho Hl]]; [by left|right]; split; [done|]; destruct Hl as [Hne|?]; [left|by right];
    intros ->; by apply Permutation_nil_r in Hu.
  all: intros r h' (Hr' & Hb & Hne & Hsrc' & Hor & Hrd & Hdr); specialize (Hi' _ _ Hr' Hb); cbv beta;
    assert (aside w (set_hash h' w)) as Has by (by exists h'); destruct (r.1 =? EINTR) eqn:Eint;
    [|wpc_step; by split_and!].
  - apply wpc_crash. destruct Hfail as [[Ho _]|[? _]]; [|done]. destruct Hne; [unfold EINTR in *; lia|done].
  - eapply wpc_mono; [by apply (IH _ Hi')|]. intros r2 w2 (? & Has2 & ? & ? & ? & ?). split_and!; try done.
    by eapply aside_trans.
Qed.

Lemma drain_event_inv fuel w :
  inv [] false w → hready (w_hash w) →
  wpc E (drain_event fuel) (λ r w', aside w w' ∧ (r.1 ≠ 0 → ok → False) ∧ (r.1 = 0 → inv [] true w' ∧ 0 < r.2)) w.
Proof using Hfail.
  revert w. induction fuel as [|fuel IH]; intros w Hi Hrdy;
    destruct (inv_hashing_msg _ _ w Hi) as (msg & l & Hr & Hu & Hi'); simpl; unfold hash_op; wpc_step; wpc_step;
    (eapply wpc_mono; [by apply (hl_read msg l)|]); intros r h' (Hb & H0 & Hne & Hdr); cbv beta;
    assert (aside w (set_hash h' w)) as Has by (by exists h'); destruct (r.1 =? EINTR) eqn:Eint.
  2,4: wpc_step; split_and!; [done|intros He Ho; by destruct (Hne He) as (_ & _ & []);
    auto|intros He; destruct (H0 He); split; [by apply Hi'|done]].
  all: destruct Hne as (Hr' & Hrd' & Hno); [unfold EINTR in *; lia|].
  - apply wpc_crash. destruct Hfail as [[Ho _]|[? _]]; [|done]. by destruct Hno.
  - eapply wpc_mono; [by apply (IH _ (Hi' _ _ Hr' Hb))|]. intros r2 w2 (Has2 & ? & ?). split_and!; try done.
    by eapply aside_trans.
Qed.

(** What the socket brings. *)
Lemma notify_inv t w :
  inv [] false w →
  wpt E X (nbd_ops_aio_notify debug t) (λ rc w', (rc ≠ 0 → trouble w') ∧ (rc = 0 → inv [] false w' ∧ potential w' <= potential w ∧
    updates w' = updates w ∧ n_waits w' = n_waits w ∧
    (hready (w_hash w) → hready (w_hash w')) ∧ (∀ F, hdrain F (w_hash w) → hdrain F (w_hash w')) ∧
    (ok → source_ok → (∃ p, p ∈ (notified t (src_inflight w)).2 ∧ p.1 ∈ src_inflight w) →
      potential w' < potential w))) w.
Proof using Hfail Hsig.
  intros Hi. unfold nbd_ops_aio_notify. do 2 wpt_step.
  destruct (fails (Z.land (revents t) (Z.lor POLLIN POLLHUP)) || fails (Z.land (revents t) POLLOUT)) eqn:Ev.
  - destruct (notified t (src_inflight w)) as [rc l] eqn:En. wpt_step. eapply wpt_mono.
    { apply (complete_reads_inv l w Hi). destruct (Forall_dec (λ p, p.2 = 0) l) as [?|Hno]; [by left|right].
      intros _ Hs. pose proof (so_notified Hs t (src_inflight w)) as [_ Hf]. by rewrite En in Hf. }
    intros [] w' (? & ? & ? & ? & ? & ? & ?). wpt_step. split.
    + intros Hrc. eapply inv_trouble; [done|]. intros _ Hs.
      pose proof (so_notified Hs t (src_inflight w)) as [Hf _]. by rewrite En in Hf.
    + intros _. split_and!; by auto.
  - assert (source_ok → False) as Hno.
    { intros Hs. pose proof (so_revents Hs t). congruence. }
    destruct (fails (Z.land (revents t) (Z.lor POLLERR POLLNVAL))); wpt_step.
    + split; [|done]. intros _. by eapply inv_trouble.
    + split; [done|]. intros _. split_and!; try done; by intros ? ?%Hno.
Qed.

Context (G : nat) (dry : nat → nat) (Hlive : source_live G dry ∨ E CNoFuel).

(** The source is polled when it has reads in flight. *)
Lemma prepare_inv t w (Q : Z * bool → worker H → Prop) :
  inv [] false w → (∀ rc polled, (rc ≠ 0 → hopeless) →
    (rc = 0 → polled = true ↔ src_inflight w ≠ []) → Q (rc, polled) w) →
  wpc E (src_aio_prepare t) Q w.
Proof using Type.
  intros Hi HQ. unfold src_aio_prepare, nbd_ops_aio_prepare. destruct kind eqn:Hk.
  { wpc_step. apply HQ; [done|]. rewrite (in_source Hi Hk). done. }
  do 2 wpc_step. destruct (src_inflight w) as [|x l] eqn:Hs; simpl.
  { wpc_step. apply HQ; [done|]. by split. }
  unfold LIBNBD_AIO_DIRECTION_READ, LIBNBD_AIO_DIRECTION_WRITE, LIBNBD_AIO_DIRECTION_BOTH.
  destruct ((direction t =? 1) || (direction t =? 2) || (direction t =? 3)) eqn:Ed; wpc_step; (apply HQ; [|by split]); [done|].
  intros _ _ Hok. pose proof (so_direction Hok t) as Hd.
  unfold LIBNBD_AIO_DIRECTION_READ, LIBNBD_AIO_DIRECTION_BOTH in Hd.
  apply orb_false_iff in Ed as [[? ?]%orb_false_iff ?]. lia.
Qed.

(** The three ways in which a wait brings the end closer. *)
Definition closer F w w' : Prop :=
  potential w' < potential w ∨ (∃ F', F = S F' ∧ hdrain F' (w_hash w')) ∨
  (hdrain F (w_hash w') ∧ (dry (n_waits w') < dry (n_waits w))%nat).

Definition waited w w' : Prop :=
  inv [] false w' ∧ potential w' <= potential w ∧
  (ok → source_ok → source_live G dry → ∀ F, hdrain F (w_hash w) → closer F w w').

(** After the source was looked at: the completions. *)
Lemma after_notify (hash : bool) rc t w0 w :
  (rc ≠ 0 → trouble w) → (rc = 0 → inv [] false w ∧ potential w <= potential w0) →
  (rc = 0 → hash = true → hready (w_hash w)) →
  (rc = 0 → hash = false → ok → source_ok → source_live G dry → ∀ F, hdrain F (w_hash w0) → closer F w0 w) →
  (rc = 0 → ok → ∀ F, hdrain F (w_hash w0) → hdrain F (w_hash w)) →
  wpt E X (if fails rc then mret (-1)
      else if hangup t then mret (-1)
      else if hash : bool then
        '(err, n) ← lift (drain_event retries);
        if fails err then mret (-1)
        else if 0 <? n then lift (complete_updates opt) else mret 0
      else mret 0) (λ rc w', (rc ≠ 0 → trouble w') ∧ (rc = 0 → waited w0 w')) w.
Proof using Hfail Himg.
  intros Hne Hi Hrdy Hcl Hdr. unfold fails at 1. destruct (rc =? 0) eqn:Erc; simpl.
  2: { wpt_step. split; [|done]. intros _. apply Hne. lia. }
  assert (rc = 0) as Hrc by lia. destruct (Hi Hrc) as [Hiw Hp]. destruct (hangup t) eqn:Eh.
  { wpt_step. split; [|done]. intros _. eapply inv_trouble; [done|]. intros _ Hs. pose proof (so_hangup Hs t). congruence. }
  destruct hash.
  2: { wpt_step. split; [done|]. intros _. split_and!; auto. }
  wpt_step. eapply wpc_mono; [by apply drain_event_inv; auto|]. intros [err n] w1 ((h1 & Hw1 & Hd1) & He & H0). simpl in *.
  unfold fails. destruct (err =? 0) eqn:Eerr; simpl.
  2: { wpt_step. split; [|done]. intros _. rewrite Hw1. split_and!; [|apply (in_depth Hiw)|apply (in_proc Hiw)].
       intros Ho _. apply He; [lia|done]. }
  destruct H0 as [Hi1 Hn]; [lia|]. rewrite (proj2 (Z.ltb_lt _ _) Hn).
  apply wpt_lift. eapply wpc_mono; [by apply complete_updates_inv|]. intros rc2 w2 [Hne2 Hz]. split; [done|]. intros Hr2.
  destruct (Hz Hr2) as (Hi2 & Hp2 & _ & Hd2).
  assert (potential w1 = potential w) as Hp1 by (by rewrite Hw1). split_and!; [done|lia|].
  intros Ho _ _ F HF. specialize (Hdr Hrc Ho F HF). right. left. destruct F as [|F].
  - destruct (hl_drained _ Ho Hdr). auto.
  - exists F. split; [done|]. replace F with (S F - 1)%nat by lia. apply Hd2; [done|]. rewrite Hw1. auto.
Qed.

Lemma wait_inv w :
  inv [] false w → src_inflight w ≠ [] ∨ updates w ≠ [] →
  wpt E X (wait_for_events opt debug) (λ rc w', (rc ≠ 0 → trouble w') ∧ (rc = 0 → waited w w')) w.
Proof using Hfail Hlive Hsig Himg.
  intros Hi Hsome. unfold wait_for_events. do 4 wpt_step. set (t := n_waits w).
  set (w1 := set_counts (n_calls w) (S t) w). assert (inv [] false w1) as Hi1.
  { exact (inv_counts opt E ok patience p0 lines _ _ w (n_calls w) (S t) (w_proc w) Hi (in_proc Hi)). }
  wpt_step. apply (prepare_inv _ _ _ Hi1). intros rc polled Hrc Hpol. unfold fails at 1.
  destruct (rc =? 0) eqn:Erc; simpl.
  2: { wpt_step. split; [|done]. intros _. eapply inv_trouble; [exact Hi1|]. apply Hrc. lia. }
  specialize (Hpol ltac:(lia)). change (src_inflight w1) with (src_inflight w) in Hpol.
  set (limit := if polled then wakes t (src_inflight w) else None). wpt_step. eapply wpc_mono.
  { apply (poll_loop_inv retries limit w1 Hi1). destruct Hfail as [[Ho _]|[? _]]; [|by left].
    destruct (Hlive) as [Hsl|?]; [right|by left]. split; [done|].
    destruct Hsome as [Hs|?]; [right|by left]. unfold limit. rewrite (proj2 Hpol Hs). by apply (sl_wakes _ _ Hsl). }
  intros [err [src hash]] w2 (Hi2 & (h2 & Hw2 & Hd2) & Herr & Hlim & Hor & Hrdy). simpl in *.
  unfold fails at 1. destruct (err =? 0) eqn:Eerr; simpl.
  2: { wpt_step. split; [|done]. intros _. eapply inv_trouble; [exact Hi2|]. intros Ho _. apply Herr; [lia|done]. }
  specialize (Hor ltac:(lia)). specialize (Hrdy ltac:(lia)).
  assert (potential w2 = potential w) as Hp2 by (by rewrite Hw2). wpt_step. destruct src.
  - assert (src_inflight w ≠ []) as Hs.
    { apply Hpol. destruct (Hlim eq_refl) as [k Hk]. unfold limit in Hk. by destruct polled. }
    eapply wpt_mono; [by apply notify_inv|]. intros rc2 w3 [Hne Hz]. cbv beta. rewrite Hp2 in Hz.
    assert (src_inflight w2 = src_inflight w ∧ n_waits w2 = S t) as [Hs2 Hn2] by (by rewrite Hw2). rewrite Hs2, Hn2 in Hz.
    apply after_notify; [done|intros Hr; by destruct (Hz Hr) as (? & ? & _)| | |].
    + intros Hr Hh. destruct (Hz Hr) as (_ & _ & _ & _ & Hx & _). auto.
    + intros Hr _ Ho Hso Hsl F HF. destruct (Hz Hr) as (_ & _ & _ & Hn & _ & Hdr & Hlt).
      destruct (sl_dry _ _ Hsl t (src_inflight w) Hs) as [Hp|Hdry]; [left; auto|right; right].
      rewrite Hn. split; [|done]. apply Hdr. rewrite Hw2. by apply Hd2.
    + intros Hr _ F HF. destruct (Hz Hr) as (_ & _ & _ & _ & _ & Hdr & _). apply Hdr. rewrite Hw2. by apply Hd2.
  - wpt_step. simpl in Hor. subst hash. apply (after_notify true 0 t w w2); [done|intros _; split; [done|lia]|auto|done|].
    intros _ _ F HF. rewrite Hw2. by apply Hd2.
Qed.

(** ** The main loop *)

(** When all was hashed, the message is the image and nothing is in flight. *)
Lemma hashed_all w :
  inv [] false w → bytes_hashed w >= zlen image →
  hrep image [] false (w_hash w) ∧ bytes_hashed w = zlen image ∧ src_inflight w = [].
Proof using Type.
  intros Hi Hge. pose proof (in_offset Hi). pose proof (in_hashed Hi) as Hs.
  destruct (lengths_pos _ _ w Hi) as [[Hr0 Hr] [Hh0 Hh]].
  destruct (in_hash Hi) as (msg & l & Hrep & Hl & Hm). rewrite Hr in Hm by lia. rewrite Hh in Hl by lia.
  simpl in Hm, Hl. rewrite app_nil_r in Hm. apply Permutation_nil in Hl. subst l.
  rewrite ztake_all in Hm by lia. subst msg. split_and!; [done|lia|]. rewrite (in_reads Hi), Hr by lia. done.
Qed.

(** Requests in flight, or some command moved. *)
Lemma body_progress w w1 w2 :
  inv [] false w → bytes_hashed w < zlen image → inv [] false w1 → inv [] false w2 →
  (potential w1 < potential w ∨ (w1 = w ∧ (read_offset w < zlen image →
    ∀ id, id ∈ hash_queue w → pend (cmds w) id = true))) →
  (potential w2 < potential w1 ∨ w2 = w1) →
  match read_queue w2 with [] => True | id :: _ => pend (cmds w2) id = true end →
  potential w2 < potential w ∨ (w2 = w ∧ (src_inflight w2 ≠ [] ∨ updates w2 ≠ [])).
Proof using Hopt.
  intros Hi Hlt Hi1 Hi2 [H1|[-> H1]] [H2| ->] Hhead; try (left; lia).
  right. split; [done|]. destruct (read_queue w) as [|id rq] eqn:Hrq.
  - right. intros Hh. pose proof (in_hashed Hi) as Hsum. rewrite Hrq, Hh in Hsum. simpl in Hsum.
    pose proof (in_depth Hi) as Hd. rewrite Hrq in Hd. simpl in Hd.
    destruct (hash_queue w) as [|id hq] eqn:Hhq.
    { destruct Hopt as [_ Hqd _]. unfold zlen in Hd. simpl in Hd. lia. }
    specialize (H1 ltac:(lia) id ltac:(by left)).
    unfold updates, pending_ids in Hh. by rewrite Hhq, filter_cons_True in Hh.
  - left. intros Hs. rewrite (in_reads Hi), Hrq in Hs. unfold pending_ids in Hs. by rewrite filter_cons_True in Hs.
Qed.

Lemma potential_pos w : inv [] false w → bytes_hashed w < zlen image → 0 < potential w.
Proof using Type.
  intros Hi Hlt. unfold potential. pose proof (in_offset Hi). pose proof (in_hashed Hi) as Hs.
  assert (∀ m l, 0 <= read_weight m l ∧ (read_weight m l = 0 → l = [])) as Hw.
  { intros m l. induction l as [|x l [IH _]]; simpl; [done|]. destruct (pend m x); split; lia. }
  destruct (Hw (cmds w) (read_queue w)) as [Hw0 Hwn]. pose proof (zlen_nonneg (updates w)).
  destruct (decide (read_weight (cmds w) (read_queue w) = 0)) as [Hz|]; [|lia].
  rewrite (Hwn Hz) in *. destruct (updates w) as [|x l]; [simpl in Hs; lia|]. rewrite zlen_cons in *.
  pose proof (zlen_nonneg l). lia.
Qed.

(** The iterations that are left, at most. *)
Definition bound F w : nat :=
  ((Z.to_nat (potential w) * S patience + F) * S G + dry (n_waits w))%nat.

Lemma bound_moved F F' w w' :
  (F' ≤ patience)%nat → (dry (n_waits w') ≤ G)%nat → potential w' < potential w → 0 < potential w →
  (bound F' w' < bound F w)%nat.
Proof using Type.
  intros HF Hd Hp Hpos. unfold bound. assert (Z.to_nat (potential w) = S (Z.to_nat (potential w - 1))) as -> by lia.
  assert (Z.to_nat (potential w') ≤ Z.to_nat (potential w - 1))%nat by lia. nia.
Qed.

Lemma bound_closer F w w' :
  closer F w w' → inv [] false w' → ok → source_live G dry → potential w' <= potential w → 0 < potential w →
  ∃ F', hdrain F' (w_hash w') ∧ (bound F' w' < bound F w)%nat.
Proof using Type.
  intros Hc Hi Ho Hsl Hle Hpos. pose proof (sl_bound _ _ Hsl (n_waits w')) as Hd.
  destruct Hc as [Hlt|[(F' & -> & HF')|[HF' Hdry]]].
  - destruct (in_hash Hi) as (msg & l & Hr & _). exists patience. split; [by eapply hl_start|]. by apply bound_moved.
  - exists F'. split; [done|]. unfold bound. assert (Z.to_nat (potential w') ≤ Z.to_nat (potential w))%nat by lia. nia.
  - exists F. split; [done|]. unfold bound. assert (Z.to_nat (potential w') ≤ Z.to_nat (potential w))%nat by lia. nia.
Qed.

(** The events that a wait brings, or none is needed. *)
Lemma maybe_wait_inv w :
  inv [] false w →
  wpt E X (if fails (commands_in_flight w) then
           rc ← wait_for_events opt debug; if fails rc then fail_thread debug else mret tt
         else mret tt)
    (λ _ w', inv [] false w' ∧ potential w' <= potential w ∧
      (src_inflight w ≠ [] ∨ updates w ≠ [] → waited w w')) w.
Proof using Hfail Hlive Hsig Himg.
  intros Hi. unfold fails at 1. pose proof (in_flight Hi) as Hfl.
  pose proof (zlen_nonneg (src_inflight w)). pose proof (zlen_nonneg (updates w)).
  destruct (commands_in_flight w =? 0) eqn:Ef; simpl.
  - wpt_step. split_and!; [done|lia|]. intros [Hne|Hne]; exfalso; apply Hne; apply nil_length_inv; unfold zlen in *; lia.
  - wpt_step. eapply wpt_mono; [apply wait_inv; [done|]|].
    { destruct (src_inflight w), (updates w); try (by left); try (by right). unfold zlen in Hfl; simpl in Hfl; lia. }
    intros rc w' [Hne Hz]. unfold fails. destruct (rc =? 0) eqn:Erc; simpl.
    + wpt_step. destruct (Hz ltac:(lia)) as (? & ? & ?). by split_and!.
    + apply trouble_exits, Hne. lia.
Qed.

(** The first half of an iteration. *)
Lemma more_data_inv w :
  inv [] false w → bytes_hashed w < zlen image →
  wpt E X ((if read_offset w <? zlen image then read_more_data opt debug else mret tt);; hash_more_data opt debug)
    (λ _ w', inv [] false w' ∧ (potential w' < potential w ∨ (w' = w ∧ (src_inflight w' ≠ [] ∨ updates w' ≠ [])))) w.
Proof using Hopt Hsrc Hfail Himg Hsig.
  intros Hi Hlt. wpt_step. apply (wpt_mono _ _ _ (λ _ w1, inv [] false w1 ∧ (potential w1 < potential w ∨
    (w1 = w ∧ (read_offset w < zlen image → ∀ id, id ∈ hash_queue w → pend (cmds w) id = true))))).
  { destruct (read_offset w <? zlen image) eqn:Eo.
    - unfold read_more_data. do 2 wpt_step. apply read_loop_inv; try done.
      pose proof (in_nodup Hi) as Hnd. by apply NoDup_app in Hnd as (_ & _ & ?).
    - wpt_step. split; [done|]. right. split; [done|lia]. }
  intros [] w1 (Hi1 & Hor1). unfold hash_more_data. do 2 wpt_step.
  eapply wpt_mono; [by apply hash_loop_inv|]. intros [] w2 [[Hi2 Hor2] Hhead]. split; [done|].
  by apply (body_progress w w1).
Qed.

(** The loop ends within [bound] iterations, or waits for events that never come. *)
Lemma process_image_inv fuel F w :
  inv [] false w → (ok ∧ source_ok ∧ source_live G dry ∧ hdrain F (w_hash w) ∧ (bound F w ≤ fuel)%nat) ∨ E CNoFuel →
  wpt E X (process_image opt debug fuel) (λ _ w', inv [] false w' ∧ (bytes_hashed w' < zlen image → is_running (w_proc w') = false)) w.
Proof using Hopt Hsrc Hfail Himg Hlive Hsig.
  revert F w. induction fuel as [|fuel IH]; intros F w Hi Hf; simpl; do 2 wpt_step; rewrite (in_size Hi);
    (destruct (bytes_hashed w <? zlen image) eqn:Eb; [|wpt_step; split; [done|lia]]);
    pose proof (potential_pos w Hi ltac:(lia)) as Hpos.
  { apply wpt_lift, wpc_crash. destruct Hf as [(_ & _ & _ & _ & Hb)|?]; [|done]. unfold bound in Hb. nia. }
  assert (∀ (m1 m2 k : T (worker H) unit) Q w0,
    wpt E X ((m1;; m2) ≫= λ _, k) Q w0 → wpt E X (m1;; m2;; k) Q w0) as Hassoc.
  { intros m1 m2 k Q w0. unfold wpt, joined, wpc, mbind, T_bind, mbind, M_bind. by destruct (m1 w0) as [[]|]. }
  apply Hassoc. wpt_step. eapply wpt_mono; [apply more_data_inv; [done|lia]|]. intros [] w2 [Hi2 Hor].
  assert (potential w2 <= potential w) as Hle by (destruct Hor as [?|[-> _]]; lia).
  do 3 wpt_step. eapply wpt_mono; [by apply maybe_wait_inv|]. intros [] w3 (Hi3 & Hle3 & Hw3).
  wpt_step. unfold proc_op. wpt_step. apply wpc_wp. eapply wp_mono; [by apply (running_ok Hsig)|].
  intros b p4 (Hlt4 & _ & Hb4). cbv beta. set (w4 := set_proc p4 w3).
  assert (inv [] false w4) as Hi4 by (exact (inv_counts opt E ok patience p0 lines _ _ w3 (n_calls w3) (n_waits w3) p4 Hi3 (transitivity (in_proc Hi3) Hlt4))).
  assert (b = false → wpt E X (mret tt : T (worker H) unit) (λ _ w', inv [] false w' ∧
    (bytes_hashed w' < zlen image → is_running (w_proc w') = false)) w4) as Hstop.
  { intros ->. wpt_step. by split. }
  destruct b; [clear Hstop|by apply Hstop].
  destruct Hf as [(Ho & Hso & Hsl & Hdr & Hbd)|?]; [|by apply (IH 0%nat); [|right]].
  assert (∃ F', hdrain F' (w_hash w3) ∧ (bound F' w3 < bound F w)%nat) as (F' & HF' & Hlt').
  { destruct Hor as [Hpot|[-> Hsome]].
    - destruct (in_hash Hi3) as (msg & l & Hr & _). exists patience. split; [by eapply hl_start|].
      apply bound_moved; try done; [apply (sl_bound _ _ Hsl)|lia].
    - destruct (Hw3 Hsome) as (_ & _ & Hcl). eapply bound_closer; eauto. }
  apply (IH F' w4 Hi4). left. split_and!; try done. change (bound F' w3 ≤ fuel)%nat. lia.
Qed.

(** ** The start *)

Lemma new_worker_cmd can h p b id :
  id ∈ hash_queue (new_worker opt can h p b) → cmds (new_worker opt can h p b) !! id = Some (Command 0 0 true false).
Proof using Type.
  intros Hid. simpl in *. apply elem_of_list_to_map_1.
  - rewrite <-list_fmap_compose. simpl. rewrite list_fmap_id. apply NoDup_seq.
  - apply list_elem_of_fmap. by exists id.
Qed.

Lemma new_worker_updates can h p b : updates (new_worker opt can h p b) = [].
Proof using Type.
  unfold updates, pending_ids. destruct (filter _ _) as [|x l] eqn:Hx; [done|].
  assert (x ∈ filter (λ id, pend (cmds (new_worker opt can h p b)) id = true) (hash_queue (new_worker opt can h p b))) as Hin
    by (rewrite Hx; by left).
  apply list_elem_of_filter in Hin as [Hpe Hin]. unfold pend in Hpe. by rewrite (new_worker_cmd can h p b x Hin) in Hpe.
Qed.

Lemma new_worker_potential can h p b : potential (new_worker opt can h p b) = 4 * zlen image.
Proof using Type. unfold potential. rewrite new_worker_updates. change (zlen (@nil nat)) with 0. simpl. lia. Qed.

Lemma new_worker_inv can h p b :
  hrep [] [] false h → later p0 p →
  (progress opt = true → ProgressBar.shows (zlen image) 0 lines b) →
  (∀ id, (id < Z.to_nat (queue_depth opt))%nat → ∃ b, hbuf h id = Some b ∧ zlen b = read_size opt) →
  inv [] false (new_worker opt can h p b).
Proof using Hopt.
  intros Hr Hp Hbar Hb. destruct Hopt as [Hrs Hqd Hes]. pose proof (new_worker_updates can h p b) as Hnone.
  split; rewrite ?Hnone; simpl; try done.
  - pose proof (zlen_nonneg image). lia.
  - apply NoDup_seq.
  - unfold zlen. rewrite length_seq. lia.
  - intros id Hid. eexists. by apply (new_worker_cmd can h p b).
  - intros id Hid. apply Hb. apply elem_of_seq in Hid. lia.
  - by intros id c ?%elem_of_nil.
  - by intros id c ?%elem_of_nil.
  - exists [], []. by rewrite Hnone.
Qed.
End loop.
