(* ===== verification/Blksum.v ===== *)
(** * The worker of blksum passes the image to its hash

    What [process_image] of aio-checksum.c does with any hash that keeps the laws of
    [Hasher], and a run with the library. *)

From stdpp Require Import prelude list strings gmap.
From Stdlib Require Import ZArith Lia.
From S2P Require Import Prelude Thread Src Process Hasher AioChecksum AioInv AioLoop.
From S2P Require ProgressBar State Digest Blkhash PoolInv Progress Spec Init Session Reach Account Poll Client AioHash Demo.

Local Open Scope Z_scope.

(** The iterations of the loop, at most: a command takes four steps for a byte, between
    two steps the hash announces completions [patience] times, and between two
    announcements the source has [G] events. *)
Definition enough `{OUT : !Outside} (patience G : nat) : nat :=
  ((Z.to_nat (4 * zlen image) * S patience + patience) * S G + G)%nat.

(** The buffers of the commands. *)
Definition buffers_ok {H} `{HL : HasherLaws H bad ok depth patience} (opt : worker_options) (h : H) : Prop :=
  ∀ id, (id < Z.to_nat (queue_depth opt))%nat → ∃ b, hbuf h id = Some b ∧ zlen b = read_size opt.

(** The lines of the progress bar, if there is one. *)
Definition bar_complete `{OUT : !Outside} (opt : worker_options) (lines : list string) (b : ProgressBar.progress) : Prop :=
  progress opt = true → 0 < zlen image → ProgressBar.complete lines b.

(** The loop on a new worker. *)
Lemma process_image_new {H : Type} `{HA : !Hasher H, OUT : !Outside, OS : !Os} (opt : worker_options) (debug : bool)
    (E : crash → Prop) (X : worker H → Prop) (ok : Prop) (patience : nat)
    `{HL : !HasherLaws H E ok (queue_depth opt) patience}
    (can : bool) (h : H) (p : proc) (b : ProgressBar.progress) (lines : list string) (G : nat) (dry : nat → nat) (fuel : nat) :
  options_ok opt → zlen image < 2 ^ 63 → source_truthful → signals_ok → hrep [] [] false h → buffers_ok opt h →
  (progress opt = true → ProgressBar.shows (zlen image) 0 lines b) →
  (ok ∧ source_ok ∧ source_live G dry ∧ (enough patience G ≤ fuel)%nat) ∨ (E CNoFuel ∧ ∀ w, abandoned opt p w → X w) →
  wpt E X (process_image opt debug fuel) (λ _ w', later p (w_proc w') ∧ zlen (read_queue w' ++ hash_queue w') = queue_depth opt ∧
    (is_running (w_proc w') = true → hrep image [] false (w_hash w') ∧ bytes_hashed w' = zlen image ∧ src_inflight w' = [] ∧
      bar_complete opt lines (w_bar w')))
    (new_worker opt can h p b).
Proof.
  intros Hopt Himg Hsrc Hsig Hr Hb Hbar Hc.
  assert ((ok ∧ source_ok) ∨ (E CNoFuel ∧ ∀ w, abandoned opt p w → X w)) as Hfail by (destruct Hc as [(? & ? & _)|?]; auto).
  assert (source_live G dry ∨ E CNoFuel) as Hlive by (destruct Hc as [(? & ? & ? & _)|[? ?]]; auto).
  eapply wpt_mono; [apply (process_image_inv opt debug E ok patience p lines X Hopt Hsrc Hsig Hfail Himg G dry Hlive fuel patience);
    [by apply new_worker_inv|]|].
  - destruct Hc as [(Ho & Hso & Hsl & Hf)|[? _]]; [left|by right]. split_and!; [done..|by eapply hl_start|].
    etrans; [|exact Hf]. unfold bound, enough. rewrite new_worker_potential.
    pose proof (sl_bound _ _ Hsl (n_waits (new_worker opt can h p b))). lia.
  - intros _ w' [Hi Hend]. split_and!; [apply (in_proc Hi)|apply (in_depth Hi)|]. intros Hrun.
    destruct (hashed_all opt E ok patience p lines w' Hi) as (? & Hall & ?).
    { destruct (decide (bytes_hashed w' < zlen image)) as [Hlt|]; [|lia]. rewrite (Hend Hlt) in Hrun. done. }
    split_and!; [done..|]. intros Hp Hpos. eapply ProgressBar.shows_complete; [done|]. rewrite <-Hall at 2. by apply (in_bar Hi).
Qed.

(** C26: blksum hashes the whole image and ends.  For every image, read size and
    queue depth, with a source that tells the truth about zero extents and completes
    reads in any order, and a hash that keeps its laws and completes updates in any
    order: if nothing fails, the loop of [process_image] ends within a bound that
    depends on the size of the image, no assertion on the commands in flight fails, no
    buffer is overrun or used while an update owns it, the hash stands for exactly
    the image, and the progress bar, if it was asked for, showed growing percentages
    up to 100. *)
Theorem process_image_total {H : Type} `{HA : !Hasher H, OUT : !Outside, OS : !Os} (opt : worker_options) (debug : bool)
    (ok : Prop) (patience : nat) `{HL : !HasherLaws H (λ _, False) ok (queue_depth opt) patience}
    (can : bool) (h : H) (p : proc) (b : ProgressBar.progress) (G : nat) (dry : nat → nat) (fuel : nat) :
  options_ok opt → zlen image < 2 ^ 63 → source_truthful → ok → source_ok → source_live G dry →
  calm_os → is_running p = true → hrep [] [] false h → buffers_ok opt h → (enough patience G ≤ fuel)%nat →
  let bar := ProgressBar.Progress (zlen image) 0 (-1) (ProgressBar.out b) in
  ∃ w', process_image opt debug fuel (new_worker opt can h p bar) = Ret (Some tt) w' ∧
    hrep image [] false (w_hash w') ∧ bytes_hashed w' = zlen image ∧ src_inflight w' = [] ∧
    bar_complete opt (ProgressBar.out b) (w_bar w').
Proof.
  intros Hopt Himg Hsrc Ho Hso Hsl Hcalm Hrun Hr Hb Hf bar.
  assert (signals_ok) as Hsig by (intros n signum Hn; by rewrite (proj1 Hcalm n) in Hn).
  pose proof (process_image_new opt debug (λ _, False) (λ _, False) ok patience can h p bar (ProgressBar.out b) G dry fuel
    Hopt Himg Hsrc Hsig Hr Hb (λ _, ProgressBar.shows_start _ b) (or_introl (conj Ho (conj Hso (conj Hsl Hf))))) as Hw.
  unfold wpt, joined, wpc in Hw. destruct (process_image _ _ _ _) as [[[]|] w'|k]; [|done..]. destruct Hw as (Hl & _ & Hw).
  exists w'. split; [done|]. apply Hw. by rewrite (lt_calm _ _ Hl Hcalm).
Qed.

(** C27: blksum never stops silently with a wrong result.  Whatever fails (the hash
    refuses a call, a read or an update completes with an error, polling fails) and
    however long events take: the loop fails no assertion and overruns no buffer; it
    keeps waiting, or it ends the thread, after the program was told to stop and with all
    commands in the queues, or it returns, and when it returns and the program was not
    told to stop, the hash stands for the whole image and nothing is in flight. *)
Theorem process_image_safe {H : Type} `{HA : !Hasher H, OUT : !Outside, OS : !Os} (opt : worker_options) (debug : bool)
    (ok : Prop) (patience : nat)
    `{HL : !HasherLaws H (λ k, k = CNoFuel) ok (queue_depth opt) patience}
    (can : bool) (h : H) (p : proc) (b : ProgressBar.progress) (fuel : nat) :
  options_ok opt → zlen image < 2 ^ 63 → source_truthful → signals_ok → hrep [] [] false h → buffers_ok opt h →
  let bar := ProgressBar.Progress (zlen image) 0 (-1) (ProgressBar.out b) in
  match process_image opt debug fuel (new_worker opt can h p bar) with
  | Crash k => k = CNoFuel
  | Ret None w' => is_running (w_proc w') = false ∧ zlen (read_queue w' ++ hash_queue w') = queue_depth opt
  | Ret (Some _) w' => is_running (w_proc w') = true → hrep image [] false (w_hash w') ∧ src_inflight w' = []
  end.
Proof.
  intros Hopt Himg Hsrc Hsig Hr Hb bar.
  pose proof (process_image_new opt debug (λ k, k = CNoFuel) (abandoned opt p) ok patience can h p bar (ProgressBar.out b)
    0 (λ _, 0%nat) fuel Hopt Himg Hsrc Hsig Hr Hb (λ _, ProgressBar.shows_start _ b) (or_intror (conj eq_refl (λ w Hw, Hw)))) as Hw.
  unfold wpt, joined, wpc in Hw. destruct (process_image _ _ _ _) as [[[]|] w'|k]; [| |done].
  - destruct Hw as (_ & _ & Hw). intros Hrun. by destruct (Hw Hrun) as (? & _ & ? & _).
  - by destruct Hw.
Qed.

(** ** A concrete image *)

Module Sample.
Import State Digest Blkhash PoolInv Progress Spec Init Session Reach Account Poll Client AioHash Demo.Demo.

(** The image of [Src.sample_image], behind a server that completes all reads in flight,
    in reverse order, two scheduling points after they were sent. *)
#[export] Instance outside : Outside := {|
  image := sample_image;
  kind := SrcNbd;
  status _ off len := if off =? 0 then sample_status else BlockStatus 1 [];
  accepts _ := true;
  kernel_pread _ _ n off := IoData (slice sample_image off n);
  direction _ := LIBNBD_AIO_DIRECTION_READ;
  wakes _ _ := Some 2%nat;
  revents _ := POLLIN;
  notified _ l := (0, (λ id, (id, 0)) <$> reverse l);
  hangup _ := false;
  retries := 0;
  loops := 300 * 100;
|}.

#[export] Instance os : Os := {|
  os_stdin := [];
  os_chunk _ := ChunkBytes 1;
  os_signal _ := None;
  os_alloc _ := 0;
|}.

Definition opt : worker_options := WorkerOptions 3 4 16 true.

(** The zeroed static variable. *)
Definition no_bar : ProgressBar.progress := ProgressBar.Progress 0 0 0 [].
Definition new_bar : ProgressBar.progress := ProgressBar.Progress 16 0 (-1) [].

Definition buffers : gmap nat (list byte) := list_to_map ((λ i, (i, zeros 3)) <$> seq 0 4).
Definition hash : world := state_of (blkhash_init (EV := env) aio_opts) (fresh_world buffers).

Lemma opt_ok : options_ok opt.
Proof. split; simpl; lia. Qed.

Lemma truthful : source_truthful.
Proof.
  split.
  - intros t off len Ho Hl Hin. simpl. destruct (off =? 0) eqn:E; [|by constructor].
    apply Z.eqb_eq in E as ->. repeat constructor; try (vm_compute; congruence); vm_compute; intros; congruence.
  - intros t n k off Hn Ho Hl. simpl. exists k. split; [lia|done].
Qed.

Lemma fine : source_ok.
Proof.
  split; simpl; try done.
  - intros t. split; [intros n k off ? ? ?; right; exists k; split; [lia|done]|].
    exists (λ _, 0%nat). split_and!; try done; lia.
  - intros t l. split; [done|]. apply Forall_fmap, Forall_true. done.
Qed.

Lemma events_come : source_live 0 (λ _, 0%nat).
Proof.
  split; [done| |done]. intros t [|x l] Hne; [done|]. left. exists (x, 0). split; [|by left]. simpl.
  apply list_elem_of_fmap. exists x. split; [done|]. apply elem_of_reverse. by left.
Qed.

Lemma loops_enough : (enough (S (spins (Env := env))) 0 ≤ loops)%nat.
Proof. apply Nat.leb_le. vm_compute. reflexivity. Qed.

Lemma sample_os_calm : calm_os.
Proof. split_and!; [done| |done]. intros n. by exists 1. Qed.

Lemma no_signals : signals_ok.
Proof. by intros n. Qed.

Lemma live : live_env (EV := env) (D := Toy.digest) (config_for aio_opts).
Proof. apply live_opts; vm_compute; congruence. Qed.

Lemma hash_new : represents (EV := env) (config_for aio_opts) [] [] false hash.
Proof. apply (init_represents (EV := env) aio_opts buffers hash aio_opts_valid). vm_compute. reflexivity. Qed.

Lemma hash_buffers (bad : crash → Prop) (Hnf : bad CNoFuel ∨ live_env (EV := env) (D := Toy.digest) (config_for aio_opts)) :
  buffers_ok (HL := library_laws (EV := env) bad (config_for aio_opts) Hnf eq_refl) opt hash.
Proof.
  intros id Hid. exists (zeros 3). split; [|done]. assert (id < 4)%nat as Hlt by exact Hid.
  destruct id as [|[|[|[|id]]]]; [vm_compute; reflexivity..|lia].
Qed.
End Sample.

Import Sample.

Lemma process_image_total_witness :
  ∃ w', process_image (HA := AioHash.library (EV := Demo.Demo.env)) opt false loops (new_worker opt true hash new_proc new_bar) =
      Ret (Some tt) w' ∧
    AioHash.represents (EV := Demo.Demo.env) (Init.config_for Demo.Demo.aio_opts) sample_image [] false (w_hash w') ∧
    bytes_hashed w' = 16 ∧ src_inflight w' = [] ∧ bar_complete opt [] (w_bar w').
Proof.
  pose proof (process_image_total (HL := AioHash.library_laws (EV := Demo.Demo.env) (λ _, False)
    (Init.config_for Demo.Demo.aio_opts) (or_intror live) eq_refl) opt false _ _ true hash new_proc no_bar 0 (λ _, 0%nat) loops) as Hx.
  specialize (Hx opt_ok ltac:(vm_compute; reflexivity) truthful live fine events_come sample_os_calm eq_refl).
  specialize (Hx hash_new). specialize (Hx (hash_buffers _ _) loops_enough).
  exact Hx.
Defined.

Lemma process_image_safe_witness :
  match process_image (HA := AioHash.library (EV := Demo.Demo.env)) opt false 20 (new_worker opt false hash new_proc new_bar) with
  | Crash k => k = CNoFuel
  | Ret None w' => is_running (w_proc w') = false ∧ zlen (read_queue w' ++ hash_queue w') = 4
  | Ret (Some _) w' => is_running (w_proc w') = true →
      AioHash.represents (EV := Demo.Demo.env) (Init.config_for Demo.Demo.aio_opts) sample_image [] false (w_hash w') ∧
      src_inflight w' = []
  end.
Proof.
  pose proof (process_image_safe (HL := AioHash.library_laws (EV := Demo.Demo.env) (λ k, k = CNoFuel)
    (Init.config_for Demo.Demo.aio_opts) (or_intror live) eq_refl) opt false _ _ false hash new_proc no_bar 20) as Hx.
  specialize (Hx opt_ok ltac:(vm_compute; reflexivity) truthful no_signals). specialize (Hx hash_new).
  specialize (Hx (hash_buffers _ _)). exact Hx.
Defined.

(** The progress bar of the run. *)
Example sample_bar :
  match process_image (HA := AioHash.library (EV := Demo.Demo.env)) opt false loops (new_worker opt true hash new_proc new_bar) with
  | Ret _ w' => ProgressBar.out (w_bar w') = ProgressBar.frame <$> [50; 68; 87; 100]
  | Crash _ => False
  end.
Proof. vm_compute. reflexivity. Qed.
