(* ===== verification/Checksum.v ===== *)
(** * The sync checksum of blksum (bin/checksum.c)

    [checksum] reads the standard input in pieces of the read size, passes each to
    [blkhash_update], and asks for the digest.  The state is that of the process
    ([Process]) beside that of the library; the buffer is block 0 of the user's
    memory. *)

From stdpp Require Import prelude list strings gmap.
From Stdlib Require Import ZArith Lia.
From S2P Require Import Prelude Ring State Digest Zero Event Completion Submission Config HashPool.
From S2P Require Import Blkhash Src Process.
From S2P Require Cli.

Local Open Scope Z_scope.

Section checksum.
Context {D : Type} `{DO : !DigestOps D, EV : !Env, OS : !Os}.

Record program := Program { pr_proc : proc; pr_lib : world D }.
Abbreviation MC := (M program).

Definition proc_op {A} (m : M proc A) : MC A := zoom pr_proc (λ p c, Program p (pr_lib c)) m.
Definition lib_op {A} (m : M (world D) A) : MC A := zoom pr_lib (λ w c, Program (pr_proc c) w) m.

(** [malloc] of the buffer: nothing reads it before it is written. *)
Definition set_buffer (data : list byte) : MC unit :=
  lib_op (modify (λ w, World (with_mem (<[0%nat := data]> (mem (sh w))) (sh w)) (hs w))).

(** [memcpy] to the start of the buffer *)
Definition fill_buffer (data : list byte) : MC unit :=
  w ← lib_op get;
  old ← derefM (mem (sh w) !! 0%nat);
  (if zlen old <? zlen data then crashM CMemory else mret tt);;
  set_buffer (data ++ zdrop (zlen data) old).

(** The loop over [src_read] and [blkhash_update]: the error of the last update. *)
Fixpoint checksum_loop (debug : bool) (fuel : nat) (read_size : Z) : MC Z :=
  r ← proc_op running;
  if negb r then mret 0
  else
    match fuel with
    | O => crashM CNoFuel
    | S fuel' =>
        data ← proc_op (src_read debug read_size);
        fill_buffer data;;
        let count := zlen data in
        if count =? 0 then mret 0
        else
          err ← lib_op (blkhash_update (DUser 0 0) count);
          if fails err then mret err else checksum_loop debug fuel' read_size
    end.

(** The options of the hash, converted to the types of the library; [None] if it refused
    one. *)
Definition checksum_opts (opt : Cli.options) (ho : blkhash_opts) : option blkhash_opts :=
  let '(rc, ho) := blkhash_opts_set_block_size ho (u32 (Cli.block_size opt)) in
  if fails rc then None
  else
    let '(rc, ho) := blkhash_opts_set_threads ho (u8 (Cli.threads opt)) in
    if fails rc then None else Some ho.

(** The digest, if one was stored.  The loop reads a byte in every iteration but
    the last. *)
Definition checksum (debug : bool) (opt : Cli.options) : MC (option (list byte)) :=
  err ← proc_op allocate;
  if fails err then proc_op (fail_main debug)
  else
    set_buffer (zeros (Cli.read_size opt));;
    err ← proc_op allocate;
    match (blkhash_opts_new err (Some (Cli.digest_name opt))).2 with
    | None => proc_op (fail_main debug)
    | Some ho =>
        match checksum_opts opt ho with
        | None => proc_op (fail_main debug)
        | Some ho =>
            err ← lib_op (blkhash_new_opts ho);
            proc_op release;; (* blkhash_opts_free *)
            if fails err then proc_op (fail_main debug)
            else
              err ← checksum_loop debug (S (length os_stdin)) (Cli.read_size opt);
              '(err, md) ←
                (if fails err then mret (err, None)
                 else
                   r ← proc_op running;
                   if r : bool then
                     '(err, md) ← lib_op blkhash_final;
                     mret (err, if fails err then None else Some md)
                   else mret (0, None));
              lib_op blkhash_free;;
              proc_op release;; (* free(buf) *)
              if fails err then crashM CExit else mret md
        end
    end.

(** [main] without a file name, after [parse_options]. *)
Definition main_stdin (debug : bool) (opt : Cli.options) : MC ending :=
  proc_op (open_pipe debug);;
  md ← checksum debug opt;
  proc_op pipe_ops_close;;
  proc_op (finish_main md "-").
End checksum.

(** Steps over a computation of the program. *)
Ltac prog_step :=
  lazymatch goal with
  | |- wpc _ (proc_op _) _ _ => apply wpc_zoom; cbn [pr_proc pr_lib]
  | |- wpc _ (lib_op _) _ _ => apply wpc_zoom; cbn [pr_proc pr_lib]
  | |- _ => wpc_step
  end; cbv beta.
