(* ===== verification/ChecksumTheorems.v ===== *)
(** * blksum of the standard input

    Whatever the operating system and the scheduler do, blksum prints a digest of
    its standard input only if it is the right one; and it does print it if nothing
    fails and nobody interrupts it. *)

From stdpp Require Import prelude list strings gmap.
From Stdlib Require Import ZArith Lia.
From S2P Require Import Prelude Ring State Digest Zero Event Completion Submission Config HashPool.
From S2P Require Import Blkhash PoolInv PoolStep Progress Spec PoolCaller PoolAio BlkhashInv BlkhashOps.
From S2P Require Import BlkhashUpdate Api ApiAio Init Session Reach Free Account AccountApi Client.
From S2P Require Import Theorems Src Process Checksum Demo.
From S2P Require Cli.

Local Open Scope Z_scope.

Section checksum.
Context {D : Type} `{DO : !DigestOps D, DL : !DigestLaws D, EV : !Env, OS : !Os}.
Context (o : blkhash_opts) (Hv : valid_opts o) (Hsig : signals_ok) (Hmax : zlen os_stdin < 2 ^ 64).
Local Abbreviation c := (config_for (D := D) o).
Local Abbreviation calm_lib := (calm (D := D) (o_digest_name o)).
Implicit Types (w : world D) (p : proc) (msg : list byte).
#[local] Existing Instance any_buffer.

(** A hash that is being fed. *)
Record fed msg w : Prop := {
  fd_api : api c False msg w;
  fd_account : account [] False w;
  fd_inflight : inflight (hs w) = 0;
  fd_final : finalized (hs w) = false;
}.

(** It is fed from a buffer of [size] bytes. *)
Record feeding (size : Z) msg w : Prop := {
  fd_fed : fed msg w;
  fd_buf : ∃ b, mem (sh w) !! 0%nat = Some b ∧ zlen b = size;
}.

Context (bad : crash → Prop).
Context (Hnf : bad CNoFuel ∨ live_env (D := D) c).

Lemma feed_update size msg w data :
  feeding size msg w → data_at (mem (sh w)) (DUser 0 0) (zlen data) = Some data →
  zlen data < 2 ^ 64 → zlen msg + zlen data < 2 ^ 64 →
  wp (bad CNoFuel) (blkhash_update (DUser 0 0) (zlen data)) (λ rc w',
    (rc = 0 → feeding size (msg ++ data) w') ∧ (rc ≠ 0 → calm_lib → False)) w.
Proof.
  intros [[Ha [CL [Ht Hin]] Hi Hf] Hb] Hd Hl Hm. pose proof (zlen_nonneg data).
  eapply wp_mono; [apply wp_pc; [by apply (blkhash_update_inv (bad CNoFuel) c Hnf False msg w (DUser 0 0) (zlen data) data); auto|
    by apply (wstat_blkhash_update (DUser 0 0) (zlen data) 0 [] False w)]|].
  intros rc w' [(Hk & H0 & Hne) (Ht' & Hy & _)]. destruct Hk as [Hks Hfin]. split.
  - intros Hrc. split; [|by rewrite (ks_mem _ _ Hks)]. split; [auto| |by rewrite (wy_inflight _ _ Hy)|by rewrite Hfin].
    exists CL. split; [done|]. intros _. by rewrite (wy_inflight _ _ Hy).
  - intros Hrc. apply (failed_not_calm c None w'). auto.
Qed.

Lemma feed_zero size msg w len :
  feeding size msg w → 0 <= len < 2 ^ 64 → zlen msg + len < 2 ^ 64 →
  wp (bad CNoFuel) (blkhash_zero len) (λ rc w',
    (rc = 0 → feeding size (msg ++ zeros len) w') ∧ (rc ≠ 0 → calm_lib → False)) w.
Proof.
  intros [[Ha [CL [Ht Hin]] Hi Hf] Hb] Hl Hm.
  eapply wp_mono; [apply wp_pc; [apply (blkhash_zero_inv (bad CNoFuel) c Hnf False msg w len Ha Hl); by right|
    by apply (wstat_blkhash_zero len 0 [] False w)]|].
  intros rc w' [(Hk & H0 & Hne) (Ht' & Hy & _)]. destruct Hk as [Hks Hfin]. split.
  - intros Hrc. split; [|by rewrite (ks_mem _ _ Hks)]. split; [auto| |by rewrite (wy_inflight _ _ Hy)|by rewrite Hfin].
    exists CL. split; [done|]. intros _. by rewrite (wy_inflight _ _ Hy).
  - intros Hrc. apply (failed_not_calm c None w'). auto.
Qed.

(** ** The loop *)

Lemma set_buffer_ok msg data p w (Q : unit → program → Prop) :
  fed msg w →
  (∀ w', feeding (zlen data) msg w' → mem (sh w') = <[0%nat := data]> (mem (sh w)) → Q tt (Program p w')) →
  wpc bad (set_buffer data) Q (Program p w).
Proof.
  intros [Ha Ht Hi Hf] HQ. unfold set_buffer. do 2 prog_step. simpl. apply HQ; [|done]. split; [split; simpl; try done|].
  - apply api_mem; [done|]. by eapply api_idle.
  - eapply account_aside; [done|]. intros CL n []. by split.
  - exists data. split; [apply lookup_insert_eq|done].
Qed.

Lemma fill_buffer_ok size msg data p w (Q : unit → program → Prop) :
  feeding size msg w → zlen data <= size →
  (∀ w', feeding size msg w' → data_at (mem (sh w')) (DUser 0 0) (zlen data) = Some data → Q tt (Program p w')) →
  wpc bad (fill_buffer data) Q (Program p w).
Proof.
  intros [Hw (b & Hb & Hbl)] Hl HQ. unfold fill_buffer. do 3 prog_step. prog_step. eapply wpc_derefM; [exact Hb|].
  wpc_step. destruct (zlen b <? zlen data) eqn:E; [lia|]. wpc_step. pose proof (zlen_nonneg data).
  apply (set_buffer_ok msg); [done|]. intros w' Hw' Hm. rewrite zlen_app, zlen_zdrop in Hw' by lia.
  replace (zlen data + (zlen b - zlen data)) with size in Hw' by lia. apply HQ; [done|].
  simpl. rewrite Hm, lookup_insert_eq. simpl. rewrite zlen_app, zlen_zdrop by lia.
  rewrite (proj2 (Z.ltb_ge _ _)) by lia. f_equal. change (ztake (zlen data) (data ++ zdrop (zlen data) b) = data).
  by rewrite ztake_app_le, ztake_all by lia.
Qed.

Context (Hex : ((calm_os ∧ calm_lib) → False) → ∀ k, bad k).

Lemma ztake_slice_app n (l d : list byte) :
  0 <= n → d = slice l n (zlen d) → n + zlen d <= zlen l → ztake n l ++ d = ztake (n + zlen d) l.
Proof.
  intros Hn Hd Hl. pose proof (zlen_nonneg d). rewrite Hd at 1. unfold slice, ztake, zdrop.
  rewrite Z2Nat.inj_add by lia. apply take_take_drop.
Qed.

Lemma checksum_loop_ok debug fuel size p w :
  0 < size < 2 ^ 64 → 0 <= p_pos p <= zlen os_stdin → feeding size (ztake (p_pos p) os_stdin) w →
  (Z.to_nat (zlen os_stdin - p_pos p) < fuel)%nat →
  wpc bad (checksum_loop debug fuel size) (λ err c', later p (pr_proc c') ∧
    (err = 0 → feeding size (ztake (p_pos (pr_proc c')) os_stdin) (pr_lib c') ∧
      (p_pos (pr_proc c') = zlen os_stdin ∨ is_running (pr_proc c') = false)) ∧
    (err ≠ 0 → calm_lib → False)) (Program p w).
Proof.
  intros Hs. revert p w. induction fuel as [|fuel IH]; intros p w Hp Hw Hf; [lia|]. simpl.
  do 2 prog_step. apply wpc_wp. eapply wp_mono; [by apply running_ok|]. intros b p1 (Hl1 & Hp1 & Hb). simpl.
  destruct b; simpl; [|prog_step; split_and!; [done| |done]].
  2:{ intros _. simpl. rewrite Hp1. auto. }
  do 2 prog_step. simpl. eapply wpc_mono.
  { apply src_read_ok; [done| |lia|lia]. intros n e He. apply Hex. intros [(_ & Hc & _) _].
    destruct (Hc n) as [k Hk]. congruence. }
  intros d p2 [Hl2 [Hg1 Hg2 Hg3 Hg4 Hg5]]. pose proof (zlen_nonneg d). simpl. prog_step.
  eapply (fill_buffer_ok size (ztake (p_pos p) os_stdin)); [done|done|]. intros w2 Hw2 Hd.
  assert (later p p2) as Hl by (by etrans). rewrite Hp1 in *.
  destruct (zlen d =? 0) eqn:E0.
  { prog_step. split_and!; [done| |done]. intros _. simpl. replace (p_pos p2) with (p_pos p) by lia.
    split; [done|]. destruct Hg5 as [?|[?|?]]; [lia|left; lia|by right]. }
  do 2 prog_step. apply wpc_wp. simpl. eapply wp_mono; [apply (feed_update size _ w2 d Hw2 Hd)|].
  { lia. } { rewrite zlen_ztake; lia. }
  intros rc w3 [H0 Hne]. unfold fails. destruct (rc =? 0) eqn:Er; simpl.
  - rewrite ztake_slice_app in H0 by (try done; lia). rewrite <-Hg2 in H0.
    eapply wpc_mono; [apply IH; [lia|apply H0; lia|lia]|]. intros err [p4 w4] (Hl4 & H4 & Hne4). simpl in *.
    split_and!; [by etrans|done|done].
  - prog_step. split_and!; [done|lia|]. intros _. apply Hne. lia.
Qed.

(** ** Creating and freeing the hash *)

Lemma new_opts_ok m (Q : Z → world D → Prop) :
  (∀ w, fed [] w → mem (sh w) = m → Q 0 w) →
  (∀ rc w, rc ≠ 0 → (calm_lib → False) → Q rc w) →
  wpc bad (blkhash_new_opts o) Q (fresh_world m).
Proof.
  intros H0 Hne. pose proof (blkhash_new_opts_inv_at 0 o m Hv) as Hx. unfold wpx in Hx. unfold wpc.
  change (fresh_world m) with (World (with_n_fault 0 (sh (fresh_world (D := D) m))) (hs (fresh_world (D := D) m))).
  destruct (blkhash_new_opts o _) as [rc w|k].
  - destruct Hx as [Hx0 Hx1]. destruct (decide (rc = 0)) as [->|Hrc]; [|auto].
    destruct (Hx0 eq_refl) as [Ha Hb]. pose proof (newborn_account o m w Hv Hb) as Ht.
    destruct Hb. apply H0; [by split|done].
  - apply Hex. intros [_ Hc]. by apply Hx.
Qed.

Lemma free_any w (Q : unit → world D → Prop) :
  ((calm_os ∧ calm_lib) → False) → (∀ w', Q tt w') → wpc bad blkhash_free Q w.
Proof. intros Hc HQ. apply wpc_any; [by apply Hex|]. by intros []. Qed.

(** The digest, if the program was not told to stop. *)
Lemma final_ok size msg w :
  feeding size msg w →
  wp (bad CNoFuel) blkhash_final (λ r w',
    (r.1 = 0 → r.2 = digest_of o msg ∧ account [] False w' ∧ core c None [] [] w') ∧
    (r.1 ≠ 0 → calm_lib → False)) w.
Proof.
  intros [[Ha Ht Hi Hf] Hb].
  eapply wp_mono; [apply wp_pc; [by apply (blkhash_final_full (bad CNoFuel) c Hnf False msg w)|
    apply (wkeep_account _ [] False w (λ CL, wkeep_blkhash_final) Ht)]|].
  intros r w' [(_ & _ & _ & _ & H0 & Hne) [Ht' _]]. split; [|done]. intros Hr.
  destruct (H0 Hr) as [[[]|Hd] Hk]. by split_and!.
Qed.

(** ** The whole of checksum() *)

(** A call of [fail()] on a path that needs a failure. *)
Lemma fail_any {A} debug (Q : A → program → Prop) p w :
  ((calm_os ∧ calm_lib) → False) → wpc bad (proc_op (fail_main debug)) Q (Program p w).
Proof. intros Hc. prog_step. apply fail_main_exits; [done|]. by apply Hex. Qed.
End checksum.

Section main.
Context {D : Type} `{DO : !DigestOps D, DL : !DigestLaws D, EV : !Env, OS : !Os}.
Context (opt : Cli.options) (debug : bool).

(** The options of the hash that [checksum] creates. *)
Definition hash_opts : blkhash_opts :=
  Opts (Cli.digest_name opt) (Cli.block_size opt) 0 (Cli.threads opt).

(** Options that [parse_options] and the library accept. *)
Record stdin_options : Prop := {
  so_hash : valid_opts hash_opts;
  so_even : Cli.block_size opt mod 2 = 0;
  so_read : 0 < Cli.read_size opt < 2 ^ 64;
}.

Context (Ho : stdin_options) (Hsig : signals_ok) (Hmax : zlen os_stdin < 2 ^ 64).
Context (bad : crash → Prop).
Context (Hnf : bad CNoFuel ∨ live_env (D := D) (config_for hash_opts)).
Local Abbreviation calm_lib := (calm (D := D) (Cli.digest_name opt)).
Context (Hex : ((calm_os ∧ calm_lib) → False) → ∀ k, bad k).

Lemma opts_new_ok err name :
  (blkhash_opts_new err (Some name)).2 =
  if fails err then None
  else Some (Opts name (o_block_size default_opts) (o_queue_depth default_opts) (o_threads default_opts)).
Proof using Type. unfold blkhash_opts_new. by destruct (fails err). Qed.

Lemma checksum_opts_ok :
  checksum_opts opt (Opts (Cli.digest_name opt) (o_block_size default_opts) (o_queue_depth default_opts)
    (o_threads default_opts)) = Some hash_opts.
Proof using Ho.
  destruct Ho as [[Hb Ht Hd] He Hr]. simpl in *. unfold checksum_opts, blkhash_opts_set_block_size, blkhash_opts_set_threads.
  unfold MAX_THREADS in Ht. rewrite (u32_small (Cli.block_size opt)), (u8_small (Cli.threads opt)) by lia.
  rewrite He. simpl. rewrite !(proj2 (Z.ltb_ge _ _)) by (unfold MAX_THREADS; lia). done.
Qed.

(** The digest is stored and right and the hash was freed, or the program was told to
    stop. *)
Definition checked (blocks files : Z) (md : option (list byte)) (c' : program (D := D)) : Prop :=
  p_blocks (pr_proc c') = blocks ∧ p_files (pr_proc c') = files ∧ (calm_os → calm_lib → is_Some md ∧ is_running (pr_proc c') = true) ∧
  match md with
  | Some d => d = digest_of (D := D) hash_opts os_stdin ∧ returned hash_opts (pr_lib c')
  | None => is_running (pr_proc c') = false
  end.

(** The end of [checksum] when there is no digest. *)
Lemma checksum_stop (err : bool) p w :
  0 < p_blocks p → ((calm_os ∧ calm_lib) → False) → (err = false → is_running p = false) →
  wpc bad (lib_op blkhash_free;; proc_op release;; if err then crashM CExit else mret None)
    (checked (p_blocks p - 1) (p_files p)) (Program p w).
Proof using All.
  intros Hb Hc He. pose proof (so_hash Ho) as Hv. do 2 prog_step. eapply (free_any hash_opts); [done..|]. intros w2.
  do 2 prog_step. apply release_ok; [done|]. intros p2 _ Hr2 Hb2 Hf2.
  destruct err; [apply wpc_crash; by apply Hex|].
  prog_step. split_and!; simpl; [lia|done|intros; by destruct Hc|]. rewrite Hr2. by apply He.
Qed.

(** After the loop: the digest, and the end of the hash and of the buffer. *)
Lemma checksum_end (err : Z) p w :
  0 < p_blocks p →
  (err = 0 → feeding hash_opts (Cli.read_size opt) (ztake (p_pos p) os_stdin) w ∧
    (p_pos p = zlen os_stdin ∨ is_running p = false)) →
  (err ≠ 0 → calm_lib → False) → (calm_os → is_running p = true) →
  wpc bad
    ('(err, md) ←
       (if fails err then mret (err, None)
        else
          r ← proc_op running;
          if r : bool then
            '(err, md) ← lib_op blkhash_final; mret (err, if fails err then None else Some md)
          else mret (0, None));
     lib_op blkhash_free;;
     proc_op release;;
     if fails err then crashM CExit else mret md)
    (checked (p_blocks p - 1) (p_files p)) (Program p w).
Proof using All.
  intros Hblk H0 Hne Hrun. pose proof (so_hash Ho) as Hv. prog_step. unfold fails at 1.
  destruct (err =? 0) eqn:E; simpl.
  2:{ prog_step. unfold fails. rewrite E. apply (checksum_stop true p w); [done| |done]. intros [_ Hc]. apply Hne; [lia|done]. }
  destruct (H0 ltac:(lia)) as [Hw Hpos]. clear H0 Hne. do 2 prog_step. apply wpc_wp.
  eapply wp_mono; [by apply running_ok|]. intros b p1 (Hl & Hp1 & Hb). simpl. pose proof (lt_blocks _ _ Hl) as Hbk. pose proof (lt_files _ _ Hl) as Hfk.
  destruct b.
  2:{ prog_step. rewrite <-Hbk, <-Hfk. apply (checksum_stop false p1 w); [lia| |done]. intros [Hc _].
      pose proof (lt_calm _ _ Hl Hc) as Hr. rewrite (Hrun Hc) in Hr. congruence. }
  assert (p_pos p = zlen os_stdin) as Hend.
  { destruct Hpos as [?|Hst]; [done|]. rewrite (later_stopped _ _ Hl Hst) in Hb. done. }
  rewrite Hend, ztake_all in Hw by lia. do 2 prog_step. apply wpc_wp.
  eapply wp_mono; [by eapply (final_ok hash_opts)|]. intros [e md] w1 [H0 Hne]. simpl in *. prog_step.
  unfold fails at 1. destruct (e =? 0) eqn:Ee; simpl.
  2:{ rewrite <-Hbk, <-Hfk. apply (checksum_stop true p1 w1); [lia| |done]. intros [_ Hc]. apply Hne; [lia|done]. }
  destruct (H0 ltac:(lia)) as (Hmd & [CL [Ht _]] & Hk). do 2 prog_step. apply wpc_wp.
  eapply wp_mono; [by eapply (free_returned _ hash_opts)|]. intros [] w2 Hw2. do 2 prog_step.
  apply release_ok; [lia|]. intros p2 _ Hr2 Hb2 Hf2. unfold fails. rewrite Ee. simpl. prog_step.
  split_and!; simpl; [lia|congruence|by rewrite Hr2|done|done].
Qed.

Lemma checksum_ok p m :
  p_pos p = 0 → is_running p = true → 0 <= p_blocks p →
  wpc bad (checksum (D := D) debug opt) (checked (p_blocks p) (p_files p)) (Program p (fresh_world m)).
Proof using All.
  intros Hp Hrun Hblk. pose proof (so_hash Ho) as Hv. pose proof (so_read Ho) as Hrs.
  unfold checksum. do 2 prog_step. apply wpc_wp. eapply wp_mono; [by apply allocate_ok|].
  intros err p1 (Hp1 & Hr1 & Hf1 & Hb1 & Hc1). unfold fails at 1. destruct (err =? 0) eqn:E1; cbn [negb].
  2:{ eapply (fail_any hash_opts); [done..|]. intros [Hc _]. apply Hc1; [lia|done]. }
  unfold set_buffer. do 3 prog_step. do 2 prog_step. apply wpc_wp. eapply wp_mono; [by apply allocate_ok|].
  intros err2 p2 (Hp2 & Hr2 & Hf2 & Hb2 & Hc2). rewrite opts_new_ok. unfold fails at 1. destruct (err2 =? 0) eqn:E2; cbn [negb].
  2:{ eapply (fail_any hash_opts); [done..|]. intros [Hc _]. apply Hc2; [lia|done]. }
  rewrite checksum_opts_ok. do 2 prog_step.
  eapply (new_opts_ok hash_opts Hv bad Hex (<[0%nat := zeros (Cli.read_size opt)]> m)).
  2:{ intros rc w Hrc Hc. do 2 prog_step. apply release_ok; [lia|]. intros p3 _ _ _ _. unfold fails.
      destruct (rc =? 0) eqn:E; [lia|]. simpl. eapply (fail_any hash_opts); [done..|]. intros [_ ?]. by apply Hc. }
  intros w Hfed Hmem. assert (feeding hash_opts (Cli.read_size opt) [] w) as Hw.
  { split; [done|]. exists (zeros (Cli.read_size opt)). rewrite Hmem. split; [apply lookup_insert_eq|]. apply zlen_zeros. lia. }
  do 2 prog_step. apply release_ok; [lia|]. intros p3 Hp3 Hr3 Hb3 Hf3. change (fails 0) with false. cbv iota. prog_step.
  eapply wpc_mono; [eapply (checksum_loop_ok hash_opts)|]; try done.
  { pose proof (zlen_nonneg os_stdin). lia. }
  { rewrite Hp3, Hp2, Hp1, Hp. done. }
  { rewrite Hp3, Hp2, Hp1, Hp. unfold zlen. lia. }
  intros err4 [p4 w4] (Hl4 & H04 & Hne4). simpl in *. pose proof (lt_blocks _ _ Hl4) as Hb4.
  pose proof (lt_files _ _ Hl4). replace (p_blocks p) with (p_blocks p4 - 1) by lia. replace (p_files p) with (p_files p4) by congruence.
  apply checksum_end; try done; [lia|]. intros Hc. rewrite (lt_calm _ _ Hl4 Hc). congruence.
Qed.

(** ** main() *)

(** The line that blksum prints for a digest. *)
Definition printed (md : list byte) : string := line_of md "-".

Lemma stdin_main_ok m :
  wpc bad (main_stdin (D := D) debug opt) (λ e c',
    (calm_os → calm_lib → ∃ line, e = Printed line) ∧
    (∀ line, e = Printed line →
      line = printed (digest_of (D := D) hash_opts os_stdin) ∧ p_blocks (pr_proc c') = 0 ∧ p_files (pr_proc c') = 0 ∧
      returned hash_opts (pr_lib c')))
    (Program new_proc (fresh_world m)).
Proof using All.
  pose proof (so_hash Ho) as Hv. unfold main_stdin, open_pipe. do 3 prog_step. apply wpc_wp.
  eapply wp_mono; [by apply allocate_ok|]. intros err p1 (Hp1 & Hr1 & Hf1 & Hb1 & Hc1). unfold fails at 1.
  destruct (err =? 0) eqn:E; cbn [negb].
  2:{ apply fail_main_exits; [done|]. apply Hex. intros [Hc _]. apply Hc1; [lia|done]. }
  do 2 prog_step. eapply wpc_mono; [apply checksum_ok; [done|by rewrite Hr1|rewrite Hb1; simpl; lia]|].
  intros md [p2 w2] (Hb2 & Hf2 & Hc2 & Hmd). simpl in *. do 2 prog_step. unfold pipe_ops_close.
  apply release_ok; [lia|]. intros p3 _ Hr3 Hb3 Hf3. prog_step. eapply wpc_mono.
  { apply (finish_main_ok Hsig). intros ->. by rewrite Hr3. }
  intros e p4 (Hb4 & Hf4 & Hp & Hl). split.
  - intros Hc Hcl. apply Hp; [done|]. rewrite Hr3. by apply Hc2.
  - intros line He. destruct (Hl line He) as (d & -> & ->). destruct Hmd as [-> Hret]. split_and!; [done|simpl|simpl|done].
    + rewrite Hb4, Hb3, Hb2, Hb1; [done|lia].
    + by rewrite Hf4, Hf3, Hf2, Hf1.
Qed.
End main.

(** ** Properties *)

(** Blksum prints only the right checksum of its standard input.
    Whatever the threads, the allocations, the signals and the writer of the pipe
    do: if [main] prints a line, it is the hexadecimal block hash of all the bytes
    of the stream, for the block size and digest of the options, and everything the
    program allocated was freed.  Otherwise it exits with an error, is killed by the
    signal that interrupted it, or the hash was freed with blocks in flight. *)
Theorem stdin_checksum_sound {D} `{DO : !DigestOps D, DL : !DigestLaws D, EV : !Env, OS : !Os}
    (opt : Cli.options) (debug : bool) m line (c' : program (D := D)) :
  stdin_options opt → signals_ok → zlen os_stdin < 2 ^ 64 →
  main_stdin debug opt (Program new_proc (fresh_world m)) = Ret (Printed line) c' →
  line = printed (digest_of (D := D) (hash_opts opt) os_stdin) ∧ p_blocks (pr_proc c') = 0.
Proof.
  intros Ho Hs Hmax Hm.
  pose proof (stdin_main_ok opt debug Ho Hs Hmax (λ _, True) (or_introl I) (λ _ _, I) m) as Hw.
  unfold wpc in Hw. rewrite Hm in Hw. destruct Hw as [_ Hw]. by destruct (Hw line eq_refl) as (? & ? & _).
Qed.

(** Blksum computes the checksum of its standard input.  If no system
    call fails, no signal arrives and the worker threads are scheduled fairly, then
    for every stream and every way it is split into reads, [main] ends and prints
    the block hash of the stream. *)
Theorem stdin_checksum_total {D} `{DO : !DigestOps D, DL : !DigestLaws D, EV : !Env, OS : !Os}
    (opt : Cli.options) (debug : bool) m :
  stdin_options opt → calm_os → zlen os_stdin < 2 ^ 64 → live_env (D := D) (config_for (hash_opts opt)) →
  ∃ c', main_stdin debug opt (Program new_proc (fresh_world m)) =
    Ret (Printed (printed (digest_of (D := D) (hash_opts opt) os_stdin))) c'.
Proof.
  intros Ho Hc Hmax Hlive. assert (signals_ok) as Hs by (intros n signum Hn; by rewrite (proj1 Hc n) in Hn).
  pose proof Hlive as [Hcl _].
  pose proof (stdin_main_ok opt debug Ho Hs Hmax (λ _, False) (or_intror Hlive)) as Hw.
  specialize (Hw (λ H _, H (conj Hc Hcl)) m). unfold wpc in Hw.
  destruct (main_stdin _ _ _) as [e c'|k]; [|done]. exists c'. destruct Hw as [H1 H2].
  destruct (H1 Hc Hcl) as [line ->]. by destruct (H2 line eq_refl) as [-> _].
Qed.

(** ** Witnesses *)

Module StdinDemo.
Import Demo.

(** 40 bytes in pieces of 7. *)
#[export] Instance os : Os := {|
  os_stdin := buffer0;
  os_chunk n := ChunkBytes 7;
  os_signal n := None;
  os_alloc n := 0;
|}.

Definition opt : Cli.options :=
  Cli.Options "sha256" 24 16 16 2 (Cli.GiB) "native" false None false 0.

Lemma stdin_opt_ok : stdin_options opt.
Proof. split; [split|..]; vm_compute; try split; congruence. Qed.

Lemma os_calm : calm_os.
Proof. split_and!; [done| |done]. intros n. by exists 7. Qed.
End StdinDemo.

Import StdinDemo.

Definition demo_end : program (D := Toy.digest) :=
  match main_stdin (EV := Demo.env) false opt (Program new_proc (fresh_world ∅)) with
  | Ret _ c' => c'
  | Crash _ => Program new_proc (fresh_world ∅)
  end.

Lemma stdin_checksum_total_witness :
  ∃ c', main_stdin (EV := Demo.env) (D := Toy.digest) false opt (Program new_proc (fresh_world ∅)) =
    Ret (Printed (printed (digest_of (D := Toy.digest) (hash_opts opt) Demo.buffer0))) c'.
Proof.
  apply (stdin_checksum_total (EV := Demo.env) (D := Toy.digest) opt false ∅ stdin_opt_ok os_calm).
  - vm_compute. reflexivity.
  - apply Demo.live_opts; vm_compute; congruence.
Defined.

Lemma stdin_checksum_sound_witness :
  "a19a0236  -"%string = printed (digest_of (D := Toy.digest) (hash_opts opt) os_stdin) ∧
  p_blocks (pr_proc demo_end) = 0.
Proof.
  apply (stdin_checksum_sound (EV := Demo.env) (D := Toy.digest) opt false ∅ "a19a0236  -" demo_end stdin_opt_ok).
  - by intros n.
  - vm_compute. reflexivity.
  - vm_compute. reflexivity.
Defined.

(** A signal arrives while blocks are being hashed: [checksum] skips [blkhash_final]
    and [blkhash_free] frees submissions that the workers still use. *)
Definition interrupted_os : Os := {|
  os_stdin := replicate 200 Byte.x01;
  os_chunk n := ChunkBytes 100;
  os_signal n := if (n =? 2)%nat then Some 15 else None;
  os_alloc n := 0;
|}.

Example stdin_interrupted_uses_freed :
  main_stdin (OS := interrupted_os) (EV := Demo.env) (D := Toy.digest) false
    (Cli.Options "sha256" 96 16 16 2 (Cli.GiB) "native" false None false 0)
    (Program new_proc (fresh_world ∅)) = Crash CMemory.
Proof. vm_compute. reflexivity. Qed.
