(* ===== verification/ExampleSync.v ===== *)
(** * The example of the manual (man/example.c)

    The program creates a hash, passes it a buffer twice and a range of zeros, and prints
    the digest.  [main] and what it does, on top of the library; the sizes are parameters,
    [example_main] has those of the source. *)

From stdpp Require Import prelude list strings gmap.
From Stdlib Require Import ZArith Lia.
From S2P Require Import Prelude Ring State Digest Zero Event Completion Submission Config HashPool.
From S2P Require Import Blkhash PoolInv PoolStep Progress Spec PoolCaller PoolAio BlkhashInv BlkhashOps.
From S2P Require Import BlkhashUpdate Api ApiAio Init Session Reach Free Account AccountApi Client.
From S2P Require Import Process Checksum ChecksumTheorems Demo.
From S2P Require Cli.

Local Open Scope Z_scope.

Definition BUF_SIZE := 2 * 1024 * 1024.

Section example.
Context {D : Type} `{DO : !DigestOps D, EV : !Env, OS : !Os} (buf_size zero_size : Z).
Abbreviation MC := (M (program (D := D))).

(** [memset(buf, c, BUF_SIZE)] and [blkhash_update(h, buf, BUF_SIZE)] *)
Definition update_with (c : byte) : MC Z :=
  fill_buffer (replicate (Z.to_nat buf_size) c);;
  lib_op (blkhash_update (DUser 0 0) buf_size).

(** The calls after [malloc]: the error, and the digest. *)
Definition hash_all : MC (Z * list byte) :=
  err ← update_with Byte.x41;
  if fails err then mret (err, [])
  else
    err ← update_with zero_byte;
    if fails err then mret (err, [])
    else
      err ← lib_op (blkhash_zero zero_size);
      if fails err then mret (err, []) else lib_op blkhash_final.

(** The exit code, and what was printed. *)
Definition main : MC (Z * option (list Ascii.ascii)) :=
  err ← lib_op blkhash_new;
  if fails err then mret (1, None)
  else
    err ← proc_op allocate;
    if fails err then lib_op blkhash_free;; mret (1, None)
    else
      set_buffer (zeros buf_size);;
      '(err, md) ← hash_all;
      lib_op blkhash_free;;
      proc_op release;; (* free(buf) *)
      if fails err then mret (1, None) else mret (0, Some (Cli.format_hex md)).
End example.

Definition example_main {D} `{DO : !DigestOps D, EV : !Env, OS : !Os} : M (program (D := D)) (Z * option (list Ascii.ascii)) :=
  main BUF_SIZE (1024 * 1024 * 1024).

(** ** What it prints *)

Section proofs.
Context {D : Type} `{DO : !DigestOps D, DL : !DigestLaws D, EV : !Env, OS : !Os} (buf_size zero_size : Z).
Context (Hbuf : 0 <= buf_size) (Hzero : 0 <= zero_size) (Hmax : 2 * buf_size + zero_size < 2 ^ 64).
Context (bad : crash → Prop) (Hnf : bad CNoFuel ∨ live_env (D := D) (config_for default_opts)).
Local Abbreviation calm_lib := (calm (D := D) "sha256").
Context (Hex : ((calm_os ∧ calm_lib) → False) → ∀ k, bad k).
Implicit Types (w : world D) (p : proc) (msg : list byte).
#[local] Existing Instance any_buffer.

(** After the digest was asked for. *)
Definition finished_hash w : Prop := account [] False w ∧ core (config_for default_opts) None [] [] w.

(** What it hashes. *)
Definition message : list byte :=
  replicate (Z.to_nat buf_size) Byte.x41 ++ replicate (Z.to_nat buf_size) zero_byte ++ zeros zero_size.

Lemma default_valid : valid_opts default_opts.
Proof using Type. split; vm_compute; split; congruence. Qed.

Lemma zlen_replicate_buf (c : byte) : zlen (replicate (Z.to_nat buf_size) c) = buf_size.
Proof using Hbuf. unfold zlen. rewrite length_replicate. lia. Qed.

Lemma update_with_ok c msg p w :
  feeding default_opts buf_size msg w → zlen msg + buf_size < 2 ^ 64 →
  wpc bad (update_with buf_size c) (λ rc c', pr_proc c' = p ∧
    (rc = 0 → feeding default_opts buf_size (msg ++ replicate (Z.to_nat buf_size) c) (pr_lib c')) ∧
    (rc ≠ 0 → calm_lib → False)) (Program p w).
Proof using Hbuf Hmax Hzero Hnf DL.
  intros Hw Hm. pose proof (zlen_nonneg msg). unfold update_with. prog_step.
  eapply (fill_buffer_ok default_opts); [done|rewrite zlen_replicate_buf; lia|]. intros w1 Hw1 Hd.
  prog_step. apply wpc_wp.
  pose proof (feed_update default_opts bad Hnf buf_size msg w1 (replicate (Z.to_nat buf_size) c) Hw1) as Hf.
  rewrite zlen_replicate_buf in Hf, Hd.
  eapply wp_mono; [apply Hf; [done|lia|lia]|]. intros rc w2 [H0 Hne]. by split_and!.
Qed.

Lemma hash_all_ok p w :
  feeding default_opts buf_size [] w →
  wpc bad (hash_all buf_size zero_size) (λ r c', pr_proc c' = p ∧
    (r.1 = 0 → r.2 = digest_of (D := D) default_opts message ∧ finished_hash (pr_lib c')) ∧
    (r.1 ≠ 0 → calm_lib → False)) (Program p w).
Proof using Hbuf Hzero Hmax Hnf DL.
  intros Hw. unfold hash_all. prog_step. eapply wpc_mono; [apply (update_with_ok _ _ p w Hw); rewrite (zlen_nil (A := byte)); lia|].
  intros rc [p1 w1] (Hp1 & H1 & N1). simpl in *. subst p1. unfold fails. destruct (rc =? 0) eqn:E1; simpl; [|prog_step; split_and!; [done|simpl; lia|intros _; apply N1; lia]].
  prog_step. eapply wpc_mono; [apply (update_with_ok _ _ p w1 (H1 ltac:(lia))); rewrite zlen_replicate_buf; lia|].
  intros rc2 [p2 w2] (Hp2 & H2 & N2). simpl in *. subst p2. destruct (rc2 =? 0) eqn:E2; simpl; [|prog_step; split_and!; [done|simpl; lia|intros _; apply N2; lia]].
  do 2 prog_step. apply wpc_wp.
  eapply wp_mono; [apply (feed_zero default_opts bad Hnf buf_size _ w2 zero_size (H2 ltac:(lia))); rewrite ?zlen_app, ?zlen_replicate_buf; lia|].
  intros rc3 w3 [H3 N3]. destruct (rc3 =? 0) eqn:E3; simpl; [|prog_step; split_and!; [done|simpl; lia|intros _; apply N3; lia]].
  prog_step. apply wpc_wp. eapply wp_mono; [by eapply (final_ok default_opts); [|apply H3; lia]|].
  intros [err md] w4 [H4 N4]. simpl in *. split_and!; [done| |done]. intros He. destruct (H4 He) as (-> & Ha & Hc).
  split; [|by split]. unfold message. by rewrite <-app_assoc.
Qed.

Lemma main_ok m :
  wpc bad (main buf_size zero_size) (λ r c', p_blocks (pr_proc c') = 0 ∧
    (calm_os → calm_lib → r.1 = 0) ∧ (r.1 = 0 → is_Some r.2) ∧
    ∀ out, r.2 = Some out → out = Cli.format_hex (digest_of (D := D) default_opts message))
    (Program new_proc (fresh_world m)).
Proof using All.
  unfold main, blkhash_new. do 2 prog_step. eapply (new_opts_ok default_opts default_valid bad Hex m).
  2: { intros rc w Hrc Hc. unfold fails. destruct (rc =? 0) eqn:E; [lia|]. simpl. prog_step. split_and!; try done. }
  intros w Hfed _. change (fails 0) with false. cbv iota. do 2 prog_step. unfold allocate. do 5 wpc_step. simpl.
  unfold fails at 1. destruct (os_alloc 0 =? 0) eqn:E1; simpl.
  2: { do 2 prog_step. eapply (free_any default_opts); [done|intros [Hc _]; by rewrite (proj2 (proj2 Hc)) in E1|].
       intros w2. prog_step. split_and!; try done. intros Hc. by rewrite (proj2 (proj2 Hc)) in E1. }
  prog_step. eapply (set_buffer_ok default_opts bad []); [done|]. intros w1 Hw1 _. rewrite zlen_zeros in Hw1 by lia.
  prog_step. eapply wpc_mono; [by apply hash_all_ok|]. intros [err md] [p2 w2] (Hp2 & H2 & N2). simpl in *. subst p2.
  do 2 prog_step. unfold fails. destruct (err =? 0) eqn:E2; simpl.
  - destruct (H2 ltac:(lia)) as (-> & [CL [Ht _]] & Hk). apply wpc_wp.
    eapply wp_mono; [eapply (free_after_final (bad CNoFuel) default_opts); done || apply default_valid|]. intros _ w3 _.
    do 2 prog_step. apply release_ok; [simpl; lia|]. intros p3 _ _ Hb3 _. prog_step. split_and!; simpl; try done; by intros ? [= <-].
  - eapply (free_any default_opts); [done|intros [_ Hc]; apply N2; [lia|done]|]. intros w3.
    do 2 prog_step. apply release_ok; [simpl; lia|]. intros p3 _ _ Hb3 _. prog_step. split_and!; simpl; try done.
    intros _ Hc. destruct N2; [lia|done].
Qed.
End proofs.

(** The sync example prints the block hash of the data it passes, for any sizes: if
    nothing fails and the scheduler is fair, it ends with exit code 0 and prints the digest
    of the buffer of 'A', the zeroed buffer and the range of zeros; and whatever fails, it
    exits with 1 and prints nothing, or what it prints is that digest, and the buffer was
    freed. *)
Theorem sync_example_total {D : Type} `{DO : !DigestOps D, DL : !DigestLaws D, EV : !Env, OS : !Os}
    (buf_size zero_size : Z) (m : gmap nat (list byte)) :
  0 <= buf_size → 0 <= zero_size → 2 * buf_size + zero_size < 2 ^ 64 → calm_os →
  live_env (D := D) (config_for default_opts) →
  ∃ c', main (D := D) buf_size zero_size (Program new_proc (fresh_world m)) =
    Ret (0, Some (Cli.format_hex (digest_of (D := D) default_opts (message buf_size zero_size)))) c' ∧
    p_blocks (pr_proc c') = 0.
Proof.
  intros Hb Hz Hm Hc Hl.
  pose proof (main_ok buf_size zero_size Hb Hz Hm (λ _, False) (or_intror Hl) (λ H _, H (conj Hc (proj1 Hl))) m) as Hw.
  unfold wpc in Hw. destruct (main _ _ _) as [[e out] c'|k]; [|done]. destruct Hw as (Hp & H0 & Hs & Ho). simpl in *.
  specialize (H0 Hc (proj1 Hl)). subst e. destruct (Hs eq_refl) as [o ->]. exists c'. by rewrite (Ho o eq_refl).
Qed.

Theorem sync_example_sound {D : Type} `{DO : !DigestOps D, DL : !DigestLaws D, EV : !Env, OS : !Os}
    (buf_size zero_size : Z) (m : gmap nat (list byte)) :
  0 <= buf_size → 0 <= zero_size → 2 * buf_size + zero_size < 2 ^ 64 →
  match main (D := D) buf_size zero_size (Program new_proc (fresh_world m)) with
  | Ret (code, out) c' => p_blocks (pr_proc c') = 0 ∧ (code = 0 → is_Some out) ∧
      ∀ o, out = Some o → o = Cli.format_hex (digest_of (D := D) default_opts (message buf_size zero_size))
  | Crash _ => True
  end.
Proof.
  intros Hb Hz Hm.
  pose proof (main_ok buf_size zero_size Hb Hz Hm (λ _, True) (or_introl I) (λ _ _, I) m) as Hw.
  unfold wpc in Hw. destruct (main _ _ _) as [[e out] c'|k]; [|done]. destruct Hw as (Hp & _ & Hs & Ho). by split_and!.
Qed.

(** Four threads. *)
#[local] Instance env4 : Env := {|
  fault _ := 0;
  wake n := n;
  sched _ := [ARun 0; ARun 1; ARun 2; ARun 3];
  spins := 400;
|}.

Lemma live4 : live_env (EV := env4) (D := Toy.digest) (config_for default_opts).
Proof.
  split; [split; [done|apply Toy.total]|]. exists 1%nat. split.
  - intros t k Hk. exists 0%nat. split; [lia|]. simpl in *. destruct k as [|[|[|[|k]]]]; [set_solver..|lia].
  - apply Nat.leb_le. lazy. reflexivity.
Qed.

#[local] Instance quiet_os : Os := {|
  os_stdin := [];
  os_chunk _ := ChunkBytes 1;
  os_signal _ := None;
  os_alloc _ := 0;
|}.

Lemma quiet_os_calm : calm_os.
Proof. split_and!; [done| |done]. intros n. by exists 1. Qed.

Lemma sync_example_total_witness :
  ∃ c', main (D := Toy.digest) 5 100 (Program new_proc (fresh_world ∅)) =
    Ret (0, Some (Cli.format_hex (digest_of (D := Toy.digest) default_opts (message 5 100)))) c' ∧
    p_blocks (pr_proc c') = 0.
Proof.
  pose proof (sync_example_total (D := Toy.digest) 5 100 ∅) as H.
  specialize (H ltac:(lia) ltac:(lia) ltac:(lia) quiet_os_calm live4). exact H.
Defined.

Lemma sync_example_sound_witness :
  match main (D := Toy.digest) 5 100 (Program new_proc (fresh_world ∅)) with
  | Ret (code, out) c' => p_blocks (pr_proc c') = 0 ∧ (code = 0 → is_Some out) ∧
      ∀ o, out = Some o → o = Cli.format_hex (digest_of (D := Toy.digest) default_opts (message 5 100))
  | Crash _ => True
  end.
Proof.
  pose proof (sync_example_sound (D := Toy.digest) 5 100 ∅) as H.
  specialize (H ltac:(lia) ltac:(lia) ltac:(lia)). exact H.
Defined.
