(* ===== verification/ExampleAio.v ===== *)
(** * The async example (man/example-aio.c)

    The program that the manual shows: a ring of requests, each with a buffer, is
    passed to [blkhash_aio_update] in order; the program waits for the completion of
    the next request before it uses its buffer again.  The constants of the program
    are variables here; [example_main] has their values.  A request is its index:
    its buffer is the block of the user's memory with that number, and the index is
    the user data of its updates. *)

From stdpp Require Import prelude list strings gmap.
From Stdlib Require Import ZArith Lia.
From S2P Require Import Prelude Ring State Digest Zero Event Completion Submission Config HashPool.
From S2P Require Import Blkhash PoolInv PoolStep Progress Account Poll.
From S2P Require Cli.

Local Open Scope Z_scope.

Section example.
Context {D : Type} `{DO : !DigestOps D, EV : !Env}.
Context (IMAGE_SIZE BUF_SIZE THREADS : Z) (QUEUE_DEPTH : nat) (DIGEST : string).

(** The static variables: the hash, [requests[i].ready], [current] and
    [updated_size].  All requests have the same length. *)
Record example := Example {
  x_hash : world D;
  x_ready : list bool;
  x_current : nat;
  x_updated : Z;
}.
Abbreviation MX := (M example).

Definition hash_op {A} (m : M (world D) A) : MX A :=
  zoom x_hash (λ w x, Example w (x_ready x) (x_current x) (x_updated x)) m.

(** A system call that can fail: errno. *)
Definition syscall : MX Z := hash_op (shared_op next_fault).

(** ** Setup *)

(** [memset(req->buffer, (i < QUEUE_DEPTH / 2) ? 'A' + i : 0, BUF_SIZE)] *)
Definition buffer_of (i : nat) : list byte :=
  replicate (Z.to_nat BUF_SIZE)
    (if (i <? QUEUE_DEPTH / 2)%nat then byte_of_Z (65 + Z.of_nat i) else zero_byte).

(** The loop from request [i], with [n] requests left. *)
Fixpoint setup_requests (n i : nat) : MX unit :=
  match n with
  | O => mret tt
  | S n' =>
      err ← syscall; (* malloc *)
      if fails err then crashM CExit
      else
        hash_op (modify (λ w, World (with_mem (<[i := buffer_of i]> (mem (sh w))) (sh w)) (hs w)));;
        modify (λ x, Example (x_hash x) (x_ready x ++ [true]) (x_current x) (x_updated x));;
        setup_requests n' (S i)
  end.

Definition create_hash : MX unit :=
  err ← syscall; (* malloc in blkhash_opts_new *)
  match (blkhash_opts_new err (Some DIGEST)).2 with
  | None => crashM CExit
  | Some opts =>
      let '(err, opts) := blkhash_opts_set_queue_depth opts (Z.of_nat QUEUE_DEPTH) in
      if fails err then crashM CExit
      else
        let '(err, opts) := blkhash_opts_set_threads opts THREADS in
        if fails err then crashM CExit
        else
          err ← hash_op (blkhash_new_opts opts);
          if fails err then crashM CExit
          else
            fd ← hash_op blkhash_aio_completion_fd;
            if fd <? 0 then crashM CExit else mret tt
  end.

(** ** Requests *)

Definition set_ready (i : nat) (b : bool) : MX unit :=
  x ← get;
  (if (i <? length (x_ready x))%nat then mret tt else crashM CMemory);;
  modify (λ x, Example (x_hash x) (<[i := b]> (x_ready x)) (x_current x) (x_updated x)).

Definition start_aio_update (i : nat) : MX Z :=
  err ← hash_op (blkhash_aio_update (DUser i 0) BUF_SIZE (Z.of_nat i));
  if fails err then mret (-1)
  else
    set_ready i false;;
    modify (λ x, Example (x_hash x) (x_ready x) (x_current x) (u64 (x_updated x + BUF_SIZE)));;
    mret 0.

(** The loop over the completions. *)
Fixpoint mark_ready (l : list blkhash_completion) : MX Z :=
  match l with
  | [] => mret 0
  | c :: l' =>
      if fails (bc_error c) then mret (-1)
      else set_ready (Z.to_nat (user_data c)) true;; mark_ready l'
  end.

Definition process_completions : MX Z :=
  '(count, completions) ← hash_op (blkhash_aio_completions (Z.of_nat QUEUE_DEPTH));
  if count <? 0 then mret (-1) else mark_ready completions.

(** [poll] waits only for POLLIN, so that it returns once. *)
Definition wait_for_events : MX Z :=
  err ← syscall;
  if fails err then mret (-1)
  else
    hash_op (shared_op (poll_event spins));;
    err ← hash_op (shared_op read_event);
    if fails err then mret (-1) else process_completions.

(** ** The main loop *)

(** [while (req->ready && updated_size < IMAGE_SIZE)] *)
Fixpoint start_updates (fuel : nat) : MX Z :=
  x ← get;
  ready ← derefM (x_ready x !! x_current x);
  if ready && (x_updated x <? IMAGE_SIZE) then
    match fuel with
    | O => crashM CNoFuel
    | S fuel' =>
        err ← start_aio_update (x_current x);
        if fails err then mret err
        else
          modify (λ x, Example (x_hash x) (x_ready x) ((x_current x + 1) mod QUEUE_DEPTH)%nat (x_updated x));;
          start_updates fuel'
    end
  else mret 0.

(** [while (!req->ready)] *)
Fixpoint wait_ready (fuel : nat) : MX Z :=
  x ← get;
  ready ← derefM (x_ready x !! x_current x);
  if negb ready then
    match fuel with
    | O => crashM CNoFuel
    | S fuel' =>
        err ← wait_for_events;
        if fails err then mret err else wait_ready fuel'
    end
  else mret 0.

(** The number of updates is a bound for both loops over requests. *)
Definition updates : nat := Z.to_nat ((IMAGE_SIZE + BUF_SIZE - 1) / BUF_SIZE).

Fixpoint main_loop (fuel : nat) : MX Z :=
  x ← get;
  if x_updated x <? IMAGE_SIZE then
    match fuel with
    | O => crashM CNoFuel
    | S fuel' =>
        err ← start_updates (S updates);
        if fails err then mret err
        else
          err ← wait_ready (S spins);
          if fails err then mret err else main_loop fuel'
    end
  else mret 0.

(** What is printed. *)
Definition print_hash : MX (list Ascii.ascii) :=
  '(err, md) ← hash_op blkhash_final;
  if fails err then crashM CExit else mret (Cli.format_hex md).

Definition teardown : MX unit :=
  hash_op blkhash_free;;
  (* free(req->buffer) *)
  hash_op (modify (λ w, World (with_mem (foldr delete (mem (sh w)) (seq 0 QUEUE_DEPTH)) (sh w)) (hs w))).

(** The exit code, and the line that was printed. *)
Definition main : MX (Z * option (list Ascii.ascii)) :=
  create_hash;;
  setup_requests QUEUE_DEPTH 0;;
  err ← main_loop (S updates);
  out ← (if fails err then mret None else out ← print_hash; mret (Some out));
  teardown;;
  mret (if fails err then 1 else 0, out).

Definition example_start (m : gmap nat (list byte)) : example := Example (fresh_world m) [] 0 0.
End example.

Definition KiB := Z.shiftl 1 10.
Definition MiB := Z.shiftl 1 20.

(** The program with its constants. *)
Definition example_main {D} `{DO : !DigestOps D, EV : !Env} : M (example (D := D)) (Z * option (list Ascii.ascii)) :=
  main (20 * MiB) (256 * KiB) 16 16 "sha256".
