(* ===== verification/ExampleTheorems.v ===== *)
(** * The async example computes the hash of its image

    The example of the manual, for any size of the image, of the buffers and of the
    queue: it uses the async interface as documented, ends, and prints the block hash
    of the image it simulates. *)

From stdpp Require Import prelude list strings gmap.
From Stdlib Require Import ZArith Lia.
From S2P Require Import Prelude Ring State Digest Zero Event Completion Submission Config HashPool.
From S2P Require Import Blkhash PoolInv PoolStep Progress Spec PoolCaller PoolAio BlkhashInv BlkhashOps.
From S2P Require Import BlkhashUpdate Api ApiAio Init Session Reach Free Account Poll AccountApi Client.
From S2P Require Import AsyncCalls Demo Theorems Src Process ExampleAio.
From S2P Require Cli.

Local Open Scope Z_scope.

(** ** Requests that are busy *)

Fixpoint busy_from (i : nat) (r : list bool) : list Z :=
  match r with
  | [] => []
  | b :: r' => (if b then [] else [Z.of_nat i]) ++ busy_from (S i) r'
  end.

Definition busy (r : list bool) : list Z := busy_from 0 r.

Lemma busy_from_true i r j :
  r !! j = Some true → busy_from i (<[j := false]> r) ≡ₚ Z.of_nat (i + j) :: busy_from i r.
Proof.
  revert i j. induction r as [|b r IH]; intros i [|j] Hj; simplify_eq/=; [by rewrite Nat.add_0_r|].
  rewrite (IH (S i) j Hj), Nat.add_succ_r. simpl. apply Permutation_sym, Permutation_middle.
Qed.

Lemma busy_from_false i r j :
  r !! j = Some false → busy_from i r ≡ₚ Z.of_nat (i + j) :: busy_from i (<[j := true]> r).
Proof.
  revert i j. induction r as [|b r IH]; intros i [|j] Hj; simplify_eq/=; [by rewrite Nat.add_0_r|].
  rewrite (IH (S i) j Hj), Nat.add_succ_r. simpl. apply Permutation_sym, Permutation_middle.
Qed.

Lemma elem_of_busy_from i r z :
  z ∈ busy_from i r → ∃ j, z = Z.of_nat (i + j) ∧ r !! j = Some false.
Proof.
  revert i. induction r as [|b r IH]; intros i Hz; [by apply elem_of_nil in Hz|]. simpl in Hz.
  apply elem_of_app in Hz as [Hz|Hz].
  - destruct b; [by apply elem_of_nil in Hz|]. apply list_elem_of_singleton in Hz as ->. exists 0%nat.
    by rewrite Nat.add_0_r.
  - destruct (IH (S i) Hz) as (j & -> & Hj). exists (S j). by rewrite Nat.add_succ_r.
Qed.

Lemma busy_from_length i r j : r !! j = Some true → zlen (busy_from i r) < zlen r.
Proof.
  intros Hj. pose proof (busy_from_true i r j Hj) as Hp.
  assert (∀ i r, (length (busy_from i r) ≤ length r)%nat) as Hle.
  { clear. intros i r. revert i. induction r as [|b r IH]; intros i; [done|]. simpl. specialize (IH (S i)).
    destruct b; simpl; lia. }
  specialize (Hle i (<[j := false]> r)). rewrite Hp, length_insert in Hle. simpl in Hle. unfold zlen. lia.
Qed.

Lemma busy_from_nonempty i r j : r !! j = Some false → busy_from i r ≠ [].
Proof. intros Hj He. pose proof (busy_from_false i r j Hj) as Hp. rewrite He in Hp. by apply Permutation_nil_cons in Hp. Qed.

Lemma busy_from_all i n : busy_from i (replicate n true) = [].
Proof. revert i. induction n as [|n IH]; intros i; [done|]. simpl. apply IH. Qed.

(** ** The loops of the example *)

Section pump.
Context {D : Type} `{DO : !DigestOps D, DL : !DigestLaws D, EV : !Env}.
#[local] Existing Instance any_buffer.
Context (IMAGE_SIZE BUF_SIZE THREADS : Z) (QUEUE_DEPTH : nat) (DIGEST : string).
Local Abbreviation N := (updates IMAGE_SIZE BUF_SIZE).
Local Abbreviation buffer := (buffer_of BUF_SIZE QUEUE_DEPTH).

(** The options that the example sets. *)
Definition example_opts : blkhash_opts :=
  Opts DIGEST (o_block_size default_opts) (Z.of_nat QUEUE_DEPTH) THREADS.

(** Constants with which the example can be compiled. *)
Record example_ok : Prop := {
  eo_opts : valid_opts example_opts;
  eo_depth : (0 < QUEUE_DEPTH)%nat;
  eo_buf : 0 < BUF_SIZE < 2 ^ 64;
  eo_image : 0 < IMAGE_SIZE;
  eo_total : IMAGE_SIZE + BUF_SIZE <= 2 ^ 64;
}.

(** What the first [k] updates pass to the hash. *)
Definition image (k : nat) : list byte := concat ((λ i, buffer (i mod QUEUE_DEPTH)%nat) <$> seq 0 k).

Context (Hok : example_ok).
Context (bad : crash → Prop).
Local Abbreviation c := (config_for (D := D) example_opts).
Local Abbreviation calm_lib := (calm (D := D) DIGEST).
Local Abbreviation nf := (bad CNoFuel).
Context (Hnf : nf ∨ live_env (D := D) c).
Context (Hex : (calm_lib → False) → ∀ k, bad k).
Implicit Types (x : example (D := D)) (w : world D).

(** The state between two calls after [k] updates; [ob]: the descriptor was read. *)
Record pumping (k : nat) (ob : Prop) x : Prop := {
  pp_hash : standing c (image k) (x_hash x);
  pp_mem : ∀ i, (i < QUEUE_DEPTH)%nat → mem (sh (x_hash x)) !! i = Some (buffer i);
  pp_ready : length (x_ready x) = QUEUE_DEPTH;
  pp_current : x_current x = (k mod QUEUE_DEPTH)%nat;
  pp_updated : x_updated x = Z.of_nat k * BUF_SIZE;
  pp_account : ∃ l, account l ob (x_hash x) ∧ (calm_lib → l ≡ₚ busy (x_ready x));
}.

Lemma image_S k : image (S k) = image k ++ buffer (k mod QUEUE_DEPTH)%nat.
Proof using Type. unfold image. rewrite seq_S, fmap_app, concat_app, Nat.add_0_l. simpl. by rewrite app_nil_r. Qed.

Lemma zlen_buffer i : zlen (buffer i) = BUF_SIZE.
Proof using Hok. destruct Hok. unfold buffer_of, zlen. rewrite length_replicate. lia. Qed.

Lemma zlen_image k : zlen (image k) = Z.of_nat k * BUF_SIZE.
Proof using Hok. induction k as [|k IH]; [done|]. rewrite image_S, zlen_app, zlen_buffer, IH. lia. Qed.

Lemma updates_left (k : nat) : Z.of_nat k * BUF_SIZE < IMAGE_SIZE ↔ (k < N)%nat.
Proof using Hok.
  destruct Hok as [_ _ Hb Hi _]. unfold updates.
  pose proof (Z.div_mod (IMAGE_SIZE + BUF_SIZE - 1) BUF_SIZE ltac:(lia)).
  pose proof (Z.mod_pos_bound (IMAGE_SIZE + BUF_SIZE - 1) BUF_SIZE ltac:(lia)).
  set (d := (IMAGE_SIZE + BUF_SIZE - 1) / BUF_SIZE) in *. split; intros; nia.
Qed.

Lemma total_bound (k : nat) : (k ≤ N)%nat → Z.of_nat k * BUF_SIZE < 2 ^ 64.
Proof using Hok.
  intros Hk. destruct k as [|k]; [lia|]. destruct Hok. pose proof (proj2 (updates_left k) ltac:(lia)). lia.
Qed.

(** ** One update *)

Lemma set_ready_ok i b x (Q : unit → example → Prop) :
  (calm_lib → (i < length (x_ready x))%nat) →
  ((i < length (x_ready x))%nat → Q tt (Example (x_hash x) (<[i := b]> (x_ready x)) (x_current x) (x_updated x))) →
  wpc bad (set_ready i b) Q x.
Proof using Hex.
  intros Hc HQ. unfold set_ready. do 3 wpc_step.
  destruct (i <? length (x_ready x))%nat eqn:E; [apply Nat.ltb_lt in E|apply Nat.ltb_ge in E].
  - do 2 wpc_step. by apply HQ.
  - apply wpc_crash, Hex. intros Hcalm. specialize (Hc Hcalm). lia.
Qed.

Lemma start_aio_update_ok k x :
  pumping k False x → x_ready x !! x_current x = Some true → (k < N)%nat →
  wpc bad (start_aio_update BUF_SIZE (x_current x)) (λ rc x',
    (rc = 0 → pumping (S k) False (Example (x_hash x') (x_ready x') ((x_current x' + 1) mod QUEUE_DEPTH)%nat (x_updated x'))) ∧
    (rc ≠ 0 → calm_lib → False)) x.
Proof using All.
  intros [Hs Hm Hr Hc Hu (l & Hac & Hl)] Hrd HN. pose proof (eo_buf Hok) as Hb. pose proof (eo_depth Hok) as Hq.
  pose proof (lookup_lt_Some _ _ _ Hrd) as Hlt. rewrite Hr in Hlt.
  pose proof (total_bound (S k) ltac:(lia)) as Htot. pose proof (zlen_image k) as Hi.
  unfold start_aio_update, hash_op. do 2 wpc_step. apply wpc_wp. eapply wp_mono.
  { apply (standing_update nf c Hnf (image k) (x_hash x) (DUser (x_current x) 0) BUF_SIZE (Z.of_nat (x_current x))
      (buffer (x_current x)) l); try done; try lia.
    unfold data_at. rewrite (Hm _ Hlt). simpl. rewrite zlen_buffer, (proj2 (Z.ltb_ge _ _)) by lia.
    f_equal. apply (ztake_all BUF_SIZE). rewrite zlen_buffer. done. }
  intros rc w (Hka & H0 & Hne). unfold fails. destruct (rc =? 0) eqn:E; simpl.
  2:{ wpc_step. split; [done|]. intros _ Hcalm. pose proof (Hne ltac:(lia) Hcalm) as Hfull.
      pose proof (busy_from_length 0 _ _ Hrd) as Hbl. pose proof (Permutation_length (Hl Hcalm)) as Hpl.
      unfold busy, zlen in *. simpl in Hfull. lia. }
  destruct (H0 ltac:(lia)) as [Hs' Hac']. wpc_step. apply set_ready_ok; [simpl; lia|]. intros _. simpl. do 3 wpc_step. split; [|done].
  intros _. simpl. split; simpl.
  - by rewrite image_S, <-Hc.
  - intros i Hlti. rewrite (ks_mem _ _ (ka_shared _ _ Hka)). by apply Hm.
  - by rewrite length_insert.
  - rewrite Hc, Nat.Div0.add_mod_idemp_l. f_equal. lia.
  - rewrite Hu. unfold u64. rewrite Z.mod_small; lia.
  - eexists. split; [exact Hac'|]. intros Hcalm. unfold busy. rewrite (busy_from_true 0 _ _ Hrd). by rewrite (Hl Hcalm).
Qed.

(** [while (req->ready && updated_size < IMAGE_SIZE)]: a request that is still busy,
    or the whole image, ends the loop. *)
Lemma start_updates_ok fuel k x :
  pumping k False x → (k ≤ N)%nat → (N - k < fuel)%nat →
  wpc bad (start_updates IMAGE_SIZE BUF_SIZE QUEUE_DEPTH fuel) (λ rc x',
    (rc = 0 → ∃ k', pumping k' False x' ∧ (k ≤ k' ≤ N)%nat ∧ (k = k' → x_ready x !! x_current x = Some false ∨ k = N)) ∧
    (rc ≠ 0 → calm_lib → False)) x.
Proof using All.
  revert k x. induction fuel as [|fuel IH]; intros k x Hp HkN Hf; [lia|]. simpl. do 3 wpc_step.
  assert (x_current x < length (x_ready x))%nat as Hlt.
  { rewrite (pp_current _ _ _ Hp), (pp_ready _ _ _ Hp). apply Nat.mod_upper_bound. pose proof (eo_depth Hok). lia. }
  destruct (lookup_lt_is_Some_2 _ _ Hlt) as [b Hb]. eapply wpc_derefM; [exact Hb|].
  rewrite (pp_updated _ _ _ Hp). destruct (decide (k < N)%nat) as [HN|HN].
  - rewrite (proj2 (Z.ltb_lt _ _)) by (by apply updates_left). rewrite andb_true_r. destruct b.
    + wpc_step. eapply wpc_mono; [by apply (start_aio_update_ok k x)|]. intros rc x' [H0 Hne]. unfold fails.
      destruct (rc =? 0) eqn:E; simpl.
      2:{ wpc_step. split; [lia|]. intros _. apply Hne. lia. }
      do 2 wpc_step. eapply wpc_mono; [apply (IH (S k)); [apply H0; lia|lia..]|]. intros rc2 x2 [H2 Hne2]. split; [|done].
      intros Hr2. destruct (H2 Hr2) as (k' & ? & ? & _). exists k'. split_and!; [done|lia..|lia].
    + wpc_step. split; [|done]. intros _. exists k. split_and!; [done|lia..|by left].
  - rewrite (proj2 (Z.ltb_ge _ _)) by (apply Z.nlt_ge; by rewrite updates_left). rewrite andb_false_r.
    wpc_step. split; [|done]. intros _. exists k. split_and!; [done|lia..|right; lia].
Qed.

(** ** Completions *)

Lemma mark_ready_ok (out : list blkhash_completion) l x :
  (calm_lib → Forall (λ e, bc_error e = 0) out ∧ busy (x_ready x) ≡ₚ (user_data <$> out) ++ l) →
  wpc bad (mark_ready out) (λ rc x', x_hash x' = x_hash x ∧ x_current x' = x_current x ∧
    x_updated x' = x_updated x ∧ length (x_ready x') = length (x_ready x) ∧
    (rc = 0 → calm_lib → busy (x_ready x') ≡ₚ l) ∧ (rc ≠ 0 → calm_lib → False)) x.
Proof using Hex.
  revert x. induction out as [|e out IH]; intros x Hc; simpl.
  - wpc_step. split_and!; try done. intros _ Hcalm. apply (Hc Hcalm).
  - unfold fails. destruct (bc_error e =? 0) eqn:E; simpl.
    2:{ wpc_step. split_and!; try done. intros _ Hcalm. destruct (Hc Hcalm) as [Hf _]. apply Forall_cons in Hf. lia. }
    assert (calm_lib → x_ready x !! Z.to_nat (user_data e) = Some false ∧ user_data e = Z.of_nat (Z.to_nat (user_data e))) as Hin.
    { intros Hcalm. destruct (Hc Hcalm) as [_ Hp]. destruct (elem_of_busy_from 0 (x_ready x) (user_data e)) as (j & Hj & Hf).
      - fold (busy (x_ready x)). rewrite Hp. by left.
      - rewrite Hj, Nat2Z.id. simpl. by split. }
    wpc_step. apply set_ready_ok.
    { intros Hcalm. eapply lookup_lt_Some. by apply Hin. }
    intros Hlt. eapply wpc_mono; [apply IH|].
    + intros Hcalm. destruct (Hc Hcalm) as [Hf Hp]. apply Forall_cons in Hf as [_ Hf]. split; [done|].
      destruct (Hin Hcalm) as [Hi1 Hi2]. unfold busy in *. rewrite (busy_from_false 0 _ _ Hi1) in Hp. simpl in *.
      rewrite <-Hi2 in Hp. by apply Permutation_cons_inv in Hp.
    + simpl. intros rc x' (? & ? & ? & Hlen & ? & ?). rewrite length_insert in Hlen. by split_and!.
Qed.

(** The pool gets closer to having nothing to do. *)
Definition closer w w' : Prop := ∀ K F,
  calm_lib → fair (Z.to_nat THREADS) K → drains K F (sh w) → drains K (F - 1) (sh w').

Lemma process_completions_ok k ob x :
  pumping k ob x →
  wpc bad (process_completions QUEUE_DEPTH) (λ rc x',
    (rc = 0 → pumping k False x' ∧ closer (x_hash x) (x_hash x') ∧
      ∀ K, calm_lib → fair (Z.to_nat THREADS) K → drains K 1 (sh (x_hash x)) → busy (x_ready x') = []) ∧
    (rc ≠ 0 → calm_lib → False)) x.
Proof using All.
  intros [Hs Hm Hr Hc Hu (l & Hac & Hl)]. pose proof (eo_depth Hok) as Hd.
  unfold process_completions, hash_op. do 2 wpc_step.
  apply wpc_wp. eapply wp_mono.
  { eapply (wp_pc nf _ _ (λ _ w', ∀ K F, calm_lib → fair (Z.to_nat THREADS) K → drains K F (sh (x_hash x)) →
      drains K (F - 1) (sh w') ∧ ((F ≤ 1)%nat → comps (sh w') = ∅ ∧ cq_count (cq (sh w')) = 0))).
    - by apply (taken_completions nf c Hnf (image k) (x_hash x) (Z.of_nat QUEUE_DEPTH) l ob); [..|lia].
    - unfold pc. destruct (blkhash_aio_completions _ _) as [r w'|] eqn:E; [|done]. intros K F Hcalm Hf Hdr.
      exact (pc_run _ _ _ _ _ (completions_drain c K F (image k) (x_hash x) (Z.of_nat QUEUE_DEPTH) Hs Hcalm Hf Hdr
        ltac:(reflexivity)) E). }
  intros [n out] w [(Hka & Hs' & l' & Hac' & Hp & Hcl) Hdr]. simpl in *. destruct (n <? 0) eqn:En.
  { wpc_step. split; [done|]. intros _ Hcalm. destruct (Hcl Hcalm) as [Hn _]. pose proof (zlen_nonneg out). lia. }
  eapply wpc_mono.
  { apply (mark_ready_ok out l'). simpl. intros Hcalm. destruct (Hcl Hcalm) as (_ & Hf). split; [done|].
    by rewrite <-(Hl Hcalm). }
  intros rc x' (Hx & Hc' & Hu' & Hr' & H0 & Hne). simpl in *. split; [|done]. intros Hrc. rewrite Hx. split_and!.
  - split; [by rewrite Hx| |congruence|congruence|congruence|].
    + intros i Hi. rewrite Hx, (ks_mem _ _ (ka_shared _ _ Hka)). by apply Hm.
    + exists l'. rewrite Hx. split; [done|]. intros Hcalm. symmetry. by apply H0.
  - intros K F Hcalm Hf Hd'. by apply (Hdr K F).
  - intros K Hcalm Hf Hd'. destruct (Hdr K 1%nat Hcalm Hf Hd') as [_ [He Hz]]; [lia|].
    pose proof (nothing_left _ _ _ Hac' He Hz) as ->.
    apply Permutation_nil. symmetry. by apply H0.
Qed.

Lemma syscall_ok k ob x :
  pumping k ob x →
  wpc bad syscall (λ err x', pumping k ob x' ∧ x_ready x' = x_ready x ∧ (err ≠ 0 → calm_lib → False) ∧
    ∀ K F, drains K F (sh (x_hash x)) → drains K F (sh (x_hash x'))) x.
Proof using Type.
  intros [Hs Hm Hr Hc Hu (l & Hac & Hl)]. unfold syscall, hash_op, shared_op, next_fault.
  do 4 wpc_step. do 3 wpc_step. simpl. split_and!; [|done| |].
  - split; simpl; try done; [by apply standing_aside; [apply aside_fault|]|].
    exists l. split; [by apply fault_account|done].
  - intros Hne Hcalm. by destruct Hne; apply (calm_fault _ _ Hcalm).
  - intros K F Hd. by eapply drains_same.
Qed.

(** One turn of the loop that waits for a request. *)
Lemma wait_for_events_ok k x :
  pumping k False x → nf ∨ busy (x_ready x) ≠ [] →
  wpc bad (wait_for_events QUEUE_DEPTH) (λ rc x',
    (rc = 0 → pumping k False x' ∧ closer (x_hash x) (x_hash x') ∧
      ∀ K, calm_lib → fair (Z.to_nat THREADS) K → drains K 1 (sh (x_hash x)) → busy (x_ready x') = []) ∧
    (rc ≠ 0 → calm_lib → False)) x.
Proof using All.
  intros Hp Hb. unfold wait_for_events. wpc_step. eapply wpc_mono; [by apply syscall_ok|].
  intros err x1 ([Hs Hm Hr Hc Hu (l & Hac & Hl)] & Hr1 & Hf1 & Hd1). unfold fails at 1.
  destruct (err =? 0) eqn:E; cbn [negb].
  2:{ wpc_step. split; [done|]. intros _. apply Hf1. lia. }
  unfold hash_op, shared_op. do 3 wpc_step. apply wpc_wp. eapply wp_mono.
  { eapply (wp_pc nf _ _ (λ _ s', ∀ K F, calm_lib → fair (Z.to_nat THREADS) K → drains K F (sh (x_hash x)) →
      drains K F s')).
    - apply (standing_poll nf c Hnf (image k) (x_hash x1) l); try done; [pose proof (eo_depth Hok); simpl; lia|].
      destruct Hb as [?|Hb]; [by left|]. destruct Hnf as [?|[Hcalm _]]; [by left|right]. rewrite Hr1 in Hl.
      intros ->. specialize (Hl Hcalm). by apply Permutation_nil in Hl.
    - unfold pc. destruct (poll_event spins _) as [r s'|] eqn:Ep; [|done]. intros K F Hcalm Hf Hdr.
      destruct (standing_safe _ _ _ Hs) as (ids & Q & Hk). destruct (k_shared _ _ _ _ _ Hk) as [q HI].
      apply (pc_run _ _ _ _ _ (poll_drains c Hcalm K Hf spins F q _ _ _ HI (k_cfg _ _ _ _ _ Hk) (Hd1 K F Hdr)) Ep). }
  intros _ s2 [(Hs2 & Hac2 & Hm2 & Hrd) Hd2]. simpl in *. do 3 wpc_step. apply wpc_wp.
  eapply wp_mono; [by apply (standing_read nf c (image k) (World s2 (hs (x_hash x1))) l)|].
  intros err3 s3 (Hs3 & Hac3 & Hm3 & Hp3 & Ht3 & Hk3 & Hf3). simpl in *.
  unfold fails. destruct (err3 =? 0) eqn:E3; cbn [negb].
  2:{ wpc_step. split; [done|]. intros _. apply Hf3. lia. }
  assert (∀ K F, calm_lib → fair (Z.to_nat THREADS) K → drains K F (sh (x_hash x)) → drains K F s3) as Hd3.
  { intros K F Hcalm Hf Hdr. eapply drains_same; [by apply (Hd2 K F)|by rewrite Hp3|done|done]. }
  eapply wpc_mono; [apply (process_completions_ok k True)|].
  - split; simpl; try done; [by rewrite Hm3, Hm2|by exists l].
  - intros rc x' [H0 Hne]. split; [|done]. intros Hrc. destruct (H0 Hrc) as (Hp' & Hcl & H1).
    split_and!; [done| |]; [intros K F ? ? ?; apply (Hcl K F)|intros K ? ? ?; apply (H1 K)]; auto.
Qed.

(** [while (!req->ready)]: a measure that decreases with every turn bounds the
    number of turns. *)
Lemma wait_ready_ok fuel k x :
  pumping k False x →
  nf ∨ calm_lib ∧ (∃ K, fair (Z.to_nat THREADS) K ∧ drains K fuel (sh (x_hash x))) ∧
    (fuel = 0%nat → busy (x_ready x) = []) →
  wpc bad (wait_ready QUEUE_DEPTH fuel) (λ rc x',
    (rc = 0 → pumping k False x' ∧ x_ready x' !! x_current x' = Some true) ∧
    (rc ≠ 0 → calm_lib → False)) x.
Proof using All.
  revert x. induction fuel as [|fuel IH]; intros x Hp Hf; simpl; do 3 wpc_step;
    (assert (x_current x < length (x_ready x))%nat as Hlt;
      [rewrite (pp_current _ _ _ Hp), (pp_ready _ _ _ Hp); apply Nat.mod_upper_bound; pose proof (eo_depth Hok); lia|]);
    destruct (lookup_lt_is_Some_2 _ _ Hlt) as [b Hb]; (eapply wpc_derefM; [exact Hb|]);
    (destruct b; cbn [negb]; [wpc_step; split; [by split|done]|]).
  - apply wpc_crash. destruct Hf as [?|(_ & _ & Hz)]; [done|].
    destruct (busy_from_nonempty 0 _ _ Hb). by apply Hz.
  - wpc_step. eapply wpc_mono; [apply (wait_for_events_ok k x Hp); right; by eapply busy_from_nonempty|].
    intros rc x' [H0 Hne]. unfold fails. destruct (rc =? 0) eqn:E; cbn [negb].
    2:{ wpc_step. split; [lia|]. intros _. apply Hne. lia. }
    destruct (H0 ltac:(lia)) as (Hp' & Hcl & H1). apply IH; [done|].
    destruct Hf as [?|(Hcalm & (K & Hfair & Hdr) & _)]; [by left|right]. split_and!; [done| |].
    + exists K. split; [done|]. replace fuel with (S fuel - 1)%nat by lia. by apply (Hcl K (S fuel)).
    + intros ->. by apply (H1 K).
Qed.

Lemma main_loop_ok fuel k x :
  pumping k False x → x_ready x !! x_current x = Some true → (k ≤ N)%nat → (N - k < fuel)%nat →
  wpc bad (main_loop IMAGE_SIZE BUF_SIZE QUEUE_DEPTH fuel) (λ rc x',
    (rc = 0 → pumping N False x') ∧ (rc ≠ 0 → calm_lib → False)) x.
Proof using All.
  revert k x. induction fuel as [|fuel IH]; intros k x Hp Hr HkN Hf; [lia|]. cbn [main_loop]. do 2 wpc_step.
  rewrite (pp_updated _ _ _ Hp). destruct (decide (k < N)%nat) as [HN|HN].
  2:{ rewrite (proj2 (Z.ltb_ge _ _)) by (apply Z.nlt_ge; by rewrite updates_left). wpc_step. split; [|done].
      replace N with k by lia. done. }
  rewrite (proj2 (Z.ltb_lt _ _)) by (by apply updates_left). wpc_step.
  eapply wpc_mono; [apply (start_updates_ok (S N) k x Hp); lia|].
  intros rc x1 [H0 Hne]. unfold fails at 1. destruct (rc =? 0) eqn:E; cbn [negb].
  2:{ wpc_step. split; [lia|]. intros _. apply Hne. lia. }
  destruct (H0 ltac:(lia)) as (k1 & Hp1 & Hk1 & Heq). wpc_step. eapply wpc_mono; [apply (wait_ready_ok _ k1 x1 Hp1)|].
  { destruct Hnf as [?|(Hcalm & K & Hfair & Hspins)]; [by left|right]. split_and!; [done| |done]. exists K. split; [done|].
    destruct (standing_safe _ _ _ (pp_hash _ _ _ Hp1)) as (ids & Q & Hk). destruct (k_shared _ _ _ _ _ Hk) as [q HI].
    eapply drains_le; [exact (drains_start c Hcalm K Hfair q _ _ _ Hspins HI (k_cfg _ _ _ _ _ Hk))|lia]. }
  intros rc2 x2 [H2 Hne2]. unfold fails. destruct (rc2 =? 0) eqn:E2; cbn [negb].
  2:{ wpc_step. split; [lia|]. intros _. apply Hne2. lia. }
  destruct (H2 ltac:(lia)) as [Hp2 Hr2]. apply (IH k1); [done..|lia|].
  destruct (decide (k = k1)) as [<-|]; [|lia]. destruct (Heq eq_refl) as [?|?]; [congruence|lia].
Qed.

(** ** Setup *)

Record setup (i : nat) x : Prop := {
  su_hash : standing c [] (x_hash x);
  su_inflight : inflight (hs (x_hash x)) = 0;
  su_account : account [] False (x_hash x);
  su_mem : ∀ j, (j < i)%nat → mem (sh (x_hash x)) !! j = Some (buffer j);
  su_ready : x_ready x = replicate i true;
  su_start : x_current x = 0%nat ∧ x_updated x = 0;
}.

Lemma setup_requests_ok n i x :
  setup i x →
  wpc bad (setup_requests BUF_SIZE QUEUE_DEPTH n i) (λ _ x', setup (i + n) x') x.
Proof using Hex.
  revert i x. induction n as [|n IH]; intros i x Hx; cbn [setup_requests].
  { wpc_step. by rewrite Nat.add_0_r. }
  destruct Hx as [Hs Hi Hac Hm Hr Hst].
  unfold syscall, hash_op, shared_op, next_fault. do 3 wpc_step. do 5 wpc_step. cbn [x_hash x_ready x_current x_updated].
  unfold fails. destruct (fault _ =? 0) eqn:E; cbn [negb].
  2:{ apply wpc_crash, Hex. intros Hcalm. by rewrite (calm_fault _ _ Hcalm) in E. }
  do 5 wpc_step. replace (i + S n)%nat with (S i + n)%nat by lia. apply IH. split; simpl; try done.
  - apply (standing_mem c [] (World (with_n_fault _ (sh (x_hash x))) (hs (x_hash x)))).
    + by apply standing_aside; [apply aside_fault|].
    + exact (standing_idle _ _ _ _ Hs Hi).
  - eapply account_aside; [exact Hac|]. intros CL k []. by split.
  - intros j Hj. destruct (decide (j = i)) as [->|]; [apply lookup_insert_eq|]. rewrite lookup_insert_ne by done. apply Hm. lia.
  - by rewrite Hr, <-replicate_S_end.
Qed.

Lemma setup_pumping x :
  setup QUEUE_DEPTH x → pumping 0 False x ∧ x_ready x !! x_current x = Some true.
Proof using Hok.
  intros [Hs Hi Hac Hm Hr [Hc Hu]]. pose proof (eo_depth Hok). split; [split|].
  - done.
  - done.
  - by rewrite Hr, length_replicate.
  - by rewrite Hc, Nat.Div0.mod_0_l.
  - by rewrite Hu.
  - exists []. split; [done|]. intros _. rewrite Hr. unfold busy. by rewrite busy_from_all.
  - rewrite Hc, Hr. by apply lookup_replicate_2.
Qed.

Lemma create_hash_ok m :
  wpc bad (create_hash THREADS QUEUE_DEPTH DIGEST) (λ _ x', setup 0 x') (example_start (D := D) m).
Proof using Hex Hok.
  destruct Hok as [Hv Hd _ _ _]. unfold create_hash, syscall, hash_op, shared_op, next_fault. do 3 wpc_step. do 5 wpc_step.
  cbn [x_hash x_ready x_current x_updated example_start]. unfold blkhash_opts_new, fails at 1.
  destruct (fault _ =? 0) eqn:E; cbn [negb].
  2:{ apply wpc_crash, Hex. intros Hcalm. by rewrite (calm_fault _ _ Hcalm) in E. }
  simpl snd. cbv iota. unfold blkhash_opts_set_queue_depth, blkhash_opts_set_threads. cbn [o_digest_name o_block_size o_queue_depth o_threads].
  destruct (vo_threads _ Hv) as [Ht1 Ht2]. simpl in Ht1, Ht2.
  rewrite (proj2 (Z.ltb_ge THREADS 1)), (proj2 (Z.ltb_ge MAX_THREADS THREADS)) by lia. cbn [orb]. change (fails 0) with false. cbv iota.
  do 2 wpc_step. apply (wpx_wpc _ bad _ _ _ Hex).
  eapply wpx_mono; [by apply (blkhash_new_opts_inv_at 1 example_opts m)|]. intros rc w [H0 Hne].
  unfold fails. destruct (rc =? 0) eqn:Er; cbn [negb].
  2:{ apply wpc_crash, Hex, Hne. lia. }
  destruct (H0 ltac:(lia)) as [Ha Hb]. unfold blkhash_aio_completion_fd. do 4 wpc_step. cbn [x_hash].
  pose proof (newborn_account _ _ _ Hv Hb) as Hac.
  destruct Hb as [Hm _ _ _ (_ & _ & Ho & _) _ _ Hf Hi]. destruct Ho as [v Ho]; [simpl; lia|]. rewrite Ho. wpc_step.
  change (0 <? 0) with false. cbv iota. wpc_step. split; simpl; try done; [|lia].
  split; [done|by right].
Qed.

(** ** The end *)

Definition right_output : list Ascii.ascii := Cli.format_hex (digest_of (D := D) example_opts (image N)).

(** What the example leaves: exit code, output and the hash. *)
Definition finished (r : Z * option (list Ascii.ascii)) x : Prop :=
  (calm_lib → r = (0, Some right_output) ∧ h_error (sh (x_hash x)) = 0) ∧
  match r.2 with
  | Some out => r.1 = 0 ∧ released (x_hash x) ∧ (h_error (sh (x_hash x)) = 0 → out = right_output ∧ subs (sh (x_hash x)) = ∅)
  | None => r.1 = 1
  end.

Lemma example_main_ok m :
  wpc bad (main IMAGE_SIZE BUF_SIZE THREADS QUEUE_DEPTH DIGEST) finished (example_start (D := D) m).
Proof using All.
  unfold main. wpc_step. eapply wpc_mono; [apply create_hash_ok|]. intros [] x0 H0. wpc_step.
  eapply wpc_mono; [by apply setup_requests_ok|]. intros [] x1 H1. destruct (setup_pumping _ H1) as [Hp Hr]. wpc_step.
  eapply wpc_mono; [apply (main_loop_ok (S N) 0 x1 Hp Hr); lia|]. intros rc x2 [H2 Hne]. wpc_step. unfold fails.
  destruct (rc =? 0) eqn:E; cbn [negb].
  2:{ wpc_step. wpc_step. apply wpc_any; [apply Hex, Hne; lia|]. intros _ x3. wpc_step. split; [|done].
      intros Hcalm. exfalso. apply Hne; [lia|done]. }
  destruct (H2 ltac:(lia)) as [Hs _ _ _ _ (l & Hac & _)]. unfold print_hash, hash_op. do 3 wpc_step.
  apply wpc_wp. eapply wp_mono; [by eapply (standing_final nf example_opts)|]. intros [e md] w3 (Hf & Hcl & Hd). cbn [fst snd] in *.
  unfold fails. destruct (e =? 0) eqn:Ee; cbn [negb].
  2:{ apply wpc_crash, Hex, Hf. lia. }
  destruct (Hd ltac:(lia)) as ([CL [Ht _]] & Hk & Hmd). do 2 wpc_step. unfold teardown, hash_op. do 3 wpc_step. apply wpc_wp. cbn [x_hash].
  eapply wp_mono; [by eapply (free_after_final nf example_opts); [..|apply (eo_opts Hok)|done|done]|].
  intros _ w4 (Hrel & Hsub & He). do 3 wpc_step. split; cbn [x_hash snd fst sh with_mem h_error subs].
  - intros Hcalm. rewrite He, (Hmd (Hcl Hcalm)). by split; [|auto].
  - split_and!; [done|by destruct Hrel|]. rewrite He. intros H3. rewrite (Hmd H3). by split; [|auto].
Qed.
End pump.

(** ** Theorems *)

Section theorems.
Context {D : Type} `{DO : !DigestOps D, DL : !DigestLaws D, EV : !Env}.

(** C12: the example of the manual.  For any sizes of the image, the buffers
    and the queue (a queue must exist, and the size of the image must fit in 64
    bits), if no system call fails and the scheduler is fair, the program ends
    without touching invalid memory, prints the block hash of the image it
    simulates (all buffers in the order in which they were passed, although they are
    reused as they complete) and exits with 0; then every submission was freed and
    the hash was released. *)
Theorem example_total (IMAGE_SIZE BUF_SIZE THREADS : Z) (QUEUE_DEPTH : nat) (DIGEST : string) m :
  example_ok IMAGE_SIZE BUF_SIZE THREADS QUEUE_DEPTH DIGEST →
  live_env (D := D) (config_for (example_opts THREADS QUEUE_DEPTH DIGEST)) →
  ∃ x, main IMAGE_SIZE BUF_SIZE THREADS QUEUE_DEPTH DIGEST (example_start (D := D) m) =
      Ret (0, Some (Cli.format_hex (digest_of (D := D) (example_opts THREADS QUEUE_DEPTH DIGEST)
        (image BUF_SIZE QUEUE_DEPTH (updates IMAGE_SIZE BUF_SIZE))))) x ∧
    released (x_hash x) ∧ subs (sh (x_hash x)) = ∅.
Proof.
  intros Hok Hlive. set (bad := λ k : crash, calm (D := D) DIGEST → False).
  pose proof (example_main_ok IMAGE_SIZE BUF_SIZE THREADS QUEUE_DEPTH DIGEST Hok bad (or_intror Hlive) (λ H _, H) m) as Hm.
  unfold wpc in Hm. destruct (main _ _ _ _ _ _) as [r x|k]; [|by destruct (Hm (proj1 Hlive))].
  destruct Hm as [Hc Hr]. destruct (Hc (proj1 Hlive)) as [-> He]. exists x. simpl in Hr.
  destruct Hr as (_ & Hrel & Hs). split_and!; [done|done|by apply Hs].
Qed.

(** C13: whatever fails and however threads are scheduled, what the example
    prints on a hash without error is the block hash of the image.  The condition
    is needed: the program does not wait for its last updates, and [blkhash_final]
    does not report that one of them failed. *)
Theorem example_sound (IMAGE_SIZE BUF_SIZE THREADS : Z) (QUEUE_DEPTH : nat) (DIGEST : string) m rc out x :
  example_ok IMAGE_SIZE BUF_SIZE THREADS QUEUE_DEPTH DIGEST →
  main IMAGE_SIZE BUF_SIZE THREADS QUEUE_DEPTH DIGEST (example_start (D := D) m) = Ret (rc, Some out) x →
  h_error (sh (x_hash x)) = 0 →
  rc = 0 ∧ out = Cli.format_hex (digest_of (D := D) (example_opts THREADS QUEUE_DEPTH DIGEST)
    (image BUF_SIZE QUEUE_DEPTH (updates IMAGE_SIZE BUF_SIZE))).
Proof.
  intros Hok Hrun He.
  pose proof (example_main_ok IMAGE_SIZE BUF_SIZE THREADS QUEUE_DEPTH DIGEST Hok (λ _, True) (or_introl I) (λ _ _, I) m) as Hm.
  unfold wpc in Hm. rewrite Hrun in Hm. destruct Hm as [_ (Hrc & _ & Hs)]. split; [done|]. by apply Hs.
Qed.
End theorems.

(** ** Witnesses *)

(** The constants of the source, with 16 workers that all run at every step. *)
Lemma source_constants : example_ok (20 * MiB) (256 * KiB) 16 16 "sha256".
Proof. split; [split|..]; vm_compute; split_and?; congruence || lia. Qed.

Definition env16 : Env := {|
  fault _ := 0;
  wake n := n;
  sched _ := ARun <$> seq 0 16;
  spins := 4000;
|}.

Lemma live_env16 : live_env (EV := env16) (D := Toy.digest) (config_for (example_opts 16 16 "sha256")).
Proof.
  split; [split; [done|apply Toy.total]|]. exists 1%nat. split.
  - intros t k Hk. exists 0%nat. split; [lia|]. change (ARun k ∈ ARun <$> seq 0 16). apply list_elem_of_fmap. exists k. split; [done|].
    apply elem_of_seq. vm_compute in Hk |- *. lia.
  - vm_compute. lia.
Qed.

Lemma example_total_witness :
  ∃ x, example_main (EV := env16) (D := Toy.digest) (example_start ∅) =
      Ret (0, Some (Cli.format_hex (digest_of (D := Toy.digest) (example_opts 16 16 "sha256")
        (image (256 * KiB) 16 80)))) x ∧
    released (x_hash x) ∧ subs (sh (x_hash x)) = ∅.
Proof. exact (example_total (EV := env16) (20 * MiB) (256 * KiB) 16 16 "sha256" ∅ source_constants live_env16). Defined.

(** A small image, and the run of the example on it. *)
Definition small_run : outcome example (Z * option (list Ascii.ascii)) :=
  main (EV := Demo.env) (D := Toy.digest) 100 32 2 4 "sha256" (example_start ∅).
Definition small_out : list Ascii.ascii := match small_run with Ret (_, Some out) _ => out | _ => [] end.
Definition small_end : example := match small_run with Ret _ x => x | Crash _ => example_start ∅ end.

Lemma example_sound_witness :
  0 = 0 ∧ small_out = Cli.format_hex (digest_of (D := Toy.digest) (example_opts 2 4 "sha256") (image 32 4 4)).
Proof.
  apply (example_sound (EV := Demo.env) (D := Toy.digest) 100 32 2 4 "sha256" ∅ 0 small_out small_end).
  - split; [split|..]; vm_compute; split_and?; congruence || lia.
  - vm_compute. reflexivity.
  - vm_compute. reflexivity.
Defined.
