(* ===== verification/Image.v ===== *)
(** * blksum of an image (bin/aio-checksum.c, bin/probe.c, bin/src.c and main of bin/blksum.c)

    The program with a file name.  A local image is probed and served by qemu-nbd on a
    unix socket, or, in a build without libnbd, read directly; the commands and the hash
    are created; a thread opens the source, runs the loop of [AioChecksum] and asks for
    the digest; the worker is destroyed, the server is stopped and the digest is printed.

    The state is that of the worker, with the library as its hash and the flags of the
    program, beside the machine of [Server].  [FAIL] in the main thread exits the
    process, which is [CExit].  [FAIL] in the thread ends the thread: the main thread
    joins it, destroys the worker, stops the server and exits with an error. *)

From stdpp Require Import prelude list strings gmap.
From Stdlib Require Import ZArith Lia.
From S2P Require Import Prelude Ring State Digest Zero Event Completion Submission Config HashPool.
From S2P Require Import Blkhash Thread Src Process Hasher AioChecksum AioHash.
From S2P Require Cli Server ProgressBar.

Local Open Scope Z_scope.

Definition PROBE_SIZE := 512.

(** The build, the file that is probed, and the calls that open the source: errno of
    [open], the results of [read] and [fstatfs], whether the file can be opened for direct
    I/O, the results of the n-th call that opens the source, what the server says about
    base:allocation, and errno of [pthread_create] and [pthread_join]. *)
Class Storage := {
  have_nbd : bool;
  open_error : Z;
  probe_read : nat → io;
  f_type : option Z;
  can_direct : bool;
  source_fault : nat → Z;
  can_meta : bool;
  thread_error : Z;
  join_error : Z;
}.

Section image.
Context {D : Type} `{DO : !DigestOps D, EV : !Env, OS : !Os, OUT : !Outside, ST : !Storage, MA : !Server.Machine}.
Context (debug : bool).
Abbreviation WK := (worker (world D)).
Abbreviation MK := (M WK).
Abbreviation MT := (T WK).

Record image_run := ImageRun { r_worker : WK; r_machine : Server.machine }.
Abbreviation MI := (M image_run).

Definition work_op {A} (m : MK A) : MI A := zoom r_worker (λ w r, ImageRun w (r_machine r)) m.
Definition machine_op {A} (m : M Server.machine A) : MI A := zoom r_machine (λ x r, ImageRun (r_worker r) x) m.

(** An allocation that must succeed. *)
Definition must_allocate : MK unit :=
  err ← proc_op allocate; if fails err then proc_op (fail_main debug) else mret tt.

(** ** probe.c *)

(** The loop over [read]: at most [PROBE_SIZE] bytes. *)
Fixpoint read_probe (fuel n : nat) : MK (list byte) :=
  match probe_read n with
  | IoError e =>
      if e =? EINTR then match fuel with O => crashM CNoFuel | S fuel' => read_probe fuel' (S n) end
      else proc_op (fail_main debug)
  | IoData b => mret (ztake PROBE_SIZE b)
  end.

Definition probe_fs_name : option string := Cli.fs_name_of <$> f_type.

Definition probe_file : MK Cli.file_info :=
  if fails open_error then proc_op (fail_main debug)
  else
    proc_op acquire_file;;
    buf ← read_probe retries 0;
    let fi := Cli.FileInfo (Cli.probe_format buf) probe_fs_name in
    proc_op close_file;;
    mret fi.

(** ** Creating the worker *)

(** The zeroed structure. *)
Definition zero_worker (lib : world D) (p : proc) : WK :=
  Worker 0 0 0 (Src false [] 0) 0 ∅ [] [] 0 [] lib p 0 0 (ProgressBar.Progress 0 0 0 []).

(** Command [id]: nothing reads its buffer before it is written. *)
Definition create_command (opt : worker_options) (id : nat) : MK unit :=
  must_allocate;; (* calloc *)
  must_allocate;; (* malloc *)
  hash_op (modify (λ w, World (with_mem (<[id := zeros (read_size opt)]> (mem (sh w))) (sh w)) (hs w)));;
  modify (λ w, set_cmds (<[id := Command 0 0 false false]> (cmds w)) w).

Fixpoint create_commands (opt : worker_options) (ids : list nat) : MK unit :=
  match ids with
  | [] => mret tt
  | id :: ids' =>
      create_command opt id;;
      store id (set_completed true);;
      modify (λ w, set_queues (read_queue w) (hash_queue w ++ [id]) w);;
      create_commands opt ids'
  end.

(** The options, converted to the types of the library; [None] if it refused one. *)
Definition hash_options (opt : Cli.options) (ho : blkhash_opts) : option blkhash_opts :=
  let '(rc, ho) := blkhash_opts_set_queue_depth ho (u32 (Cli.queue_depth opt)) in
  if fails rc then None
  else
    let '(rc, ho) := blkhash_opts_set_block_size ho (u32 (Cli.block_size opt)) in
    if fails rc then None
    else
      let '(rc, ho) := blkhash_opts_set_threads ho (u8 (Cli.threads opt)) in
      if fails rc then None else Some ho.

Definition create_hash (opt : Cli.options) : MK unit :=
  err ← proc_op allocate;
  match (blkhash_opts_new err (Some (Cli.digest_name opt))).2 with
  | None => proc_op (fail_main debug)
  | Some ho =>
      match hash_options opt ho with
      | None => proc_op (fail_main debug)
      | Some ho =>
          err ← hash_op (blkhash_new_opts ho);
          proc_op release;; (* blkhash_opts_free *)
          if fails err then proc_op (fail_main debug)
          else
            fd ← hash_op blkhash_aio_completion_fd;
            if fd <? 0 then proc_op (fail_main debug) else mret tt
      end
  end.

(** The fields of the options that the worker reads. *)
Definition worker_opts (opt : Cli.options) : worker_options :=
  WorkerOptions (Cli.read_size opt) (Cli.queue_depth opt) (Cli.extents_size opt) (Cli.progress opt).

(** A server that was started, and the string with its URI. *)
Definition serve (name : string) (opt : Cli.options) (fi : Cli.file_info) : MI (string * Server.nbd_server) :=
  s ← machine_op (Server.start_nbd_server debug
    (Server.ServerOptions name (Cli.format fi) (Cli.aio opt) (Cli.cache opt)));
  match s with
  | None => crashM CExit
  | Some s =>
      uri ← machine_op (Server.nbd_server_uri s);
      match uri with None => crashM CExit | Some uri => mret (uri, s) end
  end.

(** The URI, the server, and the options, which are adapted to a local image. *)
Definition init_source (name : string) (opt : Cli.options) :
    MI (string * option Server.nbd_server * Cli.options) :=
  if Cli.is_nbd_uri name then work_op must_allocate;; mret (name, None, opt)
  else
    fi ← work_op probe_file;
    if have_nbd then
      let opt := Cli.optimize_for_nbd_server can_direct fi opt in
      '(uri, s) ← serve name opt fi;
      mret (uri, Some s, opt)
    else if negb (String.eqb (Cli.format fi) "raw") then work_op (proc_op (fail_main debug))
    else work_op must_allocate;; mret (name, None, opt).

Definition init_worker (name : string) (opt : Cli.options) :
    MI (string * option Server.nbd_server * Cli.options) :=
  '(uri, server, opt) ← init_source name opt;
  work_op (
    must_allocate;; (* the array of extents *)
    modify (set_src (Src false (replicate (Z.to_nat MAX_EXTENTS) (Extent 0 false)) 0));;
    create_commands (worker_opts opt) (seq 0 (Z.to_nat (Cli.queue_depth opt)));;
    create_hash opt);;
  mret (uri, server, opt).

(** ** The thread *)

(** Calls that open a source, from call [n] on. *)
Fixpoint source_calls (n count : nat) : MT unit :=
  match count with
  | O => mret tt
  | S count' => if fails (source_fault n) then fail_thread debug else source_calls (S n) count'
  end.

Definition source_alloc : MT unit :=
  err ← lift (proc_op allocate); if fails err then fail_thread debug else mret tt.

(** [nbd_create]; then [nbd_set_pread_initialize], [nbd_add_meta_context] and
    [nbd_connect_uri], which leave the handle behind when they fail. *)
Definition open_nbd : MT source :=
  source_calls 0 1;;
  lift (proc_op acquire_file);;
  source_calls 1 3;;
  source_alloc;;
  mret SrcNbd.

(** [open]; then two calls of [lseek], which leave the descriptor behind when they fail. *)
Definition open_file : MT source :=
  source_calls 0 1;;
  lift (proc_op acquire_file);;
  source_calls 1 2;;
  source_alloc;;
  mret SrcFile.

Definition open_src (uri : string) : MT source :=
  if Cli.is_nbd_uri uri then (if have_nbd then open_nbd else fail_thread debug) else open_file.

(** [nbd_shutdown] has no effect on the state. *)
Definition nbd_ops_close : MK unit := proc_op close_file;; proc_op release.
Definition file_ops_close : MK unit := proc_op close_file;; proc_op release.
Definition src_close (k : source) : MK unit := match k with SrcNbd => nbd_ops_close | SrcFile => file_ops_close end.

(** Calls of the progress bar, if it was asked for. *)
Definition with_bar (opt : worker_options) (m : M ProgressBar.progress unit) : MK unit :=
  if progress opt then bar_op m else mret tt.

(** The digest, if one was stored. *)
Definition worker_thread (uri : string) (opt : worker_options) : MT (option (list byte)) :=
  k ← open_src uri;
  lift (modify (λ w, set_image (zlen image) (set_src (Src (match k with SrcNbd => can_meta | SrcFile => false end)
    (s_extents (w_src w)) (s_count (w_src w))) w)));;
  lift (with_bar opt (ProgressBar.progress_init (zlen image)));;
  process_image (OUT := with_kind k OUT) opt debug loops;;
  r ← lift (proc_op running);
  '(err, md) ← lift
    (if r : bool then '(err, md) ← hash_op blkhash_final; mret (err, if fails err then None else Some md)
     else mret (0, None));
  lift (src_close k);;
  lift (with_bar opt ProgressBar.progress_clear);;
  if fails err then fail_thread debug else mret md.

(** ** Destroying the worker *)

Definition free_command : MK unit := proc_op release;; proc_op release.

(** The commands of both queues. *)
Fixpoint free_commands (l : list nat) : MK unit :=
  match l with [] => mret tt | _ :: l' => free_command;; free_commands l' end.

Definition destroy_commands : MK unit :=
  w ← get;
  free_commands (read_queue w);;
  free_commands (hash_queue w);;
  modify (set_queues [] []).

Definition destroy_worker (server : option Server.nbd_server) : MI unit :=
  work_op (hash_op blkhash_free);;
  (if server is Some _ then machine_op Server.free else work_op (proc_op release));; (* uri *)
  work_op (proc_op release);; (* the array of extents *)
  work_op destroy_commands;;
  if server is Some s then machine_op (Server.stop_nbd_server s;; Server.free) else mret tt.

(** ** The program *)

Definition start_worker : MK unit :=
  if fails thread_error then proc_op (fail_main debug) else mret tt.

(** The thread runs; the main thread waits for its end. *)
Definition join_worker (uri : string) (opt : worker_options) : MK (option (list byte)) :=
  md ← joined (worker_thread uri opt);
  if fails join_error then proc_op (fail_main debug) else mret (mjoin md).

Definition aio_checksum (name : string) (opt : Cli.options) : MI (option (list byte)) :=
  '(uri, server, opt) ← init_worker name opt;
  work_op start_worker;;
  md ← work_op (join_worker uri (worker_opts opt));
  destroy_worker server;;
  mret md.

Definition sigaction (signum : Z) : MI unit :=
  err ← machine_op (Server.attempt Server.SSigaction);
  if fails err then work_op (proc_op (fail_main debug))
  else machine_op (modify (λ m,
    Server.with_signals (Server.blocked m) (<[signum := Server.SigHandler]> (Server.actions m)) m)).

Definition setup_signals : MI unit := sigaction Server.SIGINT;; sigaction Server.SIGTERM.

(** [main] with a file name, after [parse_options]. *)
Definition main_image (name : string) (opt : Cli.options) : MI ending :=
  setup_signals;;
  md ← aio_checksum name opt;
  work_op (proc_op (finish_main md name)).
End image.
Arguments image_run D : clear implicits.
Arguments ImageRun {D}.
Arguments r_worker {D}.
Arguments r_machine {D}.
