(* ===== verification/ImageTheorems.v ===== *)
(** * blksum of an image prints the block hash of the image

    From the start of [main] to the line it prints: whatever fails, a line that is
    printed holds the block hash of the image; and if nothing fails, the line is printed,
    qemu-nbd and its socket are gone, the blocks and the hash were freed and the files
    closed.  What the code leaks is stated: [leaked] and [ServerTheorems.env_leak]. *)

From stdpp Require Import prelude list strings gmap.
From Stdlib Require Import ZArith Lia.
From S2P Require Import Prelude Ring State Digest Zero Event Completion Submission Config HashPool.
From S2P Require Import Blkhash PoolInv Progress Spec Init Session Api Reach Free Account Poll Client Thread Src Process Hasher AioChecksum AioInv AioLoop AioHash Blksum Image.
From S2P Require Cli Server ServerTheorems ProgressBar.

Local Open Scope Z_scope.

(** ** Signals *)

(** The file system, descriptors, children and allocations are the same. *)
Definition same_machine (x x' : Server.machine) : Prop :=
  Server.dirs x' = Server.dirs x ∧ Server.socks x' = Server.socks x ∧ Server.fds x' = Server.fds x ∧
  Server.procs x' = Server.procs x ∧ Server.heap x' = Server.heap x.

Section signals.
Context {D : Type} `{OS : !Os, MA : !Server.Machine} (debug : bool) (bad : crash → Prop).
Context (Hsig : signals_ok) (Hfault : (∃ n, Server.m_fault Server.SSigaction n ≠ 0) → bad CExit).
Implicit Types (w : worker (world D)) (x : Server.machine).

Lemma same_machine_ok x x' : same_machine x x' → ServerTheorems.machine_ok x → ServerTheorems.machine_ok x'.
Proof using Type. intros (E1 & E2 & _ & E4 & E5) []. split; rewrite ?E1, ?E2, ?E4, ?E5; done. Qed.

Lemma sigaction_ok signum w x :
  wpc bad (sigaction debug signum) (λ _ r', r_worker r' = w ∧ same_machine x (r_machine r')) (ImageRun w x).
Proof using Hfault Hsig.
  unfold sigaction, machine_op, work_op. do 2 wpc_step. simpl. apply wpc_wp. eapply wp_nf.
  { apply (ServerTheorems.attempt_ok Server.SSigaction x (λ e x', x' = Server.with_calls (S (Server.m_calls x)) x ∧
      (e ≠ 0 → ∃ n, Server.m_fault Server.SSigaction n ≠ 0))). by intros e He. }
  intros e x' [-> He]. cbv beta. unfold fails. destruct (e =? 0) eqn:E; simpl.
  - do 2 wpc_step. by split_and!.
  - wpc_step. unfold proc_op. wpc_step. apply fail_main_exits; [done|]. apply Hfault, He. lia.
Qed.

Lemma setup_signals_ok w x :
  wpc bad (setup_signals debug) (λ _ r', r_worker r' = w ∧ same_machine x (r_machine r')) (ImageRun w x).
Proof using Hfault Hsig.
  unfold setup_signals. wpc_step. eapply wpc_mono; [apply sigaction_ok|].
  intros _ [w1 x1] [Hw (E1 & E2 & E3 & E4 & E5)]. simpl in Hw, E1, E2, E3, E4, E5. subst w1. cbv beta.
  eapply wpc_mono; [apply sigaction_ok|]. intros _ r' [Hw (F1 & F2 & F3 & F4 & F5)]. split; [done|].
  split_and!; congruence.
Qed.
End signals.

(** Nothing of the server is left: no process, no file, and no memory but strings that
    [free_env] leaks when a variable of socket activation was set. *)
Definition machine_clean `{MA : !Server.Machine} (x x' : Server.machine) : Prop :=
  Server.procs x' = Server.procs x ∧ Server.dirs x' = Server.dirs x ∧ Server.socks x' = Server.socks x ∧
  Server.heap x <= Server.heap x' <= Server.heap x + ServerTheorems.env_leak ∧
  (Forall (λ v, Cli.is_listen v = false) Server.m_environ → Server.heap x' = Server.heap x).

(** The program freed what it allocated and its hash. *)
Definition all_freed {D} (r : image_run D) : Prop :=
  p_blocks (w_proc (r_worker r)) = 0 ∧ p_files (w_proc (r_worker r)) = 0 ∧ released (w_hash (r_worker r)).

(** The options of the hash. *)
Definition image_hash (opt : Cli.options) : blkhash_opts :=
  Opts (Cli.digest_name opt) (Cli.block_size opt) (Cli.queue_depth opt) (Cli.threads opt).

(** Options that [parse_options] and the library accept. *)
Record image_options (opt : Cli.options) : Prop := {
  io_hash : valid_opts (image_hash opt);
  io_even : Cli.block_size opt mod 2 = 0;
  io_worker : options_ok (worker_opts opt);
}.

(** The options after they were adapted to the image. *)
Definition adapted `{ST : !Storage} (opt opt' : Cli.options) : Prop :=
  opt' = opt ∨ ∃ fi, opt' = Cli.optimize_for_nbd_server can_direct fi opt.

Lemma adapted_ok `{ST : !Storage} opt opt' :
  image_options opt → adapted opt opt' →
  image_options opt' ∧ Cli.digest_name opt' = Cli.digest_name opt ∧ Cli.block_size opt' = Cli.block_size opt.
Proof.
  intros Ho [->|[fi ->]]; [done|]. destruct Ho as [[Hb Ht Hd] He [Hr Hq Hx]]. simpl in *.
  assert (u64 (2 * 1024 * 1024) = 2097152 ∧ u64 4 = 4) as [E1 E2] by (split; reflexivity).
  unfold Cli.optimize_for_nbd_server.
  repeat (case_match; cbv zeta); simpl; rewrite ?E1, ?E2; split_and!; try done; split; try split; simpl; rewrite ?E1, ?E2; done || lia.
Qed.

(** Nothing on the outside fails, except that the source may not open. *)
Record all_fine {D} `{DO : !DigestOps D, EV : !Env, OS : !Os, OUT : !Outside, ST : !Storage, MA : !Server.Machine}
    (G : nat) (dry : nat → nat) (name : string) (opt : Cli.options) : Prop := {
  af_os : calm_os;
  af_lib : ∀ opt', adapted opt opt' → live_env (D := D) (config_for (image_hash opt'));
  af_open : open_error = 0;
  af_probe : ∃ n b, (n ≤ retries)%nat ∧ (∀ i, (i < n)%nat → probe_read i = IoError EINTR) ∧
    probe_read n = IoData b ∧ (have_nbd = true ∨ Cli.probe_format (ztake PROBE_SIZE b) = "raw"%string);
  af_nbd : Cli.is_nbd_uri name = true → have_nbd = true;
  af_thread : thread_error = 0 ∧ join_error = 0;
  af_server : ¬ ServerTheorems.broken;
  af_source : source_ok;
  af_live : source_live G dry;
  af_loops : (enough (S spins) G ≤ loops)%nat;
}.

(** A call that opens the source fails. *)
Definition unopened `{ST : !Storage} : Prop := ∃ n, source_fault n ≠ 0.

(** What the first of them returned is lost when a later one fails. *)
Definition leaked `{ST : !Storage} : Z := if source_fault 0 =? 0 then 1 else 0.

(** The calls that open any source succeeded. *)
Definition opened `{ST : !Storage} : Prop := ∀ i, (i < 3)%nat → source_fault i = 0.

Section image.
Context {D : Type} `{DO : !DigestOps D, DL : !DigestLaws D, EV : !Env, OS : !Os, OUT : !Outside, ST : !Storage}.
Context `{MA : !Server.Machine} (debug : bool) (name : string) (opt : Cli.options).
Context (Hopt : image_options opt) (Himg : zlen image < 2 ^ 63) (Hsrc : source_truthful) (Hsig : signals_ok).
Context (G : nat) (dry : nat → nat) (bad : crash → Prop).
Local Abbreviation fine := (all_fine (D := D) G dry name opt).
Context (Hcase : fine ∨ ∀ k, bad k).
Local Abbreviation WK := (worker (world D)).
Implicit Types (w : WK) (r : image_run D) (x : Server.machine) (p : proc).


(** Every end is tolerated. *)
Local Abbreviation lax := (∀ k, bad k).

(** A path that needs a failure may end in any way. *)
Lemma crash_bad k : (fine → False) → bad k.
Proof using Hcase. intros Hf. by destruct Hcase as [?%Hf|?]. Qed.

Lemma fail_ends {A} (Q : A → WK → Prop) w : (fine → False) → wpc bad (proc_op (fail_main debug)) Q w.
Proof using Hcase Hsig. intros Hf. unfold proc_op. wpc_step. apply fail_main_exits; [done|by apply crash_bad]. Qed.

(** ** Allocations *)

(** The program is as before, with [n] more allocations. *)
Record grown (n : Z) p p' : Prop := {
  gr_running : is_running p' = is_running p;
  gr_blocks : p_blocks p' = p_blocks p + n;
  gr_files : p_files p' = p_files p;
}.

Lemma grown_trans n1 n2 p1 p2 p3 : grown n1 p1 p2 → grown n2 p2 p3 → grown (n1 + n2) p1 p3.
Proof using Type. intros [H1 H2 H3] [H4 H5 H6]. split; [congruence|lia|congruence]. Qed.

Lemma must_allocate_ok w (Q : unit → WK → Prop) :
  (∀ p', grown 1 (w_proc w) p' → Q tt (set_proc p' w)) → wpc bad (must_allocate debug) Q w.
Proof using Hcase Hsig.
  intros HQ. unfold must_allocate, proc_op. do 2 wpc_step. apply wpc_wp. eapply wp_mono; [apply allocate_ok|].
  intros err p1 (_ & Hr & Hfl & Hb & Hc). unfold fails. destruct (err =? 0) eqn:E; simpl.
  - wpc_step. apply HQ. split; [done|apply Hb; lia|done].
  - apply fail_ends. intros Hf. apply Hc; [lia|apply Hf].
Qed.

Lemma release_proc w (Q : unit → WK → Prop) :
  0 < p_blocks (w_proc w) → (∀ p', grown (-1) (w_proc w) p' → Q tt (set_proc p' w)) → wpc bad (proc_op release) Q w.
Proof using Type.
  intros Hb HQ. unfold proc_op. wpc_step. apply release_ok; [done|]. intros p' _ Hr Hp Hfl. apply HQ. split; [done|lia|done].
Qed.

(** ** Probing *)

Lemma read_probe_ok fuel n0 w :
  (fine → ∃ n b, (n0 ≤ n ≤ n0 + fuel)%nat ∧ (∀ i, (n0 ≤ i < n)%nat → probe_read i = IoError EINTR) ∧
    probe_read n = IoData b ∧ (have_nbd = true ∨ Cli.probe_format (ztake PROBE_SIZE b) = "raw"%string)) →
  wpc bad (read_probe debug fuel n0) (λ buf w', w' = w ∧ (fine → have_nbd = false → Cli.probe_format buf = "raw"%string)) w.
Proof using Hcase Hsig.
  revert n0. induction fuel as [|fuel IH]; intros n0 Hn; simpl; destruct (probe_read n0) as [b|e] eqn:Ep.
  1,3: wpc_step; (split; [done|]); intros Hf Hh; destruct (Hn Hf) as (n & b' & Hle & Hi & Hb & Hor);
    (destruct (decide (n = n0)) as [->|]; [|rewrite Hi in Ep by lia; done]);
    (assert (b' = b) as -> by congruence); destruct Hor; congruence.
  all: destruct (e =? EINTR) eqn:Ee; [|apply fail_ends; intros Hf; destruct (Hn Hf) as (n & b & Hle & Hi & Hb & _);
    (destruct (decide (n = n0)) as [->|]; [congruence|]); rewrite Hi in Ep by lia; injection Ep as <-;
    unfold EINTR in Ee; done].
  - apply wpc_crash, crash_bad. intros Hf. destruct (Hn Hf) as (n & b & Hle & Hi & Hb & _).
    assert (n = n0) as -> by lia. congruence.
  - apply IH. intros Hf. destruct (Hn Hf) as (n & b & Hle & Hi & Hb & Hor). exists n, b.
    assert (n ≠ n0) as Hne by (intros ->; congruence). split; [lia|]. split_and!; try done. intros i Hlt. apply Hi. lia.
Qed.

(** The file that is probed is closed. *)
Lemma probe_file_ok w :
  0 <= p_files (w_proc w) →
  wpc bad (probe_file debug) (λ fi w', w' = w ∧ (fine → have_nbd = false → Cli.format fi = "raw"%string)) w.
Proof using Hcase Hsig.
  intros Hfl. unfold probe_file, proc_op. unfold fails. destruct (open_error =? 0) eqn:E; simpl.
  2: { apply fail_ends. intros Hf. pose proof (af_open _ _ _ _ Hf). lia. }
  do 2 wpc_step. unfold acquire_file. do 2 wpc_step. eapply wpc_mono; [apply read_probe_ok|].
  - intros Hf. destruct (af_probe _ _ _ _ Hf) as (n & b & Hn & Hi & Hb & Hor). exists n, b. split; [lia|]. split_and!; try done.
    intros i Hlt. apply Hi. lia.
  - intros buf w' [-> Hraw]. do 2 wpc_step. simpl. apply close_file_ok; [simpl; lia|]. wpc_step.
    split; [|done]. destruct w as [? ? ? ? ? ? ? ? ? ? ? [] ? ? ?]. simpl. unfold set_proc, with_files. simpl. by rewrite Z.add_simpl_r.
Qed.

(** ** The source *)

(** The machine while the source is used: a server runs, and the string with its URI
    was allocated. *)
Definition serving x0 (server : option Server.nbd_server) x : Prop :=
  match server with
  | None => x = x0
  | Some s => s = ServerTheorems.server_of Server.m_pid ∧ 0 < Server.heap x ∧
      ∃ sopt, ServerTheorems.started debug sopt x0 (Server.with_heap (Server.heap x - 1) x)
  end.

Definition uri_ok (uri : string) : Prop := fine → Cli.is_nbd_uri uri = true → have_nbd = true.

Lemma serve_ok opt' fi x0 w :
  ServerTheorems.machine_ok x0 →
  wpc bad (serve debug name opt' fi) (λ u r', r_worker r' = w ∧ serving x0 (Some u.2) (r_machine r')) (ImageRun w x0).
Proof using Hcase.
  intros Hm. unfold serve, machine_op. do 2 wpc_step. simpl. apply wpc_wp.
  eapply wp_nf; [apply (ServerTheorems.start_ok debug _ x0 Hm)|].
  intros [s|] x1 Hs.
  2: { apply wpc_crash, crash_bad. intros Hf. by apply (af_server _ _ _ _ Hf), Hs. }
  destruct Hs as [-> Hs]. wpc_step. wpc_step. simpl. apply wpc_wp. unfold Server.nbd_server_uri. wp_step.
  eapply wp_nf; [apply ServerTheorems.alloc_ok|].
  intros ok x2 ((Q1 & Q2 & Q3 & Q4 & Q5 & Q6) & Hh & Hx). cbv beta. destruct ok; simpl negb; cbv iota.
  2: { wp_step. apply wpc_crash, crash_bad. intros Hf. apply (af_server _ _ _ _ Hf). by apply (ServerTheorems.broken_by Server.SAlloc), Hx. }
  wp_step. eapply wp_derefM; [done|]. wp_step. wpc_step. simpl. split; [done|].
  pose proof (ServerTheorems.mo_heap _ Hm). destruct Hs as [Sd Ss Sf [Sb Sa] Sh Sc].
  pose proof ServerTheorems.env_leak_nonneg.
  split_and!; [done|lia|]. replace (Server.heap x2 - 1) with (Server.heap x1) by lia.
  eexists. split; [cbn; congruence..|cbn; split; congruence|done|cbn; by rewrite Q4].
Qed.

Definition uri_blocks (server : option Server.nbd_server) : Z := if server is Some _ then 0 else 1.

Lemma init_source_ok x0 w :
  ServerTheorems.machine_ok x0 → 0 <= p_files (w_proc w) →
  wpc bad (init_source debug name opt) (λ u r', adapted opt u.2 ∧ uri_ok u.1.1 ∧ serving x0 u.1.2 (r_machine r') ∧
    ∃ p', r_worker r' = set_proc p' w ∧ grown (uri_blocks u.1.2) (w_proc w) p') (ImageRun w x0).
Proof using Hcase Hsig.
  intros Hm Hfl. unfold init_source, work_op. destruct (Cli.is_nbd_uri name) eqn:En.
  { wpc_step. wpc_step. simpl. apply must_allocate_ok. intros p' Hg. wpc_step. simpl.
    split_and!; [by left|intros Hf _; by apply (af_nbd _ _ _ _ Hf)|done|by exists p']. }
  wpc_step. wpc_step. simpl. eapply wpc_mono; [by apply probe_file_ok|]. intros fi w' [-> Hraw]. cbv beta.
  destruct have_nbd eqn:Hn.
  - cbv zeta. wpc_step. eapply wpc_mono; [by apply (serve_ok _ fi x0 w)|]. intros [uri s] [w1 x1] [Hw Hs]. simpl in Hw. subst w1.
    wpc_step. split_and!; [right; by exists fi|by intros _ _|exact Hs|]. exists (w_proc w). split; [by destruct w|split; [done|simpl; lia|done]].
  - destruct (String.eqb (Cli.format fi) "raw") eqn:Er; simpl.
    + wpc_step. wpc_step. simpl. apply must_allocate_ok. intros p' Hg. wpc_step. simpl.
      split_and!; [by left|intros _ ?; congruence|done|by exists p'].
    + wpc_step. simpl. apply fail_ends. intros Hf. rewrite (Hraw Hf eq_refl) in Er. done.
Qed.

(** ** The commands *)

(** The worker with the commands [l]. *)
Definition stage (l : list nat) (lib : world D) p : WK :=
  Worker 0 0 0 (Src false (replicate (Z.to_nat MAX_EXTENTS) (Extent 0 false)) 0) 0
    (list_to_map ((λ id, (id, Command 0 0 true false)) <$> l)) [] l 0 [] lib p 0 0 (ProgressBar.Progress 0 0 0 []).

Lemma create_commands_ok wopt l2 l1 m p :
  NoDup (l1 ++ l2) → (∀ id, id ∈ l1 → m !! id = Some (zeros (read_size wopt))) →
  wpc bad (create_commands debug wopt l2) (λ _ w', ∃ m' p', w' = stage (l1 ++ l2) (fresh_world m') p' ∧
    grown (2 * zlen l2) p p' ∧ ∀ id, id ∈ l1 ++ l2 → m' !! id = Some (zeros (read_size wopt)))
    (stage l1 (fresh_world m) p).
Proof using Hcase Hsig.
  revert l1 m p. induction l2 as [|id l2 IH]; intros l1 m p Hnd Hm; simpl.
  { wpc_step. exists m, p. rewrite app_nil_r. split_and!; [done|split; [done|rewrite (zlen_nil (A := nat)); lia|done]|done]. }
  assert ((id ∉ l1) ∧ NoDup ((l1 ++ [id]) ++ l2)) as [Hid Hnd'].
  { split; [|by rewrite <-app_assoc]. apply NoDup_app in Hnd as (_ & Hd & _). intros Hin. apply (Hd id Hin). by left. }
  wpc_step. unfold create_command. wpc_step. apply must_allocate_ok. intros p1 Hg1. wpc_step.
  apply must_allocate_ok. intros p2 Hg2. unfold hash_op. wpc_step. wpc_step. wpc_step. wpc_step. wpc_step.
  eapply wpc_store; [by apply lookup_insert_eq|]. wpc_step. wpc_step. simpl.
  match goal with |- wpc _ _ _ ?W => replace W with (stage (l1 ++ [id])
    (fresh_world (<[id := zeros (read_size wopt)]> m)) p2) end.
  2: { unfold stage. rewrite fmap_app, insert_insert_eq. simpl. rewrite list_to_map_snoc; [done|].
       rewrite <-list_fmap_compose. simpl. by rewrite list_fmap_id. }
  eapply wpc_mono; [apply IH; [done|]|].
  - intros j [Hj| ->%list_elem_of_singleton]%elem_of_app; [|by rewrite lookup_insert_eq].
    rewrite lookup_insert_ne; [by apply Hm|]. by intros ->.
  - intros _ w' (m' & p' & -> & Hg & Hm'). exists m', p'. rewrite <-app_assoc in Hm' |- *. simpl in Hm' |- *.
    split_and!; [done| |done]. replace (2 * zlen (id :: l2)) with (1 + 1 + 2 * zlen l2) by (rewrite zlen_cons; lia).
    eapply grown_trans; [by eapply grown_trans|done].
Qed.
(** ** The hash *)

Lemma hash_options_ok opt' o :
  image_options opt' → o_digest_name o = Cli.digest_name opt' → hash_options opt' o = Some (image_hash opt').
Proof using Type.
  intros [Hv He _] Hn. unfold hash_options, blkhash_opts_set_queue_depth, blkhash_opts_set_block_size,
    blkhash_opts_set_threads, image_hash, fails. destruct Hv as [Hb Ht Hd]. simpl in *. unfold MAX_THREADS in *.
  rewrite (u32_small (Cli.queue_depth opt')), (u32_small (Cli.block_size opt')), (u8_small (Cli.threads opt')) by lia.
  rewrite He, Hn. simpl.
  destruct ((Cli.threads opt' <? 1) || (128 <? Cli.threads opt')) eqn:E; [lia|done].
Qed.

Lemma new_hash_ok opt' m (Q : Z → world D → Prop) :
  image_options opt' → adapted opt opt' →
  (∀ h, represents (config_for (image_hash opt')) [] [] false h → finished (image_hash opt') h → mem (sh h) = m →
    is_Some (cq_event (cq (sh h))) → Q 0 h) →
  (∀ rc h, rc ≠ 0 → (fine → False) → Q rc h) →
  wpc bad (blkhash_new_opts (image_hash opt')) Q (fresh_world m).
Proof using Hcase DL.
  intros [Hv _ [_ Hd _]] Ha H0 Hne. pose proof (blkhash_new_opts_inv_at 0 (image_hash opt') m Hv) as Hx.
  assert (fine → calm (D := D) (Cli.digest_name opt')) as Hcalm by (intros Hf; apply (af_lib _ _ _ _ Hf opt' Ha)).
  unfold wpx in Hx. unfold wpc.
  change (fresh_world m) with (World (with_n_fault 0 (sh (fresh_world (D := D) m))) (hs (fresh_world (D := D) m))).
  destruct (blkhash_new_opts _ _) as [rc h|k].
  - destruct Hx as [Hx0 Hx1]. destruct (decide (rc = 0)) as [->|Hrc]; [|apply Hne; auto].
    destruct (Hx0 eq_refl) as [Hapi Hb]. apply H0; [by eapply new_represents|by eapply new_finished|apply Hb|].
    destruct Hb as [_ _ _ _ (_ & _ & Hev & _) _ _ _ _]. apply Hev. simpl in *. lia.
  - apply crash_bad. intros Hf. by apply Hx, Hcalm.
Qed.

Lemma image_hash_created opt' l m p :
  image_options opt' → adapted opt opt' → 0 <= p_blocks p →
  wpc bad (create_hash debug opt') (λ _ w', ∃ h p', w' = stage l h p' ∧ grown 0 p p' ∧
    represents (config_for (image_hash opt')) [] [] false h ∧ finished (image_hash opt') h ∧ mem (sh h) = m) (stage l (fresh_world m) p).
Proof using Hcase Hsig DL.
  intros Ho Ha Hp. unfold create_hash, proc_op, hash_op. do 2 wpc_step. apply wpc_wp. eapply wp_mono; [apply allocate_ok|].
  intros err p1 (_ & Hr & Hfl & Hb & Hc). unfold blkhash_opts_new. unfold fails at 1. destruct (err =? 0) eqn:E; simpl.
  2: { apply fail_ends. intros Hf. apply Hc; [lia|apply Hf]. }
  specialize (Hb ltac:(lia)). simpl in Hb. rewrite (hash_options_ok opt') by done. do 2 wpc_step.
  apply (new_hash_ok opt'); [done..| |]; simpl; fold (stage l (fresh_world m) p1).
  - intros h Hre Hfin Hm Hev. wpc_step. wpc_step. simpl. apply release_ok; [lia|]. intros p2 _ Hr2 Hb2 Hf2.
    unfold fails. simpl. do 2 wpc_step. unfold blkhash_aio_completion_fd. do 2 wpc_step. simpl.
    destruct Hev as [v Hev]. rewrite Hev. wpc_step. simpl. wpc_step. exists h, p2. split_and!; try done.
    split; [by rewrite Hr2|lia|by rewrite Hf2].
  - intros rc h Hrc Hf. wpc_step. wpc_step. simpl. apply release_ok; [lia|]. intros p2 _ Hr2 Hb2 Hf2.
    unfold fails. destruct (rc =? 0) eqn:Ec; [lia|]. simpl. by apply fail_ends.
Qed.
(** The worker that [init_worker] leaves: all commands, and a new hash. *)
Definition prepared opt' h p : WK := stage (seq 0 (Z.to_nat (Cli.queue_depth opt'))) h p.

(** What was allocated. *)
Definition blocks_of opt' server : Z := uri_blocks server + 1 + 2 * Cli.queue_depth opt'.

Definition initial opt' (h : world D) : Prop :=
  represents (config_for (image_hash opt')) [] [] false h ∧ finished (image_hash opt') h ∧
  ∀ id, (id < Z.to_nat (Cli.queue_depth opt'))%nat → mem (sh h) !! id = Some (zeros (Cli.read_size opt')).

Lemma init_worker_ok x0 m p :
  ServerTheorems.machine_ok x0 → 0 <= p_blocks p → 0 <= p_files p →
  wpc bad (init_worker debug name opt) (λ u r', adapted opt u.2 ∧ uri_ok u.1.1 ∧ serving x0 u.1.2 (r_machine r') ∧
    ∃ h p', r_worker r' = prepared u.2 h p' ∧ initial u.2 h ∧ grown (blocks_of u.2 u.1.2) p p')
    (ImageRun (zero_worker (fresh_world m) p) x0).
Proof using Hcase Hsig DL Hopt.
  intros Hm Hp Hfl. unfold init_worker. wpc_step. eapply wpc_mono; [by apply init_source_ok|].
  intros [[uri server] opt'] [w1 x1] (Ha & Hu & Hs & p1 & Hw & Hg1). simpl in Ha, Hu, Hw, Hg1. subst w1. cbv beta iota.
  destruct (adapted_ok _ _ Hopt Ha) as (Ho & _). pose proof (oo_depth _ (io_worker _ Ho)) as Hd. simpl in Hd.
  wpc_step. unfold work_op. wpc_step. wpc_step. apply must_allocate_ok. intros p2 Hg2. wpc_step. wpc_step. wpc_step. simpl.
  set (ids := seq 0 (Z.to_nat (Cli.queue_depth opt'))).
  assert (zlen ids = Cli.queue_depth opt') as Hids by (unfold zlen, ids; rewrite length_seq; lia).
  eapply wpc_mono; [apply (create_commands_ok (worker_opts opt') ids [] m p2); [apply NoDup_seq|by intros id ?%elem_of_nil]|].
  intros _ w' (m' & p3 & -> & Hg3 & Hm'). simpl in *.
  eapply wpc_mono; [apply image_hash_created; [done..|]|].
  { destruct Hg1 as [_ Hb1 _], Hg2 as [_ Hb2 _], Hg3 as [_ Hb3 _]. simpl in *. unfold uri_blocks in *. destruct server; lia. }
  intros _ w' (h & p4 & -> & Hg4 & Hre & Hfin & Hmem). wpc_step. split_and!; [done..|]. exists h, p4. split_and!; [done| |].
  - split_and!; [done..|]. intros id Hid. simpl in Hid |- *. rewrite Hmem. apply Hm'. apply elem_of_seq. lia.
  - pose proof (grown_trans _ _ _ _ _ Hg1 (grown_trans _ _ _ _ _ Hg2 (grown_trans _ _ _ _ _ Hg3 Hg4))) as [Hr Hb Hn].
    split; [done| |done]. simpl in *. unfold blocks_of. rewrite Hids in Hb. lia.
Qed.

(** ** The thread *)

(** Why there is no digest although nothing else failed: the source was not opened, and
    what [nbd_create] or [open] returned was not closed. *)
Record excused opt' p w : Prop := {
  xc_unopened : unopened;
  xc_hash : finished (image_hash opt') (w_hash w);
  xc_blocks : p_blocks (w_proc w) = p_blocks p;
  xc_files : p_files (w_proc w) = p_files p + leaked;
}.

(** At most one block and one file more: the source is still open. *)
Definition holds p p' : Prop :=
  p_blocks p <= p_blocks p' <= p_blocks p + 1 ∧ p_files p <= p_files p' <= p_files p + 1.

(** What a thread that failed leaves: every command is in a queue, and the source may
    still be open. *)
Definition lost opt' p w : Prop :=
  (lax ∨ excused opt' p w) ∧
  zlen (read_queue w ++ hash_queue w) = Cli.queue_depth opt' ∧ holds p (w_proc w) ∧ is_running (w_proc w) = false.

Lemma fail_thread_ok {A} opt' p (Q : A → WK → Prop) w :
  (fine → False) ∨ excused opt' p w →
  zlen (read_queue w ++ hash_queue w) = Cli.queue_depth opt' → holds p (w_proc w) → wpt bad (lost opt' p) (fail_thread debug) Q w.
Proof using Hcase Hsig.
  intros Hf Hq Hb. apply wpt_exit. unfold proc_op. wpc_step.
  eapply wpc_mono; [apply (fail_worker_ok Hsig)|]. intros _ p' (Hb' & Hf' & Hr).
  unfold lost, holds in *. split_and!; [|done|simpl; lia..|done].
  destruct Hf as [Hf|[? ? ? ?]]; [|right; split; simpl; congruence]. destruct Hcase as [?%Hf|Hl]; [done|by left].
Qed.

Section opening.
Context (opt' : Cli.options) (h : world D) (p : proc).
Local Abbreviation before p' := (prepared opt' h p').

Lemma prepared_queues p' : zlen (read_queue (before p') ++ hash_queue (before p')) = Z.of_nat (Z.to_nat (Cli.queue_depth opt')).
Proof using Type. unfold zlen. simpl. by rewrite length_seq. Qed.

Context (Hd : 0 < Cli.queue_depth opt') (Hfin : finished (image_hash opt') h).

Lemma open_fails {A} (Q : A → WK → Prop) p' :
  (fine → False) ∨ unopened ∧ p_files p' = p_files p + leaked → p_blocks p' = p_blocks p →
  p_files p <= p_files p' <= p_files p + 1 → wpt bad (lost opt' p) (fail_thread debug) Q (before p').
Proof using Hcase Hsig Hd Hfin.
  intros Hf Hb Hn. apply fail_thread_ok; [|rewrite prepared_queues; lia|unfold holds; simpl; lia].
  destruct Hf as [?|[? ?]]; [by left|right]. by split.
Qed.

Lemma source_calls_ok count n p' :
  p_blocks p' = p_blocks p → p_files p <= p_files p' <= p_files p + 1 →
  (∀ i, (n ≤ i < n + count)%nat → source_fault i ≠ 0 → p_files p' = p_files p + leaked) →
  wpt bad (lost opt' p) (source_calls debug n count)
    (λ _ w', w' = before p' ∧ ∀ i, (n ≤ i < n + count)%nat → source_fault i = 0) (before p').
Proof using Hcase Hsig Hd Hfin.
  intros Hb Hn. revert n. induction count as [|count IH]; intros n Hl; simpl; [wpt_step; split; [done|lia]|].
  unfold fails. destruct (source_fault n =? 0) eqn:E; simpl.
  { eapply wpt_mono; [apply IH; intros i Hi; apply Hl; lia|]. intros _ w' [-> Hi]. split; [done|]. intros i Hlt.
    destruct (decide (i = n)) as [->|]; [lia|]. apply Hi. lia. }
  apply open_fails; [|done..]. right. split; [exists n; lia|apply (Hl n); lia].
Qed.

Lemma source_alloc_ok p' :
  p_blocks p' = p_blocks p → p_files p <= p_files p' <= p_files p + 1 →
  wpt bad (lost opt' p) (source_alloc debug) (λ _ w', ∃ p'', w' = before p'' ∧ grown 1 p' p'') (before p').
Proof using Hcase Hsig Hd Hfin.
  intros Hb Hn. unfold source_alloc, proc_op, allocate. do 7 wpt_step. simpl.
  unfold fails. destruct (os_alloc (n_allocs p') =? 0) eqn:E; simpl.
  - wpt_step. eexists. by split.
  - apply open_fails; [|done..]. left. intros Hf. destruct (af_os _ _ _ _ Hf) as (_ & _ & Ha). specialize (Ha (n_allocs p')). lia.
Qed.

(** The source is open: it has a block and a file. *)
Record holding p' : Prop := {
  hg_running : is_running p' = is_running p;
  hg_blocks : p_blocks p' = p_blocks p + 1;
  hg_files : p_files p' = p_files p + 1;
}.

Lemma open_src_ok uri :
  uri_ok uri → wpt bad (lost opt' p) (open_src debug uri) (λ _ w', opened ∧ ∃ p', w' = before p' ∧ holding p') (before p).
Proof using Hcase Hsig Hd Hfin.
  intros Hu. assert (∀ count (k : source), (2 ≤ count)%nat →
    wpt bad (lost opt' p) (source_calls debug 0 1;; lift (proc_op acquire_file);; source_calls debug 1 count;;
      source_alloc debug;; mret k) (λ _ w', opened ∧ ∃ p', w' = before p' ∧ holding p') (before p)) as Hopen.
  { intros count k Hc. wpt_step. eapply wpt_mono; [apply source_calls_ok; [done|lia|]|].
    { intros i Hi Hs. assert (i = 0%nat) as -> by lia. unfold leaked. destruct (source_fault 0 =? 0) eqn:E; lia. }
    intros _ w' [-> H0]. specialize (H0 0%nat ltac:(lia)). cbv beta. unfold proc_op, acquire_file. do 4 wpt_step. simpl.
    set (p1 := with_files (p_files p + 1) p). change (set_proc p1 (before p)) with (before p1).
    eapply wpt_mono; [apply (source_calls_ok count 1 p1); [done|simpl; lia|]|].
    { intros i _ _. unfold leaked. by rewrite H0. }
    intros _ w' [-> Hi]. cbv beta. wpt_step. eapply wpt_mono; [apply (source_alloc_ok p1); [done|simpl; lia]|].
    intros _ w1 (p2 & -> & [Hr Hb Hn]). wpt_step. split; [|exists p2; by split]. intros i Hlt.
    destruct i as [|i]; [done|]. apply Hi. lia. }
  unfold open_src. destruct (Cli.is_nbd_uri uri) eqn:E; [|apply Hopen; lia]. destruct have_nbd eqn:En; [apply Hopen; lia|].
  apply open_fails; [|done|lia]. left. intros Hf. rewrite (Hu Hf E) in En. done.
Qed.
End opening.

Lemma src_close_ok k w (Q : unit → WK → Prop) :
  0 < p_blocks (w_proc w) → 0 < p_files (w_proc w) →
  (∀ p', is_running p' = is_running (w_proc w) → p_blocks p' = p_blocks (w_proc w) - 1 → p_files p' = p_files (w_proc w) - 1 →
    Q tt (set_proc p' w)) → wpc bad (src_close k) Q w.
Proof using Type.
  intros Hb Hn HQ. assert (wpc bad (proc_op close_file;; proc_op release) Q w) as Hw; [|by destruct k].
  unfold proc_op. do 2 wpc_step. apply close_file_ok; [done|]. wpc_step. apply release_ok; [done|].
  intros p' _ Hr Hb' Hn'. by apply HQ.
Qed.

Lemma with_bar_ok wopt m (Q : unit → WK → Prop) w :
  wpc bad m (λ _ b, progress wopt = true → Q tt (set_bar b w)) (w_bar w) → (progress wopt = false → Q tt w) →
  wpc bad (with_bar wopt m) Q w.
Proof using Type.
  intros Hm HQ. unfold with_bar. destruct (progress wopt); [|wpc_step; auto].
  unfold bar_op. wpc_step. eapply wpc_mono; [exact Hm|]. intros [] b Hb. by apply Hb.
Qed.

(** What the thread leaves: every command is in a queue, a digest is that of the image,
    and then the source was closed. *)
Record thread_done opt' p (md : option (list byte)) w : Prop := {
  td_queues : zlen (read_queue w ++ hash_queue w) = Cli.queue_depth opt';
  td_holds : holds p (w_proc w);
  td_running : lax ∨ is_running (w_proc w) = is_running p ∨ excused opt' p w;
  td_none : md = None → is_running (w_proc w) = false;
  td_digest d : md = Some d → d = digest_of (D := D) (image_hash opt') image ∧ finished (image_hash opt') (w_hash w) ∧
    p_blocks (w_proc w) = p_blocks p ∧ p_files (w_proc w) = p_files p ∧ opened;
}.

(** The end of the thread: the digest, and the source is closed. *)
Lemma thread_end opt' k p p1 w :
  image_options opt' → adapted opt opt' → later p1 (w_proc w) → holding p p1 → 0 <= p_blocks p → 0 <= p_files p →
  opened → zlen (read_queue w ++ hash_queue w) = Cli.queue_depth opt' →
  (is_running (w_proc w) = true → represents (config_for (image_hash opt')) image [] false (w_hash w)) →
  wpt bad (lost opt' p)
    (r ← lift (proc_op running);
     '(err, md) ← lift
       (if r : bool then '(err, md) ← hash_op blkhash_final; mret (err, if fails err then None else Some md)
        else mret (0, None));
     lift (src_close k);;
     lift (with_bar (worker_opts opt') ProgressBar.progress_clear);;
     if fails err then fail_thread debug else mret md) (thread_done opt' p) w.
Proof using Hcase Hsig DL.
  intros Ho Ha Hl2 [Hr1 Hb1 Hn1] Hp Hpn Hopd Hq Hdone.
  assert (bad CNoFuel ∨ live_env (D := D) (config_for (image_hash opt'))) as Hnf.
  { destruct Hcase as [Hf|?]; [right; by apply (af_lib _ _ _ _ Hf)|by left]. }
  assert (∀ md w, thread_done opt' p md w → ∀ b, thread_done opt' p md (set_bar b w)) as Hbar.
  { intros md x [? ? Hr ? ?] b. split; try done. destruct Hr as [?|[?|[]]]; [tauto..|]. do 2 right. by split. }
  unfold proc_op. wpt_step. wpt_step. apply wpc_wp. eapply wp_mono; [apply running_ok; done|].
  intros b p2 (Hl & _ & ->). cbv beta.
  assert (p_blocks p2 = p_blocks p + 1) as Hb2 by (rewrite (lt_blocks _ _ Hl), (lt_blocks _ _ Hl2); lia).
  assert (p_files p2 = p_files p + 1) as Hn2 by (rewrite (lt_files _ _ Hl), (lt_files _ _ Hl2); lia).
  assert (lax ∨ is_running p2 = is_running p) as Hr2.
  { destruct Hcase as [Hf|?]; [right|by left]. pose proof (af_os _ _ _ _ Hf) as Hc.
    rewrite (lt_calm _ _ Hl Hc), (lt_calm _ _ Hl2 Hc). done. }
  wpt_step. destruct (is_running p2) eqn:Er.
  - assert (is_running (w_proc w) = true) as Hrun.
    { destruct (is_running (w_proc w)) eqn:E; [done|]. by rewrite (later_stopped _ _ Hl E) in Er. }
    wpc_step. unfold hash_op. wpc_step.
    eapply wpc_mono; [by apply (final_law bad (image_hash opt') Hnf image), Hdone|]. intros [err md] h3 [H0 Hne]. simpl in H0, Hne.
    cbv beta iota. wpc_step. wpt_step. apply src_close_ok; [simpl; lia..|]. intros p3 Hr3 Hb3 Hn3. simpl in Hr3, Hb3, Hn3. wpt_step.
    assert (∀ x : WK, zlen (read_queue x ++ hash_queue x) = Cli.queue_depth opt' → w_proc x = p3 → w_hash x = h3 →
      wpt bad (lost opt' p) (if fails err then fail_thread debug else mret (if fails err then None else Some md))
        (thread_done opt' p) x) as Hend.
    { intros x Hqx Hpx Hhx. unfold fails. destruct (err =? 0) eqn:Ee; simpl.
      - wpt_step. destruct (H0 ltac:(lia)) as [-> Hfin]. split; rewrite ?Hpx, ?Hhx; try done; [unfold holds; lia|rewrite Hr3, Er; tauto|].
        intros d [= <-]. split_and!; [done..|lia|lia|done].
      - apply fail_thread_ok; [|done|rewrite Hpx; unfold holds; lia]. left. intros Hf. apply Hne; [lia|by apply (af_lib _ _ _ _ Hf)]. }
    apply with_bar_ok; [|by intros _; apply Hend]. apply wpc_modify. intros _. by apply Hend.
  - wpc_step. wpt_step. apply src_close_ok; [simpl; lia..|]. intros p3 Hr3 Hb3 Hn3. simpl in Hr3, Hb3, Hn3. wpt_step.
    change (fails 0) with false.
    assert (thread_done opt' p None (set_proc p3 (set_proc p2 w))) as Hend.
    { split; simpl; try done; [unfold holds; lia|rewrite Hr3, Er; tauto|by rewrite Hr3]. }
    apply with_bar_ok; [apply wpc_modify; intros _; wpt_step; by apply Hbar|intros _; by wpt_step].
Qed.

Lemma worker_thread_ok uri opt' h p :
  image_options opt' → adapted opt opt' → uri_ok uri → initial opt' h → 0 <= p_blocks p → 0 <= p_files p →
  wpt bad (lost opt' p) (worker_thread debug uri (worker_opts opt')) (thread_done opt' p) (prepared opt' h p).
Proof using Hcase Hsig DL Himg Hsrc.
  intros Ho Ha Hu (Hre & Hfin & Hbuf) Hp Hpn. set (c := config_for (image_hash opt')).
  assert (bad CNoFuel ∨ live_env (D := D) c) as Hnf.
  { destruct Hcase as [Hf|?]; [right; by apply (af_lib _ _ _ _ Hf)|by left]. }
  assert (0 < State.queue_depth c) as Hdep by apply (oo_depth _ (io_worker _ Ho)).
  unfold worker_thread. wpt_step. eapply wpt_mono; [by apply open_src_ok|].
  intros k w1 (Hopd & p1 & -> & Hg1). cbv beta. wpt_step. wpt_step. wpt_step.
  set (can := match k with SrcNbd => can_meta | SrcFile => false end).
  assert (∀ b, (Cli.progress opt' = true → ProgressBar.shows (zlen image) 0 [] b) →
    wpt bad (lost opt' p)
      (process_image (OUT := with_kind k OUT) (worker_opts opt') debug loops;;
       r ← lift (proc_op running);
       '(err, md) ← lift
         (if r : bool then '(err, md) ← hash_op blkhash_final; mret (err, if fails err then None else Some md)
          else mret (0, None));
       lift (src_close k);;
       lift (with_bar (worker_opts opt') ProgressBar.progress_clear);;
       if fails err then fail_thread debug else mret md) (thread_done opt' p)
      (new_worker (OUT := with_kind k OUT) (worker_opts opt') can h p1 b)) as Hloop.
  { intros b Hbar. wpt_step. eapply wpt_mono.
    { apply (process_image_new (OUT := with_kind k OUT) (HL := library_laws bad c Hnf Hdep) (worker_opts opt') debug bad
        (lost opt' p) (live_env (D := D) c) (S spins) can h p1 b [] G dry loops); [apply Ho|done|by destruct Hsrc|done|done| |done|].
      - intros id Hid. exists (zeros (Cli.read_size opt')). split; [by apply Hbuf|]. apply zlen_zeros.
        pose proof (oo_read _ (io_worker _ Ho)). simpl in *. lia.
      - destruct Hcase as [Hf|Hl]; [left|right].
        + destruct (af_source _ _ _ _ Hf), (af_live _ _ _ _ Hf).
          split_and!; [by apply (af_lib _ _ _ _ Hf)|by split|by split|apply (af_loops _ _ _ _ Hf)].
        + split; [done|]. intros w [Hq Hb Hn Hr]. simpl in Hq. destruct Hg1. unfold lost, holds. split_and!; [by left|done|lia..|done]. }
    intros _ w2 (Hl2 & Hq & Hdone). simpl in Hdone, Hq.
    apply (thread_end opt' k p p1); [done..|]. intros Hrun. by destruct (Hdone Hrun) as (? & _). }
  apply with_bar_ok; simpl.
  - apply wpc_modify. intros _. apply (Hloop (ProgressBar.Progress (zlen image) 0 (-1) [])). intros _.
    apply (ProgressBar.shows_start (zlen image) (ProgressBar.Progress 0 0 0 [])).
  - intros Hno. apply (Hloop (ProgressBar.Progress 0 0 0 [])). congruence.
Qed.

(** ** Destroying the worker *)

Lemma free_commands_ok l w (Q : unit → WK → Prop) :
  2 * zlen l <= p_blocks (w_proc w) → (∀ p', grown (- (2 * zlen l)) (w_proc w) p' → Q tt (set_proc p' w)) →
  wpc bad (free_commands l) Q w.
Proof using Type.
  revert w. induction l as [|id l IH]; intros w Hl HQ; simpl.
  { wpc_step. replace w with (set_proc (w_proc w) w) by (by destruct w). apply HQ. split; [done|rewrite (zlen_nil (A := nat)); lia|done]. }
  rewrite zlen_cons in Hl, HQ. pose proof (zlen_nonneg l). unfold free_command. wpc_step. wpc_step.
  apply release_proc; [lia|]. intros p1 Hg1. apply release_proc; [destruct Hg1; simpl; lia|]. intros p2 Hg2.
  pose proof (grown_trans _ _ _ _ _ Hg1 Hg2) as Hg. simpl in Hg.
  apply IH; [destruct Hg; simpl; lia|]. intros p3 Hg3. simpl in *. apply HQ.
  destruct Hg, Hg3. split; [congruence|lia|congruence].
Qed.

Lemma destroy_commands_ok w (Q : unit → WK → Prop) :
  let n := 2 * (zlen (read_queue w) + zlen (hash_queue w)) in
  n <= p_blocks (w_proc w) → (∀ p', grown (- n) (w_proc w) p' → Q tt (set_queues [] [] (set_proc p' w))) →
  wpc bad destroy_commands Q w.
Proof using Type.
  simpl. intros Hn HQ. pose proof (zlen_nonneg (read_queue w)). pose proof (zlen_nonneg (hash_queue w)).
  unfold destroy_commands. wpc_step. wpc_step. wpc_step. apply free_commands_ok; [lia|]. intros p1 Hg1. wpc_step.
  apply free_commands_ok; [destruct Hg1; simpl; lia|]. intros p2 Hg2. wpc_step. apply HQ.
  destruct Hg1, Hg2. simpl in *. split; [congruence|lia|congruence].
Qed.

(** The machine after the server was stopped: of its memory only strings that [free_env]
    does not free are left. *)
Definition restored x0 x : Prop :=
  Server.fds x = Server.fds x0 ∧ Server.blocked x = Server.blocked x0 ∧ Server.actions x = Server.actions x0 ∧
  (¬ ServerTheorems.broken → Server.dirs x = Server.dirs x0 ∧ Server.socks x = Server.socks x0 ∧ Server.procs x = Server.procs x0 ∧
    Server.heap x0 <= Server.heap x <= Server.heap x0 + ServerTheorems.env_leak).

Lemma free_machine x (Q : unit → Server.machine → Prop) :
  0 < Server.heap x → Q tt (Server.with_heap (Server.heap x - 1) x) → wpc bad Server.free Q x.
Proof using Type.
  intros Hh HQ. unfold Server.free. do 3 wpc_step. rewrite (proj2 (Z.ltb_lt _ _)) by done. by do 2 wpc_step.
Qed.

Lemma stop_server_ok sopt x0 x1 (Q : unit → Server.machine → Prop) :
  ServerTheorems.machine_ok x0 → ServerTheorems.started debug sopt x0 x1 → (∀ x, restored x0 x → Q tt x) →
  wpc bad (Server.stop_nbd_server (ServerTheorems.server_of Server.m_pid);; Server.free) Q x1.
Proof using Type.
  intros Hm Hs HQ. pose proof (ServerTheorems.mo_heap _ Hm). pose proof (ServerTheorems.sd_heap _ _ _ _ Hs).
  pose proof ServerTheorems.env_leak_nonneg.
  wpc_step. apply wpc_wp. eapply wp_nf; [by apply (ServerTheorems.stop_ok debug sopt x0 x1)|].
  intros s x2 (Hf & Hb & Ha & Hh & Hr). apply free_machine; [lia|]. apply HQ. split_and!; simpl; try done. intros Hok. destruct (Hr Hok) as (? & ? & ? & ?).
  split_and!; try done; lia.
Qed.

Lemma destroy_worker_ok server opt' p md w x0 x :
  image_options opt' → adapted opt opt' → ServerTheorems.machine_ok x0 → serving x0 server x →
  thread_done opt' p md w → is_running p = true → blocks_of opt' server <= p_blocks p →
  wpc bad (destroy_worker server) (λ _ r', restored x0 (r_machine r') ∧
    grown (- blocks_of opt' server) (w_proc w) (w_proc (r_worker r')) ∧
    (lax ∨ returned (image_hash opt') (w_hash (r_worker r'))) ∧ (is_Some md → returned (image_hash opt') (w_hash (r_worker r'))))
    (ImageRun w x).
Proof using Hcase DL.
  intros Ho Ha Hm Hs [Hq [Hb _] Hrun Hnone Hdig] Hp Hle. rewrite zlen_app in Hq. pose proof (oo_depth _ (io_worker _ Ho)) as Hd. simpl in Hd.
  unfold blocks_of in *. assert (0 <= uri_blocks server <= 1) as Hu by (by destruct server).
  unfold destroy_worker, work_op, machine_op, hash_op. wpc_step. wpc_step. wpc_step. simpl.
  assert (bad CNoFuel ∨ live_env (D := D) (config_for (image_hash opt'))) as Hnf.
  { destruct Hcase as [Hf|?]; [right; by apply (af_lib _ _ _ _ Hf)|by left]. }
  assert (∀ Q : unit → world D → Prop, (∀ h, lax ∨ returned (image_hash opt') h → (is_Some md → returned (image_hash opt') h) → Q tt h) →
    wpc bad blkhash_free Q (w_hash w)) as Hfree.
  { intros Q HQ. destruct md as [d|]; [|destruct Hrun as [Hl|[Hrun|Hx]]].
    - apply (free_law bad (image_hash opt')); [apply Ho|done|apply (Hdig d eq_refl)|auto].
    - apply wpc_any; [done|]. intros [] h. apply HQ; [by left|by intros []].
    - rewrite Hrun, Hp in Hnone. by specialize (Hnone eq_refl).
    - apply (free_law bad (image_hash opt')); [apply Ho|done|apply Hx|auto]. }
  apply Hfree. intros h Hret1 Hret2. clear Hfree. wpc_step.
  assert (∀ Q : unit → image_run D → Prop,
    (∀ p1 x1, grown (- uri_blocks server) (w_proc w) p1 → 
      match server with None => x1 = x0 | Some s => s = ServerTheorems.server_of Server.m_pid ∧
        ∃ sopt, ServerTheorems.started debug sopt x0 x1 end → Q tt (ImageRun (set_proc p1 (set_hash h w)) x1)) →
    wpc bad (if server is Some _ then zoom r_machine (λ x r, ImageRun (r_worker r) x) Server.free
      else zoom r_worker (λ w r, ImageRun w (r_machine r)) (proc_op release)) Q (ImageRun (set_hash h w) x)) as Huri.
  { intros Q HQ. destruct server as [s|].
    - destruct Hs as (-> & Hh & sopt & Hst). wpc_step. simpl. apply free_machine; [done|].
      replace (set_hash h w) with (set_proc (w_proc w) (set_hash h w)) by (by destruct w).
      apply HQ; [split; [done|simpl; lia|done]|]. split; [done|]. by exists sopt.
    - simpl in Hs. subst x. wpc_step. simpl. apply release_proc; [simpl in *; lia|]. intros p1 Hg1. by apply HQ. }
  simpl. apply Huri. clear Huri. intros p1 x1 Hg1 Hx1. wpc_step. wpc_step. simpl.
  apply release_proc; [destruct Hg1; simpl; lia|]. intros p2 Hg2. wpc_step. wpc_step. simpl.
  pose proof (grown_trans _ _ _ _ _ Hg1 Hg2) as Hg12. simpl in Hg12.
  apply destroy_commands_ok; [destruct Hg12; simpl; lia|]. intros p3 Hg3. simpl in Hg3. rewrite Hq in Hg3.
  pose proof (grown_trans _ _ _ _ _ Hg12 Hg3) as Hg.
  replace (- (uri_blocks server + 1 + 2 * Cli.queue_depth opt')) with
    (- uri_blocks server + -1 + - (2 * Cli.queue_depth opt')) by lia.
  destruct server as [s|].
  - destruct Hx1 as (-> & sopt & Hst). wpc_step. simpl. eapply stop_server_ok; [done..|]. intros x2 Hx2. by split_and!.
  - wpc_step. simpl in *. subst x1. pose proof ServerTheorems.env_leak_nonneg. split; [|by split_and!]. split_and!; try done.
    intros _. split_and!; done || lia.
Qed.

(** ** The program *)

Lemma same_restored x0 x x' :
  same_machine x0 x → restored x x' →
  Server.fds x' = Server.fds x0 ∧ (¬ ServerTheorems.broken → machine_clean x0 x').
Proof using Type.
  intros (E1 & E2 & E3 & E4 & E5) (Hf & _ & _ & Hx). split; [congruence|]. intros (? & ? & ? & ?)%Hx.
  split_and!; [congruence..|lia|lia|]. intros Henv. rewrite (ServerTheorems.env_leak_none Henv) in *. lia.
Qed.

Lemma setup_ok w x :
  wpc bad (setup_signals debug) (λ _ r', r_worker r' = w ∧ same_machine x (r_machine r')) (ImageRun w x).
Proof using Hcase Hsig.
  apply setup_signals_ok; [done|]. intros Hn. apply crash_bad. intros Hf.
  by apply (af_server _ _ _ _ Hf), (ServerTheorems.broken_by Server.SSigaction).
Qed.

Lemma start_worker_ok w : wpc bad (start_worker debug) (λ _ w', w' = w) w.
Proof using Hcase Hsig.
  unfold start_worker, fails. destruct (thread_error =? 0) eqn:Et; simpl; [by wpc_step|].
  apply fail_ends. intros Hf. pose proof (af_thread _ _ _ _ Hf). lia.
Qed.

Lemma join_worker_ok uri opt' h p :
  image_options opt' → adapted opt opt' → uri_ok uri → initial opt' h → 0 <= p_blocks p → 0 <= p_files p →
  wpc bad (join_worker debug uri (worker_opts opt')) (thread_done opt' p) (prepared opt' h p).
Proof using Hcase Hsig DL Himg Hsrc.
  intros Ho Ha Hu Hi Hp Hpn. unfold join_worker, fails. wpc_step.
  eapply (wpc_mono _ _ (λ md w, thread_done opt' p (mjoin md) w)).
  { eapply wpt_joined; [by apply worker_thread_ok|]. intros w (Hl & ? & ? & ?). split; [done..|tauto|done|done]. }
  intros md w Hd. cbv beta. destruct (join_error =? 0) eqn:Ej; simpl; [by wpc_step|].
  apply fail_ends. intros Hf. pose proof (af_thread _ _ _ _ Hf). lia.
Qed.

(** How [main] ends. *)
Record image_done x0 (e : ending) r : Prop := {
  id_blocks : 0 <= p_blocks (w_proc (r_worker r)) <= 1;
  id_files : 0 <= p_files (w_proc (r_worker r)) <= 1;
  id_fds : Server.fds (r_machine r) = Server.fds x0;
  id_machine : ¬ ServerTheorems.broken → machine_clean x0 (r_machine r);
  id_fine : lax ∨ returned (image_hash opt) (w_hash (r_worker r)) ∧ p_blocks (w_proc (r_worker r)) = 0 ∧
    ((∃ line, e = Printed line) ∨ unopened ∧ p_files (w_proc (r_worker r)) = leaked);
  id_line line : e = Printed line → line = line_of (digest_of (D := D) (image_hash opt) image) name ∧
    p_blocks (w_proc (r_worker r)) = 0 ∧ p_files (w_proc (r_worker r)) = 0 ∧
    returned (image_hash opt) (w_hash (r_worker r)) ∧ opened;
}.

Lemma main_image_ok m p x0 :
  ServerTheorems.machine_ok x0 → p_blocks p = 0 → p_files p = 0 → is_running p = true →
  wpc bad (main_image debug name opt) (image_done x0) (ImageRun (zero_worker (fresh_world m) p) x0).
Proof using Hcase Hsig DL Himg Hsrc Hopt.
  intros Hm0 Hp0 Hn0 Hrun. unfold main_image, aio_checksum. wpc_step. eapply wpc_mono; [apply setup_ok|].
  intros _ [w0 x] [Hw0 Hsame]. simpl in Hw0, Hsame. subst w0. pose proof (same_machine_ok _ _ Hsame Hm0) as Hm. cbv beta.
  wpc_step. wpc_step. eapply wpc_mono; [apply init_worker_ok; [done|lia|lia]|].
  intros [[uri server] opt'] [w1 x1] (Ha & Hu & Hs & h & p1 & Hw & Hi & Hg1). simpl in Ha, Hu, Hw, Hi, Hg1. subst w1.
  cbv beta iota. destruct (adapted_ok _ _ Hopt Ha) as (Ho & Hdn & Hbs).
  pose proof (oo_depth _ (io_worker _ Ho)) as Hd. simpl in Hd.
  assert (0 <= blocks_of opt' server) as Hbl by (unfold blocks_of, uri_blocks; destruct server; lia).
  destruct Hg1 as [Hr1 Hb1 Hn1]. unfold work_op. wpc_step. wpc_step. simpl.
  eapply wpc_mono; [apply start_worker_ok|]. intros _ w1 ->. cbv beta. wpc_step. wpc_step. simpl.
  eapply wpc_mono; [apply join_worker_ok; [done..|lia|lia]|]. intros md w2 Hd2. cbv beta. wpc_step.
  eapply wpc_mono; [eapply destroy_worker_ok; [done..|congruence|lia]|]. intros [] [w3 x3] (Hx3 & [Hr3 Hb3 Hn3] & Hret1 & Hret2). simpl in *.
  wpc_step. wpc_step. unfold proc_op. wpc_step. simpl. destruct Hd2 as [_ [Hb2 Hn2] Hr2 Hnone Hdig].
  assert (∀ h, returned (image_hash opt') h → returned (image_hash opt) h) as Hro.
  { unfold returned. simpl. by rewrite Hdn. }
  eapply wpc_mono; [apply finish_main_ok; [done|]|].
  - intros Hmd. rewrite Hr3. auto.
  - intros e p4 (Hb4 & Hn4 & He & Hl).
    assert (∀ line, e = Printed line → line = line_of (digest_of (D := D) (image_hash opt) image) name ∧ p_blocks p4 = 0 ∧
      p_files p4 = 0 ∧ returned (image_hash opt) (w_hash w3) ∧ opened) as Hline.
    { intros line Hline. destruct (Hl line Hline) as (d & -> & ->). destruct (Hdig d eq_refl) as (-> & _ & Hbd & Hnd & ?).
      unfold image_hash at 1, digest_of. simpl. rewrite Hdn, Hbs. split_and!; [done|lia|lia|apply Hro; eauto|done]. }
    split; simpl; try done; [lia|lia|by eapply same_restored..|].
    destruct Hret1 as [?|Hret]; [by left|]. destruct Hr2 as [?|[Hr2|[Hun _ Hbu Hnu]]]; [by left| |].
    + destruct Hcase as [Hf|?]; [right|by left].
      assert (∃ line, e = Printed line) as [line Hprint] by (apply He; [apply Hf|rewrite Hr3, Hr2; congruence]).
      split_and!; [by apply Hro|by apply (Hline line)|by left; exists line].
    + right. split_and!; [by apply Hro|lia|right; split; [done|lia]].
Qed.
End image.

(** A run in which nothing fails, except that the source may not open. *)
Lemma main_image_fine {D : Type} `{DO : !DigestOps D, DL : !DigestLaws D, EV : !Env, OS : !Os, OUT : !Outside,
    ST : !Storage, MA : !Server.Machine} (debug : bool) (name : string) (opt : Cli.options)
    (m : gmap nat (list byte)) (x : Server.machine) (G : nat) (dry : nat → nat) :
  image_options opt → zlen image < 2 ^ 63 → source_truthful → ServerTheorems.machine_ok x →
  all_fine (D := D) G dry name opt →
  ∃ e r', main_image (D := D) debug name opt (ImageRun (zero_worker (fresh_world m) new_proc) x) = Ret e r' ∧
    p_blocks (w_proc (r_worker r')) = 0 ∧ released (w_hash (r_worker r')) ∧ subs (sh (w_hash (r_worker r'))) = ∅ ∧
    Server.fds (r_machine r') = Server.fds x ∧ machine_clean x (r_machine r') ∧
    ((∃ line, e = Printed line) ∨ unopened ∧ p_files (w_proc (r_worker r')) = leaked) ∧
    ∀ line, e = Printed line → line = line_of (digest_of (D := D) (image_hash opt) image) name ∧
      p_files (w_proc (r_worker r')) = 0 ∧ opened.
Proof.
  intros Hopt Himg Hsrc Hm Hf.
  assert (signals_ok) as Hsig by (intros n signum Hn; by rewrite (proj1 (af_os _ _ _ _ Hf) n) in Hn).
  pose proof (main_image_ok debug name opt Hopt Himg Hsrc Hsig G dry (λ _, False) (or_introl Hf) m new_proc x Hm
    eq_refl eq_refl eq_refl) as Hw. unfold wpc in Hw.
  destruct (main_image _ _ _ _) as [e r'|k]; [|done]. destruct Hw as [_ _ Hfd Hx Hfine Hl].
  destruct Hfine as [He|((Hr & _ & Hs) & Hb & He)]; [by destruct (He CExit)|]. exists e, r'.
  split_and!; [done|done|done| |done|apply Hx, (af_server _ _ _ _ Hf)|done|].
  - apply Hs. by destruct (af_lib _ _ _ _ Hf opt (or_introl eq_refl)).
  - intros line Hline. by destruct (Hl line Hline) as (? & _ & ? & _ & ?).
Qed.

(** Blksum prints the block hash of an image.  For every image, every way of
    splitting it into extents and reads, every order in which the source completes
    reads, the library completes updates and its threads run: if nothing fails, the
    program ends, the line it prints is the block hash of the image (of the digest and
    the block size asked for, whatever the read size, queue depth and cache mode were
    adapted to) followed by the name, every block was freed, every file closed and the hash
    released with all its submissions, the server was stopped and reaped, its socket and
    directory are gone and its memory was freed, but for the strings that [free_env] leaks
    if a variable of socket activation was set. *)
Theorem image_checksum_total {D : Type} `{DO : !DigestOps D, DL : !DigestLaws D, EV : !Env, OS : !Os, OUT : !Outside,
    ST : !Storage, MA : !Server.Machine} (debug : bool) (name : string) (opt : Cli.options)
    (m : gmap nat (list byte)) (x : Server.machine) (G : nat) (dry : nat → nat) :
  image_options opt → zlen image < 2 ^ 63 → source_truthful → ServerTheorems.machine_ok x →
  all_fine (D := D) G dry name opt → (∀ n, source_fault n = 0) →
  ∃ r', main_image (D := D) debug name opt (ImageRun (zero_worker (fresh_world m) new_proc) x) =
      Ret (Printed (line_of (digest_of (D := D) (image_hash opt) image) name)) r' ∧
    all_freed r' ∧ subs (sh (w_hash (r_worker r'))) = ∅ ∧
    Server.fds (r_machine r') = Server.fds x ∧ machine_clean x (r_machine r').
Proof.
  intros Hopt Himg Hsrc Hm Hf Hopen.
  destruct (main_image_fine debug name opt m x G dry Hopt Himg Hsrc Hm Hf) as (e & r' & Hr & Hb & Hrel & Hs & Hfd & Hx & He & Hl).
  exists r'. destruct He as [[line ->]|[[n []] _]]; [|done]. destruct (Hl line eq_refl) as (-> & Hn & _).
  split_and!; done || by split_and!.
Qed.


(** C11: blksum never prints a wrong digest.  Whatever fails (system calls, allocations,
    digest functions, reads, the server), in the main thread or in the thread that reads
    the image, whatever signals arrive and however long events take: if [main] reaches its
    end, no descriptor of the server was left open, at most the source of a thread that
    failed (one block and one file) was not freed and closed, and, if no call that manages
    the server failed, qemu-nbd was stopped and reaped, its socket and directory are gone
    and its memory was freed, but for the strings that [free_env] leaks if a variable of
    socket activation was set; and if it prints a line, the line is the block hash of the
    image followed by the name, every block was freed, every file closed and the hash
    released, with all its submissions unless an error was recorded in it. *)
Theorem image_checksum_sound {D : Type} `{DO : !DigestOps D, DL : !DigestLaws D, EV : !Env, OS : !Os, OUT : !Outside,
    ST : !Storage, MA : !Server.Machine} (debug : bool) (name : string) (opt : Cli.options)
    (m : gmap nat (list byte)) (x : Server.machine) :
  image_options opt → zlen image < 2 ^ 63 → source_truthful → signals_ok → ServerTheorems.machine_ok x →
  match main_image (D := D) debug name opt (ImageRun (zero_worker (fresh_world m) new_proc) x) with
  | Ret e r' => 0 <= p_blocks (w_proc (r_worker r')) <= 1 ∧ 0 <= p_files (w_proc (r_worker r')) <= 1 ∧
      Server.fds (r_machine r') = Server.fds x ∧ (¬ ServerTheorems.broken → machine_clean x (r_machine r')) ∧
      ∀ line, e = Printed line → line = line_of (digest_of (D := D) (image_hash opt) image) name ∧ all_freed r' ∧
        (h_error (sh (w_hash (r_worker r'))) = 0 → subs (sh (w_hash (r_worker r'))) = ∅)
  | Crash _ => True
  end.
Proof.
  intros Hopt Himg Hsrc Hsig Hm.
  pose proof (main_image_ok debug name opt Hopt Himg Hsrc Hsig 0 (λ _, 0%nat) (λ _, True) (or_intror (λ _, I)) m new_proc x Hm
    eq_refl eq_refl eq_refl) as Hw. unfold wpc in Hw.
  destruct (main_image _ _ _ _) as [e r'|k]; [|done]. destruct Hw as [Hb Hn Hfd Hx _ Hl].
  split_and!; [lia..|done|done|]. intros line Hline. destruct (Hl line Hline) as (? & ? & ? & (? & ? & _) & _). by split_and!.
Qed.

(** ** A run *)

Module Run.
Import Blksum.Sample Demo.Demo.

(** A raw image on ext4 that is served by qemu-nbd. *)
#[export] Instance storage : Storage := {|
  have_nbd := true;
  open_error := 0;
  probe_read n := if (n =? 0)%nat then IoError EINTR else IoData sample_image;
  f_type := Some 0xef53;
  can_direct := false;
  source_fault _ := 0;
  can_meta := true;
  thread_error := 0;
  join_error := 0;
|}.

(** One interrupted [read] is retried. *)
#[export] Instance outside : Outside := {|
  image := sample_image;
  kind := SrcNbd;
  status := status (Outside := Sample.outside);
  accepts := accepts (Outside := Sample.outside);
  kernel_pread := kernel_pread (Outside := Sample.outside);
  direction := direction (Outside := Sample.outside);
  wakes := wakes (Outside := Sample.outside);
  revents := revents (Outside := Sample.outside);
  notified := notified (Outside := Sample.outside);
  hangup := hangup (Outside := Sample.outside);
  retries := 1;
  loops := loops (Outside := Sample.outside);
|}.

Definition options : Cli.options := Cli.Options "sha256" 3 4 16 2 16 "native" false (Some "disk.img"%string) false 0.

Lemma options_fit : image_options options.
Proof. split; [split; vm_compute; split; congruence|done|]. split; simpl; lia. Qed.

Lemma run_truthful : source_truthful (OUT := outside).
Proof. by destruct Sample.truthful. Qed.

Lemma no_faults : all_fine (D := Toy.digest) (EV := env) (OS := os) (OUT := outside) (MA := ServerTheorems.sample_machine)
  0 (λ _, 0%nat) "disk.img" options.
Proof.
  destruct Sample.fine as [Hp ? ? ? ? ?], Sample.events_come. split; try done.
  - apply sample_os_calm.
  - intros opt' Ha. apply live_opts; destruct Ha as [->|[fi ->]]; try (vm_compute; congruence);
      unfold Cli.optimize_for_nbd_server; repeat (case_match; cbv zeta); vm_compute; congruence.
  - exists 1%nat, sample_image. split_and!; [done| |done|by left]. intros [|i] Hi; [done|lia].
  - by intros (c & n & []).
  - split; try done. intros t. destruct (Hp t) as [? _]. split; [done|]. exists (λ _, 0%nat). split_and!; done || lia.
  - exact loops_enough.
Qed.
End Run.

Import Blksum.Sample Run.

Lemma image_checksum_total_witness :
  ∃ r', main_image (D := Digest.Toy.digest) (EV := Demo.Demo.env) (OS := os) (OUT := Run.outside)
      (MA := ServerTheorems.sample_machine) false "disk.img" Run.options
      (ImageRun (zero_worker (fresh_world ∅) new_proc) ServerTheorems.sample_state) =
      Ret (Printed (line_of (digest_of (D := Digest.Toy.digest) (image_hash Run.options) sample_image) "disk.img")) r' ∧
    all_freed r' ∧ subs (sh (w_hash (r_worker r'))) = ∅ ∧ Server.fds (r_machine r') = ServerTheorems.sample_fds ∧
    machine_clean (MA := ServerTheorems.sample_machine) ServerTheorems.sample_state (r_machine r').
Proof.
  pose proof (image_checksum_total (D := Digest.Toy.digest) (EV := Demo.Demo.env) (OS := os) (OUT := Run.outside)
    (MA := ServerTheorems.sample_machine) false "disk.img" Run.options ∅ ServerTheorems.sample_state 0 (λ _, 0%nat)) as Hx.
  specialize (Hx Run.options_fit ltac:(vm_compute; reflexivity) Run.run_truthful (ServerTheorems.sample_ok _) Run.no_faults (λ _, eq_refl)).
  exact Hx.
Defined.

(** The connection to the server fails. *)
Definition refused : Storage := {|
  have_nbd := true;
  open_error := 0;
  probe_read := probe_read (Storage := Run.storage);
  f_type := Some 0xef53;
  can_direct := false;
  source_fault n := if (n =? 2)%nat then 111 else 0;
  can_meta := true;
  thread_error := 0;
  join_error := 0;
|}.



(** SIGINT arrives while the image is read. *)
#[local] Instance interrupted : Os := {|
  os_stdin := [];
  os_chunk _ := ChunkBytes 1;
  os_signal n := if (n =? 3)%nat then Some 2 else None;
  os_alloc _ := 0;
|}.

Lemma interrupted_signals : signals_ok (OS := interrupted).
Proof. intros n signum. simpl. destruct (n =? 3)%nat; intros [= <-]. lia. Qed.

Lemma image_checksum_sound_witness :
  match main_image (D := Digest.Toy.digest) (EV := Demo.Demo.env) (OS := interrupted) (OUT := Run.outside)
      (MA := ServerTheorems.sample_machine) false "disk.img" Run.options
      (ImageRun (zero_worker (fresh_world ∅) new_proc) ServerTheorems.sample_state) with
  | Ret e r' => 0 <= p_blocks (w_proc (r_worker r')) <= 1 ∧ 0 <= p_files (w_proc (r_worker r')) <= 1 ∧
      Server.fds (r_machine r') = ServerTheorems.sample_fds ∧
      (¬ ServerTheorems.broken (MA := ServerTheorems.sample_machine) →
        machine_clean (MA := ServerTheorems.sample_machine) ServerTheorems.sample_state (r_machine r')) ∧
      ∀ line, e = Printed line →
        line = line_of (digest_of (D := Digest.Toy.digest) (image_hash Run.options) sample_image) "disk.img" ∧ all_freed r' ∧
        (h_error (sh (w_hash (r_worker r'))) = 0 → subs (sh (w_hash (r_worker r'))) = ∅)
  | Crash _ => True
  end.
Proof.
  pose proof (image_checksum_sound (D := Digest.Toy.digest) (EV := Demo.Demo.env) (OS := interrupted) (OUT := Run.outside)
    (MA := ServerTheorems.sample_machine) false "disk.img" Run.options ∅ ServerTheorems.sample_state) as Hx.
  specialize (Hx Run.options_fit ltac:(vm_compute; reflexivity) Run.run_truthful interrupted_signals (ServerTheorems.sample_ok _)).
  exact Hx.
Defined.

(** The n-th notification completes its reads with an error. *)
Definition bad_reads (n : nat) : Outside := {|
  image := sample_image;
  kind := SrcNbd;
  status := status (Outside := Run.outside);
  accepts := accepts (Outside := Run.outside);
  kernel_pread := kernel_pread (Outside := Run.outside);
  direction := direction (Outside := Run.outside);
  wakes := wakes (Outside := Run.outside);
  revents := revents (Outside := Run.outside);
  notified t l := if (t =? n)%nat then (0, (λ id, (id, EIO)) <$> l) else notified (Outside := Run.outside) t l;
  hangup := hangup (Outside := Run.outside);
  retries := 1;
  loops := loops (Outside := Run.outside);
|}.

(** How runs end. *)
Definition outcome `{OS : !Os, OUT : !Outside, ST : !Storage} : option ending :=
  match main_image (D := Digest.Toy.digest) (EV := Demo.Demo.env) (OS := OS) (OUT := OUT) (ST := ST)
      (MA := ServerTheorems.sample_machine) false "disk.img" Run.options
      (ImageRun (zero_worker (fresh_world ∅) new_proc) ServerTheorems.sample_state) with
  | Ret e _ => Some e
  | Crash _ => None
  end.

Example image_runs :
  outcome (OS := os) (OUT := Run.outside) (ST := Run.storage) = Some (Printed "2802a37d  disk.img") ∧
  outcome (OS := interrupted) (OUT := Run.outside) (ST := Run.storage) = Some (Killed 2) ∧
  outcome (OS := os) (OUT := Run.outside) (ST := refused) = Some Failed ∧
  outcome (OS := os) (OUT := bad_reads 0) (ST := Run.storage) = Some Failed.
Proof. vm_compute. done. Qed.

(** A read fails while updates are in flight: the main thread destroys the worker, and
    [blkhash_free] frees submissions that the threads of the library still use.  Later, or
    with nothing in flight, the program ends with an error. *)
Definition slow_reads (n : nat) : Outside := {|
  image := replicate 64 Byte.x01;
  kind := SrcNbd;
  status _ _ _ := BlockStatus 1 [];
  accepts _ := true;
  kernel_pread := kernel_pread (Outside := Run.outside);
  direction := direction (Outside := Run.outside);
  wakes _ _ := Some 0%nat;
  revents := revents (Outside := Run.outside);
  notified t l := (0, match l with id :: _ => [(id, if (t =? n)%nat then EIO else 0)] | [] => [] end);
  hangup _ := false;
  retries := 1;
  loops := 1000;
|}.

Definition slow_run (n : nat) : Prelude.outcome (image_run Digest.Toy.digest) ending :=
  main_image (EV := Demo.Demo.env) (OS := os) (OUT := slow_reads n) (ST := Run.storage) (MA := ServerTheorems.sample_machine) false
    "disk.img" (Cli.Options "sha256" 16 4 16 2 16 "native" false (Some "disk.img"%string) false 0)
    (ImageRun (zero_worker (fresh_world ∅) new_proc) ServerTheorems.sample_state).

Example read_error_uses_freed :
  match slow_run 0 with Ret Failed _ => true | _ => false end = true ∧
  match slow_run 1 with Crash CMemory => true | _ => false end = true ∧
  match slow_run 9 with Ret (Printed _) _ => true | _ => false end = true.
Proof. vm_compute. done. Qed.

(** A digest that the library does not know is found out after the server was started,
    and [FAIL] exits without stopping it: the server, its socket and the temporary
    directory stay. *)
Definition unknown_digest : Cli.options := Cli.Options "md0" 3 4 16 2 16 "native" false (Some "disk.img"%string) false 0.

Example unknown_digest_leaks :
  let r := ImageRun (D := Digest.Toy.digest) (zero_worker (fresh_world ∅) new_proc) ServerTheorems.sample_state in
  match init_source (OS := os) (OUT := Run.outside) (MA := ServerTheorems.sample_machine) false "disk.img" unknown_digest r with
  | Ret _ r' => bool_decide (is_Some (Server.procs (r_machine r') !! 4711)) &&
      bool_decide ("/tmp/blksum-a1b2c3/sock"%string ∈ Server.socks (r_machine r'))
  | _ => false
  end = true ∧
  match main_image (EV := Demo.Demo.env) (OS := os) (OUT := Run.outside) (MA := ServerTheorems.sample_machine) false "disk.img"
    unknown_digest r with Crash CExit => true | _ => false end = true.
Proof. vm_compute. done. Qed.
