(* ===== verification/Main.v ===== *)
(** * blksum from its command line to the line it prints (main of bin/blksum.c)

    [main] parses the options, installs the signal handlers and computes the checksum of
    an image or of the standard input.  The state is that of [Image]: the standard input
    uses the flags and the library of its worker.  Both branches of [main] start with
    [setup_signals]. *)

From stdpp Require Import prelude list strings gmap.
From Stdlib Require Import ZArith QArith Lia.
From S2P Require Import Prelude Ring State Digest Config Blkhash Progress Spec Init Session Client Src Process.
From S2P Require Import Hasher AioChecksum AioInv AioLoop AioHash Blksum Image ImageTheorems.
From S2P Require Cli CliTheorems Server ServerTheorems Checksum ChecksumTheorems.

Local Open Scope Z_scope.

Section main.
Context {D : Type} `{DO : !DigestOps D, EV : !Env, OS : !Os, OUT : !Outside, ST : !Storage, MA : !Server.Machine}.
Context (strtod : string → Q * string) (page_size : Z) (isatty debug : bool).
Abbreviation MI := (M (image_run D)).

(** The flags of the program and the library. *)
Definition stdin_op {A} (m : M (Checksum.program (D := D)) A) : MI A :=
  zoom (λ r, Checksum.Program (w_proc (r_worker r)) (w_hash (r_worker r)))
    (λ c r, ImageRun (set_proc (Checksum.pr_proc c) (set_hash (Checksum.pr_lib c) (r_worker r))) (r_machine r)) m.

(** The global options after [parse_options]. *)
Definition parsed_options (items : list Cli.opt_item) (arg : option string) : MI Cli.options := λ r,
  match Cli.parse_options strtod page_size isatty items arg Cli.default_options with
  | Ret _ opt => Ret opt r
  | Crash k => Crash k
  end.

Definition main (items : list Cli.opt_item) (arg : option string) : MI ending :=
  opt ← parsed_options items arg;
  match Cli.filename opt with
  | Some name => main_image debug name opt
  | None => setup_signals debug;; stdin_op (Checksum.main_stdin debug opt)
  end.
End main.

(** ** What was asked for *)

(** The digest and the block size of a command line. *)
Definition request (strtod : string → Q * string) (r : string * Z) (x : Cli.opt_item) : string * Z :=
  match x with
  | Cli.OptDigest arg => (arg, r.2)
  | Cli.OptBlockSize arg => (r.1, default 0 (Cli.parse_humansize strtod arg))
  | _ => r
  end.

Definition requested (strtod : string → Q * string) (items : list Cli.opt_item) : string * Z :=
  foldl (request strtod) ("sha256"%string, 65536) items.

(** The value of an argument, if it has one, satisfies [P]. *)
Definition arg_fits (strtod : string → Q * string) (P : Z → Prop) (arg : string) : Prop :=
  ∀ v, Cli.parse_humansize strtod arg = Some v → v ≠ - EINVAL → P v.

(** Values that the library and the program can work with; [parse_options] does not
    check them (see [queue_depth_out_of_range] and [block_size_not_checked]). *)
Definition item_fits (strtod : string → Q * string) (x : Cli.opt_item) : Prop :=
  match x with
  | Cli.OptQueueDepth arg => arg_fits strtod (λ v, 1 <= v < 2 ^ 31) arg
  | Cli.OptReadSize arg => arg_fits strtod (λ v, 0 <= v < 2 ^ 31) arg
  | Cli.OptBlockSize arg => arg_fits strtod (λ v, 16 <= v < 2 ^ 31 ∧ v mod 2 = 0) arg
  | _ => True
  end.

(** The line for the data [msg] that was read from [arg]. *)
Definition answer {D} `{DO : !DigestOps D, DL : !DigestLaws D} (strtod : string → Q * string)
    (items : list Cli.opt_item) (arg : option string) (msg : list byte) : string :=
  let '(name, block_size) := requested strtod items in
  line_of (blkhash_spec (hash (D := D) name) block_size msg) (default "-"%string arg).

(** What holds while options with such values are parsed. *)
Record fitting (o : Cli.options) : Prop := {
  fit_threads : 1 <= Cli.threads o <= 128;
  fit_depth : 1 <= Cli.queue_depth o <= 128;
  fit_block : 16 <= Cli.block_size o < 2 ^ 31 ∧ Cli.block_size o mod 2 = 0;
  fit_read : 0 <= Cli.read_size o < 2 ^ 31;
  fit_extents : Cli.extents_size o = 2 ^ 30;
  fit_filename : Cli.filename o = None;
}.

Definition asked (o : Cli.options) : string * Z := (Cli.digest_name o, Cli.block_size o).

Lemma s32_small v : 0 <= v < 2 ^ 31 → s32 v = v.
Proof. intros Hv. unfold s32. rewrite Z.mod_small; lia. Qed.

Lemma u64_small v : 0 <= v < 2 ^ 31 → u64 v = v.
Proof. intros Hv. unfold u64. apply Z.mod_small. lia. Qed.

Section parse.
Context (strtod : string → Q * string) (page_size : Z) (isatty : bool).
Local Abbreviation anyhow := (λ _ : crash, True).

Lemma int_value_parsed arg (Q : Z → Cli.options → Prop) o :
  (∀ v, Cli.parse_humansize strtod arg = Some v → Q (s32 v) o) → wpc anyhow (Cli.int_value strtod arg) Q o.
Proof using Type.
  intros HQ. unfold Cli.int_value. wpc_step. unfold wpc, derefM.
  by destruct (Cli.parse_humansize strtod arg) as [v|]; [apply HQ|].
Qed.

(** An argument that is not a number ends the program. *)
Lemma int_value_fits P arg (k : Z → M Cli.options unit) (Q : unit → Cli.options → Prop) o :
  arg_fits strtod P arg → (∀ v, P v → 0 <= v < 2 ^ 31) → wpc anyhow (k (- EINVAL)) Q o →
  (∀ v, Cli.parse_humansize strtod arg = Some v → P v → wpc anyhow (k v) Q o) →
  wpc anyhow (v ← Cli.int_value strtod arg; k v) Q o.
Proof using Type.
  intros Ha HP Hk HQ. wpc_step. apply int_value_parsed. intros v Hv. destruct (decide (v = - EINVAL)) as [->|Hn]; [done|].
  pose proof (Ha v Hv Hn) as Hp. rewrite s32_small by auto. by apply HQ.
Qed.

Lemma parse_item_fits x o :
  item_fits strtod x → fitting o →
  wpc anyhow (Cli.parse_item strtod page_size isatty x)
    (λ _ o', fitting o' ∧ asked o' = request strtod (asked o) x) o.
Proof using Type.
  intros Hx [Ht Hq [Hb He] Hr Hs Hf]. destruct x; simpl in *; try done.
  - wpc_step. apply int_value_parsed. intros v _. destruct (_ || _) eqn:E; [done|]. wpc_step.
    rewrite !orb_false_iff in E. unfold Cli.MAX_THREADS in E. split; [|done].
    split; try done. simpl. unfold u32. rewrite Z.mod_small; lia.
  - eapply int_value_fits; [done|cbv beta; lia|done|]. intros v Hv Hx'. cbv beta in Hx'.
    destruct (_ || _) eqn:E; [done|]. wpc_step. rewrite !orb_false_iff in E. unfold Cli.MAX_QUEUE_DEPTH in E. split; [|done].
    split; try done. simpl. rewrite u64_small; lia.
  - eapply int_value_fits; [done|cbv beta; lia|done|]. intros v Hv Hx'. cbv beta in Hx'.
    destruct (_ =? _); [done|]. wpc_step. split; [|done]. split; try done. simpl. rewrite u64_small; lia.
  - eapply int_value_fits; [done|cbv beta; lia|done|]. intros v Hv Hx'. cbv beta in Hx'.
    destruct (_ =? _); [done|]. do 2 wpc_step. destruct (fails _); [done|]. wpc_step.
    rewrite Hv. unfold asked. simpl. rewrite u64_small by lia. split; [|done]. split; try done; simpl; rewrite u64_small by lia; done.
Qed.

Lemma parse_items_fit l o :
  Forall (item_fits strtod) l → fitting o →
  wpc anyhow (Cli.parse_items strtod page_size isatty l)
    (λ _ o', fitting o' ∧ asked o' = foldl (request strtod) (asked o) l) o.
Proof using Type.
  intros Hl. revert o. induction Hl as [|x l Hx Hl IH]; intros o Ho; simpl; [done|]. wpc_step.
  eapply wpc_mono; [by apply parse_item_fits|]. intros [] o' [Ho' <-]. by apply IH.
Qed.

(** Options that were accepted suit an image and the standard input. *)
Record accepted (items : list Cli.opt_item) (arg : option string) (o : Cli.options) : Prop := {
  ac_image : image_options o;
  ac_stdin : ChecksumTheorems.stdin_options o;
  ac_asked : asked o = requested strtod items;
  ac_filename : Cli.filename o = arg;
}.

Lemma fitting_accepted o : fitting o → Cli.block_size o <= Cli.read_size o →
  image_options o ∧ ChecksumTheorems.stdin_options o.
Proof using Type.
  intros [Ht Hq [Hb He] Hr Hs Hf] Hle. assert (2 ^ 30 = 1073741824) as E by reflexivity.
  assert (∀ d, 0 <= d < 2 ^ 29 → valid_opts (Opts (Cli.digest_name o) (Cli.block_size o) d (Cli.threads o))) as Hv.
  { intros d Hd. split; simpl; [lia|unfold MAX_THREADS; lia|done]. }
  split; split; try done; [apply Hv; lia| |apply Hv; lia|lia]. split; simpl; lia.
Qed.

Lemma parse_options_accepted items arg o :
  Forall (item_fits strtod) items →
  Cli.parse_options strtod page_size isatty items arg Cli.default_options = Ret tt o → accepted items arg o.
Proof using Type.
  intros Hl Hp. assert (wpc anyhow (Cli.parse_options strtod page_size isatty items arg)
    (λ _, accepted items arg) Cli.default_options) as Hw.
  { unfold Cli.parse_options. wpc_step. eapply wpc_mono; [apply (parse_items_fit _ Cli.default_options Hl); by split|].
    intros [] o1 [Ho Ha]. do 2 wpc_step. wpc_step. destruct (_ =? 0); [done|]. wpc_step.
    destruct (fails _); [done|]. destruct (_ <? _) eqn:El; [done|].
    destruct (fitting_accepted o1 Ho ltac:(lia)) as [[Hv ? ?] [Hv' ? ?]]. pose proof (fit_filename _ Ho).
    destruct arg; wpc_step; split; try done; by split. }
  unfold wpc in Hw. by rewrite Hp in Hw.
Qed.
End parse.

(** ** The whole program *)

(** Nothing fails while the data named by [arg] is read. *)
Definition fair_weather {D} `{DO : !DigestOps D, DL : !DigestLaws D, EV : !Env, OS : !Os, OUT : !Outside, ST : !Storage,
    MA : !Server.Machine} (G : nat) (dry : nat → nat) (arg : option string) (o : Cli.options) : Prop :=
  match arg with
  | Some name => all_fine (D := D) G dry name o ∧ ∀ n, source_fault n = 0
  | None => calm_os ∧ live_env (D := D) (config_for (ChecksumTheorems.hash_opts o)) ∧
      ∀ n, Server.m_fault Server.SSigaction n = 0
  end.

Section program_ok.
Context {D : Type} `{DO : !DigestOps D, DL : !DigestLaws D, EV : !Env, OS : !Os, OUT : !Outside, ST : !Storage}.
Context `{MA : !Server.Machine} (strtod : string → Q * string) (page_size : Z) (isatty debug : bool).
Context (items : list Cli.opt_item) (arg : option string) (o : Cli.options).
Context (Hfit : Forall (item_fits strtod) items).
Context (Hparse : Cli.parse_options strtod page_size isatty items arg Cli.default_options = Ret tt o).
Context (Himg : zlen image < 2 ^ 63) (Hin : zlen os_stdin < 2 ^ 64) (Hsrc : source_truthful) (Hsig : signals_ok).
Context (G : nat) (dry : nat → nat) (bad : crash → Prop).
Local Abbreviation fine := (fair_weather (D := D) G dry arg o).
Context (Hcase : fine ∨ ∀ k, bad k).

(** What the program reads. *)
Definition input : list byte := match arg with Some _ => image | None => os_stdin end.

(** The outcome of a run that started on the machine [x]. *)
Record main_done (x : Server.machine) (e : ending) (r : image_run D) : Prop := {
  md_line line : e = Printed line → line = answer (D := D) strtod items arg input ∧ all_freed r ∧
    (h_error (sh (w_hash (r_worker r))) = 0 → subs (sh (w_hash (r_worker r))) = ∅);
  md_fds : Server.fds (r_machine r) = Server.fds x;
  md_clean : ¬ ServerTheorems.broken → machine_clean x (r_machine r);
  md_fine : (∀ k, bad k) ∨ (∃ line, e = Printed line) ∧ subs (sh (w_hash (r_worker r))) = ∅ ∧ machine_clean x (r_machine r);
}.

(** A machine on which no server was started. *)
Lemma same_machine_clean x x' : same_machine x x' → machine_clean x x'.
Proof using Type.
  intros (? & ? & ? & ? & ?). pose proof ServerTheorems.env_leak_nonneg. split_and!; done || lia.
Qed.

Lemma main_stdin_done m x :
  arg = None →
  wpc bad (setup_signals debug;; stdin_op (Checksum.main_stdin debug o)) (main_done x)
    (ImageRun (zero_worker (fresh_world m) new_proc) x).
Proof using Hcase Hsig Hin Hparse Hfit.
  intros Harg. destruct (parse_options_accepted _ _ _ _ _ _ Hfit Hparse) as [_ Hst Hask _].
  unfold fair_weather in Hcase. rewrite Harg in Hcase.
  wpc_step. eapply wpc_mono; [apply setup_signals_ok; [done|]|].
  { intros [n Hn]. destruct Hcase as [(_ & _ & Hs)|Hb]; [by rewrite Hs in Hn|done]. }
  intros _ [w1 x1] [Hw Hsame]. simpl in Hw, Hsame. subst w1. cbv beta. pose proof (same_machine_clean _ _ Hsame).
  unfold stdin_op. wpc_step. simpl. eapply wpc_mono.
  - apply (ChecksumTheorems.stdin_main_ok o debug Hst Hsig Hin bad).
    + destruct Hcase as [(_ & Hl & _)|Hb]; auto.
    + intros Hc. destruct Hcase as [(Hcalm & [Hl _] & _)|Hb]; [|done]. by destruct Hc.
  - intros e [p h] [Hcalm Hline]. split; simpl.
    + intros line He. destruct (Hline line He) as (-> & ? & ? & ? & ? & _). split_and!; [|by split_and!|done]. unfold answer, input.
      rewrite <-Hask, Harg. done.
    + apply Hsame.
    + done.
    + destruct Hcase as [(Hc & [Hl _] & _)|?]; [right|by left]. destruct (Hcalm Hc Hl) as [line He].
      destruct (Hline line He) as (_ & _ & _ & _ & _ & Hs). split_and!; [by exists line|by apply Hs|done].
Qed.

Lemma main_image_done m x name :
  ServerTheorems.machine_ok x → arg = Some name →
  wpc bad (main_image debug name o) (main_done x) (ImageRun (zero_worker (fresh_world m) new_proc) x).
Proof using Hcase Hsig Himg Hsrc Hparse Hfit.
  intros Hm Harg. destruct (parse_options_accepted _ _ _ _ _ _ Hfit Hparse) as [Hio _ Hask _].
  unfold fair_weather in Hcase. rewrite Harg in Hcase. eapply wpc_mono.
  { apply (main_image_ok debug name o Hio Himg Hsrc Hsig G dry bad); [|done..]. destruct Hcase as [[? _]|?]; auto. }
  intros e r [_ _ Hfd Hx He Hl]. split; [|done|done|].
  - intros line Hline. destruct (Hl line Hline) as (-> & ? & ? & (? & ? & _) & _). split_and!; [|by split_and!|done].
    unfold answer, input. by rewrite <-Hask, Harg.
  - destruct He as [?|((_ & _ & Hs) & _ & He)]; [by left|]. destruct Hcase as [[Hfine Hopen]|?]; [right|by left].
    destruct He as [He|[[n Hn] _]]; [|by rewrite Hopen in Hn]. split_and!; [done| |apply Hx, (af_server _ _ _ _ Hfine)].
    apply Hs. by destruct (af_lib _ _ _ _ Hfine o (or_introl eq_refl)).
Qed.

Lemma program_ok m x :
  ServerTheorems.machine_ok x →
  wpc bad (main strtod page_size isatty debug items arg) (main_done x) (ImageRun (zero_worker (fresh_world m) new_proc) x).
Proof using All.
  intros Hm. unfold main. wpc_step. unfold wpc at 1, parsed_options. rewrite Hparse.
  pose proof (ac_filename _ _ _ _ (parse_options_accepted _ _ _ _ _ _ Hfit Hparse)) as Hn.
  destruct (Cli.filename o) as [name|]; [by apply main_image_done|by apply main_stdin_done].
Qed.
End program_ok.


(** C8: blksum answers every command line that it accepts.  If [parse_options] accepts
    options with sizes the program can work with, no system call fails, no signal arrives,
    and the threads and the source make progress, then the program ends and prints the
    digest of its input for the digest and the block size of the command line, every block
    it allocated was freed, every file closed and the hash released with all its
    submissions, and no process, descriptor, socket, directory or memory of the server is
    left, but for the strings that [free_env] leaks if a variable of socket activation
    was set. *)
Theorem main_total {D : Type} `{DO : !DigestOps D, DL : !DigestLaws D, EV : !Env, OS : !Os, OUT : !Outside, ST : !Storage,
    MA : !Server.Machine} (strtod : string → Q * string) (page_size : Z) (isatty debug : bool)
    (items : list Cli.opt_item) (arg : option string) (o : Cli.options) (m : gmap nat (list byte)) (x : Server.machine)
    (G : nat) (dry : nat → nat) :
  Forall (item_fits strtod) items →
  Cli.parse_options strtod page_size isatty items arg Cli.default_options = Ret tt o →
  zlen image < 2 ^ 63 → zlen os_stdin < 2 ^ 64 → source_truthful → ServerTheorems.machine_ok x →
  fair_weather (D := D) G dry arg o →
  ∃ r', main strtod page_size isatty debug items arg (ImageRun (zero_worker (fresh_world m) new_proc) x) =
      Ret (Printed (answer (D := D) strtod items arg (input arg))) r' ∧
    all_freed r' ∧ subs (sh (w_hash (r_worker r'))) = ∅ ∧
    Server.fds (r_machine r') = Server.fds x ∧ machine_clean x (r_machine r').
Proof.
  intros Hfit Hp Himg Hin Hsrc Hm Hf.
  assert (calm_os) as Hc by (destruct arg; apply Hf).
  assert (signals_ok) as Hsig by (intros n signum Hn; by rewrite (proj1 Hc n) in Hn).
  pose proof (program_ok strtod page_size isatty debug items arg o Hfit Hp Himg Hin Hsrc Hsig G dry
    (λ _, False) (or_introl Hf) m x Hm) as Hw.
  unfold wpc in Hw. destruct (main _ _ _ _ _ _ _) as [e r'|k]; [|done]. destruct Hw as [Hl Hfd _ Hfine].
  destruct Hfine as [Hfine|([line ->] & ? & ?)]; [by destruct (Hfine CExit)|]. exists r'. destruct (Hl line eq_refl) as (-> & ? & _).
  by split_and!.
Qed.

(** ** Runs *)

Module Shell.
Import Blksum.Sample ImageTheorems.Run Demo.Demo.

(** [blksum -d sha256 -t 2 --queue-depth 4 --read-size 1k --block-size 16] *)
Definition items : list Cli.opt_item :=
  [Cli.OptDigest "sha256"; Cli.OptThreads "2"; Cli.OptQueueDepth "4"; Cli.OptReadSize "1k"; Cli.OptBlockSize "16"].

Definition parsed (arg : option string) : Cli.options :=
  Cli.Options "sha256" 1024 4 16 2 (2 ^ 30) "native" false arg false 3.

Lemma items_fit : Forall (item_fits CliTheorems.decimal_strtod) items.
Proof.
  unfold items. rewrite !Forall_cons. split_and!; try done; intros v Hv _; vm_compute in Hv; injection Hv as <-; vm_compute;
    split_and!; congruence.
Qed.

Lemma items_parse arg :
  Cli.parse_options CliTheorems.decimal_strtod 4096 false items arg Cli.default_options = Ret tt (parsed arg).
Proof. destruct arg; reflexivity. Qed.

(** The program started with some arguments. *)
Definition run (OS : Os) (arg : option string) : Prelude.outcome (image_run Digest.Toy.digest) ending :=
  main (D := Digest.Toy.digest) (EV := env) (OS := OS) (OUT := Run.outside) (ST := Run.storage)
    (MA := ServerTheorems.sample_machine) CliTheorems.decimal_strtod 4096 false false items arg
    (ImageRun (zero_worker (fresh_world ∅) new_proc) ServerTheorems.sample_state).
End Shell.

Import Shell.

Definition line_of_run (r : Prelude.outcome (image_run Digest.Toy.digest) ending) : option ending :=
  match r with Ret e _ => Some e | Crash _ => None end.

(** An image, the standard input, and an image that is interrupted. *)
Example main_runs :
  line_of_run (run Blksum.Sample.os (Some "disk.img"%string)) = Some (Printed "2802a37d  disk.img") ∧
  line_of_run (run ChecksumTheorems.StdinDemo.os None) = Some (Printed "a19a0236  -") ∧
  line_of_run (run ImageTheorems.interrupted (Some "disk.img"%string)) = Some (Killed 2).
Proof. vm_compute. done. Qed.



Lemma disk_fine : fair_weather (D := Digest.Toy.digest) (EV := Demo.Demo.env) (OS := Blksum.Sample.os) (OUT := Run.outside)
  (ST := Run.storage) (MA := ServerTheorems.sample_machine) 0 (λ _, 0%nat) (Some "disk.img"%string) (parsed (Some "disk.img"%string)).
Proof.
  destruct Run.no_faults as [? _ ? ? ? ? ? ? ? ?]. split; [|done]. split; try done.
  intros opt' Ha. apply Demo.Demo.live_opts; destruct Ha as [->|[fi ->]]; try (vm_compute; congruence);
    unfold Cli.optimize_for_nbd_server; repeat (case_match; cbv zeta); vm_compute; congruence.
Qed.

Lemma main_total_witness :
  ∃ r', run Blksum.Sample.os (Some "disk.img"%string) =
      Ret (Printed (answer (D := Digest.Toy.digest) CliTheorems.decimal_strtod items (Some "disk.img"%string)
        (image (Outside := Run.outside)))) r' ∧
    all_freed r' ∧ subs (sh (w_hash (r_worker r'))) = ∅ ∧ Server.fds (r_machine r') = ServerTheorems.sample_fds ∧
    machine_clean (MA := ServerTheorems.sample_machine) ServerTheorems.sample_state (r_machine r').
Proof.
  pose proof (main_total (D := Digest.Toy.digest) (EV := Demo.Demo.env) (OS := Blksum.Sample.os)
    (OUT := Run.outside) (ST := Run.storage) (MA := ServerTheorems.sample_machine)
    CliTheorems.decimal_strtod 4096 false false items (Some "disk.img"%string) (parsed (Some "disk.img"%string)) ∅
    ServerTheorems.sample_state 0 (λ _, 0%nat) items_fit (items_parse _) ltac:(vm_compute; reflexivity)
    ltac:(vm_compute; reflexivity) Run.run_truthful (ServerTheorems.sample_ok _) disk_fine) as Hx.
  exact Hx.
Defined.
